(* ===== verification/_CoqProject ===== *)
-Q . S2P
Prelude.v
U64.v
Collections.v
Btree.v
Address.v
Subnet.v
Trie.v
Pool.v
Restart.v
Common.v
Decider.v
OneForOne.v
AllForOne.v
MixedSup.v
NameService.v
Registration.v
Container.v
UniformSup.v
Workers.v
Timer.v
Registry.v
Routes.v
Protocols.v
Manager.v
Ingress.v
Wire.v
Stream.v
Dispatch.v
MessageAttr.v
TestRt.v
Connection.v
Remote.v
Network.v
Codec.v
Config.v
Server.v
Acceptor.v
LogFilter.v
Context.v
Wakeup.v
Delivery.v
Ping.v
Tasks.v
Drain.v
Spawn.v
Start.v
Stop.v
Init.v
Boot.v
Ask.v
Exchange.v
Invoke.v
Runnable.v
Mailbox.v
Lifecycle.v
Serial.v
MnMgr.v
Typed.v
Tracing.v
