(* ===== verification/Prelude.v ===== *)
(** * mm1: a verification of the actor runtime

    mm1 is an Erlang-style actor system for Rust. A node owns a subnet of 64-bit
    addresses and leases blocks of it to actors; actors exchange messages through
    per-subnet mailboxes found in a registry; links and watches tell actors of
    each other's ends; supervisors restart children; a name service and a timer
    are actors on top. Nodes are joined by connections, over which they tell each
    other which nets they reach and forward messages. This library models these
    parts as executable Gallina definitions and proves what each promises.

    ** Files and the code they model

    The base:

    - [U64], [Collections], [Btree]: 64-bit words, [BTreeSet] and [BTreeMap], and
      the interfaces of the slotmap and bimap crates ([SlotMap], [BiMap]).
    - [Common]: [libs/mm1-common/src]: bytes as text ([serde.rs]), measured futures
      ([metrics.rs]), caught panics and chains of errors.

    Addresses ([libs/mm1-address/src]):

    - [Address]: [address.rs], the text form of addresses.
    - [Subnet]: [subnet.rs], [subnet/net_mask.rs], [address_range.rs]: masks,
      subnets, ranges and the overlap order.
    - [Trie]: [pool/trie.rs], the trie of free blocks.
    - [Pool]: [pool.rs], leases over two tries.
    - [Serial]: the forms in which addresses, masks and subnets are stored or sent,
      and those of log targets ([mm1-logger]) and of the addresses of connections in
      a configuration ([core/mm1-node/src/config.rs]).

    Supervision ([components/mm1-sup/src]):

    - [Restart]: [common/restart_intensity.rs].
    - [Decider]: [mixed/decider.rs], the trait as the class [Decider] and what a
      supervisor relies on as [DeciderLaws]; the scan of the children that both
      strategies perform; the driver used to state liveness.
    - [OneForOne], [AllForOne]: [mixed/strategy/*.rs], the two instances of
      [Decider] and [DeciderLaws].
    - [MixedSup]: [mixed/sup_actor.rs], [mixed/sup_child.rs],
      [mixed/spec_builder.rs], [mixed.rs], [common/child_spec.rs],
      [common/factory.rs]: the supervisor's loop, proved against [DeciderLaws].
    - [UniformSup]: [uniform.rs], [uniform/sup_actor.rs].

    Messages and macros:

    - [Dispatch]: [core/mm1-core/src/message.rs], [envelope.rs], and the macro
      [dispatch!] of [libs/mm1-proc-macros/src/dispatch.rs], a compiler from arms to
      casts with the meaning of its output.
    - [MessageAttr]: [libs/mm1-proc-macros/src/message.rs], the attribute [message].
    - [Tracing]: [core/mm1-core/src/tracing.rs], the trace of a message, of a task
      and of a handler.

    Services:

    - [NameService], [Registration]: [components/mm1-name-service/src/server.rs],
      [api.rs]: the server, the resolver, and a client that keeps its name.
    - [Timer]: [components/mm1-timer/src/v1.rs], server and client, over the
      interface [SlotMap].
    - [Server]: [components/mm1-server/src], the dispatch of messages to handlers,
      and the connectors of [mm1-multinode], which are built on it.
    - [Ask]: [libs/mm1-ask/src/ask.rs], request and response; [Exchange]: its
      composition with [Delivery].
    - [LogFilter]: [libs/mm1-logger/src/level_filter_trie.rs], [config.rs].

    The node ([core/mm1-node/src]):

    - [Runnable]: [core/mm1-runnable/src/local], [core/mm1-core/src/actor_exit.rs]:
      functions as actors, as interaction trees of the calls they make.
    - [Container]: [runtime/container.rs], [sys_msg.rs], [sys_call.rs]: the loop
      that runs an actor; [Invoke]: the channel of the calls to it.
    - [Registry]: [registry.rs], over the interface [TreeIndex] of the concurrent
      tree of the scc crate; the two-lane mailbox; [Mailbox]: the strong and weak
      references to it, as counts; [Lifecycle]: the composition of [Pool],
      [Registry] and [Mailbox], from the creation of an actor to the drop of its
      last context.
    - [Context]: [runtime/context.rs], [runtime/context/impl_context_api.rs]: forks,
      inboxes, receiving, forwarding, binding; [Ping]: the wait for a pong.
    - [Wakeup]: [recv] of several forks at once, step by step, with the permits of
      tokio's [Notify]; [Delivery]: the composition of [Registry] and [Context], from
      a send to a receive.
    - [Tasks]: [runtime/task_registry.rs]; [Drain]: its [wait_for_empty] and the
      shutdown of [runtime/rt_api.rs], interleaved with the tasks.
    - [Config]: [config.rs], [config/*.rs], [actor_key.rs]: the configuration, its
      validation, and the lookups of [runtime/rt_api.rs].
    - [Spawn]: [do_spawn] and [Container::create]: the composition of [Pool],
      [Registry], [Tasks] and [Config] that starts an actor.
    - [Start]: [do_start] and the actor's calls to its container: the composition of
      the containers of a parent, its fork and its child.
    - [Stop]: [core/mm1-core/src/context/stop.rs], the shutdown of a peer: the
      composition of the containers of both sides.
    - [Init]: [init.rs], the first actor, in front of the manager of [Manager].
    - [Boot]: [runtime/rt.rs], the creation and the run of a node: the composition
      of [Config], [Spawn] and the first container.

    The test runtime ([core/mm1-test-rt/src]):

    - [TestRt]: [rt/context.rs], [rt/query.rs], [rt/event.rs], [rt/runtime.rs]: the
      queries of scripted actors, the events the test sees, and their answers.

    The network ([components/mm1-multinode/src]):

    - [Routes]: [route_registry.rs].
    - [Protocols]: [codec.rs], [protocol_registry.rs], [multiple_protocols.rs].
    - [Manager]: [actors/multinode_manager.rs], every handler of the manager.
    - [Ingress]: [actors/subnet_ingress.rs], a client of the manager's routes.
    - [Wire]: the frames, the cookie handshake and the hello of
      [actors/iostream_connection/*.rs], over the interface [Bincode].
    - [Stream]: [iostream_write.rs], [iostream_read_loop.rs].
    - [Connection]: [actors/iostream_connection.rs], between the two streams and
      the manager; [Remote]: its [run] and event loop, and the composition of the
      connections of two nodes; [Network]: the managers of two nodes and the
      connection between them; [Codec]: the codecs of [codec.rs]; [Typed]: the
      composition of [Remote] and [Codec]; [MnMgr]: [iostream_connection/mn_mgr.rs],
      a connection's requests to the manager.
    - [Workers]: the start of the manager and of its seven supervisors, in front of
      [UniformSup].
    - [Acceptor]: [actors/tcp_acceptor.rs], [actors/uds_acceptor.rs]: the accept
      loop, and the socket's lock file among any number of processes.

    ** How the code is rendered

    A function that can panic is a function into [outcome]; an [assert!], an
    [expect] and (in the debug build that is modelled) a [debug_assert!] that
    fails is [Panic], so that the absence of panics is part of the theorems. A
    [Result] is a value of [result]. Addresses and other 64-bit words are
    integers with the wrap-around written out; instants and durations are
    integers of nanoseconds with the bounds of [std::time]. A [HashMap] is a
    [gmap], a [Vec] of pairs a list. Where the order of a [HashSet] could matter
    the iteration goes through a class that fixes no order ([HashSetIter],
    [HashSetOrder]). An [async] actor is a function of one turn: what it receives,
    the clock, and the answers of the runtime (does a fork succeed, does a send
    reach its addressee) are inputs, what it sends is a list of outputs in the
    order of the code; a run is the fold of turns over any list of inputs. An
    exchange with another actor that is modelled too (a connection and the
    manager, the ingress and the manager, init and the manager) is composed in
    the theorems about both. Logging is left out.

    ** Third-party code

    What the sources only call is an interface: a class of operations with the
    documented laws the code relies on, instantiated where a witness needs it.
    [SlotMap] (an insertion gives an unused key), [BiMap] (the two directions
    agree), [TreeIndex] (insertion, removal and lookup), [Bincode] (decoding
    undoes encoding, and a header fits its frame), [FileLocks] (a lock has one
    owner and goes when its file is closed), [MessagePack] (reading undoes
    writing), [TaskLocal] (a value is set within its scope and nowhere else),
    [IpText] and [Url], the levels of tracing, and the outcome of tokio's runtime
    builder (whose setters panic on zero threads, as documented). The trees of [Runnable] are those of the ITree library.
    The behaviour of tokio's [Notify] (one stored permit), of its channels and of
    [FuturesUnordered] is written out where it is used, as documented.

    ** Fuel

    Loops without a structural measure have an explicit bound, and a theorem that
    the bound is enough: [alloc_watch_ref] gets one turn more than there are
    references in use ([watch_ref_fresh]), [drain_range] the size of the set it
    empties ([down_reports_watches]), [fire_loop] the number of deadlines
    ([timer_fires_due]), [runtime_keys_loop] the number of nodes of the tree it
    walks ([validate_correct]), [drain_waitlist] the number of waiters
    ([waiters_answered_once]), [read_loop] one turn for every 48 bytes, and one more
    ([read_loop_exact]). [drive], which plays a cooperative world against a
    decider, gets the number of actions the liveness theorems name.

    ** What the theorems show

    - addresses: printing and parsing are inverse, on addresses and subnets, and so
      are storing and reading, in any format ([serial_roundtrip]);
      ranges and canonical subnets correspond; the order of ranges is overlap
      and position.
    - pool: the trie denotes a set of free addresses; acquiring and releasing
      remove and add exactly one aligned block and never trip an assertion;
      live leases are disjoint, a lease fails only if no block is free, and all
      space comes back.
    - supervision: the restart statistics count a sliding window; deciders keep
      keys and addresses unique, restart one child and count it ([ofo_restart]),
      start in order, stop in reverse order and
      finish; the supervisor carries out the decider's actions, restarts a group
      once it gets one more message after the last stop ([afo_group_restarts]), and panics for two
      reasons only; the uniform supervisor's tables agree and all children are
      reaped.
    - names: the table with its lazy expiry refines a table of current holders;
      a resolution never offers an expired registration; a client that renews
      in good time keeps its name ([registration_kept]).
    - timer: exactly the due messages are sent, in order, up to the first that
      cannot be sent, which ends the server ([timer_fires_due]); a scheduled message can
      be cancelled until it is sent ([schedule_roundtrip]).
    - servers, requests: a message goes to the handler of its type; a connector
      keeps trying; an ask returns the response to its own
      request once it has been accepted ([ask_exchange]); a log statement applies to what
      is below its target.
    - runtime: the table of exit signals; watch references are unique and agree
      with the watches; the end of an actor is told to every peer, once; the registry
      routes an address to the one node registered for it; a running actor's mailbox stays reachable through
      its address and its references ([registration_lasts]); an actor does what its
      function does and quits once ([actor_quits_once]); calls are taken in order
      ([calls_in_order]); sorting inlets loses no message; messages between
      two actors arrive in order, once ([delivery_in_order]); a fork that waits with a
      message in its inbox is woken ([no_lost_wakeup]); forwarding is bounded by the
      time to live; what comes of a message is sent in its trace
      ([traces_follow_messages]); a ping that succeeds was answered; a shutdown settles, and neither
      hangs nor gives up early ([shutdown_drains]).
    - macros: the code that [dispatch!] produces does what a [match] over types would
      ([dispatch_correct]); [message] takes its arguments in any order.
    - test runtime: a test that answers every event in time never panics
      ([patient_test_never_panics]); every query is answered or pending.
    - utilities: bytes written as text are read back; measuring a future changes
      neither its result nor its progress ([measured_transparent]).
    - configuration: validation accepts exactly the configurations that say what
      it means to demand, and on those the lookups do not panic ([validate_correct],
      [valid_config_runs]).
    - composition of the node: a spawn accounts for its lease, its task and its
      mailbox on every path ([spawn_accounts]); a start hands the link over
      ([start_hands_over]); a shutdown ends when the peer has ended, which it is
      made to ([shutdown_completes]); a valid configuration runs if its runtimes have
      threads and its subnet is large enough ([node_runs]); the manager knows the subnets of the configuration
      after init ([init_tells_subnets]).
    - routes: the three tables refine one set of routes ([set_route_refines]); on
      an address plan the least distance is found ([find_route_shortest]); the
      loss of a gateway removes its routes ([down_purges_gateway]); an ingress
      that has been told what the manager announced routes as the manager would
      ([ingress_routes_shortest]).
    - protocols and connections: keys of messages never change; the manager does
      not panic and answers every waiter once; a handshake succeeds only with the
      peer's cookie; what the writer writes the reader reports, in order
      ([stream_roundtrip]), and of any bytes it reports the frames there are, up to the
      first that is none ([read_loop_exact]), and the peer's connection knows every type it is sent
      ([peer_understands]); messages to a gateway come out at the next node unchanged
      and in order, through handshake, stream and handlers ([remote_delivery],
      [typed_roundtrip]), and a value as the same value of the same type
      ([typed_delivery]); the manager answers a connection's requests as the
      connection expects ([manager_serves_connection]); the routes of a node reach the next, one hop further
      ([routes_learnt]); a net is not announced back to its own gateway
      ([split_horizon]); the workers of a manager are wired to each other by
      transport, and run once ([workers_wired], [workers_run_once]); one acceptor at a time has a socket, and a stale one is
      replaced ([acceptors_exclusive], [stale_socket_replaced]).

    Some theorems pin down behaviour that is surprising: [release_twice],
    [report_exit_unbounded_window], [uniform_exit_decision],
    [afo_crash_cancels_shutdown], [afo_restart_stalls], [unregister_overlap],
    [duplicate_announces], [late_pong_hides], [lock_race], [route_unreported] (which is why
    [routes_learnt] asks for routes in the order of their nets), [mut_dropped],
    [attributes_ignored], [fork_key_kept], [hex_accepts_sign], [chains_differ],
    [late_drop_unregisters] (which is why [registration_lasts] asks that a subnet is
    not registered again before the last context of its former actor is dropped),
    [dropped_call_returns], [unaligned_net_read], [def_addr_from_url], [no_workers_panics].

    ** Not modelled

    Sockets themselves; serde's derived code and the parsers of URLs and IP
    addresses; the building of tokio's runtimes and its scheduler; the set-up of
    logging; the texts of log lines; the protocol crates, which declare message
    types only (those the handlers use are declared where they are used). Of the
    context's traits, the methods that only call a modelled function are not
    repeated. The spread of route updates after the start of a connection is stated
    for one node ([split_horizon], [ingress_routes_shortest]) and not across nodes:
    [withdrawal_hides_route] and [route_unreported] show that the peer's table does
    not follow in general. *)

From stdpp Require Export base option list gmap sets.
From Stdlib Require Export ZArith Lia.

Open Scope Z_scope.

(** ** Panics

    A Rust function that may panic (a failed [assert!], [expect], [panic!],
    [unreachable!], an index out of range) is a function into [outcome]. *)
Inductive outcome (A : Type) : Type :=
| Ret (a : A)
| Panic.
Arguments Ret {A} a.
Arguments Panic {A}.

#[export] Instance outcome_ret : MRet outcome := @Ret.
#[export] Instance outcome_bind : MBind outcome := fun A B f m =>
  match m with Ret a => f a | Panic => Panic end.

(** [assert!(b)] and, in the debug build that is modelled, [debug_assert!(b)]. *)
Definition assert_ (b : bool) : outcome unit := if b then Ret tt else Panic.

(** [o.expect(..)]. *)
Definition expect {A} (o : option A) : outcome A :=
  match o with Some a => Ret a | None => Panic end.

Lemma bind_Ret {A B} (f : A → outcome B) a : (Ret a ≫= f) = f a.
Proof. reflexivity. Qed.

Lemma bind_Ret_inv {A B} (f : A → outcome B) m b :
  (m ≫= f) = Ret b → ∃ a, m = Ret a ∧ f a = Ret b.
Proof. destruct m as [a|]; [eauto | discriminate]. Qed.

Lemma assert_true b : b = true → assert_ b = Ret tt.
Proof. by intros ->. Qed.

Lemma assert_Ret_inv b u : assert_ b = Ret u → b = true.
Proof. by destruct b. Qed.

(** ** Results *)
Inductive result (T E : Type) : Type :=
| Ok (t : T)
| Err (e : E).
Arguments Ok {T E} t.
Arguments Err {T E} e.

#[export] Instance result_eq_dec {T E} `{EqDecision T, EqDecision E} :
  EqDecision (result T E).
Proof. solve_decision. Defined.

Definition is_ok {T E} (r : result T E) : bool :=
  match r with Ok _ => true | Err _ => false end.

(** [o.ok_or(e)]. *)
Definition ok_or {T E} (o : option T) (e : E) : result T E :=
  match o with Some t => Ok t | None => Err e end.

(** [r.map_err(f)]. *)
Definition map_err {T E F} (f : E → F) (r : result T E) : result T F :=
  match r with Ok t => Ok t | Err e => Err (f e) end.

(** [x.or(y)]. *)
Definition or_ {A} (x y : option A) : option A := match x with Some _ => x | None => y end.

(** ** Lists *)
Lemma filter_all {A} (P : A → Prop) `{!∀ x, Decision (P x)} l : Forall P l → filter P l = l.
Proof. induction 1; [done|]. rewrite filter_cons_True by done. by f_equal. Qed.

Lemma filter_none {A} (P : A → Prop) `{!∀ x, Decision (P x)} l : Forall (λ x, ¬ P x) l → filter P l = [].
Proof. induction 1; [done|]. by rewrite filter_cons_False by done. Qed.

(** ** Hint databases and tactics *)
Create HintDb mm1.
Create Rewrite HintDb mm1.

#[export] Hint Rewrite @bind_Ret : mm1.

(** Split the conjunctions, disjunctions and existentials of the context. *)
Ltac split_hyps :=
  repeat match goal with
  | H : _ ∧ _ |- _ => destruct H
  | H : ∃ _, _ |- _ => destruct H
  | H : Some _ = Some _ |- _ => injection H as H
  | H : Ret _ = Ret _ |- _ => injection H as H
  | H : (_, _) = (_, _) |- _ => injection H as ? ?
  end.

(** Case on every boolean comparison on [Z] of the goal. *)
Ltac case_Zb :=
  repeat match goal with
  | |- context [Z.eqb ?a ?b] => destruct (Z.eqb_spec a b)
  | |- context [Z.ltb ?a ?b] => destruct (Z.ltb_spec a b)
  | |- context [Z.leb ?a ?b] => destruct (Z.leb_spec a b)
  end.
