(* ===== verification/U64.v ===== *)
(** * 64-bit unsigned integers

    The [u64] operations the sources use, at their width: a [u64] is a [Z] in
    [0, 2^64); shifts drop the bits that leave the word, [!x] flips 64 bits.
    The second half relates network masks (a run of ones followed by a run of
    [h] zeros) to arithmetic: [x & mask] clears the [h] low bits. *)

From S2P Require Import Prelude.

Definition U64_BITS : Z := 64.
Definition u64_max : Z := 2 ^ 64 - 1.
Definition u64_ok (x : Z) : Prop := 0 ≤ x < 2 ^ 64.

(** [!x] *)
Definition u64_not (x : Z) : Z := Z.lxor x u64_max.
(** [x << n], for [n < 64] *)
Definition u64_shl (x n : Z) : Z := Z.shiftl x n mod 2 ^ 64.
(** [x.wrapping_add(y)] *)
Definition u64_wrapping_add (x y : Z) : Z := (x + y) mod 2 ^ 64.

Definition leading_zeros (x : Z) : Z := if x =? 0 then 64 else 63 - Z.log2 x.
Definition leading_ones (x : Z) : Z := leading_zeros (u64_not x).

Fixpoint pos_trailing_zeros (p : positive) : Z :=
  match p with
  | xO q => 1 + pos_trailing_zeros q
  | _ => 0
  end.

Definition trailing_zeros (x : Z) : Z :=
  match x with Zpos p => pos_trailing_zeros p | _ => 64 end.

(** The mask with [h] trailing zeros. *)
Definition mask_of (h : Z) : Z := 2 ^ 64 - 2 ^ h.

(** ** Powers of two *)
Lemma pow2_pos n : 0 ≤ n → 0 < 2 ^ n.
Proof. intros. apply Z.pow_pos_nonneg; lia. Qed.

Lemma pow2_split a b : 0 ≤ a ≤ b → 2 ^ b = 2 ^ a * 2 ^ (b - a).
Proof. intros. rewrite <- Z.pow_add_r by lia. f_equal. lia. Qed.

Lemma pow2_half h : 1 ≤ h → 2 ^ h = 2 * 2 ^ (h - 1).
Proof. intros. rewrite (pow2_split 1 h) by lia. reflexivity. Qed.

Lemma pow2_le a b : 0 ≤ a ≤ b → 2 ^ a ≤ 2 ^ b.
Proof. intros. apply Z.pow_le_mono_r; lia. Qed.

Lemma pow2_lt a b : 0 ≤ a < b → 2 ^ a < 2 ^ b.
Proof. intros. apply Z.pow_lt_mono_r; lia. Qed.

Lemma pow2_le_inv a b : 0 ≤ a → 0 ≤ b → 2 ^ a ≤ 2 ^ b → a ≤ b.
Proof. intros Ha Hb H. destruct (Z.le_gt_cases a b); [done|]. pose proof (pow2_lt b a). lia. Qed.

Lemma pow2_divide a b : 0 ≤ a ≤ b → (2 ^ a | 2 ^ b).
Proof. intros. exists (2 ^ (b - a)). rewrite Z.mul_comm. by apply pow2_split. Qed.

#[export] Hint Resolve pow2_pos pow2_le pow2_divide : mm1.

(** [x] rounded down to a multiple of [2^h]. *)
Lemma round_down x h : 0 ≤ h → x - x mod 2 ^ h = 2 ^ h * (x / 2 ^ h).
Proof. intros. pose proof (Z.div_mod x (2 ^ h)). pose proof (pow2_pos h). lia. Qed.

Lemma div_bounds x h : 0 ≤ h → 2 ^ h * (x / 2 ^ h) ≤ x < 2 ^ h * (x / 2 ^ h) + 2 ^ h.
Proof.
  intros. pose proof (Z.div_mod x (2 ^ h)). pose proof (pow2_pos h).
  pose proof (Z.mod_pos_bound x (2 ^ h)). lia.
Qed.

(** Same quotient means same aligned block. *)
Lemma div_eq_iff x p h : 0 ≤ h → (2 ^ h | p) →
  x / 2 ^ h = p / 2 ^ h ↔ p ≤ x < p + 2 ^ h.
Proof.
  intros Hh [k ->]. pose proof (pow2_pos h Hh).
  rewrite Z.div_mul by lia. split.
  - intros <-. pose proof (div_bounds x h Hh). lia.
  - intros Hx. symmetry. apply (Z.div_unique x (2 ^ h) k (x - k * 2 ^ h)); lia.
Qed.

Lemma div_eq_mono x y h h' : 0 ≤ h ≤ h' → x / 2 ^ h = y / 2 ^ h → x / 2 ^ h' = y / 2 ^ h'.
Proof.
  intros Hh E. rewrite (pow2_split h h') by lia.
  pose proof (pow2_pos h). pose proof (pow2_pos (h' - h)).
  rewrite <- !Z.div_div by lia. by rewrite E.
Qed.

(** An aligned block that starts inside the word ends inside it. *)
Lemma block_fits a h : u64_ok a → 0 ≤ h ≤ 64 → (2 ^ h | a) → a + 2 ^ h ≤ 2 ^ 64.
Proof.
  intros [? Ha] Hh [k ->]. rewrite (pow2_split h 64) in Ha |- * by lia.
  pose proof (pow2_pos h ltac:(lia)) as Hp. pose proof (pow2_pos (64 - h) ltac:(lia)).
  rewrite Z.mul_comm in Ha. apply Z.mul_lt_mono_pos_l in Ha; [nia|done].
Qed.

(** ** Bitwise operations *)
Lemma u64_bit_high x i : u64_ok x → 64 ≤ i → Z.testbit x i = false.
Proof.
  intros [H0 H1] Hi. destruct (Z.eq_dec x 0) as [->|]; [apply Z.testbit_0_l|].
  apply Z.bits_above_log2; [lia|]. apply Z.log2_lt_pow2; [lia|].
  pose proof (pow2_le 64 i). lia.
Qed.

Lemma u64_log2 x : u64_ok x → x ≠ 0 → 0 ≤ Z.log2 x < 64.
Proof.
  intros [? ?] ?. split; [apply Z.log2_nonneg|]. apply Z.log2_lt_pow2; lia.
Qed.

Lemma u64_max_ones : u64_max = Z.ones 64.
Proof. reflexivity. Qed.

Lemma u64_not_arith x : u64_ok x → u64_not x = u64_max - x.
Proof.
  intros Hx. unfold u64_not.
  assert (Z.lxor x u64_max = Z.land (Z.lnot x) (Z.ones 64)) as ->.
  { apply Z.bits_inj'. intros i Hi. rewrite Z.lxor_spec, Z.land_spec, u64_max_ones.
    rewrite Z.lnot_spec by lia. rewrite Z.testbit_ones_nonneg by lia.
    destruct (Z.ltb_spec i 64).
    - by destruct (Z.testbit x i).
    - by rewrite (u64_bit_high x i) by (done || lia). }
  rewrite Z.land_ones by lia. unfold Z.lnot.
  unfold u64_ok, u64_max in *. symmetry.
  apply (Z.mod_unique _ _ (-1)); lia.
Qed.

Lemma u64_not_ok x : u64_ok x → u64_ok (u64_not x).
Proof. intros H. rewrite u64_not_arith by done. unfold u64_ok, u64_max in *. lia. Qed.

Lemma u64_not_not x : u64_ok x → u64_not (u64_not x) = x.
Proof. intros H. rewrite !u64_not_arith by auto using u64_not_ok. lia. Qed.

Lemma u64_land_ok x y : u64_ok x → u64_ok y → u64_ok (Z.land x y).
Proof.
  intros Hx [? ?]. assert (0 ≤ Z.land x y) by (apply Z.land_nonneg; lia). split; [done|].
  destruct (Z.eq_dec (Z.land x y) 0) as [->|]; [lia|].
  apply Z.log2_lt_pow2; [lia|].
  destruct (Z.eq_dec x 0) as [->|]; [done|].
  pose proof (u64_log2 x Hx). destruct Hx. pose proof (Z.log2_land x y). lia.
Qed.

Lemma u64_lxor_ok x y : u64_ok x → u64_ok y → u64_ok (Z.lxor x y).
Proof.
  intros Hx Hy. assert (0 ≤ Z.lxor x y) by (apply Z.lxor_nonneg; unfold u64_ok in *; lia).
  split; [done|]. destruct (Z.eq_dec (Z.lxor x y) 0) as [->|]; [lia|].
  destruct (Z.lt_ge_cases (Z.lxor x y) (2 ^ 64)) as [|Hge]; [done|exfalso].
  apply Z.log2_le_pow2 in Hge; [|lia].
  pose proof (Z.bit_log2 (Z.lxor x y)) as Hb. rewrite Z.lxor_spec in Hb.
  rewrite !u64_bit_high in Hb by done. simpl in Hb.
  assert (false = true) by (apply Hb; lia). done.
Qed.

(** Two words agree above bit [h] iff their xor is below [2^h]. *)
Lemma lxor_lt_pow2 a b h : 0 ≤ a → 0 ≤ b → 0 ≤ h →
  Z.lxor a b < 2 ^ h ↔ a / 2 ^ h = b / 2 ^ h.
Proof.
  intros Ha Hb Hh. pose proof (pow2_pos h Hh).
  assert (0 ≤ Z.lxor a b) by (apply Z.lxor_nonneg; lia).
  rewrite <- !Z.shiftr_div_pow2 by lia.
  transitivity (Z.shiftr (Z.lxor a b) h = 0).
  - rewrite Z.shiftr_div_pow2 by lia. split; intros E.
    + apply Z.div_small; lia.
    + apply Z.div_small_iff in E; lia.
  - rewrite Z.shiftr_lxor. apply Z.lxor_eq_0_iff.
Qed.

(** ** Masks *)
Lemma mask_of_ok h : 0 ≤ h ≤ 64 → u64_ok (mask_of h).
Proof. intros. unfold u64_ok, mask_of. pose proof (pow2_pos h). pose proof (pow2_le h 64). lia. Qed.

Lemma mask_of_inj h h' : 0 ≤ h → 0 ≤ h' → mask_of h = mask_of h' → h = h'.
Proof. unfold mask_of. intros. apply (Z.pow_inj_r 2); lia. Qed.

Lemma mask_of_eqb h h' : 0 ≤ h → 0 ≤ h' → (mask_of h =? mask_of h') = (h =? h').
Proof.
  intros. destruct (Z.eqb_spec h h') as [->|Hne]; [apply Z.eqb_refl|].
  apply Z.eqb_neq. intros E. by apply Hne, mask_of_inj.
Qed.

Lemma mask_of_not h : 0 ≤ h ≤ 64 → u64_not (mask_of h) = 2 ^ h - 1.
Proof. intros. rewrite u64_not_arith by auto using mask_of_ok. unfold u64_max, mask_of. lia. Qed.

Lemma mask_of_shl h : 0 ≤ h < 64 → u64_shl u64_max h = mask_of h.
Proof.
  intros. unfold u64_shl, u64_max, mask_of. rewrite Z.shiftl_mul_pow2 by lia.
  pose proof (pow2_pos h). pose proof (pow2_le h 64).
  symmetry. apply (Z.mod_unique _ _ (2 ^ h - 1)); lia.
Qed.

Lemma mask_of_shl1 h : 0 ≤ h ≤ 64 → u64_shl (mask_of h) 1 = mask_of (Z.min 64 (h + 1)).
Proof.
  intros. unfold u64_shl, mask_of. rewrite Z.shiftl_mul_pow2 by lia.
  destruct (Z.eq_dec h 64) as [->|]; [reflexivity|].
  rewrite Z.min_r by lia. pose proof (pow2_pos (h + 1)). pose proof (pow2_le (h + 1) 64).
  pose proof (pow2_half (h + 1)). replace (h + 1 - 1) with h in * by lia.
  symmetry. apply (Z.mod_unique _ _ 1); lia.
Qed.

Lemma mask_of_shiftl h : 0 ≤ h ≤ 64 → mask_of h = Z.shiftl (Z.ones (64 - h)) h.
Proof.
  intros. rewrite Z.shiftl_mul_pow2, Z.ones_equiv by lia. unfold mask_of.
  rewrite (pow2_split h 64) by lia. lia.
Qed.

Lemma land_mask x h : u64_ok x → 0 ≤ h ≤ 64 → Z.land x (mask_of h) = 2 ^ h * (x / 2 ^ h).
Proof.
  intros Hx Hh. rewrite Z.mul_comm, <- Z.shiftr_div_pow2, <- Z.shiftl_mul_pow2 by lia.
  rewrite mask_of_shiftl by done. apply Z.bits_inj'. intros i Hi.
  rewrite Z.land_spec, !Z.shiftl_spec by lia.
  destruct (Z.lt_ge_cases i h).
  - rewrite !(Z.testbit_neg_r _ (i - h)) by lia. apply andb_false_r.
  - rewrite Z.shiftr_spec, Z.testbit_ones_nonneg by lia.
    replace (i - h + h) with i by lia. destruct (Z.ltb_spec (i - h) (64 - h)).
    + apply andb_true_r.
    + by rewrite u64_bit_high by (done || lia).
Qed.

Lemma land_not_mask x h : 0 ≤ h ≤ 64 → Z.land x (u64_not (mask_of h)) = x mod 2 ^ h.
Proof.
  intros. rewrite mask_of_not by done. rewrite <- Z.land_ones, Z.ones_equiv by lia.
  f_equal.
Qed.

Lemma land_mask_aligned p h : u64_ok p → 0 ≤ h ≤ 64 → (2 ^ h | p) → Z.land p (mask_of h) = p.
Proof.
  intros Hp Hh [k ->]. rewrite land_mask by done. rewrite Z.div_mul; pose proof (pow2_pos h); lia.
Qed.

Lemma land_masks h h' : 0 ≤ h ≤ 64 → 0 ≤ h' ≤ 64 →
  Z.land (mask_of h) (mask_of h') = mask_of (Z.max h h').
Proof.
  intros Hh Hh'.
  assert (Hdiv : ∀ a b, 0 ≤ a ≤ b → b ≤ 64 → (2 ^ a | mask_of b)).
  { intros. apply Z.divide_sub_r; apply pow2_divide; lia. }
  destruct (Z.le_ge_cases h h').
  - rewrite Z.max_r, Z.land_comm by done. apply land_mask_aligned; auto using mask_of_ok with lia.
  - rewrite Z.max_l by done. apply land_mask_aligned; auto using mask_of_ok with lia.
Qed.

(** ** Counting bits *)
Lemma leading_zeros_range x : u64_ok x → 0 ≤ leading_zeros x ≤ 64.
Proof.
  intros Hx. unfold leading_zeros. case_Zb; [lia|]. pose proof (u64_log2 x Hx). lia.
Qed.

(** [64 - leading_zeros x] is the least [h] with [x < 2^h]. *)
Lemma leading_zeros_spec x h : u64_ok x → 0 ≤ h → 64 - leading_zeros x ≤ h ↔ x < 2 ^ h.
Proof.
  intros [? ?] Hh. unfold leading_zeros. destruct (Z.eqb_spec x 0) as [->|].
  - pose proof (pow2_pos h). lia.
  - pose proof (Z.log2_lt_pow2 x h). pose proof (Z.log2_nonneg x). lia.
Qed.

Lemma leading_ones_mask h : 0 ≤ h ≤ 64 → leading_ones (mask_of h) = 64 - h.
Proof.
  intros. unfold leading_ones. rewrite mask_of_not by done.
  unfold leading_zeros. pose proof (pow2_pos h). case_Zb.
  - assert (E : 2 ^ h = 2 ^ 0) by lia. apply Z.pow_inj_r in E; lia.
  - assert (0 < h). { destruct (Z.eq_dec h 0) as [->|]; [done|lia]. }
    replace (2 ^ h - 1) with (Z.pred (2 ^ h)) by lia.
    rewrite Z.log2_pred_pow2 by lia. lia.
Qed.

Lemma pos_trailing_zeros_odd k h : 0 ≤ h → 0 ≤ k →
  trailing_zeros ((2 * k + 1) * 2 ^ h) = h.
Proof.
  intros Hh Hk. revert h Hh. apply natlike_ind.
  - rewrite Z.mul_1_r. by destruct k.
  - intros h Hh IH. rewrite Z.pow_succ_r by done.
    replace ((2 * k + 1) * (2 * 2 ^ h)) with (2 * ((2 * k + 1) * 2 ^ h)) by lia.
    pose proof (pow2_pos h Hh).
    destruct ((2 * k + 1) * 2 ^ h) as [|p|p] eqn:E; [nia| |nia].
    change (2 * Z.pos p) with (Z.pos p~0). unfold trailing_zeros in *.
    simpl pos_trailing_zeros. lia.
Qed.

Lemma trailing_zeros_mask h : 0 ≤ h ≤ 64 → trailing_zeros (mask_of h) = h.
Proof.
  intros. destruct (Z.eq_dec h 64) as [->|]; [reflexivity|].
  unfold mask_of. pose proof (pow2_pos (63 - h)).
  replace (2 ^ 64 - 2 ^ h) with ((2 * (2 ^ (63 - h) - 1) + 1) * 2 ^ h).
  - apply pos_trailing_zeros_odd; lia.
  - rewrite (pow2_split h 64) by lia. rewrite (pow2_half (64 - h)) by lia.
    replace (64 - h - 1) with (63 - h) by lia. lia.
Qed.
