(* ===== verification/Collections.v ===== *)
(** * Collections: ordered sets of pairs and slot maps

    [BTreeSet]s of pairs, as finite sets with their elements in order, slot maps
    and bidirectional maps: these are libraries the sources only call, so here they are interfaces
    with their documented laws and instances that show the laws can hold. *)

From stdpp Require Import sorting.
From S2P Require Import Prelude.

Open Scope Z_scope.

(** ** Ordered sets of pairs *)

(** The order of a [BTreeSet] of pairs. *)
Definition pair_le (x y : Z * Z) : Prop := x.1 < y.1 ∨ (x.1 = y.1 ∧ x.2 ≤ y.2).
#[export] Instance pair_le_dec : RelDecision pair_le.
Proof. intros x y. unfold pair_le. apply _. Defined.
Definition btree_elements (X : gset (Z * Z)) : list (Z * Z) :=
  merge_sort pair_le (elements X).

#[export] Instance pair_le_trans : Transitive pair_le.
Proof. intros x y z. unfold pair_le. lia. Qed.
#[export] Instance pair_le_total : Total pair_le.
Proof. intros x y. unfold pair_le. lia. Qed.

Lemma btree_elements_perm X : btree_elements X ≡ₚ elements X.
Proof. apply merge_sort_Permutation. Qed.

Lemma elem_of_btree x X : x ∈ btree_elements X ↔ x ∈ X.
Proof. by rewrite btree_elements_perm, elem_of_elements. Qed.

Lemma NoDup_btree X : NoDup (btree_elements X).
Proof. rewrite btree_elements_perm. apply NoDup_elements. Qed.

Lemma btree_sorted X : StronglySorted pair_le (btree_elements X).
Proof. apply StronglySorted_merge_sort; apply _. Qed.

#[export] Instance pair_le_antisymm : AntiSymm (=) pair_le.
Proof. intros [a b] [c d]. unfold pair_le. simpl. intros. f_equal; lia. Qed.

Lemma StronglySorted_filter (P : Z * Z → Prop) `{!∀ x, Decision (P x)} l :
  StronglySorted pair_le l → StronglySorted pair_le (filter P l).
Proof.
  induction 1 as [|x l _ IH Hx]; [constructor|]. rewrite filter_cons. case_decide; [|done].
  constructor; [done|]. apply Forall_forall. intros y [_ Hy]%list_elem_of_filter.
  rewrite Forall_forall in Hx. auto.
Qed.

(** Taking the first element out. *)
Lemma btree_pop_first X x l : btree_elements X = x :: l → btree_elements (X ∖ {[x]}) = l.
Proof.
  intros E. pose proof (NoDup_btree X) as Hn. pose proof (btree_sorted X) as Hs. rewrite E in Hn, Hs.
  apply NoDup_cons in Hn as [Hx Hn]. apply StronglySorted_inv in Hs as [Hs _].
  eapply (StronglySorted_unique pair_le); [apply btree_sorted|done|].
  apply NoDup_Permutation; [apply NoDup_btree|done|]. intros y. rewrite elem_of_btree, elem_of_difference.
  rewrite <- (elem_of_btree y X), E, elem_of_cons, elem_of_singleton. split; [tauto|].
  intros Hy. split; [by right|]. by intros ->.
Qed.

(** ** Slot maps: [insert] picks the key. *)
Class SlotMap (SM : Type → Type) := {
  sm_empty {A} : SM A;
  sm_insert {A} : SM A → A → SM A * Z;
  sm_get {A} : SM A → Z → option A;
  sm_set {A} : SM A → Z → A → SM A;
  sm_remove {A} : SM A → Z → SM A;
  sm_drain {A} : SM A → list (Z * A);
  sm_get_empty {A} k : sm_get (A := A) sm_empty k = None;
  sm_insert_fresh {A} (m : SM A) x : sm_get m (sm_insert m x).2 = None;
  sm_get_insert {A} (m : SM A) x k :
    sm_get (sm_insert m x).1 k = if decide (k = (sm_insert m x).2) then Some x else sm_get m k;
  sm_get_set {A} (m : SM A) k x k' : is_Some (sm_get m k) →
    sm_get (sm_set m k x) k' = if decide (k' = k) then Some x else sm_get m k';
  sm_get_remove {A} (m : SM A) k k' :
    sm_get (sm_remove m k) k' = if decide (k' = k) then None else sm_get m k';
  sm_drain_elem {A} (m : SM A) k x : (k, x) ∈ sm_drain m ↔ sm_get m k = Some x;
  sm_drain_NoDup {A} (m : SM A) : NoDup (sm_drain m).*1;
}.

(** A slot map exists: a map with a key that is not in use. *)
Definition gmap_slot_map : SlotMap (gmap Z).
Proof.
  refine {|
    sm_empty := λ A, ∅;
    sm_insert := λ A m x, (<[base.fresh (dom m) := x]> m, base.fresh (dom m));
    sm_get := λ A m k, m !! k;
    sm_set := λ A m k x, <[k := x]> m;
    sm_remove := λ A m k, delete k m;
    sm_drain := λ A m, map_to_list m;
  |}.
  - intros A k. apply lookup_empty.
  - intros A m x. apply not_elem_of_dom. apply is_fresh.
  - intros A m x k. cbn. case_decide; [subst; by rewrite lookup_insert_eq|by rewrite lookup_insert_ne].
  - intros A m k x k' _. case_decide; [subst; by rewrite lookup_insert_eq|by rewrite lookup_insert_ne].
  - intros A m k k'. case_decide; [subst; by rewrite lookup_delete_eq|by rewrite lookup_delete_ne].
  - intros A m k x. apply elem_of_map_to_list.
  - intros A m. apply NoDup_fst_map_to_list.
Defined.

(** ** Bidirectional maps *)
Inductive Overwritten := Neither | Left_ | Right_ | Pair | Both.

(** A bidirectional map, a library the sources only call: an insert
    says what it overwrote. *)
Class BiMap (L R : Type) `{EqDecision L, EqDecision R} (BM : Type) := {
  bm_empty : BM;
  bm_pairs : BM → list (L * R);
  bm_insert : BM → L → R → BM * Overwritten;
  bm_remove_left : BM → L → BM;
  bm_pairs_empty : bm_pairs bm_empty = [];
  bm_insert_pairs b l r :
    bm_pairs (bm_insert b l r).1 ≡ₚ (l, r) :: filter (λ p, p.1 ≠ l ∧ p.2 ≠ r) (bm_pairs b);
  bm_insert_pair b l r : (bm_insert b l r).2 = Pair ↔ (l, r) ∈ bm_pairs b;
  bm_insert_neither b l r : (bm_insert b l r).2 = Neither ↔ (∀ p, p ∈ bm_pairs b → p.1 ≠ l ∧ p.2 ≠ r);
  bm_insert_both b l r : (bm_insert b l r).2 = Both ↔
    (l, r) ∉ bm_pairs b ∧ (∃ r', (l, r') ∈ bm_pairs b) ∧ ∃ l', (l', r) ∈ bm_pairs b;
  bm_remove_left_pairs b l : bm_pairs (bm_remove_left b l) ≡ₚ filter (λ p, p.1 ≠ l) (bm_pairs b);
}.

(** [contains_left] and [contains_right] *)
Definition bm_contains_left `{BiMap L R BM} (b : BM) (l : L) : bool := bool_decide (l ∈ (bm_pairs b).*1).
Definition bm_contains_right `{BiMap L R BM} (b : BM) (r : R) : bool := bool_decide (r ∈ (bm_pairs b).*2).

(** Such a map exists: a list of pairs. *)
Definition list_bimap {L R} `{EqDecision L, EqDecision R} : BiMap L R (list (L * R)).
Proof.
  refine {|
    bm_empty := [];
    bm_pairs := λ b, b;
    bm_insert := λ b l r, ((l, r) :: filter (λ p, p.1 ≠ l ∧ p.2 ≠ r) b,
      if decide ((l, r) ∈ b) then Pair
      else match decide (Exists (λ p, p.1 = l) b), decide (Exists (λ p, p.2 = r) b) with
           | left _, left _ => Both
           | left _, right _ => Left_
           | right _, left _ => Right_
           | right _, right _ => Neither
           end);
    bm_remove_left := λ b l, filter (λ p, p.1 ≠ l) b;
  |}.
  - done.
  - done.
  - intros b l r. cbn. case_decide; [done|]. by repeat case_match.
  - intros b l r. cbn. case_decide as Hin.
    { split; [done|]. intros Hp. by destruct (Hp _ Hin). }
    destruct (decide (Exists _ b)) as [Hl|Hl], (decide (Exists (λ p, p.2 = r) b)) as [Hr|Hr]; rewrite ?Exists_exists in *;
      (split; [try done|]); try (intros Hp; destruct Hl as (p & H1 & H2); by destruct (Hp p H1)) ||
        (intros Hp; destruct Hr as (p & H1 & H2); by destruct (Hp p H1)) || done.
    intros _ p Hp. split; intros E; [apply Hl|apply Hr]; eauto.
  - intros b l r. cbn. case_decide as Hin; [split; [done|tauto]|].
    assert (Hex : Exists (λ p, p.1 = l) b ↔ ∃ r', (l, r') ∈ b).
    { rewrite Exists_exists. split; [intros ([l' r'] & ? & <-); by exists r'|]. intros (r' & ?). by exists (l, r'). }
    assert (Hey : Exists (λ p, p.2 = r) b ↔ ∃ l', (l', r) ∈ b).
    { rewrite Exists_exists. split; [intros ([l' r'] & ? & <-); by exists l'|]. intros (l' & ?). by exists (l', r). }
    rewrite <- Hex, <- Hey. destruct (decide (Exists _ b)), (decide (Exists (λ p, p.2 = r) b)); split; try done; naive_solver.
  - done.
Defined.
