(* ===== verification/Btree.v ===== *)
(** * Ordered maps ([std::collections::BTreeMap])

    A [BTreeMap] is its list of entries in the order of the keys, searched with the
    keys' own [Ord::cmp]. The order need not be a total one: the address ranges
    of this program compare equal when they overlap, and the laws of the map hold on a
    domain of keys on which the order is lawful. (Where it is not, the
    standard library leaves the result of a search unspecified; the scan below is
    what it does in a tree of a single node.) *)

From stdpp Require Import sorting strings.
From S2P Require Import Prelude.

Open Scope Z_scope.

Definition BTreeMap (K V : Type) : Type := list (K * V).

Section Btree.
Context {K V : Type} (cmp : K → K → comparison).

(** The occupied entry of a key: the stored key and its value. *)
Fixpoint bt_entry (m : BTreeMap K V) (k : K) : option (K * V) :=
  match m with
  | [] => None
  | e :: m =>
      match cmp k e.1 with Eq => Some e | Lt => None | Gt => bt_entry m k end
  end.

(** [get] *)
Definition bt_get (m : BTreeMap K V) (k : K) : option V := snd <$> bt_entry m k.

(** [insert]: the value of an equal key is replaced, the stored key stays. *)
Fixpoint bt_insert (m : BTreeMap K V) (k : K) (v : V) : BTreeMap K V :=
  match m with
  | [] => [(k, v)]
  | e :: m' =>
      match cmp k e.1 with
      | Eq => (e.1, v) :: m'
      | Lt => (k, v) :: m
      | Gt => e :: bt_insert m' k v
      end
  end.

(** [remove] *)
Fixpoint bt_remove (m : BTreeMap K V) (k : K) : BTreeMap K V :=
  match m with
  | [] => []
  | e :: m' =>
      match cmp k e.1 with Eq => m' | Lt => m | Gt => e :: bt_remove m' k end
  end.

(** [range(k..)] and [range(..k)] *)
Fixpoint bt_range_from (m : BTreeMap K V) (k : K) : BTreeMap K V :=
  match m with
  | [] => []
  | e :: m' => match cmp k e.1 with Gt => bt_range_from m' k | _ => m end
  end.

Fixpoint bt_range_to (m : BTreeMap K V) (k : K) : BTreeMap K V :=
  match m with
  | [] => []
  | e :: m' => match cmp k e.1 with Gt => e :: bt_range_to m' k | _ => [] end
  end.

(** ** The laws, on a domain where the order is lawful *)
Class Lawful (D : K → Prop) : Prop := {
  lawful_eq x y : D x → D y → cmp x y = Eq ↔ x = y;
  lawful_opp x y : D x → D y → cmp y x = CompOpp (cmp x y);
  lawful_trans x y z : D x → D y → D z → cmp x y = Lt → cmp y z = Lt → cmp x z = Lt;
}.

Definition key_lt (a b : K * V) : Prop := cmp a.1 b.1 = Lt.

(** Keys in the domain, in order. *)
Definition bt_ok (D : K → Prop) (m : BTreeMap K V) : Prop :=
  Forall (λ e, D e.1) m ∧ StronglySorted key_lt m.

Section Laws.
Context (D : K → Prop) `{!Lawful D}.

Lemma bt_ok_nil : bt_ok D [].
Proof. split; constructor. Qed.

Lemma bt_ok_cons e m : bt_ok D (e :: m) ↔ D e.1 ∧ Forall (key_lt e) m ∧ bt_ok D m.
Proof.
  unfold bt_ok. rewrite Forall_cons. split.
  - intros [[He Hm] [Hs Hl]%StronglySorted_inv]. tauto.
  - intros (He & Hl & Hm & Hs). repeat split; [done|done|]. by constructor.
Qed.

Lemma lawful_refl k : D k → cmp k k = Eq.
Proof. intros Hk. by apply lawful_eq. Qed.

(** A key below the head of a sorted map is not in it. *)
Lemma bt_not_below e m k : bt_ok D (e :: m) → D k → cmp k e.1 = Lt → Forall (λ e', cmp k e'.1 = Lt) (e :: m).
Proof.
  rewrite bt_ok_cons. intros (He & Hl & Hm & _) Hk Hlt. constructor; [done|].
  rewrite !Forall_forall in *. intros x Hx. eapply lawful_trans; [done|apply He|by apply Hm|done|by apply Hl].
Qed.

Lemma bt_get_elem m k v : bt_ok D m → D k → bt_get m k = Some v ↔ (k, v) ∈ m.
Proof.
  unfold bt_get. induction m as [|e m IH]; intros Hm Hk; cbn.
  - split; [done|by intros ?%not_elem_of_nil].
  - pose proof Hm as (He & Hl & Hm')%bt_ok_cons. rewrite elem_of_cons. destruct (cmp k e.1) eqn:E; cbn.
    + apply lawful_eq in E as ->; try done. split; [intros [= <-]; left; by destruct e|].
      intros [<-|Hin]; [done|]. rewrite Forall_forall in Hl. apply Hl in Hin. unfold key_lt in Hin. cbn in Hin.
      by rewrite lawful_refl in Hin.
    + split; [done|]. intros Hin. apply (bt_not_below _ _ _ Hm Hk) in E. rewrite Forall_forall in E.
      assert (Hin' : (k, v) ∈ e :: m) by (by apply elem_of_cons). apply E in Hin'. cbn in Hin'. by rewrite lawful_refl in Hin'.
    + rewrite IH by done. split; [by right|]. intros [<-|?]; [|done]. cbn in E. by rewrite lawful_refl in E.
Qed.

Lemma bt_entry_key m k e : bt_ok D m → D k → bt_entry m k = Some e → e.1 = k.
Proof.
  induction m as [|x m IH]; intros (Hx & _ & Hm)%bt_ok_cons || intros Hm; intros Hk; cbn; [done|].
  destruct (cmp k x.1) eqn:E; [|done|by apply IH]. intros [= <-]. by apply lawful_eq in E.
Qed.

Lemma bt_entry_get m k e : bt_ok D m → D k → bt_entry m k = Some e → bt_get m k = Some e.2.
Proof. intros. unfold bt_get. by rewrite H1. Qed.

Lemma bt_get_none m k : bt_get m k = None ↔ bt_entry m k = None.
Proof. unfold bt_get. by rewrite fmap_None. Qed.

Lemma bt_insert_ok m k v : bt_ok D m → D k → bt_ok D (bt_insert m k v) ∧ ∀ e, e ∈ bt_insert m k v ↔ e = (k, v) ∨ (e ∈ m ∧ e.1 ≠ k).
Proof.
  induction m as [|x m IH]; intros Hm Hk; cbn.
  - split; [apply bt_ok_cons; repeat split; [done|constructor..]|]. intros e. rewrite list_elem_of_singleton.
    split; [by left|]. by intros [?|[?%not_elem_of_nil _]].
  - pose proof Hm as (Hx & Hl & Hm')%bt_ok_cons. destruct (cmp k x.1) eqn:E.
    + apply lawful_eq in E as ->; try done. split; [by apply bt_ok_cons|]. intros e. rewrite !elem_of_cons.
      split; [|naive_solver]. intros [->|Hin]; [by left|]. right. split; [by right|]. intros He.
      rewrite Forall_forall in Hl. apply Hl in Hin. unfold key_lt in Hin. rewrite He in Hin. by rewrite lawful_refl in Hin.
    + pose proof (bt_not_below _ _ _ Hm Hk E) as Hb. split; [by apply bt_ok_cons|].
      intros e. rewrite elem_of_cons. split; [|naive_solver]. intros [->|Hin]; [by left|]. right. split; [done|].
      intros He. rewrite Forall_forall in Hb. apply Hb in Hin. rewrite He in Hin. by rewrite lawful_refl in Hin.
    + destruct (IH Hm' Hk) as [IH1 IH2]. split.
      * apply bt_ok_cons. repeat split; [done| |apply IH1|apply IH1]. apply Forall_forall. intros e [->|[Hin _]]%IH2.
        -- unfold key_lt. cbn. by rewrite (lawful_opp k), E.
        -- rewrite Forall_forall in Hl. by apply Hl.
      * intros e. rewrite !elem_of_cons, IH2. split; [|naive_solver]. intros [->|[->|?]]; [|by left|naive_solver].
        right. split; [by left|]. intros He. rewrite He in E. by rewrite lawful_refl in E.
Qed.

Lemma bt_remove_ok m k : bt_ok D m → D k → bt_ok D (bt_remove m k) ∧ ∀ e, e ∈ bt_remove m k ↔ e ∈ m ∧ e.1 ≠ k.
Proof.
  induction m as [|x m IH]; intros Hm Hk; cbn.
  - split; [done|]. intros e. rewrite elem_of_nil. tauto.
  - pose proof Hm as (Hx & Hl & Hm')%bt_ok_cons. destruct (cmp k x.1) eqn:E.
    + apply lawful_eq in E as ->; try done. split; [done|]. intros e. rewrite elem_of_cons.
      split; [|by intros [[->|?] ?]]. intros Hin. split; [by right|]. intros He.
      rewrite Forall_forall in Hl. apply Hl in Hin. unfold key_lt in Hin. rewrite He in Hin. by rewrite lawful_refl in Hin.
    + pose proof (bt_not_below _ _ _ Hm Hk E) as Hb. split; [done|].
      intros e. split; [|by intros [? _]]. intros Hin. split; [done|].
      intros He. rewrite Forall_forall in Hb. apply Hb in Hin. rewrite He in Hin. by rewrite lawful_refl in Hin.
    + destruct (IH Hm' Hk) as [IH1 IH2]. split.
      * apply bt_ok_cons. repeat split; [done| |apply IH1|apply IH1]. apply Forall_forall. intros e [Hin _]%IH2.
        rewrite Forall_forall in Hl. by apply Hl.
      * intros e. rewrite !elem_of_cons, IH2. split; [|naive_solver]. intros [->|?]; [|naive_solver].
        split; [by left|]. intros He. rewrite He in E. by rewrite lawful_refl in E.
Qed.

Lemma bt_get_insert `{!EqDecision K} m k v k' : bt_ok D m → D k → D k' →
  bt_get (bt_insert m k v) k' = if decide (k' = k) then Some v else bt_get m k'.
Proof.
  intros Hm Hk Hk'. destruct (bt_insert_ok m k v Hm Hk) as [Ho He]. apply option_eq. intros w.
  rewrite bt_get_elem, He by done. case_decide as Hd.
  - subst. split; [intros [[= ->]|[_ ?]]; done|]. intros [= ->]. by left.
  - rewrite bt_get_elem by done. split; [intros [[=]|[? _]]; done|]. intros ?. by right.
Qed.

Lemma bt_get_remove `{!EqDecision K} m k k' : bt_ok D m → D k → D k' →
  bt_get (bt_remove m k) k' = if decide (k' = k) then None else bt_get m k'.
Proof.
  intros Hm Hk Hk'. destruct (bt_remove_ok m k Hm Hk) as [Ho He]. apply option_eq. intros w.
  rewrite bt_get_elem, He by done. case_decide as Hd.
  - subst. split; [intros [_ ?]; done|done].
  - rewrite bt_get_elem by done. split; [intros [? _]; done|]. intros ?. done.
Qed.

End Laws.

(** ** Ranges, from a probe that need not be in the domain *)
Lemma bt_range_split m k : m = bt_range_to m k ++ bt_range_from m k.
Proof. induction m as [|e m IH]; cbn; [done|]. destruct (cmp k e.1); cbn; [done|done|]. by f_equal. Qed.

Lemma bt_range_to_gt m k e : e ∈ bt_range_to m k → cmp k e.1 = Gt.
Proof.
  induction m as [|x m IH]; cbn; [by intros ?%not_elem_of_nil|].
  destruct (cmp k x.1) eqn:E; try by intros ?%not_elem_of_nil. rewrite elem_of_cons. intros [->|?]; auto.
Qed.

Lemma bt_range_from_head m k e l : bt_range_from m k = e :: l → cmp k e.1 ≠ Gt.
Proof. induction m as [|x m IH]; cbn; [done|]. destruct (cmp k x.1) eqn:E; [..|auto]; intros [= <- _]; by rewrite E. Qed.

Lemma bt_range_from_elem m k e : e ∈ m → cmp k e.1 ≠ Gt → e ∈ bt_range_from m k.
Proof.
  intros Hin Hne. rewrite (bt_range_split m k) in Hin. apply elem_of_app in Hin as [Hin|Hin]; [|done].
  by apply bt_range_to_gt in Hin.
Qed.

Lemma bt_range_from_sub m k e : e ∈ bt_range_from m k → e ∈ m.
Proof. intros. rewrite (bt_range_split m k). set_solver. Qed.

Lemma bt_range_to_sub m k e : e ∈ bt_range_to m k → e ∈ m.
Proof. intros. rewrite (bt_range_split m k). set_solver. Qed.

Lemma bt_range_sorted D m k : bt_ok D m →
  StronglySorted key_lt (bt_range_to m k) ∧ StronglySorted key_lt (bt_range_from m k).
Proof. intros [_ Hs]. rewrite (bt_range_split m k) in Hs. by apply StronglySorted_app in Hs as (_ & ? & ?). Qed.

Lemma bt_remove_perm D `{!Lawful D} m k v : bt_ok D m → D k → (k, v) ∈ m → m ≡ₚ (k, v) :: bt_remove m k.
Proof.
  induction m as [|x m IH]; intros Hm Hk; [by intros ?%not_elem_of_nil|]. pose proof Hm as (Hx & Hl & Hm')%bt_ok_cons. cbn.
  intros Hin. pose proof (proj2 (bt_get_elem D _ _ _ Hm Hk) Hin) as Hg. unfold bt_get in Hg. cbn in Hg. destruct (cmp k x.1) eqn:E.
  - apply lawful_eq in E as ->; [|done|done]. injection Hg as <-. by destruct x.
  - done.
  - rewrite Permutation_swap. constructor. apply IH; [done|done|]. apply elem_of_cons in Hin as [<-|?]; [|done].
    by rewrite (lawful_refl D) in E.
Qed.

(** The first and the last entry of a sorted map *)
Lemma sorted_head m e : StronglySorted key_lt m → e ∈ m → ∃ h, head m = Some h ∧ h ∈ m ∧ (h = e ∨ key_lt h e).
Proof.
  destruct m as [|h m]; [by intros _ ?%not_elem_of_nil|]. intros [_ Hl]%StronglySorted_inv [->|He]%elem_of_cons; cbn.
  - exists h. split_and!; [done|by left|by left].
  - exists h. rewrite Forall_forall in Hl. split_and!; [done|by left|right; by apply Hl].
Qed.

Lemma sorted_last m e : StronglySorted key_lt m → e ∈ m → ∃ h, last m = Some h ∧ h ∈ m ∧ (h = e ∨ key_lt e h).
Proof.
  induction m as [|x m IH]; [by intros _ ?%not_elem_of_nil|]. intros [Hs Hl]%StronglySorted_inv [->|He]%elem_of_cons.
  - destruct (last m) as [h|] eqn:Hh; rewrite last_cons, Hh.
    + exists h. apply last_Some_elem_of in Hh. rewrite Forall_forall in Hl. split_and!; [done|by right|right; by apply Hl].
    + exists x. split_and!; [done|by left|by left].
  - destruct (IH Hs He) as (h & Hh & Hin & Hor). exists h. rewrite last_cons, Hh. split_and!; [done|by right|done].
Qed.

End Btree.


#[export] Hint Resolve bt_ok_nil : mm1.
Arguments bt_get : simpl never.

Lemma lawful_weaken {K} (cmp : K → K → comparison) (D D' : K → Prop) : (∀ x, D' x → D x) → Lawful cmp D → Lawful cmp D'.
Proof. intros Hi [e o t]. split; eauto 6. Qed.

(** Lexicographic order of pairs. *)
Definition pair_cmp {A B} (ca : A → A → comparison) (cb : B → B → comparison) (x y : A * B) : comparison :=
  match ca x.1 y.1 with Eq => cb x.2 y.2 | c => c end.

(** [Option]: [None] is the least. *)
Definition option_cmp {A} (ca : A → A → comparison) (x y : option A) : comparison :=
  match x, y with
  | None, None => Eq
  | None, Some _ => Lt
  | Some _, None => Gt
  | Some x, Some y => ca x y
  end.

Lemma pair_lawful {A B} (ca : A → A → comparison) (cb : B → B → comparison) DA DB :
  Lawful ca DA → Lawful cb DB → Lawful (pair_cmp ca cb) (λ x, DA x.1 ∧ DB x.2).
Proof.
  intros [ea oa ta] [eb ob tb]. split; unfold pair_cmp.
  - intros [x1 x2] [y1 y2] [Hx1 Hx2] [Hy1 Hy2]; cbn in *. specialize (ea x1 y1 Hx1 Hy1). specialize (eb x2 y2 Hx2 Hy2).
    destruct (ca x1 y1); naive_solver.
  - intros [x1 x2] [y1 y2] [Hx1 Hx2] [Hy1 Hy2]; cbn in *. rewrite (oa x1 y1), (ob x2 y2) by done.
    by destruct (ca x1 y1).
  - intros [x1 x2] [y1 y2] [z1 z2] [Hx1 Hx2] [Hy1 Hy2] [Hz1 Hz2]; cbn in *.
    pose proof (ea x1 y1 Hx1 Hy1). pose proof (ea y1 z1 Hy1 Hz1). pose proof (ea x1 z1 Hx1 Hz1).
    destruct (ca x1 y1) eqn:E1, (ca y1 z1) eqn:E2; try done.
    + assert (x1 = y1) as -> by tauto. rewrite E2. eauto.
    + assert (x1 = y1) as -> by tauto. rewrite E2. eauto.
    + assert (y1 = z1) as -> by tauto. rewrite E1. eauto.
    + rewrite (ta x1 y1 z1); done.
Qed.

Lemma option_lawful {A} (ca : A → A → comparison) D :
  Lawful ca D → Lawful (option_cmp ca) (λ x, from_option D True x).
Proof.
  intros [e o t]. split; unfold option_cmp.
  - intros [x|] [y|]; cbn; intros; try done. rewrite e by done. split; [by intros ->|by intros [= ->]].
  - intros [x|] [y|]; cbn; intros; try done. by apply o.
  - intros [x|] [y|] [z|]; cbn; intros; try done. by apply (t x y z).
Qed.

Lemma Z_lawful : Lawful Z.compare (λ _, True).
Proof.
  split.
  - intros x y _ _. apply Z.compare_eq_iff.
  - intros x y _ _. apply Z.compare_antisym.
  - intros x y z _ _ _. rewrite !Z.compare_lt_iff. lia.
Qed.

(** ** Iterating a [HashSet]: all its elements, in an order of its own. *)
Class HashSetOrder := {
  hs_iter : gset Z → list Z;
  hs_iter_perm X : hs_iter X ≡ₚ elements X;
}.

Definition elements_order : HashSetOrder.
Proof. by refine {| hs_iter := elements |}. Defined.

Lemma elem_of_hs_iter `{HashSetOrder} X x : x ∈ hs_iter X ↔ x ∈ X.
Proof. by rewrite hs_iter_perm, elem_of_elements. Qed.

(** [Ord for str]: by bytes *)
Lemma ascii_lawful : Lawful Ascii.compare (λ _, True).
Proof.
  unfold Ascii.compare. split.
  - intros x y _ _. rewrite N.compare_eq_iff. split; [|by intros ->]. intros E.
    rewrite <- (Ascii.ascii_N_embedding x), <- (Ascii.ascii_N_embedding y). by rewrite E.
  - intros x y _ _. apply N.compare_antisym.
  - intros x y z _ _ _. rewrite !N.compare_lt_iff. lia.
Qed.

Lemma string_lawful : Lawful String.compare (λ _, True).
Proof.
  destruct ascii_lawful as [ae ao at_]. split.
  - intros x y _ _. revert y. induction x as [|a x IH]; intros [|b y]; cbn; try done.
    destruct (Ascii.compare a b) eqn:E; [|split; [done|]..].
    + apply ae in E as ->; [|done|done]. rewrite IH. split; [by intros ->|by intros [= ->]].
    + intros [= -> _]. by rewrite (proj2 (ae b b I I) eq_refl) in E.
    + intros [= -> _]. by rewrite (proj2 (ae b b I I) eq_refl) in E.
  - intros x y _ _. revert y. induction x as [|a x IH]; intros [|b y]; cbn; try done.
    rewrite (ao a b) by done. destruct (Ascii.compare a b); cbn; [apply IH|done|done].
  - intros x y z _ _ _. revert y z. induction x as [|a x IH]; intros [|b y] [|c z]; cbn; try done.
    pose proof (ae a b I I). pose proof (ae b c I I).
    destruct (Ascii.compare a b) eqn:E1, (Ascii.compare b c) eqn:E2; try done.
    + assert (a = b) as -> by tauto. assert (b = c) as -> by tauto. rewrite E1. apply IH.
    + assert (a = b) as -> by tauto. by rewrite E2.
    + assert (b = c) as -> by tauto. by rewrite E1.
    + by rewrite (at_ a b c).
Qed.
