(* ===== verification/Address.v ===== *)
(** * Addresses and their textual form (libs/mm1-address/src/address.rs)

    An address is a [u64]. Its printed form is 16 hexadecimal digits between
    angle brackets, with the longest run of at least two zeros written as a
    colon. [Text] models the private module [address_str]: [digits],
    [to_chars] and [from_str] over lists of characters. *)

From stdpp Require Export strings.
From Stdlib Require Import Ascii.
From S2P Require Import Prelude U64.

Open Scope Z_scope.

(** [struct Address(u64)]; [from_u64], [into_u64] and [From<u64>] are the
    identity. *)
Abbreviation Address := Z.

Inductive AddressParseError := AddressParseErr.

Module Text.

Definition CH_GAP : ascii := ":".
Definition CH_OPEN : ascii := "<".
Definition CH_CLOSE : ascii := ">".

(** [char::from_digit(d, 16)] *)
Definition from_digit16 (d : Z) : option ascii :=
  if d <? 10 then Some (ascii_of_N (48 + Z.to_N d))
  else if d <? 16 then Some (ascii_of_N (87 + Z.to_N d))
  else None.

(** [c.to_digit(16)] *)
Definition to_digit16 (c : ascii) : option Z :=
  let n := Z.of_N (N_of_ascii c) in
  if (48 <=? n) && (n <=? 57) then Some (n - 48)
  else if (97 <=? n) && (n <=? 102) then Some (n - 87)
  else if (65 <=? n) && (n <=? 70) then Some (n - 55)
  else None.

(** The loop of [digits]: the top nibble goes out, the word moves up. *)
Fixpoint digits_loop (n : nat) (u : Z) : outcome (list Z) :=
  match n with
  | O => Ret []
  | S n =>
      let d := Z.shiftr (Z.land u 0xF000000000000000) (U64_BITS - 4) in
      assert_ (d <=? 15);;
      ds ← digits_loop n (u64_shl u 4);
      Ret (d :: ds)
  end.

Definition digits (u : Z) : outcome (list Z) := digits_loop 16 u.

Record Span := mkSpan { start : nat; len : nat }.

(** The scan of [to_chars] for the longest run of zeros. *)
Fixpoint scan (idx : nat) (ds : list Z) (this best : Span) : Span :=
  match ds with
  | [] => if bool_decide (len best < len this)%nat then this else best
  | d :: ds =>
      if d =? 0 then scan (S idx) ds (mkSpan (start this) (S (len this))) best
      else
        let best := if bool_decide (len best < len this)%nat then this else best in
        scan (S idx) ds (mkSpan (S idx) 0) best
  end.

Definition best_span (ds : list Z) : Span := scan 0 ds (mkSpan 0 0) (mkSpan 0 0).

Fixpoint from_digits (ds : list Z) : outcome (list ascii) :=
  match ds with
  | [] => Ret []
  | d :: ds => c ← expect (from_digit16 d); cs ← from_digits ds; Ret (c :: cs)
  end.

Definition to_chars (u : Z) : outcome (list ascii) :=
  ds ← digits u;
  let best := best_span ds in
  left ← from_digits (take (start best) ds);
  let '(center, resume_from) :=
    if bool_decide (1 < len best)%nat
    then ([CH_GAP], (start best + len best)%nat)
    else ([], start best) in
  right ← from_digits (drop resume_from ds);
  Ret ([CH_OPEN] ++ left ++ center ++ right ++ [CH_CLOSE]).

(** The loop of [from_str]; [gap_len] is taken by the first gap. *)
Fixpoint parse_loop (bytes : list ascii) (gap_len : option Z) (out : Z) : option Z :=
  match bytes with
  | [] => Some out
  | c :: bytes =>
      let out := u64_shl out 4 in
      if bool_decide (c = CH_GAP) then
        match gap_len with
        | None => None
        | Some gap_len => parse_loop bytes None (u64_shl out (4 * gap_len))
        end
      else
        match to_digit16 c with
        | None => None
        | Some d => parse_loop bytes gap_len (out + d)
        end
  end.

Definition from_str (s : list ascii) : option Z :=
  if bool_decide ((head s, last s) = (Some CH_OPEN, Some CH_CLOSE)) then
    let bytes := removelast (tail s) in
    let n := Z.of_nat (length bytes) in
    if n <=? 16 then parse_loop bytes (Some (16 - n)) 0 else None
  else None.

End Text.

(** [<Address as FromStr>::from_str] *)
Definition address_from_str (s : list ascii) : result Address AddressParseError :=
  match Text.from_str s with
  | Some u => Ok u
  | None => Err AddressParseErr
  end.

(** [<Address as Display>::fmt]; [Debug] is the same. *)
Definition address_to_string (a : Address) : outcome (list ascii) := Text.to_chars a.

(** ** Printing never panics and parsing inverts it *)
Section TextFacts.
Import Text.

Definition is_digit (d : Z) : Prop := 0 ≤ d < 16.

(** The number a list of digits spells after [acc]. *)
Definition spell (acc : Z) (ds : list Z) : Z := fold_left (λ a d, 16 * a + d) ds acc.

Lemma spell_app acc ds es : spell acc (ds ++ es) = spell (spell acc ds) es.
Proof. apply fold_left_app. Qed.

Lemma spell_zeros acc n : spell acc (replicate n 0) = acc * 16 ^ Z.of_nat n.
Proof.
  revert acc. induction n as [|n IH]; intros acc; simpl; [lia|].
  unfold spell in *. simpl. rewrite IH, Nat2Z.inj_succ, Z.pow_succ_r by lia. lia.
Qed.

Lemma spell_bound acc ds : Forall is_digit ds → 0 ≤ acc →
  acc * 16 ^ Z.of_nat (length ds) ≤ spell acc ds < (acc + 1) * 16 ^ Z.of_nat (length ds).
Proof.
  intros H. revert acc. induction H as [|d ds [Hd0 Hd1] _ IH]; intros acc Ha; simpl length.
  - unfold spell. simpl. lia.
  - unfold spell in *. simpl fold_left. specialize (IH (16 * acc + d)).
    rewrite Nat2Z.inj_succ, Z.pow_succ_r by lia.
    pose proof (Z.pow_pos_nonneg 16 (Z.of_nat (length ds))). nia.
Qed.

Lemma top_nibble u : u64_ok u →
  Z.shiftr (Z.land u 0xF000000000000000) (U64_BITS - 4) = u / 2 ^ 60.
Proof.
  intros. change 0xF000000000000000 with (mask_of 60). rewrite land_mask by (done || lia).
  rewrite Z.shiftr_div_pow2 by (unfold U64_BITS; lia). change (U64_BITS - 4) with 60.
  rewrite Z.mul_comm, Z.div_mul; lia.
Qed.

Lemma shl_nibble u : u64_ok u → u64_shl u 4 = 16 * (u mod 2 ^ 60).
Proof.
  intros. unfold u64_shl. rewrite Z.shiftl_mul_pow2 by lia.
  change (2 ^ 64) with (2 ^ 60 * 2 ^ 4). rewrite Zmult_mod_distr_r. lia.
Qed.

Lemma digits_loop_spec n : (n ≤ 16)%nat → ∀ u, u64_ok u →
  ∃ ds, digits_loop n u = Ret ds ∧ length ds = n ∧ Forall is_digit ds ∧
    ∀ acc, spell acc ds = acc * 2 ^ (4 * Z.of_nat n) + u / 2 ^ (64 - 4 * Z.of_nat n).
Proof.
  induction n as [|n IH]; intros Hn u Hu.
  - exists []. split; [done|]. split; [done|]. split; [done|]. intros acc.
    unfold spell. simpl. rewrite Z.div_small by (apply Hu). lia.
  - cbn [digits_loop]. cbv zeta. rewrite top_nibble, shl_nibble by done.
    assert (Hr := Z.mod_pos_bound u (2 ^ 60) ltac:(lia)).
    assert (Hq : 0 ≤ u / 2 ^ 60 < 16).
    { split; [apply Z.div_pos; unfold u64_ok in *; lia|].
      apply Z.div_lt_upper_bound; unfold u64_ok in *; lia. }
    destruct (IH ltac:(lia) (16 * (u mod 2 ^ 60))) as (ds & -> & Hlen & Hds & Hsp).
    { unfold u64_ok. lia. }
    exists (u / 2 ^ 60 :: ds). rewrite assert_true by (apply Z.leb_le; lia).
    split; [done|]. split; [simpl; lia|]. split; [constructor; done|].
    intros acc. change (spell acc (u / 2 ^ 60 :: ds)) with (spell (16 * acc + u / 2 ^ 60) ds).
    rewrite Hsp. replace (4 * Z.of_nat (S n)) with (4 * Z.of_nat n + 4) by lia.
    rewrite Z.pow_add_r by lia.
    set (k := 64 - (4 * Z.of_nat n + 4)).
    replace (64 - 4 * Z.of_nat n) with (k + 4) by lia.
    rewrite (Z.pow_add_r 2 k 4) by lia.
    replace (16 * (u mod 2 ^ 60)) with (u mod 2 ^ 60 * 2 ^ 4) by lia.
    rewrite Z.div_mul_cancel_r by (pose proof (pow2_pos k); lia).
    assert (E : u / 2 ^ k = u / 2 ^ 60 * 2 ^ (4 * Z.of_nat n) + u mod 2 ^ 60 / 2 ^ k).
    { rewrite (Z.div_mod u (2 ^ 60)) at 1 by lia.
      replace (2 ^ 60) with (2 ^ k * 2 ^ (4 * Z.of_nat n)) at 1
        by (rewrite <- Z.pow_add_r by lia; f_equal; lia).
      rewrite <- Z.mul_assoc, Z.add_comm, Z.mul_comm, Z.div_add by (pose proof (pow2_pos k); lia).
      lia. }
    rewrite E. lia.
Qed.

Lemma digits_spec u : u64_ok u →
  ∃ ds, digits u = Ret ds ∧ length ds = 16%nat ∧ Forall is_digit ds ∧ spell 0 ds = u.
Proof.
  intros Hu. destruct (digits_loop_spec 16 ltac:(lia) u Hu) as (ds & ? & ? & ? & Hs).
  exists ds. repeat (split; [done|]). rewrite Hs. simpl. rewrite Z.div_1_r. lia.
Qed.

(** *** The zero run found by the scan *)
Definition zero_run (ds : list Z) (s : Span) : Prop :=
  (start s + len s ≤ length ds)%nat ∧
  take (len s) (drop (start s) ds) = replicate (len s) 0.

Lemma zero_run_app ds es s : zero_run ds s → zero_run (ds ++ es) s.
Proof.
  intros [Hl Ht]. split; [rewrite length_app; lia|].
  rewrite drop_app_le by lia. rewrite take_app_le; [done|]. rewrite length_drop. lia.
Qed.

Lemma zero_run_extend ds s :
  zero_run ds s → (start s + len s = length ds)%nat →
  zero_run (ds ++ [0]) (mkSpan (start s) (S (len s))).
Proof.
  intros [Hl Ht] E. split; simpl; [rewrite length_app; simpl; lia|].
  rewrite drop_app_le by lia.
  rewrite take_ge in Ht by (rewrite length_drop; lia). rewrite Ht.
  rewrite take_ge by (rewrite length_app, length_replicate; simpl; lia).
  symmetry. apply replicate_cons_app.
Qed.

Lemma scan_spec ds : ∀ seen this best,
  zero_run seen this → zero_run seen best →
  (start this + len this = length seen)%nat →
  zero_run (seen ++ ds) (scan (length seen) ds this best).
Proof.
  induction ds as [|d ds IH]; intros seen this best Ht Hb E; simpl.
  - rewrite app_nil_r. by case_bool_decide.
  - replace (seen ++ d :: ds) with ((seen ++ [d]) ++ ds) by (by rewrite <- app_assoc).
    replace (S (length seen)) with (length (seen ++ [d])) by (rewrite length_app; simpl; lia).
    destruct (Z.eqb_spec d 0) as [->|].
    + apply IH; [by apply zero_run_extend|by apply zero_run_app|].
      rewrite length_app. simpl. lia.
    + apply IH; [split; simpl; [lia|done]| |simpl; lia].
      case_bool_decide; by apply zero_run_app.
Qed.

Lemma best_span_spec ds : zero_run ds (best_span ds).
Proof. apply (scan_spec ds []); split; simpl; done || lia. Qed.

(** *** Characters *)
Lemma digit_char d : is_digit d →
  ∃ c, from_digit16 d = Some c ∧ to_digit16 c = Some d ∧ c ≠ CH_GAP.
Proof.
  intros [? ?].
  assert (d = 0 ∨ d = 1 ∨ d = 2 ∨ d = 3 ∨ d = 4 ∨ d = 5 ∨ d = 6 ∨ d = 7 ∨ d = 8 ∨ d = 9 ∨
    d = 10 ∨ d = 11 ∨ d = 12 ∨ d = 13 ∨ d = 14 ∨ d = 15) as Hd by lia.
  repeat (destruct Hd as [->|Hd]; [eexists; split_and!; [reflexivity|reflexivity|discriminate]|]).
  subst. eexists; split_and!; [reflexivity|reflexivity|discriminate].
Qed.

Lemma from_digits_spec ds : Forall is_digit ds → ∃ cs, from_digits ds = Ret cs ∧
  Forall2 (λ c d, to_digit16 c = Some d ∧ c ≠ CH_GAP) cs ds.
Proof.
  induction 1 as [|d ds Hd _ (cs & Hcs & H2)]; [by exists []|].
  destruct (digit_char d Hd) as (c & Hc & ? & ?). exists (c :: cs). simpl.
  rewrite Hc, Hcs. split; [done|]. by constructor.
Qed.

Lemma shl_small a n : 0 ≤ a → 0 ≤ n → a * 2 ^ n < 2 ^ 64 → u64_shl a n = a * 2 ^ n.
Proof.
  intros. unfold u64_shl. rewrite Z.shiftl_mul_pow2 by done. apply Z.mod_small.
  pose proof (pow2_pos n). nia.
Qed.

Lemma parse_digits cs ds rest gap acc :
  Forall2 (λ c d, to_digit16 c = Some d ∧ c ≠ CH_GAP) cs ds → Forall is_digit ds →
  0 ≤ acc → (acc + 1) * 16 ^ Z.of_nat (length ds) ≤ 2 ^ 64 →
  parse_loop (cs ++ rest) gap acc = parse_loop rest gap (spell acc ds).
Proof.
  intros H. revert acc. induction H as [|c d cs ds [Hc Hg] _ IH]; intros acc Hds Ha Hb; [done|].
  apply Forall_cons in Hds as [[? ?] Hds]. simpl app. simpl parse_loop.
  rewrite bool_decide_eq_false_2 by done. rewrite Hc. simpl length in Hb.
  rewrite Nat2Z.inj_succ, Z.pow_succ_r in Hb by lia.
  pose proof (Z.pow_pos_nonneg 16 (Z.of_nat (length ds)) ltac:(lia) ltac:(lia)).
  rewrite shl_small by (lia || nia). change (2 ^ 4) with 16.
  replace (acc * 16 + d) with (16 * acc + d) by lia. apply IH; [done|lia|nia].
Qed.

(** The digits around the chosen gap. *)
Lemma parse_gap ls ldig rs rdig n gap :
  Forall2 (λ c d, to_digit16 c = Some d ∧ c ≠ CH_GAP) ls ldig → Forall is_digit ldig →
  Forall2 (λ c d, to_digit16 c = Some d ∧ c ≠ CH_GAP) rs rdig → Forall is_digit rdig →
  (length ldig + S n + length rdig = 16)%nat → gap = Z.of_nat n →
  parse_loop (ls ++ CH_GAP :: rs) (Some gap) 0 =
  Some (spell 0 (ldig ++ replicate (S n) 0 ++ rdig)).
Proof.
  intros Hl Hld Hr Hrd Hlen ->.
  assert (B1 := spell_bound 0 ldig Hld ltac:(lia)).
  set (A := Z.of_nat (length ldig)) in *. set (N := Z.of_nat n). set (R := Z.of_nat (length rdig)).
  assert (E64 : 2 ^ 64 = 16 ^ A * 16 ^ (N + 1) * 16 ^ R).
  { rewrite <- !Z.pow_add_r by lia. change (2 ^ 64) with (16 ^ 16). f_equal. lia. }
  assert (0 < 16 ^ A) by (apply Z.pow_pos_nonneg; lia).
  assert (0 < 16 ^ N) by (apply Z.pow_pos_nonneg; lia).
  assert (0 < 16 ^ R) by (apply Z.pow_pos_nonneg; lia).
  assert (Es : 16 ^ (N + 1) = 16 * 16 ^ N) by (rewrite Z.pow_add_r; lia).
  assert (1 ≤ 16 * 16 ^ N * 16 ^ R) by nia.
  assert (16 ^ A ≤ 2 ^ 64) by (rewrite E64, Es; nia).
  rewrite (parse_digits ls ldig) by (done || (fold A; lia)). simpl parse_loop.
  rewrite !spell_app, spell_zeros. set (v := spell 0 ldig) in *.
  assert (E4 : 2 ^ (4 * N) = 16 ^ N) by (rewrite Z.pow_mul_r by lia; reflexivity).
  assert (Hv : (v * 16 * 16 ^ N + 16 * 16 ^ N) * 16 ^ R ≤ 2 ^ 64) by nia.
  assert (Hv' : v * 16 * 16 ^ N + 16 * 16 ^ N ≤ 2 ^ 64) by nia.
  assert (v * 16 ≤ v * 16 * 16 ^ N) by nia.
  rewrite (shl_small v 4) by (change (2 ^ 4) with 16; nia).
  rewrite shl_small by (rewrite ?E4; change (2 ^ 4) with 16; nia).
  change (2 ^ 4) with 16. rewrite E4. 
  rewrite <- (app_nil_r rs).
  rewrite (parse_digits rs rdig); [|exact Hr|exact Hrd|nia|fold R; nia].
  cbn [parse_loop]. do 2 f_equal. replace (Z.of_nat (S n)) with (N + 1) by lia.
  rewrite Es. lia.
Qed.

Lemma from_str_brackets body : from_str ([CH_OPEN] ++ body ++ [CH_CLOSE]) =
  if Z.of_nat (length body) <=? 16
  then parse_loop body (Some (16 - Z.of_nat (length body))) 0 else None.
Proof.
  unfold from_str. rewrite bool_decide_eq_true_2.
  - simpl tail. by rewrite removelast_last.
  - simpl head. f_equal. rewrite app_assoc. apply last_snoc.
Qed.

Local Ltac rebracket body :=
  match goal with |- from_str ?s = _ =>
    replace s with ([CH_OPEN] ++ body ++ [CH_CLOSE])
      by (cbn [app]; rewrite <- ?app_assoc; reflexivity)
  end.

Lemma to_from_str u : u64_ok u → ∃ s, to_chars u = Ret s ∧ from_str s = Some u.
Proof.
  intros Hu. destruct (digits_spec u Hu) as (ds & Hd & Hlen & Hds & Hsp).
  destruct (best_span_spec ds) as [Hb Hz]. unfold to_chars. rewrite Hd. simpl mbind.
  set (b := best_span ds) in *.
  destruct (from_digits_spec (take (start b) ds)) as (ls & Hls & HL); [by apply Forall_take|].
  rewrite Hls. simpl mbind.
  destruct (bool_decide_reflect (1 < len b)%nat) as [Hlong|Hshort].
  - destruct (from_digits_spec (drop (start b + len b) ds)) as (rs & Hrs & HR); [by apply Forall_drop|].
    rewrite Hrs. simpl mbind. eexists. split; [reflexivity|].
    rebracket (ls ++ CH_GAP :: rs). rewrite from_str_brackets.
    pose proof (Forall2_length _ _ _ HL) as L1. pose proof (Forall2_length _ _ _ HR) as L2.
    rewrite length_take in L1. rewrite length_drop in L2.
    rewrite length_app. cbn [length]. rewrite L1, L2, Hlen.
    rewrite (proj2 (Z.leb_le _ _)) by lia.
    destruct (len b) as [|n] eqn:En; [lia|].
    rewrite (parse_gap ls (take (start b) ds) rs (drop (start b + S n) ds) n);
      try done || (by apply Forall_take) || (by apply Forall_drop) || lia.
    + f_equal. rewrite <- Hz, <- drop_drop. rewrite take_drop, take_drop. done.
    + rewrite length_take, length_drop. lia.
  - destruct (from_digits_spec (drop (start b) ds)) as (rs & Hrs & HR); [by apply Forall_drop|].
    rewrite Hrs. simpl mbind. eexists. split; [reflexivity|].
    rebracket (ls ++ rs). rewrite from_str_brackets.
    assert (HA := Forall2_app HL HR). rewrite take_drop in HA.
    rewrite (Forall2_length _ _ _ HA), Hlen. change (Z.of_nat 16 <=? 16) with true. cbv match.
    rewrite <- (app_nil_r (ls ++ rs)).
    rewrite (parse_digits _ ds); [cbn [parse_loop]; by rewrite Hsp|done|done|lia|].
    rewrite Hlen. reflexivity || (change (16 ^ Z.of_nat 16) with (2 ^ 64); lia).
Qed.

End TextFacts.

(** ** Bounds of the parser *)
Section ParseBounds.
Import Text.

Lemma to_digit16_range c d : to_digit16 c = Some d → 0 ≤ d < 16.
Proof.
  unfold to_digit16. intros H.
  repeat match type of H with (if ?b then _ else _) = _ => destruct b eqn:? end;
    try discriminate; injection H as <-;
    repeat match goal with E : _ && _ = true |- _ => apply andb_prop in E as [?%Z.leb_le ?%Z.leb_le] end;
    lia.
Qed.

(** Adding a digit after [out <<= 4] cannot overflow. *)
Lemma shl4_add_ok out d : u64_ok out → 0 ≤ d < 16 → u64_ok (u64_shl out 4 + d).
Proof.
  intros Ho Hd. rewrite shl_nibble by done.
  pose proof (Z.mod_pos_bound out (2 ^ 60)). unfold u64_ok. lia.
Qed.

Lemma u64_shl_ok x n : u64_ok (u64_shl x n).
Proof. unfold u64_shl, u64_ok. apply Z.mod_pos_bound. lia. Qed.

Lemma parse_loop_ok bytes : ∀ gap out r,
  u64_ok out → parse_loop bytes gap out = Some r → u64_ok r.
Proof.
  induction bytes as [|c bytes IH]; intros gap out r Ho H; simpl in H; [by injection H as <-|].
  case_bool_decide.
  - destruct gap; [|discriminate]. eapply IH; [|exact H]. apply u64_shl_ok.
  - destruct (to_digit16 c) as [d|] eqn:Hc; [|discriminate].
    eapply IH; [|exact H]. apply shl4_add_ok; eauto using to_digit16_range.
Qed.

Lemma to_chars_no_char c u s : u64_ok u → to_chars u = Ret s →
  c ≠ CH_OPEN → c ≠ CH_CLOSE → c ≠ CH_GAP → to_digit16 c = None → c ∉ s.
Proof.
  intros Hu H N1 N2 N3 N4. unfold to_chars in H.
  assert (HF : ∀ ds cs, from_digits ds = Ret cs → Forall is_digit ds → c ∉ cs).
  { intros ds cs E Hds Hin. destruct (from_digits_spec ds Hds) as (cs' & E' & H2).
    rewrite E in E'. injection E' as <-.
    apply list_elem_of_lookup in Hin as [i Hi].
    destruct (Forall2_lookup_l _ _ _ _ _ H2 Hi) as (? & _ & ? & _). congruence. }
  destruct (digits_spec u Hu) as (ds & Hd & _ & Hds & _). rewrite Hd in H. simpl in H.
  apply bind_Ret_inv in H as (l & Hl & H). case_bool_decide; apply bind_Ret_inv in H as (r & Hr & H);
    injection H as <-;
    (assert (c ∉ l) by (eapply HF; [exact Hl|by apply Forall_take]));
    (assert (c ∉ r) by (eapply HF; [exact Hr|by apply Forall_drop]));
    rewrite ?elem_of_cons, ?elem_of_app, ?elem_of_cons, ?elem_of_app, ?elem_of_cons, ?elem_of_nil; tauto.
Qed.

End ParseBounds.

(** C39: Printing an address never panics, and parsing the printed text gives the
    address back, for every 64-bit value (the zero run that is compressed to a
    colon is expanded to its original width). *)
Theorem address_print_parse (a : Address) (H : u64_ok a) :
  ∃ s, address_to_string a = Ret s ∧ address_from_str s = Ok a.
Proof.
  destruct (to_from_str a H) as (s & Hs & Hp). exists s. split; [done|].
  unfold address_from_str. by rewrite Hp.
Qed.

Lemma address_print_parse_witness :
  u64_ok 0xFF0000FF0000FF00 ∧
  ∃ s, address_to_string 0xFF0000FF0000FF00 = Ret s ∧
       address_from_str s = Ok 0xFF0000FF0000FF00.
Proof.
  split; [by vm_compute|]. apply (address_print_parse 0xFF0000FF0000FF00). by vm_compute.
Defined.

(** Whatever the input text, an address that parses is a 64-bit value: the
    additions of the loop never overflow and the gap is expanded at most once,
    within the word. *)
Theorem address_parse_bounded (s : list ascii) (a : Address) (H : address_from_str s = Ok a) :
  u64_ok a.
Proof.
  unfold address_from_str, Text.from_str in H.
  case_bool_decide; [|discriminate].
  destruct (Z.of_nat _ <=? 16); [|discriminate].
  destruct (Text.parse_loop _ _ 0) as [r|] eqn:E; [|discriminate]. injection H as <-.
  eapply parse_loop_ok; [|exact E]. by vm_compute.
Qed.

Lemma address_parse_bounded_witness :
  address_from_str (String.list_ascii_of_string "<ff:ff0000Ff00>") = Ok 0xFF0000FF0000FF00 ∧
  u64_ok 0xFF0000FF0000FF00.
Proof.
  split; [by vm_compute|].
  apply (address_parse_bounded (String.list_ascii_of_string "<ff:ff0000Ff00>")). by vm_compute.
Defined.
