(* ===== verification/Subnet.v ===== *)
(** * Subnets and address ranges
    (libs/mm1-address/src/subnet.rs, subnet/net_mask.rs, address_range.rs)

    A [NetMask] is a number of fixed leading bits between 0 and 64; a
    [NetAddress] is an address with a mask, written [addr/mask]. An
    [AddressRange] is the interval a subnet covers; its [Ord] makes overlapping
    ranges equal, which is how the registries find the subnet of an address. *)

From Stdlib Require Import Ascii.
From S2P Require Import Prelude U64 Address.

Open Scope Z_scope.

Definition ADDRESS_BITS : Z := U64_BITS.

(** [struct NetMask(u8)] *)
Abbreviation NetMask := Z.

Inductive InvalidMask := MkInvalidMask (value : Z).

(** [TryFrom<u8> for NetMask], also the path of its [Deserialize]. *)
Definition net_mask_try_from (value : Z) : result NetMask InvalidMask :=
  if value <=? ADDRESS_BITS then Ok value else Err (MkInvalidMask value).

Definition bits_fixed (m : NetMask) : Z := m.
Definition bits_available (m : NetMask) : Z := ADDRESS_BITS - bits_fixed m.

(** [NetMask::into_u64] *)
Definition net_mask_into_u64 (m : NetMask) : Z :=
  if m =? 0 then 0 else u64_shl u64_max (U64_BITS - m).

(** [NetMask::MIN] and [NetMask::MAX] *)
Definition M_0 : NetMask := 0.
Definition M_64 : NetMask := 64.

Record NetAddress := mkNet { address : Address; mask : NetMask }.

#[export] Instance net_address_eq_dec : EqDecision NetAddress.
Proof. solve_decision. Defined.

(** [From<Address> for NetAddress] *)
Definition net_from_address (a : Address) : NetAddress := mkNet a M_64.

(** ** Parsing and printing *)

(** [u8::from_str]: an optional plus sign and at least one decimal digit; the
    value must fit in a byte. *)
Inductive IntErrorKind := Empty | InvalidDigit | PosOverflow.

Definition to_digit10 (c : ascii) : option Z :=
  let n := Z.of_N (N_of_ascii c) in
  if (48 <=? n) && (n <=? 57) then Some (n - 48) else None.

Fixpoint parse_u8_loop (acc : Z) (s : list ascii) : result Z IntErrorKind :=
  match s with
  | [] => Ok acc
  | c :: s =>
      match to_digit10 c with
      | None => Err InvalidDigit
      | Some d => if acc * 10 + d <=? 255 then parse_u8_loop (acc * 10 + d) s else Err PosOverflow
      end
  end.

Definition parse_u8 (s : list ascii) : result Z IntErrorKind :=
  match s with
  | [] => Err Empty
  | [c] => if bool_decide (c = "+"%char ∨ c = "-"%char) then Err InvalidDigit else parse_u8_loop 0 [c]
  | c :: s' => if bool_decide (c = "+"%char) then parse_u8_loop 0 s' else parse_u8_loop 0 s
  end.

Definition digit10 (d : Z) : ascii := ascii_of_N (48 + Z.to_N d).

(** [<u8 as Display>::fmt] *)
Definition print_u8 (n : Z) : list ascii :=
  (if 100 <=? n then [digit10 (n / 100)] else []) ++
  (if 10 <=? n then [digit10 (n / 10 mod 10)] else []) ++ [digit10 (n mod 10)].

Inductive MaskParseError :=
| MaskInvalid (e : InvalidMask)
| MaskParseInt (e : IntErrorKind).

Inductive NetAddressParseError :=
| NoSlash
| ParseAddrError (e : AddressParseError)
| ParseMaskError (e : MaskParseError).

(** [<NetMask as FromStr>::from_str] *)
Definition net_mask_from_str (s : list ascii) : result NetMask MaskParseError :=
  match parse_u8 s with
  | Err e => Err (MaskParseInt e)
  | Ok v => map_err MaskInvalid (net_mask_try_from v)
  end.

(** [s.split_once('/')] *)
Fixpoint split_once (sep : ascii) (s : list ascii) : option (list ascii * list ascii) :=
  match s with
  | [] => None
  | c :: s =>
      if bool_decide (c = sep) then Some ([], s)
      else match split_once sep s with
           | Some (l, r) => Some (c :: l, r)
           | None => None
           end
  end.

(** [<NetAddress as FromStr>::from_str] *)
Definition net_address_from_str (s : list ascii) : result NetAddress NetAddressParseError :=
  match split_once "/" s with
  | None => Err NoSlash
  | Some (addr, m) =>
      match address_from_str addr with
      | Err e => Err (ParseAddrError e)
      | Ok a =>
          match net_mask_from_str m with
          | Err e => Err (ParseMaskError e)
          | Ok m => Ok (mkNet a m)
          end
      end
  end.

(** [<NetAddress as Display>::fmt] *)
Definition net_address_to_string (n : NetAddress) : outcome (list ascii) :=
  a ← address_to_string (address n);
  Ret (a ++ ["/"%char] ++ print_u8 (mask n)).

(** ** Address ranges *)
Record AddressRange := mkRange { lo : Address; hi : Address }.

#[export] Instance address_range_eq_dec : EqDecision AddressRange.
Proof. solve_decision. Defined.

(** [AddressRange::new] *)
Definition range_new (l h : Address) : outcome AddressRange :=
  assert_ (l <=? h);; Ret (mkRange l h).

(** [From<Address>] and [From<NetAddress> for AddressRange] *)
Definition range_from_address (a : Address) : outcome AddressRange := range_new a a.

Definition range_from_net (n : NetAddress) : outcome AddressRange :=
  range_new (address n) (Z.lor (address n) (u64_not (net_mask_into_u64 (mask n)))).

(** [From<AddressRange> for NetAddress] *)
Definition net_from_range (r : AddressRange) : outcome NetAddress :=
  let mask_bits := u64_not (Z.lxor (lo r) (hi r)) in
  match net_mask_try_from (leading_ones mask_bits) with
  | Ok m => Ret (mkNet (lo r) m)
  | Err _ => Panic
  end.

(** [<AddressRange as Ord>::cmp]; [PartialEq] and [PartialOrd] delegate to it. *)
Definition range_cmp (r s : AddressRange) : comparison :=
  match (hi r ?= lo s)%Z, (lo r ?= hi s)%Z with
  | Lt, Lt => Lt
  | Gt, Gt => Gt
  | _, _ => Eq
  end.

Definition range_eqb (r s : AddressRange) : bool :=
  match range_cmp r s with Eq => true | _ => false end.

(** ** Well-formed subnets *)
Definition net_ok (n : NetAddress) : Prop := u64_ok (address n) ∧ 0 ≤ mask n ≤ 64.

(** No address bit outside the mask. *)
Definition net_canonical (n : NetAddress) : Prop :=
  net_ok n ∧ (2 ^ (64 - mask n) | address n).

(** The addresses of a subnet. *)
Definition net_contains (n : NetAddress) (x : Z) : Prop :=
  address n ≤ x < address n + 2 ^ (64 - mask n).

Definition range_contains (r : AddressRange) (x : Z) : Prop := lo r ≤ x ≤ hi r.

Lemma net_mask_into_u64_mask m : 0 ≤ m ≤ 64 → net_mask_into_u64 m = mask_of (64 - m).
Proof.
  intros. unfold net_mask_into_u64. case_Zb; [by subst|].
  apply mask_of_shl. unfold U64_BITS. lia.
Qed.

Lemma lor_not_mask a h : u64_ok a → 0 ≤ h ≤ 64 →
  Z.lor a (u64_not (mask_of h)) = 2 ^ h * (a / 2 ^ h) + (2 ^ h - 1).
Proof.
  intros Ha Hh. rewrite mask_of_not by done.
  assert (E : Z.lor a (2 ^ h - 1) = Z.lor (Z.land a (mask_of h)) (2 ^ h - 1)).
  { rewrite mask_of_shiftl by done. replace (2 ^ h - 1) with (Z.ones h) by (rewrite Z.ones_equiv; lia).
    apply Z.bits_inj'. intros i Hi. rewrite !Z.lor_spec, Z.land_spec.
    rewrite Z.testbit_ones_nonneg, Z.shiftl_spec by lia.
    destruct (Z.ltb_spec i h); [by rewrite !orb_true_r|]. rewrite !orb_false_r.
    rewrite Z.testbit_ones_nonneg by lia. destruct (Z.ltb_spec (i - h) (64 - h)).
    - by rewrite andb_true_r.
    - by rewrite u64_bit_high by (done || lia). }
  rewrite E, land_mask by done.
  replace (2 ^ h - 1) with (Z.ones h) by (rewrite Z.ones_equiv; lia).
  rewrite <- Z.lxor_lor, <- Z.add_nocarry_lxor; [done| |].
  all: rewrite Z.land_ones, Z.mul_comm by lia; apply Z.mod_mul; pose proof (pow2_pos h); lia.
Qed.

Lemma range_from_net_eq n : net_ok n →
  range_from_net n = Ret (mkRange (address n)
    (2 ^ (64 - mask n) * (address n / 2 ^ (64 - mask n)) + (2 ^ (64 - mask n) - 1))).
Proof.
  intros [Ha Hm]. unfold range_from_net, range_new.
  rewrite net_mask_into_u64_mask, lor_not_mask by (done || lia).
  pose proof (div_bounds (address n) (64 - mask n)).
  rewrite assert_true by (apply Z.leb_le; lia). done.
Qed.

Lemma range_from_net_canonical n : net_canonical n →
  range_from_net n = Ret (mkRange (address n) (address n + 2 ^ (64 - mask n) - 1)).
Proof.
  intros [Hn [k Hk]]. rewrite range_from_net_eq by done. rewrite Hk.
  assert (0 < 2 ^ (64 - mask n)) by (apply pow2_pos; destruct Hn; lia).
  rewrite Z.div_mul by lia. do 2 f_equal. lia.
Qed.

Lemma net_from_range_block a h : u64_ok a → 0 ≤ h ≤ 64 → (2 ^ h | a) →
  net_from_range (mkRange a (a + 2 ^ h - 1)) = Ret (mkNet a (64 - h)).
Proof.
  intros Ha Hh [k Hk]. pose proof (pow2_pos h). unfold net_from_range. simpl.
  assert (Ho : u64_ok (a + 2 ^ h - 1)).
  { pose proof (block_fits a h Ha Hh ltac:(by exists k)). unfold u64_ok in *. lia. }
  unfold leading_ones. rewrite u64_not_not by auto using u64_lxor_ok.
  assert (Hx := u64_lxor_ok _ _ Ha Ho).
  assert (E : leading_zeros (Z.lxor a (a + 2 ^ h - 1)) = 64 - h).
  { assert (Hu : 64 - leading_zeros (Z.lxor a (a + 2 ^ h - 1)) ≤ h).
    { apply leading_zeros_spec; [done|lia|]. apply lxor_lt_pow2; unfold u64_ok in *; try lia.
      symmetry. apply div_eq_iff; [lia|by exists k|lia]. }
    assert (Hl : ¬ 64 - leading_zeros (Z.lxor a (a + 2 ^ h - 1)) ≤ h - 1 ∨ h = 0).
    { destruct (Z.eq_dec h 0); [by right|left].
      rewrite leading_zeros_spec by (done || lia).
      rewrite lxor_lt_pow2 by (unfold u64_ok in *; lia). intros E. symmetry in E.
      apply div_eq_iff in E; [pose proof (pow2_half h); lia|lia|].
      rewrite Hk. apply Z.divide_mul_r, pow2_divide. lia. }
    pose proof (leading_zeros_range _ Hx). lia. }
  rewrite E. unfold net_mask_try_from, ADDRESS_BITS, U64_BITS. case_Zb; [done|lia].
Qed.

(** ** Text *)
#[export] Instance int_error_kind_eq_dec : EqDecision IntErrorKind.
Proof. solve_decision. Defined.

Lemma parse_print_u8 n : 0 ≤ n < 256 → parse_u8 (print_u8 n) = Ok n.
Proof.
  intros Hn.
  assert (H : forallb (λ n, bool_decide (parse_u8 (print_u8 (Z.of_nat n)) = Ok (Z.of_nat n)))
    (seq 0 256) = true) by (vm_compute; reflexivity).
  rewrite forallb_forall in H. specialize (H (Z.to_nat n)).
  rewrite Z2Nat.id in H by lia. rewrite bool_decide_eq_true in H. apply H, in_seq. lia.
Qed.

Lemma split_once_app sep l r : sep ∉ l → split_once sep (l ++ sep :: r) = Some (l, r).
Proof.
  induction l as [|c l IH]; intros H; simpl.
  - by rewrite bool_decide_eq_true_2.
  - apply not_elem_of_cons in H as [??]. rewrite bool_decide_eq_false_2 by done.
    by rewrite IH.
Qed.

Lemma net_text (n : NetAddress) (H : net_ok n) :
  ∃ s, net_address_to_string n = Ret s ∧ net_address_from_str s = Ok n.
Proof.
  destruct n as [a m], H as [Ha Hm]. cbn [address mask] in *.
  destruct (to_from_str a Ha) as (s & Hs & Hp).
  unfold net_address_to_string, address_to_string. cbn [address mask]. rewrite Hs, bind_Ret.
  eexists. split; [reflexivity|]. unfold net_address_from_str.
  change (["/"%char] ++ print_u8 m) with ("/"%char :: print_u8 m).
  rewrite split_once_app by (eapply to_chars_no_char; done).
  unfold address_from_str. rewrite Hp. unfold net_mask_from_str.
  rewrite parse_print_u8 by lia. unfold net_mask_try_from, ADDRESS_BITS, U64_BITS.
  by rewrite (proj2 (Z.leb_le _ _)) by lia.
Qed.

(** Printing a subnet and parsing the text gives the same subnet back, for
    every address and every mask from 0 to 64. *)
Theorem net_address_print_parse (n : NetAddress) (H : net_ok n) :
  ∃ s, net_address_to_string n = Ret s ∧ net_address_from_str s = Ok n.
Proof. by apply net_text. Qed.

Lemma net_address_print_parse_witness :
  net_ok (mkNet 0xFFF8000000000000 13) ∧
  ∃ s, net_address_to_string (mkNet 0xFFF8000000000000 13) = Ret s ∧
       net_address_from_str s = Ok (mkNet 0xFFF8000000000000 13).
Proof.
  split; [by vm_compute|]. apply (net_address_print_parse (mkNet 0xFFF8000000000000 13)).
  by vm_compute.
Defined.

(** A mask that is out of range is rejected by every way of making a
    [NetMask] from a number or from text, so that a parsed subnet always has a
    mask of at most 64 bits and a 64-bit address. *)
Theorem net_address_parse_ok (s : list ascii) (n : NetAddress)
  (H : net_address_from_str s = Ok n) : net_ok n.
Proof.
  unfold net_address_from_str in H. destruct (split_once "/" s) as [[l r]|]; [|discriminate].
  destruct (address_from_str l) as [a|] eqn:Ea; [|discriminate].
  destruct (net_mask_from_str r) as [m|] eqn:Em; [|discriminate]. injection H as <-.
  assert (Hu : ∀ t acc v, parse_u8_loop acc t = Ok v → 0 ≤ acc → 0 ≤ v).
  { clear. induction t as [|c t IH]; intros acc v H; simpl in H; [congruence|].
    destruct (to_digit10 c) as [d|] eqn:Ed; [|discriminate].
    assert (0 ≤ d).
    { unfold to_digit10 in Ed. destruct (_ && _) eqn:E in Ed; [|discriminate].
      apply andb_prop in E as [E%Z.leb_le _]. injection Ed as <-. lia. }
    destruct (_ <=? 255); [|discriminate]. intros. eapply IH; [exact H|lia]. }
  split; simpl.
  - unfold address_from_str, Text.from_str in Ea. case_bool_decide; [|discriminate].
    destruct (_ <=? 16); [|discriminate].
    destruct (Text.parse_loop _ _ 0) eqn:E; [|discriminate]. injection Ea as <-.
    eapply parse_loop_ok; [|exact E]. by vm_compute.
  - unfold net_mask_from_str in Em. destruct (parse_u8 r) as [v|] eqn:Ev; [|discriminate].
    unfold net_mask_try_from, ADDRESS_BITS, U64_BITS in Em.
    destruct (Z.leb_spec v 64); [|discriminate]. injection Em as <-. split; [|done].
    unfold parse_u8 in Ev. destruct r as [|c [|c' r]]; [discriminate| |];
      case_bool_decide; try discriminate; (eapply Hu; [exact Ev|lia]).
Qed.

Lemma net_address_parse_ok_witness :
  net_address_from_str (String.list_ascii_of_string "<f:100>/56") = Ok (mkNet 0xf000000000000100 56) ∧
  net_ok (mkNet 0xf000000000000100 56) ∧
  net_address_from_str (String.list_ascii_of_string "<f:100>/65") =
    Err (ParseMaskError (MaskInvalid (MkInvalidMask 65))).
Proof.
  split; [by vm_compute|]. split; [|by vm_compute].
  apply (net_address_parse_ok (String.list_ascii_of_string "<f:100>/56")). by vm_compute.
Defined.

(** The range of a canonical subnet (no address bit outside its mask) covers
    exactly the subnet's addresses, and converting the range back gives the same
    subnet; neither conversion panics. *)
Theorem net_range_roundtrip (n : NetAddress) (H : net_canonical n) :
  ∃ r, range_from_net n = Ret r ∧ net_from_range r = Ret n ∧
       ∀ x, range_contains r x ↔ net_contains n x.
Proof.
  rewrite range_from_net_canonical by done. destruct H as [[Ha Hm] Hd].
  eexists. split; [reflexivity|]. split.
  - rewrite net_from_range_block by (done || lia). destruct n. simpl. do 2 f_equal. lia.
  - intros x. unfold range_contains, net_contains. simpl. lia.
Qed.

Lemma net_range_roundtrip_witness :
  net_canonical (mkNet 0xFFF0000000000000 13) ∧
  ∃ r, range_from_net (mkNet 0xFFF0000000000000 13) = Ret r ∧
       net_from_range r = Ret (mkNet 0xFFF0000000000000 13) ∧
       ∀ x, range_contains r x ↔ net_contains (mkNet 0xFFF0000000000000 13) x.
Proof.
  assert (H : net_canonical (mkNet 0xFFF0000000000000 13)).
  { split; [by vm_compute|]. exists 0x1FFE. reflexivity. }
  split; [exact H|]. apply (net_range_roundtrip _ H).
Defined.

(** ** The order on ranges *)
Definition range_ok (r : AddressRange) : Prop := lo r ≤ hi r.

Definition range_disjoint (r s : AddressRange) : Prop :=
  ∀ x, ¬ (range_contains r x ∧ range_contains s x).

Lemma range_cmp_lt r s : range_ok r → range_ok s → range_cmp r s = Lt ↔ hi r < lo s.
Proof.
  unfold range_cmp, range_ok. intros.
  destruct (Z.compare_spec (hi r) (lo s)), (Z.compare_spec (lo r) (hi s));
    split; intros; try discriminate; try done; lia.
Qed.

Lemma range_cmp_gt r s : range_ok r → range_ok s → range_cmp r s = Gt ↔ hi s < lo r.
Proof.
  unfold range_cmp, range_ok. intros.
  destruct (Z.compare_spec (hi r) (lo s)), (Z.compare_spec (lo r) (hi s));
    split; intros; try discriminate; try done; lia.
Qed.

Lemma range_cmp_eq r s : range_ok r → range_ok s →
  range_cmp r s = Eq ↔ lo r ≤ hi s ∧ lo s ≤ hi r.
Proof.
  unfold range_cmp, range_ok. intros.
  destruct (Z.compare_spec (hi r) (lo s)), (Z.compare_spec (lo r) (hi s));
    split; intros; try discriminate; try done; lia.
Qed.

Lemma range_cmp_eq_overlap r s : range_ok r → range_ok s →
  range_cmp r s = Eq ↔ ∃ x, range_contains r x ∧ range_contains s x.
Proof.
  intros Hr Hs. rewrite range_cmp_eq by done. unfold range_contains, range_ok in *. split.
  - intros. exists (Z.max (lo r) (lo s)). lia.
  - intros (x & ? & ?). lia.
Qed.

(** On ranges with [lo <= hi], equality is overlap, and on disjoint ranges
    the order is the total order by position: exactly one of [Less] and
    [Greater] holds, reversing the arguments reverses the answer, and [Less] is
    transitive. *)
Theorem range_order (r s t : AddressRange) (Hr : range_ok r) (Hs : range_ok s) (Ht : range_ok t) :
  (range_cmp r s = Eq ↔ ∃ x, range_contains r x ∧ range_contains s x) ∧
  range_cmp s r = CompOpp (range_cmp r s) ∧
  (range_disjoint r s → range_cmp r s = Lt ∨ range_cmp r s = Gt) ∧
  (range_cmp r s = Lt → range_cmp s t = Lt → range_cmp r t = Lt).
Proof.
  split; [by apply range_cmp_eq_overlap|]. split.
  { unfold range_cmp. rewrite (Z.compare_antisym (lo r) (hi s)), (Z.compare_antisym (hi r) (lo s)).
    by destruct (hi r ?= lo s), (lo r ?= hi s). }
  split.
  - intros Hd. destruct (range_cmp r s) eqn:E; [|auto|auto].
    apply range_cmp_eq_overlap in E as (x & Hx); [|done|done]. by destruct (Hd x).
  - rewrite !range_cmp_lt by done. unfold range_ok in *. lia.
Qed.

Lemma range_order_witness :
  range_ok (mkRange 0 10) ∧ range_ok (mkRange 11 20) ∧ range_ok (mkRange 25 25) ∧
  range_cmp (mkRange 0 10) (mkRange 25 25) = Lt.
Proof.
  assert (A : range_ok (mkRange 0 10)) by (by vm_compute).
  assert (B : range_ok (mkRange 11 20)) by (by vm_compute).
  assert (C : range_ok (mkRange 25 25)) by (by vm_compute).
  split; [exact A|]. split; [exact B|]. split; [exact C|].
  destruct (range_order _ _ _ A B C) as (_ & _ & _ & Htrans). apply Htrans; reflexivity.
Defined.
