(* ===== verification/Trie.v ===== *)
(** * The free-block trie (libs/mm1-address/src/pool/trie.rs)

    A path-compressed binary trie of free address blocks. Each node carries a
    block as a path and a mask; a leaf is free, a fork splits its block in two
    halves and holds one sub-trie in each. [release] adds a block and merges
    equal halves, [acquire] takes the first block that is large enough and cuts
    it down to size, [drain_into] moves all blocks into another trie.

    The debug build is modelled: [debug_assert!] and [check_invariants] are run
    and panic when they fail. The theorems of the second half show they never
    do, as long as only blocks that are not already free are released. *)

From S2P Require Import Prelude U64.

Open Scope Z_scope.

(** [struct Node] and [enum Next] *)
Inductive Node : Type :=
| mkNode (seg_path seg_mask : Z) (next : Next)
with Next : Type :=
| Leaf
| Fork (zero one : option Node).

Definition seg_mask (n : Node) : Z := match n with mkNode _ m _ => m end.
Definition next_of (n : Node) : Next := match n with mkNode _ _ x => x end.
Definition is_leaf (n : Node) : bool :=
  match next_of n with Leaf => true | Fork _ _ => false end.

(** [util::assert_valid_mask] *)
Definition valid_mask (m : Z) : bool := leading_ones m + trailing_zeros m =? U64_BITS.
Definition assert_valid_mask (m : Z) : outcome unit := assert_ (valid_mask m).

(** [util::common_ancestor] *)
Definition common_ancestor (l r : Z * Z) : outcome (Z * Z) :=
  let '(la, lm) := l in
  let '(ra, rm) := r in
  assert_valid_mask lm;;
  assert_valid_mask rm;;
  assert_ (Z.land la (u64_not lm) =? 0);;
  assert_ (Z.land ra (u64_not rm) =? 0);;
  let m := Z.land lm rm in
  let c := leading_zeros (Z.lxor (Z.land la m) (Z.land ra m)) in
  let cm := Z.land (if c =? 0 then 0 else u64_shl u64_max (U64_BITS - c)) m in
  let ca := Z.land la cm in
  assert_ (ca =? Z.land ra cm);;
  assert_valid_mask cm;;
  assert_ (Z.land ca (u64_not cm) =? 0);;
  Ret (ca, cm).

(** [invariants: Node::check_invariants] *)
Fixpoint node_check (n : Node) : bool :=
  match n with
  | mkNode p m nx =>
      valid_mask m && (p =? Z.land p m) &&
      let nz := trailing_zeros m in
      if nz =? 0 then match nx with Leaf => true | Fork _ _ => false end
      else
        match nx with
        | Leaf => true
        | Fork zero one =>
            let min_leading_ones := U64_BITS - nz in
            match zero, one with
            | Some zero, Some one =>
                (min_leading_ones <=? leading_ones (seg_mask zero)) && node_check zero &&
                (min_leading_ones <=? leading_ones (seg_mask one)) && node_check one
            | _, _ => false
            end
        end
  end.

(** [Node::leaf] *)
Definition leaf (p m : Z) : outcome Node :=
  let node := mkNode p m Leaf in
  assert_ (node_check node);; Ret node.

(** [Node::maybe_compact] *)
Definition maybe_compact (n : Node) : outcome Node :=
  match n with
  | mkNode p m (Fork zero one) =>
      zero' ← expect zero;
      one' ← expect one;
      if (u64_shl (seg_mask zero') 1 =? m) && (u64_shl (seg_mask one') 1 =? m)
         && is_leaf zero' && is_leaf one'
      then Ret (mkNode p m Leaf)
      else Ret n
  | _ => Ret n
  end.

(** [struct Pool] of the module [trie] *)
Record Trie := mkTrie { root : option Node }.

(** [Pool::check_invariants] *)
Definition trie_check (t : Trie) : bool :=
  match root t with Some n => node_check n | None => true end.

(** [Pool::empty] *)
Definition empty : Trie := mkTrie None.

(** The inner [dfs] of [Pool::release], on a present node; the source's [dfs]
    of an absent one makes a leaf. Returns the node that replaces the current
    one and whether the block was inserted. *)
Fixpoint release_node (cur : Node) (addr m : Z) {struct cur} : outcome (Node * bool) :=
  let dfs (cur_node_opt : option Node) : outcome (option Node * bool) :=
    match cur_node_opt with
    | None => n ← leaf addr m; Ret (Some n, true)
    | Some n => '(n, inserted) ← release_node n addr m; Ret (Some n, inserted)
    end in
  match cur with
  | mkNode cur_seg_path cur_seg_mask nx =>
      '(ca_addr, ca_mask) ← common_ancestor (cur_seg_path, cur_seg_mask) (addr, m);
      assert_ (negb (trailing_zeros ca_mask =? 0));;
      let split_bit := Z.land addr (u64_shl 1 (trailing_zeros ca_mask - 1)) in
      if ca_mask =? m then Ret (cur, false)
      else if ca_mask =? cur_seg_mask then
        match nx with
        | Leaf => Ret (cur, false)
        | Fork zero one =>
            if split_bit =? 0 then
              '(zero, inserted) ← dfs zero;
              n ← maybe_compact (mkNode cur_seg_path cur_seg_mask (Fork zero one));
              Ret (n, inserted)
            else
              '(one, inserted) ← dfs one;
              n ← maybe_compact (mkNode cur_seg_path cur_seg_mask (Fork zero one));
              Ret (n, inserted)
        end
      else
        parent ← leaf ca_addr ca_mask;
        this ← leaf addr m;
        let '(zero, one) :=
          if split_bit =? 0 then (Some this, Some cur) else (Some cur, Some this) in
        n ← maybe_compact (mkNode ca_addr (seg_mask parent) (Fork zero one));
        Ret (n, true)
  end.

Definition release_dfs (cur_node_opt : option Node) (addr m : Z) : outcome (option Node * bool) :=
  match cur_node_opt with
  | None => n ← leaf addr m; Ret (Some n, true)
  | Some n => '(n, inserted) ← release_node n addr m; Ret (Some n, inserted)
  end.

(** [Pool::release] *)
Definition release (t : Trie) (addr m : Z) : outcome (Trie * bool) :=
  assert_valid_mask m;;
  assert_ (Z.land addr (u64_not m) =? 0);;
  '(root', inserted) ← release_dfs (root t) addr m;
  let t' := mkTrie root' in
  assert_ (trie_check t');;
  Ret (t', inserted).

(** [Pool::new] *)
Definition new (addr m : Z) : outcome Trie :=
  '(t, _) ← release empty addr m; Ret t.

(** The loop that rebuilds what is left of a leaf after its first sub-block is
    taken: one fork per level between the sought size and the leaf's. *)
Fixpoint left_over_loop (p : Z) (n : nat) (i : Z) (left_over : Node) : outcome Node :=
  match n with
  | O => Ret left_over
  | S n =>
      let split_bit := u64_shl 1 i in
      let split_mask := u64_shl u64_max i in
      one ← leaf (Z.lor p split_bit) split_mask;
      parent ← leaf p (u64_shl split_mask 1);
      left_over_loop p n (i + 1)
        (mkNode p (seg_mask parent) (Fork (Some left_over) (Some one)))
  end.

(** The inner [dfs] of [Pool::acquire]: the address found and what replaces the
    current node. *)
Fixpoint acquire_node (cur : Node) (sought : Z) {struct cur} : outcome (option Z * option Node) :=
  let dfs (cur_node_opt : option Node) : outcome (option Z * option Node) :=
    match cur_node_opt with
    | None => Ret (None, None)
    | Some n => acquire_node n sought
    end in
  match cur with
  | mkNode p m nx =>
      match leading_ones m ?= leading_ones sought, nx with
      | Gt, _ => Ret (None, Some cur)
      | Eq, Fork _ _ => Ret (None, Some cur)
      | Lt, Fork zero one =>
          '(out1, zero) ← dfs zero;
          '(out, one) ← match out1 with
                         | Some _ => Ret (out1, one)
                         | None => dfs one
                         end;
          match zero, one with
          | Some _, Some _ => Ret (out, Some (mkNode p m (Fork zero one)))
          | Some _, None => Ret (out, zero)
          | None, Some _ => Ret (out, one)
          | None, None => Panic
          end
      | Eq, Leaf => Ret (Some p, None)
      | Lt, Leaf =>
          first ← leaf (Z.lor p (u64_shl 1 (trailing_zeros sought))) sought;
          left_over ← left_over_loop p
            (Z.to_nat (trailing_zeros m - (trailing_zeros sought + 1)))
            (trailing_zeros sought + 1) first;
          Ret (Some p, Some left_over)
      end
  end.

(** [Pool::acquire] *)
Definition acquire (t : Trie) (m : Z) : outcome (Trie * option Z) :=
  assert_valid_mask m;;
  '(out, root') ← match root t with
                   | None => Ret (None, None)
                   | Some n => acquire_node n m
                   end;
  let t' := mkTrie root' in
  assert_ (trie_check t');;
  Ret (t', out).

(** The inner [dfs] of [Pool::drain_into]. *)
Fixpoint drain_node (n : Node) (other : Trie) {struct n} : outcome Trie :=
  let dfs (o : option Node) (other : Trie) : outcome Trie :=
    match o with None => Ret other | Some n => drain_node n other end in
  match n with
  | mkNode p m Leaf => '(other, _) ← release other p m; Ret other
  | mkNode p m (Fork zero one) => other ← dfs zero other; dfs one other
  end.

(** [Pool::drain_into]: the emptied trie and the other one. *)
Definition drain_into (t other : Trie) : outcome (Trie * Trie) :=
  other ← match root t with None => Ret other | Some n => drain_node n other end;
  assert_ (trie_check empty);;
  Ret (empty, other).

(** ** Denotation and well-formedness *)

(** The free addresses of a node and of a trie. *)
Fixpoint node_mem (n : Node) (x : Z) : Prop :=
  match n with
  | mkNode p m Leaf => p ≤ x < p + 2 ^ trailing_zeros m
  | mkNode _ _ (Fork zero one) =>
      (match zero with Some n => node_mem n x | None => False end) ∨
      (match one with Some n => node_mem n x | None => False end)
  end.

Definition opt_mem (o : option Node) (x : Z) : Prop :=
  match o with Some n => node_mem n x | None => False end.

Definition mem (t : Trie) (x : Z) : Prop := opt_mem (root t) x.

(** The block of [2^h] addresses at [p]. *)
Definition in_block (p h x : Z) : Prop := p ≤ x < p + 2 ^ h.

Definition aligned (p h : Z) : Prop := u64_ok p ∧ 0 ≤ h ≤ 64 ∧ (2 ^ h | p).

(** The block [p', h'] lies in the block [p, h]. *)
Definition sub_block (p' h' p h : Z) : Prop := h' ≤ h ∧ p ≤ p' ∧ p' + 2 ^ h' ≤ p + 2 ^ h.

(** Well-formed tries: aligned blocks, a sub-trie in each half of a fork, and no
    fork whose two halves are both free leaves. *)
Inductive wf : Z → Z → Node → Prop :=
| wf_leaf p h : aligned p h → wf p h (mkNode p (mask_of h) Leaf)
| wf_fork p h pz hz zero po ho one :
    aligned p h → 1 ≤ h →
    wf pz hz zero → wf po ho one →
    sub_block pz hz p (h - 1) → sub_block po ho (p + 2 ^ (h - 1)) (h - 1) →
    ¬ (is_leaf zero = true ∧ hz = h - 1 ∧ is_leaf one = true ∧ ho = h - 1) →
    wf p h (mkNode p (mask_of h) (Fork (Some zero) (Some one))).

Definition opt_wf (o : option Node) : Prop :=
  match o with Some n => ∃ p h, wf p h n | None => True end.

Definition trie_wf (t : Trie) : Prop := opt_wf (root t).

(** ** Blocks *)
Lemma valid_mask_of h : 0 ≤ h ≤ 64 → valid_mask (mask_of h) = true.
Proof.
  intros. unfold valid_mask, U64_BITS. rewrite leading_ones_mask, trailing_zeros_mask by done.
  apply Z.eqb_eq. lia.
Qed.

Lemma assert_valid_mask_of h : 0 ≤ h ≤ 64 → assert_valid_mask (mask_of h) = Ret tt.
Proof. intros. by apply assert_true, valid_mask_of. Qed.

Lemma aligned_land_not p h : aligned p h → (Z.land p (u64_not (mask_of h)) =? 0) = true.
Proof.
  intros (Hp & Hh & Hd). rewrite land_not_mask by done. apply Z.eqb_eq.
  apply Z.mod_divide; [pose proof (pow2_pos h); lia|done].
Qed.

Lemma aligned_land p h : aligned p h → Z.land p (mask_of h) = p.
Proof. intros (Hp & Hh & Hd). by apply land_mask_aligned. Qed.

Lemma aligned_fits p h : aligned p h → p + 2 ^ h ≤ 2 ^ 64.
Proof. intros (Hp & Hh & Hd). by apply block_fits. Qed.

Lemma aligned_le p h k : aligned p h → 0 ≤ k ≤ h → aligned p k.
Proof.
  intros (Hp & Hh & Hd) ?. split; [done|]. split; [lia|].
  etransitivity; [|exact Hd]. apply pow2_divide. lia.
Qed.

Lemma aligned_half p h : aligned p h → 1 ≤ h → aligned (p + 2 ^ (h - 1)) (h - 1).
Proof.
  intros Ha Hh. pose proof (aligned_fits p h Ha). pose proof (pow2_half h Hh).
  pose proof (pow2_pos (h - 1)). destruct Ha as (Hp & Hh' & Hd).
  split; [unfold u64_ok in *; lia|]. split; [lia|].
  apply Z.divide_add_r; [|apply Z.divide_refl].
  etransitivity; [|exact Hd]. apply pow2_divide. lia.
Qed.

(** Aligned blocks are nested or disjoint. *)
Lemma aligned_nested p h q k x : aligned p h → aligned q k → k ≤ h →
  in_block p h x → in_block q k x → sub_block q k p h.
Proof.
  intros (_ & Hh & Hp) (_ & Hk & Hq) Hle Hx Hy. unfold in_block, sub_block in *.
  assert (E1 : x / 2 ^ h = p / 2 ^ h) by (apply div_eq_iff; [lia|done|done]).
  assert (E2 : x / 2 ^ k = q / 2 ^ k) by (apply div_eq_iff; [lia|done|done]).
  apply (div_eq_mono x q k h) in E2; [|lia].
  assert (Hin : p ≤ q < p + 2 ^ h) by (apply div_eq_iff; [lia|done|congruence]).
  destruct Hp as [a ->], Hq as [b ->]. rewrite (pow2_split k h) in * by lia.
  pose proof (pow2_pos k). pose proof (pow2_pos (h - k)).
  split; [done|]. split; [lia|].
  assert (b < (a + 1) * 2 ^ (h - k)) by nia. nia.
Qed.

Lemma sub_block_refl p h : sub_block p h p h.
Proof. unfold sub_block. lia. Qed.

Lemma sub_block_trans p h q k r j : sub_block p h q k → sub_block q k r j → sub_block p h r j.
Proof. unfold sub_block. lia. Qed.

Lemma sub_block_in p h q k x : sub_block p h q k → in_block p h x → in_block q k x.
Proof. unfold sub_block, in_block. lia. Qed.

Lemma sub_block_lower p h : aligned p h → 1 ≤ h → sub_block p (h - 1) p h.
Proof. intros _ Hh. unfold sub_block. pose proof (pow2_half h Hh). pose proof (pow2_pos (h - 1)). lia. Qed.

Lemma sub_block_upper p h : aligned p h → 1 ≤ h → sub_block (p + 2 ^ (h - 1)) (h - 1) p h.
Proof. intros _ Hh. unfold sub_block. pose proof (pow2_half h Hh). pose proof (pow2_pos (h - 1)). lia. Qed.

(** An aligned block inside a bigger one lies in one of its halves. *)
Lemma sub_block_halves p h q k : aligned p h → aligned q k → k < h → sub_block q k p h →
  sub_block q k p (h - 1) ∨ sub_block q k (p + 2 ^ (h - 1)) (h - 1).
Proof.
  intros Hp Hq Hlt Hs. pose proof (pow2_half h ltac:(destruct Hq; lia)).
  pose proof (pow2_pos k ltac:(destruct Hq; lia)).
  pose proof Hq as (_ & Hk & _).
  assert (in_block q k q) by (unfold in_block; lia).
  destruct (Z.lt_ge_cases q (p + 2 ^ (h - 1))).
  - left. apply (aligned_nested p (h - 1) q k q); [|done|lia| |done].
    + apply (aligned_le p h); [done|lia].
    + unfold in_block, sub_block in *. lia.
  - right. apply (aligned_nested _ (h - 1) q k q); [|done|lia| |done].
    + apply aligned_half; [done|lia].
    + unfold in_block, sub_block in *. lia.
Qed.

(** The aligned block of size [2^h] around [a]. *)
Lemma aligned_round a h : u64_ok a → 0 ≤ h ≤ 64 → aligned (2 ^ h * (a / 2 ^ h)) h.
Proof.
  intros Ha Hh. pose proof (div_bounds a h). pose proof (pow2_pos h).
  split; [|split; [done|apply Z.divide_factor_l]].
  assert (0 ≤ a / 2 ^ h) by (apply Z.div_pos; unfold u64_ok in *; lia).
  unfold u64_ok in *. nia.
Qed.

Lemma in_block_round a h x : u64_ok a → 0 ≤ h ≤ 64 →
  in_block (2 ^ h * (a / 2 ^ h)) h x ↔ x / 2 ^ h = a / 2 ^ h.
Proof.
  intros Ha Hh. pose proof (pow2_pos h). unfold in_block.
  rewrite <- div_eq_iff by (lia || apply Z.divide_factor_l).
  rewrite (Z.mul_comm (2 ^ h)), Z.div_mul by lia. done.
Qed.

(** ** The common ancestor *)
Lemma common_ancestor_spec la hl ra hr : aligned la hl → aligned ra hr →
  ∃ hc, common_ancestor (la, mask_of hl) (ra, mask_of hr) =
          Ret (2 ^ hc * (la / 2 ^ hc), mask_of hc) ∧
        Z.max hl hr ≤ hc ≤ 64 ∧ la / 2 ^ hc = ra / 2 ^ hc ∧
        (Z.max hl hr < hc → la / 2 ^ (hc - 1) ≠ ra / 2 ^ (hc - 1)).
Proof.
  intros Hl Hr. unfold common_ancestor.
  pose proof Hl as (Hla & Hhl & _). pose proof Hr as (Hra & Hhr & _).
  rewrite !assert_valid_mask_of by done. rewrite !aligned_land_not by done.
  rewrite land_masks by done. set (hm := Z.max hl hr).
  assert (Hhm : 0 ≤ hm ≤ 64) by lia.
  set (x := Z.lxor (Z.land la (mask_of hm)) (Z.land ra (mask_of hm))).
  assert (Hx : u64_ok x) by (apply u64_lxor_ok; apply u64_land_ok; auto using mask_of_ok).
  assert (Hlz := leading_zeros_range x Hx).
  assert (Hxs : ∀ h, hm ≤ h ≤ 64 → 64 - leading_zeros x ≤ h ↔ la / 2 ^ h = ra / 2 ^ h).
  { intros h Hh. rewrite leading_zeros_spec by (done || lia). unfold x.
    rewrite !land_mask by done.
    assert (R : ∀ a, u64_ok a → (2 ^ hm * (a / 2 ^ hm)) / 2 ^ h = a / 2 ^ h).
    { intros a Ha. apply (div_eq_mono _ _ hm h); [lia|].
      rewrite Z.mul_comm. apply Z.div_mul. pose proof (pow2_pos hm); lia. }
    pose proof (pow2_pos hm ltac:(lia)).
    assert (∀ a, u64_ok a → 0 ≤ 2 ^ hm * (a / 2 ^ hm)) as Hnn.
    { intros a [??]. apply Z.mul_nonneg_nonneg; [lia|]. apply Z.div_pos; lia. }
    rewrite lxor_lt_pow2 by (auto || lia). by rewrite !R. }
  set (hc := Z.max (64 - leading_zeros x) hm).
  assert (Hcm : Z.land (if leading_zeros x =? 0 then 0
            else u64_shl u64_max (U64_BITS - leading_zeros x)) (mask_of hm) = mask_of hc).
  { unfold U64_BITS. case_Zb.
    - rewrite Z.land_0_l. replace hc with 64 by lia. reflexivity.
    - rewrite mask_of_shl, land_masks by lia. done. }
  assert (Hhc : hm ≤ hc ≤ 64) by lia.
  assert (Heq : la / 2 ^ hc = ra / 2 ^ hc) by (apply Hxs; lia).
  exists hc. cbv zeta. rewrite Hcm. rewrite !(land_mask _ hc) by (done || lia).
  rewrite Heq, Z.eqb_refl. rewrite assert_valid_mask_of by lia.
  rewrite aligned_land_not by (apply aligned_round; done || lia).
  split; [done|]. split; [done|]. split; [done|].
  intros Hlt E. apply Hxs in E; lia.
Qed.

(** ** Basic facts on well-formed nodes *)
Lemma wf_aligned p h n : wf p h n → aligned p h.
Proof. by destruct 1. Qed.

Lemma wf_seg_mask p h n : wf p h n → seg_mask n = mask_of h.
Proof. by destruct 1. Qed.

Lemma wf_mem_in_block p h n x : wf p h n → node_mem n x → in_block p h x.
Proof.
  intros H. revert x. induction H as [p h Ha|p h pz hz zero po ho one Ha Hh _ IHz _ IHo Sz So _]; intros x Hx.
  - simpl in Hx. rewrite trailing_zeros_mask in Hx by (destruct Ha; lia). done.
  - destruct Hx as [Hx|Hx].
    + eapply sub_block_in; [|by apply IHz]. eapply sub_block_trans; [exact Sz|by apply sub_block_lower].
    + eapply sub_block_in; [|by apply IHo]. eapply sub_block_trans; [exact So|by apply sub_block_upper].
Qed.

Lemma wf_leaf_mem p h n x : wf p h n → is_leaf n = true → node_mem n x ↔ in_block p h x.
Proof.
  destruct 1 as [p h Ha|]; [|done]. intros _. simpl.
  by rewrite trailing_zeros_mask by (destruct Ha; lia).
Qed.

Lemma wf_nonempty p h n : wf p h n → ∃ x, node_mem n x.
Proof.
  induction 1 as [p h Ha|p h pz hz zero po ho one Ha Hh _ [x Hx] _ _ _ _ _].
  - exists p. simpl. rewrite trailing_zeros_mask by (destruct Ha; lia).
    pose proof (pow2_pos h). destruct Ha. lia.
  - exists x. by left.
Qed.

(** A sub-trie that covers a whole half of its fork is a leaf of that size. *)
Lemma sub_full p h q k : sub_block q k p h → 0 ≤ k → (∀ x, in_block p h x → in_block q k x) →
  q = p ∧ k = h.
Proof.
  unfold sub_block, in_block. intros (Hk & Hq & He) Hk0 H.
  pose proof (pow2_pos h ltac:(lia)). pose proof (H p ltac:(lia)).
  pose proof (H (p + 2 ^ h - 1) ltac:(lia)). split; [lia|].
  apply Z.le_antisymm; [done|]. apply pow2_le_inv; lia.
Qed.

(** Canonicity: a well-formed node that covers its whole block is a leaf. *)
Lemma wf_full_leaf p h n : wf p h n → (∀ x, in_block p h x → node_mem n x) → is_leaf n = true.
Proof.
  induction 1 as [|p h pz hz zero po ho one Ha Hh Hz IHz Ho IHo Sz So Hnc]; [done|].
  intros Hfull. exfalso. apply Hnc.
  pose proof (pow2_half h Hh). pose proof (pow2_pos (h - 1) ltac:(lia)).
  assert (Fz : ∀ x, in_block p (h - 1) x → node_mem zero x).
  { intros x Hx. destruct (Hfull x) as [|Hm]; [eapply sub_block_in; [by apply sub_block_lower|done]|done|].
    eapply wf_mem_in_block in Hm; [|done]. apply (sub_block_in _ _ _ _ _ So) in Hm.
    unfold in_block in *. lia. }
  assert (Fo : ∀ x, in_block (p + 2 ^ (h - 1)) (h - 1) x → node_mem one x).
  { intros x Hx. destruct (Hfull x) as [Hm|]; [eapply sub_block_in; [by apply sub_block_upper|done]| |done].
    eapply wf_mem_in_block in Hm; [|done]. apply (sub_block_in _ _ _ _ _ Sz) in Hm.
    unfold in_block in *. lia. }
  destruct (sub_full _ _ _ _ Sz) as [-> ->]; [destruct (wf_aligned _ _ _ Hz); lia| |].
  { intros. eapply wf_mem_in_block; eauto. }
  destruct (sub_full _ _ _ _ So) as [-> ->]; [destruct (wf_aligned _ _ _ Ho); lia| |].
  { intros. eapply wf_mem_in_block; eauto. }
  auto.
Qed.

(** The debug-build checks accept every well-formed node. *)
Lemma wf_check p h n : wf p h n → node_check n = true.
Proof.
  induction 1 as [p h Ha|p h pz hz zero po ho one Ha Hh Hz IHz Ho IHo Sz So _]; cbn [node_check].
  - rewrite aligned_land by done. rewrite Z.eqb_refl, valid_mask_of by (destruct Ha; lia).
    by destruct (_ =? 0).
  - rewrite aligned_land, Z.eqb_refl, valid_mask_of, trailing_zeros_mask by (done || destruct Ha; lia).
    rewrite (wf_seg_mask _ _ _ Hz), (wf_seg_mask _ _ _ Ho), IHz, IHo.
    destruct (wf_aligned _ _ _ Hz) as (_ & ? & _), (wf_aligned _ _ _ Ho) as (_ & ? & _).
    rewrite !leading_ones_mask by done. unfold sub_block, U64_BITS in *.
    case_Zb; simpl; done || lia.
Qed.

Lemma leaf_Ret p h : aligned p h → leaf p (mask_of h) = Ret (mkNode p (mask_of h) Leaf).
Proof.
  intros Ha. unfold leaf. rewrite (wf_check p h); [done|]. by constructor.
Qed.

(** ** Bits and halves *)
Lemma shl_one i : 0 ≤ i < 64 → u64_shl 1 i = 2 ^ i.
Proof.
  intros. unfold u64_shl. rewrite Z.shiftl_mul_pow2, Z.mul_1_l by lia.
  apply Z.mod_small. pose proof (pow2_lt i 64). pose proof (pow2_pos i). lia.
Qed.

Lemma land_pow2_eqb a i : 0 ≤ a → 0 ≤ i → (Z.land a (2 ^ i) =? 0) = negb (Z.testbit a i).
Proof.
  intros Ha Hi. destruct (Z.testbit a i) eqn:E; simpl.
  - apply Z.eqb_neq. intros H. apply (f_equal (λ z, Z.testbit z i)) in H.
    rewrite Z.land_spec, E, Z.pow2_bits_true, Z.testbit_0_l in H by done. done.
  - apply Z.eqb_eq, Z.bits_inj'. intros j Hj. rewrite Z.land_spec, Z.pow2_bits_eqb, Z.testbit_0_l by done.
    destruct (Z.eqb_spec i j) as [->|]; [by rewrite E|apply andb_false_r].
Qed.

(** The split bit says which half of its enclosing block an address is in. *)
Lemma split_bit_lower a h : u64_ok a → 1 ≤ h ≤ 64 →
  (Z.land a (u64_shl 1 (h - 1)) =? 0) = true ↔ in_block (2 ^ h * (a / 2 ^ h)) (h - 1) a.
Proof.
  intros Ha Hh. rewrite shl_one, land_pow2_eqb, negb_true_iff by (unfold u64_ok in *; lia).
  rewrite Z.testbit_false by lia. unfold in_block.
  pose proof (pow2_pos (h - 1) ltac:(lia)) as Hp. pose proof (pow2_half h ltac:(lia)) as E.
  pose proof (div_bounds a h ltac:(lia)) as B.
  replace (a / 2 ^ h) with (a / 2 ^ (h - 1) / 2) in * by (rewrite Z.div_div, E by lia; f_equal; lia).
  pose proof (div_bounds a (h - 1) ltac:(lia)) as B'.
  pose proof (Z.div_mod (a / 2 ^ (h - 1)) 2 ltac:(lia)).
  pose proof (Z.mod_pos_bound (a / 2 ^ (h - 1)) 2 ltac:(lia)).
  rewrite E in *. split; intros; nia.
Qed.

Lemma split_bit_upper a h : u64_ok a → 1 ≤ h ≤ 64 →
  (Z.land a (u64_shl 1 (h - 1)) =? 0) = false ↔
  in_block (2 ^ h * (a / 2 ^ h) + 2 ^ (h - 1)) (h - 1) a.
Proof.
  intros Ha Hh. rewrite <- not_true_iff_false, split_bit_lower by done.
  pose proof (div_bounds a h ltac:(lia)) as B. pose proof (pow2_half h ltac:(lia)) as E.
  unfold in_block. lia.
Qed.

(** ** Merging *)
Lemma maybe_compact_spec p h pz hz zero po ho one :
  aligned p h → 1 ≤ h → wf pz hz zero → wf po ho one →
  sub_block pz hz p (h - 1) → sub_block po ho (p + 2 ^ (h - 1)) (h - 1) →
  ∃ n, maybe_compact (mkNode p (mask_of h) (Fork (Some zero) (Some one))) = Ret n ∧
       wf p h n ∧ ∀ x, node_mem n x ↔ node_mem zero x ∨ node_mem one x.
Proof.
  intros Ha Hh Hz Ho Sz So. unfold maybe_compact. simpl expect. rewrite !bind_Ret.
  rewrite (wf_seg_mask _ _ _ Hz), (wf_seg_mask _ _ _ Ho).
  pose proof (wf_aligned _ _ _ Hz) as (_ & Hhz & _). pose proof (wf_aligned _ _ _ Ho) as (_ & Hho & _).
  pose proof Ha as (_ & Hhh & _). assert (hz ≤ h - 1) by apply Sz. assert (ho ≤ h - 1) by apply So.
  rewrite !mask_of_shl1, !mask_of_eqb by lia.
  destruct ((Z.min 64 (hz + 1) =? h) && (Z.min 64 (ho + 1) =? h) && is_leaf zero && is_leaf one) eqn:E.
  - rewrite !andb_true_iff, !Z.eqb_eq in E. destruct E as [[[E1 E2] Lz] Lo].
    assert (hz = h - 1) as -> by lia. assert (ho = h - 1) as -> by lia.
    assert (pz = p) as -> by (unfold sub_block in Sz; lia).
    assert (po = p + 2 ^ (h - 1)) as -> by (unfold sub_block in So; lia).
    eexists. split; [done|]. split; [by constructor|]. intros x.
    rewrite (wf_leaf_mem _ _ _ x Hz Lz), (wf_leaf_mem _ _ _ x Ho Lo).
    cbn [node_mem]. rewrite trailing_zeros_mask by done.
    pose proof (pow2_half h Hh). unfold in_block. lia.
  - eexists. split; [done|]. split; [|done].
    econstructor; eauto. intros (L1 & -> & L2 & ->). rewrite L1, L2 in E.
    rewrite !andb_true_r in E. replace (h - 1 + 1) with h in E by lia.
    rewrite Z.min_r, Z.eqb_refl in E by lia. done.
Qed.

(** ** Releasing a block that is not free *)
Definition block_fresh (P : Z → Prop) (a k : Z) : Prop := ∀ x, in_block a k x → ¬ P x.

(** What [release] must produce for the node [n] and the new block. *)
Definition released (n n' : Node) (p h a k : Z) : Prop :=
  ∃ p' h', wf p' h' n' ∧
    (∀ x, node_mem n' x ↔ node_mem n x ∨ in_block a k x) ∧
    (∀ q j, aligned q j → sub_block p h q j → sub_block a k q j → sub_block p' h' q j).

Lemma aligned_self_in p h : aligned p h → in_block p h p.
Proof. intros (_ & Hh & _). unfold in_block. pose proof (pow2_pos h). lia. Qed.

Lemma round_aligned p h : aligned p h → 2 ^ h * (p / 2 ^ h) = p.
Proof.
  intros (Hp & Hh & Hd). rewrite <- land_mask by done. by apply land_mask_aligned.
Qed.

Lemma sub_block_self q j p h : sub_block q j p h → aligned q j → in_block p h q.
Proof. intros. eapply sub_block_in; [done|by apply aligned_self_in]. Qed.

Lemma block_div p h x : aligned p h → in_block p h x → x / 2 ^ h = p / 2 ^ h.
Proof. intros (_ & Hh & Hd) Hx. by apply div_eq_iff; [lia|..]. Qed.

(** The block of the common ancestor holds both, one in each half, when it is
    larger than both. *)
Lemma ancestor_split p h a k hc : aligned p h → aligned a k →
  Z.max h k < hc ≤ 64 → p / 2 ^ hc = a / 2 ^ hc → p / 2 ^ (hc - 1) ≠ a / 2 ^ (hc - 1) →
  let c := 2 ^ hc * (p / 2 ^ hc) in
  (sub_block a k c (hc - 1) ∧ sub_block p h (c + 2 ^ (hc - 1)) (hc - 1)) ∨
  (sub_block p h c (hc - 1) ∧ sub_block a k (c + 2 ^ (hc - 1)) (hc - 1)).
Proof.
  intros Hp Ha Hc E Hne c. pose proof Hp as (Hpo & Hh & _). pose proof Ha as (Hao & Hk & _).
  assert (Hca : aligned c hc) by (apply aligned_round; done || lia).
  assert (Hin : ∀ q j, aligned q j → j ≤ hc → q / 2 ^ hc = p / 2 ^ hc → sub_block q j c hc).
  { intros q j Hq Hj Eq. apply (aligned_nested c hc q j q); try done; [|by apply aligned_self_in].
    apply in_block_round; done || lia. }
  assert (Sp := Hin p h Hp ltac:(lia) eq_refl). assert (Sa := Hin a k Ha ltac:(lia) (eq_sym E)).
  destruct (sub_block_halves _ _ _ _ Hca Hp ltac:(lia) Sp) as [Tp|Tp],
    (sub_block_halves _ _ _ _ Hca Ha ltac:(lia) Sa) as [Ta|Ta]; auto; exfalso; apply Hne.
  - pose proof (aligned_le c hc (hc - 1) Hca ltac:(lia)) as D.
    rewrite (block_div c (hc - 1) p D), (block_div c (hc - 1) a D); eauto using sub_block_self.
  - pose proof (aligned_half c hc Hca ltac:(lia)) as D.
    rewrite (block_div _ (hc - 1) p D), (block_div _ (hc - 1) a D); eauto using sub_block_self.
Qed.

Lemma ancestor_least p h a k hc q j : aligned p h → aligned a k → aligned q j →
  Z.max h k < hc ≤ 64 → p / 2 ^ (hc - 1) ≠ a / 2 ^ (hc - 1) →
  sub_block p h q j → sub_block a k q j → sub_block (2 ^ hc * (p / 2 ^ hc)) hc q j.
Proof.
  intros Hp Ha Hq Hc Hne Sp Sa. pose proof Hp as (Hpo & Hh & _). pose proof Hq as (_ & Hj & D).
  assert (hc ≤ j).
  { destruct (Z.le_gt_cases hc j); [done|]. exfalso. apply Hne.
    apply (div_eq_mono p a j (hc - 1)); [lia|].
    rewrite (block_div q j p Hq), (block_div q j a Hq); eauto using sub_block_self. }
  apply (aligned_nested q j _ hc p); try done.
  - apply aligned_round; done || lia.
  - solve [eauto using sub_block_self].
  - apply in_block_round; done || lia.
Qed.

(** Where a fresh block lies relative to a node: strictly inside its block, or
    apart from it under a larger common ancestor. *)
Lemma ancestor_cases p h n a k : wf p h n → aligned a k → block_fresh (node_mem n) a k →
  ∃ hc, common_ancestor (p, mask_of h) (a, mask_of k) = Ret (2 ^ hc * (p / 2 ^ hc), mask_of hc) ∧
    Z.max h k ≤ hc ≤ 64 ∧ k < hc ∧ p / 2 ^ hc = a / 2 ^ hc ∧
    ((hc = h ∧ sub_block a k p h) ∨
     (Z.max h k < hc ∧ p / 2 ^ (hc - 1) ≠ a / 2 ^ (hc - 1))).
Proof.
  intros Hn Ha Hf. pose proof (wf_aligned _ _ _ Hn) as Hp.
  destruct (common_ancestor_spec p h a k Hp Ha) as (hc & Hca & Hhc & E & Hne).
  pose proof Hp as (Hpo & Hh & Dp). pose proof Ha as (Hao & Hk & Da).
  assert (Hlt : k < hc).
  { destruct (Z.eq_dec hc k) as [->|]; [exfalso|lia].
    destruct (wf_nonempty _ _ _ Hn) as [x Hx]. apply (Hf x); [|done].
    eapply (sub_block_in p h a k); [|by eapply wf_mem_in_block].
    apply (aligned_nested a k p h p); try done; [lia| |by apply aligned_self_in].
    apply div_eq_iff; [lia|done|done]. }
  exists hc. split; [done|]. split; [done|]. split; [done|]. split; [done|].
  destruct (Z.eq_dec hc h) as [->|]; [left|right; split; [lia|apply Hne; lia]].
  split; [done|]. apply (aligned_nested p h a k a); try done; [lia| |by apply aligned_self_in].
  apply div_eq_iff; done || lia.
Qed.

Lemma release_node_eq p m nx addr msk : release_node (mkNode p m nx) addr msk =
  ('(ca_addr, ca_mask) ← common_ancestor (p, m) (addr, msk);
   assert_ (negb (trailing_zeros ca_mask =? 0));;
   let split_bit := Z.land addr (u64_shl 1 (trailing_zeros ca_mask - 1)) in
   if ca_mask =? msk then Ret (mkNode p m nx, false)
   else if ca_mask =? m then
     match nx with
     | Leaf => Ret (mkNode p m nx, false)
     | Fork zero one =>
         if split_bit =? 0 then
           '(zero, inserted) ← release_dfs zero addr msk;
           n ← maybe_compact (mkNode p m (Fork zero one)); Ret (n, inserted)
         else
           '(one, inserted) ← release_dfs one addr msk;
           n ← maybe_compact (mkNode p m (Fork zero one)); Ret (n, inserted)
     end
   else
     parent ← leaf ca_addr ca_mask;
     this ← leaf addr msk;
     let '(zero, one) :=
       if split_bit =? 0 then (Some this, Some (mkNode p m nx)) else (Some (mkNode p m nx), Some this) in
     n ← maybe_compact (mkNode ca_addr (seg_mask parent) (Fork zero one));
     Ret (n, true)).
Proof. reflexivity. Qed.

Lemma wf_inv p h n : wf p h n → ∃ nx, n = mkNode p (mask_of h) nx.
Proof. destruct 1; eauto. Qed.

(** The new block and the node become the two halves of their ancestor. *)
Lemma release_split p h n a k hc : wf p h n → aligned a k →
  common_ancestor (p, mask_of h) (a, mask_of k) = Ret (2 ^ hc * (p / 2 ^ hc), mask_of hc) →
  Z.max h k < hc ≤ 64 → p / 2 ^ hc = a / 2 ^ hc → p / 2 ^ (hc - 1) ≠ a / 2 ^ (hc - 1) →
  ∃ n', release_node n a (mask_of k) = Ret (n', true) ∧ released n n' p h a k.
Proof.
  intros Hn Ha Hca Hhc E Hne. pose proof (wf_aligned _ _ _ Hn) as Hp.
  destruct (wf_inv _ _ _ Hn) as [nx ->]. rewrite release_node_eq, Hca, bind_Ret.
  pose proof Hp as (Hpo & Hh & _). pose proof Ha as (Hao & Hk & _).
  rewrite trailing_zeros_mask, !mask_of_eqb by lia.
  rewrite (proj2 (Z.eqb_neq hc 0)), (proj2 (Z.eqb_neq hc k)), (proj2 (Z.eqb_neq hc h)) by lia.
  cbv zeta. simpl negb. rewrite assert_true, bind_Ret by done.
  set (c := 2 ^ hc * (p / 2 ^ hc)) in *.
  assert (Hc : aligned c hc) by (apply aligned_round; done || lia).
  rewrite !leaf_Ret, !bind_Ret by done. cbn [seg_mask].
  assert (Hl : wf a k (mkNode a (mask_of k) Leaf)) by (by constructor).
  assert (Hmem : ∀ x, node_mem (mkNode a (mask_of k) Leaf) x ↔ in_block a k x)
    by (intros; by apply wf_leaf_mem).
  destruct (ancestor_split p h a k hc Hp Ha Hhc E Hne) as [[S1 S2]|[S1 S2]].
  - rewrite (proj2 (split_bit_lower a hc Hao ltac:(lia)))
      by (rewrite <- E; solve [eauto using sub_block_self]).
    destruct (maybe_compact_spec c hc _ _ _ _ _ _ Hc ltac:(lia) Hl Hn S1 S2) as (n' & -> & Hw & Hm).
    eexists. split; [done|]. exists c, hc. split; [done|]. split.
    + intros x. rewrite Hm, Hmem. tauto.
    + intros q j Hq T1 T2. by apply (ancestor_least p h a k).
  - rewrite (proj2 (split_bit_upper a hc Hao ltac:(lia)))
      by (rewrite <- E; solve [eauto using sub_block_self]).
    destruct (maybe_compact_spec c hc _ _ _ _ _ _ Hc ltac:(lia) Hn Hl S1 S2) as (n' & -> & Hw & Hm).
    eexists. split; [done|]. exists c, hc. split; [done|]. split.
    + intros x. rewrite Hm, Hmem. tauto.
    + intros q j Hq T1 T2. by apply (ancestor_least p h a k).
Qed.

Lemma release_node_spec p h n : wf p h n → ∀ a k, aligned a k → block_fresh (node_mem n) a k →
  ∃ n', release_node n a (mask_of k) = Ret (n', true) ∧ released n n' p h a k.
Proof.
  induction 1 as [p h Hp|p h pz hz zero po ho one Hp Hh Hz IHz Ho IHo Sz So Hnc];
    intros a k Ha Hf.
  - assert (Hn : wf p h (mkNode p (mask_of h) Leaf)) by (by constructor).
    destruct (ancestor_cases _ _ _ _ _ Hn Ha Hf) as (hc & Hca & Hhc & Hlt & E & [[-> Hs]|[? ?]]).
    + exfalso. apply (Hf a); [by apply aligned_self_in|].
      apply (wf_leaf_mem p h); [done..|]. solve [eauto using sub_block_self].
    + eapply release_split; eauto. lia.
  - assert (Hn : wf p h (mkNode p (mask_of h) (Fork (Some zero) (Some one)))) by (by econstructor).
    destruct (ancestor_cases _ _ _ _ _ Hn Ha Hf) as (hc & Hca & Hhc & Hlt & E & [[-> Hs]|[? ?]]);
      [|eapply release_split; eauto; lia].
    pose proof Hp as (Hpo & Hhh & _). pose proof Ha as (Hao & Hk & _).
    assert (Er : 2 ^ h * (a / 2 ^ h) = p) by (rewrite <- E; by apply round_aligned).
    rewrite release_node_eq, Hca, bind_Ret.
    rewrite trailing_zeros_mask, !mask_of_eqb, Z.eqb_refl by lia.
    rewrite (proj2 (Z.eqb_neq h 0)), (proj2 (Z.eqb_neq h k)) by lia. cbv zeta.
    simpl negb. rewrite assert_true, bind_Ret by done.
    assert (Hrel : ∀ n', wf p h n' → (∀ x, node_mem n' x ↔
        (node_mem zero x ∨ node_mem one x) ∨ in_block a k x) →
      released (mkNode p (mask_of h) (Fork (Some zero) (Some one))) n' p h a k).
    { intros n' Hw Hm. exists p, h. split; [done|]. split; [exact Hm|]. auto. }
    destruct (sub_block_halves _ _ _ _ Hp Ha Hlt Hs) as [T|T].
    + rewrite (proj2 (split_bit_lower a h Hao ltac:(lia)))
        by (rewrite Er; solve [eauto using sub_block_self]).
      destruct (IHz a k Ha) as (z' & Hz' & pz' & hz' & Wz & Mz & Nz).
      { intros x Hx Hm. apply (Hf x Hx). by left. }
      simpl release_dfs. rewrite Hz', !bind_Ret.
      destruct (maybe_compact_spec p h _ _ _ _ _ _ Hp Hh Wz Ho
        (Nz _ _ (aligned_le p h (h - 1) Hp ltac:(lia)) Sz T) So) as (n' & -> & Hw & Hm).
      eexists. split; [done|]. apply Hrel; [done|]. intros x. rewrite Hm, Mz. tauto.
    + rewrite (proj2 (split_bit_upper a h Hao ltac:(lia)))
        by (rewrite Er; solve [eauto using sub_block_self]).
      destruct (IHo a k Ha) as (o' & Ho' & po' & ho' & Wo & Mo & No).
      { intros x Hx Hm. apply (Hf x Hx). by right. }
      simpl release_dfs. rewrite Ho', !bind_Ret.
      destruct (maybe_compact_spec p h _ _ _ _ _ _ Hp Hh Hz Wo Sz
        (No _ _ (aligned_half _ _ Hp Hh) So T)) as (n' & -> & Hw & Hm).
      eexists. split; [done|]. apply Hrel; [done|]. intros x. rewrite Hm, Mo. tauto.
Qed.

Lemma trie_check_wf t : trie_wf t → assert_ (trie_check t) = Ret tt.
Proof.
  intros H. apply assert_true. unfold trie_check. destruct t as [[n|]]; [|done].
  destruct H as (p & h & H). by eapply wf_check.
Qed.

Lemma release_spec t a k : trie_wf t → aligned a k → block_fresh (mem t) a k →
  ∃ t', release t a (mask_of k) = Ret (t', true) ∧ trie_wf t' ∧
        ∀ x, mem t' x ↔ mem t x ∨ in_block a k x.
Proof.
  intros Ht Ha Hf. unfold release. pose proof Ha as (_ & Hk & _).
  rewrite assert_valid_mask_of, aligned_land_not by done. simpl assert_. rewrite !bind_Ret.
  destruct t as [[n|]]; simpl release_dfs.
  - destruct Ht as (p & h & Hn). destruct (release_node_spec _ _ _ Hn a k Ha Hf)
      as (n' & -> & p' & h' & Hw & Hm & _). rewrite !bind_Ret.
    exists (mkTrie (Some n')). rewrite trie_check_wf by (by exists p', h').
    split; [done|]. split; [by exists p', h'|]. exact Hm.
  - rewrite leaf_Ret, !bind_Ret by done. exists (mkTrie (Some (mkNode a (mask_of k) Leaf))).
    assert (Hw : wf a k (mkNode a (mask_of k) Leaf)) by (by constructor).
    rewrite trie_check_wf by (by exists a, k).
    split; [done|]. split; [by exists a, k|]. intros x. unfold mem. cbn [root opt_mem].
    rewrite (wf_leaf_mem _ _ _ x Hw eq_refl). tauto.
Qed.

(** ** Acquiring a block *)
Lemma lor_pow2 p i : aligned p (i + 1) → 0 ≤ i → Z.lor p (2 ^ i) = p + 2 ^ i.
Proof.
  intros (Hp & Hi & [q Hq]) Hi0.
  assert (Z.land p (2 ^ i) = 0) as E.
  { apply Z.eqb_eq. rewrite land_pow2_eqb by (unfold u64_ok in *; lia).
    apply negb_true_iff, Z.testbit_false; [done|]. rewrite Hq.
    rewrite (pow2_half (i + 1)) by lia. replace (i + 1 - 1) with i by lia.
    replace (q * (2 * 2 ^ i)) with (q * 2 * 2 ^ i) by lia.
    rewrite Z.div_mul by (pose proof (pow2_pos i); lia). apply Z.mod_mul. lia. }
  rewrite <- Z.lxor_lor by done. symmetry. by apply Z.add_nocarry_lxor.
Qed.

Lemma left_over_loop_spec p h k n : aligned p h → 0 ≤ k → ∀ i lo pl hl,
  k < i → i + Z.of_nat n = h → wf pl hl lo → sub_block pl hl p i →
  (∀ x, node_mem lo x ↔ p + 2 ^ k ≤ x < p + 2 ^ i) →
  ∃ n', left_over_loop p n i lo = Ret n' ∧ ∃ p' h', wf p' h' n' ∧ sub_block p' h' p h ∧
    ∀ x, node_mem n' x ↔ p + 2 ^ k ≤ x < p + 2 ^ h.
Proof.
  intros Hp Hk. induction n as [|n IH]; intros i lo pl hl Hi Hn Hlo Hs Hm; cbn [left_over_loop].
  - assert (i = h) as -> by lia. exists lo. split; [done|]. by exists pl, hl.
  - pose proof Hp as (Hpo & Hh & _). assert (Hpi : aligned p (i + 1)) by (apply (aligned_le p h); [done|lia]).
    cbv zeta. rewrite shl_one, mask_of_shl, mask_of_shl1, Z.min_r by lia.
    rewrite lor_pow2 by (done || lia).
    pose proof (aligned_half p (i + 1) Hpi ltac:(lia)) as Ho. replace (i + 1 - 1) with i in Ho by lia.
    rewrite !leaf_Ret, !bind_Ret by done. cbn [seg_mask].
    pose proof (pow2_pos k Hk). pose proof (pow2_half (i + 1) ltac:(lia)) as E2.
    replace (i + 1 - 1) with i in E2 by lia. pose proof (pow2_lt k i ltac:(lia)).
    assert (Hwo : wf (p + 2 ^ i) i (mkNode (p + 2 ^ i) (mask_of i) Leaf)) by (by constructor).
    eapply (IH (i + 1) _ p (i + 1)); [lia|lia| |apply sub_block_refl|].
    + assert (E1 : i + 1 - 1 = i) by lia.
      apply (wf_fork p (i + 1) pl hl lo (p + 2 ^ i) i _ Hpi ltac:(lia) Hlo Hwo);
        rewrite E1; [done|apply sub_block_refl|]. intros (Hl & -> & _). assert (pl = p) as -> by (unfold sub_block in Hs; lia).
      assert (node_mem lo p) as Hmp by (apply (wf_leaf_mem p i); [done|done|apply aligned_self_in, (wf_aligned _ _ _ Hlo)]).
      apply Hm in Hmp. lia.
    + intros x. cbn [node_mem]. rewrite Hm, trailing_zeros_mask by lia. lia.
Qed.

(** What [acquire] does to a node: it takes a free aligned block of the sought
    size, or there is no such block and nothing changes. *)
Definition acquired (n : Node) (p h k : Z) (r : option Z * option Node) : Prop :=
  match r with
  | (None, o) => o = Some n ∧ ∀ a, aligned a k → ¬ ∀ x, in_block a k x → node_mem n x
  | (Some a, o) =>
      aligned a k ∧ (∀ x, in_block a k x → node_mem n x) ∧
      (∀ x, opt_mem o x ↔ node_mem n x ∧ ¬ in_block a k x) ∧
      (∀ n', o = Some n' → ∃ p' h', wf p' h' n' ∧ sub_block p' h' p h)
  end.

Lemma acquire_node_eq p m nx sought : acquire_node (mkNode p m nx) sought =
  let dfs o := match o with None => Ret (None, None) | Some n => acquire_node n sought end in
  match leading_ones m ?= leading_ones sought, nx with
  | Gt, _ => Ret (None, Some (mkNode p m nx))
  | Eq, Fork _ _ => Ret (None, Some (mkNode p m nx))
  | Lt, Fork zero one =>
      '(out1, zero) ← dfs zero;
      '(out, one) ← match out1 with Some _ => Ret (out1, one) | None => dfs one end;
      match zero, one with
      | Some _, Some _ => Ret (out, Some (mkNode p m (Fork zero one)))
      | Some _, None => Ret (out, zero)
      | None, Some _ => Ret (out, one)
      | None, None => Panic
      end
  | Eq, Leaf => Ret (Some p, None)
  | Lt, Leaf =>
      first ← leaf (Z.lor p (u64_shl 1 (trailing_zeros sought))) sought;
      left_over ← left_over_loop p (Z.to_nat (trailing_zeros m - (trailing_zeros sought + 1)))
        (trailing_zeros sought + 1) first;
      Ret (Some p, Some left_over)
  end.
Proof. reflexivity. Qed.

(** A block that fits in a node's block is not larger than it. *)
Lemma full_block_sub p h n a k : wf p h n → aligned a k →
  (∀ x, in_block a k x → node_mem n x) → k ≤ h ∧ sub_block a k p h.
Proof.
  intros Hn Ha Hf. pose proof (wf_aligned _ _ _ Hn) as Hp.
  assert (Hin : ∀ x, in_block a k x → in_block p h x) by (intros; eapply wf_mem_in_block; eauto).
  pose proof Ha as (_ & Hk & _). pose proof Hp as (_ & Hh & _). pose proof (pow2_pos k ltac:(lia)).
  pose proof (Hin a (aligned_self_in _ _ Ha)) as B1.
  assert (B2 : in_block p h (a + 2 ^ k - 1)) by (apply Hin; unfold in_block; lia).
  unfold in_block, sub_block in *. assert (k ≤ h) by (apply pow2_le_inv; lia). lia.
Qed.

Lemma acquire_leaf p h k : aligned p h → 0 ≤ k < h →
  ∃ o, acquire_node (mkNode p (mask_of h) Leaf) (mask_of k) = Ret (Some p, o) ∧
       acquired (mkNode p (mask_of h) Leaf) p h k (Some p, o).
Proof.
  intros Hp Hk. pose proof Hp as (_ & Hh & _).
  assert (Hpk : aligned p k) by (apply (aligned_le p h); [done|lia]).
  assert (Hpk1 : aligned p (k + 1)) by (apply (aligned_le p h); [done|lia]).
  assert (Hpo := aligned_half p (k + 1) Hpk1 ltac:(lia)). replace (k + 1 - 1) with k in Hpo by lia.
  rewrite acquire_node_eq, !leading_ones_mask, !trailing_zeros_mask by lia. cbv zeta.
  rewrite (proj2 (Z.compare_lt_iff (64 - h) (64 - k))) by lia.
  rewrite shl_one, lor_pow2, leaf_Ret, bind_Ret by (done || lia).
  pose proof (pow2_pos k ltac:(lia)). pose proof (pow2_lt k h ltac:(lia)).
  pose proof (pow2_half (k + 1) ltac:(lia)) as E2. replace (k + 1 - 1) with k in E2 by lia.
  destruct (left_over_loop_spec p h k (Z.to_nat (h - (k + 1))) Hp ltac:(lia) (k + 1)
    (mkNode (p + 2 ^ k) (mask_of k) Leaf) (p + 2 ^ k) k) as (n' & -> & p' & h' & Hw & Hs & Hm);
    [lia|lia|by constructor|unfold sub_block; lia| |].
  { intros x. cbn [node_mem]. rewrite trailing_zeros_mask by lia. lia. }
  rewrite bind_Ret. eexists. split; [done|]. split; [done|].
  assert (Hmn : ∀ x, node_mem (mkNode p (mask_of h) Leaf) x ↔ in_block p h x)
    by (intros; apply wf_leaf_mem; [by constructor|done]).
  split; [|split].
  - intros x. rewrite Hmn. unfold in_block. lia.
  - intros x. cbn [opt_mem]. rewrite Hm, Hmn. unfold in_block. lia.
  - intros n'' [= <-]. by exists p', h'.
Qed.

(** Replacing a half of a fork by what [acquire] left of it keeps the fork
    well-formed: a half that lost addresses is not a full leaf. *)
Lemma not_full_leaf p h n q k : wf q k n → sub_block q k p h →
  (∃ x, in_block p h x ∧ ¬ node_mem n x) → ¬ (is_leaf n = true ∧ k = h).
Proof.
  intros Hn Hs (x & Hx & Hno) [Hl ->]. apply Hno, (wf_leaf_mem q h); [done|done|].
  assert (q = p) as -> by (unfold sub_block in Hs; lia). done.
Qed.

Lemma half_out p h n pz hz x : wf pz hz n → sub_block pz hz (p + 2 ^ (h - 1)) (h - 1) →
  in_block p (h - 1) x → ¬ node_mem n x.
Proof.
  intros Hn Hs Hx Hm. eapply wf_mem_in_block in Hm; [|done].
  apply (sub_block_in _ _ _ _ _ Hs) in Hm. unfold in_block in *. lia.
Qed.

Lemma half_out' p h n pz hz x : wf pz hz n → sub_block pz hz p (h - 1) →
  in_block (p + 2 ^ (h - 1)) (h - 1) x → ¬ node_mem n x.
Proof.
  intros Hn Hs Hx Hm. eapply wf_mem_in_block in Hm; [|done].
  apply (sub_block_in _ _ _ _ _ Hs) in Hm. unfold in_block in *. lia.
Qed.

Section AcquireFork.
Variables (p h pz hz po ho k : Z) (zero one : Node).
Hypothesis (Hp : aligned p h) (Hh : 1 ≤ h).
Hypothesis (Hz : wf pz hz zero) (Ho : wf po ho one).
Hypothesis (Sz : sub_block pz hz p (h - 1)) (So : sub_block po ho (p + 2 ^ (h - 1)) (h - 1)).
Let n := mkNode p (mask_of h) (Fork (Some zero) (Some one)).

(** The block came from the lower half. *)
Lemma acquired_zero a oz : acquired zero pz hz k (Some a, oz) →
  acquired n p h k (Some a, match oz with
    | Some z => Some (mkNode p (mask_of h) (Fork (Some z) (Some one)))
    | None => Some one end).
Proof.
  intros (Ha & Hin & Hm & Hw).
  assert (Hlow : ∀ x, in_block a k x → in_block p (h - 1) x).
  { intros x Hx. eapply sub_block_in; [exact Sz|]. eapply wf_mem_in_block; eauto. }
  assert (Hno : ∀ x, in_block a k x → ¬ node_mem one x).
  { intros x Hx. eapply half_out; eauto. }
  split; [done|]. split; [intros x Hx; left; by apply Hin|]. destruct oz as [z|].
  - destruct (Hw z eq_refl) as (pz' & hz' & Wz & Sz'). split.
    + intros x. specialize (Hm x). specialize (Hno x). unfold n. cbn [opt_mem node_mem] in *. tauto.
    + intros n' [= <-]. exists p, h. split; [|apply sub_block_refl].
      eapply (wf_fork p h pz' hz' z po ho); eauto using sub_block_trans.
      intros (L & E & _). eapply (not_full_leaf p (h - 1) z pz' hz'); eauto using sub_block_trans.
      exists a. split; [apply Hlow, aligned_self_in, Ha|]. intros Hma. apply (Hm a) in Hma.
      by apply Hma, aligned_self_in.
  - split.
    + intros x. specialize (Hm x). specialize (Hno x). unfold n. cbn [opt_mem node_mem] in *. tauto.
    + intros n' [= <-]. exists po, ho. split; [done|].
      eapply sub_block_trans; [exact So|by apply sub_block_upper].
Qed.

(** The block came from the upper half. *)
Lemma acquired_one a oo : acquired one po ho k (Some a, oo) →
  acquired n p h k (Some a, match oo with
    | Some o => Some (mkNode p (mask_of h) (Fork (Some zero) (Some o)))
    | None => Some zero end).
Proof.
  intros (Ha & Hin & Hm & Hw).
  assert (Hup : ∀ x, in_block a k x → in_block (p + 2 ^ (h - 1)) (h - 1) x).
  { intros x Hx. eapply sub_block_in; [exact So|]. eapply wf_mem_in_block; eauto. }
  assert (Hno : ∀ x, in_block a k x → ¬ node_mem zero x).
  { intros x Hx. eapply half_out'; eauto. }
  split; [done|]. split; [intros x Hx; right; by apply Hin|]. destruct oo as [o|].
  - destruct (Hw o eq_refl) as (po' & ho' & Wo & So'). split.
    + intros x. specialize (Hm x). specialize (Hno x). unfold n. cbn [opt_mem node_mem] in *. tauto.
    + intros n' [= <-]. exists p, h. split; [|apply sub_block_refl].
      eapply (wf_fork p h pz hz zero po' ho'); eauto using sub_block_trans.
      intros (_ & _ & L & E). eapply (not_full_leaf _ (h - 1) o po' ho'); eauto using sub_block_trans.
      exists a. split; [apply Hup, aligned_self_in, Ha|]. intros Hma. apply (Hm a) in Hma.
      by apply Hma, aligned_self_in.
  - split.
    + intros x. specialize (Hm x). specialize (Hno x). unfold n. cbn [opt_mem node_mem] in *. tauto.
    + intros n' [= <-]. exists pz, hz. split; [done|].
      eapply sub_block_trans; [exact Sz|by apply sub_block_lower].
Qed.

(** Neither half has a block: the fork has none. *)
Lemma acquired_none : wf p h n → k < h →
  acquired zero pz hz k (None, Some zero) → acquired one po ho k (None, Some one) →
  acquired n p h k (None, Some n).
Proof.
  intros Hn Hk [_ Cz] [_ Co]. split; [done|]. intros a Ha Hf.
  destruct (full_block_sub _ _ _ _ _ Hn Ha Hf) as [_ Hs].
  destruct (sub_block_halves _ _ _ _ Hp Ha Hk Hs) as [T|T].
  - apply (Cz a Ha). intros x Hx. destruct (Hf x Hx) as [|Hm]; [done|].
    exfalso. by apply (half_out p h one po ho x Ho So (sub_block_in _ _ _ _ _ T Hx)).
  - apply (Co a Ha). intros x Hx. destruct (Hf x Hx) as [Hm|]; [|done].
    exfalso. by apply (half_out' p h zero pz hz x Hz Sz (sub_block_in _ _ _ _ _ T Hx)).
Qed.

End AcquireFork.

Lemma acquire_node_spec p h n k : wf p h n → 0 ≤ k ≤ 64 →
  ∃ r, acquire_node n (mask_of k) = Ret r ∧ acquired n p h k r.
Proof.
  intros Hwf Hk. induction Hwf as [p h Hp|p h pz hz zero po ho one Hp Hh Hz IHz Ho IHo Sz So Hnc].
  - assert (Hn : wf p h (mkNode p (mask_of h) Leaf)) by (by constructor). pose proof Hp as (_ & Hh & _).
    destruct (Z.lt_trichotomy k h) as [Hlt|[->|Hgt]].
    + destruct (acquire_leaf p h k Hp ltac:(lia)) as (o & ? & ?). eauto.
    + rewrite acquire_node_eq, Z.compare_refl. eexists. split; [done|]. split; [done|].
      assert (Hm := λ x, wf_leaf_mem p h _ x Hn eq_refl).
      split; [intros x; apply Hm|]. split; [|done]. intros x. rewrite Hm. cbn [opt_mem]. tauto.
    + rewrite acquire_node_eq, !leading_ones_mask by lia.
      rewrite (proj2 (Z.compare_gt_iff (64 - h) (64 - k))) by lia.
      eexists. split; [done|]. split; [done|]. intros a Ha Hf.
      destruct (full_block_sub _ _ _ _ _ Hn Ha Hf). lia.
  - assert (Hn : wf p h (mkNode p (mask_of h) (Fork (Some zero) (Some one)))) by (by econstructor).
    pose proof Hp as (_ & Hhh & _). rewrite acquire_node_eq, !leading_ones_mask by lia.
    destruct (Z.compare_spec (64 - h) (64 - k)) as [E|Hlt|Hgt].
    + eexists. split; [done|]. split; [done|]. intros a Ha Hf.
      destruct (full_block_sub _ _ _ _ _ Hn Ha Hf) as [_ Hs]. assert (k = h) as -> by lia.
      assert (a = p) as -> by (unfold sub_block in Hs; lia).
      by apply (wf_full_leaf p h) in Hf.
    + cbv zeta. destruct IHz as ([[a|] oz] & -> & Az); rewrite bind_Ret.
      * rewrite bind_Ret. pose proof (acquired_zero p h pz hz po ho k zero one Hp Hh Hz Ho Sz So a oz Az).
        destruct oz; eexists; (split; [done|]); done.
      * destruct Az as [-> Cz]. destruct IHo as ([[a|] oo] & -> & Ao); rewrite bind_Ret.
        -- pose proof (acquired_one p h pz hz po ho k zero one Hp Hh Hz Ho Sz So a oo Ao).
           destruct oo; eexists; (split; [done|]); done.
        -- destruct Ao as [-> Co]. eexists. split; [done|].
           apply (acquired_none p h pz hz po ho k zero one); try done; try lia.
    + eexists. split; [done|]. split; [done|]. intros a Ha Hf.
      destruct (full_block_sub _ _ _ _ _ Hn Ha Hf). lia.
Qed.

Lemma acquire_spec t k : trie_wf t → 0 ≤ k ≤ 64 →
  (acquire t (mask_of k) = Ret (t, None) ∧ ∀ a, aligned a k → ¬ ∀ x, in_block a k x → mem t x) ∨
  (∃ t' a, acquire t (mask_of k) = Ret (t', Some a) ∧ trie_wf t' ∧ aligned a k ∧
     (∀ x, in_block a k x → mem t x) ∧ (∀ x, mem t' x ↔ mem t x ∧ ¬ in_block a k x)).
Proof.
  intros Ht Hk. unfold acquire. rewrite assert_valid_mask_of, bind_Ret by done.
  destruct t as [[n|]]; cbn [root].
  - pose proof Ht as (p & h & Hn).
    destruct (acquire_node_spec p h n k Hn Hk) as ([[a|] o] & -> & Hacq); rewrite bind_Ret.
    + right. destruct Hacq as (Ha & Hin & Hm & Hw).
      assert (Ht' : trie_wf (mkTrie o)).
      { destruct o as [n'|]; [|done]. destruct (Hw n' eq_refl) as (p' & h' & ? & _). by exists p', h'. }
      rewrite trie_check_wf by done. exists (mkTrie o), a. auto.
    + left. destruct Hacq as [-> Hc]. rewrite trie_check_wf by done. auto.
  - left. rewrite bind_Ret, trie_check_wf by done. split; [done|]. intros a Ha Hf.
    apply (Hf a). by apply aligned_self_in.
Qed.

(** ** Draining a trie into another *)
Lemma drain_node_spec p h n : wf p h n → ∀ other, trie_wf other →
  (∀ x, node_mem n x → ¬ mem other x) →
  ∃ other', drain_node n other = Ret other' ∧ trie_wf other' ∧
    ∀ x, mem other' x ↔ mem other x ∨ node_mem n x.
Proof.
  induction 1 as [p h Hp|p h pz hz zero po ho one Hp Hh Hz IHz Ho IHo Sz So Hnc];
    intros other Hother Hd; cbn [drain_node].
  - assert (Hm := λ x, wf_leaf_mem p h _ x (wf_leaf p h Hp) eq_refl).
    destruct (release_spec other p h Hother Hp) as (t' & -> & Hw & Hmem).
    { intros x Hx. apply Hd. by apply Hm. }
    rewrite bind_Ret. exists t'. split; [done|]. split; [done|]. intros x. by rewrite Hmem, Hm.
  - destruct (IHz other Hother) as (t1 & -> & W1 & M1); [intros x Hx; apply Hd; by left|].
    rewrite bind_Ret. destruct (IHo t1 W1) as (t2 & -> & W2 & M2).
    { intros x Hx. rewrite M1. intros [Hm|Hm]; [by apply (Hd x); [right|]|].
      apply (half_out p h one po ho x Ho So); [|done].
      eapply sub_block_in; [exact Sz|]. by eapply wf_mem_in_block. }
    exists t2. split; [done|]. split; [done|]. intros x. rewrite M2, M1. cbn [node_mem]. tauto.
Qed.

Lemma drain_into_spec t other : trie_wf t → trie_wf other →
  (∀ x, mem t x → ¬ mem other x) →
  ∃ other', drain_into t other = Ret (empty, other') ∧ trie_wf other' ∧
    ∀ x, mem other' x ↔ mem other x ∨ mem t x.
Proof.
  intros Ht Ho Hd. unfold drain_into. destruct t as [[n|]]; cbn [root].
  - destruct Ht as (p & h & Hn). destruct (drain_node_spec _ _ _ Hn other Ho Hd) as (o' & -> & ? & ?).
    exists o'. auto.
  - exists other. split; [done|]. split; [done|]. intros x. unfold mem at 3. simpl. tauto.
Qed.

(** ** Releasing a block that is already free *)
Inductive has_leaf (q j : Z) : Node → Prop :=
| has_leaf_here : has_leaf q j (mkNode q (mask_of j) Leaf)
| has_leaf_zero p m zero one : has_leaf q j zero → has_leaf q j (mkNode p m (Fork (Some zero) one))
| has_leaf_one p m zero one : has_leaf q j one → has_leaf q j (mkNode p m (Fork zero (Some one))).

Lemma has_leaf_leaf_inv q j p m : has_leaf q j (mkNode p m Leaf) → p = q ∧ m = mask_of j.
Proof. inversion 1; auto. Qed.

Lemma has_leaf_fork_inv q j p m zero one :
  has_leaf q j (mkNode p m (Fork (Some zero) (Some one))) → has_leaf q j zero ∨ has_leaf q j one.
Proof. inversion 1; auto. Qed.

Lemma has_leaf_sub p h n q j : wf p h n → has_leaf q j n → aligned q j ∧ sub_block q j p h.
Proof.
  induction 1 as [p h Hp|p h pz hz zero po ho one Hp Hh Hz IHz Ho IHo Sz So Hnc]; intros HL.
  - apply has_leaf_leaf_inv in HL as [<- E2]. pose proof Hp as (_ & ? & _).
    assert (0 ≤ j). { destruct (Z.le_gt_cases 0 j); [done|].
      unfold mask_of in E2. rewrite (Z.pow_neg_r 2 j) in E2 by done. pose proof (pow2_pos h). lia. }
    apply mask_of_inj in E2; [|lia|lia]. subst. split; [done|apply sub_block_refl].
  - apply has_leaf_fork_inv in HL as [L|L].
    + destruct (IHz L) as [? ?]. split; [done|].
      eapply sub_block_trans; [|by apply sub_block_lower]. by eapply sub_block_trans.
    + destruct (IHo L) as [? ?]. split; [done|].
      eapply sub_block_trans; [|by apply sub_block_upper]. by eapply sub_block_trans.
Qed.

(** By canonicity, a free block lies in one leaf. *)
Lemma free_block_leaf p h n a k : wf p h n → aligned a k → (∀ x, in_block a k x → node_mem n x) →
  ∃ q j, has_leaf q j n ∧ sub_block a k q j.
Proof.
  intros Hn Ha. induction Hn as [p h Hp|p h pz hz zero po ho one Hp Hh Hz IHz Ho IHo Sz So Hnc]; intros Hf.
  - exists p, h. split; [constructor|].
    destruct (full_block_sub _ _ _ _ _ (wf_leaf p h Hp) Ha Hf). done.
  - assert (Hn : wf p h (mkNode p (mask_of h) (Fork (Some zero) (Some one)))) by (by econstructor).
    destruct (full_block_sub _ _ _ _ _ Hn Ha Hf) as [Hk Hs].
    destruct (Z.eq_dec k h) as [->|].
    { assert (a = p) as -> by (unfold sub_block in Hs; lia). by apply (wf_full_leaf p h) in Hf. }
    destruct (sub_block_halves _ _ _ _ Hp Ha ltac:(lia) Hs) as [T|T].
    + destruct IHz as (q & j & ? & ?); [|exists q, j; split; [by constructor|done]].
      intros x Hx. destruct (Hf x Hx) as [|Hm]; [done|].
      by destruct (half_out p h one po ho x Ho So (sub_block_in _ _ _ _ _ T Hx)).
    + destruct IHo as (q & j & ? & ?); [|exists q, j; split; [by constructor|done]].
      intros x Hx. destruct (Hf x Hx) as [Hm|]; [|done].
      by destruct (half_out' p h zero pz hz x Hz Sz (sub_block_in _ _ _ _ _ T Hx)).
Qed.

Lemma maybe_compact_id p h pz hz zero po ho one :
  aligned p h → 1 ≤ h → wf pz hz zero → wf po ho one → hz ≤ h - 1 → ho ≤ h - 1 →
  ¬ (is_leaf zero = true ∧ hz = h - 1 ∧ is_leaf one = true ∧ ho = h - 1) →
  maybe_compact (mkNode p (mask_of h) (Fork (Some zero) (Some one))) =
  Ret (mkNode p (mask_of h) (Fork (Some zero) (Some one))).
Proof.
  intros Ha Hh Hz Ho Lz Lo Hnc. unfold maybe_compact. simpl expect. rewrite !bind_Ret.
  rewrite (wf_seg_mask _ _ _ Hz), (wf_seg_mask _ _ _ Ho).
  pose proof (wf_aligned _ _ _ Hz) as (_ & Hhz & _). pose proof (wf_aligned _ _ _ Ho) as (_ & Hho & _).
  pose proof Ha as (_ & Hhh & _). rewrite !mask_of_shl1, !mask_of_eqb by lia.
  destruct (_ && _) eqn:E; [|done]. rewrite !andb_true_iff, !Z.eqb_eq in E.
  destruct Hnc. destruct E as [[[? ?] ?] ?]. split_and!; done || lia.
Qed.

Lemma ancestor_inside p h a k : aligned p h → aligned a k → sub_block a k p h →
  common_ancestor (p, mask_of h) (a, mask_of k) = Ret (p, mask_of h).
Proof.
  intros Hp Ha Hs. destruct (common_ancestor_spec p h a k Hp Ha) as (hc & Hca & Hhc & E & Hne).
  pose proof Hp as (Hpo & Hh & Dp). assert (k ≤ h) by apply Hs.
  assert (hc = h) as ->.
  { destruct (Z.eq_dec hc h); [done|]. exfalso. apply Hne; [lia|].
    apply (div_eq_mono p a h (hc - 1)); [lia|]. symmetry. apply block_div; [done|].
    by eapply sub_block_self. }
  by rewrite Hca, round_aligned.
Qed.

Lemma release_node_free p h n q j a k : wf p h n → has_leaf q j n → aligned a k → sub_block a k q j →
  release_node n a (mask_of k) = if j =? 0 then Panic else Ret (n, false).
Proof.
  intros Hn. induction Hn as [p h Hp|p h pz hz zero po ho one Hp Hh Hz IHz Ho IHo Sz So Hnc]; intros HL Ha Hs.
  - destruct (has_leaf_sub _ _ _ _ _ (wf_leaf p h Hp) HL) as [Hq Hsq].
    rewrite release_node_eq, ancestor_inside, bind_Ret by eauto using sub_block_trans.
    assert (j = h) as ->.
    { pose proof Hq as (_ & ? & _). pose proof Hp as (_ & ? & _).
      apply has_leaf_leaf_inv in HL as [_ E2]. apply mask_of_inj in E2; lia. }
    rewrite trailing_zeros_mask, Z.eqb_refl by (destruct Hp; lia).
    destruct (h =? 0); [done|]. simpl negb. rewrite assert_true, bind_Ret by done.
    cbv zeta. by destruct (_ =? mask_of k).
  - assert (Hn : wf p h (mkNode p (mask_of h) (Fork (Some zero) (Some one)))) by (by econstructor).
    destruct (has_leaf_sub _ _ _ _ _ Hn HL) as [Hq Hsq].
    pose proof (sub_block_trans _ _ _ _ _ _ Hs Hsq) as Hsp.
    rewrite release_node_eq, ancestor_inside, bind_Ret by done.
    pose proof Hp as (Hpo & Hhh & _). pose proof Ha as (Hao & Hk & _).
    assert (Hjlt : sub_block a k p (h - 1) ∨ sub_block a k (p + 2 ^ (h - 1)) (h - 1)).
    { apply has_leaf_fork_inv in HL as [L|L]; [left|right].
      - destruct (has_leaf_sub _ _ _ _ _ Hz L). eauto using sub_block_trans.
      - destruct (has_leaf_sub _ _ _ _ _ Ho L). eauto using sub_block_trans. }
    assert (k < h) by (unfold sub_block in Hjlt; lia).
    rewrite trailing_zeros_mask, !mask_of_eqb, Z.eqb_refl by lia.
    rewrite (proj2 (Z.eqb_neq h 0)), (proj2 (Z.eqb_neq h k)) by lia. cbv zeta.
    simpl negb. rewrite assert_true, bind_Ret by done.
    assert (Er : 2 ^ h * (a / 2 ^ h) = p).
    { rewrite (block_div p h a Hp) by eauto using sub_block_self. by apply round_aligned. }
    assert (hz ≤ h - 1) by apply Sz. assert (ho ≤ h - 1) by apply So.
    apply has_leaf_fork_inv in HL as [L|L].
    + destruct (has_leaf_sub _ _ _ _ _ Hz L) as [_ T].
      rewrite (proj2 (split_bit_lower a h Hao ltac:(lia)))
        by (rewrite Er; eapply sub_block_self; [|done]; eauto using sub_block_trans).
      cbn [release_dfs]. rewrite (IHz L Ha Hs). destruct (j =? 0); [done|].
      rewrite !bind_Ret. by erewrite maybe_compact_id by eauto.
    + destruct (has_leaf_sub _ _ _ _ _ Ho L) as [_ T].
      rewrite (proj2 (split_bit_upper a h Hao ltac:(lia)))
        by (rewrite Er; eapply sub_block_self; [|done]; eauto using sub_block_trans).
      cbn [release_dfs]. rewrite (IHo L Ha Hs). destruct (j =? 0); [done|].
      rewrite !bind_Ret. by erewrite maybe_compact_id by eauto.
Qed.

Lemma release_free t a k : trie_wf t → aligned a k → (∀ x, in_block a k x → mem t x) →
  release t a (mask_of k) = Ret (t, false) ∨ (k = 0 ∧ release t a (mask_of k) = Panic).
Proof.
  intros Ht Ha Hf. unfold release. pose proof Ha as (_ & Hk & _).
  rewrite assert_valid_mask_of, aligned_land_not by done. simpl assert_. rewrite !bind_Ret.
  destruct t as [[n|]]; [|by destruct (Hf a); apply aligned_self_in].
  pose proof Ht as (p & h & Hn). destruct (free_block_leaf _ _ _ _ _ Hn Ha Hf) as (q & j & HL & Hs).
  cbn [release_dfs root]. rewrite (release_node_free _ _ _ _ _ _ _ Hn HL Ha Hs).
  destruct (Z.eqb_spec j 0) as [->|]; [right|left].
  - split; [unfold sub_block in Hs; lia|done].
  - rewrite !bind_Ret, trie_check_wf by done. done.
Qed.

(** ** Theorems *)

(** C5: Releasing a block none of whose addresses is free never panics (every
    [assert!], [expect] and debug-build invariant check passes), reports
    [true], keeps the trie well-formed and canonical, and makes exactly the
    block's addresses free in addition. *)
Theorem release_correct (t : Trie) (a k : Z)
  (Hwf : trie_wf t) (Ha : aligned a k) (Hf : block_fresh (mem t) a k) :
  ∃ t', release t a (mask_of k) = Ret (t', true) ∧ trie_wf t' ∧
        ∀ x, mem t' x ↔ mem t x ∨ in_block a k x.
Proof. by apply release_spec. Qed.

Lemma release_correct_witness :
  ∃ t', release (mkTrie (Some (mkNode 0 (mask_of 0) Leaf))) 1 (mask_of 0) = Ret (t', true) ∧
        trie_wf t' ∧ ∀ x, mem t' x ↔ mem (mkTrie (Some (mkNode 0 (mask_of 0) Leaf))) x ∨ in_block 1 0 x.
Proof.
  assert (A : aligned 0 0) by (repeat split; try (by vm_compute); exists 0; reflexivity).
  apply (release_correct (mkTrie (Some (mkNode 0 (mask_of 0) Leaf))) 1 0).
  - exists 0, 0. by constructor.
  - repeat split; try (by vm_compute). exists 1. reflexivity.
  - intros x. change (in_block 1 0 x → ¬ (0 ≤ x < 0 + 1)). unfold in_block. change (2 ^ 0) with 1. lia.
Defined.

(** C4: Acquiring never panics. It fails, leaving the trie as it was, exactly
    when no aligned block of the sought size is entirely free; otherwise it
    returns such a block and exactly its addresses stop being free. *)
Theorem acquire_correct (t : Trie) (k : Z) (Hwf : trie_wf t) (Hk : 0 ≤ k ≤ 64) :
  (acquire t (mask_of k) = Ret (t, None) ∧ ∀ a, aligned a k → ¬ ∀ x, in_block a k x → mem t x) ∨
  (∃ t' a, acquire t (mask_of k) = Ret (t', Some a) ∧ trie_wf t' ∧ aligned a k ∧
     (∀ x, in_block a k x → mem t x) ∧ (∀ x, mem t' x ↔ mem t x ∧ ¬ in_block a k x)).
Proof. by apply acquire_spec. Qed.

Lemma acquire_correct_witness :
  let t := mkTrie (Some (mkNode 0xFFF0 (mask_of 4) Leaf)) in
  (acquire t (mask_of 2) = Ret (t, None) ∧ ∀ a, aligned a 2 → ¬ ∀ x, in_block a 2 x → mem t x) ∨
  (∃ t' a, acquire t (mask_of 2) = Ret (t', Some a) ∧ trie_wf t' ∧ aligned a 2 ∧
     (∀ x, in_block a 2 x → mem t x) ∧ (∀ x, mem t' x ↔ mem t x ∧ ¬ in_block a 2 x)).
Proof.
  intros t. apply (acquire_correct t 2); [|lia].
  exists 0xFFF0, 4. constructor. repeat split; try (by vm_compute). exists 0xFFF. reflexivity.
Defined.

(** Releasing a block whose addresses are all free already is reported as
    [false] and leaves the trie unchanged, or, for a single address only, hits
    the assertion on the common ancestor and panics. *)
Theorem release_twice (t : Trie) (a k : Z)
  (Hwf : trie_wf t) (Ha : aligned a k) (Hf : ∀ x, in_block a k x → mem t x) :
  release t a (mask_of k) = Ret (t, false) ∨ (k = 0 ∧ release t a (mask_of k) = Panic).
Proof. by apply release_free. Qed.

Lemma release_twice_witness :
  let t := mkTrie (Some (mkNode 7 (mask_of 0) Leaf)) in
  release t 7 (mask_of 0) = Panic ∧
  (release t 7 (mask_of 0) = Ret (t, false) ∨ (0 = 0 ∧ release t 7 (mask_of 0) = Panic)).
Proof.
  intros t. split; [by vm_compute|].
  assert (A : aligned 7 0) by (repeat split; try (by vm_compute); exists 7; reflexivity).
  apply (release_twice t 7 0); [exists 7, 0; by constructor|done|]. intros x Hx. exact Hx.
Defined.

(** The snapshot of the source's test [pool_04]. *)
Example pool_04 :
  (t ← new 0xFFFFFFFFFFFFFFF0 0xFFFFFFFFFFFFFFF0;
   '(t, a61) ← acquire t 0xFFFFFFFFFFFFFFF8;
   '(t, a62) ← acquire t 0xFFFFFFFFFFFFFFFC;
   '(t, a63) ← acquire t 0xFFFFFFFFFFFFFFFE;
   '(t, a64) ← acquire t 0xFFFFFFFFFFFFFFFF;
   Ret (a61, a62, a63, a64, t)) =
  Ret (Some 18446744073709551600, Some 18446744073709551608, Some 18446744073709551612,
       Some 18446744073709551614,
       mkTrie (Some (mkNode 0xFFFFFFFFFFFFFFFF 0xFFFFFFFFFFFFFFFF Leaf))).
Proof. vm_compute. reflexivity. Qed.
