(* ===== verification/Pool.v ===== *)
(** * The address pool (libs/mm1-address/src/pool.rs)

    A pool hands out leases of disjoint sub-blocks of its network. It keeps two
    tries of free blocks: [main], from which leases are taken, and [used], to
    which dropped leases return. When neither can serve a request, [used] is
    folded into [main], which merges the free space. *)

From S2P Require Import Prelude U64 Address Subnet Trie.

Open Scope Z_scope.

Inductive LeaseError := Unavailable.

(** [struct Shared], behind the pool's mutex: each operation runs under the
    lock, so operations are atomic steps. *)
Record Shared := mkShared { main : Trie; used : Trie }.

(** [struct Lease]: a lease made by a pool refers weakly to the pool's state; a
    trusted lease ([Weak::new]) refers to nothing. *)
Inductive WeakRef := Dangling | Linked.
Record Lease := mkLease { net_address : NetAddress; shared : WeakRef }.

(** [Pool::new] *)
Definition pool_new (net : NetAddress) : outcome Shared :=
  let m := net_mask_into_u64 (mask net) in
  let a := Z.land (address net) m in
  main ← Trie.new a m;
  Ret (mkShared main Trie.empty).

(** [Pool::lease] *)
Definition lease (s : Shared) (m : NetMask) : outcome (Shared * result Lease LeaseError) :=
  let give (addr : Z) := Ok (mkLease (mkNet addr m) Linked) in
  '(main', r) ← acquire (main s) (net_mask_into_u64 m);
  match r with
  | Some a => Ret (mkShared main' (used s), give a)
  | None =>
      '(used', r) ← acquire (used s) (net_mask_into_u64 m);
      match r with
      | Some a => Ret (mkShared used' main', give a)
      | None =>
          '(used'', main'') ← drain_into used' main';
          '(main''', r) ← acquire main'' (net_mask_into_u64 m);
          Ret (mkShared main''' used'', match r with Some a => give a | None => Err Unavailable end)
      end
  end.

(** [Lease::trusted] *)
Definition trusted (n : NetAddress) : Lease := mkLease n Dangling.

(** [<Lease as Drop>::drop], with the pool still alive. *)
Definition lease_drop (s : Shared) (l : Lease) : outcome Shared :=
  match shared l with
  | Dangling => Ret s
  | Linked =>
      '(used', _) ← release (used s) (address (net_address l)) (net_mask_into_u64 (mask (net_address l)));
      Ret (mkShared (main s) used')
  end.

(** ** The pool and its live leases as a transition system *)
Record PoolState := mkPool { free : Shared; live : list Lease }.

Inductive pool_step : PoolState → PoolState → Prop :=
| step_lease s m s' l ls :
    0 ≤ m ≤ 64 → lease s m = Ret (s', Ok l) → pool_step (mkPool s ls) (mkPool s' (l :: ls))
| step_unavailable s m s' ls :
    0 ≤ m ≤ 64 → lease s m = Ret (s', Err Unavailable) → pool_step (mkPool s ls) (mkPool s' ls)
| step_drop s s' l ls ls' :
    ls ≡ₚ l :: ls' → lease_drop s l = Ret s' → pool_step (mkPool s ls) (mkPool s' ls').

Definition pool_reachable (net : NetAddress) (st : PoolState) : Prop :=
  ∃ s, pool_new net = Ret s ∧ rtc pool_step (mkPool s []) st.

(** ** The invariant *)
Definition covers (l : Lease) (x : Z) : Prop := net_contains (net_address l) x.
Definition leased (ls : list Lease) (x : Z) : Prop := ∃ l, l ∈ ls ∧ covers l x.

(** A lease made by the pool: linked to it, canonical. *)
Definition lease_ok (l : Lease) : Prop := shared l = Linked ∧ net_canonical (net_address l).

Fixpoint leases_disjoint (ls : list Lease) : Prop :=
  match ls with
  | [] => True
  | l :: ls => (∀ x, covers l x → ¬ leased ls x) ∧ leases_disjoint ls
  end.

(** The addresses of the network a pool was made for. *)
Definition in_pool (net : NetAddress) (x : Z) : Prop :=
  in_block (2 ^ (64 - mask net) * (address net / 2 ^ (64 - mask net))) (64 - mask net) x.

Record pool_inv (net : NetAddress) (st : PoolState) : Prop := {
  inv_main : trie_wf (main (free st));
  inv_used : trie_wf (used (free st));
  inv_ok : Forall lease_ok (live st);
  inv_cover : ∀ x, in_pool net x ↔
    mem (main (free st)) x ∨ mem (used (free st)) x ∨ leased (live st) x;
  inv_main_used : ∀ x, mem (main (free st)) x → ¬ mem (used (free st)) x;
  inv_main_leased : ∀ x, mem (main (free st)) x → ¬ leased (live st) x;
  inv_used_leased : ∀ x, mem (used (free st)) x → ¬ leased (live st) x;
  inv_disjoint : leases_disjoint (live st)
}.

#[export] Instance leased_proper : Proper ((≡ₚ) ==> eq ==> iff) leased.
Proof.
  intros ls ls' Hp x y ->. unfold leased. split; intros (l & Hl & Hc); exists l; split; try done.
  - by rewrite <- Hp.
  - by rewrite Hp.
Qed.

Lemma leased_cons l ls x : leased (l :: ls) x ↔ covers l x ∨ leased ls x.
Proof.
  unfold leased. setoid_rewrite elem_of_cons. split.
  - intros (l' & [->|Hl] & Hc); eauto.
  - intros [Hc|(l' & Hl & Hc)]; eauto.
Qed.

Lemma leased_nil x : ¬ leased [] x.
Proof. intros (l & Hl & _). by apply elem_of_nil in Hl. Qed.

#[export] Instance leases_disjoint_proper : Proper ((≡ₚ) ==> iff) leases_disjoint.
Proof.
  assert (H : ∀ ls ls', ls ≡ₚ ls' → leases_disjoint ls → leases_disjoint ls').
  { induction 1 as [|l ls ls' Hp IH|l l' ls|]; simpl; [done| | |auto].
    - intros [H1 H2]. split; [|auto]. intros x. rewrite <- Hp. apply H1.
    - intros (H1 & H2 & H3). setoid_rewrite leased_cons in H1. setoid_rewrite leased_cons.
      repeat split; [|naive_solver|done]. intros x Hx [Hy|Hy]; [|by apply (H2 x)].
      apply (H1 x Hy). by left. }
  intros ls ls' Hp. split; by apply H.
Qed.

(** Two live leases at different positions share no address. *)
Lemma leases_disjoint_lookup ls i j l l' x : leases_disjoint ls →
  ls !! i = Some l → ls !! j = Some l' → i ≠ j → covers l x → ¬ covers l' x.
Proof.
  revert i j. induction ls as [|l0 ls IH]; intros i j Hd Hi Hj Hne Hx Hy; [done|].
  destruct Hd as [H1 H2]. destruct i as [|i], j as [|j]; simplify_eq/=.
  - apply (H1 x Hx). exists l'. split; [|done]. apply list_elem_of_lookup. eauto.
  - apply (H1 x Hy). exists l. split; [|done]. apply list_elem_of_lookup. eauto.
  - by apply (IH i j H2 Hi Hj ltac:(congruence) Hx Hy).
Qed.

(** ** Preservation *)
Lemma canonical_aligned n : net_canonical n ↔
  aligned (address n) (64 - mask n).
Proof.
  unfold net_canonical, net_ok, aligned. split; intros; destruct_and!; split_and!; try done; lia.
Qed.

Lemma covers_in_block a m x : covers (mkLease (mkNet a m) Linked) x ↔ in_block a (64 - m) x.
Proof. done. Qed.

Lemma lease_ok_give a m : 0 ≤ m ≤ 64 → aligned a (64 - m) → lease_ok (mkLease (mkNet a m) Linked).
Proof. intros Hm Ha. split; [done|]. by apply canonical_aligned. Qed.

Lemma pool_new_spec net : net_ok net →
  ∃ s, pool_new net = Ret s ∧ pool_inv net (mkPool s []).
Proof.
  intros [Ha Hm]. unfold pool_new. rewrite net_mask_into_u64_mask, land_mask by (done || lia).
  set (h := 64 - mask net). assert (Hh : 0 ≤ h ≤ 64) by lia.
  destruct (release_spec Trie.empty (2 ^ h * (address net / 2 ^ h)) h)
    as (t & Ht & Hw & Hmem); [done|by apply aligned_round|intros x _ Hx; exact Hx|].
  cbv zeta. unfold Trie.new. rewrite Ht, !bind_Ret. eexists. split; [done|].
  constructor; simpl; try done.
  - intros x. rewrite Hmem. unfold in_pool. fold h. unfold mem at 1 2. simpl.
    pose proof (leased_nil x). tauto.
  - intros x _ H. exact H.
  - intros x _ H. by apply leased_nil in H.
Qed.

Section LeaseStep.
Variables (net : NetAddress) (s : Shared) (ls : list Lease) (m : NetMask).
Hypothesis (Hinv : pool_inv net (mkPool s ls)) (Hm : 0 ≤ m ≤ 64).

(** The invariant after giving out the block [a] of the tries [t1] and [t2],
    which together hold what was free. *)
Lemma inv_give t1 t2 t1' a :
  trie_wf t1' → trie_wf t2 → aligned a (64 - m) →
  (∀ x, in_block a (64 - m) x → mem t1 x) →
  (∀ x, mem t1' x ↔ mem t1 x ∧ ¬ in_block a (64 - m) x) →
  (∀ x, mem t1 x ∨ mem t2 x ↔ mem (main s) x ∨ mem (used s) x) →
  (∀ x, mem t1 x → ¬ mem t2 x) →
  pool_inv net (mkPool (mkShared t1' t2) (mkLease (mkNet a m) Linked :: ls)).
Proof.
  intros W1 W2 Ha Hin Hmem Hall Hdis. destruct Hinv as [_ _ Hok Hcov _ Hml Hul Hd]. simpl in *.
  assert (Hnl : ∀ x, mem t1 x ∨ mem t2 x → ¬ leased ls x).
  { intros x Hx. apply Hall in Hx as [?|?]; [by apply Hml|by apply Hul]. }
  assert (Hcov' : ∀ x, in_pool net x ↔ mem t1 x ∨ mem t2 x ∨ leased ls x).
  { intros x. rewrite Hcov. specialize (Hall x). tauto. }
  constructor; simpl; try done.
  all: try (constructor; [by apply lease_ok_give|done]).
  all: try (intros x; rewrite ?leased_cons, ?covers_in_block;
    specialize (Hmem x); specialize (Hin x); specialize (Hnl x); specialize (Hcov' x);
    specialize (Hdis x); destruct (decide (a ≤ x < a + 2 ^ (64 - m))) as [Hd1|Hd1];
    change (a ≤ x < a + 2 ^ (64 - m)) with (in_block a (64 - m) x) in Hd1; tauto).
  all: split; [|done]; intros x Hx; apply Hnl; left; by apply Hin.
Qed.

Lemma lease_spec : ∃ s' r, lease s m = Ret (s', r) ∧
  match r with
  | Ok l => pool_inv net (mkPool s' (l :: ls)) ∧ mask (net_address l) = m
  | Err Unavailable => pool_inv net (mkPool s' ls) ∧
      ∀ a, aligned a (64 - m) → ¬ ∀ x, in_block a (64 - m) x → in_pool net x ∧ ¬ leased ls x
  end.
Proof.
  pose proof Hinv as [W1 W2 Hok Hcov Hmu Hml Hul Hd]. simpl in *.
  unfold lease. rewrite net_mask_into_u64_mask by done.
  assert (Hk : 0 ≤ 64 - m ≤ 64) by lia.
  destruct (acquire_spec (main s) (64 - m) W1 Hk) as [[-> C1]|(t & a & -> & W & Ha & Hin & Hmem)];
    rewrite bind_Ret.
  2: { eexists _, _. split; [done|]. split; [|done]. eapply (inv_give (main s) (used s)); eauto. }
  destruct (acquire_spec (used s) (64 - m) W2 Hk) as [[-> C2]|(t & a & -> & W & Ha & Hin & Hmem)];
    rewrite bind_Ret.
  2: { eexists _, _. split; [done|]. split; [|done].
    eapply (inv_give (used s) (main s)); eauto; [intros; tauto|].
    intros x Hx Hy. by apply (Hmu x). }
  destruct (drain_into_spec (used s) (main s) W2 W1) as (t1 & -> & Wt & Ht).
  { intros x Hx Hy. by apply (Hmu x). }
  rewrite bind_Ret.
  destruct (acquire_spec t1 (64 - m) Wt Hk) as [[-> C3]|(t & a & -> & W & Ha & Hin & Hmem)];
    rewrite bind_Ret.
  - eexists _, _. split; [done|]. split.
    + constructor; simpl; try done.
      * intros x. rewrite Hcov, Ht. unfold mem at 5. simpl. tauto.
      * intros x. unfold mem at 2. simpl. tauto.
      * intros x. rewrite Ht. intros [?|?]; auto.
    + intros a Ha Hf. apply (C3 a Ha). intros x Hx. apply Ht.
      destruct (Hf x Hx) as [Hp Hn]. apply Hcov in Hp. tauto.
  - eexists _, _. split; [done|]. split; [|done].
    eapply (inv_give t1 Trie.empty); eauto; [done|].
    intros x. rewrite Ht. unfold mem at 3. simpl. tauto.
Qed.

End LeaseStep.

Lemma drop_spec net s ls l ls' : pool_inv net (mkPool s ls) → ls ≡ₚ l :: ls' →
  ∃ s', lease_drop s l = Ret s' ∧ pool_inv net (mkPool s' ls').
Proof.
  intros [W1 W2 Hok Hcov Hmu Hml Hul Hd] Hp. simpl in *.
  rewrite Hp in Hok, Hd. apply Forall_cons in Hok as [[Hs Hc] Hok]. destruct Hd as [Hd1 Hd2].
  setoid_rewrite Hp in Hcov. setoid_rewrite Hp in Hml. setoid_rewrite Hp in Hul.
  setoid_rewrite leased_cons in Hcov. setoid_rewrite leased_cons in Hml. setoid_rewrite leased_cons in Hul.
  destruct l as [[a m] ?]. simpl in Hs. subst. unfold covers in *. simpl in *.
  apply canonical_aligned in Hc as Ha. destruct Hc as [[_ Hm] _]. simpl in *.
  assert (Hcb : ∀ x, net_contains (mkNet a m) x ↔ in_block a (64 - m) x) by done.
  setoid_rewrite Hcb in Hcov. setoid_rewrite Hcb in Hml. setoid_rewrite Hcb in Hul.
  setoid_rewrite Hcb in Hd1.
  unfold lease_drop. simpl. rewrite net_mask_into_u64_mask by done.
  destruct (release_spec (used s) a (64 - m) W2 Ha) as (t & -> & W & Hmem).
  { intros x Hx Hu. apply (Hul x Hu). by left. }
  rewrite bind_Ret. eexists. split; [done|].
  constructor; simpl; try done.
  - intros x. rewrite Hcov, Hmem. tauto.
  - intros x Hx. rewrite Hmem. intros [Hy|Hy]; [by apply (Hmu x)|]. apply (Hml x Hx). by left.
  - intros x Hx Hy. apply (Hml x Hx). by right.
  - intros x Hx Hy. apply Hmem in Hx as [Hx|Hx]; [apply (Hul x Hx); by right|by apply (Hd1 x Hx)].
Qed.

(** The order of the leases does not matter. *)
Lemma pool_inv_perm net s ls ls' : ls ≡ₚ ls' → pool_inv net (mkPool s ls) → pool_inv net (mkPool s ls').
Proof.
  intros Hp [? ? Ho Hc ? Hm Hu Hd]. split; cbn in *; try done.
  - by rewrite <- Hp.
  - intros x. rewrite <- Hp. apply Hc.
  - intros x. rewrite <- Hp. apply Hm.
  - intros x. rewrite <- Hp. apply Hu.
  - by rewrite <- Hp.
Qed.

Lemma step_inv net st st' : pool_inv net st → pool_step st st' → pool_inv net st'.
Proof.
  intros Hinv Hstep. destruct Hstep as [s m s' l ls Hm E|s m s' ls Hm E|s s' l ls ls' Hp E].
  - destruct (lease_spec net s ls m Hinv Hm) as (? & ? & E' & H). rewrite E in E'.
    injection E' as <- <-. by destruct H.
  - destruct (lease_spec net s ls m Hinv Hm) as (? & ? & E' & H). rewrite E in E'.
    injection E' as <- <-. by destruct H.
  - destruct (drop_spec net s ls l ls' Hinv Hp) as (? & E' & H). rewrite E in E'.
    by injection E' as <-.
Qed.

Lemma reachable_inv net st : net_ok net → pool_reachable net st → pool_inv net st.
Proof.
  intros Hn (s & Hs & Hr). destruct (pool_new_spec net Hn) as (s0 & Hs0 & H0).
  rewrite Hs in Hs0. injection Hs0 as <-.
  revert H0. induction Hr as [|x y z Hstep _ IH]; intros H0; [done|].
  apply IH. by eapply step_inv.
Qed.

(** ** Properties *)

(** C1: in every reachable state of a pool, the live leases are canonical
    subnets, lie inside the pool's network and share no address: an address is
    never leased twice. *)
Theorem leases_exclusive net st : net_ok net → pool_reachable net st →
  (∀ l, l ∈ live st → net_canonical (net_address l) ∧ ∀ x, covers l x → in_pool net x) ∧
  (∀ i j l l' x, live st !! i = Some l → live st !! j = Some l' → i ≠ j →
     covers l x → ¬ covers l' x).
Proof.
  intros Hn Hr. destruct (reachable_inv net st Hn Hr) as [_ _ Hok Hcov _ _ _ Hd]. split.
  - intros l Hl. rewrite Forall_forall in Hok. split; [by apply Hok|].
    intros x Hx. apply Hcov. right; right. by exists l.
  - intros i j l l' x Hi Hj Hne. by apply (leases_disjoint_lookup (live st) i j).
Qed.

(** C2: in every reachable state, leasing any mask and dropping any live lease
    run to completion (no internal assertion of the tries fires), and leasing
    answers [Unavailable] exactly when no aligned block of the asked size is
    free of live leases inside the pool: freed space is never stranded. *)
Theorem lease_complete net st m : net_ok net → pool_reachable net st → 0 ≤ m ≤ 64 →
  (∃ s' r, lease (free st) m = Ret (s', r) ∧
     (r = Err Unavailable ↔
        ∀ a, aligned a (64 - m) →
          ¬ ∀ x, in_block a (64 - m) x → in_pool net x ∧ ¬ leased (live st) x)) ∧
  (∀ l, l ∈ live st → ∃ s', lease_drop (free st) l = Ret s').
Proof.
  intros Hn Hr Hm. pose proof (reachable_inv net st Hn Hr) as Hinv. destruct st as [s ls]. simpl. split.
  - destruct (lease_spec net s ls m Hinv Hm) as (s' & r & E & H). exists s', r. split; [done|].
    destruct r as [l|[]]; [|by destruct H].
    split; [done|]. intros Hno. exfalso. destruct H as [[_ _ Hok Hcov _ _ _ Hd] Hl]. simpl in *.
    apply Forall_cons in Hok as [[_ Hc] _]. apply canonical_aligned in Hc. rewrite Hl in Hc.
    apply (Hno _ Hc). intros x Hx.
    assert (Hx' : covers l x) by (unfold covers, net_contains; by rewrite Hl).
    split; [apply Hcov; right; right; apply leased_cons; by left|]. by apply Hd.
  - intros l Hl. apply list_elem_of_split in Hl as (l1 & l2 & ->).
    destruct (drop_spec net s _ l (l1 ++ l2) Hinv) as (s' & -> & _); [|eauto].
    by rewrite Permutation_middle.
Qed.

(** once every lease has been dropped the pool is whole again: a lease of
    the pool's own mask succeeds and is the pool's canonical network, whatever
    was leased and dropped before. *)
Theorem pool_restored net s : net_ok net → pool_reachable net (mkPool s []) →
  ∃ s' a, lease s (mask net) = Ret (s', Ok (mkLease (mkNet a (mask net)) Linked)) ∧
    a = 2 ^ (64 - mask net) * (address net / 2 ^ (64 - mask net)).
Proof.
  intros Hn Hr. pose proof (reachable_inv net _ Hn Hr) as Hinv. destruct Hn as [Ha Hm].
  destruct (lease_spec net s [] (mask net) Hinv Hm) as (s' & r & E & H).
  pose proof (aligned_round (address net) (64 - mask net) ltac:(done) ltac:(lia)) as Hal.
  destruct r as [l|[]].
  - destruct H as [[_ _ Hok Hcov _ _ _ _] Hl]. simpl in *. apply Forall_cons in Hok as [[Hs Hc] _].
    destruct l as [[a m] w]. simpl in *. subst. exists s', a. split; [done|].
    apply canonical_aligned in Hc. simpl in Hc. destruct Hc as (_ & _ & [q ->]).
    pose proof (pow2_pos (64 - mask net) ltac:(lia)). set (h := 64 - mask net) in *.
    assert (Hx : in_pool net (q * 2 ^ h)).
    { apply Hcov. right; right. apply leased_cons. left. unfold covers, net_contains. simpl.
      fold h. lia. }
    unfold in_pool, in_block in Hx. fold h in Hx.
    enough (q = address net / 2 ^ h) by (subst q; ring).
    generalize dependent (address net / 2 ^ h). intros d Hx. clear - H Hx.
    generalize dependent (2 ^ h). nia.
  - destruct H as [_ H]. exfalso. apply (H _ Hal). intros x Hx. split; [exact Hx|apply leased_nil].
Qed.

(** ** Runs *)

Definition test_net : NetAddress := mkNet 0 63.

Definition run_halves : outcome (Shared * Shared * Lease) :=
  s ← pool_new test_net;
  '(s1, r) ← lease s 64;
  match r with
  | Ok l => s2 ← lease_drop s1 l; Ret (s1, s2, l)
  | Err _ => Panic
  end.

(** The regression test [lease_reuses_coalesced_halves]. *)
Example lease_reuses_coalesced_halves :
  ('(_, s2, _) ← run_halves; '(_, r) ← lease s2 63; Ret (is_ok r)) = Ret true.
Proof. vm_compute. reflexivity. Qed.

(** The test [pool_normalizes_noncanonical_network_address]. *)
Example pool_normalizes_noncanonical :
  (s ← pool_new (mkNet 1 60); '(_, r) ← lease s 64; Ret r) = Ret (Ok (mkLease (mkNet 0 64) Linked)).
Proof. vm_compute. reflexivity. Qed.

Definition leased_state : PoolState :=
  match run_halves with
  | Ret (s1, _, l) => mkPool s1 [l]
  | Panic => mkPool (mkShared Trie.empty Trie.empty) []
  end.

Definition dropped_state : PoolState :=
  match run_halves with
  | Ret (_, s2, _) => mkPool s2 []
  | Panic => mkPool (mkShared Trie.empty Trie.empty) []
  end.

Lemma leased_reachable : pool_reachable test_net leased_state.
Proof.
  eexists. split; [vm_compute; reflexivity|]. eapply rtc_l; [|apply rtc_refl].
  unfold leased_state. apply (step_lease _ 64); [lia|]. vm_compute. reflexivity.
Qed.

Lemma dropped_reachable : pool_reachable test_net dropped_state.
Proof.
  destruct leased_reachable as (s & Hs & Hr). exists s. split; [done|].
  eapply rtc_r; [exact Hr|]. unfold leased_state, dropped_state.
  apply (step_drop _ _ (mkLease (mkNet 0 64) Linked) _ []); [reflexivity|]. vm_compute. reflexivity.
Qed.

Lemma test_net_ok : net_ok test_net.
Proof. unfold net_ok, u64_ok, test_net. cbn [address mask]. lia. Qed.

Lemma leases_exclusive_witness :
  length (live leased_state) = 1%nat ∧ ∀ l, l ∈ live leased_state → net_canonical (net_address l).
Proof.
  split; [vm_compute; reflexivity|].
  intros l Hl. exact (proj1 (proj1 (leases_exclusive test_net leased_state test_net_ok leased_reachable) l Hl)).
Defined.

Lemma lease_complete_witness : net_ok test_net ∧
  ∀ l, l ∈ live leased_state → ∃ s', lease_drop (free leased_state) l = Ret s'.
Proof.
  split; [exact test_net_ok|]. assert (Hm : 0 ≤ 63 ≤ 64) by lia.
  exact (proj2 (lease_complete test_net leased_state 63 test_net_ok leased_reachable Hm)).
Defined.

Lemma pool_restored_witness : ∃ s' a,
  lease (free dropped_state) 63 = Ret (s', Ok (mkLease (mkNet a 63) Linked)) ∧ a = 0.
Proof. exact (pool_restored test_net (free dropped_state) test_net_ok dropped_reachable). Defined.
