(* ===== verification/Restart.v ===== *)
(** * Restart intensity (components/mm1-sup/src/common/restart_intensity.rs)

    How many exits a supervisor tolerates within a sliding window of time. *)

From S2P Require Import Prelude.

Open Scope Z_scope.

(** Instants and durations in nanoseconds. An [Instant] holds its seconds as an
    [i64]; a [Duration] holds them as a [u64]. *)
Abbreviation Instant := Z.
Abbreviation Duration := Z.

Definition NANOS : Z := 1000000000.
Definition INSTANT_MIN : Z := - 2 ^ 63 * NANOS.
Definition DURATION_MAX : Z := 2 ^ 64 * NANOS - 1.
Definition ISIZE_MAX : Z := 2 ^ 63 - 1.

(** [Instant::checked_sub] *)
Definition instant_checked_sub (t : Instant) (d : Duration) : option Instant :=
  if INSTANT_MIN <=? t - d then Some (t - d) else None.

(** The latest instant, and [Instant::checked_add]. *)
Definition INSTANT_MAX : Z := 2 ^ 63 * NANOS - 1.
Definition instant_checked_add (t : Instant) (d : Duration) : option Instant :=
  if t + d <=? INSTANT_MAX then Some (t + d) else None.

(** [Instant::saturating_duration_since] *)
Definition saturating_duration_since (later earlier : Instant) : Duration := Z.max 0 (later - earlier).

(** The size of an [Instant] in a [Vec]. *)
Definition INSTANT_SIZE : Z := 16.

Record RestartIntensity := mkRI { max_restarts : Z; within : Duration }.

(** [struct RestartStats(Vec<Instant>)] *)
Abbreviation RestartStats := (list Instant).

(** [RestartIntensity::new_stats]: [Vec::with_capacity] panics when the
    capacity in bytes exceeds [isize::MAX]. *)
Definition new_stats (ri : RestartIntensity) : outcome RestartStats :=
  assert_ ((max_restarts ri + 1) * INSTANT_SIZE <=? ISIZE_MAX);;
  Ret [].

Inductive MaxRestartIntensityReached := MaxRestartIntensityReached_.

#[export] Instance MaxRestartIntensityReached_eq_dec : EqDecision MaxRestartIntensityReached.
Proof. solve_decision. Defined.

Definition t_cutoff (ri : RestartIntensity) (now : Instant) : Instant :=
  default now (instant_checked_sub now (within ri)).

(** [RestartIntensity::report_exit] *)
Definition report_exit (ri : RestartIntensity) (stats : RestartStats) (now : Instant) :
  RestartStats * result unit MaxRestartIntensityReached :=
  let stats := filter (λ t, t_cutoff ri now ≤ t) stats in
  let stats := stats ++ [now] in
  (stats,
   if max_restarts ri <? Z.of_nat (length stats)
   then Err MaxRestartIntensityReached_ else Ok tt).

(** [RestartIntensity::default] *)
Definition restart_intensity_default : RestartIntensity := mkRI 0 DURATION_MAX.

(** The statistics after exits reported at the times [ts]. *)
Definition report_all (ri : RestartIntensity) (ts : list Instant) : RestartStats :=
  foldl (λ stats t, fst (report_exit ri stats t)) [] ts.

(** The exits of [ts] inside the window that ends at [now]. *)
Definition in_window (ri : RestartIntensity) (now : Instant) (ts : list Instant) : list Instant :=
  filter (λ t, now - within ri ≤ t) ts.

(** Time does not go backwards. *)
Fixpoint monotone (ts : list Instant) : Prop :=
  match ts with
  | t :: (t' :: _) as ts' => t ≤ t' ∧ monotone ts'
  | _ => True
  end.

Lemma monotone_snoc ts t t' : monotone ((ts ++ [t]) ++ [t']) → monotone (ts ++ [t]) ∧ t ≤ t'.
Proof.
  induction ts as [|a ts IH]; simpl; [tauto|]. destruct ts as [|b ts]; simpl in *; tauto.
Qed.

Lemma monotone_head ts t t' : monotone (t :: ts ++ [t']) → t ≤ t'.
Proof.
  revert t. induction ts as [|a ts IH]; simpl; intros t; [tauto|].
  intros [H1 H2]. specialize (IH a H2). lia.
Qed.

Lemma t_cutoff_exact ri now : INSTANT_MIN ≤ now - within ri → t_cutoff ri now = now - within ri.
Proof. intros H. unfold t_cutoff, instant_checked_sub. by destruct (Z.leb_spec INSTANT_MIN (now - within ri)); [|lia]. Qed.

Lemma filter_window_trans ri t now ts : t ≤ now →
  filter (λ x, now - within ri ≤ x) (in_window ri t ts) = in_window ri now ts.
Proof.
  intros Hle. unfold in_window. rewrite list_filter_filter. apply list_filter_iff. intros x. lia.
Qed.

Section Window.
Variables (ri : RestartIntensity) (t0 : Instant).
Hypothesis Hmin : INSTANT_MIN ≤ t0 - within ri.

(** The kept statistics are exactly the exits inside the window. *)
Lemma report_all_window ts now : monotone (t0 :: ts ++ [now]) →
  report_all ri (ts ++ [now]) = in_window ri now ts ++ [now].
Proof.
  revert now. induction ts as [|t ts IH] using rev_ind; intros now Hm.
  - done.
  - rewrite app_comm_cons in Hm. pose proof (monotone_head _ _ _ Hm) as H0.
    apply (monotone_snoc (t0 :: ts)) in Hm as [Hm Hle]. specialize (IH t Hm).
    unfold report_all in *. rewrite foldl_app, IH. cbn [foldl report_exit fst].
    rewrite t_cutoff_exact by lia. rewrite filter_app, filter_window_trans by done.
    f_equal. unfold in_window at 2. by rewrite filter_app.
Qed.

End Window.

(** C37: after any history of exits, none later than the next and the window before the first within the range of the clock
    (which leaves out the default, whose window is the longest duration there is), a further exit exceeds the restart
    intensity exactly when more than [max_restarts] exits, the new one included,
    happened within the last [within] nanoseconds: the pruned statistics are
    equivalent to counting the whole history. *)
Theorem report_exit_counts ri ts now :
  INSTANT_MIN ≤ hd now ts - within ri → 0 ≤ within ri → monotone (ts ++ [now]) →
  snd (report_exit ri (report_all ri ts) now) = Err MaxRestartIntensityReached_ ↔
  max_restarts ri < Z.of_nat (length (in_window ri now (ts ++ [now]))).
Proof.
  intros Hmin Hw Hm.
  assert (E : fst (report_exit ri (report_all ri ts) now) = in_window ri now (ts ++ [now])).
  { change (fst (report_exit ri (report_all ri ts) now))
      with (foldl (λ stats t, fst (report_exit ri stats t)) (report_all ri ts) [now]).
    unfold report_all. rewrite <- foldl_app. fold (report_all ri (ts ++ [now])).
    rewrite (report_all_window ri (hd now ts)).
    - unfold in_window at 2. rewrite filter_app. f_equal. by rewrite filter_cons_True by lia.
    - done.
    - destruct ts as [|t ts]; cbn [hd app] in *; cbn; [lia|]. by split; [lia|]. }
  unfold report_exit in *. cbn [fst snd] in *. rewrite E.
  destruct (Z.ltb_spec (max_restarts ri) (Z.of_nat (length (in_window ri now (ts ++ [now])))));
    split; intros; try done; lia.
Qed.

(** Three exits in ten seconds exceed an intensity of two in ten seconds. *)
Lemma report_exit_counts_witness :
  snd (report_exit (mkRI 2 10) (report_all (mkRI 2 10) [100; 105]) 110) = Err MaxRestartIntensityReached_.
Proof.
  apply (report_exit_counts (mkRI 2 10) [100; 105] 110).
  - vm_compute. discriminate.
  - simpl. lia.
  - simpl. lia.
  - vm_compute. reflexivity.
Defined.

(** Times strictly increase. *)
Fixpoint strictly (ts : list Instant) : Prop :=
  match ts with
  | t :: (t' :: _) as ts' => t < t' ∧ strictly ts'
  | _ => True
  end.

Lemma strictly_snoc ts t t' : strictly ((ts ++ [t]) ++ [t']) → strictly (ts ++ [t]) ∧ t < t'.
Proof.
  induction ts as [|a ts IH]; simpl; [tauto|]. destruct ts as [|b ts]; simpl in *; tauto.
Qed.

Lemma t_cutoff_underflow ri now : now - within ri < INSTANT_MIN → t_cutoff ri now = now.
Proof. intros H. unfold t_cutoff, instant_checked_sub. by destruct (Z.leb_spec INSTANT_MIN (now - within ri)); [lia|]. Qed.

Lemma report_all_underflow ri ts now :
  Forall (λ t, t - within ri < INSTANT_MIN) (ts ++ [now]) → strictly (ts ++ [now]) →
  report_all ri (ts ++ [now]) = [now].
Proof.
  revert now. induction ts as [|t ts IH] using rev_ind; intros now Hf Hs; [done|].
  apply strictly_snoc in Hs as [Hs Hlt]. apply Forall_app in Hf as [Hf Hn].
  specialize (IH t Hf Hs). unfold report_all in *. rewrite foldl_app, IH. cbn [foldl report_exit fst].
  apply Forall_cons in Hn as [Hn _]. rewrite t_cutoff_underflow by exact Hn.
  rewrite filter_cons_False by lia. done.
Qed.

(** when the window reaches back beyond the earliest representable instant
    (as the default [Duration::MAX] does), the cutoff falls back to the present
    instead of the beginning of time, so earlier exits are forgotten: with
    [max_restarts] at least one, exits at increasing times never exceed the
    intensity, however many there are. *)
Theorem report_exit_unbounded_window ri ts now : 1 ≤ max_restarts ri →
  Forall (λ t, t - within ri < INSTANT_MIN) (ts ++ [now]) → strictly (ts ++ [now]) →
  snd (report_exit ri (report_all ri ts) now) = Ok tt.
Proof.
  intros Hm Hf Hs. pose proof (report_all_underflow ri ts now Hf Hs) as E.
  unfold report_all in E. rewrite foldl_app in E. cbn [foldl] in E. fold (report_all ri ts) in E.
  unfold report_exit in *. cbn [fst snd] in *. rewrite E.
  destruct (Z.ltb_spec (max_restarts ri) (Z.of_nat (length [now]))); [simpl in *; lia|done].
Qed.

Lemma report_exit_unbounded_window_witness :
  snd (report_exit (mkRI 1 DURATION_MAX) (report_all (mkRI 1 DURATION_MAX) [1; 2; 3; 4]) 5) = Ok tt.
Proof.
  apply report_exit_unbounded_window.
  - simpl. lia.
  - repeat constructor.
  - simpl. lia.
Defined.
