(* ===== verification/Common.v ===== *)
(** * Shared utilities (libs/mm1-common/src: serde.rs, metrics.rs, futures/catch_panic.rs, errors/chain.rs, errors/error_of.rs)

    Bytes as text, and wrappers of futures: one that measures, one that turns a panic into a value. A future is a machine: each
    poll takes it to a new state and is pending, ready or panics. *)

From stdpp Require Import strings.
From Stdlib Require Import Ascii.
From S2P Require Import Prelude Restart.

Open Scope Z_scope.

(** ** Bytes in hexadecimal (serde.rs, [binary]) *)
Definition code (c : ascii) : Z := Z.of_nat (nat_of_ascii c).
Definition chr (z : Z) : ascii := ascii_of_nat (Z.to_nat z).

Definition hex_digit (d : Z) : ascii := chr (if d <? 10 then 48 + d else 87 + d).

(** [to_hex]: [format!("{:02x}", b)] of each byte *)
Definition to_hex (bytes : list Z) : list ascii := bytes ≫= λ b, [hex_digit (b / 16); hex_digit (b mod 16)].

(** [char::to_digit(16)] *)
Definition to_digit (c : ascii) : option Z :=
  let x := code c in
  if (48 <=? x) && (x <=? 57) then Some (x - 48)
  else if (97 <=? x) && (x <=? 102) then Some (x - 87)
  else if (65 <=? x) && (x <=? 70) then Some (x - 55)
  else None.

(** [u8::from_str_radix(.., 16)]: a sign in front of a digit is taken off; no two digits overflow. *)
Fixpoint digits_loop (acc : Z) (s : list ascii) : option Z :=
  match s with
  | [] => Some acc
  | c :: s => match to_digit c with Some d => let acc := 16 * acc + d in if acc <=? 255 then digits_loop acc s else None | None => None end
  end.

Definition u8_from_str_radix16 (s : list ascii) : option Z :=
  match s with
  | [] => None
  | [c] => if Ascii.eqb c "+"%char || Ascii.eqb c "-"%char then None else digits_loop 0 s
  | c :: rest => if Ascii.eqb c "+"%char then digits_loop 0 rest else digits_loop 0 s
  end.

Inductive HexError := OddLength | NotAscii | BadPair.

Fixpoint from_pairs (s : list ascii) : result (list Z) HexError :=
  match s with
  | c :: c' :: s =>
      match u8_from_str_radix16 [c; c'] with
      | None => Err BadPair
      | Some b => match from_pairs s with Ok bs => Ok (b :: bs) | Err e => Err e end
      end
  | _ => Ok []
  end.

(** [from_hex] *)
Definition from_hex (s : list ascii) : result (list Z) HexError :=
  if negb (Nat.even (length s)) then Err OddLength
  else if negb (forallb (λ c, code c <? 128) s) then Err NotAscii
  else from_pairs s.

(** [serialize] and [deserialize]: text in a readable format, bytes otherwise. What was written as bytes is read as a sequence of
    numbers; [seq_of_bytes] is what the format makes of that. *)
Inductive Encoded := Text (s : list ascii) | Bytes (bs : list Z).
Definition serialize (human_readable : bool) (bin : list Z) : Encoded := if human_readable then Text (to_hex bin) else Bytes bin.
Definition deserialize (seq_of_bytes : list Z → option (list Z)) (human_readable : bool) (e : Encoded) : option (list Z) :=
  match human_readable, e with
  | true, Text s => match from_hex s with Ok bs => Some bs | Err _ => None end
  | false, Bytes bs => seq_of_bytes bs
  | _, _ => None
  end.

Lemma code_chr z : 0 ≤ z < 256 → code (chr z) = z.
Proof. intros Hz. unfold code, chr. rewrite nat_ascii_embedding by lia. lia. Qed.

Lemma hex_digit_code d : 0 ≤ d < 16 → code (hex_digit d) = if d <? 10 then 48 + d else 87 + d.
Proof. intros Hd. unfold hex_digit. apply code_chr. case_Zb; lia. Qed.

Lemma to_digit_hex d : 0 ≤ d < 16 → to_digit (hex_digit d) = Some d.
Proof.
  intros Hd. unfold to_digit. rewrite hex_digit_code by done. destruct (Z.ltb_spec d 10); case_Zb; cbn; try lia; f_equal; lia.
Qed.

Lemma hex_digit_not_sign d : 0 ≤ d < 16 → Ascii.eqb (hex_digit d) "+"%char = false.
Proof.
  intros Hd. apply Ascii.eqb_neq. intros E. apply (f_equal code) in E. rewrite hex_digit_code in E by done.
  change (code "+"%char) with 43 in E. destruct (Z.ltb_spec d 10); lia.
Qed.

Lemma pair_roundtrip b : 0 ≤ b < 256 → u8_from_str_radix16 [hex_digit (b / 16); hex_digit (b mod 16)] = Some b.
Proof.
  intros Hb. assert (0 ≤ b / 16 < 16) as Hh by (split; [apply Z.div_pos; lia | apply Z.div_lt_upper_bound; lia]).
  pose proof (Z.mod_pos_bound b 16 eq_refl) as Hm. pose proof (Z.div_mod b 16 ltac:(lia)) as Hd.
  unfold u8_from_str_radix16. rewrite hex_digit_not_sign by done. cbn [digits_loop]. rewrite !to_digit_hex by done.
  rewrite (proj2 (Z.leb_le (16 * 0 + b / 16) 255)) by lia. rewrite (proj2 (Z.leb_le _ _)) by lia. f_equal. lia.
Qed.

Lemma to_hex_cons b bin : to_hex (b :: bin) = hex_digit (b / 16) :: hex_digit (b mod 16) :: to_hex bin.
Proof. done. Qed.

Lemma to_hex_even bin : Nat.even (length (to_hex bin)) = true.
Proof. induction bin; [done|]. by rewrite to_hex_cons. Qed.

(** What [serialize] writes in a readable format [deserialize] reads back, whatever the bytes; in another format it is up to the format,
    which is asked to write bytes and to read a sequence. *)
Theorem binary_roundtrip seq_of_bytes human_readable bin :
  Forall (λ b, 0 ≤ b < 256) bin →
  deserialize seq_of_bytes human_readable (serialize human_readable bin) = if human_readable then Some bin else seq_of_bytes bin.
Proof.
  intros Hb. destruct human_readable; [|done]. unfold serialize, deserialize, from_hex.
  rewrite to_hex_even. cbn [negb].
  assert (forallb (λ c, code c <? 128) (to_hex bin) = true ∧ from_pairs (to_hex bin) = Ok bin) as [-> ->]; [|done].
  induction Hb as [|b bin Hb _ [IH1 IH2]]; [done|].
  assert (0 ≤ b / 16 < 16) as Hh by (split; [apply Z.div_pos; lia | apply Z.div_lt_upper_bound; lia]).
  pose proof (Z.mod_pos_bound b 16 eq_refl) as Hm. rewrite to_hex_cons. cbn [forallb from_pairs].
  rewrite pair_roundtrip, IH1, IH2, !hex_digit_code by done. split; [|done].
  rewrite !andb_true_iff, !Z.ltb_lt. destruct (Z.ltb_spec (b / 16) 10), (Z.ltb_spec (b mod 16) 10); split_and!; lia || done.
Qed.

(** A pair may also be a sign and a digit: such text is read although nothing writes it. *)
Theorem hex_accepts_sign : from_hex ["+"%char; "f"%char] = Ok [15].
Proof. reflexivity. Qed.

(** ** Futures *)
Inductive PollResult (Out Info : Type) := Pending | Ready (out : Out) | Panicked (info : Info).
Arguments Pending {Out Info}.
Arguments Ready {Out Info}.
Arguments Panicked {Out Info}.

(** The payload of a panic: a static string, a string, or anything else *)
Inductive PanicInfo := StaticStr (s : string) | AString (s : string) | Other.

(** ** [CatchPanic] *)
Definition panic_text (i : PanicInfo) : string :=
  match i with StaticStr s => s | AString s => s | Other => "<non-string panic payload>" end.

Definition catch_panic_poll {F Out} (poll : F → F * PollResult Out PanicInfo) (f : F) : F * PollResult (result Out string) Empty_set :=
  let '(f, r) := poll f in
  (f, match r with
      | Pending => Pending
      | Ready out => Ready (Ok out)
      | Panicked info => Ready (Err (panic_text info))
      end).

(** ** [MeasuredFuture] *)
Record Measurements := mkMeas { first_poll : option Instant; last_poll : option Instant; busy_time : Duration; wait_time : Duration }.
Definition measurements_default : Measurements := mkMeas None None 0 0.

(** Counters, and what has been recorded in the histograms *)
Record Metrics := mkMetrics { poll_count : Z; done_count : Z; busy_rec : list Duration; wait_rec : list Duration; wall_rec : list Duration }.

Record Measured (F : Type) := mkMeasured { inner : F; metrics : Metrics; measurements : Measurements }.
Arguments mkMeasured {F}.
Arguments inner {F}.
Arguments metrics {F}.
Arguments measurements {F}.

Definition measured_new {F} (f : F) (m : Metrics) : Measured F := mkMeasured f m measurements_default.

(** [duration += d] *)
Definition duration_add (x d : Duration) : outcome Duration := assert_ (x + d <=? DURATION_MAX);; Ret (x + d).

Section Measured.
Context {F Out : Type} (poll : F → F * PollResult Out Empty_set).

(** [MeasuredFuture::poll], between the two readings of the clock *)
Definition measured_poll (m : Measured F) (t_start t_end : Instant) : outcome (Measured F * PollResult Out Empty_set) :=
  let mt := metrics m in
  let ms := measurements m in
  wait ← match last_poll ms with
         | Some last => duration_add (wait_time ms) (saturating_duration_since t_start last)
         | None => Ret (wait_time ms)
         end;
  let first := default t_start (first_poll ms) in
  let '(f, r) := poll (inner m) in
  busy ← duration_add (busy_time ms) (saturating_duration_since t_end t_start);
  let ms := mkMeas (Some first) (Some t_end) busy wait in
  Ret (match r with
       | Ready _ => mkMeasured f (mkMetrics (poll_count mt + 1) (done_count mt + 1) (busy_rec mt ++ [busy]) (wait_rec mt ++ [wait])
                                    (wall_rec mt ++ [saturating_duration_since t_end first])) ms
       | _ => mkMeasured f (mkMetrics (poll_count mt + 1) (done_count mt) (busy_rec mt) (wait_rec mt) (wall_rec mt)) ms
       end, r).

(** The polls of a future until it is ready *)
Fixpoint measured_polls (m : Measured F) (times : list (Instant * Instant)) : outcome (Measured F * option Out) :=
  match times with
  | [] => Ret (m, None)
  | (t_start, t_end) :: times =>
      '(m, r) ← measured_poll m t_start t_end;
      match r with Ready out => Ret (m, Some out) | _ => measured_polls m times end
  end.

(** The future itself, and how many polls it takes *)
Fixpoint polls (f : F) (n : nat) : F * option Out * nat :=
  match n with
  | O => (f, None, O)
  | S n => let '(f, r) := poll f in match r with Ready out => (f, Some out, 1%nat) | _ => let '(f, o, k) := polls f n in (f, o, S k) end
  end.

(** A clock that does not go back *)
Fixpoint ordered (t : Instant) (times : list (Instant * Instant)) : Prop :=
  match times with [] => True | (a, b) :: times => t ≤ a ≤ b ∧ ordered b times end.

Definition recorded (m m' : Metrics) (n : Z) (done : bool) : Prop :=
  poll_count m' = poll_count m + n ∧
  if done then done_count m' = done_count m + 1 ∧
    ∃ busy wait, busy_rec m' = busy_rec m ++ [busy] ∧ wait_rec m' = wait_rec m ++ [wait] ∧ wall_rec m' = wall_rec m ++ [busy + wait]
  else done_count m' = done_count m ∧ busy_rec m' = busy_rec m ∧ wait_rec m' = wait_rec m ∧ wall_rec m' = wall_rec m.

(** [t0] is the first reading of the clock, [t] the last. *)
Lemma measured_from t0 t m times :
  first_poll (measurements m) = Some t0 → last_poll (measurements m) = Some t → t0 ≤ t →
  busy_time (measurements m) + wait_time (measurements m) = t - t0 → 0 ≤ busy_time (measurements m) → 0 ≤ wait_time (measurements m) →
  ordered t times → Forall (λ x, x.2 - t0 ≤ DURATION_MAX) times →
  ∃ m', measured_polls m times = Ret (m', (polls (inner m) (length times)).1.2) ∧ inner m' = (polls (inner m) (length times)).1.1 ∧
    recorded (metrics m) (metrics m') (Z.of_nat (polls (inner m) (length times)).2) (match (polls (inner m) (length times)).1.2 with Some _ => true | None => false end).
Proof.
  revert t m. induction times as [|[a b] times IH]; intros t m Hf Hl Ht Hs Hb Hw Ho Hd; [exists m; unfold recorded; cbn; split_and!; done || lia|].
  destruct Ho as [Hab Ho]. apply Forall_cons in Hd as [Hmax Hd]. cbn [snd] in Hmax. cbn [measured_polls length polls].
  unfold measured_poll. rewrite Hf, Hl. cbn [from_option id].
  unfold saturating_duration_since. rewrite (Z.max_r 0 (a - t)), (Z.max_r 0 (b - a)), (Z.max_r 0 (b - t0)) by lia.
  unfold duration_add. rewrite (proj2 (Z.leb_le (wait_time _ + _) _)) by lia. cbn [assert_ mbind outcome_bind].
  destruct (poll (inner m)) as [f r]. rewrite (proj2 (Z.leb_le (busy_time _ + _) _)) by lia. cbn [assert_ mbind outcome_bind].
  destruct r as [|out|[]].
  - edestruct (IH b) as (m' & E & Ei & Hr); cycle -1; [exists m'; rewrite E; cbn [inner] in *|cbn; done || lia..].
    destruct (polls f (length times)) as [[f' o] k]. cbn [fst snd] in *. split; [done|]. split; [done|].
    destruct Hr as [Hp Hr]. cbn [metrics poll_count done_count busy_rec wait_rec wall_rec] in *. split; [lia | exact Hr].
  - eexists. split; [done|]. split; [done|]. split; [done|]. split; [done|].
    exists (busy_time (measurements m) + (b - a)), (wait_time (measurements m) + (a - t)). split_and!; [done | done|]. cbn. do 2 f_equal. lia.
Qed.

(** Measuring a future changes neither its result nor its progress; under a clock that does not go back, every poll is counted, and when the
    future is done the recorded wall-clock time is the time it was busy plus the time it waited. *)
Theorem measured_transparent f mt t times :
  ordered t times → Forall (λ x, x.2 - t ≤ DURATION_MAX) times →
  ∃ m', measured_polls (measured_new f mt) times = Ret (m', (polls f (length times)).1.2) ∧ inner m' = (polls f (length times)).1.1 ∧
    recorded mt (metrics m') (Z.of_nat (polls f (length times)).2) (match (polls f (length times)).1.2 with Some _ => true | None => false end).
Proof.
  intros Ho Hd. destruct times as [|[a b] times]; [eexists; split; [done|]; split; [done|]; unfold recorded; cbn; split_and!; done || lia|].
  destruct Ho as [Hab Ho]. apply Forall_cons in Hd as [Hmax Hd]. cbn [snd] in Hmax. cbn [measured_polls length polls].
  unfold measured_poll, measured_new. cbn [measurements measurements_default last_poll first_poll wait_time busy_time inner metrics from_option id mbind outcome_bind].
  destruct (poll f) as [f1 r]. unfold duration_add, saturating_duration_since. rewrite (Z.max_r 0 (b - a)) by lia.
  rewrite (proj2 (Z.leb_le (0 + _) _)) by lia. cbn [assert_ mbind outcome_bind]. destruct r as [|out|[]].
  - edestruct (measured_from a b) as (m' & E & Ei & Hr); cycle -1; [exists m'; rewrite E; cbn [inner] in *|cbn; done || lia..|].
    + destruct (polls f1 (length times)) as [[f' o] k]. cbn [fst snd] in *. split; [done|]. split; [done|].
      destruct Hr as [Hp Hr]. cbn [metrics poll_count done_count busy_rec wait_rec wall_rec] in *. split; [lia | exact Hr].
    + eapply Forall_impl; [exact Hd|]. cbn. intros x Hx. lia.
  - eexists. split; [done|]. split; [done|]. split; [done|]. split; [done|].
    exists (0 + (b - a)), 0. split_and!; [done | done|]. cbn. do 2 f_equal. lia.
Qed.
End Measured.

(** ** Chains of errors (errors/chain.rs) *)

(** An error and its sources, from the outermost *)
Definition std_chain (e : string) (sources : list string) : string :=
  foldl (λ acc s, (acc +:+ " << " +:+ s)%string) e sources.
Definition any_chain (chain : list string) : string :=
  match chain with
  | [] => ""
  | e :: sources => foldl (λ acc s, (acc +:+ "<< " +:+ s)%string) e sources
  end.

(** The two renderings of the same chain differ by a space. *)
Theorem chains_differ : std_chain "outer" ["inner"] = "outer << inner" ∧ any_chain ["outer"; "inner"] = "outer<< inner".
Proof. done. Qed.

(** ** [ErrorOf] *)
Record ErrorOf (K : Type) := mkErrorOf { err_kind : K; err_message : string }.
Arguments mkErrorOf {K}.
Arguments err_kind {K}.
Arguments err_message {K}.
Definition map_kind {K0 K1} (map : K0 → K1) (e : ErrorOf K0) : ErrorOf K1 :=
  let '(mkErrorOf kind message) := e in mkErrorOf (map kind) message.
