(* ===== verification/Decider.v ===== *)
(** * The decider interface of mixed supervisors
    (components/mm1-sup/src/mixed/decider.rs, mixed.rs, mixed/strategy/error.rs)

    A decider keeps the states of a supervisor's children, is told what happens
    to them and answers with the next action. Here: the shared data, the trait
    as a class, and the searches over a [Vec<(K, State)>] its implementations
    share. *)

From S2P Require Import Prelude Restart.

Open Scope Z_scope.

Inductive ChildType := Permanent | Transient | Temporary.
#[export] Instance ChildType_eq_dec : EqDecision ChildType.
Proof. solve_decision. Defined.

Inductive DeciderError := DuplicateKey | KeyNotFound | Unsupported.
#[export] Instance DeciderError_eq_dec : EqDecision DeciderError.
Proof. solve_decision. Defined.

Inductive Action (ID : Type) :=
| Noop
| InitDone
| Start (child_id : ID)
| Stop (address : Z) (child_id : option ID)
| Quit (normal_exit : bool).
Arguments Noop {ID}.
Arguments InitDone {ID}.
Arguments Start {ID} child_id.
Arguments Stop {ID} address child_id.
Arguments Quit {ID} normal_exit.

#[export] Instance Action_eq_dec {ID} `{EqDecision ID} : EqDecision (Action ID).
Proof. solve_decision. Defined.

(** [trait Decider]; a method that may panic yields an [outcome]. *)
Class Decider (D K : Type) := {
  d_add : D → K → ChildType → D * result unit DeciderError;
  d_rm : D → K → D * result unit DeciderError;
  d_started : D → K → Z → Instant → outcome D;
  d_exited : D → Z → bool → Instant → outcome D;
  d_failed : D → K → Instant → D;
  d_quit : D → bool → D;
  d_address : D → K → result (option Z) DeciderError;
  d_next_action : D → Instant → outcome (D * result (option (Action K)) DeciderError);
}.

(** The iteration order of a [HashSet<Address>] is unspecified: all that is
    known of [iter().next()] is that it yields an element, if there is one. *)
Class HashSetIter := {
  hs_next : gset Z → option Z;
  hs_next_elem X x : hs_next X = Some x → x ∈ X;
  hs_next_none X : hs_next X = None → X = ∅;
}.

Lemma hs_next_empty `{HashSetIter} : hs_next ∅ = None.
Proof.
  destruct (hs_next ∅) as [x|] eqn:Ex; [|done]. by apply hs_next_elem, not_elem_of_empty in Ex.
Qed.

(** An order that exists: the order of the set's elements in the model. *)
Definition elements_iter : HashSetIter.
Proof.
  refine {| hs_next := λ X, head (elements X) |}.
  - intros X x H. apply elem_of_elements. destruct (elements X); [done|].
    simpl in H. injection H as ->. apply list_elem_of_here.
  - intros X H. apply leibniz_equiv, elements_empty_inv. by destruct (elements X).
Defined.

(** ** Searches over the children *)
Section Find.
Context {S : Type} {K : Type}.

(** [states.iter().find_map(|x| p(x).then_some(..))] *)
Fixpoint find_state (p : K * S → bool) (l : list (K * S)) : option S :=
  match l with
  | [] => None
  | x :: l => if p x then Some x.2 else find_state p l
  end.

(** [*states.iter_mut().find_map(|x| p(x).then_some(..)) = v] *)
Fixpoint set_state (p : K * S → bool) (v : S) (l : list (K * S)) : list (K * S) :=
  match l with
  | [] => []
  | x :: l => if p x then (x.1, v) :: l else x :: set_state p v l
  end.

Lemma set_state_keys p v l : (set_state p v l).*1 = l.*1.
Proof. induction l as [|x l IH]; [done|]. cbn [set_state]. destruct (p x); csimpl; by rewrite ?IH. Qed.

(** The element found, and the list around it. *)
Lemma find_state_split p l s : find_state p l = Some s →
  ∃ l1 k l2, l = l1 ++ (k, s) :: l2 ∧ p (k, s) = true ∧
    (∀ x, x ∈ l1 → p x = false) ∧ ∀ v, set_state p v l = l1 ++ (k, v) :: l2.
Proof.
  induction l as [|[k0 s0] l IH]; simpl; [done|].
  destruct (p (k0, s0)) eqn:E.
  - intros [= ->]. exists [], k0, l. split_and!; try done. by intros x Hx%elem_of_nil.
  - intros (l1 & k & l2 & -> & Hp & Hn & Hs)%IH. exists ((k0, s0) :: l1), k, l2.
    split_and!; try done; [|intros v; by rewrite Hs].
    intros x [->|Hx]%elem_of_cons; auto.
Qed.

Lemma find_state_none p l : find_state p l = None → ∀ x, x ∈ l → p x = false.
Proof.
  induction l as [|y l IH]; simpl; intros H x Hx; [by apply elem_of_nil in Hx|].
  destruct (p y) eqn:E; [done|]. apply elem_of_cons in Hx as [->|Hx]; auto.
Qed.

Lemma find_state_exists p l x : x ∈ l → p x = true → ∃ s, find_state p l = Some s.
Proof.
  intros Hx Hp. destruct (find_state p l) eqn:E; [eauto|].
  by rewrite (find_state_none p l E x Hx) in Hp.
Qed.

(** The search finds an element that no earlier one hides. *)
Lemma find_state_here p l1 k s l2 : Forall (λ x, p x = false) l1 → p (k, s) = true →
  find_state p (l1 ++ (k, s) :: l2) = Some s ∧
  ∀ v, set_state p v (l1 ++ (k, s) :: l2) = l1 ++ (k, v) :: l2.
Proof.
  intros Hl Hp. induction Hl as [|x l Hx _ IH]; simpl.
  - by rewrite Hp.
  - rewrite Hx. destruct IH as [-> IH]. split; [done|]. intros v. by rewrite IH.
Qed.

(** The children under a key. *)
Definition has_key `{EqDecision K} (key : K) (x : K * S) : bool := bool_decide (x.1 = key).

Lemma has_key_split `{EqDecision K} k l s : find_state (has_key k) l = Some s →
  ∃ l1 l2, l = l1 ++ (k, s) :: l2 ∧ ∀ v, set_state (has_key k) v l = l1 ++ (k, v) :: l2.
Proof.
  intros (l1 & k' & l2 & -> & Hp & _ & Hs)%find_state_split.
  apply bool_decide_eq_true in Hp. simpl in Hp. subst. eauto.
Qed.

Lemma existsb_has_key `{EqDecision K} k l : existsb (has_key k) l = true ↔ k ∈ l.*1.
Proof.
  rewrite existsb_exists, list_elem_of_fmap. unfold has_key.
  setoid_rewrite bool_decide_eq_true. setoid_rewrite <- list_elem_of_In. naive_solver.
Qed.

Lemma sublist_keys (l l' : list (K * S)) : l `sublist_of` l' → l.*1 `sublist_of` l'.*1.
Proof. apply fmap_sublist. Qed.

Lemma sublist_omap {A B} (f : A → option B) l l' : l `sublist_of` l' → omap f l `sublist_of` omap f l'.
Proof.
  induction 1 as [|x l l' _ IH|x l l' _ IH]; csimpl; [done| |].
  - by destruct (f x); [apply sublist_skip|].
  - by destruct (f x); [apply sublist_cons|].
Qed.

End Find.

(** ** The loop of [next_action]

    It walks over the children, consulting each child's state, and returns at
    the first child that calls for an action, with that child's state changed.
    When no child does, it falls through with two flags: whether all children
    are started, and whether all are stopped. *)
Inductive Scan (K S : Type) :=
| Acted (states : list (K * S)) (action : Action K)
| Idle (all_children_started all_children_stopped : bool).
Arguments Acted {K S} states action.
Arguments Idle {K S} all_children_started all_children_stopped.

Section Scan.
Context {S K : Type}.
Variables (act : K → S → outcome (option (S * Action K))) (is_started is_stopped : S → bool).

Fixpoint scan (l : list (K * S)) (all_children_started all_children_stopped : bool) :
  outcome (Scan K S) :=
  match l with
  | [] => Ret (Idle all_children_started all_children_stopped)
  | (k, s) :: l =>
      let all_children_stopped := all_children_stopped && is_stopped s in
      let all_children_started := all_children_started && is_started s in
      o ← act k s;
      match o with
      | Some (s', a) => Ret (Acted ((k, s') :: l) a)
      | None =>
          r ← scan l all_children_started all_children_stopped;
          Ret match r with
              | Acted l' a => Acted ((k, s) :: l') a
              | Idle _ _ => r
              end
      end
  end.

(** [iter_mut().rev()] *)
Definition scan_rev (l : list (K * S)) (st sp : bool) : outcome (Scan K S) :=
  r ← scan (reverse l) st sp;
  Ret match r with
      | Acted l' a => Acted (reverse l') a
      | Idle _ _ => r
      end.

Definition idle (x : K * S) : Prop := act x.1 x.2 = Ret None.

Lemma scan_idle l st sp : Forall idle l →
  scan l st sp = Ret (Idle (st && forallb (is_started ∘ snd) l) (sp && forallb (is_stopped ∘ snd) l)).
Proof.
  intros Hl. revert st sp. induction Hl as [|[k s] l Hx _ IH]; intros st sp; simpl.
  - by rewrite !andb_true_r.
  - unfold idle in Hx. simpl in Hx. rewrite Hx, bind_Ret, IH, bind_Ret. by rewrite !andb_assoc.
Qed.

Lemma scan_acted l1 k s l2 s' a st sp : Forall idle l1 → act k s = Ret (Some (s', a)) →
  scan (l1 ++ (k, s) :: l2) st sp = Ret (Acted (l1 ++ (k, s') :: l2) a).
Proof.
  intros Hl Ha. revert st sp. induction Hl as [|[k0 s0] l Hx _ IH]; intros st sp; simpl.
  - by rewrite Ha.
  - unfold idle in Hx. simpl in Hx. by rewrite Hx, bind_Ret, IH.
Qed.

(** Every scan over children whose [act] does not panic ends in one of the two
    ways above. *)
Lemma scan_split l : Forall (λ x, act x.1 x.2 ≠ Panic) l →
  Forall idle l ∨ ∃ l1 k s l2 s' a, l = l1 ++ (k, s) :: l2 ∧ Forall idle l1 ∧ act k s = Ret (Some (s', a)).
Proof.
  induction 1 as [|[k s] l Hx _ IH]; [by left|]. simpl in Hx.
  destruct (act k s) as [[[s' a]|]|] eqn:E; [| |done].
  - right. exists [], k, s, l, s', a. by split_and!.
  - destruct IH as [IH|(l1 & k1 & s1 & l2 & s' & a & -> & Hi & Ha)]; [by left; constructor|].
    right. exists ((k, s) :: l1), k1, s1, l2, s', a. split_and!; try done. by constructor.
Qed.

Lemma scan_rev_idle l st sp : Forall idle l →
  scan_rev l st sp = Ret (Idle (st && forallb (is_started ∘ snd) l) (sp && forallb (is_stopped ∘ snd) l)).
Proof.
  intros Hl. unfold scan_rev. rewrite scan_idle by (by apply Forall_reverse). rewrite bind_Ret.
  assert (R : ∀ f : K * S → bool, forallb f (reverse l) = forallb f l); [|by rewrite !R].
  intros f. clear Hl. induction l as [|x l IH]; [done|].
  rewrite reverse_cons, forallb_app, IH. simpl. rewrite andb_true_r. apply andb_comm.
Qed.

Lemma scan_rev_acted l1 k s l2 s' a st sp : Forall idle l2 → act k s = Ret (Some (s', a)) →
  scan_rev (l1 ++ (k, s) :: l2) st sp = Ret (Acted (l1 ++ (k, s') :: l2) a).
Proof.
  intros Hl Ha. unfold scan_rev. rewrite reverse_app, reverse_cons, <- app_assoc. simpl.
  rewrite (scan_acted _ _ _ _ s' a) by (done || by apply Forall_reverse). rewrite bind_Ret.
  by rewrite reverse_app, reverse_cons, !reverse_involutive, <- app_assoc.
Qed.

Lemma scan_rev_split l : Forall (λ x, act x.1 x.2 ≠ Panic) l →
  Forall idle l ∨ ∃ l1 k s l2 s' a, l = l1 ++ (k, s) :: l2 ∧ Forall idle l2 ∧ act k s = Ret (Some (s', a)).
Proof.
  intros Hl. apply Forall_reverse, scan_split in Hl as [Hl|(l1 & k & s & l2 & s' & a & E & Hi & Ha)].
  - left. by apply Forall_reverse in Hl; rewrite reverse_involutive in Hl.
  - right. exists (reverse l2), k, s, (reverse l1), s', a. split_and!; [|by apply Forall_reverse|done].
    apply (f_equal reverse) in E. rewrite reverse_involutive in E. rewrite E.
    by rewrite reverse_app, reverse_cons, <- app_assoc.
Qed.

End Scan.

(** ** Deciders as transition systems *)
Inductive Op (K : Type) :=
| OpAdd (key : K) (child_type : ChildType)
| OpRm (key : K)
| OpStarted (key : K) (addr : Z) (at_ : Instant)
| OpExited (addr : Z) (normal_exit : bool) (at_ : Instant)
| OpFailed (key : K) (at_ : Instant)
| OpQuit (normal_exit : bool)
| OpNext (at_ : Instant).
Arguments OpAdd {K} key child_type.
Arguments OpRm {K} key.
Arguments OpStarted {K} key addr at_.
Arguments OpExited {K} addr normal_exit at_.
Arguments OpFailed {K} key at_.
Arguments OpQuit {K} normal_exit.
Arguments OpNext {K} at_.

Section Runs.
Context {D K : Type} `{Decider D K}.

(** One call, with the action it emits, if any. *)
Definition run_op (d : D) (op : Op K) : outcome (D * list (Action K)) :=
  match op with
  | OpAdd k ct => Ret ((d_add d k ct).1, [])
  | OpRm k => Ret ((d_rm d k).1, [])
  | OpStarted k a t => d ← d_started d k a t; Ret (d, [])
  | OpExited a n t => d ← d_exited d a n t; Ret (d, [])
  | OpFailed k t => Ret (d_failed d k t, [])
  | OpQuit n => Ret (d_quit d n, [])
  | OpNext t =>
      '(d, r) ← d_next_action d t;
      Ret (d, match r with Ok (Some a) => [a] | _ => [] end)
  end.

(** A sequence of calls, with the actions they emit. *)
Fixpoint run_ops (d : D) (ops : list (Op K)) : outcome (D * list (Action K)) :=
  match ops with
  | [] => Ret (d, [])
  | op :: ops =>
      '(d, l) ← run_op d op;
      '(d, l') ← run_ops d ops;
      Ret (d, l ++ l')
  end.

(** An invariant of the calls is an invariant of the runs. *)
Lemma run_ops_ind (P : D → Prop) (Q : Action K → Prop) (ok : Op K → Prop) :
  (∀ d op d' l, P d → ok op → run_op d op = Ret (d', l) → P d' ∧ Forall Q l) →
  ∀ ops d d' l, P d → Forall ok ops → run_ops d ops = Ret (d', l) → P d' ∧ Forall Q l.
Proof.
  intros Hstep. induction ops as [|op ops IH]; intros d d' l HP Hok; cbn [run_ops].
  - intros [= <- <-]. by split.
  - apply Forall_cons in Hok as [Hop Hok].
    intros ((d1 & l1) & E1 & ((d2 & l2) & E2 & [= <- <-])%bind_Ret_inv)%bind_Ret_inv.
    destruct (Hstep _ _ _ _ HP Hop E1) as [HP1 HQ1].
    destruct (IH _ _ _ HP1 Hok E2) as [HP2 HQ2]. split; [done|]. by apply Forall_app.
Qed.

(** The children of a specification, added one by one. *)
Definition add_all (d : D) (children : list (K * ChildType)) : D :=
  foldl (λ d '(k, ct), (d_add d k ct).1) d children.

(** A decider in a world that does as it is told: every start succeeds, under
    the next address of [supply], every stop is followed by the child's exit,
    and [next_action] is asked again until it has nothing more to say or quits.
    After a [Noop] it is asked again at once, which a supervisor does only after its
    next message (MixedSup.v has its loop). [fuel] bounds the number of questions. *)
Fixpoint drive (fuel : nat) (d : D) (supply : list Z) (t : Instant) : outcome (D * list (Action K)) :=
  match fuel with
  | O => Ret (d, [])
  | S fuel =>
      '(d, r) ← d_next_action d t;
      let continue d supply a := '(d, l) ← drive fuel d supply t; Ret (d, a :: l) in
      match r with
      | Ok (Some (Start k)) =>
          match supply with
          | a :: supply => d ← d_started d k a t; continue d supply (Start k)
          | [] => Ret (d, [Start k])
          end
      | Ok (Some (Stop a (Some k))) => d ← d_exited d a true t; continue d supply (Stop a (Some k))
      | Ok (Some (Quit n)) => Ret (d, [Quit n])
      | Ok (Some a) => continue d supply a
      | _ => Ret (d, [])
      end
  end.

Lemma drive_unfold fuel d supply t : drive (S fuel) d supply t =
  ('(d, r) ← d_next_action d t;
   let continue d supply a := '(d, l) ← drive fuel d supply t; Ret (d, a :: l) in
   match r with
   | Ok (Some (Start k)) =>
       match supply with
       | a :: supply => d ← d_started d k a t; continue d supply (Start k)
       | [] => Ret (d, [Start k])
       end
   | Ok (Some (Stop a (Some k))) => d ← d_exited d a true t; continue d supply (Stop a (Some k))
   | Ok (Some (Quit n)) => Ret (d, [Quit n])
   | Ok (Some a) => continue d supply a
   | _ => Ret (d, [])
   end).
Proof. reflexivity. Qed.

Lemma drive_start fuel d d1 d2 k a supply t d' l :
  d_next_action d t = Ret (d1, Ok (Some (Start k))) → d_started d1 k a t = Ret d2 →
  drive fuel d2 supply t = Ret (d', l) →
  drive (S fuel) d (a :: supply) t = Ret (d', Start k :: l).
Proof. intros E1 E2 E3. cbn [drive]. by rewrite E1, bind_Ret, E2, bind_Ret, E3. Qed.

Lemma drive_stop fuel d d1 d2 k a supply t d' l :
  d_next_action d t = Ret (d1, Ok (Some (Stop a (Some k)))) → d_exited d1 a true t = Ret d2 →
  drive fuel d2 supply t = Ret (d', l) →
  drive (S fuel) d supply t = Ret (d', Stop a (Some k) :: l).
Proof. intros E1 E2 E3. cbn [drive]. by rewrite E1, bind_Ret, E2, bind_Ret, E3. Qed.

Lemma drive_notice fuel d d1 a supply t d' l :
  d_next_action d t = Ret (d1, Ok (Some a)) → a = Noop ∨ a = InitDone →
  drive fuel d1 supply t = Ret (d', l) →
  drive (S fuel) d supply t = Ret (d', a :: l).
Proof. intros E1 [-> | ->] E3; cbn [drive]; by rewrite E1, bind_Ret, E3. Qed.

Lemma drive_quit fuel d d1 n supply t :
  d_next_action d t = Ret (d1, Ok (Some (Quit n))) → drive (S fuel) d supply t = Ret (d1, [Quit n]).
Proof. intros E1. cbn [drive]. by rewrite E1. Qed.

Lemma drive_none fuel d d1 supply t :
  d_next_action d t = Ret (d1, Ok None) → drive (S fuel) d supply t = Ret (d1, []).
Proof. intros E1. cbn [drive]. by rewrite E1. Qed.

End Runs.

#[global] Arguments drive : simpl never.

(** What a supervisor relies on: its decider knows the added keys only, names
    none but these in its actions, panics for one reason (a start reported
    under an address already in use) and answers [next_action] without an
    error. *)
Class DeciderLaws (D K : Type) `{Decider D K} := {
  d_keys : D → list K;
  d_uses : D → Z → Prop;
  d_keys_add d k ct d' r : d_add d k ct = (d', r) →
    ((k ∉ d_keys d) ∧ r = Ok tt ∧ d_keys d' = d_keys d ++ [k]) ∨
    (k ∈ d_keys d ∧ r = Err DuplicateKey ∧ d' = d);
  d_keys_op d op d' l : (∀ k ct, op ≠ OpAdd k ct) → run_op d op = Ret (d', l) →
    d_keys d' ⊆ d_keys d;
  d_total d op : run_op d op = Panic ↔ ∃ k a t, op = OpStarted k a t ∧ d_uses d a;
  d_next_ok d t : ∃ d' o, d_next_action d t = Ret (d', Ok o);
  d_next_keys d t d' o : d_next_action d t = Ret (d', Ok (Some o)) →
    match o with Start k | Stop _ (Some k) => k ∈ d_keys d | _ => True end;
}.
