(* ===== verification/OneForOne.v ===== *)
(** * The one-for-one strategy
    (components/mm1-sup/src/mixed/strategy/one_for_one.rs)

    A child that exits in a way its type does not allow is started again; the
    other children are left alone. *)

From S2P Require Import Prelude Restart Decider.

Open Scope Z_scope.

Inductive Status :=
| Status_Starting
| Status_Running (address : Z)
| Status_Terminating (address : Z)
| Status_Stopped.

Inductive Target := Target_Running | Target_Stopped | Target_Removed.

Record State := mkState { child_type : ChildType; status : Status; target : Target }.

Inductive SupStatus :=
| Sup_Starting
| Sup_Running
| Sup_Stopping (normal_exit : bool)
| Sup_Stopped.

Record OneForOneDecider (K : Type) := mkOFO {
  restart_intensity : RestartIntensity;
  restart_stats : RestartStats;
  states : list (K * State);
  orphans : gset Z;
  sup_status : SupStatus;
}.
Arguments mkOFO {K}.
Arguments restart_intensity {K}.
Arguments restart_stats {K}.
Arguments states {K}.
Arguments orphans {K}.
Arguments sup_status {K}.

#[export] Instance Status_eq_dec : EqDecision Status.
Proof. solve_decision. Defined.
#[export] Instance Target_eq_dec : EqDecision Target.
Proof. solve_decision. Defined.
#[export] Instance SupStatus_eq_dec : EqDecision SupStatus.
Proof. solve_decision. Defined.

Section OneForOne.
Context `{HashSetIter} {K : Type} `{EqDecision K}.

Abbreviation D := (OneForOneDecider K).

(** Assignments to single fields. *)
Definition set_states (d : D) (l : list (K * State)) : D :=
  mkOFO (restart_intensity d) (restart_stats d) l (orphans d) (sup_status d).
Definition set_orphans (d : D) (o : gset Z) : D :=
  mkOFO (restart_intensity d) (restart_stats d) (states d) o (sup_status d).
Definition set_sup_status (d : D) (s : SupStatus) : D :=
  mkOFO (restart_intensity d) (restart_stats d) (states d) (orphans d) s.
Definition set_stats (d : D) (r : RestartStats) : D :=
  mkOFO (restart_intensity d) r (states d) (orphans d) (sup_status d).
Definition set_status (s : State) (st : Status) : State := mkState (child_type s) st (target s).
Definition set_target (s : State) (t : Target) : State := mkState (child_type s) (status s) t.

(** [OneForOne::decider] *)
Definition decider (ri : RestartIntensity) : outcome D :=
  stats ← new_stats ri;
  Ret (mkOFO ri stats [] ∅ Sup_Starting).

(** [Status::Running { address } | Status::Terminating { address }] *)
Definition status_address (s : Status) : option Z :=
  match s with
  | Status_Running a | Status_Terminating a => Some a
  | _ => None
  end.

Definition has_address (a : Z) (x : K * State) : bool :=
  bool_decide (status_address (status x.2) = Some a).

Definition address (d : D) (key : K) : result (option Z) DeciderError :=
  ok_or (status_address ∘ status <$> find_state (has_key key) (states d)) KeyNotFound.

Definition add (d : D) (key : K) (ct : ChildType) : D * result unit DeciderError :=
  if existsb (has_key key) (states d) then (d, Err DuplicateKey)
  else (set_states d (states d ++ [(key, mkState ct Status_Stopped Target_Running)]), Ok tt).

Definition rm (d : D) (key : K) : D * result unit DeciderError :=
  (match find_state (has_key key) (states d) with
   | Some s => set_states d (set_state (has_key key) (set_target s Target_Removed) (states d))
   | None => d
   end, Ok tt).

Definition started (d : D) (key : K) (reported_address : Z) (_at : Instant) : outcome D :=
  assert_ (negb (existsb (has_address reported_address) (states d)));;
  match find_state (has_key key) (states d) with
  | None => Ret d
  | Some s =>
      match status s with
      | Status_Running _ | Status_Terminating _ | Status_Stopped =>
          Ret (set_orphans d ({[reported_address]} ∪ orphans d))
      | Status_Starting =>
          Ret (set_states d (set_state (has_key key)
                 (set_status s (Status_Running reported_address)) (states d)))
      end
  end.

Definition is_acceptable (ct : ChildType) (normal_exit : bool) : bool :=
  match ct with
  | Permanent => false
  | Transient => normal_exit
  | Temporary => true
  end.

Definition exited (d : D) (reported_addr : Z) (normal_exit : bool) (at_ : Instant) : outcome D :=
  match find_state (has_address reported_addr) (states d) with
  | None => Ret (set_sup_status d (Sup_Stopping true))
  | Some s =>
      let put (d : D) (s : State) := set_states d (set_state (has_address reported_addr) s (states d)) in
      match status s, is_acceptable (child_type s) normal_exit with
      | Status_Terminating address, _ =>
          assert_ (address =? reported_addr);;
          Ret (put d (set_status s Status_Stopped))
      | Status_Running address, true =>
          assert_ (address =? reported_addr);;
          Ret (put d (set_target (set_status s Status_Stopped) Target_Stopped))
      | Status_Running address, false =>
          assert_ (address =? reported_addr);;
          let '(stats, r) := report_exit (restart_intensity d) (restart_stats d) at_ in
          let d := set_stats d stats in
          let d := match r with
                   | Err _ => set_sup_status d (Sup_Stopping false)
                   | Ok _ => d
                   end in
          Ret (put d (set_status s Status_Stopped))
      | _, _ => Panic
      end
  end.

Definition failed (d : D) (key : K) (_at : Instant) : D :=
  match find_state (has_key key) (states d) with
  | None => d
  | Some s =>
      let s' := match status s with
                | Status_Starting => set_status s Status_Stopped
                | _ => set_target s Target_Stopped
                end in
      set_sup_status (set_states d (set_state (has_key key) s' (states d))) (Sup_Stopping false)
  end.

Definition quit (d : D) (normal_exit : bool) : D :=
  set_sup_status d
    match sup_status d with
    | Sup_Stopped => Sup_Stopped
    | Sup_Stopping existing_normal_exit => Sup_Stopping (normal_exit && existing_normal_exit)
    | Sup_Starting | Sup_Running => Sup_Stopping normal_exit
    end.

(** The target the loop of [next_action] works towards. *)
Definition effective_target (sup : SupStatus) (t : Target) : outcome Target :=
  match sup with
  | Sup_Starting | Sup_Running => Ret t
  | Sup_Stopping _ => Ret Target_Stopped
  | Sup_Stopped => Panic
  end.

(** The [match (status, target)] of the loop. *)
Definition child_action (sup : SupStatus) (key : K) (s : State) : outcome (option (State * Action K)) :=
  target ← effective_target sup (target s);
  match status s, target with
  | Status_Starting, _ => Ret None
  | Status_Terminating _, _ => Ret None
  | Status_Running _, Target_Running => Ret None
  | Status_Stopped, Target_Stopped => Ret None
  | Status_Stopped, Target_Removed => Panic
  | Status_Stopped, Target_Running => Ret (Some (set_status s Status_Starting, Start key))
  | Status_Running address, (Target_Stopped | Target_Removed) =>
      Ret (Some (set_status s (Status_Terminating address), Stop address (Some key)))
  end.

Definition is_running (s : State) : bool :=
  match status s with Status_Running _ => true | _ => false end.
Definition is_stopped (s : State) : bool :=
  match status s with Status_Stopped => true | _ => false end.
Definition is_removed (s : State) : bool :=
  match status s, target s with Status_Stopped, Target_Removed => true | _, _ => false end.

(** [self.states.retain(..)] *)
Definition retain_states (l : list (K * State)) : list (K * State) :=
  filter (λ x, is_removed x.2 = false) l.

Definition next_action (d : D) (_at : Instant) :
  outcome (D * result (option (Action K)) DeciderError) :=
  let d := set_states d (retain_states (states d)) in
  match hs_next (orphans d) with
  | Some address => Ret (set_orphans d (orphans d ∖ {[address]}), Ok (Some (Stop address None)))
  | None =>
      r ← match sup_status d with
          | Sup_Starting | Sup_Running =>
              scan (child_action (sup_status d)) is_running is_stopped (states d) true true
          | Sup_Stopping _ =>
              scan_rev (child_action (sup_status d)) is_running is_stopped (states d) true true
          | Sup_Stopped => scan (child_action (sup_status d)) is_running is_stopped [] true true
          end;
      match r with
      | Acted l a => Ret (set_states d l, Ok (Some a))
      | Idle all_children_started all_children_stopped =>
          match sup_status d with
          | Sup_Running | Sup_Stopped => Ret (d, Ok None)
          | Sup_Starting =>
              if all_children_started then Ret (set_sup_status d Sup_Running, Ok (Some InitDone))
              else Ret (d, Ok None)
          | Sup_Stopping normal_exit =>
              if all_children_stopped then Ret (set_sup_status d Sup_Stopped, Ok (Some (Quit normal_exit)))
              else Ret (d, Ok None)
          end
      end
  end.

#[export] Instance ofo_decider : Decider D K := {
  d_add := add;
  d_rm := rm;
  d_started := started;
  d_exited := exited;
  d_failed := failed;
  d_quit := quit;
  d_address := address;
  d_next_action := next_action;
}.

(** ** The calls, case by case *)
Lemma child_action_some sup k s s' a : child_action sup k s = Ret (Some (s', a)) →
  (status s = Status_Stopped ∧ target s = Target_Running ∧ (sup = Sup_Starting ∨ sup = Sup_Running) ∧
   s' = set_status s Status_Starting ∧ a = Start k) ∨
  (∃ addr, status s = Status_Running addr ∧ s' = set_status s (Status_Terminating addr) ∧
   a = Stop addr (Some k) ∧ ((∃ n, sup = Sup_Stopping n) ∨ target s ≠ Target_Running)).
Proof.
  destruct s as [ct st tg], st, tg, sup; cbn; intros [= <- <-]; naive_solver.
Qed.

Lemma child_action_no_panic sup l : sup ≠ Sup_Stopped →
  Forall (λ x, child_action sup x.1 x.2 ≠ Panic) (retain_states l).
Proof.
  intros Hs. apply Forall_forall. intros [k [ct st tg]] Hx.
  apply list_elem_of_filter in Hx as [Hr _]. by destruct st, tg, sup.
Qed.

Abbreviation idle_in sup := (idle (child_action sup)).

(** The first child, in the order of the walk, that calls for an action. *)
Lemma next_action_child d t l1 k s l2 s' a :
  orphans d = ∅ → retain_states (states d) = l1 ++ (k, s) :: l2 →
  child_action (sup_status d) k s = Ret (Some (s', a)) →
  match sup_status d with
  | Sup_Stopping _ => Forall (idle_in (sup_status d)) l2
  | _ => Forall (idle_in (sup_status d)) l1
  end →
  next_action d t = Ret (set_states d (l1 ++ (k, s') :: l2), Ok (Some a)).
Proof.
  intros Ho El Ha Hi. unfold next_action. simpl. rewrite Ho, hs_next_empty, El.
  destruct (sup_status d) eqn:E; try done.
  1,2: by erewrite scan_acted by done.
  by erewrite scan_rev_acted by done.
Qed.

(** What [next_action] answers when no child calls for an action. *)
Definition settle (d : D) : D * option (Action K) :=
  match sup_status d with
  | Sup_Running | Sup_Stopped => (d, None)
  | Sup_Starting =>
      if forallb (is_running ∘ snd) (states d) then (set_sup_status d Sup_Running, Some InitDone)
      else (d, None)
  | Sup_Stopping normal_exit =>
      if forallb (is_stopped ∘ snd) (states d) then (set_sup_status d Sup_Stopped, Some (Quit normal_exit))
      else (d, None)
  end.

Lemma next_action_idle d t d' o : orphans d = ∅ →
  (sup_status d ≠ Sup_Stopped → Forall (idle_in (sup_status d)) (retain_states (states d))) →
  settle (set_states d (retain_states (states d))) = (d', o) →
  next_action d t = Ret (d', Ok o).
Proof.
  intros Ho Hi. unfold settle, next_action. simpl. rewrite Ho, hs_next_empty.
  destruct (sup_status d) eqn:E; [..|by intros [= <- <-]].
  1,2: rewrite scan_idle by (by apply Hi). 3: rewrite scan_rev_idle by (by apply Hi).
  all: rewrite bind_Ret; cbn [andb]; repeat case_match; intros; by simplify_eq.
Qed.

Inductive next_spec (d : D) (t : Instant) : Prop :=
| next_orphan a :
    a ∈ orphans d →
    next_action d t = Ret (set_orphans (set_states d (retain_states (states d))) (orphans d ∖ {[a]}),
                           Ok (Some (Stop a None))) →
    next_spec d t
| next_child l1 k s l2 s' a :
    orphans d = ∅ → sup_status d ≠ Sup_Stopped →
    retain_states (states d) = l1 ++ (k, s) :: l2 →
    child_action (sup_status d) k s = Ret (Some (s', a)) →
    match sup_status d with
    | Sup_Stopping _ => Forall (idle_in (sup_status d)) l2
    | _ => Forall (idle_in (sup_status d)) l1
    end →
    next_action d t = Ret (set_states d (l1 ++ (k, s') :: l2), Ok (Some a)) →
    next_spec d t
| next_idle d' o :
    orphans d = ∅ →
    (sup_status d ≠ Sup_Stopped → Forall (idle_in (sup_status d)) (retain_states (states d))) →
    settle (set_states d (retain_states (states d))) = (d', o) →
    next_action d t = Ret (d', Ok o) →
    next_spec d t.

Lemma next_action_cases d t : next_spec d t.
Proof.
  destruct (hs_next (orphans d)) as [a|] eqn:Eo.
  { apply (next_orphan d t a); [by apply hs_next_elem|]. unfold next_action. simpl. by rewrite Eo. }
  pose proof (hs_next_none _ Eo) as Ho.
  destruct (settle (set_states d (retain_states (states d)))) as [d' o] eqn:Es.
  assert (Hidle : (sup_status d ≠ Sup_Stopped → Forall (idle_in (sup_status d)) (retain_states (states d))) →
    next_spec d t) by (intros Hi; eapply next_idle; eauto using next_action_idle).
  destruct (decide (sup_status d = Sup_Stopped)) as [E|Hn]; [by apply Hidle|].
  pose proof (child_action_no_panic (sup_status d) (states d) Hn) as Hp.
  assert (Hchild : ∀ l1 k s l2 s' a, retain_states (states d) = l1 ++ (k, s) :: l2 →
    child_action (sup_status d) k s = Ret (Some (s', a)) →
    match sup_status d with
    | Sup_Stopping _ => Forall (idle_in (sup_status d)) l2
    | _ => Forall (idle_in (sup_status d)) l1
    end → next_spec d t) by (intros; eapply next_child; eauto using next_action_child).
  destruct (sup_status d) eqn:E.
  1,2: apply scan_split in Hp as [Hi|(l1 & k & s & l2 & s' & a & El & Hi & Ha)]; eauto.
  - apply scan_rev_split in Hp as [Hi|(l1 & k & s & l2 & s' & a & El & Hi & Ha)]; eauto.
  - done.
Qed.

(** How [exited] finds its child, and what it does with it. *)
Inductive exited_spec (d : D) (a : Z) (n : bool) (t : Instant) : Prop :=
| exited_unknown :
    (∀ x, x ∈ states d → status_address (status x.2) ≠ Some a) →
    exited d a n t = Ret (set_sup_status d (Sup_Stopping true)) →
    exited_spec d a n t
| exited_terminating l1 k s l2 :
    states d = l1 ++ (k, s) :: l2 → status s = Status_Terminating a →
    exited d a n t = Ret (set_states d (l1 ++ (k, set_status s Status_Stopped) :: l2)) →
    exited_spec d a n t
| exited_acceptable l1 k s l2 :
    states d = l1 ++ (k, s) :: l2 → status s = Status_Running a → is_acceptable (child_type s) n = true →
    exited d a n t =
      Ret (set_states d (l1 ++ (k, set_target (set_status s Status_Stopped) Target_Stopped) :: l2)) →
    exited_spec d a n t
| exited_unacceptable l1 k s l2 stats r :
    states d = l1 ++ (k, s) :: l2 → status s = Status_Running a → is_acceptable (child_type s) n = false →
    report_exit (restart_intensity d) (restart_stats d) t = (stats, r) →
    exited d a n t =
      Ret (mkOFO (restart_intensity d) stats (l1 ++ (k, set_status s Status_Stopped) :: l2) (orphans d)
             (if is_ok r then sup_status d else Sup_Stopping false)) →
    exited_spec d a n t.

Lemma exited_cases d a n t : exited_spec d a n t.
Proof.
  destruct (find_state (has_address a) (states d)) as [s|] eqn:E.
  - pose proof (find_state_split _ _ _ E) as (l1 & k & l2 & El & Hp & _ & Hset).
    unfold has_address in Hp. apply bool_decide_eq_true in Hp. simpl in Hp.
    destruct (status s) as [|b|b|] eqn:Es; simplify_eq/=.
    + destruct (is_acceptable (child_type s) n) eqn:Ea.
      * eapply exited_acceptable; eauto. unfold exited. rewrite E, Es, Ea, Z.eqb_refl.
        simpl. by rewrite Hset.
      * destruct (report_exit (restart_intensity d) (restart_stats d) t) as [stats r] eqn:Er.
        eapply exited_unacceptable; eauto. unfold exited. rewrite E, Es, Ea, Z.eqb_refl, Er.
        simpl. by destruct r; simpl; rewrite Hset.
    + eapply exited_terminating; eauto. unfold exited. rewrite E, Es, Z.eqb_refl.
      simpl. by rewrite Hset.
  - apply exited_unknown.
    + intros x Hx. pose proof (find_state_none _ _ E x Hx) as Hf. by apply bool_decide_eq_false in Hf.
    + unfold exited. by rewrite E.
Qed.

Definition uses (d : D) (a : Z) : Prop := ∃ x, x ∈ states d ∧ status_address (status x.2) = Some a.

Lemma existsb_has_address a d : existsb (has_address a) (states d) = true ↔ uses d a.
Proof.
  rewrite existsb_exists. unfold has_address, uses. setoid_rewrite bool_decide_eq_true.
  by setoid_rewrite <- list_elem_of_In.
Qed.

Lemma started_panic d k a t : started d k a t = Panic ↔ uses d a.
Proof.
  rewrite <- existsb_has_address. unfold started.
  destruct (existsb (has_address a) (states d)); simpl; [done|].
  split; [|done]. intros H0. by repeat case_match.
Qed.

Definition stopping (d : D) : Prop :=
  match sup_status d with Sup_Stopping _ | Sup_Stopped => True | _ => False end.

(** ** The life of a child

    The step a call makes on the child it selects, with the action it emits. *)
Inductive child_step (d : D) (k : K) : Op K → list (Action K) → State → State → Prop :=
| cs_rm s : child_step d k (OpRm k) [] s (set_target s Target_Removed)
| cs_started s a t :
    ¬ uses d a → status s = Status_Starting →
    child_step d k (OpStarted k a t) [] s (set_status s (Status_Running a))
| cs_terminated s a n t :
    status s = Status_Terminating a →
    child_step d k (OpExited a n t) [] s (set_status s Status_Stopped)
| cs_acceptable s a n t :
    status s = Status_Running a → is_acceptable (child_type s) n = true →
    child_step d k (OpExited a n t) [] s (set_target (set_status s Status_Stopped) Target_Stopped)
| cs_unacceptable s a n t :
    status s = Status_Running a → is_acceptable (child_type s) n = false →
    child_step d k (OpExited a n t) [] s (set_status s Status_Stopped)
| cs_start_failed s t :
    status s = Status_Starting → child_step d k (OpFailed k t) [] s (set_status s Status_Stopped)
| cs_failed s t :
    status s ≠ Status_Starting → child_step d k (OpFailed k t) [] s (set_target s Target_Stopped)
| cs_start s t :
    status s = Status_Stopped → target s = Target_Running → ¬ stopping d →
    child_step d k (OpNext t) [Start k] s (set_status s Status_Starting)
| cs_stop s a t :
    status s = Status_Running a → stopping d ∨ target s ≠ Target_Running →
    child_step d k (OpNext t) [Stop a (Some k)] s (set_status s (Status_Terminating a)).

(** The effect of a call on the children: at most one of them steps, a new one
    is added at the end, or stopped ones marked for removal are dropped. *)
Inductive states_step (d : D) (op : Op K) (acts : list (Action K)) (l : list (K * State)) : Prop :=
| ss_add k ct :
    op = OpAdd k ct → acts = [] → k ∉ (states d).*1 →
    l = states d ++ [(k, mkState ct Status_Stopped Target_Running)] → states_step d op acts l
| ss_same :
    l `sublist_of` states d → (∀ k, Start k ∉ acts) → (∀ a k, Stop a (Some k) ∉ acts) →
    states_step d op acts l
| ss_child l1 k s l2 s' :
    l1 ++ (k, s) :: l2 `sublist_of` states d → child_step d k op acts s s' →
    l = l1 ++ (k, s') :: l2 → states_step d op acts l.

Lemma retain_sublist l : retain_states l `sublist_of` l.
Proof. apply sublist_filter. Qed.

Lemma settle_states d : states (settle d).1 = states d.
Proof. unfold settle. by repeat case_match. Qed.

Lemma run_op_states d op d' acts : run_op d op = Ret (d', acts) → states_step d op acts (states d').
Proof.
  assert (Hsame : ∀ l : list (K * State), l = states d → states_step d op [] l).
  { intros l ->. apply ss_same; [done| |]; intros *; apply not_elem_of_nil. }
  destruct op as [k ct|k|k a t|a n t|k t|n|t]; cbn [run_op d_add d_rm d_started d_exited d_failed d_quit
    d_next_action ofo_decider].
  - unfold add. destruct (existsb (has_key k) (states d)) eqn:E; intros [= <- <-]; [auto|].
    eapply ss_add; eauto. rewrite <- existsb_has_key, E. done.
  - unfold rm. destruct (find_state (has_key k) (states d)) as [s|] eqn:E; intros [= <- <-]; [|auto].
    destruct (has_key_split _ _ _ E) as (l1 & l2 & El & Hs). simpl. rewrite Hs.
    eapply ss_child; [by rewrite El|constructor|done].
  - intros (d1 & E1 & [= <- <-])%bind_Ret_inv. pose proof (started_panic d k a t) as Hp.
    rewrite E1 in Hp. unfold started in E1.
    apply bind_Ret_inv in E1 as (_ & _ & E1).
    destruct (find_state (has_key k) (states d)) as [s|] eqn:E; [|simplify_eq; auto].
    destruct (status s) eqn:Es; simplify_eq/=; auto.
    destruct (has_key_split _ _ _ E) as (l1 & l2 & El & Hs). simpl. rewrite Hs.
    eapply ss_child; [by rewrite El|constructor|done]; naive_solver.
  - intros (d1 & E1 & [= <- <-])%bind_Ret_inv.
    destruct (exited_cases d a n t) as [_ E|l1 k s l2 El Hst E|l1 k s l2 El Hst Ha E|l1 k s l2 st r El Hst Ha _ E];
      rewrite E1 in E; simplify_eq/=; [auto| | |].
    all: eapply ss_child; [by rewrite El| |done]; by constructor.
  - unfold failed. destruct (find_state (has_key k) (states d)) as [s|] eqn:E; intros [= <- <-]; [|auto].
    destruct (has_key_split _ _ _ E) as (l1 & l2 & El & Hs). simpl. rewrite Hs.
    eapply ss_child; [by rewrite El| |done]. destruct (status s) eqn:Es; constructor; congruence.
  - intros [= <- <-]. auto.
  - intros ([d1 r] & E1 & [= <- <-])%bind_Ret_inv.
    destruct (next_action_cases d t) as [a Ha E|l1 k s l2 s' a Ho Hss El Hc _ E|d2 o Ho _ Hset E];
      rewrite E1 in E; simplify_eq/=.
    + apply ss_same; [apply retain_sublist| |]; set_solver.
    + apply child_action_some in Hc as [(Hs & Ht & Hsup & -> & ->)|(b & Hs & -> & -> & Hor)].
      all: eapply ss_child; [rewrite <- El; apply retain_sublist| |done]; constructor; auto.
      * unfold stopping. destruct Hsup as [E' | E']; rewrite E'; tauto.
      * destruct Hor as [[n Hn]|Ht]; [|by right]. left. unfold stopping. by rewrite Hn.
    + pose proof (settle_states (set_states d (retain_states (states d)))) as Hs. rewrite Hset in Hs.
      simpl in Hs. apply ss_same; [rewrite Hs; apply retain_sublist| |].
      all: unfold settle in Hset; repeat case_match; simplify_eq/=; set_solver.
Qed.

(** ** The interface's laws *)
Lemma run_op_keys d op d' acts : (∀ k ct, op ≠ OpAdd k ct) → run_op d op = Ret (d', acts) →
  (states d').*1 ⊆ (states d).*1.
Proof.
  intros Hop Hrun. destruct (run_op_states _ _ _ _ Hrun) as [k ct -> _ _ _|Hs _ _|l1 k s l2 s' Hs _ ->].
  - by destruct (Hop k ct).
  - intros k Hk. eapply sublist_subseteq; [by apply sublist_keys|done].
  - intros x Hx. eapply sublist_subseteq; [apply sublist_keys, Hs|].
    rewrite !fmap_app in *. by csimpl.
Qed.

Lemma next_action_ok d t : ∃ d' o, next_action d t = Ret (d', Ok o).
Proof. destruct (next_action_cases d t); eauto. Qed.

Lemma exited_ok d a n t : ∃ d', exited d a n t = Ret d'.
Proof. destruct (exited_cases d a n t); eauto. Qed.

Lemma run_op_panic d op : run_op d op = Panic ↔ ∃ k a t, op = OpStarted k a t ∧ uses d a.
Proof.
  destruct op as [k ct|k|k a t|a n t|k t|n|t]; cbn [run_op d_started d_exited d_next_action ofo_decider].
  3: { pose proof (started_panic d k a t) as Hp. destruct (started d k a t) as [d'|]; simpl.
    - split; [done|]. intros (k' & a' & t' & [= <- <- <-] & Hu). by apply Hp in Hu.
    - split; [|done]. intros _. eexists _, _, _. split; [done|]. by apply Hp. }
  3: destruct (exited_ok d a n t) as [d' ->].
  6: destruct (next_action_ok d t) as (d' & o & ->).
  all: split; [done|]; intros (? & ? & ? & [=] & _).
Qed.

Lemma run_op_stopping d op d' acts : stopping d → run_op d op = Ret (d', acts) →
  stopping d' ∧ Forall (λ a, (a ≠ InitDone) ∧ (∀ k, a ≠ Start k)) acts.
Proof.
  intros Hst. destruct op as [k ct|k|k a t|a n t|k t|n|t];
    cbn [run_op d_add d_rm d_started d_exited d_failed d_quit d_next_action ofo_decider].
  - unfold add. case_match; by intros [= <- <-].
  - unfold rm. simpl. case_match; by intros [= <- <-].
  - intros (d1 & (_ & _ & E1)%bind_Ret_inv & [= <- <-])%bind_Ret_inv. repeat case_match; by simplify_eq.
  - intros (d1 & E1 & [= <- <-])%bind_Ret_inv. split; [|done].
    destruct (exited_cases d a n t) as [_ E|l1 k s l2 El _ E|l1 k s l2 El _ _ E|l1 k s l2 st r El _ _ _ E];
      rewrite E1 in E; simplify_eq/=; try done.
    unfold stopping. simpl. by destruct (is_ok r).
  - unfold failed. case_match; by intros [= <- <-].
  - intros [= <- <-]. split; [|done]. unfold stopping, quit in *. simpl. by destruct (sup_status d).
  - intros ([d1 r] & E1 & [= <- <-])%bind_Ret_inv. unfold stopping in *.
    destruct (next_action_cases d t) as [a Ha E|l1 k s l2 s' a Ho Hss El Hc _ E|d2 o Ho _ Hset E];
      rewrite E1 in E; simplify_eq/=.
    + split; [done|]. by repeat constructor.
    + split; [done|].
      apply child_action_some in Hc as [(_ & _ & [Hs|Hs] & _)|(b & _ & _ & -> & _)];
        [by rewrite Hs in Hst|by rewrite Hs in Hst|by repeat constructor].
    + unfold settle in Hset. simpl in Hset. destruct (sup_status d) eqn:Es; try done.
      * case_match; simplify_eq/=; rewrite ?Es; split; try done; by repeat constructor.
      * simplify_eq/=. by rewrite Es.
Qed.

#[export] Instance ofo_laws : DeciderLaws D K.
Proof.
  refine {| d_keys := λ d, (states d).*1; d_uses := uses |}.
  - intros d k ct d' r. cbn. unfold add. destruct (existsb (has_key k) (states d)) eqn:E; intros [= <- <-].
    + right. by apply existsb_has_key in E.
    + left. rewrite <- existsb_has_key, E. split_and!; try done. cbn. by rewrite fmap_app.
  - apply run_op_keys.
  - apply run_op_panic.
  - apply next_action_ok.
  - intros d t d' o E. cbn in E.
    assert (Hr : run_op d (OpNext t) = Ret (d', [o])) by (cbn; by rewrite E).
    pose proof (run_op_states _ _ _ _ Hr) as [|_ Hs1 Hs2|l1 k s l2 s' Hs Hc _]; [done| |].
    + destruct o as [| |k|a [k|]|n]; try done; [by destruct (Hs1 k); left|by destruct (Hs2 a k); left].
    + assert (Hk : k ∈ (states d).*1).
      { eapply sublist_subseteq; [apply sublist_keys, Hs|]. rewrite fmap_app. csimpl. set_solver. }
      by inversion Hc; subst.
Defined.

(** ** The invariant: keys and addresses are unique *)
Definition addresses (l : list (K * State)) : list Z := omap (status_address ∘ status ∘ snd) l.

Definition wf (d : D) : Prop := NoDup (states d).*1 ∧ NoDup (addresses (states d)).

Lemma uses_addresses d a : uses d a ↔ a ∈ addresses (states d).
Proof. unfold uses, addresses. by rewrite list_elem_of_omap. Qed.

Lemma addresses_app l1 l2 : addresses (l1 ++ l2) = addresses l1 ++ addresses l2.
Proof. apply omap_app. Qed.

Lemma addresses_cons k s l :
  addresses ((k, s) :: l) = match status_address (status s) with Some a => [a] | None => [] end ++ addresses l.
Proof. unfold addresses. csimpl. by destruct (status_address (status s)). Qed.

(** A child steps to an address only from it, or to a fresh one. *)
Lemma child_step_address d k op acts s s' a : child_step d k op acts s s' →
  status_address (status s') = Some a → status_address (status s) = Some a ∨ ¬ uses d a.
Proof. destruct 1 as [| |? ? ? ? E|? ? ? ? E|? ? ? ? E| | | |? ? ? E]; cbn; rewrite ?E; naive_solver. Qed.

Lemma run_op_wf d op d' acts : wf d → run_op d op = Ret (d', acts) → wf d'.
Proof.
  intros [Hk Ha] Hrun. unfold wf.
  destruct (run_op_states _ _ _ _ Hrun) as [k ct _ _ Hn ->|Hs _ _|l1 k s l2 s' Hs Hc ->].
  - rewrite fmap_app, addresses_app, addresses_cons. csimpl. rewrite app_nil_r.
    split; [|done]. apply NoDup_app. split_and!; [done| |apply NoDup_singleton]. set_solver.
  - split; (eapply sublist_NoDup; [done|]); [by apply sublist_keys|by apply sublist_omap].
  - split.
    + eapply sublist_NoDup in Hk; [|apply sublist_keys, Hs]. by rewrite fmap_app in *.
    + pose proof (λ a, child_step_address _ _ _ _ _ _ a Hc) as Hc'.
      assert (Hsub : ∀ b, b ∈ addresses l1 ∨ b ∈ addresses l2 → uses d b).
      { intros b Hb. apply uses_addresses. eapply sublist_subseteq; [apply sublist_omap, Hs|].
        fold (addresses (l1 ++ (k, s) :: l2)). rewrite addresses_app, addresses_cons. set_solver. }
      eapply sublist_NoDup in Ha; [|apply sublist_omap, Hs].
      fold (addresses (l1 ++ (k, s) :: l2)) in Ha. rewrite addresses_app, addresses_cons in *.
      apply NoDup_app in Ha as (H1 & H12 & (H2 & H23 & H3)%NoDup_app).
      destruct (status_address (status s')) as [a|] eqn:E.
      * assert (a ∉ addresses l1 ∧ a ∉ addresses l2) as [Hn1 Hn2].
        { destruct (Hc' a eq_refl) as [Es|Hu]; [|naive_solver]. rewrite Es in *. set_solver. }
        apply NoDup_app. split_and!; [done| |]; [set_solver|].
        apply NoDup_app. split_and!; [apply NoDup_singleton|set_solver|done].
      * apply NoDup_app. set_solver.
Qed.

(** whatever is called on a fresh one-for-one decider and in whatever
    order, its children keep pairwise distinct keys and its running and
    terminating children pairwise distinct addresses, and the only call that can
    panic is a start reported under an address already in use. *)
Theorem ofo_unique ri ops d0 d acts :
  decider ri = Ret d0 → run_ops d0 ops = Ret (d, acts) →
  NoDup (states d).*1 ∧ NoDup (addresses (states d)) ∧
  ∀ op, run_op d op = Panic ↔ ∃ k a t, op = OpStarted k a t ∧ a ∈ addresses (states d).
Proof.
  intros (stats & _ & [= <-])%bind_Ret_inv Hrun.
  eapply (run_ops_ind wf (λ _, True) (λ _, True)) in Hrun as [[H1 H2] _].
  - split_and!; [done..|]. intros op. rewrite run_op_panic. by setoid_rewrite uses_addresses.
  - intros d1 op d2 l Hw _ E. split; [by eapply run_op_wf|by apply Forall_true].
  - split; apply NoDup_nil_2.
  - by apply Forall_true.
Qed.

(** ** Restarts *)

(** The child [k] is not to be started. *)
Definition parked (k : K) (d : D) : Prop := ∀ s, (k, s) ∈ states d → target s ≠ Target_Running.

Lemma child_step_target d k op acts s s' : child_step d k op acts s s' →
  target s ≠ Target_Running → target s' ≠ Target_Running ∧ ∀ k', Start k' ∉ acts.
Proof. destruct 1; cbn; intros; split; try done; try congruence; set_solver. Qed.

Lemma run_op_parked k d op d' acts : parked k d → (∀ ct, op ≠ OpAdd k ct) →
  run_op d op = Ret (d', acts) → parked k d' ∧ Forall (λ a, a ≠ Start k) acts.
Proof.
  intros Hp Hop Hrun.
  destruct (run_op_states _ _ _ _ Hrun) as [k' ct -> -> Hn El|Hs Hn _|l1 k' s l2 s' Hs Hc El].
  - split; [|done]. unfold parked. rewrite El. intros s [Hx|[= -> _]%list_elem_of_singleton]%elem_of_app.
    + by apply Hp.
    + by destruct (Hop ct).
  - split; [|apply Forall_forall; intros a Ha ->; by apply (Hn k)].
    intros s Hx. apply Hp. by eapply elem_of_sublist.
  - unfold parked. rewrite El.
    assert (Hp' : ∀ x, (k, x) ∈ l1 ++ (k', s) :: l2 → target x ≠ Target_Running).
    { intros x Hx. apply Hp. by eapply elem_of_sublist. }
    destruct (decide (k' = k)) as [->|Hne].
    + destruct (child_step_target _ _ _ _ _ _ Hc) as [Ht Hn]; [apply Hp'; set_solver|].
      split; [|apply Forall_forall; intros a Ha ->; by apply (Hn k)].
      intros x [Hx|[[= ->]|Hx]%elem_of_cons]%elem_of_app; [| done|]; apply Hp'; set_solver.
    + split; [intros x Hx; apply Hp'; set_solver|].
      apply Forall_forall. intros a Ha ->. inversion Hc; subst; set_solver.
Qed.

Lemma NoDup_key_split (l1 : list (K * State)) k s l2 s' :
  NoDup (l1 ++ (k, s) :: l2).*1 → (k, s') ∈ l1 ++ (k, s) :: l2 → s' = s.
Proof.
  rewrite fmap_app. csimpl. intros (_ & H1 & (H2 & _)%NoDup_cons)%NoDup_app.
  intros [Hx|[[= ->]|Hx]%elem_of_cons]%elem_of_app; [|done|].
  - destruct (H1 k); [|set_solver]. apply list_elem_of_fmap. by exists (k, s').
  - destruct H2. apply list_elem_of_fmap. by exists (k, s').
Qed.

(** Unique addresses make the search by address find the child. *)
Lemma has_address_here l1 k s l2 a : NoDup (addresses (l1 ++ (k, s) :: l2)) →
  status_address (status s) = Some a →
  find_state (has_address a) (l1 ++ (k, s) :: l2) = Some s ∧
  ∀ v, set_state (has_address a) v (l1 ++ (k, s) :: l2) = l1 ++ (k, v) :: l2.
Proof.
  intros Hn Hs. apply find_state_here; [|by apply bool_decide_eq_true].
  rewrite addresses_app, addresses_cons, Hs in Hn. apply NoDup_app in Hn as (_ & Hn & _).
  apply Forall_forall. intros x Hx. apply bool_decide_eq_false. intros Hx'.
  apply (Hn a); [|by left]. unfold addresses. apply list_elem_of_omap. by exists x.
Qed.

(** a child that exits in a way its type allows (a temporary child, or a
    transient child exiting normally) is never started again, whatever happens
    to the supervisor afterwards, unless it is added anew. *)
Theorem ofo_no_restart d l1 k s l2 a n t d' ops d'' acts :
  wf d → states d = l1 ++ (k, s) :: l2 →
  status s = Status_Running a → is_acceptable (child_type s) n = true →
  exited d a n t = Ret d' →
  Forall (λ op, ∀ ct, op ≠ OpAdd k ct) ops → run_ops d' ops = Ret (d'', acts) →
  Start k ∉ acts.
Proof.
  intros [Hk Ha] El Hs Hacc Hex Hops Hrun.
  assert (Hp : parked k d').
  { rewrite El in Hk, Ha. destruct (has_address_here l1 k s l2 a Ha) as [Hf Hset]; [by rewrite Hs|].
    unfold exited in Hex. rewrite El, Hf, Hs, Hacc, Z.eqb_refl in Hex. cbn in Hex.
    injection Hex as <-. intros x. cbn. rewrite Hset. intros Hx.
    eapply NoDup_key_split in Hx; [by subst|]. by rewrite fmap_app in *. }
  eapply (run_ops_ind (parked k) (λ a, a ≠ Start k)) in Hrun as [_ Hq]; [|by apply run_op_parked|done|done].
  intros Hin. rewrite Forall_forall in Hq. by apply (Hq _ Hin).
Qed.

Lemma retain_all l : Forall (λ x, is_removed x.2 = false) l → retain_states l = l.
Proof. apply filter_all. Qed.

Lemma retain_idle sup x : idle_in sup x → sup = Sup_Running → is_removed x.2 = false.
Proof. destruct x as [k [ct [| | |] []]]; intros Hi ->; cbn in *; try done. Qed.

(** a supervisor that is shutting down stays so: no sequence of calls makes
    its decider start a child, report readiness or leave the shutdown. *)
Theorem ofo_stopping_final d ops d' acts : stopping d → run_ops d ops = Ret (d', acts) →
  stopping d' ∧ InitDone ∉ acts ∧ ∀ k, Start k ∉ acts.
Proof.
  intros Hst Hrun.
  eapply (run_ops_ind stopping (λ a, (a ≠ InitDone) ∧ (∀ k, a ≠ Start k)) (λ _, True)) in Hrun as [Hs Hq].
  - rewrite Forall_forall in Hq. split_and!; [done| |].
    + intros Hin. by destruct (Hq _ Hin).
    + intros k Hin. destruct (Hq _ Hin) as [_ Hn]. by destruct (Hn k).
  - intros ? ? ? ? ? _. by apply run_op_stopping.
  - done.
  - by apply Forall_true.
Qed.

(** C10: in a running supervisor whose other children need nothing, an exit the
    child's type does not allow is recorded in the restart statistics, and nothing
    else changes but that the child is stopped. If the exit is within the restart
    intensity, exactly one action follows: the child is started again, the others
    are untouched, and until something happens there is no further action. If it
    exceeds the intensity, the supervisor is shutting down with an abnormal exit
    instead, and no child is started any more, whatever happens then. *)
Theorem ofo_restart d l1 k s l2 a n t t' stats r :
  wf d → states d = l1 ++ (k, s) :: l2 → sup_status d = Sup_Running → orphans d = ∅ →
  Forall (idle_in Sup_Running) (l1 ++ l2) →
  status s = Status_Running a → target s = Target_Running → is_acceptable (child_type s) n = false →
  report_exit (restart_intensity d) (restart_stats d) t = (stats, r) →
  ∃ d', exited d a n t = Ret d' ∧
    d' = mkOFO (restart_intensity d) stats (l1 ++ (k, set_status s Status_Stopped) :: l2) ∅
           (if is_ok r then Sup_Running else Sup_Stopping false) ∧
  match r with
  | Ok _ => let d'' := set_states d' (l1 ++ (k, set_status s Status_Starting) :: l2) in
      next_action d' t' = Ret (d'', Ok (Some (Start k))) ∧ ∀ t'', next_action d'' t'' = Ret (d'', Ok None)
  | Err _ => ∀ ops d'' acts, run_ops d' ops = Ret (d'', acts) → ∀ k', Start k' ∉ acts
  end.
Proof.
  intros [Hk Ha] El Hsup Ho Hidle Hs Ht Hacc Er. rewrite El in Ha.
  destruct (has_address_here l1 k s l2 a Ha) as [Hf Hset]; [by rewrite Hs|].
  eexists. split; [|split; [reflexivity|]].
  { unfold exited. rewrite El, Hf, Hs, Hacc, Z.eqb_refl, Er. cbn [assert_]. rewrite bind_Ret. unfold set_states, set_stats, set_sup_status.
    by destruct r; cbn; rewrite El, Hset, Ho, ?Hsup. }
  destruct r as [[]|e].
  2: { intros ops d'' acts Hrun k'. by eapply ofo_stopping_final in Hrun as (_ & _ & ?). }
  apply Forall_app in Hidle as [Hi1 Hi2]. cbn [is_ok]. unfold set_states. cbn [restart_intensity restart_stats orphans sup_status].
  assert (Hr : ∀ st, retain_states (l1 ++ (k, set_status s st) :: l2) = l1 ++ (k, set_status s st) :: l2).
  { intros st. apply retain_all. apply Forall_app. split; [|constructor].
    - eapply Forall_impl; [done|]. intros x Hx. by eapply retain_idle.
    - unfold is_removed. cbn. rewrite Ht. by destruct st.
    - eapply Forall_impl; [done|]. intros x Hx. by eapply retain_idle. }
  split; [|intros t''].
  - by rewrite (next_action_child _ _ l1 k (set_status s Status_Stopped) l2 (set_status s Status_Starting) (Start k)) by (done || apply Hr || (cbn; by rewrite Ht)).
  - apply next_action_idle; cbn [orphans states sup_status]; [done|rewrite Hr; intros _|unfold settle; cbn; by rewrite Hr].
    apply Forall_app. split; [done|]. constructor; [|done]. done.
Qed.

(** ** Start-up and shutdown *)
Definition fresh_child (c : K * ChildType) : K * State := (c.1, mkState c.2 Status_Stopped Target_Running).
Definition running_child (c : K * ChildType) (a : Z) : K * State :=
  (c.1, mkState c.2 (Status_Running a) Target_Running).

Lemma add_all_states d cs : NoDup ((states d).*1 ++ cs.*1) →
  add_all d cs = set_states d (states d ++ (fresh_child <$> cs)).
Proof.
  revert d. induction cs as [|[k ct] cs IH]; intros d Hn; csimpl.
  - rewrite app_nil_r. by destruct d.
  - unfold add. destruct (existsb (has_key k) (states d)) eqn:E.
    + apply existsb_has_key in E. apply NoDup_app in Hn as (_ & Hn & _).
      destruct (Hn k E). csimpl. by left.
    + cbn [fst]. change (foldl _ ?d cs) with (add_all d cs). rewrite IH.
      * cbn. unfold fresh_child at 3. by rewrite <- app_assoc.
      * cbn. by rewrite fmap_app, <- app_assoc.
Qed.

Definition up (x : K * State) : Prop :=
  (∃ a, status x.2 = Status_Running a) ∧ target x.2 = Target_Running.

Lemma up_idle sup l : sup = Sup_Starting ∨ sup = Sup_Running → Forall up l → Forall (idle_in sup) l.
Proof.
  intros Hsup Hl. eapply Forall_impl; [done|]. intros [k [ct st tg]] [[b E1] E2]. simplify_eq/=.
  by destruct Hsup as [-> | ->].
Qed.

Lemma up_kept l : Forall up l → Forall (λ x, is_removed x.2 = false) l.
Proof.
  intros Hl. eapply Forall_impl; [done|]. intros [k [ct st tg]] [[b E1] E2]. by simplify_eq/=.
Qed.

Lemma fresh_kept cs : Forall (λ x, is_removed x.2 = false) (fresh_child <$> cs).
Proof. apply Forall_fmap, Forall_true. done. Qed.

Lemma up_all_running l : Forall up l → forallb (is_running ∘ snd) l = true.
Proof.
  induction 1 as [|x l [[b Hb] _] _ IH]; [done|]. cbn. unfold is_running. by rewrite Hb.
Qed.

Lemma addresses_fresh cs : addresses (fresh_child <$> cs) = [].
Proof. by induction cs. Qed.

(** A start reported for the first waiting child. *)
Lemma started_first ri stats l k ct l' a t sup :
  k ∉ l.*1 → a ∉ addresses l → a ∉ addresses l' →
  started (mkOFO ri stats (l ++ (k, mkState ct Status_Starting Target_Running) :: l') ∅ sup) k a t =
  Ret (mkOFO ri stats (l ++ running_child (k, ct) a :: l') ∅ sup).
Proof.
  intros Hk Ha Ha'. unfold started. cbn [states].
  set (s := mkState ct Status_Starting Target_Running).
  destruct (find_state_here (has_key k) l k s l') as [-> Hset].
  { apply Forall_forall. intros x Hx. apply bool_decide_eq_false. intros <-. destruct Hk.
    apply list_elem_of_fmap. by exists x. }
  { by apply bool_decide_eq_true. }
  cbn [status s]. rewrite Hset. rewrite assert_true; [done|]. apply negb_true_iff, not_true_iff_false.
  intros Hu. apply (existsb_has_address a (mkOFO ri stats (l ++ (k, s) :: l') ∅ sup)) in Hu.
  apply uses_addresses in Hu. cbn in Hu. rewrite addresses_app, addresses_cons in Hu. set_solver.
Qed.

(** The state in the middle of a start-up: the children [l] run, the children
    [cs] wait. *)
Lemma drive_startup ri stats l cs addrs t : length addrs = length cs →
  NoDup (l.*1 ++ cs.*1) → NoDup (addresses l ++ addrs) → Forall up l →
  drive (S (S (length cs))) (mkOFO ri stats (l ++ (fresh_child <$> cs)) ∅ Sup_Starting) addrs t =
    Ret (mkOFO ri stats (l ++ zip_with running_child cs addrs) ∅ Sup_Running, (Start <$> cs.*1) ++ [InitDone]).
Proof.
  revert l addrs. induction cs as [|[k ct] cs IH]; intros l [|a addrs] Hlen Hk Ha Hup; try done.
  - assert (Hr : retain_states l = l) by (apply retain_all; by apply up_kept).
    cbn [fmap list_fmap zip_with length app]. rewrite app_nil_r. set (d1 := mkOFO ri stats l ∅ Sup_Running).
    eapply drive_notice; [|by right|apply (drive_none _ d1 d1)].
    all: apply next_action_idle; cbn [states sup_status orphans d1]; rewrite ?Hr; auto using up_idle.
    unfold settle. cbn. by rewrite up_all_running.
  - injection Hlen as Hlen. apply NoDup_app in Hk as Hk'. destruct Hk' as (_ & Hk1 & _).
    apply NoDup_app in Ha as Ha'. destruct Ha' as (_ & Ha1 & _).
    cbn [length]. csimpl. eapply drive_start; cbn [d_next_action d_started ofo_decider].
    + eapply (next_action_child _ t l k (mkState ct Status_Stopped Target_Running) (fresh_child <$> cs)
        (mkState ct Status_Starting Target_Running) (Start k)); try done; [|by apply up_idle; auto].
      apply retain_all. apply Forall_app. split; [by apply up_kept|]. constructor; [done|apply fresh_kept].
    + apply started_first.
      * intros Hin. apply (Hk1 k Hin). by left.
      * intros Hin. apply (Ha1 a Hin). by left.
      * rewrite addresses_fresh. apply not_elem_of_nil.
    + specialize (IH (l ++ [running_child (k, ct) a]) addrs).
      rewrite <- !app_assoc in IH. apply IH; [done| | |].
      * by rewrite fmap_app, <- app_assoc.
      * by rewrite addresses_app, <- app_assoc.
      * apply Forall_app. split; [done|]. constructor; [|done]. split; [by exists a|done].
Qed.

(** a one-for-one supervisor with [n] children, in a world where every start
    succeeds, starts them one after another in the order they were given and then
    reports readiness; after these [n + 1] actions all its children run, each at
    the address it reported, and it has nothing more to do. *)
Theorem ofo_startup ri d0 cs addrs t : decider ri = Ret d0 →
  NoDup cs.*1 → NoDup addrs → length addrs = length cs →
  drive (S (S (length cs))) (add_all d0 cs) addrs t =
    Ret (mkOFO ri [] (zip_with running_child cs addrs) ∅ Sup_Running, (Start <$> cs.*1) ++ [InitDone]).
Proof.
  intros Hd Hk Ha Hlen. unfold decider, new_stats in Hd.
  destruct (_ <=? _); [|done]. injection Hd as <-.
  rewrite add_all_states by done. apply (drive_startup ri [] [] cs addrs t); try done.
Qed.

(** The stops a shutdown has to ask for. *)
Definition stop_of (x : K * State) : option (Action K) :=
  match status x.2 with Status_Running a => Some (Stop a (Some x.1)) | _ => None end.
Definition stops (l : list (K * State)) : list (Action K) := omap stop_of l.

Definition settled (x : K * State) : Prop := is_running x.2 || is_stopped x.2 = true.

Lemma stops_app l1 l2 : stops (l1 ++ l2) = stops l1 ++ stops l2.
Proof. apply omap_app. Qed.

Lemma stops_cons k s l : stops ((k, s) :: l) =
  match status s with Status_Running a => Stop a (Some k) :: stops l | _ => stops l end.
Proof. unfold stops. csimpl. unfold stop_of. by destruct s as [ct [] tg]. Qed.

Lemma stops_retain l : stops (retain_states l) = stops l.
Proof.
  induction l as [|[k [ct st tg]] l IH]; [done|]. unfold retain_states, stops in *. rewrite filter_cons.
  destruct st, tg; csimpl; by rewrite ?IH.
Qed.

Lemma stops_idle n l : Forall (idle_in (Sup_Stopping n)) l → stops l = [].
Proof.
  induction 1 as [|[k [ct st tg]] l Hi _ IH]; [done|]. unfold stops in *. csimpl.
  unfold stop_of. destruct st; cbn in *; by rewrite ?IH.
Qed.

Lemma settled_idle_stopped n l : Forall settled l → Forall (idle_in (Sup_Stopping n)) l →
  forallb (is_stopped ∘ snd) l = true.
Proof.
  intros Hs Hi. induction l as [|[k [ct st tg]] l IH]; [done|].
  apply Forall_cons in Hs as [Hs Hs']. apply Forall_cons in Hi as [Hi Hi']. cbn. rewrite (IH Hs' Hi').
  by destruct st.
Qed.

Lemma drive_shutdown m ri stats l n t : length (stops l) = m → NoDup (addresses l) → Forall settled l →
  ∃ l', drive (S m) (mkOFO ri stats l ∅ (Sup_Stopping n)) [] t =
          Ret (mkOFO ri stats l' ∅ Sup_Stopped, reverse (stops l) ++ [Quit n]) ∧
        forallb (is_stopped ∘ snd) l' = true.
Proof.
  revert l. induction m as [m IH] using lt_wf_ind. intros l Hm Ha Hs.
  set (d := mkOFO ri stats l ∅ (Sup_Stopping n)).
  assert (Hret : Forall settled (retain_states l)).
  { apply Forall_forall. intros x Hx. rewrite Forall_forall in Hs. apply Hs.
    eapply elem_of_sublist; [done|apply retain_sublist]. }
  destruct (scan_rev_split (child_action (Sup_Stopping n)) (retain_states l))
    as [Hi|(l1 & k & s & l2 & s' & a & El & Hi & Hc)]; [by apply child_action_no_panic| |].
  - pose proof (settled_idle_stopped n _ Hret Hi) as Hst.
    rewrite <- stops_retain, (stops_idle n) in * by done.
    exists (retain_states l). split; [|done]. cbn in Hm. subst m.
    apply drive_quit. apply next_action_idle; [done|done|].
    unfold settle. cbn [sup_status set_states states d]. by rewrite Hst.
  - pose proof (next_action_child d t l1 k s l2 s' a eq_refl El Hc Hi) as Hnext.
    apply child_action_some in Hc as [(_ & _ & [?|?] & _)|(b & Hb & -> & -> & _)]; [done..|].
    assert (Hstops : stops l = stops l1 ++ [Stop b (Some k)]).
    { rewrite <- stops_retain, El, stops_app, stops_cons, Hb. by rewrite (stops_idle n l2 Hi). }
    assert (Ha' : NoDup (addresses (l1 ++ (k, set_status s (Status_Terminating b)) :: l2))).
    { eapply sublist_NoDup in Ha; [|apply sublist_omap, retain_sublist]. rewrite El in Ha.
      fold (addresses (l1 ++ (k, s) :: l2)) in Ha.
      rewrite addresses_app, addresses_cons in *. cbn [status set_status status_address]. by rewrite Hb in Ha. }
    destruct m as [|m]; [by rewrite Hstops, length_app, Nat.add_comm in Hm|].
    assert (Hnew : stops (l1 ++ (k, set_status s Status_Stopped) :: l2) = stops l1).
    { rewrite stops_app, stops_cons. cbn [status set_status].
      by rewrite (stops_idle n l2 Hi), app_nil_r. }
    destruct (IH m ltac:(lia) (l1 ++ (k, set_status s Status_Stopped) :: l2)) as (l' & Hl' & Hst').
    + rewrite Hnew. rewrite Hstops, length_app in Hm. cbn in Hm. lia.
    + rewrite addresses_app, addresses_cons in *. cbn [status set_status status_address] in *.
      eapply sublist_NoDup; [exact Ha'|]. apply sublist_app; [done|]. by apply sublist_cons.
    + rewrite El in Hret. apply Forall_app in Hret as [H1 [_ H2]%Forall_cons].
      apply Forall_app. split; [done|]. by constructor.
    + exists l'. split; [|done]. rewrite Hstops, reverse_app. cbn [reverse rev_append app].
      eapply drive_stop; [exact Hnext| |rewrite Hnew in Hl'; exact Hl'].
      cbn [d_exited ofo_decider]. destruct (has_address_here _ _ _ _ b Ha' eq_refl) as [Hf Hset].
      unfold exited. cbn [states set_states]. rewrite Hf. cbn. by rewrite Z.eqb_refl, Hset.
Qed.

(** a shutdown completes: a one-for-one decider told to stop, with every
    child running or stopped, asks for the stop of each running child, the last
    started first, and after the last exit quits with the recorded reason; then
    every child is stopped and the supervisor is too. *)
Theorem ofo_shutdown d n t : wf d → sup_status d = Sup_Stopping n → orphans d = ∅ →
  Forall settled (states d) →
  ∃ d', drive (S (length (stops (states d)))) d [] t = Ret (d', reverse (stops (states d)) ++ [Quit n]) ∧
        sup_status d' = Sup_Stopped ∧ forallb (is_stopped ∘ snd) (states d') = true.
Proof.
  intros [_ Ha] Hsup Ho Hs. destruct d as [ri stats l o sup]. cbn in *. subst.
  destruct (drive_shutdown _ ri stats l n t eq_refl Ha Hs) as (l' & E & Hst). eauto.
Qed.

(** the decider quits only when it is shutting down with this reason and
    every child it still knows is stopped: no running, starting or terminating
    child and no orphan is left behind. *)
Theorem ofo_quit_clean d t d' n : next_action d t = Ret (d', Ok (Some (Quit n))) →
  sup_status d = Sup_Stopping n ∧ orphans d = ∅ ∧ Forall (λ x, status x.2 = Status_Stopped) (states d) ∧
  sup_status d' = Sup_Stopped.
Proof.
  intros E. destruct (next_action_cases d t) as [a Ha E'|l1 k s l2 s' a Ho Hss El Hc _ E'|d2 o Ho Hi Hset E'];
    rewrite E in E'; simplify_eq/=.
  - apply child_action_some in Hc as [(_ & _ & _ & _ & ?)|(b & _ & _ & ? & _)]; done.
  - unfold settle in Hset. cbn in Hset. destruct (sup_status d) eqn:Es; [by case_match|done| |done].
    destruct (forallb _ (retain_states (states d))) eqn:Ef; simplify_eq/=. split_and!; try done.
    rewrite forallb_forall in Ef. apply Forall_forall. intros [k [ct st tg]] Hx. cbn.
    destruct (decide (is_removed (mkState ct st tg) = false)) as [Hr|Hr].
    + specialize (Ef (k, mkState ct st tg)). rewrite <- list_elem_of_In in Ef.
      unfold retain_states in Ef. rewrite list_elem_of_filter in Ef.
      specialize (Ef (conj Hr Hx)). by destruct st.
    + by destruct st.
Qed.

End OneForOne.

(** ** Runs *)
#[local] Existing Instance elements_iter.

Definition ri2 : RestartIntensity := mkRI 2 10.
Definition three : list (Z * ChildType) := [(1, Permanent); (2, Transient); (3, Temporary)].

(** Three running children, at the addresses 101, 102 and 103. *)
Definition three_running (sup : SupStatus) : OneForOneDecider Z :=
  mkOFO ri2 [] (zip_with running_child three [101; 102; 103]) ∅ sup.

Lemma three_wf sup : wf (three_running sup).
Proof. split; apply (bool_decide_unpack _); vm_compute; exact I. Qed.

Lemma ofo_unique_witness : NoDup (states (three_running Sup_Starting)).*1.
Proof.
  refine (proj1 (ofo_unique ri2
    ([OpAdd 1 Permanent; OpAdd 2 Transient; OpAdd 3 Temporary; OpNext 0; OpStarted 1 101 0;
      OpNext 0; OpStarted 2 102 0; OpNext 0; OpStarted 3 103 0])
    (mkOFO ri2 [] [] ∅ Sup_Starting) (three_running Sup_Starting) [Start 1; Start 2; Start 3] _ _)).
  all: vm_compute; reflexivity.
Defined.

(** The transient child 2 exits normally; then everything is asked for. *)
Lemma ofo_no_restart_witness : Start 2 ∉ [Start 1] ++ @nil (Action Z).
Proof.
  assert (Hop : Forall (λ op : Op Z, ∀ ct, op ≠ OpAdd 2 ct) [OpExited 101 true 6; OpNext 7; OpNext 8])
    by (repeat constructor; done).
  assert (Ha : is_acceptable Transient true = true) by reflexivity.
  eapply (ofo_no_restart (three_running Sup_Running) [running_child (1, Permanent) 101] 2
    (mkState Transient (Status_Running 102) Target_Running) [running_child (3, Temporary) 103] 102 true 5
    _ [OpExited 101 true 6; OpNext 7; OpNext 8] _ _ (three_wf _) eq_refl eq_refl Ha eq_refl Hop).
  vm_compute. reflexivity.
Defined.

Lemma ofo_restart_witness : ∃ d', exited (three_running Sup_Running) 101 true 5 = Ret d' ∧ restart_stats d' = [5] ∧
  ∃ d'', next_action d' 6 = Ret (d'', Ok (Some (Start 1))) ∧
    states d'' = (1, mkState Permanent Status_Starting Target_Running) :: zip_with running_child
      [(2, Transient); (3, Temporary)] [102; 103].
Proof.
  destruct (ofo_restart (three_running Sup_Running) [] 1 (mkState Permanent (Status_Running 101) Target_Running)
    (zip_with running_child [(2, Transient); (3, Temporary)] [102; 103]) 101 true 5 6 [5] (Ok tt) (three_wf _)) as (d' & E & Ed & Hn & _);
    try reflexivity.
  - repeat constructor.
  - exists d'. split; [exact E|]. split; [by rewrite Ed|]. eexists. split; [exact Hn | by rewrite Ed].
Defined.

Lemma ofo_stopping_final_witness : InitDone ∉ [Stop 103 (Some 3); Stop 102 (Some 2)].
Proof.
  eapply (ofo_stopping_final (three_running (Sup_Stopping true)) [OpNext 1; OpNext 2] _ _ I).
  vm_compute. reflexivity.
Defined.

Lemma ofo_startup_witness :
  drive 5 (add_all (mkOFO ri2 [] [] ∅ Sup_Starting) three) [101; 102; 103] 0 =
    Ret (three_running Sup_Running, [Start 1; Start 2; Start 3; InitDone]).
Proof.
  refine (ofo_startup ri2 _ three [101; 102; 103] 0 eq_refl _ _ eq_refl);
    apply (bool_decide_unpack _); vm_compute; exact I.
Defined.

Lemma ofo_shutdown_witness : ∃ d',
  drive 4 (three_running (Sup_Stopping false)) [] 0 =
    Ret (d', [Stop 103 (Some 3); Stop 102 (Some 2); Stop 101 (Some 1); Quit false]) ∧
  sup_status d' = Sup_Stopped ∧ forallb (is_stopped ∘ snd) (states d') = true.
Proof.
  apply (ofo_shutdown (three_running (Sup_Stopping false)) false 0 (three_wf _) eq_refl eq_refl).
  repeat constructor.
Defined.

Definition all_stopped : OneForOneDecider Z :=
  mkOFO ri2 [] [(1, mkState Permanent Status_Stopped Target_Running)] ∅ (Sup_Stopping false).

Lemma ofo_quit_clean_witness : sup_status all_stopped = Sup_Stopping false ∧ orphans all_stopped = ∅ ∧
  Forall (λ x, status x.2 = Status_Stopped) (states all_stopped) ∧
  sup_status (set_sup_status all_stopped Sup_Stopped) = Sup_Stopped.
Proof. apply (ofo_quit_clean all_stopped 0). vm_compute. reflexivity. Defined.

(** An exit of an unknown address after the supervisor has quit abnormally:
    it quits again, normally. *)
Example ofo_unknown_exit_overrides :
  (d ← exited (set_sup_status all_stopped Sup_Stopped) 999 false 0; '(_, r) ← next_action d 0; Ret r) =
  Ret (Ok (Some (Quit true))).
Proof. vm_compute. reflexivity. Qed.

(** A temporary child that exits while a sibling is still starting keeps the
    supervisor from ever reporting readiness: its status is not [Running]. *)
Example ofo_early_exit_blocks_readiness :
  (d ← started (mkOFO ri2 [] [(1, mkState Temporary (Status_Running 101) Target_Running);
                              (2, mkState Permanent Status_Starting Target_Running)] ∅ Sup_Starting) 2 102 0;
   d ← exited d 101 true 1; '(_, r) ← next_action d 2; Ret r) = Ret (Ok None).
Proof. vm_compute. reflexivity. Qed.
