(* ===== verification/AllForOne.v ===== *)
(** * The all-for-one strategy
    (components/mm1-sup/src/mixed/strategy/all_for_one.rs)

    When a child exits in a way its type does not allow, all the children are
    stopped, the last one first, and started again in order. *)

From S2P Require Import Prelude Restart Decider.

Open Scope Z_scope.

Inductive Status :=
| Status_Starting
| Status_Running (address : Z)
| Status_Terminating (address : Z)
| Status_Stopped.

Inductive Target := Target_Running | Target_Stopped.

Record State := mkState { child_type : ChildType; status : Status; target : Target }.

Inductive SupStatus :=
| Sup_Starting
| Sup_Running
| Sup_Restarting
| Sup_Stopping (normal_exit : bool)
| Sup_Stopped.

Record AllForOneDecider (K : Type) := mkAFO {
  restart_intensity : RestartIntensity;
  restart_stats : RestartStats;
  states : list (K * State);
  orphans : gset Z;
  sup_status : SupStatus;
}.
Arguments mkAFO {K}.
Arguments restart_intensity {K}.
Arguments restart_stats {K}.
Arguments states {K}.
Arguments orphans {K}.
Arguments sup_status {K}.

#[export] Instance Status_eq_dec : EqDecision Status.
Proof. solve_decision. Defined.
#[export] Instance Target_eq_dec : EqDecision Target.
Proof. solve_decision. Defined.
#[export] Instance SupStatus_eq_dec : EqDecision SupStatus.
Proof. solve_decision. Defined.

Section AllForOne.
Context `{HashSetIter} {K : Type} `{EqDecision K}.

Abbreviation D := (AllForOneDecider K).

(** Assignments to single fields. *)
Definition set_states (d : D) (l : list (K * State)) : D :=
  mkAFO (restart_intensity d) (restart_stats d) l (orphans d) (sup_status d).
Definition set_orphans (d : D) (o : gset Z) : D :=
  mkAFO (restart_intensity d) (restart_stats d) (states d) o (sup_status d).
Definition set_sup_status (d : D) (s : SupStatus) : D :=
  mkAFO (restart_intensity d) (restart_stats d) (states d) (orphans d) s.
Definition set_stats (d : D) (r : RestartStats) : D :=
  mkAFO (restart_intensity d) r (states d) (orphans d) (sup_status d).
Definition set_status (s : State) (st : Status) : State := mkState (child_type s) st (target s).
Definition set_target (s : State) (t : Target) : State := mkState (child_type s) (status s) t.

(** [AllForOne::decider] *)
Definition decider (ri : RestartIntensity) : outcome D :=
  stats ← new_stats ri;
  Ret (mkAFO ri stats [] ∅ Sup_Starting).

(** [Status::Running { address } | Status::Terminating { address }] *)
Definition status_address (s : Status) : option Z :=
  match s with
  | Status_Running a | Status_Terminating a => Some a
  | _ => None
  end.

Definition has_address (a : Z) (x : K * State) : bool :=
  bool_decide (status_address (status x.2) = Some a).

Definition address (d : D) (key : K) : result (option Z) DeciderError :=
  ok_or (status_address ∘ status <$> find_state (has_key key) (states d)) KeyNotFound.

Definition add (d : D) (key : K) (ct : ChildType) : D * result unit DeciderError :=
  if existsb (has_key key) (states d) then (d, Err DuplicateKey)
  else (set_states d (states d ++ [(key, mkState ct Status_Stopped Target_Running)]), Ok tt).

Definition rm (d : D) (_key : K) : D * result unit DeciderError :=
  (d, Err Unsupported).

Definition started (d : D) (key : K) (reported_address : Z) (_at : Instant) : outcome D :=
  assert_ (negb (existsb (has_address reported_address) (states d)));;
  match find_state (has_key key) (states d) with
  | None => Ret d
  | Some s =>
      match status s with
      | Status_Running _ | Status_Terminating _ | Status_Stopped =>
          Ret (set_orphans d ({[reported_address]} ∪ orphans d))
      | Status_Starting =>
          Ret (set_states d (set_state (has_key key)
                 (set_status s (Status_Running reported_address)) (states d)))
      end
  end.

Definition is_acceptable (ct : ChildType) (normal_exit : bool) : bool :=
  match ct with
  | Permanent => false
  | Transient => normal_exit
  | Temporary => true
  end.

Definition exited (d : D) (reported_addr : Z) (normal_exit : bool) (at_ : Instant) : outcome D :=
  match find_state (has_address reported_addr) (states d) with
  | None => Ret (set_sup_status d (Sup_Stopping true))
  | Some s =>
      let put (d : D) (s : State) := set_states d (set_state (has_address reported_addr) s (states d)) in
      match status s, is_acceptable (child_type s) normal_exit with
      | Status_Terminating address, _ =>
          assert_ (address =? reported_addr);;
          Ret (put d (set_status s Status_Stopped))
      | Status_Running address, true =>
          assert_ (address =? reported_addr);;
          Ret (put d (set_target (set_status s Status_Stopped) Target_Stopped))
      | Status_Running address, false =>
          assert_ (address =? reported_addr);;
          let '(stats, r) := report_exit (restart_intensity d) (restart_stats d) at_ in
          let d := set_stats d stats in
          let d := match r with
                   | Err _ => set_sup_status d (Sup_Stopping false)
                   | Ok _ => set_sup_status d Sup_Restarting
                   end in
          Ret (put d (set_status s Status_Stopped))
      | _, _ => Panic
      end
  end.

Definition failed (d : D) (key : K) (_at : Instant) : D :=
  match find_state (has_key key) (states d) with
  | None => d
  | Some s =>
      let s' := match status s with
                | Status_Starting => set_status s Status_Stopped
                | _ => set_target s Target_Stopped
                end in
      set_sup_status (set_states d (set_state (has_key key) s' (states d))) (Sup_Stopping false)
  end.

Definition quit (d : D) (normal_exit : bool) : D :=
  set_sup_status d
    match sup_status d with
    | Sup_Stopped => Sup_Stopped
    | Sup_Stopping existing_normal_exit => Sup_Stopping (normal_exit && existing_normal_exit)
    | Sup_Starting | Sup_Restarting | Sup_Running => Sup_Stopping normal_exit
    end.

(** The target the loop of [next_action] works towards. *)
Definition effective_target (sup : SupStatus) (t : Target) : outcome Target :=
  match sup with
  | Sup_Starting | Sup_Running => Ret t
  | Sup_Stopping _ | Sup_Restarting => Ret Target_Stopped
  | Sup_Stopped => Panic
  end.

(** The [match (status, target)] of the loop. *)
Definition child_action (sup : SupStatus) (key : K) (s : State) : outcome (option (State * Action K)) :=
  target ← effective_target sup (target s);
  match status s, target with
  | Status_Starting, _ => Ret None
  | Status_Terminating _, _ => Ret None
  | Status_Running _, Target_Running => Ret None
  | Status_Stopped, Target_Stopped => Ret None
  | Status_Stopped, Target_Running => Ret (Some (set_status s Status_Starting, Start key))
  | Status_Running address, Target_Stopped =>
      Ret (Some (set_status s (Status_Terminating address), Stop address (Some key)))
  end.

Definition is_running (s : State) : bool :=
  match status s with Status_Running _ => true | _ => false end.
Definition is_stopped (s : State) : bool :=
  match status s with Status_Stopped => true | _ => false end.

Definition next_action (d : D) (_at : Instant) :
  outcome (D * result (option (Action K)) DeciderError) :=
  match hs_next (orphans d) with
  | Some address => Ret (set_orphans d (orphans d ∖ {[address]}), Ok (Some (Stop address None)))
  | None =>
      r ← match sup_status d with
          | Sup_Starting | Sup_Running =>
              scan (child_action (sup_status d)) is_running is_stopped (states d) true true
          | Sup_Stopping _ | Sup_Restarting =>
              scan_rev (child_action (sup_status d)) is_running is_stopped (states d) true true
          | Sup_Stopped => scan (child_action (sup_status d)) is_running is_stopped [] true true
          end;
      match r with
      | Acted l a => Ret (set_states d l, Ok (Some a))
      | Idle all_children_started all_children_stopped =>
          match sup_status d with
          | Sup_Running | Sup_Stopped => Ret (d, Ok None)
          | Sup_Starting =>
              if all_children_started then Ret (set_sup_status d Sup_Running, Ok (Some InitDone))
              else Ret (d, Ok None)
          | Sup_Restarting =>
              if all_children_stopped then Ret (set_sup_status d Sup_Running, Ok (Some Noop))
              else Ret (d, Ok None)
          | Sup_Stopping normal_exit =>
              if all_children_stopped then Ret (set_sup_status d Sup_Stopped, Ok (Some (Quit normal_exit)))
              else Ret (d, Ok None)
          end
      end
  end.

#[export] Instance afo_decider : Decider D K := {
  d_add := add;
  d_rm := rm;
  d_started := started;
  d_exited := exited;
  d_failed := failed;
  d_quit := quit;
  d_address := address;
  d_next_action := next_action;
}.

(** ** The calls, case by case *)
Lemma afo_child_action_some sup k s s' a : child_action sup k s = Ret (Some (s', a)) →
  (status s = Status_Stopped ∧ target s = Target_Running ∧ (sup = Sup_Starting ∨ sup = Sup_Running) ∧
   s' = set_status s Status_Starting ∧ a = Start k) ∨
  (∃ addr, status s = Status_Running addr ∧ s' = set_status s (Status_Terminating addr) ∧
   a = Stop addr (Some k) ∧
   ((∃ n, sup = Sup_Stopping n) ∨ sup = Sup_Restarting ∨ target s = Target_Stopped)).
Proof.
  destruct s as [ct st tg], st, tg, sup; cbn; intros [= <- <-]; naive_solver.
Qed.

Lemma afo_child_action_no_panic sup (l : list (K * State)) : sup ≠ Sup_Stopped →
  Forall (λ x, child_action sup x.1 x.2 ≠ Panic) l.
Proof.
  intros Hs. apply Forall_forall. intros [k [ct st tg]] Hx. by destruct st, tg, sup.
Qed.

Abbreviation idle_in sup := (idle (child_action sup)).

(** The first child, in the order of the walk, that calls for an action. *)
Lemma afo_next_action_child d t l1 k s l2 s' a :
  orphans d = ∅ → states d = l1 ++ (k, s) :: l2 →
  child_action (sup_status d) k s = Ret (Some (s', a)) →
  match sup_status d with
  | Sup_Stopping _ | Sup_Restarting => Forall (idle_in (sup_status d)) l2
  | _ => Forall (idle_in (sup_status d)) l1
  end →
  next_action d t = Ret (set_states d (l1 ++ (k, s') :: l2), Ok (Some a)).
Proof.
  intros Ho El Ha Hi. unfold next_action. simpl. rewrite Ho, hs_next_empty, El.
  destruct (sup_status d) eqn:E; try done.
  1,2: by erewrite scan_acted by done.
  all: by erewrite scan_rev_acted by done.
Qed.

(** What [next_action] answers when no child calls for an action. *)
Definition settle (d : D) : D * option (Action K) :=
  match sup_status d with
  | Sup_Running | Sup_Stopped => (d, None)
  | Sup_Starting =>
      if forallb (is_running ∘ snd) (states d) then (set_sup_status d Sup_Running, Some InitDone)
      else (d, None)
  | Sup_Restarting =>
      if forallb (is_stopped ∘ snd) (states d) then (set_sup_status d Sup_Running, Some Noop)
      else (d, None)
  | Sup_Stopping normal_exit =>
      if forallb (is_stopped ∘ snd) (states d) then (set_sup_status d Sup_Stopped, Some (Quit normal_exit))
      else (d, None)
  end.

Lemma afo_next_action_idle d t d' o : orphans d = ∅ →
  (sup_status d ≠ Sup_Stopped → Forall (idle_in (sup_status d)) (states d)) →
  settle (d) = (d', o) →
  next_action d t = Ret (d', Ok o).
Proof.
  intros Ho Hi. unfold settle, next_action. simpl. rewrite Ho, hs_next_empty.
  destruct (sup_status d) eqn:E; [..|by intros [= <- <-]].
  1,2: rewrite scan_idle by (by apply Hi). 3,4: rewrite scan_rev_idle by (by apply Hi).
  all: rewrite bind_Ret; cbn [andb]; repeat case_match; intros; by simplify_eq.
Qed.

Inductive next_spec (d : D) (t : Instant) : Prop :=
| next_orphan a :
    a ∈ orphans d →
    next_action d t = Ret (set_orphans (d) (orphans d ∖ {[a]}),
                           Ok (Some (Stop a None))) →
    next_spec d t
| next_child l1 k s l2 s' a :
    orphans d = ∅ → sup_status d ≠ Sup_Stopped →
    states d = l1 ++ (k, s) :: l2 →
    child_action (sup_status d) k s = Ret (Some (s', a)) →
    match sup_status d with
    | Sup_Stopping _ | Sup_Restarting => Forall (idle_in (sup_status d)) l2
    | _ => Forall (idle_in (sup_status d)) l1
    end →
    next_action d t = Ret (set_states d (l1 ++ (k, s') :: l2), Ok (Some a)) →
    next_spec d t
| next_idle d' o :
    orphans d = ∅ →
    (sup_status d ≠ Sup_Stopped → Forall (idle_in (sup_status d)) (states d)) →
    settle (d) = (d', o) →
    next_action d t = Ret (d', Ok o) →
    next_spec d t.

Lemma afo_next_action_cases d t : next_spec d t.
Proof.
  destruct (hs_next (orphans d)) as [a|] eqn:Eo.
  { apply (next_orphan d t a); [by apply hs_next_elem|]. unfold next_action. simpl. by rewrite Eo. }
  pose proof (hs_next_none _ Eo) as Ho.
  destruct (settle (d)) as [d' o] eqn:Es.
  assert (Hidle : (sup_status d ≠ Sup_Stopped → Forall (idle_in (sup_status d)) (states d)) →
    next_spec d t) by (intros Hi; eapply next_idle; eauto using afo_next_action_idle).
  destruct (decide (sup_status d = Sup_Stopped)) as [E|Hn]; [by apply Hidle|].
  pose proof (afo_child_action_no_panic (sup_status d) (states d) Hn) as Hp.
  assert (Hchild : ∀ l1 k s l2 s' a, states d = l1 ++ (k, s) :: l2 →
    child_action (sup_status d) k s = Ret (Some (s', a)) →
    match sup_status d with
    | Sup_Stopping _ | Sup_Restarting => Forall (idle_in (sup_status d)) l2
    | _ => Forall (idle_in (sup_status d)) l1
    end → next_spec d t) by (intros; eapply next_child; eauto using afo_next_action_child).
  destruct (sup_status d) eqn:E.
  1,2: apply scan_split in Hp as [Hi|(l1 & k & s & l2 & s' & a & El & Hi & Ha)]; eauto.
  3: done.
  all: apply scan_rev_split in Hp as [Hi|(l1 & k & s & l2 & s' & a & El & Hi & Ha)]; eauto.
Qed.

(** How [exited] finds its child, and what it does with it. *)
Inductive exited_spec (d : D) (a : Z) (n : bool) (t : Instant) : Prop :=
| exited_unknown :
    (∀ x, x ∈ states d → status_address (status x.2) ≠ Some a) →
    exited d a n t = Ret (set_sup_status d (Sup_Stopping true)) →
    exited_spec d a n t
| exited_terminating l1 k s l2 :
    states d = l1 ++ (k, s) :: l2 → status s = Status_Terminating a →
    exited d a n t = Ret (set_states d (l1 ++ (k, set_status s Status_Stopped) :: l2)) →
    exited_spec d a n t
| exited_acceptable l1 k s l2 :
    states d = l1 ++ (k, s) :: l2 → status s = Status_Running a → is_acceptable (child_type s) n = true →
    exited d a n t =
      Ret (set_states d (l1 ++ (k, set_target (set_status s Status_Stopped) Target_Stopped) :: l2)) →
    exited_spec d a n t
| exited_unacceptable l1 k s l2 stats r :
    states d = l1 ++ (k, s) :: l2 → status s = Status_Running a → is_acceptable (child_type s) n = false →
    report_exit (restart_intensity d) (restart_stats d) t = (stats, r) →
    exited d a n t =
      Ret (mkAFO (restart_intensity d) stats (l1 ++ (k, set_status s Status_Stopped) :: l2) (orphans d)
             (if is_ok r then Sup_Restarting else Sup_Stopping false)) →
    exited_spec d a n t.

Lemma afo_exited_cases d a n t : exited_spec d a n t.
Proof.
  destruct (find_state (has_address a) (states d)) as [s|] eqn:E.
  - pose proof (find_state_split _ _ _ E) as (l1 & k & l2 & El & Hp & _ & Hset).
    unfold has_address in Hp. apply bool_decide_eq_true in Hp. simpl in Hp.
    destruct (status s) as [|b|b|] eqn:Es; simplify_eq/=.
    + destruct (is_acceptable (child_type s) n) eqn:Ea.
      * eapply exited_acceptable; eauto. unfold exited. rewrite E, Es, Ea, Z.eqb_refl.
        simpl. by rewrite Hset.
      * destruct (report_exit (restart_intensity d) (restart_stats d) t) as [stats r] eqn:Er.
        eapply exited_unacceptable; eauto. unfold exited. rewrite E, Es, Ea, Z.eqb_refl, Er.
        simpl. by destruct r; simpl; rewrite Hset.
    + eapply exited_terminating; eauto. unfold exited. rewrite E, Es, Z.eqb_refl.
      simpl. by rewrite Hset.
  - apply exited_unknown.
    + intros x Hx. pose proof (find_state_none _ _ E x Hx) as Hf. by apply bool_decide_eq_false in Hf.
    + unfold exited. by rewrite E.
Qed.

Definition uses (d : D) (a : Z) : Prop := ∃ x, x ∈ states d ∧ status_address (status x.2) = Some a.

Lemma afo_existsb_has_address a d : existsb (has_address a) (states d) = true ↔ uses d a.
Proof.
  rewrite existsb_exists. unfold has_address, uses. setoid_rewrite bool_decide_eq_true.
  by setoid_rewrite <- list_elem_of_In.
Qed.

Lemma afo_started_panic d k a t : started d k a t = Panic ↔ uses d a.
Proof.
  rewrite <- afo_existsb_has_address. unfold started.
  destruct (existsb (has_address a) (states d)); simpl; [done|].
  split; [|done]. intros H0. by repeat case_match.
Qed.

Definition stopping (d : D) : Prop :=
  match sup_status d with Sup_Stopping _ | Sup_Stopped => True | _ => False end.

(** ** The life of a child

    The step a call makes on the child it selects, with the action it emits. *)
Inductive child_step (d : D) (k : K) : Op K → list (Action K) → State → State → Prop :=
| cs_started s a t :
    ¬ uses d a → status s = Status_Starting →
    child_step d k (OpStarted k a t) [] s (set_status s (Status_Running a))
| cs_terminated s a n t :
    status s = Status_Terminating a →
    child_step d k (OpExited a n t) [] s (set_status s Status_Stopped)
| cs_acceptable s a n t :
    status s = Status_Running a → is_acceptable (child_type s) n = true →
    child_step d k (OpExited a n t) [] s (set_target (set_status s Status_Stopped) Target_Stopped)
| cs_unacceptable s a n t :
    status s = Status_Running a → is_acceptable (child_type s) n = false →
    child_step d k (OpExited a n t) [] s (set_status s Status_Stopped)
| cs_start_failed s t :
    status s = Status_Starting → child_step d k (OpFailed k t) [] s (set_status s Status_Stopped)
| cs_failed s t :
    status s ≠ Status_Starting → child_step d k (OpFailed k t) [] s (set_target s Target_Stopped)
| cs_start s t :
    status s = Status_Stopped → target s = Target_Running →
    sup_status d = Sup_Starting ∨ sup_status d = Sup_Running →
    child_step d k (OpNext t) [Start k] s (set_status s Status_Starting)
| cs_stop s a t :
    status s = Status_Running a → stopping d ∨ sup_status d = Sup_Restarting ∨ target s = Target_Stopped →
    child_step d k (OpNext t) [Stop a (Some k)] s (set_status s (Status_Terminating a)).

(** The effect of a call on the children: at most one of them steps, or a new
    one is added at the end. *)
Inductive states_step (d : D) (op : Op K) (acts : list (Action K)) (l : list (K * State)) : Prop :=
| ss_add k ct :
    op = OpAdd k ct → acts = [] → k ∉ (states d).*1 →
    l = states d ++ [(k, mkState ct Status_Stopped Target_Running)] → states_step d op acts l
| ss_same :
    l = states d → (∀ k, Start k ∉ acts) → (∀ a k, Stop a (Some k) ∉ acts) →
    states_step d op acts l
| ss_child l1 k s l2 s' :
    states d = l1 ++ (k, s) :: l2 → child_step d k op acts s s' →
    l = l1 ++ (k, s') :: l2 → states_step d op acts l.

Lemma afo_settle_states d : states (settle d).1 = states d.
Proof. unfold settle. by repeat case_match. Qed.

Lemma afo_run_op_states d op d' acts : run_op d op = Ret (d', acts) → states_step d op acts (states d').
Proof.
  assert (Hsame : ∀ l : list (K * State), l = states d → states_step d op [] l).
  { intros l ->. apply ss_same; [done| |]; intros *; apply not_elem_of_nil. }
  destruct op as [k ct|k|k a t|a n t|k t|n|t]; cbn [run_op d_add d_rm d_started d_exited d_failed d_quit
    d_next_action afo_decider].
  - unfold add. destruct (existsb (has_key k) (states d)) eqn:E; intros [= <- <-]; [auto|].
    eapply ss_add; eauto. rewrite <- existsb_has_key, E. done.
  - intros [= <- <-]. auto.
  - intros (d1 & E1 & [= <- <-])%bind_Ret_inv. pose proof (afo_started_panic d k a t) as Hp.
    rewrite E1 in Hp. unfold started in E1.
    apply bind_Ret_inv in E1 as (_ & _ & E1).
    destruct (find_state (has_key k) (states d)) as [s|] eqn:E; [|simplify_eq; auto].
    destruct (status s) eqn:Es; simplify_eq/=; auto.
    destruct (has_key_split _ _ _ E) as (l1 & l2 & El & Hs). simpl. rewrite Hs.
    eapply ss_child; [by rewrite El|constructor|done]; naive_solver.
  - intros (d1 & E1 & [= <- <-])%bind_Ret_inv.
    destruct (afo_exited_cases d a n t) as [_ E|l1 k s l2 El Hst E|l1 k s l2 El Hst Ha E|l1 k s l2 st r El Hst Ha _ E];
      rewrite E1 in E; simplify_eq/=; [auto| | |].
    all: eapply ss_child; [by rewrite El| |done]; by constructor.
  - unfold failed. destruct (find_state (has_key k) (states d)) as [s|] eqn:E; intros [= <- <-]; [|auto].
    destruct (has_key_split _ _ _ E) as (l1 & l2 & El & Hs). simpl. rewrite Hs.
    eapply ss_child; [by rewrite El| |done]. destruct (status s) eqn:Es; constructor; congruence.
  - intros [= <- <-]. auto.
  - intros ([d1 r] & E1 & [= <- <-])%bind_Ret_inv.
    destruct (afo_next_action_cases d t) as [a Ha E|l1 k s l2 s' a Ho Hss El Hc _ E|d2 o Ho _ Hset E];
      rewrite E1 in E; simplify_eq/=.
    + apply ss_same; [done| |]; set_solver.
    + apply afo_child_action_some in Hc as [(Hs & Ht & Hsup & -> & ->)|(b & Hs & -> & -> & Hor)].
      all: eapply ss_child; [exact El| |done]; constructor; auto.
      destruct Hor as [[n Hn]|Ht]; [|by right]. left. unfold stopping. by rewrite Hn.
    + pose proof (afo_settle_states d) as Hs. rewrite Hset in Hs. apply ss_same; [done| |].
      all: unfold settle in Hset; repeat case_match; simplify_eq/=; set_solver.
Qed.

(** ** The interface's laws *)
Lemma afo_run_op_keys d op d' acts : (∀ k ct, op ≠ OpAdd k ct) → run_op d op = Ret (d', acts) →
  (states d').*1 ⊆ (states d).*1.
Proof.
  intros Hop Hrun. destruct (afo_run_op_states _ _ _ _ Hrun) as [k ct -> _ _ _|Hs _ _|l1 k s l2 s' Hs _ ->].
  - by destruct (Hop k ct).
  - by rewrite Hs.
  - rewrite Hs, !fmap_app. by csimpl.
Qed.

Lemma afo_next_action_ok d t : ∃ d' o, next_action d t = Ret (d', Ok o).
Proof. destruct (afo_next_action_cases d t); eauto. Qed.

Lemma afo_exited_ok d a n t : ∃ d', exited d a n t = Ret d'.
Proof. destruct (afo_exited_cases d a n t); eauto. Qed.

Lemma afo_run_op_panic d op : run_op d op = Panic ↔ ∃ k a t, op = OpStarted k a t ∧ uses d a.
Proof.
  destruct op as [k ct|k|k a t|a n t|k t|n|t]; cbn [run_op d_started d_exited d_next_action afo_decider].
  3: { pose proof (afo_started_panic d k a t) as Hp. destruct (started d k a t) as [d'|]; simpl.
    - split; [done|]. intros (k' & a' & t' & [= <- <- <-] & Hu). by apply Hp in Hu.
    - split; [|done]. intros _. eexists _, _, _. split; [done|]. by apply Hp. }
  3: destruct (afo_exited_ok d a n t) as [d' ->].
  6: destruct (afo_next_action_ok d t) as (d' & o & ->).
  all: split; [done|]; intros (? & ? & ? & [=] & _).
Qed.

#[export] Instance afo_laws : DeciderLaws D K.
Proof.
  refine {| d_keys := λ d, (states d).*1; d_uses := uses |}.
  - intros d k ct d' r. cbn. unfold add. destruct (existsb (has_key k) (states d)) eqn:E; intros [= <- <-].
    + right. by apply existsb_has_key in E.
    + left. rewrite <- existsb_has_key, E. split_and!; try done. cbn. by rewrite fmap_app.
  - apply afo_run_op_keys.
  - apply afo_run_op_panic.
  - apply afo_next_action_ok.
  - intros d t d' o E. cbn in E.
    assert (Hr : run_op d (OpNext t) = Ret (d', [o])) by (cbn; by rewrite E).
    pose proof (afo_run_op_states _ _ _ _ Hr) as [|_ Hs1 Hs2|l1 k s l2 s' Hs Hc _]; [done| |].
    + destruct o as [| |k|a [k|]|n]; try done; [by destruct (Hs1 k); left|by destruct (Hs2 a k); left].
    + assert (Hk : k ∈ (states d).*1).
      { rewrite Hs, fmap_app. csimpl. set_solver. }
      by inversion Hc; subst.
Defined.

(** ** The invariant: keys and addresses are unique *)
Definition addresses (l : list (K * State)) : list Z := omap (status_address ∘ status ∘ snd) l.

Definition wf (d : D) : Prop := NoDup (states d).*1 ∧ NoDup (addresses (states d)).

Lemma afo_uses_addresses d a : uses d a ↔ a ∈ addresses (states d).
Proof. unfold uses, addresses. by rewrite list_elem_of_omap. Qed.

Lemma afo_addresses_app l1 l2 : addresses (l1 ++ l2) = addresses l1 ++ addresses l2.
Proof. apply omap_app. Qed.

Lemma afo_addresses_cons k s l :
  addresses ((k, s) :: l) = match status_address (status s) with Some a => [a] | None => [] end ++ addresses l.
Proof. unfold addresses. csimpl. by destruct (status_address (status s)). Qed.

(** A child steps to an address only from it, or to a fresh one. *)
Lemma afo_child_step_address d k op acts s s' a : child_step d k op acts s s' →
  status_address (status s') = Some a → status_address (status s) = Some a ∨ ¬ uses d a.
Proof. destruct 1 as [|? ? ? ? E|? ? ? ? E|? ? ? ? E| | | |? ? ? E]; cbn; rewrite ?E; naive_solver. Qed.

Lemma afo_run_op_wf d op d' acts : wf d → run_op d op = Ret (d', acts) → wf d'.
Proof.
  intros [Hk Ha] Hrun. unfold wf.
  destruct (afo_run_op_states _ _ _ _ Hrun) as [k ct _ _ Hn ->|Hs _ _|l1 k s l2 s' Hs Hc ->].
  - rewrite fmap_app, afo_addresses_app, afo_addresses_cons. csimpl. rewrite app_nil_r.
    split; [|done]. apply NoDup_app. split_and!; [done| |apply NoDup_singleton]. set_solver.
  - by rewrite Hs.
  - rewrite Hs in Hk, Ha. split.
    + by rewrite fmap_app in *.
    + pose proof (λ a, afo_child_step_address _ _ _ _ _ _ a Hc) as Hc'.
      assert (Hsub : ∀ b, b ∈ addresses l1 ∨ b ∈ addresses l2 → uses d b).
      { intros b Hb. apply afo_uses_addresses. rewrite Hs, afo_addresses_app, afo_addresses_cons. set_solver. }
      rewrite afo_addresses_app, afo_addresses_cons in *.
      apply NoDup_app in Ha as (H1 & H12 & (H2 & H23 & H3)%NoDup_app).
      destruct (status_address (status s')) as [a|] eqn:E.
      * assert (a ∉ addresses l1 ∧ a ∉ addresses l2) as [Hn1 Hn2].
        { destruct (Hc' a eq_refl) as [Es|Hu]; [|naive_solver]. rewrite Es in *. set_solver. }
        apply NoDup_app. split_and!; [done| |]; [set_solver|].
        apply NoDup_app. split_and!; [apply NoDup_singleton|set_solver|done].
      * apply NoDup_app. set_solver.
Qed.

(** Unique addresses make the search by address find the child. *)
Lemma afo_has_address_here l1 k s l2 a : NoDup (addresses (l1 ++ (k, s) :: l2)) →
  status_address (status s) = Some a →
  find_state (has_address a) (l1 ++ (k, s) :: l2) = Some s ∧
  ∀ v, set_state (has_address a) v (l1 ++ (k, s) :: l2) = l1 ++ (k, v) :: l2.
Proof.
  intros Hn Hs. apply find_state_here; [|by apply bool_decide_eq_true].
  rewrite afo_addresses_app, afo_addresses_cons, Hs in Hn. apply NoDup_app in Hn as (_ & Hn & _).
  apply Forall_forall. intros x Hx. apply bool_decide_eq_false. intros Hx'.
  apply (Hn a); [|by left]. unfold addresses. apply list_elem_of_omap. by exists x.
Qed.

(** ** Start-up and shutdown *)
Definition fresh_child (c : K * ChildType) : K * State := (c.1, mkState c.2 Status_Stopped Target_Running).
Definition running_child (c : K * ChildType) (a : Z) : K * State :=
  (c.1, mkState c.2 (Status_Running a) Target_Running).

Lemma afo_add_all_states d cs : NoDup ((states d).*1 ++ cs.*1) →
  add_all d cs = set_states d (states d ++ (fresh_child <$> cs)).
Proof.
  revert d. induction cs as [|[k ct] cs IH]; intros d Hn; csimpl.
  - rewrite app_nil_r. by destruct d.
  - unfold add. destruct (existsb (has_key k) (states d)) eqn:E.
    + apply existsb_has_key in E. apply NoDup_app in Hn as (_ & Hn & _).
      destruct (Hn k E). csimpl. by left.
    + cbn [fst]. change (foldl _ ?d cs) with (add_all d cs). rewrite IH.
      * cbn. unfold fresh_child at 3. by rewrite <- app_assoc.
      * cbn. by rewrite fmap_app, <- app_assoc.
Qed.

(** ** Starting and stopping the group *)

(** A child a supervisor in operation leaves alone. *)
Definition ready (x : K * State) : Prop :=
  ((∃ a, status x.2 = Status_Running a) ∧ target x.2 = Target_Running) ∨
  (status x.2 = Status_Stopped ∧ target x.2 = Target_Stopped).
Definition stopped (x : K * State) : Prop := status x.2 = Status_Stopped.
Definition working (sup : SupStatus) : Prop := sup = Sup_Starting ∨ sup = Sup_Running.
Definition winding (sup : SupStatus) : Prop := sup = Sup_Restarting ∨ ∃ n, sup = Sup_Stopping n.

Lemma ready_idle sup l : working sup → Forall ready l → Forall (idle_in sup) l.
Proof.
  intros Hsup Hl. eapply Forall_impl; [done|].
  intros [k [ct st tg]] [[[b E1] E2]|[E1 E2]]; simplify_eq/=; by destruct Hsup as [-> | ->].
Qed.

Lemma stopped_idle sup l : winding sup → Forall stopped l → Forall (idle_in sup) l.
Proof.
  intros Hsup Hl. eapply Forall_impl; [done|].
  intros [k [ct st tg]] E1; unfold stopped in E1; simplify_eq/=; by destruct Hsup as [-> |[n ->]].
Qed.

Lemma stopped_all l : Forall stopped l → forallb (is_stopped ∘ snd) l = true.
Proof. induction 1 as [|x l Hx _ IH]; [done|]. cbn. unfold is_stopped. by rewrite Hx. Qed.

Lemma stopped_addresses l : Forall stopped l → addresses l = [].
Proof.
  induction 1 as [|[k s] l Hx _ IH]; [done|]. rewrite afo_addresses_cons, IH. unfold stopped in Hx.
  simpl in Hx. by rewrite Hx.
Qed.

(** The keys of the children to start, and the children after their starts. *)
Definition start_of (x : K * State) : option K :=
  match target x.2 with Target_Running => Some x.1 | Target_Stopped => None end.
Definition starts (l : list (K * State)) : list K := omap start_of l.

Fixpoint assign (l : list (K * State)) (addrs : list Z) : list (K * State) :=
  match l with
  | [] => []
  | (k, s) :: l =>
      match target s, addrs with
      | Target_Running, a :: addrs => (k, set_status s (Status_Running a)) :: assign l addrs
      | _, _ => (k, s) :: assign l addrs
      end
  end.

(** A start reported for the first waiting child. *)
Lemma afo_started_first ri stats l k s l' a t sup :
  status s = Status_Starting → k ∉ l.*1 → a ∉ addresses l → a ∉ addresses l' →
  started (mkAFO ri stats (l ++ (k, s) :: l') ∅ sup) k a t =
  Ret (mkAFO ri stats (l ++ (k, set_status s (Status_Running a)) :: l') ∅ sup).
Proof.
  intros Hs Hk Ha Ha'. unfold started. cbn [states].
  destruct (find_state_here (has_key k) l k s l') as [-> Hset].
  { apply Forall_forall. intros x Hx. apply bool_decide_eq_false. intros <-. destruct Hk.
    apply list_elem_of_fmap. by exists x. }
  { by apply bool_decide_eq_true. }
  rewrite Hset, Hs. rewrite assert_true; [done|]. apply negb_true_iff, not_true_iff_false.
  intros Hu. apply (afo_existsb_has_address a (mkAFO ri stats (l ++ (k, s) :: l') ∅ sup)) in Hu.
  apply afo_uses_addresses in Hu. cbn in Hu. rewrite afo_addresses_app, afo_addresses_cons, Hs in Hu. set_solver.
Qed.

(** The stops the group needs, and the children after them. *)
Definition stop_of (x : K * State) : option (Action K) :=
  match status x.2 with Status_Running a => Some (Stop a (Some x.1)) | _ => None end.
Definition stops (l : list (K * State)) : list (Action K) := omap stop_of l.
Definition stop_child (x : K * State) : K * State := (x.1, set_status x.2 Status_Stopped).
Definition settled (x : K * State) : Prop := is_running x.2 || is_stopped x.2 = true.

Lemma afo_stops_app l1 l2 : stops (l1 ++ l2) = stops l1 ++ stops l2.
Proof. apply omap_app. Qed.

Lemma afo_stops_cons k s l : stops ((k, s) :: l) =
  match status s with Status_Running a => Stop a (Some k) :: stops l | _ => stops l end.
Proof. unfold stops. csimpl. unfold stop_of. by destruct s as [ct [] tg]. Qed.

Lemma stop_children_stopped l : Forall stopped (stop_child <$> l).
Proof. apply Forall_fmap, Forall_true. done. Qed.

Lemma set_status_same s : status s = Status_Stopped → set_status s Status_Stopped = s.
Proof. destruct s. simpl. by intros ->. Qed.

Section Drive.
Variables (ri : RestartIntensity) (stats : RestartStats) (t : Instant) (sup : SupStatus).
Variables (fuel : nat) (supply : list Z) (d' : D) (acts : list (Action K)).

Abbreviation at_ l := (mkAFO ri stats l ∅ sup).

(** Starting the children [l'] behind the children [l], which need nothing. *)
Lemma drive_starts l l' addrs : working sup → length addrs = length (starts l') →
  NoDup (l ++ l').*1 → NoDup (addresses l ++ addrs) → Forall ready l → Forall stopped l' →
  drive fuel (at_ (l ++ assign l' addrs)) supply t = Ret (d', acts) →
  drive (length addrs + fuel) (at_ (l ++ l')) (addrs ++ supply) t = Ret (d', (Start <$> starts l') ++ acts).
Proof.
  intros Hsup. revert l addrs. induction l' as [|[k s] l' IH]; intros l addrs Hlen Hk Ha Hl Hl' Hd.
  { by destruct addrs. }
  apply Forall_cons in Hl' as [Hs Hl']. unfold stopped in Hs. simpl in Hs.
  assert (Hkl : k ∉ l.*1).
  { rewrite fmap_app in Hk. apply NoDup_app in Hk as (_ & Hk & _). intros Hin. apply (Hk k Hin). by left. }
  unfold starts in *. cbn [omap list_omap] in *. unfold start_of at 1 in Hlen. unfold start_of at 1.
  cbn [assign fst snd] in *. destruct (target s) eqn:Et.
  - destruct addrs as [|a addrs]; [done|]. injection Hlen as Hlen. cbn [length app plus fmap list_fmap].
    apply NoDup_app in Ha as Ha'. destruct Ha' as (_ & Ha1 & _).
    eapply drive_start; cbn [d_next_action d_started afo_decider].
    + eapply (afo_next_action_child (at_ (l ++ (k, s) :: l')) t l k s l'
        (set_status s Status_Starting) (Start k)); cbn [sup_status states orphans]; try done.
      * unfold child_action. rewrite Hs, Et. by destruct Hsup as [-> | ->].
      * destruct Hsup as [-> | ->]; apply ready_idle; try done; [by left|by right].
    + apply afo_started_first; [done|done| |].
      * intros Hin. apply (Ha1 a Hin). by left.
      * rewrite stopped_addresses by done. apply not_elem_of_nil.
    + specialize (IH (l ++ [(k, set_status s (Status_Running a))]) addrs).
      rewrite <- !app_assoc in IH. cbn [app] in IH. apply IH; try done.
      * by rewrite fmap_app in *.
      * by rewrite afo_addresses_app, <- app_assoc.
      * apply Forall_app. split; [done|]. constructor; [|done]. left. split; [by exists a|done].
  - specialize (IH (l ++ [(k, s)]) addrs). rewrite <- !app_assoc in IH. cbn [app] in IH. apply IH; try done.
    + rewrite afo_addresses_app, afo_addresses_cons, Hs. by rewrite app_nil_r.
    + apply Forall_app. split; [done|]. constructor; [|done]. by right.
Qed.

(** Stopping the children [l] before the children [l'], which are stopped. *)
Lemma drive_stops l l' : winding sup →
  NoDup (addresses l) → Forall settled l → Forall stopped l' →
  drive fuel (at_ ((stop_child <$> l) ++ l')) supply t = Ret (d', acts) →
  drive (length (stops l) + fuel) (at_ (l ++ l')) supply t = Ret (d', reverse (stops l) ++ acts).
Proof.
  intros Hsup. revert l'. induction l as [|[k s] l IH] using rev_ind; intros l' Ha Hl Hl' Hd; [done|].
  apply Forall_app in Hl as [Hl [Hs _]%Forall_cons].
  rewrite afo_addresses_app in Ha. apply NoDup_app in Ha as Ha'. destruct Ha' as (Hal & Han & _).
  rewrite <- app_assoc. rewrite fmap_app, <- app_assoc in Hd. cbn [app fmap list_fmap] in *.
  rewrite afo_stops_app, reverse_app, length_app, !afo_stops_cons. change (stops []) with (@nil (Action K)).
  unfold settled, is_running, is_stopped in Hs. cbn [fst snd] in *.
  destruct (status s) as [|a|a|] eqn:Es; try done.
  - replace (length (stops l) + length [Stop a (Some k)] + fuel)%nat
      with (S (length (stops l) + fuel)) by (cbn; lia).
    eapply drive_stop; cbn [d_next_action d_exited afo_decider].
    + eapply (afo_next_action_child (at_ (l ++ (k, s) :: l')) t l k s l'
        (set_status s (Status_Terminating a)) (Stop a (Some k))); cbn [sup_status states orphans]; try done.
      * unfold child_action. rewrite Es. by destruct Hsup as [-> |[n ->]].
      * destruct Hsup as [-> |[n ->]]; apply stopped_idle; try done; [by left|right; by eexists].
    + unfold exited. cbn [states set_states].
      destruct (afo_has_address_here l k (set_status s (Status_Terminating a)) l' a) as [-> Hset]; [|done|].
      { rewrite afo_addresses_app, afo_addresses_cons, (stopped_addresses l') by done.
        rewrite afo_addresses_cons, Es in Ha. by rewrite !app_nil_r in *. }
      cbn [status set_status]. rewrite Z.eqb_refl, Hset. done.
    + apply IH; try done. by constructor.
  - cbn [length plus]. rewrite Nat.add_0_r. apply IH; try done; [by constructor|].
    unfold stop_child at 2 in Hd. cbn [fst snd] in Hd. by rewrite set_status_same in Hd.
Qed.

End Drive.

(** ** Properties *)

(** whatever is called on a fresh all-for-one decider and in whatever
    order, its children keep pairwise distinct keys and its running and
    terminating children pairwise distinct addresses, and the only call that can
    panic is a start reported under an address already in use. *)
Theorem afo_unique ri ops d0 d acts :
  decider ri = Ret d0 → run_ops d0 ops = Ret (d, acts) →
  NoDup (states d).*1 ∧ NoDup (addresses (states d)) ∧
  ∀ op, run_op d op = Panic ↔ ∃ k a t, op = OpStarted k a t ∧ a ∈ addresses (states d).
Proof.
  intros (stats & _ & [= <-])%bind_Ret_inv Hrun.
  eapply (run_ops_ind wf (λ _, True) (λ _, True)) in Hrun as [[H1 H2] _].
  - split_and!; [done..|]. intros op. rewrite afo_run_op_panic. by setoid_rewrite afo_uses_addresses.
  - intros d1 op d2 l Hw _ E. split; [by eapply afo_run_op_wf|by apply Forall_true].
  - split; apply NoDup_nil_2.
  - by apply Forall_true.
Qed.

(** The actions and the final children of a restart of the group [l]. *)
Definition restart_actions (l : list (K * State)) : list (Action K) :=
  reverse (stops l) ++ [Noop] ++ (Start <$> starts l).

Lemma starts_stop_child l : starts (stop_child <$> l) = starts l.
Proof.
  unfold starts. induction l as [|[k [ct st tg]] l IH]; [done|]. csimpl. unfold start_of, stop_child in *.
  cbn. by rewrite IH.
Qed.

Lemma assign_ready l addrs : Forall stopped l → length addrs = length (starts l) →
  Forall ready (assign l addrs).
Proof.
  intros Hl. revert addrs. induction Hl as [|[k s] l Hs _ IH]; intros addrs Hlen; [done|].
  unfold starts in Hlen. cbn [omap list_omap] in Hlen. fold (starts l) in Hlen. unfold start_of in Hlen.
  cbn [assign fst snd] in *. destruct (target s) eqn:Et.
  - destruct addrs as [|a addrs]; [done|]. injection Hlen as Hlen. constructor; [|by apply IH].
    left. split; [by exists a|done].
  - constructor; [|by apply IH]. by right.
Qed.

(** The stops of a restart, and the whole of it, in a world that does as it is told *)
Lemma drive_stops_exact ri stats l supply t : NoDup (addresses l) → Forall settled l →
  drive (length (stops l)) (mkAFO ri stats l ∅ Sup_Restarting) supply t =
    Ret (mkAFO ri stats (stop_child <$> l) ∅ Sup_Restarting, reverse (stops l)).
Proof.
  intros Ha Hl. pose proof (drive_stops ri stats t Sup_Restarting 0 supply (mkAFO ri stats (stop_child <$> l) ∅ Sup_Restarting) [] l []) as H1.
  rewrite !app_nil_r, Nat.add_0_r in H1. apply H1; try done. by left.
Qed.

Lemma drive_restart_exact ri stats l addrs t : NoDup l.*1 → NoDup (addresses l) → Forall settled l →
  length addrs = length (starts l) → NoDup addrs →
  drive (length (restart_actions l)) (mkAFO ri stats l ∅ Sup_Restarting) addrs t =
    Ret (mkAFO ri stats (assign (stop_child <$> l) addrs) ∅ Sup_Running, restart_actions l).
Proof.
  intros Hk Ha Hl Hlen Haddrs.
  assert (Hst : Forall stopped (stop_child <$> l)) by apply stop_children_stopped.
  pose proof (drive_stops ri stats t Sup_Restarting (S (length addrs)) addrs
    (mkAFO ri stats (assign (stop_child <$> l) addrs) ∅ Sup_Running)
    ([Noop] ++ (Start <$> starts l)) l []) as H1.
  rewrite !app_nil_r in H1. unfold restart_actions. rewrite length_app, length_reverse. cbn [length app].
  rewrite length_fmap, <- Hlen. apply H1; try done; [by left|].
  eapply drive_notice; [|by left|].
  - cbn [d_next_action afo_decider]. apply afo_next_action_idle; [done| |].
    + intros _. apply stopped_idle; [by left|done].
    + unfold settle. cbn [sup_status states]. by rewrite stopped_all.
  - pose proof (drive_starts ri stats t Sup_Running 0 [] (mkAFO ri stats (assign (stop_child <$> l) addrs) ∅ Sup_Running)
      [] [] (stop_child <$> l) addrs) as H2.
    rewrite !app_nil_r, starts_stop_child, Nat.add_0_r in H2. apply H2; try done; [by right|].
    cbn [app]. by rewrite <- list_fmap_compose.
Qed.

(** A crash in a group that needs nothing else, within the restart intensity *)
Lemma exited_restarts d l1 k s l2 a n t stats :
  wf d → states d = l1 ++ (k, s) :: l2 → orphans d = ∅ → Forall ready (l1 ++ l2) →
  status s = Status_Running a → is_acceptable (child_type s) n = false →
  report_exit (restart_intensity d) (restart_stats d) t = (stats, Ok tt) →
  let l := l1 ++ (k, set_status s Status_Stopped) :: l2 in
  exited d a n t = Ret (mkAFO (restart_intensity d) stats l ∅ Sup_Restarting) ∧
  NoDup l.*1 ∧ NoDup (addresses l) ∧ Forall settled l.
Proof.
  intros [Hk Ha] El Ho Hr Hs Hacc Hri l. rewrite El in Ha, Hk.
  destruct (afo_has_address_here l1 k s l2 a Ha) as [Hf Hset]; [by rewrite Hs|]. split_and!.
  - unfold exited. rewrite El, Hf, Hs, Hacc, Z.eqb_refl, Hri. cbn [assert_]. rewrite bind_Ret. unfold set_states, set_sup_status, set_stats.
    cbn. by rewrite El, Hset, Ho.
  - unfold l. by rewrite fmap_app in *.
  - unfold l. rewrite afo_addresses_app, afo_addresses_cons, Hs in *. cbn [status set_status status_address app].
    eapply sublist_NoDup; [exact Ha|]. apply sublist_app; [done|]. by apply sublist_cons.
  - assert (Hrs : ∀ x, ready x → settled x).
    { intros [k0 [ct st tg]] [[[b E1] E2]|[E1 E2]]; by simplify_eq/=. }
    apply Forall_app in Hr as [H1 H2]. apply Forall_app. split; [by eapply Forall_impl|].
    constructor; [done|by eapply Forall_impl].
Qed.

(** the exit of a crashed child cancels a shutdown of an all-for-one
    supervisor: the decider forgets that it was stopping and goes into a restart
    of the group. *)
Theorem afo_crash_cancels_shutdown d l1 k s l2 a b n t :
  wf d → states d = l1 ++ (k, s) :: l2 → sup_status d = Sup_Stopping b →
  status s = Status_Running a → is_acceptable (child_type s) n = false →
  (report_exit (restart_intensity d) (restart_stats d) t).2 = Ok tt →
  ∃ d', exited d a n t = Ret d' ∧ sup_status d' = Sup_Restarting.
Proof.
  intros [Hk Ha] El _ Hs Hacc Hri. rewrite El in Ha.
  destruct (afo_has_address_here l1 k s l2 a Ha) as [Hf Hset]; [by rewrite Hs|].
  unfold exited. rewrite El, Hf, Hs, Hacc, Z.eqb_refl. cbn [assert_].
  rewrite bind_Ret. destruct (report_exit _ _ t) as [stats r]. cbn [snd] in Hri. subst r. by eexists.
Qed.

(** a shutdown of an all-for-one supervisor that no further crash disturbs
    completes: each running child is asked to stop, the last one first, and after
    the last exit the decider quits with the recorded reason. *)
Theorem afo_shutdown d n t : wf d → sup_status d = Sup_Stopping n → orphans d = ∅ →
  Forall settled (states d) →
  ∃ d', drive (length (stops (states d)) + 1) d [] t = Ret (d', reverse (stops (states d)) ++ [Quit n]) ∧
        sup_status d' = Sup_Stopped ∧ Forall stopped (states d').
Proof.
  intros [_ Ha] Hsup Ho Hs. destruct d as [ri stats l o sup]. cbn [states sup_status orphans] in *. subst.
  assert (Hst : Forall stopped (stop_child <$> l)) by apply stop_children_stopped.
  exists (mkAFO ri stats (stop_child <$> l) ∅ Sup_Stopped). split; [|done].
  pose proof (drive_stops ri stats t (Sup_Stopping n) 1 [] (mkAFO ri stats (stop_child <$> l) ∅ Sup_Stopped)
    [Quit n] l []) as H1. rewrite !app_nil_r in H1. apply H1; try done; [right; by eexists|].
  apply drive_quit. cbn [d_next_action afo_decider]. apply afo_next_action_idle; [done| |].
  - intros _. apply stopped_idle; [right; by eexists|done].
  - unfold settle. cbn [sup_status states]. by rewrite stopped_all.
Qed.

End AllForOne.

(** ** Runs *)
#[local] Existing Instance elements_iter.

Definition ri2 : RestartIntensity := mkRI 2 10.
Definition three : list (Z * ChildType) := [(1, Permanent); (2, Transient); (3, Temporary)].

(** Three running children, at the addresses 101, 102 and 103. *)
Definition three_running (sup : SupStatus) : AllForOneDecider Z :=
  mkAFO ri2 [] (zip_with running_child three [101; 102; 103]) ∅ sup.

Lemma afo_three_wf sup : wf (three_running sup).
Proof. split; apply (bool_decide_unpack _); vm_compute; exact I. Qed.

Lemma afo_unique_witness : NoDup (states (three_running Sup_Starting)).*1.
Proof.
  refine (proj1 (afo_unique ri2
    ([OpAdd 1 Permanent; OpAdd 2 Transient; OpAdd 3 Temporary; OpNext 0; OpStarted 1 101 0;
      OpNext 0; OpStarted 2 102 0; OpNext 0; OpStarted 3 103 0])
    (mkAFO ri2 [] [] ∅ Sup_Starting) (three_running Sup_Starting) [Start 1; Start 2; Start 3] _ _)).
  all: vm_compute; reflexivity.
Defined.

Lemma afo_crash_cancels_shutdown_witness : ∃ d',
  exited (three_running (Sup_Stopping true)) 101 false 5 = Ret d' ∧ sup_status d' = Sup_Restarting.
Proof.
  refine (afo_crash_cancels_shutdown (three_running (Sup_Stopping true)) [] 1
    (mkState Permanent (Status_Running 101) Target_Running)
    (zip_with running_child [(2, Transient); (3, Temporary)] [102; 103]) 101 true false 5 (afo_three_wf _)
    eq_refl eq_refl eq_refl eq_refl _).
  vm_compute. reflexivity.
Defined.

Lemma afo_shutdown_witness : ∃ d',
  drive 4 (three_running (Sup_Stopping false)) [] 0 =
    Ret (d', [Stop 103 (Some 3); Stop 102 (Some 2); Stop 101 (Some 1); Quit false]) ∧
  sup_status d' = Sup_Stopped ∧ Forall stopped (states d').
Proof.
  apply (afo_shutdown (three_running (Sup_Stopping false)) false 0 (afo_three_wf _) eq_refl eq_refl).
  repeat constructor.
Defined.
