(* ===== verification/MixedSup.v ===== *)
(** * Mixed supervisors
    (components/mm1-sup/src/mixed.rs, mixed/sup_actor.rs, mixed/sup_child.rs,
     mixed/spec_builder.rs, common/child_spec.rs, common/factory.rs)

    The supervisor actor: it collects the specifications of its children, asks
    its decider what to do, does one thing, waits for one message, and tells the
    decider about it. Starting and stopping a child are done by forks of the
    actor, which report back by messages. *)

From S2P Require Import Prelude Restart Decider OneForOne AllForOne.

Open Scope Z_scope.

(** ** Child specifications (common/child_spec.rs) *)
Inductive InitType := NoAck | WithAck (start_timeout : Duration).

Record ChildSpec (F T : Type) := mkSpec {
  launcher : F;
  child_type : T;
  init_type : InitType;
  stop_timeout : Duration;
  announce_parent : bool;
}.
Arguments mkSpec {F T}.
Arguments launcher {F T}.
Arguments child_type {F T}.
Arguments init_type {F T}.
Arguments stop_timeout {F T}.
Arguments announce_parent {F T}.

Definition child_spec_new {F} (f : F) : ChildSpec F unit := mkSpec f tt NoAck NANOS false.
Definition with_child_type {F T T1} (c : ChildSpec F T) (ct : T1) : ChildSpec F T1 :=
  mkSpec (launcher c) ct (init_type c) (stop_timeout c) (announce_parent c).
Definition with_init_type {F T} (c : ChildSpec F T) (i : InitType) : ChildSpec F T :=
  mkSpec (launcher c) (child_type c) i (stop_timeout c) (announce_parent c).
Definition with_stop_timeout {F T} (c : ChildSpec F T) (t : Duration) : ChildSpec F T :=
  mkSpec (launcher c) (child_type c) (init_type c) t (announce_parent c).
Definition with_announce_parent {F T} (c : ChildSpec F T) (b : bool) : ChildSpec F T :=
  mkSpec (launcher c) (child_type c) (init_type c) (stop_timeout c) b.
Definition announce_parent_ {F T} (c : ChildSpec F T) : ChildSpec F T := with_announce_parent c true.
Definition map_launcher {F F1 T} (c : ChildSpec F T) (m : F → F1) : ChildSpec F1 T :=
  mkSpec (m (launcher c)) (child_type c) (init_type c) (stop_timeout c) (announce_parent c).

(** ** Actor factories (common/factory.rs)

    The clones of a factory share one closure behind a mutex. A closure without
    arguments is what its first call yields, its second one, and so on; the
    shared cell is then the number of calls made. *)
Record Factory (R : Type) := mkFactory { closure : nat → outcome R; calls : nat }.
Arguments mkFactory {R}.
Arguments closure {R}.
Arguments calls {R}.

(** [ActorFactoryMut::new] *)
Definition factory_mut {R} (f : nat → outcome R) : Factory R := mkFactory f 0.

(** [ActorFactoryOnce::new]: the closure is taken out by the first call; the
    next one hits the [expect]. *)
Definition factory_once {R} (f : outcome R) : Factory R :=
  mkFactory (λ n, match n with O => f | S _ => Panic end) 0.

(** [ActorFactory::produce] *)
Definition produce {R} (f : Factory R) : outcome (Factory R * R) :=
  r ← closure f (calls f);
  Ret (mkFactory (closure f) (S (calls f)), r).

(** ** Collecting the children (mixed/spec_builder.rs) *)
Section MixedSup.
Context {K R : Type} `{Countable K}.

Abbreviation Spec := (ChildSpec (Factory R) ChildType).

(** The children of a [MixedSup]: [()], [KV] and pairs of these. *)
Inductive Children :=
| CUnit
| CKV (key : K) (child_spec : Spec)
| CPair (le ri : Children).

Fixpoint collect_into (c : Children) (into : list (K * Spec)) : list (K * Spec) :=
  match c with
  | CUnit => into
  | CKV key child_spec => into ++ [(key, child_spec)]
  | CPair le ri => collect_into ri (collect_into le into)
  end.

(** [Append::append] *)
Definition append (c : Children) (key : K) (child_spec : Spec) : Children := CPair c (CKV key child_spec).

(** [MixedSup::new] and [MixedSup::with_child] *)
Record MixedSup (RS : Type) := mkMixedSup { restart_strategy : RS; children : Children }.
Definition mixed_sup_new {RS} (rs : RS) : MixedSup RS := mkMixedSup RS rs CUnit.
Definition with_child {RS} (m : MixedSup RS) (key : K) (child_spec : Spec) : MixedSup RS :=
  mkMixedSup RS (restart_strategy RS m) (append (children RS m) key child_spec).

(** ** The forks that start and stop children (mixed/sup_child.rs) *)

(** A message one of the forks sends, and its priority. *)
Inductive Report :=
| RepStarted (child_id : K) (address : Z)
| RepStartFailed (child_id : K)
| RepStopFailed (address : Z).

Inductive ForkEff :=
| FSpawn (runnable : R) (link : bool)
| FStart (runnable : R) (link : bool) (start_timeout : Duration)
| FShutdown (address : Z) (stop_timeout : Duration)
| FSetParent (to parent : Z)
| FSend (to : Z) (priority : bool) (report : Report).

(** [send_report]: on the priority lane; a failure is only logged. *)
Definition send_report (to : Z) (report : Report) : list ForkEff := [FSend to true report].

(** [do_start], given what the runtime answers. *)
Definition do_start (runnable : R) (it : InitType) : ForkEff :=
  match it with
  | NoAck => FSpawn runnable true
  | WithAck start_timeout => FStart runnable true start_timeout
  end.

(** [run]; [started] is the runtime's answer to [do_start]. *)
Definition child_run (sup_address : Z) (child_id : K) (spec : ChildSpec R ChildType)
  (started : option Z) : list ForkEff :=
  do_start (launcher spec) (init_type spec) ::
  match started with
  | Some address =>
      (if announce_parent spec then [FSetParent address sup_address] else []) ++
      send_report sup_address (RepStarted child_id address)
  | None => send_report sup_address (RepStartFailed child_id)
  end.

(** [shutdown]; [ok] tells whether the runtime could stop the child. *)
Definition child_shutdown (sup_address address : Z) (timeout : Duration) (ok : bool) : list ForkEff :=
  FShutdown address timeout ::
  if ok then [] else send_report sup_address (RepStopFailed address).

(** ** The supervisor's loop (mixed/sup_actor.rs) *)
Inductive MixedSupError := Escalated | DeciderE (e : DeciderError) | RecvE | ForkE.

Inductive Eff :=
| ESetTrapExit (enable : bool)
| EInitDone
| EQuitOk
| EQuitErr (e : MixedSupError)
| ERun (child_id : K) (child_spec : ChildSpec R ChildType)
| EShutdown (address : Z) (stop_timeout : Duration)
| ELink (address : Z)
| EReply (header : Z) (address : result (option Z) DeciderError).

Inductive Msg :=
| MStarted (child_id : K) (address : Z)
| MStartFailed (child_id : K)
| MStopFailed (address : Z)
| MGetChild (header : Z) (child_id : K)
| MExited (peer : Z) (normal_exit : bool)
| MUnexpected.

(** How an actor goes on: with the loop, out of it by a return, or not at all
    ([quit_ok] and [quit_err] do not come back). *)
Inductive Flow := Continue | Return (r : result unit MixedSupError) | Gone.

Section Loop.
Context {D : Type} `{Decider D K}.

Record Sup := mkSup { sup_decider : D; sup_children : gmap K Spec }.

(** [do_init_children] *)
Fixpoint add_children (d : D) (flat : list (K * Spec)) : D * result unit MixedSupError :=
  match flat with
  | [] => (d, Ok tt)
  | (k, spec) :: flat =>
      match d_add d k (child_type spec) with
      | (d, Ok _) => add_children d flat
      | (d, Err e) => (d, Err (DeciderE e))
      end
  end.

Definition do_init_children (d : D) (children : Children) :
  D * result (gmap K Spec) MixedSupError :=
  let flat := collect_into children [] in
  match add_children d flat with
  | (d, Ok _) => (d, Ok (list_to_map (reverse flat)))
  | (d, Err e) => (d, Err e)
  end.

(** The first half of an iteration: the decider's next action is carried out.
    [forked] tells whether [ctx.fork] succeeds. *)
Definition act (st : Sup) (now : Instant) (forked : bool) : outcome (Sup * list Eff * Flow) :=
  '(d, r) ← d_next_action (sup_decider st) now;
  let st := mkSup d (sup_children st) in
  match r with
  | Err e => Ret (st, [], Return (Err (DeciderE e)))
  | Ok None => Ret (st, [], Continue)
  | Ok (Some Noop) => Ret (st, [], Continue)
  | Ok (Some InitDone) => Ret (st, [EInitDone], Continue)
  | Ok (Some (Quit normal_exit)) =>
      if normal_exit then Ret (st, [EQuitOk], Gone) else Ret (st, [EQuitErr Escalated], Gone)
  | Ok (Some (Start child_id)) =>
      child_spec ← expect (sup_children st !! child_id);
      '(f, runnable) ← produce (launcher child_spec);
      let st := mkSup d (<[child_id := map_launcher child_spec (λ _, f)]> (sup_children st)) in
      if forked then Ret (st, [ERun child_id (map_launcher child_spec (λ _, runnable))], Continue)
      else Ret (st, [], Return (Err ForkE))
  | Ok (Some (Stop address child_id)) =>
      stop_timeout ← match child_id with
                     | Some id => s ← expect (sup_children st !! id); Ret (stop_timeout s)
                     | None => Ret 0
                     end;
      if forked then Ret (st, [EShutdown address stop_timeout], Continue)
      else Ret (st, [], Return (Err ForkE))
  end.

(** The second half: a message is received and handled. *)
Definition handle (st : Sup) (received : option Msg) (now : Instant) : outcome (Sup * list Eff * Flow) :=
  let d := sup_decider st in
  match received with
  | None => Ret (st, [], Return (Err RecvE))
  | Some (MStarted child_id address) =>
      d ← d_started d child_id address now;
      Ret (mkSup d (sup_children st), [ELink address], Continue)
  | Some (MStartFailed child_id) => Ret (mkSup (d_failed d child_id now) (sup_children st), [], Continue)
  | Some (MStopFailed _) => Ret (mkSup (d_quit d false) (sup_children st), [], Continue)
  | Some (MGetChild header child_id) => Ret (st, [EReply header (d_address d child_id)], Continue)
  | Some (MExited peer normal_exit) =>
      d ← d_exited d peer normal_exit now;
      Ret (mkSup d (sup_children st), [], Continue)
  | Some MUnexpected => Ret (st, [], Continue)
  end.

(** What one iteration meets. *)
Record Input := mkInput { act_now : Instant; fork_ok : bool; received : option Msg; recv_now : Instant }.

Definition iteration (st : Sup) (i : Input) : outcome (Sup * list Eff * Flow) :=
  '(st, es, f) ← act st (act_now i) (fork_ok i);
  match f with
  | Continue =>
      '(st, es', f) ← handle st (received i) (recv_now i);
      Ret (st, es ++ es', f)
  | _ => Ret (st, es, f)
  end.

(** The loop, as long as there are messages. *)
Fixpoint sup_loop (st : Sup) (inputs : list Input) : outcome (Sup * list Eff * Flow) :=
  match inputs with
  | [] => Ret (st, [], Continue)
  | i :: inputs =>
      '(st, es, f) ← iteration st i;
      match f with
      | Continue => '(st, es', f) ← sup_loop st inputs; Ret (st, es ++ es', f)
      | _ => Ret (st, es, f)
      end
  end.

(** [mixed_sup], with the strategy's fresh decider. *)
Definition mixed_sup (d0 : outcome D) (children : Children) (inputs : list Input) :
  outcome (list Eff * Flow) :=
  d ← d0;
  match do_init_children d children with
  | (_, Err e) => Ret ([ESetTrapExit true], Return (Err e))
  | (d, Ok m) =>
      '(_, es, f) ← sup_loop (mkSup d m) inputs;
      Ret (ESetTrapExit true :: es, f)
  end.

(** ** Against the decider's laws *)
Section Laws.
Context `{!DeciderLaws D K}.

(** Every child the decider knows has a specification. *)
Definition sup_ok (st : Sup) : Prop := ∀ k, k ∈ d_keys (sup_decider st) → is_Some (sup_children st !! k).

Lemma sup_ok_op d op d' l m : sup_ok (mkSup d m) → (∀ k ct, op ≠ OpAdd k ct) →
  run_op d op = Ret (d', l) → sup_ok (mkSup d' m).
Proof. intros Hok Hop Hrun k Hk. apply Hok. exact (d_keys_op _ _ _ _ Hop Hrun k Hk). Qed.

Lemma run_next d t d' o : d_next_action d t = Ret (d', Ok o) →
  run_op d (OpNext t) = Ret (d', match o with Some a => [a] | None => [] end).
Proof. intros E. cbn. rewrite E. cbn. by destruct o. Qed.

Lemma sup_ok_next d t d' o m : sup_ok (mkSup d m) → d_next_action d t = Ret (d', Ok o) → sup_ok (mkSup d' m).
Proof. intros Hok E%run_next. by eapply (sup_ok_op d (OpNext t)). Qed.

Lemma sup_ok_insert d m k spec : sup_ok (mkSup d m) → sup_ok (mkSup d (<[k:=spec]> m)).
Proof. intros Hok k' Hk. cbn. destruct (decide (k = k')) as [->|]; simplify_map_eq; auto. Qed.

Lemma expect_Some {A} (o : option A) : is_Some o → ∃ a, o = Some a ∧ expect o = Ret a.
Proof. intros [a ->]. eauto. Qed.

Lemma act_ok st now forked st' es f : sup_ok st → act st now forked = Ret (st', es, f) → sup_ok st'.
Proof.
  intros Hok. destruct st as [d m]. unfold act. cbn [sup_decider sup_children].
  destruct (d_next_ok d now) as (d' & o & E). rewrite E, bind_Ret.
  pose proof (sup_ok_next _ _ _ _ _ Hok E) as Hok'.
  destruct o as [[| |k|a ok|n]|]; try (by intros [= <- <- <-]).
  - intros (spec & _ & ([f' r] & _ & E2)%bind_Ret_inv)%bind_Ret_inv.
    destruct forked; simplify_eq; by apply sup_ok_insert.
  - intros (tm & _ & E2)%bind_Ret_inv. by destruct forked; simplify_eq.
  - destruct n; by intros [= <- <- <-].
Qed.

Lemma handle_ok st msg now st' es f : sup_ok st → handle st msg now = Ret (st', es, f) → sup_ok st'.
Proof.
  intros Hok. destruct st as [d m]. unfold handle. cbn [sup_decider sup_children].
  destruct msg as [[k a|k|a|h k|p n|]|]; try (by intros [= <- <- <-]).
  - intros (d' & E & [= <- <- <-])%bind_Ret_inv.
    eapply (sup_ok_op d (OpStarted k a now)); [done|done|]. cbn. by rewrite E.
  - intros [= <- <- <-]. by eapply (sup_ok_op d (OpFailed k now)).
  - intros [= <- <- <-]. by eapply (sup_ok_op d (OpQuit false)).
  - intros (d' & E & [= <- <- <-])%bind_Ret_inv.
    eapply (sup_ok_op d (OpExited p n now)); [done|done|]. cbn. by rewrite E.
Qed.

Lemma iteration_ok st i st' es f : sup_ok st → iteration st i = Ret (st', es, f) → sup_ok st'.
Proof.
  intros Hok ([[st1 es1] f1] & E1 & E2)%bind_Ret_inv. pose proof (act_ok _ _ _ _ _ _ Hok E1) as Hok1.
  destruct f1; [|by simplify_eq..]. apply bind_Ret_inv in E2 as ([[st2 es2] f2] & E2 & [= <- <- <-]).
  by eapply handle_ok.
Qed.

(** What makes the first half of an iteration panic. *)
Lemma act_panic st now forked : sup_ok st → act st now forked = Panic →
  ∃ k spec, sup_children st !! k = Some spec ∧ produce (launcher spec) = Panic.
Proof.
  intros Hok. destruct st as [d m]. unfold act. cbn [sup_decider sup_children].
  destruct (d_next_ok d now) as (d' & o & E). rewrite E, bind_Ret.
  destruct o as [a|]; [|done]. pose proof (d_next_keys _ _ _ _ E) as Hk.
  destruct a as [| |k|a [k|]|n]; try done.
  - destruct (expect_Some (m !! k) (Hok k Hk)) as (spec & Hs & ->). rewrite bind_Ret.
    destruct (produce (launcher spec)) as [[f r]|] eqn:Ep; [by destruct forked|eauto].
  - destruct (expect_Some (m !! k) (Hok k Hk)) as (spec & Hs & ->). by destruct forked.
  - by destruct forked.
  - by destruct n.
Qed.

(** The states the loop can be in, between iterations. *)
Inductive sup_reachable (st0 : Sup) : Sup → Prop :=
| reach_init : sup_reachable st0 st0
| reach_step st i st' es :
    sup_reachable st0 st → iteration st i = Ret (st', es, Continue) → sup_reachable st0 st'.

Lemma add_children_keys d flat d' r : add_children d flat = (d', r) →
  match r with
  | Ok _ => d_keys d' = d_keys d ++ flat.*1 ∧ (NoDup (d_keys d) → NoDup (d_keys d'))
  | Err e => e = DeciderE DuplicateKey ∧ (NoDup (d_keys d) → ¬ NoDup (d_keys d ++ flat.*1))
  end.
Proof.
  revert d. induction flat as [|[k spec] flat IH]; intros d; cbn [add_children].
  { intros [= <- <-]. csimpl. by rewrite app_nil_r. }
  destruct (d_add d k (child_type spec)) as [d1 r1] eqn:E.
  apply d_keys_add in E as [(Hn & -> & Hk)|(Hin & -> & ->)].
  - intros Hr%IH. destruct r as [u|e].
    + destruct Hr as [H1 H2]. split; [rewrite H1, Hk; csimpl; by rewrite <- app_assoc|].
      intros Hnd. apply H2. rewrite Hk. apply NoDup_app. split_and!; [done| |apply NoDup_singleton]. set_solver.
    + destruct Hr as [-> H2]. split; [done|]. intros Hnd Hall. rewrite Hk, <- app_assoc in H2.
      apply H2; [|done]. apply NoDup_app. split_and!; [done| |apply NoDup_singleton]. set_solver.
  - intros [= <- <-]. split; [done|]. intros _ (_ & Hd & _)%NoDup_app. apply (Hd k Hin). by left.
Qed.

Lemma init_children d cs d' r : d_keys d = [] → do_init_children d cs = (d', r) →
  let flat := collect_into cs [] in
  match r with
  | Ok m => NoDup flat.*1 ∧ d_keys d' = flat.*1 ∧ m = list_to_map flat
  | Err e => ¬ NoDup flat.*1 ∧ e = DeciderE DuplicateKey
  end.
Proof.
  intros Hk. unfold do_init_children. destruct (add_children d (collect_into cs [])) as [d1 r1] eqn:E.
  apply add_children_keys in E. rewrite Hk in E. pose proof (NoDup_nil_2 (A := K)) as Hnil.
  destruct r1; intros [= <- <-].
  - destruct E as [E1 E2]. specialize (E2 Hnil). rewrite E1 in E2. split_and!; [done|done|].
    apply list_to_map_proper; [|apply reverse_Permutation]. by rewrite reverse_Permutation.
  - destruct E as [-> E2]. by split; [apply E2|].
Qed.

Lemma init_ok d cs d' m : d_keys d = [] → do_init_children d cs = (d', Ok m) → sup_ok (mkSup d' m).
Proof.
  intros Hk E. apply init_children in E as (Hn & Hd & ->); [|done]. intros k Hin. cbn in *.
  rewrite Hd in Hin. apply list_elem_of_fmap in Hin as ([k' spec] & -> & Hin).
  exists spec. by apply elem_of_list_to_map_1.
Qed.

(** collecting the children of a mixed supervisor succeeds exactly when
    their keys are distinct; then the decider knows these keys in the order of
    the specification, and the table of specifications holds each child under
    its key. Otherwise the supervisor ends with a duplicate-key error. *)
Theorem init_children_correct d cs d' r : d_keys d = [] → do_init_children d cs = (d', r) →
  let flat := collect_into cs [] in
  (NoDup flat.*1 ↔ is_ok r = true) ∧
  match r with
  | Ok m => d_keys d' = flat.*1 ∧ ∀ k spec, m !! k = Some spec ↔ (k, spec) ∈ flat
  | Err e => e = DeciderE DuplicateKey
  end.
Proof.
  intros Hk E flat. apply init_children in E; [|done]. fold flat in E. destruct r as [m|e]; cbn [is_ok].
  - destruct E as (Hn & Hd & ->). split_and!; [done|done|]. intros k spec.
    by rewrite elem_of_list_to_map.
  - destruct E as [Hn ->]. split; [|done]. by split.
Qed.

(** C40: in every state a mixed supervisor's loop reaches, an iteration panics
    for two reasons only: the factory of a child refuses to produce another
    actor (a single-use factory asked for a restart), or a start is reported
    under an address that a child, the same one or another, already holds. In particular the decider never
    names a child without a specification. *)
Theorem mixed_sup_panics d0 cs d m st i : d_keys d0 = [] → do_init_children d0 cs = (d, Ok m) →
  sup_reachable (mkSup d m) st → iteration st i = Panic →
  (∃ k spec, sup_children st !! k = Some spec ∧ produce (launcher spec) = Panic) ∨
  (∃ st1 es k a, act st (act_now i) (fork_ok i) = Ret (st1, es, Continue) ∧
     received i = Some (MStarted k a) ∧ d_uses (sup_decider st1) a).
Proof.
  intros Hk E Hr Hp. assert (Hok : sup_ok st).
  { clear Hp. induction Hr as [|st i' st' es Hr IH Hit]; [by eapply init_ok|].
    exact (iteration_ok _ _ _ _ _ IH Hit). }
  unfold iteration in Hp. destruct (act st (act_now i) (fork_ok i)) as [[[st1 es] f]|] eqn:Ea.
  2: { left. by eapply act_panic. }
  right. rewrite bind_Ret in Hp. destruct f; try done.
  destruct (handle st1 (received i) (recv_now i)) as [[[st2 es2] f2]|] eqn:Eh; [done|].
  destruct st1 as [d1 m1]. unfold handle in Eh. cbn [sup_decider sup_children] in Eh.
  destruct (received i) as [[k a|k|a|h k|p n|]|]; try done.
  - exists (mkSup d1 m1), es, k, a. split_and!; try done. cbn.
    assert (Hpan : run_op d1 (OpStarted k a (recv_now i)) = Panic).
    { cbn. by destruct (d_started d1 k a (recv_now i)). }
    apply d_total in Hpan as (k' & a' & t' & [= <- <- <-] & Hu). done.
  - assert (Hpan : run_op d1 (OpExited p n (recv_now i)) = Panic).
    { cbn. by destruct (d_exited d1 p n (recv_now i)). }
    apply d_total in Hpan as (k' & a' & t' & [=] & _).
Qed.

(** ** The loop carries out the decider's decisions *)

(** What an action and an effect show of the children. *)
Inductive Vis := VInitDone | VRun (child_id : K) | VShutdown (address : Z) | VQuit (normal_exit : bool).

Definition vis_action (a : Action K) : option Vis :=
  match a with
  | Noop => None
  | InitDone => Some VInitDone
  | Start k => Some (VRun k)
  | Stop a _ => Some (VShutdown a)
  | Quit n => Some (VQuit n)
  end.

Definition vis_eff (e : Eff) : option Vis :=
  match e with
  | EInitDone => Some VInitDone
  | ERun k _ => Some (VRun k)
  | EShutdown a _ => Some (VShutdown a)
  | EQuitOk => Some (VQuit true)
  | EQuitErr _ => Some (VQuit false)
  | _ => None
  end.

(** The messages a world that does as it is told sends after each action: the
    start, under the next address of [supply]; the exit; and after an action
    that needs no answer, any message at all. *)
Fixpoint replies (acts : list (Action K)) (supply : list Z) (t : Instant) : list Input :=
  match acts with
  | [] => []
  | a :: acts =>
      let answer m supply := mkInput t true (Some m) t :: replies acts supply t in
      match a, supply with
      | Start k, addr :: supply => answer (MStarted k addr) supply
      | Stop addr (Some _), _ => answer (MExited addr true) supply
      | _, _ => answer MUnexpected supply
      end
  end.

(** The factories never refuse. *)
Definition factories_total (m : gmap K Spec) : Prop :=
  ∀ k spec n, m !! k = Some spec → ∃ r, closure (launcher spec) n = Ret r.

Lemma act_next st t d' a : sup_ok st → factories_total (sup_children st) →
  d_next_action (sup_decider st) t = Ret (d', Ok (Some a)) →
  ∃ m' es f, act st t true = Ret (mkSup d' m', es, f) ∧ omap vis_eff es = omap vis_action [a] ∧
    factories_total m' ∧ sup_ok (mkSup d' m') ∧ f = match a with Quit _ => Gone | _ => Continue end.
Proof.
  intros Hok Hf E. destruct st as [d m]. cbn [sup_decider sup_children] in *. unfold act.
  cbn [sup_decider sup_children]. rewrite E, bind_Ret. pose proof (d_next_keys _ _ _ _ E) as Hk.
  pose proof (sup_ok_next _ _ _ _ _ Hok E) as Hok'.
  destruct a as [| |k|a [k|]|[]]; try (by eexists _, _, _; split_and!).
  - destruct (expect_Some (m !! k) (Hok k Hk)) as (spec & Hs & ->). rewrite bind_Ret.
    destruct (Hf k spec (calls (launcher spec)) Hs) as [r Hr]. unfold produce. rewrite Hr, !bind_Ret.
    eexists _, _, _. split_and!; [done|done| |by apply sup_ok_insert|done].
    intros k' spec' n Hl. destruct (decide (k = k')) as [<-|Hne]; simplify_map_eq; [|by eapply Hf].
    cbn. by eapply Hf.
  - destruct (expect_Some (m !! k) (Hok k Hk)) as (spec & Hs & ->). rewrite !bind_Ret.
    by eexists _, _, _; split_and!.
Qed.

Lemma sup_loop_follows fuel d m supply t d' acts : sup_ok (mkSup d m) → factories_total m →
  drive fuel d supply t = Ret (d', acts) →
  ∃ st' es f, sup_loop (mkSup d m) (replies acts supply t) = Ret (st', es, f) ∧
    omap vis_eff es = omap vis_action acts.
Proof.
  revert d m supply acts. induction fuel as [|fuel IH]; intros d m supply acts Hok Hf Hd.
  { injection Hd as <- <-. by eexists _, _, _. }
  rewrite drive_unfold in Hd. destruct (d_next_ok d t) as (d1 & o & E). rewrite E, bind_Ret in Hd.
  destruct o as [a|]; [|injection Hd as <- <-; by eexists _, _, _].
  destruct (act_next (mkSup d m) t d1 a Hok Hf E) as (m' & es & f & Ea & Hv & Hf' & Hok' & ->).
  assert (Hstep : ∀ d2 supply' acts' msg es2,
    sup_ok (mkSup d2 m') → drive fuel d2 supply' t = Ret (d', acts') →
    (∀ n, a ≠ Quit n) → omap vis_eff es2 = [] →
    handle (mkSup d1 m') (Some msg) t = Ret (mkSup d2 m', es2, Continue) →
    ∃ st' es f, sup_loop (mkSup d m) (mkInput t true (Some msg) t :: replies acts' supply' t) =
      Ret (st', es, f) ∧ omap vis_eff es = omap vis_action (a :: acts')).
  { intros d2 supply' acts' msg es2 Hok2 Hd2 Hq Hes2 Hh.
    destruct (IH d2 m' supply' acts' Hok2 Hf' Hd2) as (st3 & es3 & f3 & Hl & Hv3).
    exists st3, ((es ++ es2) ++ es3), f3. split.
    - cbn [sup_loop]. unfold iteration. cbn [act_now fork_ok received recv_now].
      rewrite Ea, bind_Ret. destruct a; try (by destruct (Hq normal_exit));
      by rewrite Hh, !bind_Ret, Hl.
    - rewrite !omap_app, Hes2, Hv3, Hv, app_nil_r. change (a :: acts') with ([a] ++ acts'). by rewrite omap_app. }
  assert (Hend : ∀ i st2 es2 f2, omap vis_eff es2 = [] →
    iteration (mkSup d m) i = Ret (st2, es ++ es2, f2) →
    ∃ st' es f, sup_loop (mkSup d m) [i] = Ret (st', es, f) ∧ omap vis_eff es = omap vis_action [a]).
  { intros i st2 es2 f2 Hes2 Hit. cbn [sup_loop]. rewrite Hit, bind_Ret. destruct f2; eexists _, _, _;
      (split; [done|]); by rewrite ?omap_app, ?Hes2, ?app_nil_r, Hv. }
  destruct a as [| |k|a [k|]|n].
  1,2,5: apply bind_Ret_inv in Hd as ([d2 l2] & Hd & [= <- <-]); by eapply (Hstep _ _ _ MUnexpected []).
  - destruct supply as [|addr supply].
    + injection Hd as <- <-. eapply (Hend _ _ []); [done|]. unfold iteration. cbn [act_now fork_ok].
      by rewrite Ea.
    + apply bind_Ret_inv in Hd as (d2 & Hs & ([d3 l3] & Hd & [= <- <-])%bind_Ret_inv).
      eapply (Hstep d2 _ _ (MStarted k addr) [ELink addr]); try done; [|cbn; by rewrite Hs].
      eapply (sup_ok_op d1 (OpStarted k addr t)); [done|done|]. cbn. by rewrite Hs.
  - apply bind_Ret_inv in Hd as (d2 & Hs & ([d3 l3] & Hd & [= <- <-])%bind_Ret_inv).
    eapply (Hstep d2 _ _ (MExited a true) []); try done; [|cbn; by rewrite Hs].
    eapply (sup_ok_op d1 (OpExited a true t)); [done|done|]. cbn. by rewrite Hs.
  - injection Hd as <- <-. eapply (Hend _ _ []); [done|]. unfold iteration. cbn [act_now fork_ok].
    rewrite Ea, bind_Ret. by rewrite app_nil_r.
Qed.



(** C16: a mixed supervisor carries out its decider's decisions: in a world that
    starts and stops children as asked and whose messages keep the loop turning,
    the effects of the loop on the children are those of the decider's actions,
    in the same order. *)
Theorem mixed_sup_follows_decider d0 cs d m fuel supply t d' acts :
  d_keys d0 = [] → do_init_children d0 cs = (d, Ok m) → factories_total m →
  drive fuel d supply t = Ret (d', acts) →
  ∃ st' es f, sup_loop (mkSup d m) (replies acts supply t) = Ret (st', es, f) ∧
    omap vis_eff es = omap vis_action acts.
Proof.
  intros Hk Hi Hf Hd. eapply sup_loop_follows; [|done|done]. by eapply init_ok.
Qed.

End Laws.

End Loop.

(** the fork that starts a child reports to the supervisor exactly once, on
    the priority lane: the child's address if the start succeeded, a failure
    otherwise; a child that is told its parent is told before the supervisor
    learns of the start, and only then. The fork that stops a child reports
    failures only. *)
Theorem forks_report sup k spec started addr tm ok :
  let sends := omap (λ e, match e with FSend to p r => Some (to, p, r) | _ => None end) in
  (∃ pre, child_run sup k spec started =
      do_start (launcher spec) (init_type spec) :: pre ++
        [FSend sup true match started with Some a => RepStarted k a | None => RepStartFailed k end] ∧
      pre = match started with
            | Some a => if announce_parent spec then [FSetParent a sup] else []
            | None => []
            end) ∧
  sends (child_shutdown sup addr tm ok) = if ok then [] else [(sup, true, RepStopFailed addr)].
Proof.
  intros sends. split; [|by destruct ok]. unfold child_run, send_report.
  destruct started as [a|]; [|by exists []]. by eexists.
Qed.

(** after a crash under the all-for-one strategy, once the last child has
    been stopped, the supervisor's loop does nothing: the decider's [Noop] turns
    it back to waiting for a message, with every child stopped and none being
    started; the restart goes on only if some further message arrives. *)
Theorem afo_restart_stalls `{HashSetIter} (st : Sup (D := AllForOneDecider K)) t forked :
  AllForOne.sup_status (sup_decider st) = AllForOne.Sup_Restarting →
  AllForOne.orphans (sup_decider st) = ∅ →
  Forall AllForOne.stopped (AllForOne.states (sup_decider st)) →
  ∃ st', act st t forked = Ret (st', [], Continue) ∧
    AllForOne.sup_status (sup_decider st') = AllForOne.Sup_Running ∧
    AllForOne.states (sup_decider st') = AllForOne.states (sup_decider st).
Proof.
  intros Hs Ho Hst. destruct st as [d m]. cbn [sup_decider] in *. unfold act.
  cbn [d_next_action afo_decider sup_decider sup_children].
  rewrite (AllForOne.afo_next_action_idle d t (AllForOne.set_sup_status d AllForOne.Sup_Running) (Some Noop)).
  - by eexists.
  - done.
  - intros _. rewrite Hs. apply AllForOne.stopped_idle; [by left|done].
  - unfold AllForOne.settle. rewrite Hs. by rewrite AllForOne.stopped_all.
Qed.




End MixedSup.

(** ** Runs *)
#[local] Existing Instance elements_iter.

Definition spec_of (ct : ChildType) : ChildSpec (Factory Z) ChildType :=
  with_child_type (child_spec_new (factory_mut (λ n, Ret (Z.of_nat n)))) ct.
Definition two_children : Children (K := Z) (R := Z) :=
  append (append CUnit 1 (spec_of Permanent)) 2 (spec_of Transient).
Definition fresh : OneForOneDecider Z := OneForOne.mkOFO (mkRI 2 10) [] [] ∅ OneForOne.Sup_Starting.

Definition two_init := do_init_children fresh two_children.

Lemma init_children_correct_witness :
  NoDup (collect_into two_children []).*1 ↔ true = true.
Proof.
  refine (proj1 (init_children_correct fresh two_children two_init.1 two_init.2 eq_refl _)).
  exact (surjective_pairing two_init).
Defined.

Definition two_state : Sup (K := Z) (R := Z) (D := OneForOneDecider Z) :=
  mkSup two_init.1 match two_init.2 with Ok m => m | Err _ => ∅ end.

(** Child 1 is reported to run at address 7; then the same address is reported
    for child 2: the only panic there is. *)
Definition bad_state := match iteration two_state (mkInput 0 true (Some (MStarted 1 7)) 0) with
  | Ret (st, _, _) => st | Panic => two_state end.

Lemma mixed_sup_panics_witness :
  (∃ k spec, sup_children bad_state !! k = Some spec ∧ produce (launcher spec) = Panic) ∨
  (∃ st1 es k a, act bad_state 0 true = Ret (st1, es, Continue) ∧
     Some (MStarted 2 7) = Some (MStarted (K := Z) k a) ∧ d_uses (sup_decider st1) a).
Proof.
  refine (mixed_sup_panics fresh two_children two_init.1 (sup_children two_state) bad_state
    (mkInput 0 true (Some (MStarted 2 7)) 0) eq_refl _ _ _).
  - vm_compute. reflexivity.
  - eapply (reach_step _ two_state (mkInput 0 true (Some (MStarted 1 7)) 0)); [constructor|].
    vm_compute. reflexivity.
  - vm_compute. reflexivity.
Defined.

Definition two_factories_total : factories_total (sup_children two_state).
Proof.
  intros k spec n Hl. change (sup_children two_state)
    with (<[1:=spec_of Permanent]> (<[2:=spec_of Transient]> (∅ : gmap Z _))) in Hl.
  apply lookup_insert_Some in Hl as [[<- <-]|[_ Hl]]; [by eexists|].
  apply lookup_insert_Some in Hl as [[<- <-]|[_ Hl]]; [by eexists|done].
Defined.

Lemma mixed_sup_follows_decider_witness : ∃ st' es f,
  sup_loop two_state (replies [Start 1; Start 2; InitDone] [101; 102] 0) = Ret (st', es, f) ∧
  omap vis_eff es = [VRun 1; VRun 2; VInitDone].
Proof.
  assert (Hk : d_keys fresh = []) by reflexivity.
  eapply (mixed_sup_follows_decider fresh two_children two_init.1 (sup_children two_state) 4 [101; 102] 0 _
    [Start 1; Start 2; InitDone] Hk); [|exact two_factories_total|];
    vm_compute; reflexivity.
Defined.

Definition stalled : AllForOneDecider Z :=
  AllForOne.mkAFO (mkRI 2 10) [5]
    [(1, AllForOne.mkState Permanent AllForOne.Status_Stopped AllForOne.Target_Running)] ∅ AllForOne.Sup_Restarting.

Lemma afo_restart_stalls_witness : ∃ st',
  act (mkSup (R := Z) stalled ∅) 6 true = Ret (st', [], Continue) ∧
  AllForOne.sup_status (sup_decider st') = AllForOne.Sup_Running ∧
  AllForOne.states (sup_decider st') = AllForOne.states stalled.
Proof.
  apply (afo_restart_stalls (mkSup (R := Z) stalled ∅) 6 true eq_refl eq_refl). repeat constructor.
Defined.




