(* ===== verification/NameService.v ===== *)
(** * The name service (components/mm1-name-service/src/server.rs)

    A table of names. A name is held either exclusively, by one address, or
    shared, by any number of them; every registration ends at its [valid_thru]. *)

From stdpp Require Import strings.
From S2P Require Import Prelude Restart.

Open Scope Z_scope.

Inductive RegisterErrorKind := Conflict | RegisterInternal.
Inductive UnregisterErrorKind := NotFound | UnregisterInternal.

#[export] Instance RegisterErrorKind_eq_dec : EqDecision RegisterErrorKind.
Proof. solve_decision. Defined.

(** [enum Name]; a [Registration] is its [valid_thru]. *)
Inductive Name :=
| Exclusive (address : Z) (valid_thru : Instant)
| Shared (registrations : gmap Z Instant).

Abbreviation State := (gmap string Name).

(** [State::resolve]; the order of the shared entries is one a [HashMap] may
    have. *)
Definition resolve (st : State) (key : string) : list (Z * Instant) :=
  match st !! key with
  | None => []
  | Some (Exclusive address valid_thru) => [(address, valid_thru)]
  | Some (Shared entries) => map_to_list entries
  end.

(** What [sweep_expired] leaves of a name. *)
Definition sweep_name (now : Instant) (name : Name) : option Name :=
  match name with
  | Exclusive _ valid_thru => if now <? valid_thru then Some name else None
  | Shared registrations =>
      let registrations := filter (λ p, now < p.2) registrations in
      if bool_decide (registrations = ∅) then None else Some (Shared registrations)
  end.

(** [State::sweep_expired] *)
Definition sweep_expired (st : State) (now : Instant) : State := omap (sweep_name now) st.

(** [State::register]; [now] is the clock read by the sweep. *)
Definition register (st : State) (key : string) (address : Z) (exclusive : bool) (valid_thru now : Instant) :
  State * result unit RegisterErrorKind :=
  let st := sweep_expired st now in
  match exclusive, st !! key with
  | true, None => (<[key := Exclusive address valid_thru]> st, Ok tt)
  | false, None => (<[key := Shared {[address := valid_thru]}]> st, Ok tt)
  | true, Some (Exclusive existing_address _) =>
      if existing_address =? address then (<[key := Exclusive existing_address valid_thru]> st, Ok tt)
      else (st, Err Conflict)
  | true, Some (Shared _) => (st, Err Conflict)
  | false, Some (Exclusive _ _) => (st, Err Conflict)
  | false, Some (Shared registrations) =>
      (<[key := Shared (<[address := valid_thru]> registrations)]> st, Ok tt)
  end.

(** [State::unregister] *)
Definition unregister (st : State) (key : string) (address : Z) : State * result unit UnregisterErrorKind :=
  match st !! key with
  | None => (st, Err NotFound)
  | Some (Exclusive existing_address _) =>
      if existing_address =? address then (delete key st, Ok tt) else (st, Err NotFound)
  | Some (Shared registrations) =>
      let registrations := delete address registrations in
      if bool_decide (registrations = ∅) then (delete key st, Ok tt)
      else (<[key := Shared registrations]> st, Ok tt)
  end.

(** ** The server's requests (the loop of [name_server_actor]) *)
Inductive Request :=
| RegisterRequest (key : string) (addr : Z) (exclusive : bool) (ttl : Duration)
| UnregisterRequest (key : string) (addr : Z)
| ResolveRequest (key : string).

Inductive Response :=
| RegisterResponse (r : result unit RegisterErrorKind)
| UnregisterResponse (r : result unit UnregisterErrorKind)
| ResolveResponse (entries : list (Z * Duration)).

(** The [valid_thru] of a registration at [now]; an overflowing [ttl] falls back
    to the clock, read again ([again]). *)
Definition valid_thru_of (now again : Instant) (ttl : Duration) : Instant :=
  default again (instant_checked_add now ttl).

(** [partition(|(_, d)| d.is_zero())] *)
Definition partition_expired (l : list (Z * Duration)) : list (Z * Duration) * list (Z * Duration) :=
  (filter (λ p, p.2 = 0) l, filter (λ p, p.2 ≠ 0) l).

(** One request, at the three readings of the clock it may make. *)
Definition handle (st : State) (req : Request) (now again later : Instant) : State * Response :=
  match req with
  | RegisterRequest key addr exclusive ttl =>
      let valid_thru := valid_thru_of now again ttl in
      let '(st, r) := register st key addr exclusive valid_thru later in
      (st, RegisterResponse r)
  | UnregisterRequest key addr =>
      let '(st, r) := unregister st key addr in (st, UnregisterResponse r)
  | ResolveRequest key =>
      let items := resolve st key in
      let '(to_evict, to_return) :=
        partition_expired ((λ '(a, i), (a, saturating_duration_since i now)) <$> items) in
      let st := foldl (λ st e, (unregister st key e.1).1) st to_evict in
      (st, ResolveResponse to_return)
  end.

(** ** The specification: who holds a name at a time

    What a client can see of a name at time [t]: nobody holds it, or it is held
    exclusively or shared by these addresses until these instants. *)
Abbreviation Holders := (option (bool * gmap Z Instant)).

(** What is left of the holders at time [t]. *)
Definition age (t : Instant) (o : Holders) : Holders :=
  '(exclusive, m) ← o;
  let m := filter (λ p, t < p.2) m in
  if bool_decide (m = ∅) then None else Some (exclusive, m).

Definition holders_of (name : Name) : bool * gmap Z Instant :=
  match name with
  | Exclusive address valid_thru => (true, {[address := valid_thru]})
  | Shared registrations => (false, registrations)
  end.

Definition holders (st : State) (t : Instant) (key : string) : Holders := age t (holders_of <$> st !! key).

(** A registration by [address] among these holders: refused if somebody else
    holds the name exclusively, or if the wish is exclusive and the name is
    shared. *)
Definition spec_register (o : Holders) (address : Z) (exclusive : bool) (valid_thru : Instant) :
  Holders * result unit RegisterErrorKind :=
  match o with
  | None => (Some (exclusive, {[address := valid_thru]}), Ok tt)
  | Some (held_exclusively, m) =>
      if decide (exclusive = held_exclusively ∧ (exclusive = true → dom m = {[address]}))
      then (Some (exclusive, <[address := valid_thru]> m), Ok tt)
      else (o, Err Conflict)
  end.

Lemma age_age t t' o : t ≤ t' → age t' (age t o) = age t' o.
Proof.
  intros Hle. destruct o as [[ex m]|]; [|done]. cbn.
  assert (E : filter (λ p, t' < p.2) (filter (λ p, t < p.2) m) = filter (λ p, t' < p.2) m).
  { rewrite map_filter_filter. apply map_filter_ext. intros i x _. cbn. lia. }
  case_bool_decide as H1; cbn; [|by rewrite E].
  rewrite <- E, H1, map_filter_empty. by rewrite bool_decide_true.
Qed.

Lemma age_sweep t name : age t (Some (holders_of name)) = holders_of <$> sweep_name t name.
Proof.
  destruct name as [a v|m]; cbn.
  - rewrite map_filter_singleton. cbn. destruct (Z.ltb_spec t v).
    + rewrite decide_True by done. rewrite bool_decide_false; [done|apply map_non_empty_singleton].
    + rewrite decide_False by lia. by rewrite bool_decide_true.
  - by case_bool_decide.
Qed.

Lemma holders_sweep st now key : holders_of <$> sweep_expired st now !! key = holders st now key.
Proof.
  unfold holders, sweep_expired. rewrite lookup_omap. destruct (st !! key) as [name|]; [|done].
  cbn [mbind option_bind fmap option_fmap option_map]. by rewrite age_sweep.
Qed.

Lemma holders_swept st now t key : now ≤ t → holders (sweep_expired st now) t key = holders st t key.
Proof.
  intros Hle. unfold holders at 1. rewrite holders_sweep. unfold holders. by apply age_age.
Qed.

Lemma holders_insert st t k key name :
  holders (<[k := name]> st) t key = if decide (k = key) then age t (Some (holders_of name)) else holders st t key.
Proof. unfold holders. case_decide as E; [subst|]; by simplify_map_eq. Qed.

Lemma dom_singleton_insert (m : gmap Z Instant) a v : dom m = {[a]} → <[a:=v]> m = {[a:=v]}.
Proof.
  intros Hd. apply map_eq. intros i. destruct (decide (i = a)) as [->|Hne]; simplify_map_eq; [done|].
  apply not_elem_of_dom. rewrite Hd. set_solver.
Qed.

Lemma register_refines_ok st key address exclusive valid_thru now st' r :
  register st key address exclusive valid_thru now = (st', r) →
  let '(o, r') := spec_register (holders st now key) address exclusive valid_thru in
  r = r' ∧ ∀ t k, now ≤ t → holders st' t k = if decide (key = k) then age t o else holders st t k.
Proof.
  unfold register. rewrite <- holders_sweep.
  pose proof (λ t k, holders_swept st now t k) as Hsw.
  assert (Hsame : ∀ t k, now ≤ t → holders (sweep_expired st now) t k =
    if decide (key = k) then age t (holders_of <$> sweep_expired st now !! key) else holders st t k).
  { intros t k Hle. case_decide as E; [by subst|by apply Hsw]. }
  assert (Hins : ∀ name o, Some (holders_of name) = o → ∀ t k, now ≤ t →
    holders (<[key:=name]> (sweep_expired st now)) t k = if decide (key = k) then age t o else holders st t k).
  { intros name o <- t k Hle. rewrite holders_insert. case_decide; [done|by apply Hsw]. }
  destruct exclusive, (sweep_expired st now !! key) as [[a v|m]|] eqn:E;
    cbn [fmap option_fmap option_map holders_of spec_register].
  - rewrite dom_singleton_L. destruct (Z.eqb_spec a address) as [->|Hne]; intros [= <- <-].
    + rewrite decide_True by done. split; [done|]. apply Hins. cbn. by rewrite insert_singleton_eq.
    + rewrite decide_False by set_solver. split; [done|]. by apply Hsame.
  - intros [= <- <-]. rewrite decide_False by naive_solver. split; [done|]. by apply Hsame.
  - intros [= <- <-]. split; [done|]. by apply Hins.
  - intros [= <- <-]. rewrite decide_False by naive_solver. split; [done|]. by apply Hsame.
  - intros [= <- <-]. rewrite decide_True by done. split; [done|]. by apply Hins.
  - intros [= <- <-]. split; [done|]. by apply Hins.
Qed.

(** C25: registering implements its specification: it is refused exactly when the
    holders of the name at that time exclude it, and from then on the holders of
    that name are those the specification gives (as they expire), while the
    holders of every other name are unchanged; sweeping expired entries is
    invisible, and an expired owner never stands in the way. *)
Theorem register_refines st key address exclusive valid_thru now st' r :
  register st key address exclusive valid_thru now = (st', r) →
  let '(o, r') := spec_register (holders st now key) address exclusive valid_thru in
  r = r' ∧ ∀ t k, now ≤ t → holders st' t k = if decide (key = k) then age t o else holders st t k.
Proof. apply register_refines_ok. Qed.

(** ** Unregistering and resolving *)

(** The entries a name has in the table, expired ones included. *)
Definition entries (st : State) (key : string) : gmap Z Instant :=
  default ∅ (snd ∘ holders_of <$> st !! key).
Definition held_exclusively (st : State) (key : string) : bool :=
  default false (fst ∘ holders_of <$> st !! key).

Definition some_holders (ex : bool) (m : gmap Z Instant) : Holders :=
  if bool_decide (m = ∅) then None else Some (ex, m).

Definition spec_unregister (o : Holders) (address : Z) : Holders :=
  '(ex, m) ← o; some_holders ex (delete address m).

Lemma holders_entries st t key :
  holders st t key = some_holders (held_exclusively st key) (filter (λ p, t < p.2) (entries st key)).
Proof.
  unfold holders, entries, held_exclusively. destruct (st !! key) as [name|]; cbn.
  - by destruct (holders_of name).
  - rewrite map_filter_empty. unfold some_holders. by rewrite bool_decide_true.
Qed.

Lemma resolve_entries st key : resolve st key = map_to_list (entries st key).
Proof.
  unfold resolve, entries. destruct (st !! key) as [[a v|m]|]; cbn; [|done|done].
  by rewrite map_to_list_singleton.
Qed.

Lemma unregister_entries st key a k : entries (unregister st key a).1 k =
  if decide (key = k) then delete a (entries st k) else entries st k.
Proof.
  unfold unregister, entries. case_decide as E; [subst|].
  - destruct (st !! k) as [[b v|m]|] eqn:E; cbn.
    + destruct (Z.eqb_spec b a) as [->|Hne]; cbn; simplify_map_eq; cbn; [by rewrite delete_singleton_eq|].
      rewrite delete_id; [done|]. by rewrite lookup_singleton_ne.
    + case_bool_decide as Hm; cbn; simplify_map_eq; cbn; by rewrite ?Hm.
    + by rewrite E, delete_empty.
  - destruct (st !! key) as [[b v|m]|]; cbn; [destruct (b =? a)|case_bool_decide|]; by simplify_map_eq.
Qed.

Lemma unregister_exclusive st key a k : entries (unregister st key a).1 k ≠ ∅ →
  held_exclusively (unregister st key a).1 k = held_exclusively st k.
Proof.
  unfold unregister, entries, held_exclusively. destruct (decide (key = k)) as [->|Hne].
  - destruct (st !! k) as [[b v|m]|] eqn:E; cbn.
    + destruct (b =? a); cbn; simplify_map_eq; done.
    + case_bool_decide; cbn; by simplify_map_eq.
    + by rewrite E.
  - destruct (st !! key) as [[b v|m]|]; cbn; [destruct (b =? a)|case_bool_decide|]; by simplify_map_eq.
Qed.

Lemma some_holders_flag ex ex' m : (m ≠ ∅ → ex = ex') → some_holders ex m = some_holders ex' m.
Proof. intros He. unfold some_holders. case_bool_decide; [done|]. by rewrite He. Qed.

Lemma unregister_holders st key a t k : holders (unregister st key a).1 t k =
  if decide (key = k) then spec_unregister (holders st t k) a else holders st t k.
Proof.
  rewrite !holders_entries, unregister_entries.
  set (m := if decide (key = k) then delete a (entries st k) else entries st k).
  rewrite (some_holders_flag _ (held_exclusively st k)).
  2: { intros Hne. apply unregister_exclusive. rewrite unregister_entries. fold m. intros Hm.
    by rewrite Hm, map_filter_empty in Hne. }
  unfold m. case_decide; [|done]. rewrite map_filter_delete. unfold spec_unregister. unfold some_holders at 3.
  case_bool_decide as He; cbn; [|done]. unfold some_holders. rewrite He, delete_empty. by rewrite bool_decide_true.
Qed.

(** unregistering takes the address out of the holders of that name, now and
    later, and leaves every other name alone; it reports [NotFound] exactly when
    the name is unknown or held exclusively by another address. *)
Theorem unregister_refines st key address st' r : unregister st key address = (st', r) →
  (∀ t k, holders st' t k = if decide (key = k) then spec_unregister (holders st t k) address else holders st t k) ∧
  (r = Err NotFound ↔ st !! key = None ∨ ∃ a v, st !! key = Some (Exclusive a v) ∧ a ≠ address).
Proof.
  intros E. pose proof (λ t k, unregister_holders st key address t k) as Hh. rewrite E in Hh. split; [done|].
  unfold unregister in E. destruct (st !! key) as [[a v|m]|].
  - destruct (Z.eqb_spec a address); simplify_eq/=; [|naive_solver]. split; [done|]. naive_solver.
  - case_bool_decide; simplify_eq/=; naive_solver.
  - simplify_eq/=. naive_solver.
Qed.

(** Evicting an expired address is invisible. *)
Lemma evict_holders st key a now t k : now ≤ t → (∀ v, entries st key !! a = Some v → v ≤ now) →
  holders (unregister st key a).1 t k = holders st t k.
Proof.
  intros Hle Hexp. rewrite unregister_holders. case_decide; [subst|done]. rewrite !holders_entries.
  unfold spec_unregister. unfold some_holders at 2. case_bool_decide as He; cbn.
  - unfold some_holders. by rewrite bool_decide_true.
  - rewrite delete_id; [done|]. apply map_lookup_filter_None. right. intros v Hv%Hexp. cbn. lia.
Qed.

Lemma evict_all st key now l : Forall (λ e : Z * Duration, ∀ v, entries st key !! e.1 = Some v → v ≤ now) l →
  let st' := foldl (λ st e, (unregister st key e.1).1) st l in
  (∀ t k, now ≤ t → holders st' t k = holders st t k) ∧
  entries st' key = foldl (λ m e, delete e.1 m) (entries st key) l.
Proof.
  revert st. induction l as [|e l IH]; intros st Hl; [done|]. apply Forall_cons in Hl as [He Hl]. cbn.
  destruct (IH (unregister st key e.1).1) as [H1 H2].
  - eapply Forall_impl; [done|]. intros e' Hexp v. rewrite unregister_entries, decide_True by done.
    intros [_ Hv]%lookup_delete_Some. by apply Hexp.
  - split.
    + intros t k Hle. rewrite H1 by done. by eapply evict_holders.
    + rewrite H2. by rewrite unregister_entries, decide_True by done.
Qed.

Lemma foldl_delete_lookup (m : gmap Z Instant) (l : list (Z * Duration)) a :
  foldl (λ m e, delete e.1 m) m l !! a = if decide (a ∈ l.*1) then None else m !! a.
Proof.
  revert m. induction l as [|e l IH]; intros m; csimpl.
  - done.
  - rewrite IH. destruct (decide (a ∈ l.*1)).
    + rewrite decide_True; [done|]. by right.
    + destruct (decide (a = e.1)) as [->|Hne].
      * rewrite decide_True by (by left). by rewrite lookup_delete_eq.
      * rewrite decide_False by (intros [?|?]%elem_of_cons; done). by rewrite lookup_delete_ne.
Qed.

Lemma resolve_ok st key now again later st' l :
  handle st (ResolveRequest key) now again later = (st', ResolveResponse l) →
  NoDup l.*1 ∧
  (∀ a d, (a, d) ∈ l ↔ ∃ ex m, holders st now key = Some (ex, m) ∧ m !! a = Some (now + d)) ∧
  (∀ a v, entries st' key !! a = Some v → now < v) ∧
  (∀ t k, now ≤ t → holders st' t k = holders st t k).
Proof.
  unfold handle, partition_expired. rewrite resolve_entries. intros [= <- <-].
  set (f := λ '(a, i), (a : Z, saturating_duration_since i now)).
  assert (Hf : ∀ a d, (a, d) ∈ f <$> map_to_list (entries st key) ↔
    ∃ v, entries st key !! a = Some v ∧ d = saturating_duration_since v now).
  { intros a d. rewrite list_elem_of_fmap. split.
    - intros ([b v] & [= -> ->] & Hin%elem_of_map_to_list). eauto.
    - intros (v & Hv%elem_of_map_to_list & ->). by exists (a, v). }
  assert (Hkeys : (f <$> map_to_list (entries st key)).*1 = (map_to_list (entries st key)).*1).
  { rewrite <- list_fmap_compose. apply list_fmap_ext. by intros ? [a v] _. }
  destruct (evict_all st key now (filter (λ p, p.2 = 0) (f <$> map_to_list (entries st key)))) as [H1 H2].
  { apply Forall_forall. intros [a d] [Hd Hin]%list_elem_of_filter v Hv. cbn in *. subst.
    apply Hf in Hin as (v' & Hv' & Hd). unfold saturating_duration_since in Hd. simplify_eq. lia. }
  split_and!; [| | |exact H1].
  - eapply sublist_NoDup; [|apply fmap_sublist, sublist_filter]. rewrite Hkeys. apply NoDup_fst_map_to_list.
  - intros a d. rewrite list_elem_of_filter, Hf, holders_entries. unfold some_holders. cbn. split.
    + intros [Hd (v & Hv & ->)]. unfold saturating_duration_since in *.
      assert (Hlt : now < v) by lia. replace (now + Z.max 0 (v - now)) with v by lia.
      assert (Hl : filter (λ p, now < p.2) (entries st key) !! a = Some v) by (by apply map_lookup_filter_Some).
      case_bool_decide as He; [by rewrite He in Hl|]. eauto.
    + intros (ex & m & Hs & Hm). case_bool_decide; simplify_eq.
      apply map_lookup_filter_Some in Hm as [Hm Hlt]. cbn in Hlt. split; [lia|].
      exists (now + d). split; [done|]. unfold saturating_duration_since. lia.
  - intros a v. rewrite H2, foldl_delete_lookup. case_decide as Hin; [done|]. intros Hv.
    destruct (Z.ltb_spec now v) as [Hlt|Hge]; [done|]. destruct Hin.
    apply list_elem_of_fmap. exists (a, 0). split; [done|]. apply list_elem_of_filter. split; [done|].
    apply Hf. exists v. split; [done|]. unfold saturating_duration_since. lia.
Qed.

(** resolving a name answers with exactly its holders at that time, each
    once, with the time its registration has left; it removes the expired entries
    of that name from the table, which no later request can notice. *)
Theorem resolve_correct st key now again later st' l :
  handle st (ResolveRequest key) now again later = (st', ResolveResponse l) →
  NoDup l.*1 ∧
  (∀ a d, (a, d) ∈ l ↔ ∃ ex m, holders st now key = Some (ex, m) ∧ m !! a = Some (now + d)) ∧
  (∀ a v, entries st' key !! a = Some v → now < v) ∧
  (∀ t k, now ≤ t → holders st' t k = holders st t k).
Proof. apply resolve_ok. Qed.

(** ** The client (components/mm1-name-service/src/api.rs) *)
Inductive ResolveErrorKind := ResolveInternal.

Record Resolution := mkResolution { r_key : string; requested_at : Instant; r_entries : list (Z * Duration) }.

(** [Resolver::resolve]: the clock is read before the request is sent, and the
    entries of the answer are shuffled by their hashes ([sort]); [answer] is what
    the ask yields. *)
Definition resolver_resolve (sort : list (Z * Duration) → list (Z * Duration)) (key : string)
  (requested_at : Instant) (answer : result (list (Z * Duration)) ResolveErrorKind) :
  result Resolution ResolveErrorKind :=
  match answer with
  | Ok entries => Ok (mkResolution key requested_at (sort entries))
  | Err e => Err e
  end.

(** [Resolution::refresh] *)
Definition refresh (sort : list (Z * Duration) → list (Z * Duration)) (self : Resolution) (requested_at : Instant)
  (answer : result (list (Z * Duration)) ResolveErrorKind) : Resolution * result unit ResolveErrorKind :=
  match resolver_resolve sort (r_key self) requested_at answer with
  | Ok r => (r, Ok tt)
  | Err e => (self, Err e)
  end.

(** [Resolution::wait]: [asked] gives, for each attempt, the time of the request
    and its answer. *)
Fixpoint wait (sort : list (Z * Duration) → list (Z * Duration)) (self : Resolution)
  (retries : nat) (asked : nat → Instant * result (list (Z * Duration)) ResolveErrorKind) :
  Resolution * result unit ResolveErrorKind :=
  match retries with
  | O => (self, Err ResolveInternal)
  | S retries =>
      match resolver_resolve sort (r_key self) (asked 0%nat).1 (asked 0%nat).2 with
      | Err e => (self, Err e)
      | Ok updated =>
          if bool_decide (r_entries updated = []) then wait sort self retries (λ n, asked (S n))
          else (updated, Ok tt)
      end
  end.

Definition still_valid (r : Resolution) (now : Instant) (d : Duration) : bool :=
  match instant_checked_add (requested_at r) d with
  | Some deadline => now <? deadline
  | None => false
  end.

(** [Resolution::first] *)
Definition first (r : Resolution) (now : Instant) : option Z :=
  match r_entries r with
  | (a, d) :: _ => if still_valid r now d then Some a else None
  | [] => None
  end.

(** [Resolution::any] *)
Definition any (r : Resolution) (now : Instant) : option Z :=
  head ((filter (λ p, still_valid r now p.2 = true) (r_entries r)).*1).

Lemma still_valid_deadline r now d : still_valid r now d = true → now < requested_at r + d.
Proof.
  unfold still_valid, instant_checked_add. case_match; [|done]. case_match; simplify_eq. lia.
Qed.

Lemma any_elem r now a : any r now = Some a → ∃ d, (a, d) ∈ r_entries r ∧ now < requested_at r + d.
Proof.
  unfold any. intros Ha. assert (Hin : a ∈ (filter (λ p, still_valid r now p.2 = true) (r_entries r)).*1).
  { destruct (_.*1); [done|]. simplify_eq/=. by left. }
  apply list_elem_of_fmap in Hin as ([b d] & -> & [Hv Hin]%list_elem_of_filter).
  exists d. split; [done|]. by apply still_valid_deadline.
Qed.

Lemma first_any r now a : first r now = Some a → ∃ d, (a, d) ∈ r_entries r ∧ now < requested_at r + d.
Proof.
  unfold first. destruct (r_entries r) as [|[b d] l]; [done|]. case_match eqn:E; [|done].
  intros [= ->]. exists d. split; [by left|]. by apply still_valid_deadline.
Qed.

Lemma resolve_reply_entry st key now again later st' l a d :
  handle st (ResolveRequest key) now again later = (st', ResolveResponse l) → (a, d) ∈ l →
  entries st key !! a = Some (now + d).
Proof.
  unfold handle, partition_expired. rewrite resolve_entries. intros [= <- <-] [Hd Hin]%list_elem_of_filter.
  apply list_elem_of_fmap in Hin as ([b v] & [= -> ->] & Hin%elem_of_map_to_list). cbn in Hd.
  rewrite Hin. f_equal. unfold saturating_duration_since in *. lia.
Qed.

(** a client never uses a name beyond its registration: whatever address a
    resolution offers at time [t], by [first] or [any], was registered for that
    name when the server answered, with a registration that outlasts [t]; the
    time in flight is taken off, not added. *)
Theorem resolution_never_stale sort st key sent now again later st' l r t a :
  (∀ l, sort l ≡ₚ l) → sent ≤ now →
  handle st (ResolveRequest key) now again later = (st', ResolveResponse l) →
  resolver_resolve sort key sent (Ok l) = Ok r →
  first r t = Some a ∨ any r t = Some a →
  ∃ v, (a, v) ∈ resolve st key ∧ t < v.
Proof.
  intros Hsort Hle Hh [= <-] Hor.
  assert (∃ d, (a, d) ∈ sort l ∧ t < sent + d) as (d & Hin & Hlt).
  { destruct Hor as [H|H]; [by apply first_any in H|by apply any_elem in H]. }
  rewrite Hsort in Hin. pose proof (resolve_reply_entry _ _ _ _ _ _ _ _ _ Hh Hin) as He.
  exists (now + d). split; [|lia]. rewrite resolve_entries. by apply elem_of_map_to_list.
Qed.

(** waiting for a name succeeds exactly when, within the given number of
    attempts, one is answered with some address and all those before it with
    none, and then holds that answer. *)
Theorem wait_correct sort self retries asked r' :
  (∀ l, sort l ≡ₚ l) →
  wait sort self retries asked = (r', Ok tt) ↔
  ∃ i t l, (i < retries)%nat ∧ asked i = (t, Ok l) ∧ l ≠ [] ∧ r' = mkResolution (r_key self) t (sort l) ∧
    ∀ j, (j < i)%nat → (asked j).2 = Ok [].
Proof.
  intros Hsort. assert (Hnil : ∀ l, sort l = [] ↔ l = []).
  { intros l. pose proof (Permutation_length (Hsort l)) as Hl.
    rewrite <- !length_zero_iff_nil. lia. }
  revert asked. induction retries as [|retries IH]; intros asked; cbn [wait].
  { split; [done|]. intros (i & ? & ? & ? & _). lia. }
  destruct (asked 0%nat) as [t0 [l0|e]] eqn:E0; cbn [fst snd resolver_resolve r_entries].
  - case_bool_decide as Hl; rewrite Hnil in Hl.
    + rewrite IH. split.
      * intros (i & t & l & Hi & Ha & Hne & -> & Hj). exists (S i), t, l. split_and!; try done; [lia|].
        intros [|j] Hlt; [by rewrite E0, Hl|]. apply Hj. lia.
      * intros ([|i] & t & l & Hi & Ha & Hne & -> & Hj); [congruence|].
        exists i, t, l. split_and!; try done; [lia|]. intros j Hlt. apply (Hj (S j)). lia.
    + split.
      * intros [= <-]. exists 0%nat, t0, l0. split_and!; try done; [lia|]. intros; lia.
      * intros ([|i] & t & l & Hi & Ha & Hne & -> & Hj); [by rewrite E0 in Ha; simplify_eq|].
        specialize (Hj 0%nat ltac:(lia)). rewrite E0 in Hj. cbn in Hj. congruence.
  - split; [done|]. intros ([|i] & t & l & Hi & Ha & Hne & -> & Hj); [congruence|].
    specialize (Hj 0%nat ltac:(lia)). by rewrite E0 in Hj.
Qed.

(** ** Runs *)
Definition table : State :=
  <["x" := Exclusive 1 100]> (<["y" := Shared (<[1 := 50]> {[2 := 200]})]> ∅).

(** The regression test: an expired exclusive owner does not block. *)
Lemma register_refines_witness : ∃ st',
  register table "x" 2 true 300 150 = (st', Ok tt) ∧ holders st' 150 "x" = Some (true, {[2 := 300]}).
Proof.
  destruct (register table "x" 2 true 300 150) as [st' r] eqn:E. exists st'.
  pose proof (register_refines table "x" 2 true 300 150 st' r E) as H.
  assert (Hs : spec_register (holders table 150 "x") 2 true 300 = (Some (true, {[2 := 300]}), Ok tt))
    by (vm_compute; reflexivity).
  rewrite Hs in H. destruct H as [-> H]. split; [done|]. rewrite (H 150 "x"%string) by lia. vm_compute. reflexivity.
Defined.

Lemma unregister_refines_witness :
  holders (unregister table "y" 2).1 60 "y" = spec_unregister (holders table 60 "y") 2.
Proof. exact (proj1 (unregister_refines table "y" 2 _ _ (surjective_pairing _)) 60 "y"%string). Defined.

Lemma resolve_correct_witness :
  (handle table (ResolveRequest "y") 60 0 0).2 = ResolveResponse [(2, 140)] ∧
  ∀ a v, entries (handle table (ResolveRequest "y") 60 0 0).1 "y" !! a = Some v → 60 < v.
Proof.
  split; [vm_compute; reflexivity|].
  refine (proj1 (proj2 (proj2 (resolve_correct table "y" 60 0 0 _ [(2, 140)] _)))).
  vm_compute. reflexivity.
Defined.

Lemma resolution_never_stale_witness : ∃ v, (2, v) ∈ resolve table "y" ∧ 189 < v.
Proof.
  eapply (resolution_never_stale id table "y" 50 60 0 0 (handle table (ResolveRequest "y") 60 0 0).1 [(2, 140)] _ 189 2).
  - intros l. reflexivity.
  - lia.
  - vm_compute. reflexivity.
  - reflexivity.
  - right. vm_compute. reflexivity.
Defined.

Lemma wait_correct_witness : wait id (mkResolution "y" 0 []) 3
    (λ n, match n with O => (10, Ok []) | _ => (20, Ok [(7, 100)]) end) =
  (mkResolution "y" 20 [(7, 100)], Ok tt).
Proof.
  apply (wait_correct id (mkResolution "y" 0 []) 3); [intros l; reflexivity|].
  exists 1%nat, 20, [(7, 100)]. split_and!; [lia|done|done|done|]. intros [|j] Hj; [done|lia].
Defined.
