(* ===== verification/Registration.v ===== *)
(** * Keeping a name registered (components/mm1-name-service/src/api.rs, [Registration])

    A registration lasts for its time to live only, so a client asks for it again and again. The loop of the client is put together with the
    server of NameService.v, which handles the requests of others in between. *)

From stdpp Require Import strings.
From S2P Require Import Prelude Restart NameService.

Open Scope Z_scope.

Definition MILLIS : Z := 1000000.
Definition DEFAULT_REGISTER_TIMEOUT : Duration := 10 * MILLIS.
Definition DEFAULT_REFRESH_INTERVAL : Duration := 1 * NANOS.
Definition DEFAULT_TTL : Duration := 2 * NANOS.

Record Registration := mkRegistration {
  name_server : Z;
  key : string;
  addr : Z;
  register_timeout : Duration;
  refresh_interval : Duration;
  ttl : Duration;
  exclusive : bool;
}.

(** [Registration::new] *)
Definition registration_new (name_server : Z) (name : string) (addr : Z) : Registration :=
  mkRegistration name_server name addr DEFAULT_REGISTER_TIMEOUT DEFAULT_REFRESH_INTERVAL DEFAULT_TTL true.

Definition with_register_timeout (r : Registration) (d : Duration) : Registration :=
  mkRegistration (name_server r) (key r) (addr r) d (refresh_interval r) (ttl r) (exclusive r).
Definition with_refresh_interval (r : Registration) (d : Duration) : Registration :=
  mkRegistration (name_server r) (key r) (addr r) (register_timeout r) d (ttl r) (exclusive r).
Definition with_ttl (r : Registration) (d : Duration) : Registration :=
  mkRegistration (name_server r) (key r) (addr r) (register_timeout r) (refresh_interval r) d (exclusive r).
Definition with_exclusive (r : Registration) (b : bool) : Registration :=
  mkRegistration (name_server r) (key r) (addr r) (register_timeout r) (refresh_interval r) (ttl r) b.

(** The request of every turn *)
Definition register_request (r : Registration) : Request := RegisterRequest (key r) (addr r) (exclusive r) (ttl r).

(** A request of somebody else, and the server's readings of the clock while it handles it *)
Record Served := mkServed { request : Request; s_now : Instant; s_again : Instant; s_later : Instant }.

Definition serve (st : State) (l : list Served) : State :=
  foldl (λ st s, (handle st (request s) (s_now s) (s_again s) (s_later s)).1) st l.

(** A turn of the loop: what the server does for others since the last turn, when the request is sent, the server's readings of the clock, and
    when the answer comes, if it comes in time. *)
Record Turn := mkTurn { meanwhile : list Served; sent : Instant; now_ : Instant; again_ : Instant; later_ : Instant; answered : option Instant }.

(** [run_inner]: [None] while it goes on. *)
Fixpoint run_inner (r : Registration) (st : State) (turns : list Turn) : State * option RegisterErrorKind :=
  match turns with
  | [] => (st, None)
  | t :: turns =>
      let '(st, response) := handle (serve st (meanwhile t)) (register_request r) (now_ t) (again_ t) (later_ t) in
      match answered t with
      | None => (st, Some RegisterInternal)
      | Some _ =>
          match response with
          | RegisterResponse (Ok _) => run_inner r st turns
          | RegisterResponse (Err e) => (st, Some e)
          | _ => (st, Some RegisterInternal)
          end
      end
  end.

(** ** When the name is kept *)
Section Kept.
Variable r : Registration.

(** Nobody speaks for the client: no other request is about its address under its name. *)
Definition not_mine (q : Request) : Prop :=
  match q with
  | RegisterRequest k a _ _ | UnregisterRequest k a => k = key r → a ≠ addr r
  | ResolveRequest _ => True
  end.

(** The name is the client's alone up to [until] *)
Definition mine (st : State) (from until : Instant) : Prop :=
  ∀ t, from ≤ t → holders st t (key r) = age t (Some (true, {[addr r := until]})).

Lemma age_mine t a v : age t (Some (true, {[a := v]})) = if t <? v then Some (true, {[a := v]}) else None.
Proof.
  cbn. rewrite map_filter_singleton. cbn. destruct (Z.ltb_spec t v).
  - rewrite decide_True by done. rewrite bool_decide_false; [done|apply map_non_empty_singleton].
  - rewrite decide_False by lia. by rewrite bool_decide_true.
Qed.

(** The requests of others do no harm while the registration lasts. *)
Lemma served_mine st s from until : mine st from until → not_mine (request s) → from ≤ s_now s → s_now s ≤ s_later s → s_later s < until →
  mine (handle st (request s) (s_now s) (s_again s) (s_later s)).1 (s_later s) until.
Proof.
  intros Hm Hn H1 H2 H3 t Ht. assert (Hnow : holders st (s_later s) (key r) = Some (true, {[addr r := until]})).
  { rewrite Hm by lia. rewrite age_mine. by rewrite (proj2 (Z.ltb_lt _ _) H3). }
  destruct (request s) as [k a ex d|k a|k]; cbn [not_mine] in Hn.
  - cbn [handle]. destruct (register st k a ex _ (s_later s)) as [st' x] eqn:E. cbn [fst]. pose proof (register_refines_ok _ _ _ _ _ _ _ _ E) as H.
    destruct (spec_register (holders st (s_later s) k) a ex _) as [o x'] eqn:Es. destruct H as [_ H]. rewrite H by done. case_decide as Hk; [|apply Hm; lia].
    subst k. rewrite Hnow in Es. cbn in Es. rewrite decide_False in Es; [injection Es as <- <-; done|].
    intros [-> Hd]. specialize (Hd eq_refl). rewrite dom_singleton_L in Hd. apply (Hn eq_refl). set_solver.
  - cbn [handle]. destruct (unregister st k a) as [st' x] eqn:E. cbn [fst]. pose proof (unregister_holders st k a t (key r)) as H. rewrite E in H. cbn in H. rewrite H.
    case_decide as Hk; [|apply Hm; lia]. rewrite Hm by lia. rewrite age_mine. destruct (t <? until); cbn; [|done]. rewrite delete_id.
    + unfold some_holders. rewrite bool_decide_false; [done|apply map_non_empty_singleton].
    + apply lookup_singleton_ne. intros Ha. by apply (Hn Hk).
  - destruct (handle st (ResolveRequest k) (s_now s) (s_again s) (s_later s)) as [st' x] eqn:E. pose proof E as E'. cbn [handle] in E'.
    destruct (partition_expired _) as [y z]. injection E' as _ <-. destruct (resolve_ok _ _ _ _ _ _ _ E) as (_ & _ & _ & H).
    cbn [fst]. rewrite H by lia. apply Hm. lia.
Qed.

(** The server handles the requests one after another. *)
Fixpoint in_order (from : Instant) (l : list Served) (until : Instant) : Prop :=
  match l with
  | [] => from ≤ until
  | s :: l => from ≤ s_now s ∧ s_now s ≤ s_later s ∧ in_order (s_later s) l until
  end.

Lemma in_order_le from l until : in_order from l until → from ≤ until.
Proof. revert from. induction l as [|s l IH]; intros from; cbn; [done|]. intros (? & ? & ?%IH). lia. Qed.

Lemma serve_mine l : ∀ st from at_ until, mine st from until → in_order from l at_ → Forall (not_mine ∘ request) l → at_ < until →
  mine (serve st l) at_ until.
Proof.
  induction l as [|s l IH]; intros st from at_ until Hm Ho Hn Hlt; cbn in Ho.
  - intros t Ht. apply Hm. lia.
  - destruct Ho as (H1 & H2 & Ho). apply Forall_cons in Hn as [Hs Hn]. pose proof (in_order_le _ _ _ Ho).
    eapply (IH _ (s_later s)); [|done|done|done]. eapply served_mine; [done|done|lia|lia|lia].
Qed.

(** The request is handled after it is sent, and the answer is there before the client gives up; the clock does not end. *)
Record turn_ok (t : Turn) : Prop := {
  tn_sent : sent t ≤ now_ t;
  tn_later : now_ t ≤ later_ t;
  tn_answered : ∃ a, answered t = Some a ∧ later_ t ≤ a ∧ a ≤ sent t + register_timeout r;
  tn_clock : now_ t + ttl r ≤ INSTANT_MAX;
}.

(** The turns follow each other: each starts when the sleep after the last answer is over, at most [late] later. *)
Fixpoint timely (late : Duration) (prev : Turn) (turns : list Turn) : Prop :=
  match turns with
  | [] => True
  | t :: turns =>
      turn_ok t ∧ (∀ a, answered prev = Some a → sent t ≤ a + refresh_interval r + late) ∧
      in_order (later_ prev) (meanwhile t) (now_ t) ∧ Forall (not_mine ∘ request) (meanwhile t) ∧ timely late t turns
  end.

(** A registration that is granted *)
Lemma granted st t : turn_ok t → exclusive r = true →
  holders st (later_ t) (key r) = None ∨ (∃ v, holders st (later_ t) (key r) = Some (true, {[addr r := v]})) →
  ∃ st', handle st (register_request r) (now_ t) (again_ t) (later_ t) = (st', RegisterResponse (Ok tt)) ∧ mine st' (later_ t) (now_ t + ttl r).
Proof.
  intros [_ _ _ Hc] Hx Hh. unfold register_request. cbn [handle].
  assert (valid_thru_of (now_ t) (again_ t) (ttl r) = now_ t + ttl r) as ->.
  { unfold valid_thru_of, instant_checked_add. by rewrite (proj2 (Z.leb_le _ _) Hc). }
  destruct (register st (key r) (addr r) (exclusive r) (now_ t + ttl r) (later_ t)) as [st' x] eqn:E.
  pose proof (register_refines_ok _ _ _ _ _ _ _ _ E) as H. rewrite Hx in H.
  assert (Hs : spec_register (holders st (later_ t) (key r)) (addr r) true (now_ t + ttl r) = (Some (true, {[addr r := now_ t + ttl r]}), Ok tt)).
  { destruct Hh as [->|[v ->]]; [done|]. cbn. rewrite dom_singleton_L, decide_True by done. by rewrite insert_singleton_eq. }
  rewrite Hs in H. destruct H as [-> H]. exists st'. split; [done|]. intros u Hu. rewrite H by done. by rewrite decide_True.
Qed.

Lemma kept_on late turns : exclusive r = true → 2 * register_timeout r + refresh_interval r + late < ttl r →
  ∀ st prev, mine st (later_ prev) (now_ prev + ttl r) → turn_ok prev → timely late prev turns →
  ∃ st', run_inner r st turns = (st', None) ∧ let l := default prev (last turns) in mine st' (later_ l) (now_ l + ttl r).
Proof.
  intros Hx Htime. induction turns as [|t turns IH]; intros st prev Hm Hp Hts; cbn [run_inner]; [by eexists|].
  destruct Hts as (Ht & Hsent & Ho & Hn & Hts). destruct Hp as [Hp1 Hp2 (a & Ha & Ha1 & Ha2) Hp4]. specialize (Hsent a Ha).
  pose proof Ht as [Ht1 Ht2 (b & Hb & Hb1 & Hb2) _].
  assert (Hserved : mine (serve st (meanwhile t)) (now_ t) (now_ prev + ttl r)) by (eapply serve_mine; [done|done|done|lia]).
  destruct (granted (serve st (meanwhile t)) t Ht Hx) as (st1 & -> & Hm1).
  { right. exists (now_ prev + ttl r). rewrite Hserved by done. rewrite age_mine, (proj2 (Z.ltb_lt _ _)); [done|lia]. }
  rewrite Hb. destruct (IH st1 t Hm1 Ht Hts) as (st' & E & H). exists st'. split; [done|].
  destruct turns as [|t' turns]; [done|]. cbn [last] in *. destruct (last (t' :: turns)) eqn:El; [done|]. by apply last_None in El.
Qed.

(** C32: A client that renews its exclusive registration in good time keeps the name. The conditions: the name was free when it was first asked for; every
    request of the client is answered before its timeout, and each renewal is sent at most [late] after the interval from the last answer; the server handles
    the requests one after another, and none of those of others registers or unregisters the client's own address under that name; the time to
    live exceeds two timeouts, the interval and [late]; and the clock does not run out. Then the server refuses none of the client's requests, so the client goes
    on, whatever else others ask of the server in between, registrations of the same name included; and from each renewal until its time to live has passed the client is the
    only holder. *)
Theorem registration_kept late st t turns (Hx : exclusive r = true) (Htime : 2 * register_timeout r + refresh_interval r + late < ttl r)
    (Ht : turn_ok t) (Hfree : holders (serve st (meanwhile t)) (later_ t) (key r) = None) (Hts : timely late t turns) :
  ∃ st', run_inner r st (t :: turns) = (st', None) ∧
    let l := default t (last turns) in
    ∀ u, later_ l ≤ u → u < now_ l + ttl r → holders st' u (key r) = Some (true, {[addr r := now_ l + ttl r]}).
Proof.
  cbn [run_inner]. destruct (granted (serve st (meanwhile t)) t Ht Hx) as (st1 & -> & Hm); [by left|].
  destruct (tn_answered t Ht) as (a & -> & _). destruct (kept_on late turns Hx Htime st1 t Hm Ht Hts) as (st' & E & H). exists st'. split; [done|].
  cbv zeta in *. intros u Hu Hlt. rewrite H by done. by rewrite age_mine, (proj2 (Z.ltb_lt _ _)).
Qed.
End Kept.

(** ** A run with the defaults: a rival asks for the name between two renewals and is refused. *)
Definition client : Registration := registration_new 1 "x" 7.
Definition first_turn : Turn := mkTurn [] 0 5 5 6 (Some 8).
Definition rival : Served := mkServed (RegisterRequest "x" 8 true DEFAULT_TTL) 100 100 100.
Definition second_turn : Turn := mkTurn [rival] (NANOS + 8) (NANOS + 9) (NANOS + 9) (NANOS + 10) (Some (NANOS + 20)).

Lemma registration_kept_witness : ∃ st', run_inner client ∅ [first_turn; second_turn] = (st', None) ∧
  holders st' (2 * NANOS) "x" = Some (true, {[7 := 3 * NANOS + 9]}).
Proof.
  destruct (registration_kept client (500 * MILLIS) ∅ first_turn [second_turn]) as (st' & E & H).
  - reflexivity.
  - vm_compute. reflexivity.
  - split; [vm_compute; discriminate|vm_compute; discriminate|exists 8; split; [reflexivity|split; vm_compute; discriminate]|vm_compute; discriminate].
  - vm_compute. reflexivity.
  - cbn [timely]. split; [split; [vm_compute; discriminate|vm_compute; discriminate|eexists; split; [reflexivity|split; vm_compute; discriminate]|vm_compute; discriminate]|].
    split; [intros a [= <-]; vm_compute; discriminate|]. split; [cbn; split_and!; vm_compute; discriminate|]. split; [|exact I].
    constructor; [|constructor]. intros _. discriminate.
  - exists st'. split; [exact E|]. exact (H (2 * NANOS) ltac:(vm_compute; discriminate) ltac:(vm_compute; reflexivity)).
Defined.
