(* ===== verification/Container.v ===== *)
(** * Actor containers (core/mm1-node/src/runtime/container.rs, sys_msg.rs, sys_call.rs)

    A container runs one actor: its main fork and the forks it adds, each with
    its own address. It keeps their links and watches, serves the calls of the
    actor and the system messages of other containers, and, when the actor ends,
    tells everybody who is linked to it or watches it. *)

From stdpp Require Import sorting.
From S2P Require Import Prelude U64 Collections.

Open Scope Z_scope.

(** ** Messages and calls (sys_msg.rs, sys_call.rs) *)
Abbreviation Address := Z.
Abbreviation WatchRef := Z.

Inductive ExitReason := Normal | Terminate | LinkDown.

Inductive SysLink :=
| Connect (sender receiver : Address)
| Disconnect (sender receiver : Address)
| LinkExit (sender receiver : Address) (reason : ExitReason).

Inductive SysWatch :=
| Watch (sender receiver : Address) (watch_ref : WatchRef)
| Unwatch (sender receiver : Address) (watch_ref : WatchRef)
| Down (sender receiver : Address) (reason : ExitReason).

(** [ForkDone] carries the fork's lease, here its address. *)
Inductive SysMsg :=
| Kill
| Link (l : SysLink)
| SWatch (w : SysWatch)
| ForkDone (fork : Address).

(** How an actor ends. *)
Inductive ExitError := Killed | Collateral (a : Address) | Terminated (a : Address) | Panicked | UserError.
Abbreviation ExitResult := (result unit ExitError).

Inductive SysCall :=
| CallExit (r : ExitResult)
| CallTrapExit (set_into : bool)
| CallLink (sender receiver : Address)
| CallUnlink (sender receiver : Address)
| CallForkAdded (fork : Address)
| CallSpawn
| CallWatch (sender receiver : Address)
| CallUnwatch (sender : Address) (watch_ref : WatchRef).

#[export] Instance ExitReason_eq_dec : EqDecision ExitReason.
Proof. solve_decision. Defined.
#[export] Instance SysLink_eq_dec : EqDecision SysLink.
Proof. solve_decision. Defined.
#[export] Instance SysWatch_eq_dec : EqDecision SysWatch.
Proof. solve_decision. Defined.
#[export] Instance SysMsg_eq_dec : EqDecision SysMsg.
Proof. solve_decision. Defined.

(** What the container does to the outside: messages to other containers, to
    itself, to the actor's inbox, answers to calls, jobs to run. *)
Inductive Message := MExited (peer : Address) (normal_exit : bool)
                   | MDown (peer : Address) (watch_ref : WatchRef) (normal_exit : bool).
Inductive Out :=
| SysSend (to : Address) (msg : SysMsg)
| SelfSend (msg : SysMsg)
| Deliver (to : Address) (msg : Message)
| ReplyWatch (watch_ref : WatchRef)
| RunJob.

#[export] Instance Message_eq_dec : EqDecision Message.
Proof. solve_decision. Defined.
#[export] Instance Out_eq_dec : EqDecision Out.
Proof. solve_decision. Defined.

(** ** The container's state *)
Record JobEntry := mkJob {
  linked_to : gset Address;
  watches : gset (Address * WatchRef);
  watched_by : gset (Address * WatchRef);
}.
Definition job_empty : JobEntry := mkJob ∅ ∅ ∅.

Record TakenWatch := mkTaken { owner : Address; watch_target : Address }.

Record St := mkSt {
  job_entries : gmap Address JobEntry;
  taken_watch_refs : gmap WatchRef TakenWatch;
  next_watch_ref : Z;
  trap_exit : bool;
}.

Definition set_jobs (st : St) (j : gmap Address JobEntry) : St :=
  mkSt j (taken_watch_refs st) (next_watch_ref st) (trap_exit st).
Definition set_taken (st : St) (t : gmap WatchRef TakenWatch) : St :=
  mkSt (job_entries st) t (next_watch_ref st) (trap_exit st).
Definition set_linked (j : JobEntry) (l : gset Address) : JobEntry := mkJob l (watches j) (watched_by j).
Definition set_watches (j : JobEntry) (w : gset (Address * WatchRef)) : JobEntry := mkJob (linked_to j) w (watched_by j).
Definition set_watched_by (j : JobEntry) (w : gset (Address * WatchRef)) : JobEntry := mkJob (linked_to j) (watches j) w.

(** [sys_link_exit_message] and [sys_watch_down_message] *)
Definition exit_reason_of (normal_exit : bool) : ExitReason := if normal_exit then Normal else LinkDown.
Definition sys_link_exit_message (normal_exit : bool) (sender receiver : Address) : SysMsg :=
  Link (LinkExit sender receiver (exit_reason_of normal_exit)).
Definition sys_watch_down_message (normal_exit : bool) (sender receiver : Address) : SysMsg :=
  SWatch (Down sender receiver (exit_reason_of normal_exit)).

(** [unwatch_targets] *)
Definition unwatch_targets (taken : gmap WatchRef TakenWatch) (watcher : Address)
  (watches : gset (Address * WatchRef)) : gmap WatchRef TakenWatch * list Out :=
  (foldl (λ m '(_, watch_ref), delete watch_ref m) taken (btree_elements watches),
   (λ '(target, watch_ref), SysSend target (SWatch (Unwatch watcher target watch_ref))) <$> btree_elements watches).

(** The [filter_map] that drops a peer equal to the one before. *)
Fixpoint dedup (prev : option Address) (l : list Address) : list Address :=
  match l with
  | [] => []
  | this :: l => if bool_decide (prev = Some this) then dedup (Some this) l else this :: dedup (Some this) l
  end.

(** What a fork's end sends to the peers of its job entry. *)
Definition notify_peers (normal_exit : bool) (fork : Address) (j : JobEntry) : list Out :=
  ((λ peer, SysSend peer (sys_link_exit_message normal_exit fork peer)) <$> elements (linked_to j)) ++
  ((λ peer, SysSend peer (sys_watch_down_message normal_exit fork peer)) <$>
     dedup None ((btree_elements (watched_by j)).*1)).

(** [while let Some(x) = set.range((sender, MIN)..=(sender, MAX)).next() { set.remove(&x); .. }]:
    the elements in the order they are taken out. The size of the set bounds the
    number of turns. *)
Fixpoint drain_range (fuel : nat) (X : gset (Address * WatchRef)) (sender : Address) :
  gset (Address * WatchRef) * list (Address * WatchRef) :=
  match fuel with
  | O => (X, [])
  | S fuel =>
      match head (filter (λ x, x.1 = sender) (btree_elements X)) with
      | None => (X, [])
      | Some x => let '(X, l) := drain_range fuel (X ∖ {[x]}) sender in (X, x :: l)
      end
  end.

(** The loop that picks a watch reference. The references in use bound the
    number of turns. *)
Fixpoint alloc_watch_ref (fuel : nat) (taken : gmap WatchRef TakenWatch) (next : Z) : option (WatchRef * Z) :=
  match fuel with
  | O => None
  | S fuel =>
      let candidate := next in
      let next := u64_wrapping_add next 1 in
      match taken !! candidate with
      | None => Some (candidate, next)
      | Some _ => alloc_watch_ref fuel taken next
      end
  end.

(** ** One turn of the loop *)

(** What the surroundings contribute: whether a [sys_send] reaches its addressee,
    and whether the container's own mailbox still has a sender. *)
Record Env := mkEnv { send_ok : SysMsg → bool; mailbox_open : bool }.

Definition sys_send_or (e : Env) (to : Address) (msg otherwise : SysMsg) : outcome (list Out) :=
  if send_ok e msg then Ret [SysSend to msg]
  else assert_ (mailbox_open e);; Ret [SysSend to msg; SelfSend otherwise].

(** [SysCall::Link] *)
Definition on_link (e : Env) (st : St) (sender receiver : Address) : outcome (St * list Out * option ExitResult) :=
  j ← expect (job_entries st !! sender);
  if bool_decide (receiver ∈ linked_to j) then Ret (st, [], None)
  else
    out ← sys_send_or e receiver (Link (Connect sender receiver)) (Link (LinkExit receiver sender LinkDown));
    Ret (set_jobs st (<[sender := set_linked j ({[receiver]} ∪ linked_to j)]> (job_entries st)), out, None).

(** [SysCall::Unlink] *)
Definition on_unlink (st : St) (sender receiver : Address) : outcome (St * list Out * option ExitResult) :=
  j ← expect (job_entries st !! sender);
  if bool_decide (receiver ∈ linked_to j) then
    Ret (set_jobs st (<[sender := set_linked j (linked_to j ∖ {[receiver]})]> (job_entries st)),
         [SysSend receiver (Link (Disconnect sender receiver))], None)
  else Ret (st, [], None).

(** [SysCall::Watch] *)
Definition on_watch (e : Env) (st : St) (sender receiver : Address) : outcome (St * list Out * option ExitResult) :=
  j ← expect (job_entries st !! sender);
  '(watch_ref, next) ←
    expect (alloc_watch_ref (S (size (taken_watch_refs st))) (taken_watch_refs st) (next_watch_ref st));
  let taken := <[watch_ref := mkTaken sender receiver]> (taken_watch_refs st) in
  let jobs := <[sender := set_watches j ({[(receiver, watch_ref)]} ∪ watches j)]> (job_entries st) in
  out ← sys_send_or e receiver (SWatch (Watch sender receiver watch_ref)) (SWatch (Down receiver sender LinkDown));
  Ret (mkSt jobs taken next (trap_exit st), out ++ [ReplyWatch watch_ref], None).

(** [SysCall::Unwatch] *)
Definition on_unwatch (st : St) (watch_ref : WatchRef) : outcome (St * list Out * option ExitResult) :=
  match taken_watch_refs st !! watch_ref with
  | None => Ret (st, [], None)
  | Some (mkTaken owner target) =>
      j ← expect (job_entries st !! owner);
      Ret (mkSt (<[owner := set_watches j (watches j ∖ {[(target, watch_ref)]})]> (job_entries st))
             (delete watch_ref (taken_watch_refs st)) (next_watch_ref st) (trap_exit st),
           [SysSend target (SWatch (Unwatch owner target watch_ref))], None)
  end.

Definition on_call (e : Env) (st : St) (c : SysCall) : outcome (St * list Out * option ExitResult) :=
  match c with
  | CallExit r => Ret (st, [], Some r)
  | CallTrapExit b =>
      Ret (mkSt (job_entries st) (taken_watch_refs st) (next_watch_ref st) b, [], None)
  | CallSpawn => Ret (st, [RunJob], None)
  | CallForkAdded fork =>
      assert_ (bool_decide (job_entries st !! fork = None));;
      Ret (set_jobs st (<[fork := job_empty]> (job_entries st)), [], None)
  | CallLink sender receiver => on_link e st sender receiver
  | CallUnlink sender receiver => on_unlink st sender receiver
  | CallWatch sender receiver => on_watch e st sender receiver
  | CallUnwatch _ watch_ref => on_unwatch st watch_ref
  end.

(** [linked_to.remove(&sender)] in the entry of [receiver], if there is one, and
    whether it removed anything. *)
Definition unlink_entry (st : St) (sender receiver : Address) : St * bool :=
  match job_entries st !! receiver with
  | Some j => (set_jobs st (<[receiver := set_linked j (linked_to j ∖ {[sender]})]> (job_entries st)),
               bool_decide (sender ∈ linked_to j))
  | None => (st, false)
  end.

Definition is_normal (r : ExitReason) : bool := match r with Normal => true | _ => false end.

(** [SysMsg::ForkDone] *)
Definition on_fork_done (st : St) (fork : Address) : outcome (St * list Out * option ExitResult) :=
  j ← expect (job_entries st !! fork);
  let '(taken, out) := unwatch_targets (taken_watch_refs st) fork (watches j) in
  Ret (set_taken (set_jobs st (delete fork (job_entries st))) taken, out ++ notify_peers true fork j, None).

(** The three untrapped arms of [SysLink::Exit] and the trapped one. *)
Definition on_link_exit (e : Env) (st : St) (sender receiver : Address) (reason : ExitReason) : outcome (St * list Out * option ExitResult) :=
  if trap_exit st then
    match job_entries st !! receiver with
    | None => Ret (st, [], None)
    | Some _ =>
        let '(st, should_handle) :=
          match reason with
          | Terminate => (st, true)
          | LinkDown | Normal => unlink_entry st sender receiver
          end in
        Ret (st, if should_handle && mailbox_open e
                 then [Deliver receiver (MExited sender (is_normal reason))] else [], None)
    end
  else
    match reason with
    | Normal => Ret ((unlink_entry st sender receiver).1, [], None)
    | LinkDown =>
        let '(st, removed) := unlink_entry st sender receiver in
        Ret (st, [], if removed then Some (Err (Collateral sender)) else None)
    | Terminate =>
        Ret (st, [], if job_entries st !! receiver
                     then Some (Err (Terminated sender)) else None)
    end.

(** [SysWatch::Down] *)
Definition on_down (e : Env) (st : St) (sender receiver : Address) (reason : ExitReason) : outcome (St * list Out * option ExitResult) :=
  match job_entries st !! receiver with
  | None => Ret (st, [], None)
  | Some j =>
      let '(by_, _) := drain_range (size (watched_by j)) (watched_by j) sender in
      let '(ws, reported) := drain_range (size (watches j)) (watches j) sender in
      Ret (set_taken (set_jobs st (<[receiver := mkJob (linked_to j) ws by_]> (job_entries st)))
             (foldl (λ m '(_, watch_ref), delete watch_ref m) (taken_watch_refs st) reported),
           if mailbox_open e
           then (λ '(peer, watch_ref), Deliver receiver (MDown peer watch_ref (is_normal reason))) <$> reported
           else [], None)
  end.

Definition on_msg (e : Env) (st : St) (m : SysMsg) : outcome (St * list Out * option ExitResult) :=
  match m with
  | Kill => Ret (st, [], Some (Err Killed))
  | ForkDone fork => on_fork_done st fork
  | Link (Connect sender receiver) =>
      match job_entries st !! receiver with
      | Some j => Ret (set_jobs st (<[receiver := set_linked j ({[sender]} ∪ linked_to j)]> (job_entries st)), [], None)
      | None => Ret (st, [SysSend sender (Link (LinkExit receiver sender LinkDown))], None)
      end
  | Link (Disconnect sender receiver) => Ret ((unlink_entry st sender receiver).1, [], None)
  | Link (LinkExit sender receiver reason) => on_link_exit e st sender receiver reason
  | SWatch (Watch sender receiver watch_ref) =>
      match job_entries st !! receiver with
      | Some j =>
          Ret (set_jobs st (<[receiver := set_watched_by j ({[(sender, watch_ref)]} ∪ watched_by j)]> (job_entries st)), [], None)
      | None => Ret (st, [SysSend sender (SWatch (Down receiver sender LinkDown))], None)
      end
  | SWatch (Unwatch sender receiver watch_ref) =>
      match job_entries st !! receiver with
      | Some j =>
          Ret (set_jobs st (<[receiver := set_watched_by j (watched_by j ∖ {[(sender, watch_ref)]})]> (job_entries st)), [], None)
      | None => Ret (st, [], None)
      end
  | SWatch (Down sender receiver reason) => on_down e st sender receiver reason
  end.

(** ** The whole run *)
Inductive ContainerError := EndOfCallRx | EndOfSysMsgRx.

(** What the [select!] of a turn yields. *)
Inductive Selected :=
| SelShutdown
| SelCall (call : option SysCall)
| SelMsg (msg : option SysMsg)
| SelMainPanicked
| SelJobDone (panicked : bool).

Inductive Flow := Go | Break (r : ExitResult) | Fail (e : ContainerError).

Definition flow_of (o : option ExitResult) : Flow := match o with Some r => Break r | None => Go end.

Definition turn (e : Env) (st : St) (s : Selected) : outcome (St * list Out * Flow) :=
  match s with
  | SelShutdown => Ret (st, [], Break (Ok tt))
  | SelCall None => Ret (st, [], Fail EndOfCallRx)
  | SelCall (Some c) => '(st, out, o) ← on_call e st c; Ret (st, out, flow_of o)
  | SelMsg None => Ret (st, [], Fail EndOfSysMsgRx)
  | SelMsg (Some m) => '(st, out, o) ← on_msg e st m; Ret (st, out, flow_of o)
  | SelMainPanicked | SelJobDone true =>
      '(st, out, o) ← on_call e st (CallExit (Err Panicked)); Ret (st, out, flow_of o)
  | SelJobDone false => Ret (st, [], Go)
  end.

Fixpoint main_loop (st : St) (inputs : list (Env * Selected)) : outcome (St * list Out * Flow) :=
  match inputs with
  | [] => Ret (st, [], Go)
  | (e, s) :: inputs =>
      '(st, out, f) ← turn e st s;
      match f with
      | Go => '(st, out', f) ← main_loop st inputs; Ret (st, out ++ out', f)
      | _ => Ret (st, out, f)
      end
  end.

(** The preparation of [run]: the initial links. *)
Definition start (e : Env) (main : Address) (link_to : list Address) : outcome (St * list Out) :=
  let linked_to : gset Address := list_to_set link_to in
  assert_ (mailbox_open e);;
  Ret (mkSt {[main := mkJob linked_to ∅ ∅]} ∅ 0 false,
       peer ← elements linked_to;
       let msg := Link (Connect main peer) in
       SysSend peer msg :: if send_ok e msg then [] else [SelfSend (Link (LinkExit peer main LinkDown))]).

(** A system message that is still in the queue when the actor has ended. *)
Definition drain_msg (normal_exit : bool) (st : St) (m : SysMsg) : St * list Out :=
  match m with
  | Kill => (st, [])
  | ForkDone fork =>
      match job_entries st !! fork with
      | None => (st, [])
      | Some j =>
          let '(taken, out) := unwatch_targets (taken_watch_refs st) fork (watches j) in
          (set_taken (set_jobs st (delete fork (job_entries st))) taken, out ++ notify_peers normal_exit fork j)
      end
  | Link (Disconnect _ _) | Link (LinkExit _ _ _) => (st, [])
  | Link (Connect sender receiver) => (st, [SysSend sender (sys_link_exit_message normal_exit receiver sender)])
  | SWatch (Unwatch _ _ _) | SWatch (Down _ _ _) => (st, [])
  | SWatch (Watch sender receiver _) => (st, [SysSend sender (sys_watch_down_message normal_exit receiver sender)])
  end.

Fixpoint drain_msgs (normal_exit : bool) (st : St) (ms : list SysMsg) : St * list Out :=
  match ms with
  | [] => (st, [])
  | m :: ms =>
      let '(st, out) := drain_msg normal_exit st m in
      let '(st, out') := drain_msgs normal_exit st ms in
      (st, out ++ out')
  end.

(** The end of [run]: [pending] is what the queue of system messages holds when
    it is closed; [unregistered] is the registry's answer. *)
Definition epilogue (main : Address) (exit_reason : ExitResult) (unregistered : bool)
  (st : St) (pending : list SysMsg) : outcome (St * list Out) :=
  assert_ unregistered;;
  let normal_exit := is_ok exit_reason in
  let '(st, out) := drain_msgs normal_exit st pending in
  j ← expect (job_entries st !! main);
  let '(taken, out') := unwatch_targets (taken_watch_refs st) main (watches j) in
  Ret (set_taken (set_jobs st (delete main (job_entries st))) taken,
       out ++ out' ++ notify_peers normal_exit main j).

(** [Container::run] *)
Definition run (e : Env) (main : Address) (link_to : list Address) (inputs : list (Env * Selected))
  (unregistered : bool) (pending : list SysMsg) :
  outcome (list Out * option (result ExitResult ContainerError)) :=
  '(st, out) ← start e main link_to;
  '(st, out', f) ← main_loop st inputs;
  match f with
  | Go => Ret (out ++ out', None)
  | Fail err => Ret (out ++ out', Some (Err err))
  | Break r => '(_, out'') ← epilogue main r unregistered st pending; Ret (out ++ out' ++ out'', Some (Ok r))
  end.

(** ** Each watcher is told once *)

(** Dropping repetitions of a sorted list leaves each peer once. *)
Lemma dedup_elem prev l a : a ∈ dedup prev l → a ∈ l.
Proof.
  revert prev. induction l as [|x l IH]; intros prev; cbn [dedup]; [done|].
  case_bool_decide; [intros ?%IH; by right|]. intros [->|?%IH]%elem_of_cons; [by left|by right].
Qed.

Lemma dedup_complete prev l a : a ∈ l → prev ≠ Some a → StronglySorted Z.le l →
  a ∈ dedup prev l.
Proof.
  revert prev. induction l as [|x l IH]; intros prev Hin Hp Hs; [by apply elem_of_nil in Hin|].
  apply StronglySorted_inv in Hs as [Hs Hx]. cbn [dedup]. destruct (decide (a = x)) as [->|Hne].
  - rewrite bool_decide_false by done. by left.
  - apply elem_of_cons in Hin as [?|Hin]; [done|]. case_bool_decide; [|right]; apply IH; try done; congruence.
Qed.

Lemma dedup_NoDup prev l : StronglySorted Z.le l →
  (∀ p, prev = Some p → Forall (Z.le p) l) → NoDup (dedup prev l) ∧ ∀ p, prev = Some p → p ∉ dedup prev l.
Proof.
  revert prev. induction l as [|x l IH]; intros prev Hs Hp; cbn [dedup].
  { split; [apply NoDup_nil_2|]. intros; apply not_elem_of_nil. }
  apply StronglySorted_inv in Hs as [Hs Hx].
  destruct (IH (Some x) Hs) as [H1 H2]; [by intros p [= <-]|]. case_bool_decide as E.
  - split; [done|]. intros p ->. simplify_eq. by apply H2.
  - split; [apply NoDup_cons; split; [by apply H2|done]|].
    intros p -> [->|Hin]%elem_of_cons; [done|]. apply dedup_elem in Hin as Hin'.
    specialize (Hp p eq_refl). apply Forall_cons in Hp as [Hpx _].
    rewrite Forall_forall in Hx. specialize (Hx _ Hin'). assert (p = x) by lia. congruence.
Qed.

Lemma btree_peers_sorted X : StronglySorted Z.le (btree_elements X).*1.
Proof.
  pose proof (btree_sorted X) as Hs. induction Hs as [|x l Hs IH Hx]; [constructor|]. csimpl. constructor; [done|].
  apply Forall_fmap. eapply Forall_impl; [done|]. intros y. unfold pair_le. simpl. lia.
Qed.

(** The peers a fork's watchers are: each is told once. *)
Lemma dedup_watchers X : NoDup (dedup None (btree_elements X).*1) ∧
  ∀ a, a ∈ dedup None (btree_elements X).*1 ↔ ∃ r, (a, r) ∈ X.
Proof.
  pose proof (btree_peers_sorted X) as Hs. split; [by apply dedup_NoDup|]. intros a. split.
  - intros Hin%dedup_elem. apply list_elem_of_fmap in Hin as ([b r] & -> & Hin%elem_of_btree). by exists r.
  - intros [r Hin]. apply dedup_complete; [|done|done]. apply list_elem_of_fmap.
    exists (a, r). by rewrite elem_of_btree.
Qed.

(** Draining a range takes out exactly the watches of that peer, once each. *)
Lemma drain_range_spec fuel X s X' l : (size X ≤ fuel)%nat → drain_range fuel X s = (X', l) →
  NoDup l ∧ (∀ x, x ∈ l ↔ x ∈ X ∧ x.1 = s) ∧ (∀ x, x ∈ X' ↔ x ∈ X ∧ x.1 ≠ s).
Proof.
  revert X X' l. induction fuel as [|fuel IH]; intros X X' l Hsz; cbn [drain_range].
  { intros [= <- <-]. assert (HX : X = ∅) by (apply leibniz_equiv, size_empty_inv; lia).
    subst. split_and!; [apply NoDup_nil_2|set_solver|set_solver]. }
  destruct (head (filter (λ x, x.1 = s) (btree_elements X))) as [x|] eqn:E.
  - destruct (drain_range fuel (X ∖ {[x]}) s) as [X1 l1] eqn:E1. intros [= <- <-].
    assert (Hx : x ∈ X ∧ x.1 = s).
    { destruct (filter _ _) eqn:Ef; [done|]. simplify_eq/=.
      assert (Hin : x ∈ filter (λ x, x.1 = s) (btree_elements X)) by (rewrite Ef; by left).
      apply list_elem_of_filter in Hin as [? Hin]. by rewrite elem_of_btree in Hin. }
    apply IH in E1 as (H1 & H2 & H3).
    + split_and!.
      * apply NoDup_cons. split; [|done]. rewrite H2. set_solver.
      * intros y. rewrite elem_of_cons, H2. destruct (decide (y = x)) as [->|]; set_solver.
      * intros y. rewrite H3. destruct (decide (y = x)) as [->|]; set_solver.
    + rewrite size_difference by set_solver. rewrite size_singleton. lia.
  - intros [= <- <-]. assert (Hn : ∀ x, x ∈ X → x.1 ≠ s).
    { intros x Hx Hs. assert (Hin : x ∈ filter (λ x, x.1 = s) (btree_elements X)).
      { apply list_elem_of_filter. by rewrite elem_of_btree. }
      destruct (filter _ _); [by apply elem_of_nil in Hin|done]. }
    split_and!; [apply NoDup_nil_2|set_solver|set_solver].
Qed.

(** ** Watch references *)
Lemma alloc_none fuel taken next : u64_ok next → alloc_watch_ref fuel taken next = None →
  ∀ i, (i < fuel)%nat → (next + Z.of_nat i) mod 2 ^ 64 ∈ dom taken.
Proof.
  revert next. induction fuel as [|fuel IH]; intros next Hn Ha i Hi; [lia|]. cbn [alloc_watch_ref] in Ha.
  destruct (taken !! next) as [w|] eqn:E; [|done]. destruct i as [|i].
  - rewrite Z.add_0_r, Z.mod_small by exact Hn. by apply elem_of_dom.
  - assert (Hn' : u64_ok (u64_wrapping_add next 1)) by (unfold u64_wrapping_add, u64_ok; apply Z.mod_pos_bound; lia).
    specialize (IH _ Hn' Ha i ltac:(lia)). unfold u64_wrapping_add in IH.
    rewrite Z.add_mod_idemp_l in IH by lia. by replace (next + Z.of_nat (S i)) with (next + 1 + Z.of_nat i) by lia.
Qed.

Lemma alloc_some fuel taken next r next' : u64_ok next → alloc_watch_ref fuel taken next = Some (r, next') →
  taken !! r = None ∧ u64_ok r ∧ u64_ok next'.
Proof.
  revert next. induction fuel as [|fuel IH]; intros next Hn Ha; [done|]. cbn [alloc_watch_ref] in Ha.
  assert (Hn' : u64_ok (u64_wrapping_add next 1)) by (unfold u64_wrapping_add, u64_ok; apply Z.mod_pos_bound; lia).
  destruct (taken !! next) as [w|] eqn:E; [by eapply IH|]. by simplify_eq.
Qed.

(** The loop ends: among one more candidate than there are references in use,
    one is free. *)
Lemma alloc_total taken next : u64_ok next → Z.of_nat (size taken) < 2 ^ 64 →
  is_Some (alloc_watch_ref (S (size taken)) taken next).
Proof.
  intros Hn Hsz. destruct (alloc_watch_ref (S (size taken)) taken next) as [p|] eqn:E; [done|]. exfalso.
  set (c := λ i : nat, (next + Z.of_nat i) mod 2 ^ 64).
  set (l := c <$> seq 0 (S (size taken))).
  assert (Hnd : NoDup l).
  { apply NoDup_fmap_2_strong; [|apply NoDup_seq]. intros i j Hi Hj Hc.
    apply elem_of_seq in Hi, Hj. unfold c in Hc.
    assert (Hd : (Z.of_nat i - Z.of_nat j) mod 2 ^ 64 = 0).
    { replace (Z.of_nat i - Z.of_nat j) with ((next + Z.of_nat i) - (next + Z.of_nat j)) by lia.
      rewrite Zminus_mod, Hc, Z.sub_diag. done. }
    apply Z.mod_divide in Hd as [q Hq]; [|lia]. nia. }
  assert (Hsub : list_to_set l ⊆ dom taken).
  { intros x [i [-> Hi]]%elem_of_list_to_set%list_elem_of_fmap. apply elem_of_seq in Hi.
    apply (alloc_none _ _ _ Hn E). lia. }
  apply subseteq_size in Hsub. rewrite size_list_to_set in Hsub by done.
  unfold l in Hsub. rewrite length_fmap, length_seq, size_dom in Hsub. lia.
Qed.

(** the loop that picks the reference of a new watch ends, as long as fewer
    than [2^64] are in use, although the counter wraps around; the reference is
    one that no current watch has. *)
Theorem watch_ref_fresh taken next : u64_ok next → Z.of_nat (size taken) < 2 ^ 64 →
  ∃ r next', alloc_watch_ref (S (size taken)) taken next = Some (r, next') ∧
    taken !! r = None ∧ u64_ok r ∧ u64_ok next'.
Proof.
  intros Hn Hsz. destruct (alloc_total taken next Hn Hsz) as [[r next'] E].
  exists r, next'. split; [done|]. by eapply alloc_some.
Qed.

(** ** The invariant of the watches *)

(** The watches of a fork. *)
Definition watch_set (jobs : gmap Address JobEntry) (a : Address) : gset (Address * WatchRef) :=
  match jobs !! a with Some j => watches j | None => ∅ end.

(** The table of references and the forks' own watches agree. *)
Definition watch_inv (st : St) : Prop :=
  u64_ok (next_watch_ref st) ∧
  ∀ r o t, taken_watch_refs st !! r = Some (mkTaken o t) ↔ (t, r) ∈ watch_set (job_entries st) o.

Lemma watch_set_insert jobs a j b :
  watch_set (<[a := j]> jobs) b = if decide (a = b) then watches j else watch_set jobs b.
Proof. unfold watch_set. case_decide; [subst|]; by simplify_map_eq. Qed.

Lemma watch_set_delete jobs a b :
  watch_set (delete a jobs) b = if decide (a = b) then ∅ else watch_set jobs b.
Proof. unfold watch_set. case_decide; [subst|]; by simplify_map_eq. Qed.

Lemma watch_set_lookup jobs a j : jobs !! a = Some j → watch_set jobs a = watches j.
Proof. unfold watch_set. by intros ->. Qed.

(** A change that leaves every fork's watches alone. *)
Lemma watch_inv_jobs st jobs : watch_inv st →
  (∀ a, watch_set jobs a = watch_set (job_entries st) a) → watch_inv (set_jobs st jobs).
Proof. intros [Hn Hw] Hs. split; [done|]. intros r o t. cbn. by rewrite Hs. Qed.

Lemma watch_inv_update st a j j' : watch_inv st → job_entries st !! a = Some j → watches j' = watches j →
  watch_inv (set_jobs st (<[a := j']> (job_entries st))).
Proof.
  intros Hi Hj Hw. apply watch_inv_jobs; [done|]. intros b. rewrite watch_set_insert.
  case_decide; [subst|done]. by rewrite (watch_set_lookup _ _ _ Hj).
Qed.

Lemma foldl_delete_refs (m : gmap WatchRef TakenWatch) (l : list (Address * WatchRef)) r :
  foldl (λ m '(_, watch_ref), delete watch_ref m) m l !! r = if decide (r ∈ l.*2) then None else m !! r.
Proof.
  revert m. induction l as [|[t r'] l IH]; intros m; csimpl.
  - done.
  - rewrite IH. destruct (decide (r ∈ l.*2)).
    + rewrite decide_True; [done|]. by right.
    + destruct (decide (r = r')) as [->|Hne].
      * rewrite decide_True by (by left). by rewrite lookup_delete_eq.
      * rewrite decide_False by (intros [?|?]%elem_of_cons; done). by rewrite lookup_delete_ne.
Qed.

(** Taking the watches [l] of the fork [a] out of both tables. *)
Lemma watch_inv_remove st a l jobs : watch_inv st →
  (∀ x, x ∈ l → x ∈ watch_set (job_entries st) a) →
  (∀ b x, x ∈ watch_set jobs b ↔ x ∈ watch_set (job_entries st) b ∧ ¬ (b = a ∧ x ∈ l)) →
  watch_inv (set_taken (set_jobs st jobs) (foldl (λ m '(_, watch_ref), delete watch_ref m) (taken_watch_refs st) l)).
Proof.
  intros [Hn Hw] Hl Hj. split; [done|]. intros r o t. cbn. rewrite foldl_delete_refs, Hj, <- Hw.
  case_decide as Hin.
  - split; [done|]. intros [Hr Hno]. apply list_elem_of_fmap in Hin as ([t' r'] & -> & Hin). cbn in *.
    apply Hl in Hin as Hin'. apply Hw in Hin'. rewrite Hin' in Hr. simplify_eq. by destruct Hno.
  - split; [|by intros []]. intros Hr. split; [done|]. intros [-> Hin']. destruct Hin.
    apply list_elem_of_fmap. by exists (t, r).
Qed.

Lemma on_call_inv e st c st' out o : watch_inv st → on_call e st c = Ret (st', out, o) → watch_inv st'.
Proof.
  intros Hi. destruct c as [r|b|s r|s r|f| |s r|s r]; cbn [on_call]; unfold on_link, on_unlink, on_watch, on_unwatch.
  - by intros [= <- <- <-].
  - by intros [= <- <- <-].
  - intros (j & Hj & E)%bind_Ret_inv. destruct (job_entries st !! s) as [j0|] eqn:Ej; [|done].
    injection Hj as ->. case_bool_decide; [by simplify_eq|].
    apply bind_Ret_inv in E as (out' & _ & [= <- <- <-]). by eapply watch_inv_update.
  - intros (j & Hj & E)%bind_Ret_inv. destruct (job_entries st !! s) as [j0|] eqn:Ej; [|done].
    injection Hj as ->. case_bool_decide; simplify_eq; [by eapply watch_inv_update|done].
  - intros (? & Ha%assert_Ret_inv%bool_decide_eq_true & [= <- <- <-])%bind_Ret_inv.
    apply watch_inv_jobs; [done|]. intros b. rewrite watch_set_insert. case_decide; [subst|done].
    unfold watch_set. by rewrite Ha.
  - by intros [= <- <- <-].
  - intros (j & Hj & E)%bind_Ret_inv. destruct (job_entries st !! s) as [j0|] eqn:Ej; [|done].
    injection Hj as ->. apply bind_Ret_inv in E as ([w next] & Ha & (out' & _ & [= <- <- <-])%bind_Ret_inv).
    destruct (alloc_watch_ref _ _ _) as [[w0 n0]|] eqn:Ea; [|done]. injection Ha as -> ->.
    destruct Hi as [Hn Hw]. apply alloc_some in Ea as (Hfr & _ & Hn'); [|done]. split; [done|].
    intros r' o' t. cbn. rewrite watch_set_insert.
    assert (Hno : ∀ o t, (t, w) ∉ watch_set (job_entries st) o).
    { intros o0 t0 Hin. apply Hw in Hin. congruence. }
    rewrite <- (watch_set_lookup _ _ _ Ej). destruct (decide (r' = w)) as [->|Hne]; simplify_map_eq.
    + case_decide; [subst|]; set_solver.
    + rewrite Hw. case_decide; [subst|done]. cbn. rewrite (watch_set_lookup _ _ _ Ej). set_solver.
  - destruct (taken_watch_refs st !! r) as [[o' t]|] eqn:Et; [|by intros [= <- <- <-]].
    intros (j & Hj & [= <- <- <-])%bind_Ret_inv. destruct (job_entries st !! o') as [j0|] eqn:Ej; [|done].
    injection Hj as ->.
    pose proof (watch_inv_remove st o' [(t, r)]
      (<[o' := set_watches j (watches j ∖ {[(t, r)]})]> (job_entries st)) Hi) as Hrem.
    cbn [foldl] in Hrem. apply Hrem; clear Hrem.
    + intros x ->%list_elem_of_singleton. by apply Hi.
    + intros b x. rewrite watch_set_insert. case_decide as Hb; [subst|].
      * cbn. rewrite (watch_set_lookup _ _ _ Ej). set_solver.
      * set_solver.
Qed.

Lemma unlink_entry_inv st s r : watch_inv st → watch_inv (unlink_entry st s r).1.
Proof.
  intros Hi. unfold unlink_entry. destruct (job_entries st !! r) as [j|] eqn:Ej; [|done]. cbn.
  by eapply watch_inv_update.
Qed.

Lemma fork_removed_inv st fork j : watch_inv st → job_entries st !! fork = Some j →
  watch_inv (set_taken (set_jobs st (delete fork (job_entries st)))
    (unwatch_targets (taken_watch_refs st) fork (watches j)).1).
Proof.
  intros Hi Hj. apply (watch_inv_remove st fork); [done| |].
  - intros x Hx%elem_of_btree. by rewrite (watch_set_lookup _ _ _ Hj).
  - intros b x. rewrite watch_set_delete. setoid_rewrite elem_of_btree. case_decide; [subst|set_solver].
    rewrite (watch_set_lookup _ _ _ Hj). set_solver.
Qed.

Lemma on_msg_inv e st m st' out o : watch_inv st → on_msg e st m = Ret (st', out, o) → watch_inv st'.
Proof.
  intros Hi. destruct m as [|[s r|s r|s r reason]|[s r w|s r w|s r reason]|fork]; cbn [on_msg]; unfold on_fork_done, on_link_exit, on_down.
  - by intros [= <- <- <-].
  - destruct (job_entries st !! r) eqn:E; intros [= <- <- <-]; [by eapply watch_inv_update|done].
  - intros [= <- <- <-]. by apply unlink_entry_inv.
  - pose proof (unlink_entry_inv st s r Hi) as Hu.
    destruct (trap_exit st), reason, (job_entries st !! r), (unlink_entry st s r) as [st1 b];
      intros; by simplify_eq/=.
  - destruct (job_entries st !! r) eqn:E; intros [= <- <- <-]; [by eapply watch_inv_update|done].
  - destruct (job_entries st !! r) eqn:E; intros [= <- <- <-]; [by eapply watch_inv_update|done].
  - destruct (job_entries st !! r) as [j|] eqn:E; [|by intros [= <- <- <-]].
    destruct (drain_range _ (watched_by j) s) as [by_ l0]. destruct (drain_range _ (watches j) s) as [ws l] eqn:Ed.
    apply drain_range_spec in Ed as (_ & H1 & H2); [|done]. intros [= <- <- <-].
    apply (watch_inv_remove st r); [done| |].
    + intros x Hx. rewrite (watch_set_lookup _ _ _ E). by apply H1 in Hx as [? _].
    + intros b x. rewrite watch_set_insert. case_decide; [subst|naive_solver].
      cbn. rewrite (watch_set_lookup _ _ _ E), H1, H2. naive_solver.
  - intros (j & Hj & E)%bind_Ret_inv. destruct (job_entries st !! fork) as [j0|] eqn:Ej; [|done].
    injection Hj as ->. pose proof (fork_removed_inv st fork j Hi Ej) as Hf.
    destruct (unwatch_targets _ _ _) as [taken out']. by simplify_eq/=.
Qed.

Lemma turn_inv e st s st' out f : watch_inv st → turn e st s = Ret (st', out, f) → watch_inv st'.
Proof.
  intros Hi. destruct s as [|[c|]|[m|]| |[]]; cbn [turn]; try (by intros [= <- <- <-]).
  - intros ([[st1 out1] o] & E & [= <- <- <-])%bind_Ret_inv. by eapply on_call_inv.
  - intros ([[st1 out1] o] & E & [= <- <- <-])%bind_Ret_inv. by eapply on_msg_inv.
Qed.

Lemma main_loop_inv st inputs st' out f : watch_inv st → main_loop st inputs = Ret (st', out, f) → watch_inv st'.
Proof.
  revert st out. induction inputs as [|[e s] inputs IH]; intros st out Hi; cbn [main_loop].
  { by intros [= <- <- <-]. }
  intros ([[st1 out1] f1] & E1 & E2)%bind_Ret_inv. pose proof (turn_inv _ _ _ _ _ _ Hi E1) as Hi1.
  destruct f1; [|by simplify_eq..]. apply bind_Ret_inv in E2 as ([[st2 out2] f2] & E2 & [= <- <- <-]).
  by eapply IH.
Qed.

Lemma start_inv e main link_to st out : start e main link_to = Ret (st, out) → watch_inv st.
Proof.
  intros (? & _ & [= <- _])%bind_Ret_inv. split; [unfold u64_ok; cbn [next_watch_ref]; lia|]. intros r o t. cbn.
  rewrite lookup_empty. unfold watch_set. destruct (decide (o = main)) as [->|Hne]; simplify_map_eq; set_solver.
Qed.

(** at every point of a container's run the table of watch references and the
    watches of its forks agree: a reference is in use for one watch of one living
    fork, and no reference outlives its watch or its fork. Hence cancelling a
    watch never meets a missing fork, and a reference is never handed out twice at
    the same time. *)
Theorem watches_consistent e main link_to inputs st0 out0 st out f :
  start e main link_to = Ret (st0, out0) → main_loop st0 inputs = Ret (st, out, f) →
  (∀ r o t, taken_watch_refs st !! r = Some (mkTaken o t) ↔
     ∃ j, job_entries st !! o = Some j ∧ (t, r) ∈ watches j) ∧
  (∀ e' sender r, ∃ res, on_call e' st (CallUnwatch sender r) = Ret res).
Proof.
  intros Hs Hl. apply start_inv in Hs. pose proof (main_loop_inv _ _ _ _ _ Hs Hl) as [Hn Hw].
  assert (Hw' : ∀ r o t, taken_watch_refs st !! r = Some (mkTaken o t) ↔
     ∃ j, job_entries st !! o = Some j ∧ (t, r) ∈ watches j).
  { intros r o t. rewrite Hw. unfold watch_set. destruct (job_entries st !! o); set_solver. }
  split; [done|]. intros e' sender r. cbn [on_call]; unfold on_link, on_unlink, on_watch, on_unwatch.
  destruct (taken_watch_refs st !! r) as [[o t]|] eqn:E; [|by eexists].
  apply Hw' in E as (j & -> & _). by eexists.
Qed.

(** ** Exit signals *)

(** Whether [sender] is linked to the fork [receiver]. *)
Definition linked (st : St) (sender receiver : Address) : Prop :=
  match job_entries st !! receiver with Some j => sender ∈ linked_to j | None => False end.
Definition has_fork (st : St) (a : Address) : Prop := is_Some (job_entries st !! a).

#[export] Instance linked_dec st s r : Decision (linked st s r).
Proof. unfold linked. destruct (job_entries st !! r); apply _. Defined.
#[export] Instance has_fork_dec st a : Decision (has_fork st a).
Proof. unfold has_fork. apply _. Defined.

(** What an exit signal to [receiver] leads to: the actor ends, the actor is told
    by a message, or nothing. *)
Inductive Reaction := Ends (err : ExitError) | Told (normal_exit : bool) | Ignored.

Definition reaction (trap is_linked is_fork : bool) (sender : Address) (reason : ExitReason) : Reaction :=
  match trap, reason with
  | true, Terminate => if is_fork then Told false else Ignored
  | true, _ => if is_linked then Told (is_normal reason) else Ignored
  | false, Normal => Ignored
  | false, LinkDown => if is_linked then Ends (Collateral sender) else Ignored
  | false, Terminate => if is_fork then Ends (Terminated sender) else Ignored
  end.

(** An entry without its link to [sender], all else as it was *)
Definition forget_link (sender : Address) (j : JobEntry) : JobEntry := mkJob (linked_to j ∖ {[sender]}) (watches j) (watched_by j).

(** The state after an exit signal: the link between the two is gone unless it was a request to terminate, and nothing else differs. *)
Definition after_signal (st : St) (sender receiver : Address) (reason : ExitReason) : St :=
  match reason with
  | Terminate => st
  | _ => mkSt (alter (forget_link sender) receiver (job_entries st)) (taken_watch_refs st) (next_watch_ref st) (trap_exit st)
  end.

Lemma unlink_entry_spec st s r reason : reason ≠ Terminate → unlink_entry st s r = (after_signal st s r reason, bool_decide (linked st s r)).
Proof.
  intros Hr. assert (after_signal st s r reason = mkSt (alter (forget_link s) r (job_entries st)) (taken_watch_refs st) (next_watch_ref st) (trap_exit st)) as -> by (by destruct reason).
  assert (Hl : linked st s r ↔ ∃ j, job_entries st !! r = Some j ∧ s ∈ linked_to j) by (unfold linked; destruct (job_entries st !! r); naive_solver).
  unfold unlink_entry. destruct (job_entries st !! r) as [j|] eqn:E; f_equal.
  - unfold set_jobs. f_equal. apply map_eq. intros a. destruct (decide (r = a)) as [->|Hne]; [by rewrite lookup_insert_eq, lookup_alter_eq, E|].
    by rewrite lookup_insert_ne, lookup_alter_ne.
  - apply bool_decide_ext. rewrite Hl. naive_solver.
  - destruct st. cbn in *. f_equal. apply map_eq. intros a. destruct (decide (r = a)) as [->|Hne]; [by rewrite lookup_alter_eq, E|by rewrite lookup_alter_ne].
  - rewrite bool_decide_false; [done|]. rewrite Hl. naive_solver.
Qed.

Lemma after_signal_unlinked st s r reason : ¬ linked st s r → after_signal st s r reason = st.
Proof.
  intros Hl. assert (alter (forget_link s) r (job_entries st) = job_entries st) as E; [|by destruct reason; cbn; rewrite ?E; destruct st].
  apply map_eq. intros a. destruct (decide (r = a)) as [->|Hne]; [|by rewrite lookup_alter_ne]. rewrite lookup_alter_eq. unfold linked in Hl.
  destruct (job_entries st !! a) as [j|]; [|done]. cbn. f_equal. destruct j as [l w b]. unfold forget_link. cbn in *. f_equal. set_solver.
Qed.

(** C19: an exit signal acts as its table says: without trapping, a linked peer's
    abnormal end takes the actor down with it, a normal end does not, and a
    termination request to a fork it has ends it; with trapping, the actor, whose mailbox is open, is told instead, of the
    ends of linked peers and of every termination request to a fork it has. After a link-down or normal signal
    the link from the receiver to the sender is gone, and that is all that changes: other links, watches and
    forks are as before, and a termination request changes nothing. Signals about the end of a peer that is not
    linked do nothing at all. *)
Theorem exit_signal_table e st sender receiver reason : mailbox_open e = true →
  ∃ out o, on_msg e st (Link (LinkExit sender receiver reason)) = Ret (after_signal st sender receiver reason, out, o) ∧
  match reaction (trap_exit st) (bool_decide (linked st sender receiver))
          (bool_decide (has_fork st receiver)) sender reason with
  | Ends err => out = [] ∧ o = Some (Err err)
  | Told n => out = [Deliver receiver (MExited sender n)] ∧ o = None
  | Ignored => out = [] ∧ o = None
  end ∧
  (reason ≠ Terminate → ¬ linked st sender receiver → after_signal st sender receiver reason = st ∧ out = [] ∧ o = None).
Proof.
  intros Hm. cbn [on_msg]; unfold on_link_exit. rewrite Hm.
  assert (bool_decide (has_fork st receiver) = if job_entries st !! receiver then true else false) as ->.
  { unfold has_fork. case_bool_decide as Hs; destruct (job_entries st !! receiver); [done|by destruct Hs|destruct Hs; eauto|done]. }
  assert (Hn : job_entries st !! receiver = None → ¬ linked st sender receiver) by (unfold linked; intros ->; tauto).
  destruct (trap_exit st); [destruct (job_entries st !! receiver) as [j|]|].
  - destruct reason; [rewrite (unlink_entry_spec _ _ _ Normal) by done|cbn|rewrite (unlink_entry_spec _ _ _ LinkDown) by done];
      eexists _, _; (split; [done|]); (split; [by repeat case_bool_decide|]); try done;
      intros _ Hl; rewrite (bool_decide_false (linked _ _ _)) by done; by rewrite after_signal_unlinked.
  - rewrite after_signal_unlinked, (bool_decide_false (linked _ _ _)) by auto. eexists _, _. split; [done|]. split; [by destruct reason|done].
  - destruct reason; cbn [reaction]; [rewrite (unlink_entry_spec _ _ _ Normal) by done| |rewrite (unlink_entry_spec _ _ _ LinkDown) by done];
      eexists _, _; (split; [done|]); (split; [destruct (job_entries st !! receiver); by repeat case_bool_decide|]); try done; intros _ Hl; rewrite after_signal_unlinked by done;
      rewrite ?(bool_decide_false (linked _ _ _)) by done; done.
Qed.

(** ** The end of a container *)

(** What the peers of the fork [a] with the entry [j] are sent at its end: these messages, each once, and nothing else. *)
Definition told_of_end (normal_exit : bool) (a : Address) (j : JobEntry) (o : Out) : Prop :=
  (∃ p, p ∈ linked_to j ∧ o = SysSend p (sys_link_exit_message normal_exit a p)) ∨
  (∃ p, (∃ r, (p, r) ∈ watched_by j) ∧ o = SysSend p (sys_watch_down_message normal_exit a p)) ∨
  (∃ t r, (t, r) ∈ watches j ∧ o = SysSend t (SWatch (Unwatch a t r))).
Record notified (normal_exit : bool) (a : Address) (j : JobEntry) (out : list Out) : Prop := {
  nt_once : NoDup out;
  nt_exactly o : o ∈ out ↔ told_of_end normal_exit a j o;
}.

(** What the end of a fork sends *)
Definition fork_end (normal_exit : bool) (a : Address) (j : JobEntry) : list Out :=
  (unwatch_targets ∅ a (watches j)).2 ++ notify_peers normal_exit a j.

Lemma fork_end_notifies n a j : notified n a j (fork_end n a j).
Proof.
  unfold fork_end, unwatch_targets, notify_peers, told_of_end. cbn [snd]. split.
  - apply NoDup_app. split_and!; [|intros x|apply NoDup_app; split_and!].
    + apply NoDup_fmap_2; [|apply NoDup_btree]. by intros [t r] [t' r'] ?; simplify_eq/=.
    + intros ([t r] & -> & _)%list_elem_of_fmap [(p & ? & _)%list_elem_of_fmap|(p & ? & _)%list_elem_of_fmap]%elem_of_app; done.
    + apply NoDup_fmap_2; [|apply NoDup_elements]. by intros x y ?; simplify_eq/=.
    + intros x (p & -> & _)%list_elem_of_fmap (q & Hq & _)%list_elem_of_fmap. done.
    + apply NoDup_fmap_2; [|apply dedup_watchers]. by intros x y ?; simplify_eq/=.
  - intros o. rewrite !elem_of_app, !list_elem_of_fmap. split.
    + intros [([t r] & -> & Ht%elem_of_btree)|[(p & -> & Hp%elem_of_elements)|(p & -> & Hp%dedup_watchers)]]; [right; right|left|right; left]; eauto.
    + intros [(p & Hp & ->)|[(p & Hp & ->)|(t & r & Ht & ->)]].
      * right; left. exists p. by rewrite elem_of_elements.
      * right; right. exists p. split; [done|]. by apply dedup_watchers.
      * left. exists (t, r). by rewrite elem_of_btree.
Qed.

(** The answer to a request that is still queued when its addressee is gone *)
Definition answer_to (normal_exit : bool) (m : SysMsg) : list Out :=
  match m with
  | Link (Connect sender receiver) => [SysSend sender (Link (LinkExit receiver sender (if normal_exit then Normal else LinkDown)))]
  | SWatch (Watch sender receiver _) => [SysSend sender (SWatch (Down receiver sender (if normal_exit then Normal else LinkDown)))]
  | _ => []
  end.

(** The queue is emptied: a fork that has reported its end is taken out, and its peers are told. *)
Lemma drain_msg_spec n st m st' out : drain_msg n st m = (st', out) →
  (∃ a j, m = ForkDone a ∧ job_entries st !! a = Some j ∧ job_entries st' = delete a (job_entries st) ∧ out = fork_end n a j) ∨
  ((∀ a, m = ForkDone a → job_entries st !! a = None) ∧ st' = st ∧ out = answer_to n m).
Proof.
  destruct m as [|[]|[]|fork]; cbn [drain_msg]; try (intros [= <- <-]; right; split_and!; done).
  destruct (job_entries st !! fork) as [j|] eqn:E; [|intros [= <- <-]; right; split_and!; [by intros a [= <-]|done|done]].
  intros [= <- <-]. left. by exists fork, j.
Qed.

Definition end_of (n : bool) (jobs : gmap Address JobEntry) (a : Address) : list Out := from_option (fork_end n a) [] (jobs !! a).

Lemma drain_msgs_spec n st ms st' out : drain_msgs n st ms = (st', out) → ∃ done : list Address, NoDup done ∧
  (∀ a, a ∈ done ↔ ForkDone a ∈ ms ∧ is_Some (job_entries st !! a)) ∧
  (∀ a, job_entries st' !! a = if decide (a ∈ done) then None else job_entries st !! a) ∧
  out ≡ₚ (done ≫= end_of n (job_entries st)) ++ (ms ≫= answer_to n).
Proof.
  revert st st' out. induction ms as [|m ms IH]; intros st st' out; cbn [drain_msgs].
  { intros [= <- <-]. exists []. split_and!; [constructor|set_solver|by intros a; rewrite decide_False by apply not_elem_of_nil|done]. }
  destruct (drain_msg n st m) as [st1 out1] eqn:E1. destruct (drain_msgs n st1 ms) as [st2 out2] eqn:E2.
  intros [= <- <-]. apply IH in E2 as (dn & Hnd & Hin & Hj & Hp). rewrite bind_cons.
  apply drain_msg_spec in E1 as [(a & j & -> & Ha & Hj1 & ->)|(Hm & -> & ->)].
  - assert (a ∉ dn) as Hna by (rewrite Hin, Hj1, lookup_delete_eq; intros [_ [? ?]]; done).
    exists (a :: dn). split_and!.
    + by constructor.
    + intros b. rewrite !elem_of_cons, Hin, Hj1. destruct (decide (b = a)) as [->|Hne].
      * rewrite Ha. split; [intros _; split; [by left|by eexists]|by left].
      * rewrite lookup_delete_ne by done. split; [intros [?|[? ?]]; [done|auto]|]. intros [[[= ?]|?] ?]; [done|auto].
    + intros b. rewrite Hj, Hj1. destruct (decide (b = a)) as [->|Hne].
      * rewrite decide_False, (decide_True (P := a ∈ a :: dn)), lookup_delete_eq by (done || by left). done.
      * rewrite lookup_delete_ne by done. destruct (decide (b ∈ dn)); [by rewrite decide_True by (by right)|].
        rewrite decide_False; [done|]. by intros [?|?]%elem_of_cons.
    + rewrite Hp, bind_cons. unfold end_of at 2. rewrite Ha. cbn [from_option answer_to app]. rewrite app_assoc.
      assert (dn ≫= end_of n (job_entries st1) = dn ≫= end_of n (job_entries st)) as ->; [|done].
      apply Forall_bind_ext, Forall_forall. intros b Hb. unfold end_of. rewrite Hj1, lookup_delete_ne; [done|]. intros ->. done.
  - exists dn. split_and!; [done| |done|].
    + intros b. rewrite Hin, elem_of_cons. split; [tauto|]. intros [[<-|?] Hs]; [|done]. rewrite (Hm b eq_refl) in Hs. by destruct Hs.
    + rewrite Hp, (app_assoc (answer_to n m)), (Permutation_app_comm (answer_to n m)), <- app_assoc. done.
Qed.

(** C17: when an actor ends, nobody is left waiting and nobody is told twice. Provided
    every other fork has reported its end and the main one has not, what is sent is, up to order: for each fork
    of the actor, an exit signal to each peer linked to it, a down message to each of
    its watchers (one, however many watches it has), and a cancellation for each watch
    it has, each of these once and nothing else; and an answer to each link or watch
    request still in the queue; all with the actor's exit reason. No job entry remains. *)
Theorem epilogue_notifies_all main r st pending :
  is_Some (job_entries st !! main) → ForkDone main ∉ pending →
  (∀ a, a ≠ main → is_Some (job_entries st !! a) → ForkDone a ∈ pending) →
  ∃ st' out ends, epilogue main r true st pending = Ret (st', out) ∧ job_entries st' = ∅ ∧
    (∀ a j, job_entries st !! a = Some j → notified (is_ok r) a j (ends a)) ∧
    out ≡ₚ (elements (dom (job_entries st)) ≫= ends) ++ (pending ≫= answer_to (is_ok r)).
Proof.
  intros [jm Hm] Hnm Hall. unfold epilogue. cbn [assert_]. rewrite bind_Ret. cbv zeta.
  destruct (drain_msgs (is_ok r) st pending) as [st1 out1] eqn:E1.
  apply drain_msgs_spec in E1 as (dn & Hnd & Hin & Hj & Hp).
  assert (main ∉ dn) as Hmd by (rewrite Hin; tauto).
  assert (Hm1 : job_entries st1 !! main = Some jm) by (by rewrite Hj, decide_False).
  rewrite Hm1. cbn [expect]. rewrite bind_Ret. eexists _, _, (end_of (is_ok r) (job_entries st)). split; [reflexivity|].
  assert (∀ a, a ∈ elements (dom (job_entries st)) ↔ a ∈ main :: dn) as Hdom.
  { intros a. rewrite elem_of_elements, elem_of_dom, elem_of_cons, Hin. destruct (decide (a = main)) as [->|Hne]; [rewrite Hm|]; naive_solver. }
  split_and!.
  - apply map_empty. intros a. cbn. destruct (decide (main = a)) as [->|Hne]; [by rewrite lookup_delete_eq|].
    rewrite lookup_delete_ne, Hj by done. case_decide as Hd; [done|].
    destruct (job_entries st !! a) eqn:Ea; [|done]. destruct Hd. apply Hin. rewrite Ea. split; [|by eexists]. apply Hall; [done|]. by rewrite Ea.
  - intros a j Ha. unfold end_of. rewrite Ha. apply fork_end_notifies.
  - assert (elements (dom (job_entries st)) ≡ₚ main :: dn) as ->.
    { apply NoDup_Permutation; [apply NoDup_elements|by constructor|done]. }
    rewrite bind_cons. unfold end_of at 1. rewrite Hm. cbn [from_option].
    match goal with |- out1 ++ ?l ≡ₚ _ => change l with (fork_end (is_ok r) main jm) end.
    rewrite Hp. rewrite (Permutation_app_comm _ (fork_end _ _ _)). by rewrite app_assoc.
Qed.

Lemma down_reports e st sender receiver reason j :
  mailbox_open e = true → job_entries st !! receiver = Some j →
  ∃ st' out j', on_msg e st (SWatch (Down sender receiver reason)) = Ret (st', out, None) ∧
    job_entries st' !! receiver = Some j' ∧
    (∀ x, x ∈ watches j' ↔ x ∈ watches j ∧ x.1 ≠ sender) ∧ NoDup out ∧
    (∀ o, o ∈ out ↔ ∃ r, (sender, r) ∈ watches j ∧ o = Deliver receiver (MDown sender r (is_normal reason))).
Proof.
  intros Hm Hj. cbn [on_msg]; unfold on_fork_done, on_link_exit, on_down. rewrite Hj, Hm.
  destruct (drain_range _ (watched_by j) sender) as [by_ l0].
  destruct (drain_range _ (watches j) sender) as [ws l] eqn:Ed.
  apply drain_range_spec in Ed as (H0 & H1 & H2); [|done]. eexists _, _, _. split; [done|].
  cbn. rewrite lookup_insert_eq. split_and!; [done|done| |].
  - apply NoDup_fmap_2; [|done]. intros [p r] [p' r'] [= -> ->]. done.
  - intros o. rewrite list_elem_of_fmap. split.
    + intros ([p r] & -> & [Hin Hp]%H1). cbn in Hp. subst. eauto.
    + intros (r & Hin & ->). exists (sender, r). split; [done|]. by apply H1.
Qed.

(** a watcher learns of the end of the actor it watches: a down message for
    [receiver] removes all its watches of that peer, and for each of them, and no
    other, the actor gets one [Down], with its reference. *)
Theorem down_reports_watches e st sender receiver reason j :
  mailbox_open e = true → job_entries st !! receiver = Some j →
  ∃ st' out j', on_msg e st (SWatch (Down sender receiver reason)) = Ret (st', out, None) ∧
    job_entries st' !! receiver = Some j' ∧
    (∀ x, x ∈ watches j' ↔ x ∈ watches j ∧ x.1 ≠ sender) ∧ NoDup out ∧
    (∀ o, o ∈ out ↔ ∃ r, (sender, r) ∈ watches j ∧ o = Deliver receiver (MDown sender r (is_normal reason))).
Proof. apply down_reports. Qed.

(** ** Runs *)
Definition env_ok : Env := mkEnv (λ _, true) true.

(** An actor at address 10 with one fork, 11; peer 20 is linked to the fork and
    watches it twice; the main fork watches 30. *)
Definition busy : St :=
  mkSt (<[10 := mkJob ∅ {[(30, 0)]} ∅]> {[11 := mkJob {[20]} ∅ {[(20, 5); (20, 6)]}]})
    {[0 := mkTaken 10 30]} 1 true.

Lemma watch_ref_fresh_witness : ∃ r next',
  alloc_watch_ref (S (size (taken_watch_refs busy))) (taken_watch_refs busy) 0 = Some (r, next') ∧
  taken_watch_refs busy !! r = None ∧ u64_ok r ∧ u64_ok next'.
Proof.
  apply (watch_ref_fresh (taken_watch_refs busy) 0); [split; [lia|reflexivity]|reflexivity].
Defined.

Lemma watches_consistent_witness : ∃ res,
  on_call env_ok (mkSt {[10 := mkJob ∅ {[(30, 0)]} ∅]} {[0 := mkTaken 10 30]} 1 false) (CallUnwatch 10 0) = Ret res.
Proof.
  refine (proj2 (watches_consistent env_ok 10 [] [(env_ok, SelCall (Some (CallWatch 10 30)))]
    (mkSt {[10 := job_empty]} ∅ 0 false) [] _
    [SysSend 30 (SWatch (Watch 10 30 0)); ReplyWatch 0] Go _ _) env_ok 10 0); vm_compute; reflexivity.
Defined.

Lemma exit_signal_table_witness : ∃ out o,
  on_msg env_ok busy (Link (LinkExit 20 11 LinkDown)) = Ret (after_signal busy 20 11 LinkDown, out, o) ∧
  (out = [Deliver 11 (MExited 20 false)] ∧ o = None) ∧
  job_entries (after_signal busy 20 11 LinkDown) !! 11 = Some (mkJob ∅ ∅ {[(20, 5); (20, 6)]}).
Proof.
  destruct (exit_signal_table env_ok busy 20 11 LinkDown eq_refl) as (out & o & E & H & _).
  exists out, o. split; [exact E|]. split; [exact H|reflexivity].
Defined.

Lemma epilogue_notifies_all_witness : ∃ st' out ends,
  epilogue 10 (Err Killed) true busy [SWatch (Watch 40 10 9); ForkDone 11] = Ret (st', out) ∧ job_entries st' = ∅ ∧
  notified false 11 (mkJob {[20]} ∅ {[(20, 5); (20, 6)]}) (ends 11) ∧
  out ≡ₚ (elements (dom (job_entries busy)) ≫= ends) ++ [SysSend 40 (SWatch (Down 10 40 LinkDown))].
Proof.
  destruct (epilogue_notifies_all 10 (Err Killed) busy [SWatch (Watch 40 10 9); ForkDone 11]) as (st' & out & ends & E & Hj & Hn & Hp).
  - vm_compute. eauto.
  - intros [?|[?|?%elem_of_nil]%elem_of_cons]%elem_of_cons; done.
  - intros a Hne [j Hj]. unfold busy in Hj. cbn in Hj.
    apply lookup_insert_Some in Hj as [[<- _]|[_ Hj]]; [done|].
    apply lookup_singleton_Some in Hj as [<- _]. right. left.
  - exists st', out, ends. split; [exact E|]. split; [exact Hj|]. split; [by apply Hn|exact Hp].
Defined.

Lemma down_reports_watches_witness : ∃ st' out j',
  on_msg env_ok busy (SWatch (Down 30 10 Normal)) = Ret (st', out, None) ∧
  job_entries st' !! 10 = Some j' ∧
  (∀ x, x ∈ watches j' ↔ x ∈ watches (mkJob ∅ {[(30, 0)]} ∅) ∧ x.1 ≠ 30) ∧ NoDup out ∧
  (∀ o, o ∈ out ↔ ∃ r, (30, r) ∈ watches (mkJob ∅ {[(30, 0)]} ∅) ∧ o = Deliver 10 (MDown 30 r true)).
Proof.
  apply (down_reports_watches env_ok busy 30 10 Normal (mkJob ∅ {[(30, 0)]} ∅)); reflexivity.
Defined.
