(* ===== verification/UniformSup.v ===== *)
(** * Uniform supervisors
    (components/mm1-sup/src/uniform.rs, uniform/sup_actor.rs)

    A supervisor of any number of children of one kind, started and stopped on
    request. The table of children is a slot map (see Collections.v). *)

From S2P Require Import Prelude Collections Restart Decider MixedSup.

Open Scope Z_scope.

(** ** Child types (uniform.rs, module child_type) *)
Section Uniform.
Context {A R : Type}.

(** The factory the supervisor was given. *)
Variable produce_with : A → outcome R.

Inductive UniformChildType :=
| UTemporary
| URestarting (restart_on_normal_exit : bool) (restart_intensity : RestartIntensity).

(** [Permanent] is [Restarting<true>], [Transient] is [Restarting<false>]. *)
Definition UPermanent := URestarting true.
Definition UTransient := URestarting false.

Inductive Data :=
| DTemporary (args : option A)
| DRestarting (args : A) (restarts : RestartStats).

Inductive UError := ArgsGone | IntensityReached | ForkFailed | StopFailed | UnexpectedStatus | RecvFailed.

Definition new_data (c : UniformChildType) (args : A) : outcome Data :=
  match c with
  | UTemporary => Ret (DTemporary (Some args))
  | URestarting _ ri => stats ← new_stats ri; Ret (DRestarting args stats)
  end.

Definition make_runnable (d : Data) : outcome (Data * result R UError) :=
  match d with
  | DTemporary None => Ret (d, Err ArgsGone)
  | DTemporary (Some args) => r ← produce_with args; Ret (DTemporary None, Ok r)
  | DRestarting args _ => r ← produce_with args; Ret (d, Ok r)
  end.

Definition should_restart (c : UniformChildType) (d : Data) (_normal_exit : bool) (now : Instant) :
  Data * result bool UError :=
  match c, d with
  | URestarting restart_on_normal_exit ri, DRestarting args restarts =>
      let '(restarts, r) := report_exit ri restarts now in
      (DRestarting args restarts, match r with Ok _ => Ok restart_on_normal_exit | Err _ => Err IntensityReached end)
  | _, _ => (d, Ok false)
  end.

(** ** The supervisor (uniform/sup_actor.rs) *)
Context {SM : Type → Type} `{SlotMap SM}.

Inductive ChildStatus := Starting | Started (address : Z) | Stopping (address : Z).
Record ChildEntry := mkEntry { status : ChildStatus; data : Data }.
Record Children := mkChildren { primary : SM ChildEntry; by_address : gmap Z Z }.

Definition uspec := ChildSpec unit UniformChildType.

Inductive StopErrorKind := NotFound | InternalError.

Inductive Eff :=
| USetTrapExit (enable : bool)
| UInitDone
| ULink (address : Z)
| UForkStart (key : Z) (init : InitType) (announce_parent : bool) (runnable : R) (reply_to : option Z)
| UForkStop (stop_timeout : Duration) (address : Z) (reply_to : Z)
| UReplyStop (reply_to : Z) (e : StopErrorKind)
| UShutdown (address : Z) (stop_timeout : Duration)
| UQuitErr (peer : Z).

Inductive Flow := Continue | Return (e : UError) | Gone.

(** What the surroundings contribute to a handler. *)
Record Env := mkEnv { now : Instant; fork_ok : bool; shutdown_ok : Z → bool }.

Abbreviation Step := (outcome (Children * list Eff * Flow)).

Definition handle_start_request (e : Env) (spec : uspec) (ch : Children) (reply_to : Z) (args : A) : Step :=
  d ← new_data (child_type spec) args;
  '(d, r) ← make_runnable d;
  match r with
  | Err err => Ret (ch, [], Return err)
  | Ok runnable =>
      let '(primary, key) := sm_insert (primary ch) (mkEntry Starting d) in
      let ch := mkChildren primary (by_address ch) in
      if fork_ok e
      then Ret (ch, [UForkStart key (init_type spec) (announce_parent spec) runnable (Some reply_to)], Continue)
      else Ret (ch, [], Return ForkFailed)
  end.

Definition handle_child_started (ch : Children) (key address : Z) : Step :=
  entry ← expect (sm_get (primary ch) key);
  match status entry with
  | Starting =>
      assert_ (bool_decide (by_address ch !! address = None));;
      Ret (mkChildren (sm_set (primary ch) key (mkEntry (Started address) (data entry)))
             (<[address := key]> (by_address ch)), [ULink address], Continue)
  | _ => Ret (ch, [], Return UnexpectedStatus)
  end.

Definition handle_child_start_failed (ch : Children) (key : Z) : Children :=
  match sm_get (primary ch) key with
  | Some (mkEntry Starting _) => mkChildren (sm_remove (primary ch) key) (by_address ch)
  | _ => ch
  end.

Definition handle_stop_request (e : Env) (spec : uspec) (ch : Children) (reply_to address : Z) : Step :=
  match by_address ch !! address with
  | None => Ret (ch, [UReplyStop reply_to NotFound], Continue)
  | Some key =>
      entry ← expect (sm_get (primary ch) key);
      match status entry with
      | Starting => Panic
      | Stopping a => assert_ (a =? address);; Ret (ch, [UReplyStop reply_to NotFound], Continue)
      | Started a =>
          assert_ (a =? address);;
          let ch := mkChildren (sm_set (primary ch) key (mkEntry (Stopping address) (data entry))) (by_address ch) in
          if fork_ok e then Ret (ch, [UForkStop (stop_timeout spec) address reply_to], Continue)
          else Ret (ch, [], Return ForkFailed)
      end
  end.

(** The loop of [reap_started_children] over the drained table. *)
Fixpoint reap_loop (e : Env) (spec : uspec) (l : list (Z * ChildEntry)) (by_address : gmap Z Z)
  (first_error : option UError) : outcome (gmap Z Z * list Eff * option UError) :=
  match l with
  | [] => Ret (by_address, [], first_error)
  | (child_key, entry) :: l =>
      match status entry with
      | Started child_address =>
          assert_ (bool_decide (by_address !! child_address = Some child_key));;
          let first_error :=
            if shutdown_ok e child_address then first_error
            else match first_error with None => Some StopFailed | _ => first_error end in
          '(m, es, err) ← reap_loop e spec l (delete child_address by_address) first_error;
          Ret (m, UShutdown child_address (stop_timeout spec) :: es, err)
      | _ => reap_loop e spec l by_address first_error
      end
  end.

Definition reap_started_children (e : Env) (spec : uspec) (ch : Children) :
  outcome (Children * list Eff * result unit UError) :=
  '(m, es, err) ← reap_loop e spec (sm_drain (primary ch)) (by_address ch) None;
  Ret (mkChildren sm_empty m, es, match err with Some x => Err x | None => Ok tt end).

Definition handle_sys_exited (e : Env) (spec : uspec) (ch : Children) (peer : Z) (normal_exit : bool) : Step :=
  match by_address ch !! peer with
  | None =>
      '(ch, es, r) ← reap_started_children e spec ch;
      match r with
      | Err err => Ret (ch, es, Return err)
      | Ok _ => Ret (ch, es ++ [UQuitErr peer], Gone)
      end
  | Some key =>
      let ch := mkChildren (primary ch) (delete peer (by_address ch)) in
      entry ← expect (sm_get (primary ch) key);
      match status entry with
      | Starting => Panic
      | Stopping a =>
          assert_ (a =? peer);;
          Ret (mkChildren (sm_remove (primary ch) key) (by_address ch), [], Continue)
      | Started a =>
          let '(d, r) := should_restart (child_type spec) (data entry) normal_exit (now e) in
          let put s d := mkChildren (sm_set (primary ch) key (mkEntry s d)) (by_address ch) in
          match r with
          | Err reason =>
              assert_ (a =? peer);;
              let ch := mkChildren (sm_remove (primary ch) key) (by_address ch) in
              '(ch, es, _) ← reap_started_children e spec ch;
              Ret (ch, es, Return reason)
          | Ok true =>
              assert_ (a =? peer);;
              '(d, r) ← make_runnable d;
              match r with
              | Err err => Ret (put (status entry) d, [], Return err)
              | Ok runnable =>
                  if fork_ok e
                  then Ret (put Starting d,
                         [UForkStart key (init_type spec) (announce_parent spec) runnable None], Continue)
                  else Ret (put Starting d, [], Return ForkFailed)
              end
          | Ok false => Ret (mkChildren (sm_remove (primary ch) key) (by_address ch), [], Continue)
          end
      end
  end.

(** The messages of the loop, and one turn of it. *)
Inductive UMsg :=
| UStartRequest (reply_to : Z) (args : A)
| UChildStarted (key address : Z)
| UChildStartFailed (key : Z)
| UStopRequest (reply_to child : Z)
| UExited (peer : Z) (normal_exit : bool)
| UUnexpected.

Definition uniform_turn (e : Env) (spec : uspec) (ch : Children) (m : option UMsg) : Step :=
  match m with
  | None => Ret (ch, [], Return RecvFailed)
  | Some (UStartRequest reply_to args) => handle_start_request e spec ch reply_to args
  | Some (UChildStarted key address) => handle_child_started ch key address
  | Some (UChildStartFailed key) => Ret (handle_child_start_failed ch key, [], Continue)
  | Some (UStopRequest reply_to child) => handle_stop_request e spec ch reply_to child
  | Some (UExited peer normal_exit) => handle_sys_exited e spec ch peer normal_exit
  | Some UUnexpected => Ret (ch, [], Continue)
  end.

(** ** The forks that start and stop children *)

(** [notify_sup]: on the priority lane; a failure is only logged. *)
Definition notify_sup (sup : Z) (report : Report (K := Z)) : list (ForkEff (K := Z) (R := R)) :=
  [FSend sup true report].

(** [do_start_child]; [started] is the runtime's answer, which is also what the
    requester of the start is told. *)
Definition do_start_child (sup_address child_key : Z) (init : InitType) (announce : bool) (runnable : R)
  (started : option Z) : list (ForkEff (K := Z) (R := R)) * option Z :=
  (match init with
   | NoAck => FSpawn runnable true
   | WithAck start_timeout => FStart runnable true start_timeout
   end ::
   match started with
   | None => notify_sup sup_address (RepStartFailed child_key)
   | Some child =>
       (if announce then [FSetParent child sup_address] else []) ++
       notify_sup sup_address (RepStarted child_key child)
   end, started).

(** [do_stop_child]; [ok] tells whether the runtime could stop the child. *)
Definition do_stop_child (stop_timeout : Duration) (child_address : Z) (ok : bool) :
  list (ForkEff (K := Z) (R := R)) * result unit StopErrorKind :=
  ([FShutdown child_address stop_timeout], if ok then Ok tt else Err InternalError).

Definition children_empty : Children := mkChildren sm_empty ∅.

(** [uniform_sup] *)
Fixpoint uniform_loop (spec : uspec) (ch : Children) (inputs : list (Env * option UMsg)) : Step :=
  match inputs with
  | [] => Ret (ch, [], Continue)
  | (e, m) :: inputs =>
      '(ch, es, f) ← uniform_turn e spec ch m;
      match f with
      | Continue => '(ch, es', f) ← uniform_loop spec ch inputs; Ret (ch, es ++ es', f)
      | _ => Ret (ch, es, f)
      end
  end.

Definition uniform_sup (spec : uspec) (inputs : list (Env * option UMsg)) : Step :=
  '(ch, es, f) ← uniform_loop spec children_empty inputs;
  Ret (ch, [USetTrapExit true; UInitDone] ++ es, f).

(** ** The invariant: the two tables agree *)
Definition addr_of (s : ChildStatus) : option Z :=
  match s with Starting => None | Started a | Stopping a => Some a end.

Definition inv (ch : Children) : Prop :=
  ∀ a k, by_address ch !! a = Some k ↔ ∃ e, sm_get (primary ch) k = Some e ∧ addr_of (status e) = Some a.

Lemma inv_empty : inv children_empty.
Proof. intros a k. cbn. rewrite lookup_empty, sm_get_empty. naive_solver. Qed.

Lemma inv_addr ch k k' e e' a : inv ch → sm_get (primary ch) k = Some e → sm_get (primary ch) k' = Some e' →
  addr_of (status e) = Some a → addr_of (status e') = Some a → k = k'.
Proof.
  intros Hi H1 H2 Ha Ha'.
  assert (by_address ch !! a = Some k) by (apply Hi; eauto).
  assert (by_address ch !! a = Some k') by (apply Hi; eauto). congruence.
Qed.

(** A child that changes in place, keeping its address. *)
Lemma inv_set ch k e e' : inv ch → sm_get (primary ch) k = Some e → addr_of (status e') = addr_of (status e) →
  inv (mkChildren (sm_set (primary ch) k e') (by_address ch)).
Proof.
  intros Hi Hk Ha a k'. cbn. rewrite (Hi a k'), sm_get_set by eauto. case_decide; [subst|done].
  rewrite Hk. split; intros (x & [= <-] & Hx); eexists; (split; [done|congruence]).
Qed.

(** A child that leaves the table of addresses. *)
Lemma inv_gone ch k e a m : inv ch → sm_get (primary ch) k = Some e → addr_of (status e) = Some a →
  (∀ k', k' ≠ k → sm_get m k' = sm_get (primary ch) k') →
  (∀ e', sm_get m k = Some e' → addr_of (status e') = None) →
  inv (mkChildren m (delete a (by_address ch))).
Proof.
  intros Hi Hk Ha Hm Hn b k'. cbn. rewrite lookup_delete_Some, (Hi b k'). destruct (decide (k' = k)) as [->|Hne].
  - split; [naive_solver|]. intros (e' & He' & Hb). specialize (Hn _ He'). congruence.
  - rewrite Hm by done. split; [naive_solver|]. intros (e' & He' & Hb). split; [|eauto].
    intros <-. destruct Hne. by eapply inv_addr.
Qed.

Lemma inv_removed ch k e a : inv ch → sm_get (primary ch) k = Some e → addr_of (status e) = Some a →
  inv (mkChildren (sm_remove (primary ch) k) (delete a (by_address ch))).
Proof.
  intros Hi Hk Ha. eapply inv_gone; eauto.
  - intros k' Hne. by rewrite sm_get_remove, decide_False.
  - intros e'. by rewrite sm_get_remove, decide_True.
Qed.

Lemma inv_insert ch e : inv ch → addr_of (status e) = None →
  inv (mkChildren (sm_insert (primary ch) e).1 (by_address ch)).
Proof.
  intros Hi He a k. cbn. rewrite (Hi a k), sm_get_insert. case_decide; [subst|done].
  rewrite sm_insert_fresh. naive_solver.
Qed.

(** The shutdowns of a reaping. *)
Definition shutdowns (spec : uspec) (l : list (Z * ChildEntry)) : list Eff :=
  omap (λ x, match status x.2 with Started a => Some (UShutdown a (stop_timeout spec)) | _ => None end) l.

Lemma reap_loop_spec e spec l m err : NoDup l.*1 →
  (∀ k x a, (k, x) ∈ l → status x = Started a → m !! a = Some k) →
  ∃ m' err', reap_loop e spec l m err = Ret (m', shutdowns spec l, err').
Proof.
  revert m err. induction l as [|[k x] l IH]; intros m err Hn Hm; [by eexists _, _|].
  apply NoDup_cons in Hn as [Hk Hn]. unfold shutdowns. cbn [reap_loop omap list_omap].
  destruct (status x) as [|a|a] eqn:Es.
  1,3: cbn; rewrite Es; apply IH; [done|]; intros; eapply Hm; [by right|done].
  rewrite assert_true by (apply bool_decide_eq_true; eapply Hm; [by left|done]). rewrite bind_Ret.
  destruct (IH (delete a m) (if shutdown_ok e a then err else match err with None => Some StopFailed | _ => err end))
    as (m' & err' & ->); [done| |cbn; rewrite Es; by eexists _, _].
  intros k' x' a' Hin Hs. assert (Hl : m !! a' = Some k') by (eapply Hm; [by right|done]).
  apply lookup_delete_Some. split; [|done]. intros <-.
  assert (m !! a = Some k) by (eapply Hm; [by left|done]). simplify_eq.
  destruct Hk. apply list_elem_of_fmap. by exists (k', x').
Qed.

Lemma reap_spec e spec ch : inv ch →
  ∃ ch' r, reap_started_children e spec ch = Ret (ch', shutdowns spec (sm_drain (primary ch)), r).
Proof.
  intros Hi. unfold reap_started_children.
  destruct (reap_loop_spec e spec (sm_drain (primary ch)) (by_address ch) None) as (m' & err' & ->).
  - apply sm_drain_NoDup.
  - intros k x a Hin Hs. apply sm_drain_elem in Hin. apply Hi. exists x. by rewrite Hs.
  - by eexists _, _.
Qed.

(** ** One turn under the invariant *)

(** The messages that break the protocol between the supervisor and its forks: a
    start reported for a child that is not there, or at an address already used. *)
Definition bad_report (ch : Children) (m : option UMsg) : Prop :=
  ∃ k a, m = Some (UChildStarted k a) ∧ (sm_get (primary ch) k = None ∨ is_Some (by_address ch !! a)).

Definition factory_refuses : Prop := ∃ args, produce_with args = Panic.
Definition stats_too_large (spec : uspec) : Prop :=
  ∃ b ri, child_type spec = URestarting b ri ∧ new_stats ri = Panic.

Lemma make_runnable_panic d : make_runnable d = Panic → factory_refuses.
Proof.
  destruct d as [[args|]|args st]; cbn; try done; destruct (produce_with args) eqn:E; try done;
    intros _; by exists args.
Qed.

Lemma entry_by_address ch a k : inv ch → by_address ch !! a = Some k →
  ∃ s d, sm_get (primary ch) k = Some (mkEntry s d) ∧ (s = Started a ∨ s = Stopping a).
Proof.
  intros Hi Hk. apply Hi in Hk as ([s d] & Hg & Ha). exists s, d. split; [done|].
  destruct s; simplify_eq/=; auto.
Qed.

Lemma start_request_inv e spec ch r args ch' es : inv ch →
  handle_start_request e spec ch r args = Ret (ch', es, Continue) → inv ch'.
Proof.
  intros Hi (d & _ & ([d' [x|err]] & _ & E)%bind_Ret_inv)%bind_Ret_inv; [|done].
  pose proof (inv_insert ch (mkEntry Starting d') Hi eq_refl) as Hi'.
  destruct (sm_insert (primary ch) (mkEntry Starting d')) as [p k]. cbn in Hi', E.
  by destruct (fork_ok e); injection E as <- <-.
Qed.

Lemma child_started_inv ch k a ch' es : inv ch → handle_child_started ch k a = Ret (ch', es, Continue) → inv ch'.
Proof.
  intros Hi ([s d] & Hk & E)%bind_Ret_inv. destruct (sm_get (primary ch) k) as [x|] eqn:Eg; [|done].
  injection Hk as ->. cbn in E. destruct s; try done.
  apply bind_Ret_inv in E as (? & Hn%assert_Ret_inv%bool_decide_eq_true & [= <- <-]).
  intros b k'. cbn. rewrite sm_get_set by eauto. destruct (decide (b = a)) as [->|Hne].
  - rewrite lookup_insert_eq. case_decide; [subst; naive_solver|]. split; [naive_solver|].
    intros (e & He & Ha). assert (by_address ch !! a = Some k') by (apply Hi; eauto). congruence.
  - rewrite lookup_insert_ne, (Hi b k') by done. case_decide; [subst|done]. rewrite Eg. naive_solver.
Qed.

Lemma start_failed_inv ch k : inv ch → inv (handle_child_start_failed ch k).
Proof.
  intros Hi. unfold handle_child_start_failed. destruct (sm_get (primary ch) k) as [[[] d]|] eqn:E; try done.
  intros a k'. cbn. rewrite (Hi a k'), sm_get_remove. case_decide; [subst|done]. rewrite E. naive_solver.
Qed.

Lemma stop_request_inv e spec ch r a ch' es : inv ch →
  handle_stop_request e spec ch r a = Ret (ch', es, Continue) → inv ch'.
Proof.
  intros Hi. unfold handle_stop_request. destruct (by_address ch !! a) as [k|] eqn:Ea; [|by intros [= <- <-]].
  destruct (entry_by_address ch a k Hi Ea) as (s & d & Hk & [-> | ->]); rewrite Hk; cbn; rewrite Z.eqb_refl; cbn.
  - destruct (fork_ok e); [|done]. intros [= <- <-]. by eapply inv_set.
  - by intros [= <- <-].
Qed.

Lemma sys_exited_inv e spec ch p n ch' es : inv ch →
  handle_sys_exited e spec ch p n = Ret (ch', es, Continue) → inv ch'.
Proof.
  intros Hi. unfold handle_sys_exited. destruct (by_address ch !! p) as [k|] eqn:Ep.
  2: { intros ([[ch1 es1] [u|err]] & _ & E)%bind_Ret_inv; done. }
  destruct (entry_by_address ch p k Hi Ep) as (s & d & Hk & [-> | ->]); cbn [primary]; rewrite Hk;
    cbn [expect]; rewrite bind_Ret; cbn [status data by_address].
  - destruct (should_restart (child_type spec) d n (now e)) as [d1 [[]|err]].
    + rewrite Z.eqb_refl. cbn [assert_]. rewrite bind_Ret.
      intros ([d2 [x|err]] & _ & E)%bind_Ret_inv; [|done]. destruct (fork_ok e); simplify_eq.
      eapply (inv_gone ch k _ p); [done|exact Hk|done| |].
      * intros k' Hne. by rewrite sm_get_set, decide_False by eauto.
      * intros e'. rewrite sm_get_set, decide_True by eauto. by intros [= <-].
    + intros [= <- <-]. by eapply inv_removed.
    + rewrite Z.eqb_refl. cbn [assert_]. rewrite bind_Ret. intros ([[ch1 es1] r] & _ & E)%bind_Ret_inv. done.
  - rewrite Z.eqb_refl. cbn [assert_]. rewrite bind_Ret. intros [= <- <-]. by eapply inv_removed.
Qed.

Lemma uniform_turn_inv e spec ch m ch' es : inv ch → uniform_turn e spec ch m = Ret (ch', es, Continue) → inv ch'.
Proof.
  intros Hi. destruct m as [[r args|k a|k|r a|p n|]|]; cbn [uniform_turn]; try done.
  - by apply start_request_inv.
  - by apply child_started_inv.
  - intros [= <- <-]. by apply start_failed_inv.
  - by apply stop_request_inv.
  - by apply sys_exited_inv.
  - by intros [= <- <-].
Qed.

Lemma uniform_turn_panic e spec ch m : inv ch → uniform_turn e spec ch m = Panic →
  factory_refuses ∨ stats_too_large spec ∨ bad_report ch m.
Proof.
  intros Hi. destruct m as [[r args|k a|k|r a|p n|]|]; cbn [uniform_turn]; try done.
  - unfold handle_start_request. destruct (new_data (child_type spec) args) as [d|] eqn:En.
    + rewrite bind_Ret. destruct (make_runnable d) as [[d' [x|err]]|] eqn:Em; try done.
      * rewrite bind_Ret. destruct (sm_insert _ _). by destruct (fork_ok e).
      * left. by eapply make_runnable_panic.
    + right; left. unfold new_data in En. destruct (child_type spec) as [|b ri] eqn:Ec; [done|].
      exists b, ri. split; [done|]. by destruct (new_stats ri).
  - unfold handle_child_started. destruct (sm_get (primary ch) k) as [[s d]|] eqn:Eg; cbn [expect].
    + rewrite bind_Ret. destruct s; cbn [status]; try done. case_bool_decide as Hb; [done|].
      intros _. right; right. exists k, a. split; [done|]. right. by apply not_eq_None_Some.
    + intros _. right; right. exists k, a. auto.
  - unfold handle_stop_request. destruct (by_address ch !! a) as [k|] eqn:Ea; [|done].
    destruct (entry_by_address ch a k Hi Ea) as (s & d & Hk & [-> | ->]); rewrite Hk; cbn; rewrite Z.eqb_refl; cbn;
      [by destruct (fork_ok e)|done].
  - unfold handle_sys_exited. destruct (by_address ch !! p) as [k|] eqn:Ep.
    + destruct (entry_by_address ch p k Hi Ep) as (s & d & Hk & [-> | ->]); cbn [primary]; rewrite Hk;
        cbn [expect]; rewrite bind_Ret; cbn [status data by_address].
      * destruct (should_restart (child_type spec) d n (now e)) as [d1 [[]|err]]; [|done|].
        -- rewrite Z.eqb_refl. cbn [assert_]. rewrite bind_Ret.
           destruct (make_runnable d1) as [[d' [x|err]]|] eqn:Em; try done; [by destruct (fork_ok e)|].
           left. by eapply make_runnable_panic.
        -- rewrite Z.eqb_refl. cbn [assert_]. rewrite bind_Ret.
           destruct (reap_spec e spec (mkChildren (sm_remove (primary ch) k) (delete p (by_address ch))))
             as (ch' & r & ->); [by eapply inv_removed|done].
      * by rewrite Z.eqb_refl.
    + destruct (reap_spec e spec ch Hi) as (ch' & r & ->). rewrite bind_Ret. by destruct r.
Qed.

(** The states between the turns of a supervisor's loop. *)
Inductive u_reachable (spec : uspec) : Children → Prop :=
| u_init : u_reachable spec children_empty
| u_step e m ch ch' es :
    u_reachable spec ch → uniform_turn e spec ch m = Ret (ch', es, Continue) → u_reachable spec ch'.

Lemma u_reachable_inv spec ch : u_reachable spec ch → inv ch.
Proof. induction 1; [apply inv_empty|by eapply uniform_turn_inv]. Qed.

(** C34: throughout the life of a uniform supervisor its two tables agree: an
    address leads to the one child that runs or is being stopped there, and every
    such child is found by its address; so no request, exit or reaping meets an
    inconsistent table. A turn panics only if the factory can (for some arguments), if the restart
    statistics are too large to allocate, or if a start is reported for an unknown
    child or an address in use. *)
Theorem uniform_tables_agree spec ch e m : u_reachable spec ch →
  (∀ a k, by_address ch !! a = Some k ↔
     ∃ x, sm_get (primary ch) k = Some x ∧ addr_of (status x) = Some a) ∧
  (uniform_turn e spec ch m = Panic → factory_refuses ∨ stats_too_large spec ∨ bad_report ch m).
Proof.
  intros Hr%u_reachable_inv. split; [exact Hr|]. by apply uniform_turn_panic.
Qed.

Lemma shutdowns_elem spec m a : UShutdown a (stop_timeout spec) ∈ shutdowns spec (sm_drain m) ↔
  ∃ k x, sm_get m k = Some x ∧ status x = Started a.
Proof.
  unfold shutdowns. rewrite list_elem_of_omap. split.
  - intros ([k x] & Hin%sm_drain_elem & Hs). cbn in Hs. exists k, x. split; [done|].
    by destruct (status x); simplify_eq.
  - intros (k & x & Hk & Hs). exists (k, x). cbn. rewrite Hs. by rewrite sm_drain_elem.
Qed.

Lemma shutdowns_NoDup spec ch : inv ch → NoDup (shutdowns spec (sm_drain (primary ch))).
Proof.
  intros Hi. unfold shutdowns.
  assert (Hin : ∀ k x, (k, x) ∈ sm_drain (primary ch) → sm_get (primary ch) k = Some x) by (intros; by apply sm_drain_elem).
  pose proof (sm_drain_NoDup (primary ch)) as Hn. revert Hin Hn.
  generalize (sm_drain (primary ch)). intros l. induction l as [|[k x] l IH]; intros Hin Hn; [apply NoDup_nil_2|].
  apply NoDup_cons in Hn as [Hk Hn]. cbn [omap list_omap].
  assert (IH' : NoDup (omap (λ x, match status x.2 with Started a => Some (UShutdown a (stop_timeout spec)) | _ => None end) l)).
  { apply IH; [|done]. intros. apply Hin. by right. }
  cbn. destruct (status x) as [|a|a] eqn:Es; try done. apply NoDup_cons. split; [|done].
  intros ([k' x'] & Hx' & Hs)%list_elem_of_omap. cbn in Hs. destruct (status x') as [|a'|a'] eqn:Es'; simplify_eq.
  assert (k = k') as ->.
  { eapply (inv_addr ch k k' x x' a); [done|apply Hin; by left|apply Hin; by right|by rewrite Es|by rewrite Es']. }
  destruct Hk. apply list_elem_of_fmap. by exists (k', x').
Qed.

(** when a uniform supervisor is told to end (the exit of a peer that is not
    its child), it first asks every running child to stop, each exactly once, and
    then quits; if some child could not be stopped it still asks all the others
    before it returns the failure. *)
Theorem uniform_reaps_all spec ch e peer n : u_reachable spec ch → by_address ch !! peer = None →
  ∃ ch' es f, handle_sys_exited e spec ch peer n = Ret (ch', es, f) ∧
    NoDup es ∧
    (∀ a, UShutdown a (stop_timeout spec) ∈ es ↔
       ∃ k x, sm_get (primary ch) k = Some x ∧ status x = Started a) ∧
    (f = Gone ∧ last es = Some (UQuitErr peer) ∨ ∃ err, f = Return err).
Proof.
  intros Hi%u_reachable_inv Hp. unfold handle_sys_exited. rewrite Hp.
  destruct (reap_spec e spec ch Hi) as (ch' & r & ->). rewrite bind_Ret.
  pose proof (shutdowns_NoDup spec ch Hi) as Hn. pose proof (shutdowns_elem spec (primary ch)) as He.
  destruct r as [u|err]; eexists _, _, _; (split; [done|]).
  - split_and!; [| |left; split; [done|apply last_snoc]].
    + apply NoDup_app. split_and!; [done| |apply NoDup_singleton].
      intros x (k & _ & Hx)%list_elem_of_omap ->%list_elem_of_singleton. by destruct (status k.2).
    + intros a. rewrite elem_of_app, He. split; [|by left]. intros [?|?%list_elem_of_singleton]; done.
  - split_and!; [done|done|]. right. by eexists.
Qed.

(** what happens after a running child's exit depends on the child type alone,
    not on how it exited: within the restart intensity a permanent child is
    started again, with its arguments, and a transient one is dropped, even after
    an abnormal exit; a temporary child is always dropped. *)
Theorem uniform_exit_decision spec ch e peer n k d : u_reachable spec ch →
  by_address ch !! peer = Some k → sm_get (primary ch) k = Some (mkEntry (Started peer) d) → fork_ok e = true →
  match child_type spec, d with
  | UTemporary, _ => ∃ ch', handle_sys_exited e spec ch peer n = Ret (ch', [], Continue) ∧ sm_get (primary ch') k = None
  | URestarting again ri, DRestarting args stats =>
      (report_exit ri stats (now e)).2 = Ok tt → ∀ r, produce_with args = Ret r →
      ∃ ch', handle_sys_exited e spec ch peer n =
        Ret (ch', if again then [UForkStart k (init_type spec) (announce_parent spec) r None] else [], Continue) ∧
      status <$> sm_get (primary ch') k = if again then Some Starting else None
  | _, _ => True
  end.
Proof.
  intros _ Hp Hk Hf. destruct (child_type spec) as [|again ri] eqn:Ec; [|destruct d as [o|args stats]; [done|]].
  - unfold handle_sys_exited. rewrite Hp. cbn [primary]. rewrite Hk. cbn [expect]. rewrite bind_Ret, Ec.
    cbn. eexists. split; [done|]. cbn. by rewrite sm_get_remove, decide_True.
  - intros Hok r Hr. unfold handle_sys_exited. rewrite Hp. cbn [primary]. rewrite Hk. cbn [expect].
    rewrite bind_Ret, Ec. cbn [status data should_restart]. destruct (report_exit ri stats (now e)) as [stats' res].
    cbn in Hok. subst res. rewrite Hf. destruct again.
    + rewrite Z.eqb_refl. cbn [assert_]. rewrite bind_Ret. cbn [make_runnable]. rewrite Hr, !bind_Ret.
      eexists. split; [done|]. cbn. by rewrite sm_get_set, decide_True by eauto.
    + eexists. split; [done|]. cbn. by rewrite sm_get_remove, decide_True.
Qed.

End Uniform.

(** ** Runs *)
#[local] Existing Instance gmap_slot_map.

Definition id_factory (args : Z) : outcome Z := Ret args.
Definition env0 : Env := mkEnv 5 true (λ _, true).
Definition uspec_of (c : UniformChildType) : uspec := with_child_type (child_spec_new tt) c.
Definition transient : uspec := uspec_of (UTransient (mkRI 2 10)).

(** One child, started with the argument 42, at address 7. *)
Definition one_child : Children (A := Z) (SM := gmap Z) :=
  mkChildren {[0 := mkEntry (Started 7) (DRestarting 42 [])]} {[7 := 0]}.

Lemma one_child_reachable : u_reachable id_factory transient one_child.
Proof.
  eapply (u_step _ _ env0 (Some (UChildStarted 0 7))).
  - eapply (u_step _ _ env0 (Some (UStartRequest 99 42))); [constructor|]. vm_compute. reflexivity.
  - vm_compute. reflexivity.
Qed.

Lemma uniform_tables_agree_witness : by_address one_child !! 7 = Some 0 ∧ ∀ a k, by_address one_child !! a = Some k ↔
  ∃ x, sm_get (primary one_child) k = Some x ∧ addr_of (status x) = Some a.
Proof.
  split; [vm_compute; reflexivity|].
  exact (proj1 (uniform_tables_agree id_factory transient one_child env0 None one_child_reachable)).
Defined.

Lemma uniform_reaps_all_witness : ∃ ch' es f,
  handle_sys_exited id_factory env0 transient one_child 8 true = Ret (ch', es, f) ∧
  NoDup es ∧
  (∀ a, UShutdown a NANOS ∈ es ↔ ∃ k x, sm_get (primary one_child) k = Some x ∧ status x = Started a) ∧
  (f = Gone ∧ last es = Some (UQuitErr 8) ∨ ∃ err, f = Return err).
Proof. exact (uniform_reaps_all id_factory transient one_child env0 8 true one_child_reachable eq_refl). Defined.

(** The transient child crashes and is not started again. *)
Lemma uniform_exit_decision_witness : ∃ ch',
  handle_sys_exited id_factory env0 transient one_child 7 false = Ret (ch', [], Continue) ∧
  status <$> sm_get (primary ch') 0 = None.
Proof.
  refine (uniform_exit_decision id_factory transient one_child env0 7 false 0 (DRestarting 42 [])
    one_child_reachable eq_refl eq_refl eq_refl _ 42 eq_refl).
  vm_compute. reflexivity.
Defined.
