(* ===== verification/Workers.v ===== *)
(** * The workers of the multinode manager
    (components/mm1-multinode/src/actors/multinode_manager.rs, [run] and the [start_*_sup] functions)

    At its start the manager starts seven supervisors of workers, binds its well-known address and reports that it is up. What a
    supervisor launches is a function of its arguments, made when the supervisor is started: there the workers are wired together. *)

From S2P Require Import Prelude Address Subnet Collections Restart Decider MixedSup UniformSup.

Open Scope Z_scope.

Inductive Transport := Uds | Tcp.

Section Workers.
Context {Stream Addr Name Options Protocol : Type}.

(** What is run, with its arguments: [subnet_ingress::run], [iostream_connection::run], and the [run] of connectors and acceptors *)
Inductive Worker :=
| RunIngress (multinode_manager : Address) (net_address : NetAddress)
| RunConnection (t : Transport) (multinode_manager : Address) (io : Stream) (options : Options) (protocols : list Protocol)
| RunConnector (t : Transport) (connection_sup : Address) (destination_addr : Addr) (protocol_names : list Name) (options : Options)
| RunAcceptor (t : Transport) (connection_sup : Address) (bind_addr : Addr) (protocol_names : list Name) (options : Options).

(** The supervisors, with what their launchers have captured *)
Inductive Sup :=
| IngressSup (multinode_manager : Address)
| ConnectionSup (t : Transport) (multinode_manager : Address)
| ConnectorSup (t : Transport) (connection_sup : Address)
| AcceptorSup (t : Transport) (connection_sup : Address).

(** The arguments of a start request *)
Inductive Args :=
| NetArgs (net_address : NetAddress)
| StreamArgs (io : Stream) (options : Options) (protocols : list Protocol)
| AddrArgs (addr : Addr) (protocol_names : list Name) (options : Options).

(** The launchers; a request with arguments of another type is not a start request to the supervisor. *)
Definition launch (sup : Sup) (args : Args) : option Worker :=
  match sup, args with
  | IngressSup mgr, NetArgs net => Some (RunIngress mgr net)
  | ConnectionSup t mgr, StreamArgs io options protocols => Some (RunConnection t mgr io options protocols)
  | ConnectorSup t sup, AddrArgs addr names options => Some (RunConnector t sup addr names options)
  | AcceptorSup t sup, AddrArgs addr names options => Some (RunAcceptor t sup addr names options)
  | _, _ => None
  end.


(** The specification of the children, the same for all supervisors *)
Definition worker_spec : ChildSpec unit UniformChildType :=
  with_stop_timeout (with_init_type (with_child_type (child_spec_new tt) UTemporary) (WithAck (5 * NANOS))) (10 * NANOS).

(** [ctx.start(sup_runnable, link, timeout)] of each of the [start_*_sup] functions *)
Inductive RunEff :=
| StartSup (sup : Sup) (spec : ChildSpec unit UniformChildType) (link : bool) (start_timeout : Duration)
| Bind (bind_to : Address) (inbox_size : Z)
| InitDone (address : Address).

Definition start_sup (sup : Sup) : RunEff := StartSup sup worker_spec true NANOS.

Definition start_subnet_ingress_sup (multinode_manager : Address) : RunEff := start_sup (IngressSup multinode_manager).
Definition start_connection_sup (t : Transport) (multinode_manager : Address) : RunEff := start_sup (ConnectionSup t multinode_manager).
Definition start_uds_acceptor_sup (connection_sup : Address) : RunEff := start_sup (AcceptorSup Uds connection_sup).
Definition start_tcp_connector_sup (connection_sup : Address) : RunEff := start_sup (ConnectorSup Tcp connection_sup).
Definition start_uds_connector_sup (connection_sup : Address) : RunEff := start_sup (ConnectorSup Uds connection_sup).
Definition start_tcp_acceptor_sup (connection_sup : Address) : RunEff := start_sup (AcceptorSup Tcp connection_sup).

Inductive RunError := TimerFailed | StartFailed | BindFailed.

(** The fields of the manager that are addresses of supervisors *)
Record Sups := mkSups { tcp_connector_sup : Address; tcp_acceptor_sup : Address; uds_connector_sup : Address; uds_acceptor_sup : Address;
  subnet_ingress_sup : Address }.

Definition INBOX_SIZE : Z := 1024.

(** A start, and what follows it; the runtime's answers come in their order. *)
Definition and_start (start : RunEff) (answers : list (option Address)) (k : Address → list (option Address) → list RunEff * result Sups RunError) :
    list RunEff * result Sups RunError :=
  match answers with
  | Some a :: answers => let '(effs, r) := k a answers in (start :: effs, r)
  | _ => ([start], Err StartFailed)
  end.

(** [run], up to the server's loop *)
Definition run (me multinode_manager : Address) (timer : bool) (answers : list (option Address)) (bound : bool) : list RunEff * result Sups RunError :=
  if negb timer then ([], Err TimerFailed) else
  and_start (start_connection_sup Uds me) answers (λ uds_connection_sup answers,
  and_start (start_uds_connector_sup uds_connection_sup) answers (λ uds_connector_sup answers,
  and_start (start_uds_acceptor_sup uds_connection_sup) answers (λ uds_acceptor_sup answers,
  and_start (start_connection_sup Tcp me) answers (λ tcp_connection_sup answers,
  and_start (start_tcp_connector_sup tcp_connection_sup) answers (λ tcp_connector_sup answers,
  and_start (start_tcp_acceptor_sup tcp_connection_sup) answers (λ tcp_acceptor_sup answers,
  and_start (start_subnet_ingress_sup me) answers (λ subnet_ingress_sup answers,
    if bound
    then ([Bind multinode_manager INBOX_SIZE; InitDone me],
          Ok (mkSups tcp_connector_sup tcp_acceptor_sup uds_connector_sup uds_acceptor_sup subnet_ingress_sup))
    else ([Bind multinode_manager INBOX_SIZE], Err BindFailed)))))))).

(** ** What was started at an address *)
Definition started_at (effs : list RunEff) (answers : list (option Address)) (a : Address) (sup : Sup) : Prop :=
  ∃ i, effs !! i = Some (start_sup sup) ∧ answers !! i = Some (Some a).

Definition connector_sup (s : Sups) (t : Transport) : Address := match t with Uds => uds_connector_sup s | Tcp => tcp_connector_sup s end.
Definition acceptor_sup (s : Sups) (t : Transport) : Address := match t with Uds => uds_acceptor_sup s | Tcp => tcp_acceptor_sup s end.

(** The manager reports that it is up only when all its supervisors run and its address is bound; and then the workers are wired: a
    connector or acceptor it has started, for either transport, hands its streams to a supervisor that launches connections of that
    transport, which report to this manager. *)
Theorem workers_wired me mgr timer answers bound effs r : run me mgr timer answers bound = (effs, r) →
  (InitDone me ∈ effs ↔ ∃ s, r = Ok s) ∧
  ∀ s, r = Ok s →
    (∀ net, ∃ sup, started_at effs answers (subnet_ingress_sup s) sup ∧ launch sup (NetArgs net) = Some (RunIngress me net)) ∧
    ∀ t addr names options, ∃ conn_sup csup asup sup,
      started_at effs answers (connector_sup s t) csup ∧ launch csup (AddrArgs addr names options) = Some (RunConnector t conn_sup addr names options) ∧
      started_at effs answers (acceptor_sup s t) asup ∧ launch asup (AddrArgs addr names options) = Some (RunAcceptor t conn_sup addr names options) ∧
      started_at effs answers conn_sup sup ∧
      ∀ io protocols, launch sup (StreamArgs io options protocols) = Some (RunConnection t me io options protocols).
Proof.
  unfold run. destruct timer; cbn [negb].
  2: { intros [= <- <-]. split; [|done]. split; [by intros ?%elem_of_nil | by intros [? ?]]. }
  destruct bound, answers as [|[uc|] [|[un|] [|[ua|] [|[tc|] [|[tn|] [|[ta|] [|[ig|] rest]]]]]]]; cbn [and_start];
    intros [= <- <-];
    try (split; [|done]; split; [intros Hin; repeat (apply elem_of_cons in Hin as [Hin|Hin]; [done|]); by apply elem_of_nil in Hin | by intros [? ?]]).
  split; [split; [by eexists | intros _; do 8 right; left]|]. intros s [= <-]. split.
  - intros net. exists (IngressSup me). split; [by exists 6%nat | done].
  - intros [] addr names options; cbn [connector_sup acceptor_sup uds_connector_sup uds_acceptor_sup tcp_connector_sup tcp_acceptor_sup].
    + exists uc, (ConnectorSup Uds uc), (AcceptorSup Uds uc), (ConnectionSup Uds me).
      split; [by exists 1%nat|]. split; [done|]. split; [by exists 2%nat|]. split; [done|]. split; [by exists 0%nat | done].
    + exists tc, (ConnectorSup Tcp tc), (AcceptorSup Tcp tc), (ConnectionSup Tcp me).
      split; [by exists 4%nat|]. split; [done|]. split; [by exists 5%nat|]. split; [done|]. split; [by exists 3%nat | done].
Qed.

(** ** The life of a worker *)
Context {SM : Type → Type} `{SlotMap SM}.
Context (sup : Sup).

(** The supervisor's factory; the types of the source let only the right arguments in. *)
Definition produce (args : Args) : outcome Worker := expect (launch sup args).

(** A supervisor of workers, asked to start one, starts it once with its arguments and waits five seconds for it to be up; and when the worker
    ends, in whatever way, it is forgotten and not started again. *)
Theorem workers_run_once ch e reply_to args w : u_reachable (SM := SM) produce worker_spec ch → launch sup args = Some w → fork_ok e = true →
  (∃ ch' key, handle_start_request produce e worker_spec ch reply_to args =
    Ret (ch', [UForkStart key (WithAck (5 * NANOS)) false w (Some reply_to)], Continue) ∧ sm_get (primary ch) key = None) ∧
  ∀ peer n k d, by_address ch !! peer = Some k → sm_get (primary ch) k = Some (mkEntry (Started peer) d) →
    ∃ ch', handle_sys_exited produce e worker_spec ch peer n = Ret (ch', [], Continue) ∧ sm_get (primary ch') k = None.
Proof.
  intros Hr Hl Hf. split.
  - unfold handle_start_request, produce. cbn [child_type worker_spec with_stop_timeout with_init_type with_child_type child_spec_new new_data mbind outcome_bind make_runnable].
    rewrite Hl. cbn [expect mbind outcome_bind]. rewrite Hf.
    pose proof (sm_insert_fresh (primary ch) (mkEntry Starting (DTemporary (A := Args) None))) as Hn.
    destruct (sm_insert (primary ch) (mkEntry Starting (DTemporary None))) as [p key]. eexists _, key. split; [done | exact Hn].
  - intros peer n k d Hp Hk. exact (uniform_exit_decision produce worker_spec ch e peer n k d Hr Hp Hk Hf).
Qed.
End Workers.

(** ** Example: all is started *)
Lemma workers_wired_witness : ∃ effs s, run 5 1 true (Some <$> [10; 11; 12; 13; 14; 15; 16]) true = (effs, Ok s) ∧ InitDone 5 ∈ effs.
Proof.
  eexists _, _. split; [reflexivity|].
  eapply (workers_wired (Stream := Z) (Addr := Z) (Name := Z) (Options := Z) (Protocol := Z) 5 1 true (Some <$> [10; 11; 12; 13; 14; 15; 16]) true); [reflexivity|].
  by eexists.
Defined.
