(* ===== verification/Timer.v ===== *)
(** * One-shot timers (components/mm1-timer/src/v1.rs)

    A timer server keeps the scheduled messages in a slot map and their deadlines
    in an ordered set; it sleeps until the first deadline and then sends what is
    due. *)

From stdpp Require Import sorting.
From S2P Require Import Prelude Collections Restart.

Open Scope Z_scope.

Section Timer.
Context {M : Type} {SM : Type → Type} `{SlotMap SM}.

Record Entry := mkTimerEntry { at_ : Instant; message : M }.
Record TimerState := mkTimer { entries : SM Entry; ordered : gset (Instant * Z) }.

Definition timer_default : TimerState := mkTimer sm_empty ∅.

Inductive Event :=
| EvTime (now : Instant)
| EvSchedule (header : Z) (at_ : Instant) (message : M)
| EvCancel (header : Z) (key : Z)
| EvRecvError.

Inductive Reply :=
| ScheduledOneshot (header : Z) (key : Z)
| CanceledOneshot (header : Z) (message : option M)
| Fired (key : Z) (message : M).

(** The deadline the loop sleeps until, if there is one. *)
Definition next_deadline (st : TimerState) : option Instant := fst <$> head (btree_elements (ordered st)).

(** The loop of [Event::Time]; [sent] tells whether the message of a key reaches
    the receiver. The number of deadlines bounds the number of turns. *)
Fixpoint fire_loop (fuel : nat) (st : TimerState) (now : Instant) (sent : Z → bool) :
  outcome (TimerState * list Reply * bool) :=
  match fuel with
  | O => Ret (st, [], true)
  | S fuel =>
      match head (btree_elements (ordered st)) with
      | None => Ret (st, [], true)
      | Some (deadline, key) =>
          if now <? deadline then Ret (st, [], true)
          else
            let ordered := ordered st ∖ {[(deadline, key)]} in
            e ← expect (sm_get (entries st) key);
            let st := mkTimer (sm_remove (entries st) key) ordered in
            if sent key then
              '(st, out, ok) ← fire_loop fuel st now sent;
              Ret (st, Fired key (message e) :: out, ok)
            else Ret (st, [], false)
      end
  end.

(** One turn of [timer_run]: what it sends, and whether the loop goes on.
    [replied] tells whether a reply could be sent. *)
Definition timer_turn (st : TimerState) (ev : Event) (replied : bool) (sent : Z → bool) :
  outcome (TimerState * list Reply * bool) :=
  match ev with
  | EvRecvError => Ret (st, [], false)
  | EvSchedule header at_ message =>
      let '(entries, key) := sm_insert (entries st) (mkTimerEntry at_ message) in
      Ret (mkTimer entries ({[(at_, key)]} ∪ ordered st), [ScheduledOneshot header key], replied)
  | EvCancel header key =>
      match sm_get (entries st) key with
      | Some (mkTimerEntry at_ message) =>
          Ret (mkTimer (sm_remove (entries st) key) (ordered st ∖ {[(at_, key)]}),
               [CanceledOneshot header (Some message)], replied)
      | None => Ret (mkTimer (sm_remove (entries st) key) (ordered st), [CanceledOneshot header None], replied)
      end
  | EvTime now => fire_loop (size (ordered st)) st now sent
  end.

(** ** The invariant: the deadlines are those of the entries *)
Definition timer_inv (st : TimerState) : Prop :=
  ∀ t k, (t, k) ∈ ordered st ↔ ∃ m, sm_get (entries st) k = Some (mkTimerEntry t m).

Lemma timer_inv_default : timer_inv timer_default.
Proof. intros t k. cbn. rewrite sm_get_empty. set_solver. Qed.

Lemma timer_inv_remove st t k : timer_inv st → (t, k) ∈ ordered st →
  timer_inv (mkTimer (sm_remove (entries st) k) (ordered st ∖ {[(t, k)]})).
Proof.
  intros Hi Hin t' k'. cbn. rewrite elem_of_difference, (Hi t' k'), sm_get_remove.
  case_decide as Hk; [subst|].
  - split; [|naive_solver]. intros [[m Hm] Hne]. exfalso. apply Hi in Hin as [m' Hm'].
    rewrite Hm in Hm'. simplify_eq. set_solver.
  - set_solver.
Qed.

(** The messages due at [now], in the order of their deadlines. *)
Definition due (st : TimerState) (now : Instant) : list (Instant * Z) :=
  filter (λ x, x.1 ≤ now) (btree_elements (ordered st)).
Definition fired_of (st : TimerState) (x : Instant * Z) : option Reply :=
  (λ e, Fired x.2 (message e)) <$> sm_get (entries st) x.2.

Lemma due_none st now : (∀ x, head (btree_elements (ordered st)) = Some x → now < x.1) → due st now = [].
Proof.
  intros Hh. unfold due. pose proof (btree_sorted (ordered st)) as Hs.
  destruct (btree_elements (ordered st)) as [|x l]; [done|]. specialize (Hh x eq_refl).
  apply StronglySorted_inv in Hs as [_ Hx]. apply filter_none. constructor; [lia|].
  eapply Forall_impl; [exact Hx|]. intros y. unfold pair_le. lia.
Qed.

(** The entry of a key is that of its deadline. *)
Lemma due_pop st now t k l : timer_inv st → btree_elements (ordered st) = (t, k) :: l → t ≤ now →
  let st1 := mkTimer (sm_remove (entries st) k) (ordered st ∖ {[(t, k)]}) in
  due st now = (t, k) :: due st1 now ∧ Forall (λ x, fired_of st1 x = fired_of st x) (due st1 now).
Proof.
  intros Hi El Hle st1. assert (Hin : (t, k) ∈ ordered st) by (rewrite <- elem_of_btree, El; by left). pose proof Hin as [m Hm]%Hi. split.
  - unfold due at 1. rewrite El, filter_cons_True by done. f_equal. unfold due. cbn [ordered st1]. by rewrite (btree_pop_first _ _ _ El).
  - apply Forall_forall. intros [t' k'] Hd. unfold due in Hd. cbn [ordered st1] in Hd. rewrite (btree_pop_first _ _ _ El) in Hd.
    apply list_elem_of_filter in Hd as [_ Hl]. unfold fired_of. cbn. rewrite sm_get_remove, decide_False; [done|].
    intros ->. pose proof (NoDup_btree (ordered st)) as Hn. rewrite El in Hn. apply NoDup_cons in Hn as [Hn _]. destruct Hn.
    assert (Hin' : (t', k) ∈ ordered st) by (rewrite <- elem_of_btree, El; by right). apply Hi in Hin' as [m' Hm']. rewrite Hm in Hm'. by simplify_eq.
Qed.

(** The loop sends what is due up to the first message that cannot be sent, which is lost; what is due after it stays. *)
Record fires (st : TimerState) (now : Instant) (sent : Z → bool) (st' : TimerState) (out : list Reply) (ok : bool) (pre rest : list (Instant * Z)) : Prop := {
  fi_due : due st now = pre ++ rest;
  fi_sent : Forall (λ x, sent x.2 = true) pre;
  fi_out : out = omap (fired_of st) pre;
  fi_end : match rest with [] => ok = true | x :: _ => ok = false ∧ sent x.2 = false end;
  fi_kept k : sm_get (entries st') k = if decide (k ∈ (pre ++ take 1 rest).*2) then None else sm_get (entries st) k;
}.

Lemma fire_loop_spec fuel st now sent : (size (ordered st) ≤ fuel)%nat → timer_inv st →
  ∃ st' out ok pre rest, fire_loop fuel st now sent = Ret (st', out, ok) ∧ fires st now sent st' out ok pre rest.
Proof.
  assert (Hstop : ∀ st, due st now = [] → fires st now sent st [] true [] []).
  { intros st0 Hd. split; [done|done|done|done|]. intros k. rewrite decide_False; [done|]. apply not_elem_of_nil. }
  revert st. induction fuel as [|fuel IH]; intros st Hsz Hi.
  { assert (Ho : ordered st = ∅) by (apply leibniz_equiv, size_empty_inv; lia).
    exists st, [], true, [], []. split; [done|]. apply Hstop, due_none. rewrite Ho. vm_compute. done. }
  cbn [fire_loop]. destruct (btree_elements (ordered st)) as [|[t k] l] eqn:El; cbn [head].
  { exists st, [], true, [], []. split; [done|]. apply Hstop, due_none. by rewrite El. }
  destruct (Z.ltb_spec now t) as [Hlt|Hge].
  { exists st, [], true, [], []. split; [done|]. apply Hstop, due_none. rewrite El. by intros x [= <-]. }
  assert (Hin : (t, k) ∈ ordered st) by (rewrite <- elem_of_btree, El; by left). pose proof Hin as [m Hm]%Hi. rewrite Hm. cbn [expect]. rewrite bind_Ret. cbv zeta.
  destruct (due_pop st now t k l Hi El Hge) as [Hd Hf]. set (st1 := mkTimer (sm_remove (entries st) k) (ordered st ∖ {[(t, k)]})) in *.
  destruct (sent k) eqn:Es; cycle 1.
  { exists st1, [], false, [], ((t, k) :: due st1 now). split; [done|]. split; [done|done|done|done|]. intros k'. cbn. rewrite sm_get_remove. repeat case_decide; set_solver. }
  destruct (IH st1) as (st' & out & ok & pre & rest & -> & [H1 H2 H3 H4 H5]); [|by apply timer_inv_remove|].
  { cbn. rewrite size_difference by set_solver. rewrite size_singleton. lia. }
  rewrite bind_Ret. exists st', (Fired k m :: out), ok, ((t, k) :: pre), rest. split; [done|]. split; [by rewrite Hd, H1|by constructor| |done|].
  - cbn [omap list_omap]. unfold fired_of at 1. cbn. rewrite Hm. cbn. f_equal. rewrite H3. apply (list_omap_ext (fired_of st1) (fired_of st)), Forall_Forall2_diag.
    rewrite H1 in Hf. by apply Forall_app in Hf as [Hf _].
  - intros k'. rewrite H5. cbn. rewrite sm_get_remove. repeat case_decide; set_solver.
Qed.

Lemma due_spec st now t k : timer_inv st → (t, k) ∈ due st now ↔ t ≤ now ∧ ∃ m, sm_get (entries st) k = Some (mkTimerEntry t m).
Proof. intros Hi. unfold due. by rewrite list_elem_of_filter, elem_of_btree, (Hi t k). Qed.

Lemma fired_due st now l k m : timer_inv st → l ⊆ due st now → Fired k m ∈ omap (fired_of st) l ↔ ∃ t, (t, k) ∈ l ∧ sm_get (entries st) k = Some (mkTimerEntry t m).
Proof.
  intros Hi Hl. rewrite list_elem_of_omap. unfold fired_of. split.
  - intros ([t k'] & Hin & Hf). cbn in Hf. apply Hl in Hin as Hd. apply due_spec in Hd as (_ & m' & Hm'); [|done]. rewrite Hm' in Hf. cbn in Hf. simplify_eq. eauto.
  - intros (t & Hin & Hm). exists (t, k). cbn. by rewrite Hm.
Qed.

Lemma timer_turn_inv st ev st' out ok replied sent : timer_inv st →
  timer_turn st ev replied sent = Ret (st', out, ok) → timer_inv st'.
Proof.
  intros Hi. destruct ev as [now|h t m|h k|]; cbn [timer_turn].
  - assert (Hfire : ∀ fuel st out, timer_inv st → fire_loop fuel st now sent = Ret (st', out, ok) → timer_inv st').
    { induction fuel as [|fuel IH]; intros st0 out0 Hi0; cbn [fire_loop]; [by intros [= <- <- <-]|].
      destruct (head (btree_elements (ordered st0))) as [[t k]|] eqn:Eh; [|by intros [= <- <- <-]].
      destruct (now <? t); [by intros [= <- <- <-]|].
      intros (e & _ & E)%bind_Ret_inv.
      assert (Hin : (t, k) ∈ ordered st0).
      { rewrite <- elem_of_btree. destruct (btree_elements (ordered st0)); simplify_eq/=. by left. }
      pose proof (timer_inv_remove st0 t k Hi0 Hin) as Hi1. destruct (sent k); [|by simplify_eq].
      apply bind_Ret_inv in E as ([[st2 out2] ok2] & E & [= <- <- <-]). by eapply IH. }
    by apply Hfire.
  - pose proof (sm_insert_fresh (entries st) (mkTimerEntry t m)) as Hf.
    pose proof (sm_get_insert (entries st) (mkTimerEntry t m)) as Hg.
    destruct (sm_insert (entries st) (mkTimerEntry t m)) as [es k]. cbn in Hf, Hg. intros [= <- <- <-].
    intros t' k'. cbn. rewrite elem_of_union, elem_of_singleton, Hg, (Hi t' k'). case_decide; [subst|].
    + rewrite Hf. naive_solver.
    + naive_solver.
  - destruct (sm_get (entries st) k) as [[t m]|] eqn:E; intros [= <- <- <-].
    + apply timer_inv_remove; [done|]. apply Hi. eauto.
    + intros t' k'. cbn. rewrite (Hi t' k'), sm_get_remove. case_decide; [subst|done]. rewrite E. naive_solver.
  - by intros [= <- <- <-].
Qed.

(** The states of a timer server. *)
Inductive timer_reachable : TimerState → Prop :=
| tr_init : timer_reachable timer_default
| tr_step st ev replied sent st' out :
    timer_reachable st → timer_turn st ev replied sent = Ret (st', out, true) → timer_reachable st'.

Lemma timer_reachable_inv st : timer_reachable st → timer_inv st.
Proof. induction 1; [apply timer_inv_default|by eapply timer_turn_inv]. Qed.

(** C35: in every reachable state of a timer server, waking up at [now] looks at
    exactly the scheduled messages whose deadline has come, the earlier
    deadlines first, none twice, and never meets a deadline without its message. It sends them in this order until one cannot be sent;
    if all can, it goes on, has sent exactly these, has forgotten them and keeps all the others. If one cannot be sent, the server ends there: exactly the messages before
    it have been sent, these and the one that failed are forgotten, and those that were due after it are never sent. *)
Theorem timer_fires_due st now replied sent : timer_reachable st →
  ∃ st' out ok pre rest, timer_turn st (EvTime now) replied sent = Ret (st', out, ok) ∧
    due st now = pre ++ rest ∧ NoDup (due st now) ∧ StronglySorted pair_le (due st now) ∧
    (∀ t k, (t, k) ∈ due st now ↔ t ≤ now ∧ ∃ m, sm_get (entries st) k = Some (mkTimerEntry t m)) ∧
    out = omap (fired_of st) pre ∧ Forall (λ x, sent x.2 = true) pre ∧
    (∀ k m, Fired k m ∈ out ↔ ∃ t, (t, k) ∈ pre ∧ sm_get (entries st) k = Some (mkTimerEntry t m)) ∧
    match rest with
    | [] => ok = true ∧ ∀ k, sm_get (entries st') k = match sm_get (entries st) k with
                                                      | Some e => if at_ e <=? now then None else Some e
                                                      | None => None
                                                      end
    | failed :: _ => ok = false ∧ sent failed.2 = false ∧
        ∀ k, sm_get (entries st') k = if decide (k ∈ pre.*2 ∨ k = failed.2) then None else sm_get (entries st) k
    end.
Proof.
  intros Hi%timer_reachable_inv. cbn [timer_turn].
  destruct (fire_loop_spec (size (ordered st)) st now sent) as (st' & out & ok & pre & rest & -> & [H1 H2 H3 H4 H5]); [done|done|].
  exists st', out, ok, pre, rest. split_and!; [done|done|apply NoDup_filter, NoDup_btree|apply StronglySorted_filter, btree_sorted| |done|done| |].
  - intros t k. by apply due_spec.
  - intros k m. rewrite H3. eapply fired_due; [done|]. rewrite H1. set_solver.
  - destruct rest as [|x rest].
    + split; [done|]. intros k. rewrite H5. cbn [take]. rewrite app_nil_r in *. rewrite <- H1.
      assert (k ∈ (due st now).*2 ↔ ∃ e, sm_get (entries st) k = Some e ∧ at_ e ≤ now) as Hk.
      { rewrite list_elem_of_fmap. split.
        - intros ([t k'] & -> & (Ht & m & Hm)%due_spec); [|done]. by exists (mkTimerEntry t m).
        - intros ([t m] & Hm & Ht). exists (t, k). split; [done|]. apply due_spec; eauto. }
      case_decide as Hd; rewrite Hk in Hd.
      * destruct Hd as (e & -> & Ht). by rewrite (proj2 (Z.leb_le _ _) Ht).
      * destruct (sm_get (entries st) k) as [e|]; [|done]. destruct (Z.leb_spec (at_ e) now); [|done]. destruct Hd. eauto.
    + destruct H4 as [-> Hx]. split_and!; [done|done|]. intros k. rewrite H5. cbn [take]. rewrite fmap_app. repeat case_decide; set_solver.
Qed.

(** cancelling gives the message back exactly when it is still scheduled, and
    takes it out of the schedule: no later waking-up sends it under that key, and
    the deadlines of the others are unaffected. *)
Theorem timer_cancel st h k replied sent : timer_reachable st →
  ∃ st', timer_turn st (EvCancel h k) replied sent =
           Ret (st', [CanceledOneshot h (message <$> sm_get (entries st) k)], replied) ∧
    (∀ k', sm_get (entries st') k' = if decide (k' = k) then None else sm_get (entries st) k') ∧
    (∀ t k', (t, k') ∈ ordered st' ↔ (t, k') ∈ ordered st ∧ k' ≠ k).
Proof.
  intros Hi%timer_reachable_inv. cbn [timer_turn].
  destruct (sm_get (entries st) k) as [[t m]|] eqn:E.
  - eexists. split; [done|]. cbn. split; [intros; apply sm_get_remove|].
    intros t' k'. rewrite elem_of_difference, elem_of_singleton, (Hi t' k').
    destruct (decide (k' = k)) as [->|]; [|naive_solver]. rewrite E. naive_solver.
  - eexists. split; [done|]. cbn. split; [intros; apply sm_get_remove|].
    intros t' k'. rewrite (Hi t' k'). destruct (decide (k' = k)) as [->|]; [|naive_solver].
    rewrite E. naive_solver.
Qed.

(** ** The client *)
Inductive TimerError := TimerFork | TimerAsk.

(** [OneshotTimer::create]: the addresses of the client's fork and of the server's, which runs [timer_run] from [timer_default]; the second fork is
    asked for only if there is a first. *)
Definition create (client_fork server_fork : result Z unit) : result (Z * Z * TimerState) TimerError :=
  match client_fork with
  | Err _ => Err TimerFork
  | Ok client_ctx => match server_fork with Err _ => Err TimerFork | Ok server_addr => Ok (client_ctx, server_addr, timer_default) end
  end.

(** [OneshotTimer::schedule_once_at]: the server handles the request; [in_time] is whether the reply comes within [ASK_TIMEOUT]. *)
Definition schedule_once_at (st : TimerState) (header : Z) (at_ : Instant) (message : M) (in_time : bool) : outcome (TimerState * result Z TimerError) :=
  '(st, out, _) ← timer_turn st (EvSchedule header at_ message) true (λ _, true);
  Ret (st, match out with ScheduledOneshot _ key :: _ => if in_time then Ok key else Err TimerAsk | _ => Err TimerAsk end).

(** [OneshotTimer::schedule_once_after]: [Instant + Duration] panics at the end of the clock. *)
Definition schedule_once_after (st : TimerState) (header : Z) (now : Instant) (after : Duration) (message : M) (in_time : bool) :
    outcome (TimerState * result Z TimerError) :=
  at_ ← expect (instant_checked_add now after);
  schedule_once_at st header at_ message in_time.

(** [OneshotTimer::cancel] *)
Definition cancel (st : TimerState) (header : Z) (key : Z) (in_time : bool) : outcome (TimerState * result (option M) TimerError) :=
  '(st, out, _) ← timer_turn st (EvCancel header key) true (λ _, true);
  Ret (st, match out with CanceledOneshot _ message :: _ => if in_time then Ok message else Err TimerAsk | _ => Err TimerAsk end).

(** The turns of the server between two calls of a client *)
Inductive timer_runs : TimerState → list Event → TimerState → Prop :=
| trs_nil st : timer_runs st [] st
| trs_cons st ev evs st1 st2 replied sent out :
    timer_turn st ev replied sent = Ret (st1, out, true) → timer_runs st1 evs st2 → timer_runs st (ev :: evs) st2.

(** Turns before the deadline that do not cancel the key *)
Definition leaves (key : Z) (at_ : Instant) (ev : Event) : Prop :=
  match ev with EvTime now => now < at_ | EvCancel _ k => k ≠ key | EvSchedule _ _ _ => True | EvRecvError => True end.

Lemma fire_loop_leaves fuel now sent key t m : now < t → ∀ st st' out ok, timer_inv st → sm_get (entries st) key = Some (mkTimerEntry t m) →
  fire_loop fuel st now sent = Ret (st', out, ok) → sm_get (entries st') key = Some (mkTimerEntry t m).
Proof.
  intros Hlt. induction fuel as [|fuel IH]; intros st st' out ok Hi Hk; cbn [fire_loop]; [by intros [= <- _ _]|].
  destruct (head (btree_elements (ordered st))) as [[d k]|] eqn:Eh; [|by intros [= <- _ _]].
  destruct (Z.ltb_spec now d); [by intros [= <- _ _]|]. intros (e & _ & E)%bind_Ret_inv. cbv zeta in E.
  assert (Hin : (d, k) ∈ ordered st) by (rewrite <- elem_of_btree; destruct (btree_elements (ordered st)); simplify_eq/=; by left).
  assert (Hne : key ≠ k). { intros ->. apply Hi in Hin as [m' Hm']. rewrite Hk in Hm'. simplify_eq. lia. }
  assert (Hk' : sm_get (sm_remove (entries st) k) key = Some (mkTimerEntry t m)) by by rewrite sm_get_remove, decide_False.
  destruct (sent k); [|by injection E as <- _ _]. apply bind_Ret_inv in E as ([[st2 out2] ok2] & E & [= <- _ _]).
  eapply IH; [| |exact E]; [by apply timer_inv_remove|done].
Qed.

Lemma turn_leaves st ev replied sent st' out ok key t m : timer_inv st → sm_get (entries st) key = Some (mkTimerEntry t m) → leaves key t ev →
  timer_turn st ev replied sent = Ret (st', out, ok) → sm_get (entries st') key = Some (mkTimerEntry t m).
Proof.
  intros Hi Hk Hl. destruct ev as [now|h d x|h k|]; cbn [timer_turn leaves] in *; [by apply fire_loop_leaves| | |by intros [= <- _ _]].
  - pose proof (sm_insert_fresh (entries st) (mkTimerEntry d x)) as Hf. pose proof (sm_get_insert (entries st) (mkTimerEntry d x) key) as Hg.
    destruct (sm_insert (entries st) (mkTimerEntry d x)) as [es k]. cbn in Hf, Hg. intros [= <- _ _]. cbn. rewrite Hg. case_decide; [congruence|done].
  - destruct (sm_get (entries st) k) as [[? ?]|]; intros [= <- _ _]; cbn; by rewrite sm_get_remove, decide_False.
Qed.

Lemma runs_leave st evs st' key t m : timer_runs st evs st' → timer_inv st → sm_get (entries st) key = Some (mkTimerEntry t m) → Forall (leaves key t) evs →
  timer_inv st' ∧ sm_get (entries st') key = Some (mkTimerEntry t m).
Proof.
  induction 1 as [st|st ev evs st1 st2 replied sent out E _ IH]; intros Hi Hk Hl; [done|]. apply Forall_cons in Hl as [Hev Hl].
  apply IH; [by eapply timer_turn_inv|by eapply turn_leaves|done].
Qed.

Lemma schedule_ok st h t m : timer_inv st → ∃ st1 key, schedule_once_at st h t m true = Ret (st1, Ok key) ∧ timer_inv st1 ∧
  sm_get (entries st1) key = Some (mkTimerEntry t m).
Proof.
  intros Hi. unfold schedule_once_at. destruct (timer_turn st (EvSchedule h t m) true (λ _, true)) as [[[st1 out] ok]|] eqn:E.
  - pose proof (timer_turn_inv _ _ _ _ _ _ _ Hi E) as Hi1. cbn [timer_turn] in E. pose proof (sm_get_insert (entries st) (mkTimerEntry t m)) as Hg.
    destruct (sm_insert (entries st) (mkTimerEntry t m)) as [es k]. injection E as <- <- _. exists (mkTimer es ({[(t, k)]} ∪ ordered st)), k.
    split_and!; [done|done|]. cbn in *. by rewrite Hg, decide_True.
  - cbn [timer_turn] in E. destruct (sm_insert _ _); done.
Qed.

(** A message scheduled for later stays scheduled: whatever the server does for others until then, the key that was given gets the message back if it
    is used to cancel, and if it is not, the first waking-up at or after the deadline sends it. *)
Theorem schedule_roundtrip st h now after m (Hr : timer_reachable st) (Hc : now + after ≤ INSTANT_MAX) :
  ∃ st1 key, schedule_once_after st h now after m true = Ret (st1, Ok key) ∧
    ∀ evs st2, timer_runs st1 evs st2 → Forall (leaves key (now + after)) evs →
      (∃ st3, cancel st2 h key true = Ret (st3, Ok (Some m))) ∧
      (∀ later, now + after ≤ later → ∃ st3 out, timer_turn st2 (EvTime later) true (λ _, true) = Ret (st3, out, true) ∧ Fired key m ∈ out).
Proof.
  apply timer_reachable_inv in Hr. unfold schedule_once_after, instant_checked_add. rewrite (proj2 (Z.leb_le _ _) Hc). cbn [expect]. rewrite bind_Ret.
  destruct (schedule_ok st h (now + after) m Hr) as (st1 & key & E & Hi1 & Hk). exists st1, key. split; [done|]. intros evs st2 Hrun Hl.
  destruct (runs_leave _ _ _ _ _ _ Hrun Hi1 Hk Hl) as [Hi2 Hk2]. split.
  - unfold cancel. cbn [timer_turn]. rewrite Hk2. by eexists.
  - intros later Hlater. cbn [timer_turn].
    destruct (fire_loop_spec (size (ordered st2)) st2 later (λ _, true)) as (st3 & out & ok & pre & rest & -> & [H1 H2 -> H4 _]); [done|done|].
    destruct rest as [|x rest]; [|by destruct H4]. subst ok. rewrite app_nil_r in H1. subst pre. eexists _, _. split; [done|].
    eapply fired_due; [done|done|]. exists (now + after). split; [|done]. apply due_spec; eauto.
Qed.

End Timer.

(** ** Runs *)
#[local] Existing Instance gmap_slot_map.

(** Two messages, due at 10 and at 20. *)
Definition two_timers : TimerState (M := Z) (SM := gmap Z) :=
  mkTimer (<[0 := mkTimerEntry 20 200]> {[1 := mkTimerEntry 10 100]}) {[(20, 0); (10, 1)]}.

Lemma two_timers_reachable : timer_reachable two_timers.
Proof.
  eapply (tr_step _ (EvSchedule 0 10 100) true (λ _, true)).
  - eapply (tr_step _ (EvSchedule 0 20 200) true (λ _, true)); [constructor|]. vm_compute. reflexivity.
  - vm_compute. reflexivity.
Qed.

(** At 25 both are due; the second cannot be sent. *)
Lemma timer_fires_due_witness : ∃ st' out ok pre rest,
  timer_turn two_timers (EvTime 25) true (λ k, k =? 1) = Ret (st', out, ok) ∧ due two_timers 25 = pre ++ rest ∧
  out = omap (fired_of two_timers) pre ∧ out = [Fired 1 100] ∧ ok = false ∧ sm_get (entries st') 0 = None.
Proof.
  destruct (timer_fires_due two_timers 25 true (λ k, k =? 1) two_timers_reachable) as (st' & out & ok & pre & rest & E & Hd & _ & _ & _ & Ho & _).
  exists st', out, ok, pre, rest. split; [exact E|]. split; [exact Hd|]. split; [exact Ho|]. vm_compute in E. injection E as <- <- <-. repeat split.
Defined.

Lemma timer_cancel_witness : ∃ st',
  timer_turn two_timers (EvCancel 5 1) true (λ _, true) =
    Ret (st', [CanceledOneshot 5 (message <$> sm_get (entries two_timers) 1)], true) ∧
  (∀ k', sm_get (entries st') k' = if decide (k' = 1) then None else sm_get (entries two_timers) k') ∧
  (∀ t k', (t, k') ∈ ordered st' ↔ (t, k') ∈ ordered two_timers ∧ k' ≠ 1).
Proof. exact (timer_cancel two_timers 5 1 true (λ _, true) two_timers_reachable). Defined.

Example timer_fires_first :
  (λ '(_, out, _), out) <$> match timer_turn two_timers (EvTime 15) true (λ _, true) with Ret x => Some x | Panic => None end
  = Some [Fired 1 100].
Proof. vm_compute. reflexivity. Qed.

Lemma schedule_roundtrip_witness : ∃ st1 key, schedule_once_after two_timers 0 5 7 300 true = Ret (st1, Ok key) ∧
  ∃ st3, cancel st1 0 key true = Ret (st3, Ok (Some 300)).
Proof.
  destruct (schedule_roundtrip two_timers 0 5 7 300 two_timers_reachable) as (st1 & key & E & H); [vm_compute; discriminate|].
  exists st1, key. split; [exact E|]. exact (proj1 (H [] st1 (trs_nil st1) (Forall_nil_2 _))).
Defined.
