(* ===== verification/Registry.v ===== *)
(** * The registry of address ranges and mailboxes (core/mm1-node/src/registry.rs)

    Maps the address range of each subnet to the mailbox of its actor. The ranges
    are the keys of a tree whose order treats overlapping ranges as equal; the
    tree is a library, here an interface with its documented laws. *)

From S2P Require Import Prelude U64 Address Subnet.

Open Scope Z_scope.

(** ** The tree *)
Class TreeIndex (TI : Type → Type) := {
  ti_empty {N} : TI N;
  ti_entries {N} : TI N → list (AddressRange * N);
  ti_insert {N} : TI N → AddressRange → N → option (TI N);
  ti_peek {N} : TI N → AddressRange → option (AddressRange * N);
  ti_remove {N} : TI N → AddressRange → option (TI N);
  ti_entries_empty {N} : ti_entries (N := N) ti_empty = [];
  (** a key equal to a stored one is refused *)
  ti_insert_some {N} (t t' : TI N) r n : ti_insert t r n = Some t' →
    Forall (λ e, range_cmp r e.1 ≠ Eq) (ti_entries t) ∧ ti_entries t' ≡ₚ (r, n) :: ti_entries t;
  ti_insert_none {N} (t : TI N) r n : ti_insert t r n = None →
    ∃ e, e ∈ ti_entries t ∧ range_cmp r e.1 = Eq;
  (** a stored key equal to the sought one is found *)
  ti_peek_some {N} (t : TI N) r e : ti_peek t r = Some e → e ∈ ti_entries t ∧ range_cmp r e.1 = Eq;
  ti_peek_none {N} (t : TI N) r : ti_peek t r = None → Forall (λ e, range_cmp r e.1 ≠ Eq) (ti_entries t);
  ti_remove_some {N} (t t' : TI N) r : ti_remove t r = Some t' →
    ∃ e, range_cmp r e.1 = Eq ∧ ti_entries t ≡ₚ e :: ti_entries t';
  ti_remove_none {N} (t : TI N) r : ti_remove t r = None → Forall (λ e, range_cmp r e.1 ≠ Eq) (ti_entries t);
}.

(** A tree with these laws exists: a list of entries. *)
Section ListTree.
Context {N : Type}.

Fixpoint list_peek (l : list (AddressRange * N)) (r : AddressRange) : option (AddressRange * N) :=
  match l with
  | [] => None
  | e :: l => if range_eqb r e.1 then Some e else list_peek l r
  end.

Fixpoint list_remove (l : list (AddressRange * N)) (r : AddressRange) : option (list (AddressRange * N)) :=
  match l with
  | [] => None
  | e :: l => if range_eqb r e.1 then Some l else (λ l, e :: l) <$> list_remove l r
  end.

Lemma range_eqb_true r s : range_eqb r s = true ↔ range_cmp r s = Eq.
Proof. unfold range_eqb. by destruct (range_cmp r s). Qed.

Lemma range_eqb_false r s : range_eqb r s = false ↔ range_cmp r s ≠ Eq.
Proof. rewrite <- range_eqb_true. by destruct (range_eqb r s). Qed.

Lemma list_peek_some l r e : list_peek l r = Some e → e ∈ l ∧ range_cmp r e.1 = Eq.
Proof.
  induction l as [|x l IH]; cbn; [done|]. destruct (range_eqb r x.1) eqn:E.
  - intros [= <-]. split; [by left|]. by apply range_eqb_true.
  - intros [Hin He]%IH. split; [by right|done].
Qed.

Lemma list_peek_none l r : list_peek l r = None → Forall (λ e, range_cmp r e.1 ≠ Eq) l.
Proof.
  induction l as [|x l IH]; cbn; [done|]. destruct (range_eqb r x.1) eqn:E; [done|].
  intros H. constructor; [by apply range_eqb_false|by apply IH].
Qed.

Lemma list_remove_some l r l' : list_remove l r = Some l' → ∃ e, range_cmp r e.1 = Eq ∧ l ≡ₚ e :: l'.
Proof.
  revert l'. induction l as [|x l IH]; intros l'; cbn; [done|]. destruct (range_eqb r x.1) eqn:E.
  - intros [= <-]. exists x. split; [by apply range_eqb_true|done].
  - intros (l1 & (e & He & Hp)%IH & ->)%fmap_Some. exists e. split; [done|]. rewrite Hp. apply Permutation_swap.
Qed.

Lemma list_remove_none l r : list_remove l r = None → Forall (λ e, range_cmp r e.1 ≠ Eq) l.
Proof.
  induction l as [|x l IH]; cbn; [done|]. destruct (range_eqb r x.1) eqn:E; [done|].
  intros H%fmap_None. constructor; [by apply range_eqb_false|by apply IH].
Qed.

End ListTree.

Definition ListIndex (N : Type) : Type := list (AddressRange * N).

Definition list_tree_index : TreeIndex ListIndex.
Proof.
  refine {|
    ti_empty := λ N, [];
    ti_entries := λ N l, l;
    ti_insert := λ N (l : ListIndex N) r n, match list_peek l r with Some _ => None | None => Some ((r, n) :: l) end;
    ti_peek := λ N, list_peek;
    ti_remove := λ N, list_remove;
  |}.
  - done.
  - intros N t t' r n. destruct (list_peek t r) eqn:E; [done|]. intros [= <-].
    split; [by apply list_peek_none|done].
  - intros N t r n. destruct (list_peek t r) as [e|] eqn:E; [|done]. intros _. exists e. by apply list_peek_some.
  - intros N. apply list_peek_some.
  - intros N. apply list_peek_none.
  - intros N t t' r. apply list_remove_some.
  - intros N. apply list_remove_none.
Defined.

(** ** The registry *)
Section Registry.
Context {TI : Type → Type} `{TreeIndex TI} {N : Type}.

(** [Registry::register]: the node comes back if the range is taken. *)
Definition register (networks : TI N) (subnet : NetAddress) (node : N) : outcome (TI N * result unit N) :=
  range ← range_from_net subnet;
  Ret match ti_insert networks range node with
      | Some networks => (networks, Ok tt)
      | None => (networks, Err node)
      end.

(** [Registry::unregister] *)
Definition unregister (networks : TI N) (subnet : NetAddress) : outcome (TI N * bool) :=
  sought_range ← range_from_net subnet;
  Ret match ti_peek networks sought_range with
      | None => (networks, false)
      | Some (found_range, _) =>
          if negb (range_eqb found_range sought_range) then (networks, false)
          else match ti_remove networks sought_range with
               | Some networks => (networks, true)
               | None => (networks, false)
               end
      end.

(** [Registry::lookup] *)
Definition lookup_ (networks : TI N) (address : Address) : outcome (option N) :=
  range ← range_from_address address;
  Ret (snd <$> ti_peek networks range).

(** ** The invariant: ranges do not overlap *)
Fixpoint ranges_disjoint (l : list (AddressRange * N)) : Prop :=
  match l with
  | [] => True
  | e :: l => Forall (λ e', range_cmp e.1 e'.1 ≠ Eq) l ∧ ranges_disjoint l
  end.

Definition reg_inv (networks : TI N) : Prop :=
  Forall (λ e, range_ok e.1) (ti_entries networks) ∧ ranges_disjoint (ti_entries networks).

Lemma range_cmp_sym r s : range_cmp r s = Eq ↔ range_cmp s r = Eq.
Proof.
  unfold range_cmp. rewrite (Z.compare_antisym (lo r) (hi s)), (Z.compare_antisym (hi r) (lo s)).
  by destruct (hi r ?= lo s), (lo r ?= hi s).
Qed.

#[export] Instance ranges_disjoint_proper : Proper ((≡ₚ) ==> iff) ranges_disjoint.
Proof.
  assert (Himp : ∀ l l', l ≡ₚ l' → ranges_disjoint l → ranges_disjoint l').
  { induction 1 as [|x l l' Hp IH|x y l|]; cbn; [done| | |auto].
    - intros [H1 H2]. split; [by rewrite <- Hp|auto].
    - intros (H1 & H2 & H3). apply Forall_cons in H1 as [H1 H1']. split_and!; try done.
      constructor; [|done]. by rewrite range_cmp_sym. }
  intros l l' Hp. split; by apply Himp.
Qed.

Lemma disjoint_cons e l : ranges_disjoint (e :: l) ↔ Forall (λ e', range_cmp e.1 e'.1 ≠ Eq) l ∧ ranges_disjoint l.
Proof. done. Qed.

(** Two stored ranges with a common address are the same entry. *)
Lemma disjoint_unique l e e' x : Forall (λ e, range_ok e.1) l → ranges_disjoint l → e ∈ l → e' ∈ l →
  range_contains e.1 x → range_contains e'.1 x → e = e'.
Proof.
  intros Hok Hd He He' Hx Hx'. induction l as [|y l IH]; [by apply elem_of_nil in He|].
  apply Forall_cons in Hok as [Hy Hok]. destruct Hd as [H1 H2]. rewrite Forall_forall in H1, Hok.
  assert (Hover : ∀ z, z ∈ l → range_contains y.1 x → range_contains z.1 x → False).
  { intros z Hz Hyx Hzx. apply (H1 z Hz). apply range_cmp_eq_overlap; [done|by apply Hok|]. eauto. }
  apply elem_of_cons in He as [->|He], He' as [->|He']; try done.
  - by destruct (Hover e').
  - by destruct (Hover e).
  - apply IH; try done. by apply Forall_forall.
Qed.

Lemma register_inv networks subnet node networks' r : reg_inv networks →
  register networks subnet node = Ret (networks', r) → reg_inv networks'.
Proof.
  intros [Hok Hd] (range & Hr & E)%bind_Ret_inv.
  destruct (ti_insert networks range node) as [t|] eqn:Ei; simplify_eq; [|done].
  apply ti_insert_some in Ei as [Hf Hp].
  assert (Hro : range_ok range).
  { apply bind_Ret_inv in Hr as (? & Ha%assert_Ret_inv & [= <-]). unfold range_ok. cbn. lia. }
  split; rewrite Hp; [by constructor|]. by split.
Qed.

Lemma unregister_inv networks subnet networks' b : reg_inv networks →
  unregister networks subnet = Ret (networks', b) → reg_inv networks'.
Proof.
  intros [Hok Hd] (range & Hr & E)%bind_Ret_inv.
  destruct (ti_peek networks range) as [[fr n]|]; [|by simplify_eq].
  destruct (negb _); [by simplify_eq|].
  destruct (ti_remove networks range) as [t|] eqn:Er; simplify_eq; [|done].
  apply ti_remove_some in Er as (e & _ & Hp). unfold reg_inv. rewrite Hp in Hok, Hd.
  apply Forall_cons in Hok as [_ Hok]. by destruct Hd.
Qed.

(** The registries that calls lead to. *)
Inductive reg_reachable : TI N → Prop :=
| reg_init : reg_reachable ti_empty
| reg_register t subnet node t' r :
    reg_reachable t → register t subnet node = Ret (t', r) → reg_reachable t'
| reg_unregister t subnet t' b :
    reg_reachable t → unregister t subnet = Ret (t', b) → reg_reachable t'.

Lemma reg_reachable_inv t : reg_reachable t → reg_inv t.
Proof.
  induction 1; [|by eapply register_inv|by eapply unregister_inv].
  unfold reg_inv. rewrite ti_entries_empty. by split.
Qed.

(** ** Lookups *)
#[local] Instance range_contains_dec r x : Decision (range_contains r x).
Proof. unfold range_contains. apply _. Defined.

Lemma lookup_spec t a : reg_inv t → ∃ o, lookup_ t a = Ret o ∧ ∀ n, o = Some n ↔ ∃ r, (r, n) ∈ ti_entries t ∧ range_contains r a.
Proof.
  intros [Hok Hd]. pose proof Hok as Hok'. rewrite Forall_forall in Hok'.
  unfold lookup_, range_from_address, range_new. rewrite Z.leb_refl. cbn [assert_]. rewrite !bind_Ret.
  eexists. split; [done|]. intros n.
  assert (Ha : range_ok (mkRange a a)) by (unfold range_ok; cbn; lia).
  assert (Hc : ∀ e, e ∈ ti_entries t → range_cmp (mkRange a a) e.1 = Eq ↔ range_contains e.1 a).
  { intros e He. rewrite range_cmp_eq by auto. unfold range_contains. cbn. lia. }
  destruct (ti_peek t (mkRange a a)) as [e|] eqn:Ep.
  + apply ti_peek_some in Ep as [He Heq]. apply Hc in Heq; [|done]. cbn. split.
    * intros [= <-]. destruct e as [r m]. eauto.
    * intros (r & Hin & Hr). by rewrite (disjoint_unique _ _ _ a Hok Hd He Hin Heq Hr).
  + apply ti_peek_none in Ep. rewrite Forall_forall in Ep. cbn. split; [done|].
    intros (r & Hin & Hr). destruct (Ep _ Hin). by apply Hc.
Qed.

Lemma lookup_some t a n : reg_inv t → lookup_ t a = Ret (Some n) ↔ ∃ r, (r, n) ∈ ti_entries t ∧ range_contains r a.
Proof. intros Hi. destruct (lookup_spec t a Hi) as (o & -> & Ho). rewrite <- Ho. split; [by intros [= ->]|by intros ->]. Qed.

Lemma lookup_none t a : reg_inv t → lookup_ t a = Ret None ↔ ∀ e, e ∈ ti_entries t → ¬ range_contains e.1 a.
Proof.
  intros Hi. destruct (lookup_spec t a Hi) as (o & -> & Ho). split.
  - intros [= ->] [r n] He Hr. assert (None = Some n) as [=]. apply Ho. by exists r.
  - intros Hno. destruct o as [n|]; [|done]. destruct (proj1 (Ho n) eq_refl) as (r & He & Hr). by destruct (Hno _ He).
Qed.

(** Registries with the same entries that contain [a] answer alike. *)
Lemma lookup_frame t t' a : reg_inv t → reg_inv t' →
  (∀ e, range_contains e.1 a → e ∈ ti_entries t ↔ e ∈ ti_entries t') → lookup_ t a = lookup_ t' a.
Proof.
  intros Hi Hi' He. destruct (lookup_spec t a Hi) as (o & -> & Ho), (lookup_spec t' a Hi') as (o' & -> & Ho'). f_equal.
  apply option_eq. intros n. rewrite Ho, Ho'. split; intros (r & Hin & Hr); exists r; (split; [by apply He|done]).
Qed.

Lemma net_range_ok subnet range : range_from_net subnet = Ret range → range_ok range.
Proof. intros (? & Hle%assert_Ret_inv & [= <-])%bind_Ret_inv. unfold range_ok. cbn. lia. Qed.

(** What registering does to lookups *)
Lemma register_spec t subnet range node : reg_inv t → range_from_net subnet = Ret range →
  ((∀ x, range_contains range x → lookup_ t x = Ret None) → ∃ t', register t subnet node = Ret (t', Ok tt) ∧
     ∀ x, lookup_ t' x = if decide (range_contains range x) then Ret (Some node) else lookup_ t x) ∧
  (∀ x n, range_contains range x → lookup_ t x = Ret (Some n) → register t subnet node = Ret (t, Err node)).
Proof.
  intros Hi Hr. pose proof (net_range_ok _ _ Hr) as Hro. pose proof Hi as [Hok _]. rewrite Forall_forall in Hok.
  pose proof (register_inv t subnet node) as Hi'. revert Hi'. unfold register. rewrite Hr, bind_Ret. intros Hi'.
  destruct (ti_insert t range node) as [t1|] eqn:Ei.
  - apply ti_insert_some in Ei as [Hf Hp]. rewrite Forall_forall in Hf. specialize (Hi' _ _ Hi eq_refl). split.
    + intros _. exists t1. split; [done|]. intros x. case_decide as Hx.
      * apply lookup_some; [done|]. exists range. split; [rewrite Hp; by left|done].
      * apply lookup_frame; [done|done|]. intros e He. rewrite Hp, elem_of_cons. split; [intros [->|?]; done|auto].
    + intros x n Hx (r & He & Hrx)%lookup_some; [|done]. destruct (Hf _ He). apply range_cmp_eq_overlap; [done|by apply (Hok _ He)|]. eauto.
  - apply ti_insert_none in Ei as (e & He & Heq). split; [|done]. intros Hno. exfalso.
    apply range_cmp_eq_overlap in Heq as (x & Hx & Hx'); [|done|by apply Hok].
    pose proof (proj1 (lookup_none t x Hi) (Hno x Hx) e He). done.
Qed.

(** What unregistering does to lookups: it takes out one range that overlaps the one given, the very one if it is registered. *)
Lemma unregister_spec t subnet range : reg_inv t → range_from_net subnet = Ret range →
  ((∀ x, range_contains range x → lookup_ t x = Ret None) → unregister t subnet = Ret (t, false)) ∧
  (∀ x n, range_contains range x → lookup_ t x = Ret (Some n) → ∃ t' e, unregister t subnet = Ret (t', true) ∧
     e ∈ ti_entries t ∧ range_cmp range e.1 = Eq ∧ (∀ m, (range, m) ∈ ti_entries t → e = (range, m)) ∧
     ∀ y, lookup_ t' y = if decide (range_contains e.1 y) then Ret None else lookup_ t y).
Proof.
  intros Hi Hr. pose proof (net_range_ok _ _ Hr) as Hro. pose proof Hi as [Hok Hd]. pose proof Hok as Hok'. rewrite Forall_forall in Hok'.
  pose proof (unregister_inv t subnet) as Hi'. revert Hi'. unfold unregister. rewrite Hr, bind_Ret. intros Hi'.
  destruct (ti_peek t range) as [[fr m]|] eqn:Ep.
  - apply ti_peek_some in Ep as [He Heq]. cbn in Heq. apply range_cmp_eq_overlap in Heq as Hov; [|done|by apply (Hok' _ He)]. destruct Hov as (x & Hx & Hx').
    split; [intros Hno; by destruct (proj1 (lookup_none t x Hi) (Hno x Hx) _ He)|]. intros _ _ _ _.
    replace (range_eqb fr range) with true in * by (symmetry; apply range_eqb_true; by apply range_cmp_sym). cbn [negb] in *.
    destruct (ti_remove t range) as [t1|] eqn:Er; [|apply ti_remove_none in Er; rewrite Forall_forall in Er; by destruct (Er _ He)].
    specialize (Hi' _ _ Hi eq_refl). apply ti_remove_some in Er as (e & Hee & Hp). exists t1, e.
    assert (Hin : e ∈ ti_entries t) by (rewrite Hp; by left). split_and!; [done|done|done| |].
    + intros m' Hm. apply range_cmp_eq_overlap in Hee as (y & Hy & Hy'); [|done|by apply (Hok' _ Hin)]. by apply (disjoint_unique _ _ _ y Hok Hd).
    + intros y. case_decide as Hy.
      * apply lookup_none; [done|]. intros e' He' Hy'. rewrite Hp in Hd. destruct Hd as [Hd _]. rewrite Forall_forall in Hd. apply (Hd e' He').
        apply range_cmp_eq_overlap; [by apply Hok'|apply Hok'; rewrite Hp; by right|]. eauto.
      * apply lookup_frame; [done|done|]. intros e' Hy'. rewrite Hp, elem_of_cons. split; [auto|intros [->|?]; done].
  - apply ti_peek_none in Ep. rewrite Forall_forall in Ep. split; [done|]. intros x n Hx (r & He & Hrx)%lookup_some; [|done].
    destruct (Ep _ He). apply range_cmp_eq_overlap; [done|by apply (Hok' _ He)|]. eauto.
Qed.

(** C29: the registry routes unambiguously. In every reachable registry an address
    lies in at most one registered range, and looking it up finds the node of that
    range, or nothing when there is none. If no address of a subnet finds anything, registering a node for it succeeds,
    and from then on the addresses of the subnet find that node, and all others what they found before; if one does, the node is
    refused and the registry is as it was. Unregistering a subnet none of whose addresses finds anything changes nothing and says so; otherwise one registered range
    goes, the subnet's own if it is registered and else one that overlaps it, its addresses find nothing and all others what they found before. *)
Theorem registry_routes t : reg_reachable t →
  (∀ a, ∃ o, lookup_ t a = Ret o ∧
     ∀ n, o = Some n ↔ ∃ r, (r, n) ∈ ti_entries t ∧ range_contains r a) ∧
  (∀ a e e', e ∈ ti_entries t → e' ∈ ti_entries t → range_contains e.1 a → range_contains e'.1 a → e = e') ∧
  ∀ subnet range, range_from_net subnet = Ret range →
    ((∀ x, range_contains range x → lookup_ t x = Ret None) →
       (∀ node, ∃ t', register t subnet node = Ret (t', Ok tt) ∧
          ∀ x, lookup_ t' x = if decide (range_contains range x) then Ret (Some node) else lookup_ t x) ∧
       unregister t subnet = Ret (t, false)) ∧
    (∀ x n, range_contains range x → lookup_ t x = Ret (Some n) →
       (∀ node, register t subnet node = Ret (t, Err node)) ∧
       ∃ t' e, unregister t subnet = Ret (t', true) ∧ e ∈ ti_entries t ∧ range_cmp range e.1 = Eq ∧ (∀ m, (range, m) ∈ ti_entries t → e = (range, m)) ∧
         ∀ y, lookup_ t' y = if decide (range_contains e.1 y) then Ret None else lookup_ t y).
Proof.
  intros Hi%reg_reachable_inv. split_and!.
  - intros a. by apply lookup_spec.
  - intros a e e' He He'. destruct Hi. by eapply disjoint_unique.
  - intros subnet range Hr. pose proof (unregister_spec t subnet range Hi Hr) as [Hu1 Hu2]. split.
    + intros Hno. split; [intros node; by apply (register_spec t subnet range node Hi Hr)|by apply Hu1].
    + intros x n Hx Hl. split; [intros node; by eapply (register_spec t subnet range node Hi Hr)|by eapply Hu2].
Qed.

(** unregistering a subnet also takes away a registered range that merely
    overlaps it: the check that the found range is the sought one compares with
    the overlap order and so never fails. In a reachable registry every overlapping
    entry suffices for the call to report success. *)
Theorem unregister_overlap t subnet range : reg_reachable t → range_from_net subnet = Ret range →
  ∃ t' b, unregister t subnet = Ret (t', b) ∧
    (b = true ↔ ∃ e, e ∈ ti_entries t ∧ range_cmp range e.1 = Eq) ∧
    (b = true → ∃ e, range_cmp range e.1 = Eq ∧ ti_entries t ≡ₚ e :: ti_entries t').
Proof.
  intros _ Hr. unfold unregister. rewrite Hr, bind_Ret.
  destruct (ti_peek t range) as [[fr n]|] eqn:Ep.
  - apply ti_peek_some in Ep as [He Heq]. cbn in Heq.
    replace (range_eqb fr range) with true by (symmetry; apply range_eqb_true; by apply range_cmp_sym). cbn [negb].
    destruct (ti_remove t range) as [t1|] eqn:Er.
    + apply ti_remove_some in Er. eexists _, _. split; [done|]. split; [|done]. split; [eauto|done].
    + apply ti_remove_none in Er. rewrite Forall_forall in Er. by destruct (Er _ He).
  - apply ti_peek_none in Ep. rewrite Forall_forall in Ep. eexists _, _. split; [done|]. split; [|done].
    split; [done|]. intros (e & He & Heq). by destruct (Ep e He).
Qed.

End Registry.

(** ** Mailboxes

    [struct Node]: the inbox of an actor has a lane for ordinary messages, bounded
    by a semaphore, and an unbounded priority lane. A queued ordinary message holds
    a permit, which it gives back when it is taken out. *)
Section Mailbox.
Context {M : Type}.

Record Mailbox := mkMailbox {
  inbox_size : nat;
  permits : nat;
  regular : list (Address * M);
  prioritized : list (Address * M);
  receiver_alive : bool;
}.

Definition node_new (inbox_size : nat) : Mailbox := mkMailbox inbox_size inbox_size [] [] true.

(** [Node::send]: the mailbox after it, and whether it succeeded. *)
Definition node_send (mb : Mailbox) (to : Address) (priority : bool) (message : M) : Mailbox * bool :=
  if priority then
    if receiver_alive mb
    then (mkMailbox (inbox_size mb) (permits mb) (regular mb) (prioritized mb ++ [(to, message)]) true, true)
    else (mb, false)
  else
    match permits mb with
    | O => (mb, false)
    | S permits =>
        if receiver_alive mb
        then (mkMailbox (inbox_size mb) permits (regular mb ++ [(to, message)]) (prioritized mb) true, true)
        else (mb, false)
    end.

(** A message is taken from a lane. *)
Definition take_regular (mb : Mailbox) : Mailbox * option (Address * M) :=
  match regular mb with
  | [] => (mb, None)
  | x :: l => (mkMailbox (inbox_size mb) (S (permits mb)) l (prioritized mb) (receiver_alive mb), Some x)
  end.

Definition take_priority (mb : Mailbox) : Mailbox * option (Address * M) :=
  match prioritized mb with
  | [] => (mb, None)
  | x :: l => (mkMailbox (inbox_size mb) (permits mb) (regular mb) l (receiver_alive mb), Some x)
  end.

Inductive mailbox_reachable (n : nat) : Mailbox → Prop :=
| mb_new : mailbox_reachable n (node_new n)
| mb_send mb to p m : mailbox_reachable n mb → mailbox_reachable n (node_send mb to p m).1
| mb_take_regular mb : mailbox_reachable n mb → mailbox_reachable n (take_regular mb).1
| mb_take_priority mb : mailbox_reachable n mb → mailbox_reachable n (take_priority mb).1.

Lemma mailbox_inv n mb : mailbox_reachable n mb → (permits mb + length (regular mb) = n)%nat ∧ receiver_alive mb = true.
Proof.
  induction 1 as [|mb to p m _ IH|mb _ IH|mb _ IH]; cbn; [by rewrite Nat.add_0_r| | |].
  - unfold node_send. destruct IH as [IH Ha]. rewrite Ha. destruct p; cbn; [done|].
    destruct (permits mb) as [|k] eqn:E; cbn; [by rewrite E, Ha|]. rewrite length_app. cbn. split; [lia|done].
  - unfold take_regular. destruct (regular mb) as [|x l] eqn:E; cbn in *; [by rewrite E|]. split; [lia|]. by destruct IH.
  - unfold take_priority. by destruct (prioritized mb).
Qed.

(** back-pressure: however messages are sent and taken, the ordinary lane
    never holds more than the configured number of messages; an ordinary send is
    refused exactly when that number is reached, and a priority send never is. *)
Theorem mailbox_bounded n mb to m : mailbox_reachable n mb →
  (length (regular mb) ≤ n)%nat ∧
  ((node_send mb to false m).2 = false ↔ length (regular mb) = n) ∧
  (node_send mb to true m).2 = true.
Proof.
  intros [Hi Ha]%mailbox_inv. split_and!; [lia| |].
  - unfold node_send. rewrite Ha. destruct (permits mb); cbn; split; try done; lia.
  - unfold node_send. by rewrite Ha.
Qed.

End Mailbox.

(** ** Runs *)
#[local] Existing Instance list_tree_index.

(** The subnet <ff00:>/8 is registered, and nothing else. *)
Definition one_net : ListIndex Z := [(mkRange 0xFF00000000000000 0xFFFFFFFFFFFFFFFF, 1)].
Definition big : NetAddress := mkNet 0xFF00000000000000 8.
Definition sub : NetAddress := mkNet 0xFF00000000000000 16.

Lemma one_net_reachable : reg_reachable one_net.
Proof. eapply (reg_register (ti_empty : ListIndex Z) big 1); [constructor|]. vm_compute. reflexivity. Qed.

Lemma registry_routes_witness : lookup_ one_net 0xFF00000000000005 = Ret (Some 1) ∧ register one_net sub 2 = Ret (one_net, Err 2) ∧
  ∃ t', register one_net (mkNet 0 8) 3 = Ret (t', Ok tt) ∧ lookup_ t' 9 = Ret (Some 3).
Proof.
  destruct (registry_routes one_net one_net_reachable) as (_ & _ & H). split; [vm_compute; reflexivity|]. split.
  - apply (proj2 (H sub (mkRange 0xFF00000000000000 0xFF00FFFFFFFFFFFF) ltac:(vm_compute; reflexivity)) 0xFF00000000000005 1); [split; cbn; lia|vm_compute; reflexivity].
  - destruct (proj1 (H (mkNet 0 8) (mkRange 0 0x00FFFFFFFFFFFFFF) ltac:(vm_compute; reflexivity))) as [Hreg _].
    + intros x [Hlo Hhi]. cbn in Hlo, Hhi. apply (lookup_none one_net x (reg_reachable_inv _ one_net_reachable)).
      intros e ->%list_elem_of_singleton [? ?]. cbn in *. lia.
    + destruct (Hreg 3) as (t' & E & Ht). exists t'. split; [exact E|]. rewrite Ht, decide_True by (split; cbn; lia). reflexivity.
Defined.

(** Unregistering a part of the subnet removes it whole. *)
Lemma unregister_overlap_witness : ∃ t' b, unregister one_net sub = Ret (t', b) ∧
  (b = true ↔ ∃ e, e ∈ ti_entries one_net ∧ range_cmp (mkRange 0xFF00000000000000 0xFF00FFFFFFFFFFFF) e.1 = Eq) ∧
  (b = true → ∃ e, range_cmp (mkRange 0xFF00000000000000 0xFF00FFFFFFFFFFFF) e.1 = Eq ∧ ti_entries one_net ≡ₚ e :: ti_entries t').
Proof. refine (unregister_overlap one_net sub _ one_net_reachable _). vm_compute. reflexivity. Defined.

Example unregister_sub_removes_all :
  unregister one_net sub = Ret ([], true).
Proof. vm_compute. reflexivity. Qed.

Lemma mailbox_bounded_witness : (node_send (node_send (node_new 1) 5 false 0).1 5 false 0).2 = false.
Proof.
  apply (mailbox_bounded 1 (node_send (node_new 1) 5 false 0).1 5 0); [|done].
  apply mb_send, mb_new.
Defined.
