(* ===== verification/Routes.v ===== *)
(** * The route registry (components/mm1-multinode/src/route_registry.rs)

    Where messages for a net go: which gateways reach it, for which type of
    message and at which distance. Three tables hold the same routes; both the
    manager and every connection and ingress worker keep a registry of their own.

    The trees are ordered by address ranges that compare equal when they overlap. The
    theorems are about an address plan: nets that are canonical and disjoint. *)

From S2P Require Import Prelude U64 Address Subnet Collections Btree.

Open Scope Z_scope.

(** [RouteMetric = u8] and the slot-map keys *)
Definition RouteMetric : Type := Z.
Definition LocalTypeKey : Type := Z.
Definition RouteKey : Type := Z.

Definition MAX_CANDIDATES : nat := 4.

Record RouteEntry := mkRoute {
  message : LocalTypeKey;
  dst_net : NetAddress;
  gw : option Address;
  metric : RouteMetric;
}.

Inductive SetRouteError := Conflict (n : NetAddress).
Inductive FindRouteError := NoRoute.

(** The keys of the two trees, and their derived orders *)
Definition GwKey : Type := option Address * AddressRange * LocalTypeKey.
Definition DstKey : Type := AddressRange * LocalTypeKey * RouteMetric.

#[export] Instance GwKey_eq_dec : EqDecision GwKey.
Proof. unfold GwKey. apply _. Defined.
#[export] Instance DstKey_eq_dec : EqDecision DstKey.
Proof. unfold DstKey. apply _. Defined.

Definition gw_cmp : GwKey → GwKey → comparison := pair_cmp (pair_cmp (option_cmp Z.compare) range_cmp) Z.compare.
Definition dst_cmp : DstKey → DstKey → comparison := pair_cmp (pair_cmp range_cmp Z.compare) Z.compare.

Section Routes.
Context {SM : Type → Type} `{SlotMap SM} `{HashSetOrder}.

Record RouteRegistry := mkRoutes {
  route_entries : SM RouteEntry;
  by_gw : BTreeMap GwKey RouteKey;
  by_dst : BTreeMap DstKey (gset RouteKey);
}.

Definition registry_default : RouteRegistry := mkRoutes sm_empty [] [].

(** [RouteRegistry::all_routes] *)
Definition all_routes (reg : RouteRegistry) : list RouteEntry := (sm_drain (route_entries reg)).*2.

(** [RouteRegistry::all_routes_by_gw] *)
Definition all_routes_by_gw (reg : RouteRegistry) (sought_gw : Address) : list (LocalTypeKey * NetAddress * RouteMetric) :=
  omap (λ '(_, e), if decide (gw e = Some sought_gw) then Some (message e, dst_net e, metric e) else None)
    (sm_drain (route_entries reg)).

(** [NetAddress::from(range) == net_address], of the key of an entry *)
Definition is_net (net_address : NetAddress) (e : option (DstKey * gset RouteKey)) : outcome bool :=
  match e with
  | Some ((range, _, _), _) => n ← net_from_range range; Ret (bool_decide (n = net_address))
  | None => Ret false
  end.

(** [RouteRegistry::contains_net]; [default_key] is the null key of the slot map. *)
Definition contains_net (default_key : LocalTypeKey) (reg : RouteRegistry) (net_address : NetAddress) : outcome bool :=
  range ← range_from_net net_address;
  let probe_key : DstKey := (range, default_key, 0) in
  before ← is_net net_address (last (bt_range_to dst_cmp (by_dst reg) probe_key));
  if before : bool then Ret true
  else is_net net_address (head (bt_range_from dst_cmp (by_dst reg) probe_key)).

(** The route picked among the candidates of an entry; [addr_hash] is [DefaultHasher] on addresses. *)
Definition select_route (addr_hash : Address → Z) (reg : RouteRegistry) (dst_addr : Address) (keys : gset RouteKey) :
    outcome (option Address * RouteMetric) :=
  let candidates := take MAX_CANDIDATES (hs_iter keys) in
  assert_ (negb (length candidates =? 0)%nat);;
  selected_key ← expect (candidates !! Z.to_nat (addr_hash dst_addr mod Z.of_nat (length candidates)));
  selected_route ← expect (sm_get (route_entries reg) selected_key);
  Ret (gw selected_route, metric selected_route).

(** [RouteRegistry::find_route] *)
Definition find_route (addr_hash : Address → Z) (reg : RouteRegistry) (msg : LocalTypeKey) (dst_addr : Address) :
    outcome (result (option Address * RouteMetric) FindRouteError) :=
  point ← range_from_address dst_addr;
  match head (bt_range_from dst_cmp (by_dst reg) (point, msg, 0)) with
  | Some ((_, m, _), keys) =>
      if m =? msg then r ← select_route addr_hash reg dst_addr keys; Ret (Ok r) else Ret (Err NoRoute)
  | None => Ret (Err NoRoute)
  end.

(** The existing net of the entry of a key, occupied or vacant: a net other
    than the sought one is a conflict. *)
Definition check_net {K V} (entry : option (K * V)) (range_of : K → AddressRange) (range : AddressRange) (net : NetAddress) :
    outcome (option NetAddress) :=
  existing_address ← net_from_range (match entry with Some (k, _) => range_of k | None => range end);
  Ret (if decide (existing_address = net) then None else Some existing_address).

(** Take a key out of the set of an entry, and the entry out with its last key *)
Definition remove_from_dst (tree : BTreeMap DstKey (gset RouteKey)) (k : DstKey) (key : RouteKey) :
    outcome (BTreeMap DstKey (gset RouteKey)) :=
  keys ← expect (bt_get dst_cmp tree k);
  assert_ (bool_decide (key ∈ keys));;
  let keys := keys ∖ {[ key ]} in
  Ret (if decide (keys = ∅) then bt_remove dst_cmp tree k else bt_insert dst_cmp tree k keys).

(** [entry.or_default().insert(key)] *)
Definition add_to_dst (tree : BTreeMap DstKey (gset RouteKey)) (k : DstKey) (key : RouteKey) :
    BTreeMap DstKey (gset RouteKey) * bool :=
  let keys := default ∅ (bt_get dst_cmp tree k) in
  (bt_insert dst_cmp tree k ({[ key ]} ∪ keys), bool_decide (key ∉ keys)).

(** [RouteRegistry::set_route], past the two checks for a conflict *)
Definition set_route_entry (reg : RouteRegistry) (range : AddressRange) (msg : LocalTypeKey) (net : NetAddress)
    (gw_ : option Address) (set_metric : option RouteMetric) : outcome (RouteRegistry * option RouteMetric) :=
  match set_metric, bt_get gw_cmp (by_gw reg) (gw_, range, msg) with
  | None, None => Ret (reg, None)
  | Some new_metric, Some key =>
      route ← expect (sm_get (route_entries reg) key);
      let old_metric := metric route in
      if new_metric =? old_metric then Ret (reg, Some old_metric)
      else
        let entries := sm_set (route_entries reg) key (mkRoute (message route) (dst_net route) (gw route) new_metric) in
        let tree := (add_to_dst (by_dst reg) (range, msg, new_metric) key).1 in
        tree ← remove_from_dst tree (range, msg, old_metric) key;
        Ret (mkRoutes entries (by_gw reg) tree, Some old_metric)
  | Some new_metric, None =>
      let '(entries, key) := sm_insert (route_entries reg) (mkRoute msg net gw_ new_metric) in
      let '(tree, newly_added) := add_to_dst (by_dst reg) (range, msg, new_metric) key in
      assert_ newly_added;;
      Ret (mkRoutes entries (bt_insert gw_cmp (by_gw reg) (gw_, range, msg) key) tree, None)
  | None, Some key =>
      route ← expect (sm_get (route_entries reg) key);
      let old_metric := metric route in
      tree ← remove_from_dst (by_dst reg) (range, msg, old_metric) key;
      Ret (mkRoutes (sm_remove (route_entries reg) key) (bt_remove gw_cmp (by_gw reg) (gw_, range, msg)) tree, Some old_metric)
  end.

(** [RouteRegistry::set_route] *)
Definition set_route (reg : RouteRegistry) (msg : LocalTypeKey) (net : NetAddress) (gw_ : option Address)
    (set_metric : option RouteMetric) : outcome (RouteRegistry * result (option RouteMetric) SetRouteError) :=
  range ← range_from_net net;
  dst_conflict ← match set_metric with
    | Some new_metric => check_net (bt_entry dst_cmp (by_dst reg) (range, msg, new_metric)) (λ k, k.1.1) range net
    | None => Ret None
    end;
  match dst_conflict with
  | Some n => Ret (reg, Err (Conflict n))
  | None =>
      gw_conflict ← check_net (bt_entry gw_cmp (by_gw reg) (gw_, range, msg)) (λ k, k.1.2) range net;
      match gw_conflict with
      | Some n => Ret (reg, Err (Conflict n))
      | None => '(reg, old) ← set_route_entry reg range msg net gw_ set_metric; Ret (reg, Ok old)
      end
  end.

(** ** An address plan: canonical nets that do not overlap *)
Definition net_range (n : NetAddress) : AddressRange := mkRange (address n) (address n + 2 ^ (64 - mask n) - 1).

Class AddressPlan (plan : NetAddress → Prop) : Prop := {
  plan_canonical n : plan n → net_canonical n;
  plan_disjoint n m x : plan n → plan m → net_contains n x → net_contains m x → n = m;
}.

Section Plan.
Context (plan : NetAddress → Prop) `{!AddressPlan plan}.

Lemma plan_range n : plan n →
  range_from_net n = Ret (net_range n) ∧ net_from_range (net_range n) = Ret n ∧ range_ok (net_range n).
Proof.
  intros Hn%plan_canonical. pose proof (range_from_net_canonical n Hn) as E. split; [done|].
  destruct Hn as [[Ha Hm] Hd]. pose proof (pow2_pos (64 - mask n)). split.
  - unfold net_range. rewrite net_from_range_block by (done || lia). destruct n as [a m]. cbn. do 2 f_equal. lia.
  - unfold range_ok, net_range. cbn. lia.
Qed.

Lemma net_range_contains n x : range_contains (net_range n) x ↔ net_contains n x.
Proof. unfold range_contains, net_range, net_contains. cbn. lia. Qed.

Definition planned (r : AddressRange) : Prop := ∃ n, plan n ∧ r = net_range n.

Lemma range_lawful : Lawful range_cmp planned.
Proof.
  split.
  - intros r s (n & Hn & ->) (m & Hm & ->). destruct (plan_range n Hn) as (_ & _ & Hr), (plan_range m Hm) as (_ & _ & Hs).
    rewrite range_cmp_eq_overlap by done. split.
    + intros (x & Hx & Hy). rewrite net_range_contains in Hx, Hy. by rewrite (plan_disjoint n m x).
    + intros ->. exists (lo (net_range m)). unfold range_contains, range_ok in *. lia.
  - intros r s _ _. unfold range_cmp. rewrite (Z.compare_antisym (lo r) (hi s)), (Z.compare_antisym (hi r) (lo s)).
    by destruct (hi r ?= lo s), (lo r ?= hi s).
  - intros r s t (n & Hn & ->) (m & Hm & ->) (p & Hp & ->).
    destruct (plan_range n Hn) as (_ & _ & ?), (plan_range m Hm) as (_ & _ & ?), (plan_range p Hp) as (_ & _ & ?).
    rewrite !range_cmp_lt by done. unfold range_ok in *. lia.
Qed.

Definition gw_good (k : GwKey) : Prop := planned k.1.2.
Definition dst_good (k : DstKey) : Prop := planned k.1.1.

#[local] Instance gw_lawful : Lawful gw_cmp gw_good.
Proof.
  eapply lawful_weaken; [|apply pair_lawful; [apply pair_lawful; [apply option_lawful, Z_lawful|apply range_lawful]|apply Z_lawful]].
  intros [[[g|] r] m] Hk; cbn; auto.
Qed.

#[local] Instance dst_lawful : Lawful dst_cmp dst_good.
Proof.
  eapply lawful_weaken; [|apply pair_lawful; [apply pair_lawful; [apply range_lawful|apply Z_lawful]|apply Z_lawful]].
  intros [[r m] c] Hk; cbn; auto.
Qed.

(** ** The invariant: the three tables hold the same routes *)
Definition dst_keys (tree : BTreeMap DstKey (gset RouteKey)) (k : DstKey) : gset RouteKey := default ∅ (bt_get dst_cmp tree k).

Definition no_empty (tree : BTreeMap DstKey (gset RouteKey)) : Prop := ∀ e, e ∈ tree → e.2 ≠ ∅.

Record routes_ok (reg : RouteRegistry) : Prop := {
  gw_ok : bt_ok gw_cmp gw_good (by_gw reg);
  dst_ok : bt_ok dst_cmp dst_good (by_dst reg);
  dst_filled : no_empty (by_dst reg);
  entries_ok k e : sm_get (route_entries reg) k = Some e → plan (dst_net e) ∧ 0 ≤ metric e < 256 ∧
    bt_get gw_cmp (by_gw reg) (gw e, net_range (dst_net e), message e) = Some k;
  gw_entries g n m k : plan n → bt_get gw_cmp (by_gw reg) (g, net_range n, m) = Some k →
    ∃ c, sm_get (route_entries reg) k = Some (mkRoute m n g c);
  dst_entries n m c k : plan n →
    k ∈ dst_keys (by_dst reg) (net_range n, m, c) ↔ ∃ g, sm_get (route_entries reg) k = Some (mkRoute m n g c);
}.

Lemma routes_default : routes_ok registry_default.
Proof.
  split; try (split; constructor).
  - intros e ?%not_elem_of_nil; done.
  - intros k e. cbn. by rewrite sm_get_empty.
  - done.
  - intros n m c k _. cbn. setoid_rewrite sm_get_empty. set_solver.
Qed.

Lemma net_range_inj n m : plan n → plan m → net_range n = net_range m → n = m.
Proof. intros Hn Hm E. destruct (plan_range n Hn) as (_ & H1 & _), (plan_range m Hm) as (_ & H2 & _). rewrite E in H1. congruence. Qed.

Lemma dst_good_net n m c : plan n → dst_good (net_range n, m, c).
Proof. intros. by exists n. Qed.

Lemma gw_good_net g n m : plan n → gw_good (g, net_range n, m).
Proof. intros. by exists n. Qed.

#[local] Hint Resolve dst_good_net gw_good_net : mm1.

(** ** The tree of destinations *)
Lemma add_to_dst_ok tree k key : bt_ok dst_cmp dst_good tree → no_empty tree → dst_good k →
  let tree' := (add_to_dst tree k key).1 in
  bt_ok dst_cmp dst_good tree' ∧ no_empty tree' ∧
  (∀ k', dst_good k' → dst_keys tree' k' = if decide (k' = k) then {[ key ]} ∪ dst_keys tree k' else dst_keys tree k') ∧
  ((add_to_dst tree k key).2 = true ↔ key ∉ dst_keys tree k).
Proof.
  intros Ht Hn Hk. cbn. destruct (bt_insert_ok dst_cmp dst_good tree k ({[ key ]} ∪ default ∅ (bt_get dst_cmp tree k)) Ht Hk) as [Ho He].
  split_and!; [done| | |].
  - intros e [->|[Hin _]]%He; [set_solver|]. by apply Hn.
  - intros k' Hk'. unfold dst_keys. rewrite (bt_get_insert dst_cmp dst_good) by done. by case_decide; subst.
  - by rewrite bool_decide_eq_true.
Qed.

Lemma remove_from_dst_ok tree k key : bt_ok dst_cmp dst_good tree → no_empty tree → dst_good k → key ∈ dst_keys tree k →
  ∃ tree', remove_from_dst tree k key = Ret tree' ∧ bt_ok dst_cmp dst_good tree' ∧ no_empty tree' ∧
  ∀ k', dst_good k' → dst_keys tree' k' = if decide (k' = k) then dst_keys tree k' ∖ {[ key ]} else dst_keys tree k'.
Proof.
  intros Ht Hn Hk Hin. unfold remove_from_dst, dst_keys in *. destruct (bt_get dst_cmp tree k) as [ks|] eqn:E; cbn in *; [|set_solver].
  rewrite bool_decide_true by done. cbn. eexists. split; [done|]. case_decide as Hd.
  - destruct (bt_remove_ok dst_cmp dst_good tree k Ht Hk) as [Ho He]. split_and!; [done| |].
    + intros e [Hx _]%He. by apply Hn.
    + intros k' Hk'. rewrite (bt_get_remove dst_cmp dst_good) by done. case_decide; [|done]. subst. rewrite E. by cbn.
  - destruct (bt_insert_ok dst_cmp dst_good tree k (ks ∖ {[ key ]}) Ht Hk) as [Ho He]. split_and!; [done| |].
    + intros e [->|[Hx _]]%He; [done|]. by apply Hn.
    + intros k' Hk'. rewrite (bt_get_insert dst_cmp dst_good) by done. case_decide; [|done]. subst. rewrite E. by cbn.
Qed.

(** ** The specification: the distance at which a gateway reaches a net *)
Definition route_of (reg : RouteRegistry) (g : option Address) (n : NetAddress) (m : LocalTypeKey) : option RouteMetric :=
  key ← bt_get gw_cmp (by_gw reg) (g, net_range n, m); metric <$> sm_get (route_entries reg) key.

Lemma route_of_entry reg g n m c : routes_ok reg → plan n →
  route_of reg g n m = Some c ↔ ∃ k, sm_get (route_entries reg) k = Some (mkRoute m n g c).
Proof.
  intros Hr Hn. unfold route_of. split.
  - destruct (bt_get gw_cmp (by_gw reg) (g, net_range n, m)) as [k|] eqn:E; cbn; [|done].
    apply (gw_entries _ Hr) in E as [c' Hc]; [|done]. rewrite Hc. cbn. intros [= <-]. by exists k.
  - intros (k & Hk). pose proof (entries_ok _ Hr _ _ Hk) as (_ & _ & Hg). cbn in Hg. rewrite Hg. cbn. by rewrite Hk.
Qed.

(** A change of the route of [(g, n, m)], kept under [key], in all three tables *)
Lemma routes_ok_change reg entries gwt dstt key n m g (old new : option RouteMetric) :
  routes_ok reg → plan n → (∀ c, new = Some c → 0 ≤ c < 256) →
  sm_get (route_entries reg) key = mkRoute m n g <$> old →
  bt_get gw_cmp (by_gw reg) (g, net_range n, m) = (λ _, key) <$> old →
  (∀ k, sm_get entries k = if decide (k = key) then mkRoute m n g <$> new else sm_get (route_entries reg) k) →
  bt_ok gw_cmp gw_good gwt →
  (∀ k, gw_good k → bt_get gw_cmp gwt k =
    if decide (k = (g, net_range n, m)) then (λ _, key) <$> new else bt_get gw_cmp (by_gw reg) k) →
  bt_ok dst_cmp dst_good dstt → no_empty dstt →
  (∀ n' m' c k, plan n' → k ∈ dst_keys dstt (net_range n', m', c) ↔
    if decide (k = key) then n' = n ∧ m' = m ∧ new = Some c else k ∈ dst_keys (by_dst reg) (net_range n', m', c)) →
  routes_ok (mkRoutes entries gwt dstt).
Proof.
  intros Hr Hn Hc Hold Hog He Hgo Hg Hdo Hde Hd. split; try done; cbn.
  - intros k e Hk. rewrite He in Hk. case_decide as Hkk.
    + subst. destruct new as [c|]; [|done]. injection Hk as <-. cbn. split_and!; [done|by apply Hc..|].
      rewrite Hg by auto with mm1. by rewrite decide_True.
    + pose proof (entries_ok _ Hr _ _ Hk) as (H1 & H2 & H3). split_and!; [done|lia..|].
      rewrite Hg by auto with mm1. case_decide as Hkey; [|done]. rewrite Hkey, Hog in H3. destruct old; [|done].
      by injection H3 as ->.
  - intros g' n' m' k Hn'. rewrite Hg by auto with mm1. rewrite He. case_decide as Hkey.
    + apply pair_equal_spec in Hkey as [[-> Hrn]%pair_equal_spec ->]. apply net_range_inj in Hrn as ->; [|done|done]. destruct new as [c|]; [|done].
      intros [= ->]. rewrite decide_True by done. by exists c.
    + intros Hk. pose proof (gw_entries _ Hr _ _ _ _ Hn' Hk) as (c & Hkc). case_decide as Hkk; [|eauto].
      subst. rewrite Hold in Hkc. destruct old; [|done]. cbn in Hkc. by injection Hkc as -> -> -> _.
  - intros n' m' c k Hn'. rewrite Hd, He by done. case_decide as Hkk.
    + subst. destruct new as [c'|]; cbn; naive_solver.
    + by apply dst_entries.
Qed.

(** The distances after a change *)
Lemma route_of_change reg entries gwt dstt key n m g (old new : option RouteMetric) :
  routes_ok reg → routes_ok (mkRoutes entries gwt dstt) → plan n →
  sm_get (route_entries reg) key = mkRoute m n g <$> old →
  bt_get gw_cmp (by_gw reg) (g, net_range n, m) = (λ _, key) <$> old →
  (∀ k, sm_get entries k = if decide (k = key) then mkRoute m n g <$> new else sm_get (route_entries reg) k) →
  ∀ g' n' m', plan n' → route_of (mkRoutes entries gwt dstt) g' n' m' =
    if decide ((g', n', m') = (g, n, m)) then new else route_of reg g' n' m'.
Proof.
  intros Hr Hr' Hn Hold Hog He g' n' m' Hn'. apply option_eq. intros c. rewrite route_of_entry by done. cbn.
  setoid_rewrite He. case_decide as Hkey.
  - injection Hkey as -> -> ->. split.
    + intros (k & Hk). case_decide as Hkk; [destruct new; naive_solver|]. exfalso.
      pose proof (entries_ok _ Hr _ _ Hk) as (_ & _ & Hg). cbn in Hg. rewrite Hog in Hg. destruct old; naive_solver.
    + intros ->. exists key. by rewrite decide_True.
  - rewrite route_of_entry by done. split; intros (k & Hk).
    + case_decide as Hkk; [|eauto]. destruct new; naive_solver.
    + exists k. rewrite decide_False; [done|]. intros ->. rewrite Hold in Hk. destruct old; naive_solver.
Qed.

(** ** [set_route] *)
Lemma check_net_plan {K V} (cmp : K → K → comparison) (D : K → Prop) `{!Lawful cmp D} (m : BTreeMap K V) k range_of n :
  bt_ok cmp D m → D k → plan n → range_of k = net_range n → check_net (bt_entry cmp m k) range_of (net_range n) n = Ret None.
Proof.
  intros Hm Hk Hn E. unfold check_net. destruct (plan_range n Hn) as (_ & Hf & _).
  destruct (bt_entry cmp m k) as [[k' v]|] eqn:Ee.
  - apply (bt_entry_key cmp D) in Ee; [|done|done]. cbn in Ee. subst k'. rewrite E, Hf. cbn. by rewrite decide_True.
  - rewrite Hf. cbn. by rewrite decide_True.
Qed.

Lemma dst_key_eq n (m : LocalTypeKey) (c : RouteMetric) n' m' c' : plan n → plan n' →
  (net_range n, m, c) = (net_range n', m', c') ↔ n = n' ∧ m = m' ∧ c = c'.
Proof.
  intros Hn Hn'. rewrite !pair_equal_spec. split; [|naive_solver]. intros [[E%net_range_inj ->] ->]; done.
Qed.

(** The keys of a destination once [key] has moved from [old] to [new] *)
Definition dst_at (n : NetAddress) (m : LocalTypeKey) (c : option RouteMetric) : option DstKey := (λ c, (net_range n, m, c)) <$> c.

Lemma moved_keys reg n m g key (old new : option RouteMetric) dstt :
  routes_ok reg → plan n → sm_get (route_entries reg) key = mkRoute m n g <$> old →
  (∀ k, dst_good k → dst_keys dstt k =
    (dst_keys (by_dst reg) k ∖ (if decide (Some k = dst_at n m old) then {[ key ]} else ∅)) ∪
    (if decide (Some k = dst_at n m new) then {[ key ]} else ∅)) →
  ∀ n' m' c k, plan n' → k ∈ dst_keys dstt (net_range n', m', c) ↔
    if decide (k = key) then n' = n ∧ m' = m ∧ new = Some c else k ∈ dst_keys (by_dst reg) (net_range n', m', c).
Proof.
  intros Hr Hn Hold Hd n' m' c k Hn'. rewrite Hd by auto with mm1. rewrite elem_of_union, elem_of_difference.
  assert (Hnew : Some (net_range n', m', c) = dst_at n m new ↔ n' = n ∧ m' = m ∧ new = Some c).
  { destruct new as [c'|]; cbn; [|naive_solver]. rewrite (inj_iff Some), dst_key_eq by done. naive_solver. }
  destruct (decide (k = key)) as [->|Hkk].
  - assert (Hin : key ∈ dst_keys (by_dst reg) (net_range n', m', c) → Some (net_range n', m', c) = dst_at n m old).
    { rewrite (dst_entries reg Hr) by done. rewrite Hold. intros (g' & E). destruct old as [c0|]; [|done]. cbn in *. by injection E as -> -> _ ->. }
    rewrite <- Hnew. case_decide; case_decide; set_solver.
  - case_decide; case_decide; set_solver.
Qed.

(** What every branch of [set_route] does to the route it is about *)
Definition route_set (reg reg' : RouteRegistry) (m : LocalTypeKey) (n : NetAddress) (g : option Address) (new : option RouteMetric) : Prop :=
  routes_ok reg' ∧
  ∀ g' n' m', plan n' → route_of reg' g' n' m' = if decide ((g', n', m') = (g, n, m)) then new else route_of reg g' n' m'.

Lemma route_set_change reg entries gwt dstt key n m g (old new : option RouteMetric) :
  routes_ok reg → plan n → (∀ c, new = Some c → 0 ≤ c < 256) →
  sm_get (route_entries reg) key = mkRoute m n g <$> old →
  bt_get gw_cmp (by_gw reg) (g, net_range n, m) = (λ _, key) <$> old →
  (∀ k, sm_get entries k = if decide (k = key) then mkRoute m n g <$> new else sm_get (route_entries reg) k) →
  bt_ok gw_cmp gw_good gwt →
  (∀ k, gw_good k → bt_get gw_cmp gwt k =
    if decide (k = (g, net_range n, m)) then (λ _, key) <$> new else bt_get gw_cmp (by_gw reg) k) →
  bt_ok dst_cmp dst_good dstt → no_empty dstt →
  (∀ k, dst_good k → dst_keys dstt k =
    (dst_keys (by_dst reg) k ∖ (if decide (Some k = dst_at n m old) then {[ key ]} else ∅)) ∪
    (if decide (Some k = dst_at n m new) then {[ key ]} else ∅)) →
  route_set reg (mkRoutes entries gwt dstt) m n g new.
Proof.
  intros Hr Hn Hc Hold Hog He Hgo Hg Hdo Hde Hd.
  assert (Hr' : routes_ok (mkRoutes entries gwt dstt)).
  { eapply (routes_ok_change reg _ _ _ key n m g old new); try done. by apply (moved_keys reg n m g key old). }
  split; [done|]. by apply (route_of_change reg _ _ _ key n m g old new).
Qed.

Ltac solve_keys := cbn; rewrite ?(inj_iff Some); repeat case_decide; subst; try done; set_solver.

Lemma change_metric reg m n g (key : RouteKey) (c0 c : RouteMetric) : routes_ok reg → plan n → 0 ≤ c < 256 → c ≠ c0 →
  bt_get gw_cmp (by_gw reg) (g, net_range n, m) = Some key → sm_get (route_entries reg) key = Some (mkRoute m n g c0) →
  ∃ dstt, remove_from_dst (add_to_dst (by_dst reg) (net_range n, m, c) key).1 (net_range n, m, c0) key = Ret dstt ∧
  route_set reg (mkRoutes (sm_set (route_entries reg) key (mkRoute m n g c)) (by_gw reg) dstt) m n g (Some c).
Proof.
  intros Hr Hn Hc Hne Eg Ek. pose proof (dst_ok _ Hr) as Hdo. pose proof (dst_filled _ Hr) as Hde.
  assert (Hin : key ∈ dst_keys (by_dst reg) (net_range n, m, c0)) by (apply (dst_entries reg Hr); eauto).
  destruct (add_to_dst_ok (by_dst reg) (net_range n, m, c) key) as (Ha & Hb & Hk & _); auto with mm1.
  destruct (remove_from_dst_ok (add_to_dst (by_dst reg) (net_range n, m, c) key).1 (net_range n, m, c0) key)
    as (dstt & -> & Hto & Hte & Htk); auto with mm1.
  { rewrite Hk by auto with mm1. case_decide; set_solver. }
  eexists. split; [done|]. eapply (route_set_change reg _ _ _ key n m g (Some c0) (Some c)); try done.
  - by intros c' [= <-].
  - intros k. by apply sm_get_set.
  - apply (gw_ok _ Hr).
  - intros k Hkg. case_decide; subst; [by rewrite Eg|done].
  - intros k Hkd. rewrite Htk, Hk by done. assert ((net_range n, m, c) ≠ (net_range n, m, c0)) by (intros [=]; done). solve_keys.
Qed.

Lemma drop_route reg m n g (key : RouteKey) (c0 : RouteMetric) : routes_ok reg → plan n →
  bt_get gw_cmp (by_gw reg) (g, net_range n, m) = Some key → sm_get (route_entries reg) key = Some (mkRoute m n g c0) →
  ∃ dstt, remove_from_dst (by_dst reg) (net_range n, m, c0) key = Ret dstt ∧
  route_set reg (mkRoutes (sm_remove (route_entries reg) key) (bt_remove gw_cmp (by_gw reg) (g, net_range n, m)) dstt) m n g None.
Proof.
  intros Hr Hn Eg Ek. pose proof (dst_ok _ Hr) as Hdo. pose proof (dst_filled _ Hr) as Hde. pose proof (gw_ok _ Hr) as Hgo.
  assert (Hin : key ∈ dst_keys (by_dst reg) (net_range n, m, c0)) by (apply (dst_entries reg Hr); eauto).
  destruct (remove_from_dst_ok (by_dst reg) (net_range n, m, c0) key) as (dstt & -> & Hto & Hte & Htk); auto with mm1.
  eexists. split; [done|]. destruct (bt_remove_ok gw_cmp gw_good (by_gw reg) (g, net_range n, m)) as [Hgo' _]; auto with mm1.
  eapply (route_set_change reg _ _ _ key n m g (Some c0) None); try done.
  - intros k. by apply sm_get_remove.
  - intros k Hkg. by rewrite (bt_get_remove gw_cmp gw_good) by auto with mm1.
  - intros k Hkd. rewrite Htk by done. solve_keys.
Qed.

Lemma add_route reg m n g (c : RouteMetric) : routes_ok reg → plan n → 0 ≤ c < 256 → bt_get gw_cmp (by_gw reg) (g, net_range n, m) = None →
  let '(entries, key) := sm_insert (route_entries reg) (mkRoute m n g c) in
  let '(dstt, newly_added) := add_to_dst (by_dst reg) (net_range n, m, c) key in
  newly_added = true ∧ route_set reg (mkRoutes entries (bt_insert gw_cmp (by_gw reg) (g, net_range n, m) key) dstt) m n g (Some c).
Proof.
  intros Hr Hn Hc Eg. pose proof (dst_ok _ Hr) as Hdo. pose proof (dst_filled _ Hr) as Hde. pose proof (gw_ok _ Hr) as Hgo.
  destruct (sm_insert (route_entries reg) (mkRoute m n g c)) as [entries key] eqn:Ei.
  pose proof (sm_insert_fresh (route_entries reg) (mkRoute m n g c)) as Hf.
  pose proof (sm_get_insert (route_entries reg) (mkRoute m n g c)) as He. rewrite Ei in Hf, He. cbn [fst snd] in Hf, He.
  destruct (add_to_dst_ok (by_dst reg) (net_range n, m, c) key) as (Ha & Hb & Hk & Hnew); auto with mm1.
  destruct (add_to_dst (by_dst reg) (net_range n, m, c) key) as [dstt b]. cbn [fst snd] in *.
  split. { apply Hnew. rewrite (dst_entries reg Hr) by done. rewrite Hf. naive_solver. }
  destruct (bt_insert_ok gw_cmp gw_good (by_gw reg) (g, net_range n, m) key) as [Hgo' _]; auto with mm1.
  eapply (route_set_change reg _ _ _ key n m g None (Some c)); try done.
  - by intros c' [= <-].
  - intros k Hkg. by rewrite (bt_get_insert gw_cmp gw_good) by auto with mm1.
  - intros k Hkd. rewrite Hk by done. solve_keys.
Qed.

Lemma set_route_entry_ok reg m n g (new : option RouteMetric) : routes_ok reg → plan n → (∀ c, new = Some c → 0 ≤ c < 256) →
  ∃ reg', set_route_entry reg (net_range n) m n g new = Ret (reg', route_of reg g n m) ∧ route_set reg reg' m n g new.
Proof.
  intros Hr Hn Hc. unfold set_route_entry, route_of at 1.
  assert (Hsame : ∀ new, route_of reg g n m = new → route_set reg reg m n g new).
  { intros c <-. split; [done|]. intros g' n' m' _. case_decide as E; [|done]. by injection E as -> -> ->. }
  destruct (bt_get gw_cmp (by_gw reg) (g, net_range n, m)) as [key|] eqn:Eg; cbn [mbind option_bind].
  - destruct (gw_entries _ Hr _ _ _ _ Hn Eg) as [c0 Ek]. rewrite Ek. cbn [expect fmap option_fmap option_map metric]. destruct new as [c|]; rewrite bind_Ret; cbn [message dst_net gw metric].
    + case_Zb; [subst c0; eexists; split; [done|]; apply Hsame, route_of_entry; eauto|].
      destruct (change_metric reg m n g key c0 c) as (dstt & -> & Hs); eauto.
    + destruct (drop_route reg m n g key c0) as (dstt & -> & Hs); eauto.
  - destruct new as [c|]; [|eexists; split; [done|]; apply Hsame; unfold route_of; by rewrite Eg].
    pose proof (add_route reg m n g c Hr Hn (Hc c eq_refl) Eg) as Ha.
    destruct (sm_insert (route_entries reg) (mkRoute m n g c)) as [entries key].
    destruct (add_to_dst (by_dst reg) (net_range n, m, c) key) as [dstt b]. destruct Ha as [-> Hs]. cbn. eauto.
Qed.

Lemma set_route_ok reg m n g (new : option RouteMetric) : routes_ok reg → plan n → (∀ c, new = Some c → 0 ≤ c < 256) →
  ∃ reg', set_route reg m n g new = Ret (reg', Ok (route_of reg g n m)) ∧ route_set reg reg' m n g new.
Proof.
  intros Hr Hn Hc. unfold set_route. destruct (plan_range n Hn) as (-> & _ & _). cbn.
  assert (Hd : (match new with
    | Some c => check_net (bt_entry dst_cmp (by_dst reg) (net_range n, m, c)) (λ k, k.1.1) (net_range n) n
    | None => Ret None end) = Ret None).
  { destruct new as [c|]; [|done]. apply (check_net_plan dst_cmp dst_good); auto with mm1. apply (dst_ok _ Hr). }
  rewrite Hd. cbn. rewrite (check_net_plan gw_cmp gw_good) by (auto with mm1; apply (gw_ok _ Hr)). cbn.
  destruct (set_route_entry_ok reg m n g new Hr Hn Hc) as (reg' & -> & Hs). cbn. eauto.
Qed.

(** C15: Under an address plan (canonical, disjoint nets), [set_route] implements the map from (gateway, net, message
    type) to a distance: it never panics and reports no conflict, answers with the distance the map had,
    sets or clears exactly the one entry, and keeps the three tables in agreement. *)
Theorem set_route_refines reg m n g (new : option RouteMetric) (Hr : routes_ok reg) (Hn : plan n) (Hc : ∀ c, new = Some c → 0 ≤ c < 256) :
  ∃ reg', set_route reg m n g new = Ret (reg', Ok (route_of reg g n m)) ∧ routes_ok reg' ∧
  ∀ g' n' m', plan n' → route_of reg' g' n' m' = if decide ((g', n', m') = (g, n, m)) then new else route_of reg g' n' m'.
Proof. by apply set_route_ok. Qed.

(** ** [find_route] *)
Lemma dst_tree_entry reg g n m c : routes_ok reg → plan n → route_of reg g n m = Some c →
  ∃ ks, ((net_range n, m, c), ks) ∈ by_dst reg ∧ 0 ≤ c.
Proof.
  intros Hr Hn (k & Hk)%route_of_entry; [|done|done].
  assert (Hin : k ∈ dst_keys (by_dst reg) (net_range n, m, c)) by (apply (dst_entries reg Hr); eauto).
  unfold dst_keys in Hin. destruct (bt_get dst_cmp (by_dst reg) (net_range n, m, c)) as [ks|] eqn:E; cbn in Hin; [|set_solver].
  exists ks. split; [|apply (entries_ok _ Hr) in Hk as (_ & ? & _); cbn in *; lia].
  apply (bt_get_elem dst_cmp dst_good); auto with mm1. apply (dst_ok _ Hr).
Qed.

Lemma tree_entry_route reg r m c ks : routes_ok reg → ((r, m, c), ks) ∈ by_dst reg →
  ∃ n, plan n ∧ r = net_range n ∧ ks ≠ ∅ ∧ ∀ k, k ∈ ks ↔ ∃ g, sm_get (route_entries reg) k = Some (mkRoute m n g c).
Proof.
  intros Hr Hin. pose proof (dst_ok _ Hr) as Hdo. pose proof Hdo as [Hg _]. rewrite Forall_forall in Hg.
  destruct (Hg _ Hin) as (n & Hn & E). cbn in E. subst r. exists n. split_and!; [done|done|exact (dst_filled _ Hr _ Hin)|].
  intros k. rewrite <- (dst_entries reg Hr) by done. unfold dst_keys.
  by rewrite (proj2 (bt_get_elem dst_cmp dst_good _ _ ks Hdo (dst_good_net n m c Hn)) Hin).
Qed.

(** Entries in the order of the tree: by net, then by message, then by distance *)
Lemma key_lt_net n m c (ks : gset RouteKey) n' m' c' ks' : plan n → plan n' →
  key_lt dst_cmp ((net_range n, m, c), ks) ((net_range n', m', c'), ks') →
  (hi (net_range n) < lo (net_range n')) ∨ (n = n' ∧ (m < m' ∨ (m = m' ∧ c < c'))).
Proof.
  intros Hn Hn'. destruct (plan_range n Hn) as (_ & _ & H1), (plan_range n' Hn') as (_ & _ & H2).
  unfold key_lt, dst_cmp, pair_cmp. cbn [fst snd]. destruct (range_cmp (net_range n) (net_range n')) eqn:E.
  - destruct range_lawful as [Heq _ _]. apply Heq in E; [|by exists n|by exists n']. apply net_range_inj in E as ->; [|done|done].
    destruct (Z.compare_spec m m'); intros Hc; [|right; auto|done]. rewrite Z.compare_lt_iff in Hc. auto.
  - intros _. left. by apply range_cmp_lt in E.
  - done.
Qed.

(** The first entry from a probe at an address of a net that has a route *)
Lemma first_route reg n m c ks x : routes_ok reg → plan n → net_contains n x → 0 ≤ c → ((net_range n, m, c), ks) ∈ by_dst reg →
  ∃ c1 ks1, head (bt_range_from dst_cmp (by_dst reg) (mkRange x x, m, 0)) = Some ((net_range n, m, c1), ks1) ∧
    ((net_range n, m, c1), ks1) ∈ by_dst reg ∧ c1 ≤ c.
Proof.
  intros Hr Hn Hx Hc Hin. assert (Hp : range_ok (mkRange x x)) by (unfold range_ok; cbn; lia).
  destruct (plan_range n Hn) as (_ & _ & Hrn). pose proof Hx as Hx'. rewrite <- net_range_contains in Hx'.
  assert (Hge : dst_cmp (mkRange x x, m, 0) (net_range n, m, c) ≠ Gt).
  { unfold dst_cmp, pair_cmp. cbn [fst snd]. assert (range_cmp (mkRange x x) (net_range n) = Eq) as ->.
    { apply range_cmp_eq_overlap; [done|done|]. exists x. split; [|done]. unfold range_contains. cbn. lia. }
    rewrite Z.compare_refl, Z.compare_gt_iff. lia. }
  destruct (bt_range_sorted dst_cmp dst_good (by_dst reg) (mkRange x x, m, 0) (dst_ok _ Hr)) as [_ Hs].
  destruct (sorted_head dst_cmp _ _ Hs (bt_range_from_elem dst_cmp _ _ _ Hin Hge)) as ([[[r1 m1] c1] ks1] & Hh & Hin1 & Hle).
  pose proof (bt_range_from_sub dst_cmp _ _ _ Hin1) as Hin1'.
  destruct (tree_entry_route _ _ _ _ _ Hr Hin1') as (n1 & Hn1 & -> & _). destruct (plan_range n1 Hn1) as (_ & _ & Hrn1).
  assert (Hge1 : dst_cmp (mkRange x x, m, 0) (net_range n1, m1, c1) ≠ Gt).
  { destruct (bt_range_from dst_cmp (by_dst reg) (mkRange x x, m, 0)) as [|e l] eqn:E; [done|].
    injection Hh as ->. by apply bt_range_from_head in E. }
  assert (Hcase : n1 = n ∧ (m1 < m ∨ (m1 = m ∧ c1 ≤ c))).
  { destruct Hle as [Heq|[Hlt|[-> Hmc]]%key_lt_net]; [|exfalso| |done..].
    - apply pair_equal_spec in Heq as [[[E ->]%pair_equal_spec ->]%pair_equal_spec _]. split; [by apply net_range_inj|right; lia].
    - unfold dst_cmp, pair_cmp in Hge1. cbn [fst snd] in Hge1. unfold range_contains in Hx'.
      assert (E : range_cmp (mkRange x x) (net_range n1) = Gt) by (apply range_cmp_gt; cbn; [done|done|]; cbn in *; lia).
      rewrite E in Hge1. done.
    - split; [done|lia]. }
  destruct Hcase as [-> Hmc]. unfold dst_cmp, pair_cmp in Hge1. cbn [fst snd] in Hge1.
  assert (E : range_cmp (mkRange x x) (net_range n) = Eq).
  { apply range_cmp_eq_overlap; [done|done|]. exists x. split; [|done]. unfold range_contains. cbn. lia. }
  rewrite E in Hge1. destruct Hmc as [Hlt|[-> Hle1]]; [|by exists c1, ks1].
  by rewrite (proj2 (Z.compare_gt_iff m m1)) in Hge1 by lia.
Qed.

Lemma select_route_ok addr_hash reg x n m c ks : ks ≠ ∅ → (∀ k, k ∈ ks ↔ ∃ g, sm_get (route_entries reg) k = Some (mkRoute m n g c)) →
  ∃ g k, select_route addr_hash reg x ks = Ret (g, c) ∧ sm_get (route_entries reg) k = Some (mkRoute m n g c).
Proof.
  intros Hne Hk. unfold select_route. set (cs := take MAX_CANDIDATES (hs_iter ks)).
  assert (Hl : (0 < length cs)%nat).
  { destruct (set_choose_L ks Hne) as [k Hin]. apply elem_of_hs_iter in Hin. unfold cs, MAX_CANDIDATES. rewrite length_take.
    destruct (hs_iter ks); [by apply not_elem_of_nil in Hin|cbn; lia]. }
  rewrite assert_true by (destruct (length cs); [lia|done]). cbn [mbind outcome_bind].
  destruct (lookup_lt_is_Some_2 cs (Z.to_nat (addr_hash x mod Z.of_nat (length cs)))) as [k Ek].
  { pose proof (Z.mod_pos_bound (addr_hash x) (Z.of_nat (length cs))). lia. }
  rewrite Ek. cbn [expect]. rewrite bind_Ret. assert (Hin : k ∈ ks).
  { apply list_elem_of_lookup_2 in Ek. apply elem_of_hs_iter. apply elem_of_take in Ek as (i & Ei & _). by eapply list_elem_of_lookup_2. }
  apply Hk in Hin as [g Hg]. exists g, k. rewrite Hg. done.
Qed.

Lemma find_route_ok addr_hash reg n m x : routes_ok reg → plan n → net_contains n x →
  (∃ r, find_route addr_hash reg m x = Ret r) ∧
  ∀ g c, route_of reg g n m = Some c →
    ∃ g' c', find_route addr_hash reg m x = Ret (Ok (g', c')) ∧ route_of reg g' n m = Some c' ∧
    ∀ g'' c'', route_of reg g'' n m = Some c'' → c' ≤ c''.
Proof.
  intros Hr Hn Hx. unfold find_route, range_from_address, range_new. rewrite assert_true by (apply Z.leb_le; lia). cbn [mbind outcome_bind]. split.
  - destruct (head (bt_range_from dst_cmp (by_dst reg) (mkRange x x, m, 0))) as [[[[r1 m1] c1] ks1]|] eqn:Eh; [|eauto].
    case_Zb; [|eauto]. apply head_Some_elem_of, bt_range_from_sub, (tree_entry_route _ _ _ _ _ Hr) in Eh as (n1 & _ & _ & Hne & Hk).
    destruct (select_route_ok addr_hash reg x n1 m1 c1 ks1 Hne Hk) as (g & k & -> & _). cbn. eauto.
  - intros g c Hroute. destruct (dst_tree_entry _ _ _ _ _ Hr Hn Hroute) as (ks & Hin & Hc).
    destruct (first_route reg n m c ks x Hr Hn Hx Hc Hin) as (c1 & ks1 & Eh & Hin1 & _). rewrite Eh, Z.eqb_refl.
    destruct (tree_entry_route _ _ _ _ _ Hr Hin1) as (n1 & Hn1 & En & Hne & Hk). apply net_range_inj in En as <-; [|done|done].
    destruct (select_route_ok addr_hash reg x n m c1 ks1 Hne Hk) as (g1 & k & -> & Hg). exists g1, c1. split_and!; [done|apply route_of_entry; eauto|].
    intros g2 c2 Hroute2. destruct (dst_tree_entry _ _ _ _ _ Hr Hn Hroute2) as (ks2 & Hin2 & Hc2).
    destruct (first_route reg n m c2 ks2 x Hr Hn Hx Hc2 Hin2) as (c3 & ks3 & Hh & _ & Hle). rewrite Eh in Hh. by injection Hh as -> _.
Qed.

(** An answer is some route for the message type, though not always to the net of the address. *)
Lemma find_route_sound addr_hash reg m x g c : routes_ok reg → find_route addr_hash reg m x = Ret (Ok (g, c)) →
  ∃ n, plan n ∧ route_of reg g n m = Some c.
Proof.
  intros Hr. unfold find_route, range_from_address, range_new. rewrite assert_true by (apply Z.leb_le; lia). cbn [mbind outcome_bind].
  destruct (head (bt_range_from dst_cmp (by_dst reg) (mkRange x x, m, 0))) as [[[[r1 m1] c1] ks1]|] eqn:Eh; [|done].
  case_Zb; [subst m1|done]. apply head_Some_elem_of, bt_range_from_sub, (tree_entry_route _ _ _ _ _ Hr) in Eh as (n & Hn & _ & Hne & Hk).
  destruct (select_route_ok addr_hash reg x n m c1 ks1 Hne Hk) as (g1 & k & -> & Hg). cbn. intros [= <- <-].
  exists n. split; [done|]. apply route_of_entry; eauto.
Qed.

(** Under an address plan, [find_route] never panics, and for an address of a net with a route for the message type it
    answers with a gateway whose distance to that net is the least of all gateways. *)
Theorem find_route_shortest addr_hash reg n m x (Hr : routes_ok reg) (Hn : plan n) (Hx : net_contains n x) :
  (∃ r, find_route addr_hash reg m x = Ret r) ∧
  ∀ g c, route_of reg g n m = Some c →
    ∃ g' c', find_route addr_hash reg m x = Ret (Ok (g', c')) ∧ route_of reg g' n m = Some c' ∧
    ∀ g'' c'', route_of reg g'' n m = Some c'' → c' ≤ c''.
Proof. by apply find_route_ok. Qed.

(** ** [contains_net] *)
Lemma is_net_elem reg n e : routes_ok reg → plan n → (∀ x, e = Some x → x ∈ by_dst reg) →
  ∃ b, is_net n e = Ret b ∧ (b = true ↔ ∃ x, e = Some x ∧ x.1.1.1 = net_range n).
Proof.
  intros Hr Hn He. destruct e as [[[[r m] c] ks]|]; cbn; [|exists false; split; [done|naive_solver]].
  destruct (tree_entry_route _ _ _ _ _ Hr (He _ eq_refl)) as (n1 & Hn1 & -> & _).
  destruct (plan_range n1 Hn1) as (_ & -> & _). cbn [mbind outcome_bind]. eexists. split; [done|]. rewrite bool_decide_eq_true. split.
  - intros <-. by eexists.
  - intros (x & [= <-] & E). cbn in E. by apply net_range_inj.
Qed.

(** An entry of a net is next to any probe for the net. *)
Lemma near_probe reg n (m0 : LocalTypeKey) (c0 : RouteMetric) m c ks : routes_ok reg → plan n → ((net_range n, m, c), ks) ∈ by_dst reg →
  ∃ x, x.1.1.1 = net_range n ∧ (last (bt_range_to dst_cmp (by_dst reg) (net_range n, m0, c0)) = Some x ∨
    head (bt_range_from dst_cmp (by_dst reg) (net_range n, m0, c0)) = Some x).
Proof.
  intros Hr Hn Hin. set (probe := (net_range n, m0, c0) : DstKey).
  destruct (bt_range_sorted dst_cmp dst_good (by_dst reg) probe (dst_ok _ Hr)) as [Hs1 Hs2].
  destruct (plan_range n Hn) as (_ & _ & Hrn).
  rewrite (bt_range_split dst_cmp (by_dst reg) probe) in Hin. apply elem_of_app in Hin as [Hin|Hin].
  - destruct (sorted_last dst_cmp _ _ Hs1 Hin) as ([[[r1 m1] c1] ks1] & Hl & Hin1 & Hor). eexists. split; [|by left]. cbn.
    pose proof (bt_range_to_gt dst_cmp _ _ _ Hin1) as Hgt. apply bt_range_to_sub in Hin1.
    destruct (tree_entry_route _ _ _ _ _ Hr Hin1) as (n1 & Hn1 & -> & _). destruct (plan_range n1 Hn1) as (_ & _ & Hrn1).
    destruct Hor as [E|[Hlt|[-> _]]%key_lt_net]; [by apply pair_equal_spec in E as [[[-> _]%pair_equal_spec _]%pair_equal_spec _]| |done|done|done].
    unfold probe, dst_cmp, pair_cmp in Hgt. cbn [fst snd] in Hgt. apply range_cmp_lt in Hlt; [|done|done]. by rewrite Hlt in Hgt.
  - destruct (sorted_head dst_cmp _ _ Hs2 Hin) as ([[[r1 m1] c1] ks1] & Hl & Hin1 & Hor). eexists. split; [|by right]. cbn.
    assert (Hge : dst_cmp probe (r1, m1, c1) ≠ Gt).
    { destruct (bt_range_from dst_cmp (by_dst reg) probe) eqn:E; [done|]. injection Hl as ->. by apply bt_range_from_head in E. }
    apply bt_range_from_sub in Hin1.
    destruct (tree_entry_route _ _ _ _ _ Hr Hin1) as (n1 & Hn1 & -> & _). destruct (plan_range n1 Hn1) as (_ & _ & Hrn1).
    destruct Hor as [E|[Hlt|[-> _]]%key_lt_net]; [by apply pair_equal_spec in E as [[[-> _]%pair_equal_spec _]%pair_equal_spec _]| |done|done|done].
    unfold probe, dst_cmp, pair_cmp in Hge. cbn [fst snd] in Hge. apply range_cmp_gt in Hlt; [|done|done]. by rewrite Hlt in Hge.
Qed.

Lemma contains_net_ok default_key reg n : routes_ok reg → plan n →
  ∃ b, contains_net default_key reg n = Ret b ∧ (b = true ↔ ∃ g m c, route_of reg g n m = Some c).
Proof.
  intros Hr Hn. unfold contains_net. destruct (plan_range n Hn) as (-> & _ & _). cbn [mbind outcome_bind].
  set (probe := (net_range n, default_key, 0) : DstKey).
  assert (Hsome : ∀ x, x ∈ by_dst reg → x.1.1.1 = net_range n → ∃ g m c, route_of reg g n m = Some c).
  { intros [[[r m] c] ks] Hin E. cbn in E. subst r. destruct (tree_entry_route _ _ _ _ _ Hr Hin) as (n1 & Hn1 & E & Hne & Hk).
    apply net_range_inj in E as <-; [|done|done]. destruct (set_choose_L ks Hne) as [k [g Hg]%Hk].
    exists g, m, c. apply route_of_entry; eauto. }
  destruct (is_net_elem reg n (last (bt_range_to dst_cmp (by_dst reg) probe)) Hr Hn) as (b1 & E1 & H1).
  { intros x ?%last_Some_elem_of. by eapply bt_range_to_sub. }
  destruct (is_net_elem reg n (head (bt_range_from dst_cmp (by_dst reg) probe)) Hr Hn) as (b2 & E2 & H2).
  { intros x ?%head_Some_elem_of. by eapply bt_range_from_sub. }
  exists (b1 || b2). rewrite E1. cbn [mbind outcome_bind]. split; [by destruct b1|].
  rewrite orb_true_iff, H1, H2. split.
  - intros [(x & ?%last_Some_elem_of%bt_range_to_sub & ?)|(x & ?%head_Some_elem_of%bt_range_from_sub & ?)]; by eapply Hsome.
  - intros (g & m & c & Hroute). destruct (dst_tree_entry _ _ _ _ _ Hr Hn Hroute) as (ks & Hin & _).
    destruct (near_probe reg n default_key 0 m c ks Hr Hn Hin) as (x & Hx & [?|?]); eauto.
Qed.

(** Under an address plan, wherever the null key sorts, [contains_net] tells whether some route leads to the net. *)
Theorem contains_net_correct default_key reg n (Hr : routes_ok reg) (Hn : plan n) :
  ∃ b, contains_net default_key reg n = Ret b ∧ (b = true ↔ ∃ g m c, route_of reg g n m = Some c).
Proof. by apply contains_net_ok. Qed.

(** The routes of a gateway *)
Lemma all_routes_by_gw_elem reg a m n c : routes_ok reg → plan n →
  (m, n, c) ∈ all_routes_by_gw reg a ↔ route_of reg (Some a) n m = Some c.
Proof.
  intros Hr Hn. rewrite route_of_entry by done. unfold all_routes_by_gw. rewrite list_elem_of_omap. split.
  - intros ([k e] & Hin & E). case_decide as Hg; [|done]. injection E as <- <- <-. exists k.
    apply sm_drain_elem in Hin. rewrite Hin. destruct e. cbn in *. by rewrite Hg.
  - intros (k & Hk%sm_drain_elem). exists (k, mkRoute m n (Some a) c). split; [done|]. by rewrite decide_True.
Qed.

End Plan.
End Routes.

(** ** Examples *)
Section Examples.
#[local] Existing Instance gmap_slot_map.
#[local] Existing Instance elements_order.

Definition west : NetAddress := mkNet (2 ^ 48) 16.
Definition east : NetAddress := mkNet (2 ^ 49) 16.
Definition two_nets (n : NetAddress) : Prop := n = west ∨ n = east.

#[local] Instance two_nets_plan : AddressPlan two_nets.
Proof.
  split.
  - intros n [->| ->]; (split; [by vm_compute|]); [exists 1|exists 2]; reflexivity.
  - intros n m x [->| ->] [->| ->]; unfold net_contains, west, east; cbn; try done; lia.
Qed.

Definition no_hash (a : Address) : Z := a.

(** Two gateways to [west], at distances 5 and 2, and one to [east]. *)
Definition routes3 : outcome (RouteRegistry (SM := gmap Z)) :=
  '(r, _) ← set_route registry_default 7 west (Some 100) (Some 5);
  '(r, _) ← set_route r 7 west (Some 101) (Some 2);
  '(r, _) ← set_route r 7 east (Some 100) (Some 1);
  Ret r.

Lemma routes3_ok : ∃ r, routes3 = Ret r ∧ routes_ok two_nets r ∧ route_of r (Some 100) west 7 = Some 5 ∧
  route_of r (Some 101) west 7 = Some 2.
Proof.
  assert (Hw : two_nets west) by (by left). assert (He : two_nets east) by (by right).
  unfold routes3.
  destruct (set_route_ok two_nets registry_default 7 west (Some 100) (Some 5)) as (r1 & -> & Hr1 & E1);
    [apply (routes_default two_nets)|done|intros c [= <-]; lia|].
  cbn [mbind outcome_bind].
  destruct (set_route_ok two_nets r1 7 west (Some 101) (Some 2)) as (r2 & -> & Hr2 & E2); [done|done|intros c [= <-]; lia|].
  cbn [mbind outcome_bind].
  destruct (set_route_ok two_nets r2 7 east (Some 100) (Some 1)) as (r3 & -> & Hr3 & E3); [done|done|intros c [= <-]; lia|].
  cbn [mbind outcome_bind]. exists r3. split_and!; [done|done|..].
  - by rewrite E3, E2, E1 by done.
  - by rewrite E3, E2 by done.
Qed.

Lemma set_route_refines_witness : ∃ reg', set_route (SM := gmap Z) registry_default 7 west (Some 100) (Some 5) = Ret (reg', Ok None) ∧
  routes_ok two_nets reg' ∧ route_of reg' (Some 100) west 7 = Some 5.
Proof.
  destruct (set_route_refines two_nets (SM := gmap Z) registry_default 7 west (Some 100) (Some 5)) as (reg' & E & Hr & Hs).
  - apply (routes_default two_nets).
  - by left.
  - intros c [= <-]. lia.
  - exists reg'. split; [exact E|]. split; [exact Hr|]. rewrite Hs by (by left). reflexivity.
Defined.

Lemma find_route_shortest_witness : ∃ r g c, routes3 = Ret r ∧ find_route no_hash r 7 (2 ^ 48 + 9) = Ret (Ok (g, c)) ∧
  route_of r g west 7 = Some c ∧ c ≤ 2.
Proof.
  destruct routes3_ok as (r & Er & Hr & H5 & H2).
  assert (Hx : net_contains west (2 ^ 48 + 9)) by (unfold net_contains, west; cbn; lia).
  destruct (find_route_shortest two_nets no_hash r west 7 _ Hr (or_introl eq_refl) Hx) as [_ Hf].
  destruct (Hf _ _ H5) as (g & c & E & Hg & Hmin). exists r, g, c. split; [exact Er|]. split; [exact E|]. split; [exact Hg|].
  exact (Hmin _ _ H2).
Defined.

Lemma contains_net_correct_witness : ∃ r, routes3 = Ret r ∧ contains_net 0 r west = Ret true.
Proof.
  destruct routes3_ok as (r & Er & Hr & H5 & _). exists r. split; [exact Er|].
  destruct (contains_net_correct two_nets 0 r west Hr (or_introl eq_refl)) as (b & E & Hb).
  rewrite E, (proj2 Hb); [done|]. by exists (Some 100), 7, 5.
Defined.

(** An address outside every routed net is routed to the next net: here an address of [west], when only [east] has a
    route. *)
Theorem find_route_foreign : ∃ r, set_route (SM := gmap Z) registry_default 7 east (Some 100) (Some 1) = Ret (r, Ok None) ∧
  find_route no_hash r 7 (2 ^ 48 + 9) = Ret (Ok (Some 100, 1)) ∧ ¬ net_contains east (2 ^ 48 + 9).
Proof.
  eexists. split; [vm_compute; reflexivity|]. split; [vm_compute; reflexivity|]. unfold net_contains, east. cbn. lia.
Qed.

(** Nets that overlap are accepted, under another gateway and at another distance. *)
Theorem overlap_accepted : ∃ r r', set_route (SM := gmap Z) registry_default 7 (mkNet 0 8) (Some 100) (Some 1) = Ret (r, Ok None) ∧
  set_route r 7 (mkNet 0 16) (Some 101) (Some 2) = Ret (r', Ok None) ∧ net_contains (mkNet 0 8) 5 ∧ net_contains (mkNet 0 16) 5.
Proof.
  eexists _, _. split; [vm_compute; reflexivity|]. split; [vm_compute; reflexivity|]. unfold net_contains. cbn. lia.
Qed.

End Examples.
