(* ===== verification/Protocols.v ===== *)
(** * Codecs, protocols and the registry of message types
    (components/mm1-multinode/src/codec.rs, protocol_registry.rs and
    actors/iostream_connection/multiple_protocols.rs)

    A codec is known, for a type of this program, or opaque, for a name a peer has
    declared. A protocol is a set of codecs; the registry gives each message
    name one key, under which routes and frames refer to it; a connection
    speaks several protocols combined into one. *)

From stdpp Require Import strings.
From S2P Require Import Prelude Collections.

Open Scope Z_scope.

Definition TypeId : Type := Z.
Definition MessageName : Type := string.
Definition ProtocolName : Type := string.

Section Protocols.
Context {SM : Type → Type} `{SlotMap SM}.
(** [std::any::type_name::<T>()], a function of the type *)
Context (type_name : TypeId → MessageName).

(** [Known<T>] and [Opaque], behind [dyn ErasedCodecApi] *)
Inductive Codec := Known (message_type : TypeId) | Opaque (message_name : MessageName).

(** [ErasedCodecApi::tid] and [name] *)
Definition codec_tid (c : Codec) : option TypeId := match c with Known t => Some t | Opaque _ => None end.
Definition codec_name (c : Codec) : MessageName := match c with Known t => type_name t | Opaque n => n end.

(** ** Protocols *)
Record Protocol := mkProtocol {
  codecs : SM Codec;
  by_type_id : gmap TypeId Z;
  by_type_name : gmap MessageName Z;
}.

(** [Protocol::new] *)
Definition protocol_new : Protocol := mkProtocol sm_empty ∅ ∅.

(** [Protocol::tmp_add_any_codec_really] *)
Definition add_codec (p : Protocol) (erased_codec : Codec) : outcome Protocol :=
  let type_id_opt := codec_tid erased_codec in
  let type_name := codec_name erased_codec in
  match by_type_name p !! type_name with
  | Some _ => Ret p
  | None =>
      assert_ (match type_id_opt with Some type_id => bool_decide (by_type_id p !! type_id = None) | None => true end);;
      let '(codecs, key) := sm_insert (codecs p) erased_codec in
      Ret (mkProtocol codecs
             (match type_id_opt with Some type_id => <[type_id := key]> (by_type_id p) | None => by_type_id p end)
             (<[type_name := key]> (by_type_name p)))
  end.

(** [Protocol::add_type], [add_outbound_codec], [add_inbound_codec] *)
Definition add_type (p : Protocol) (t : TypeId) : outcome Protocol := add_codec p (Known t).
Definition add_outbound_codec (p : Protocol) (c : Codec) : outcome (Protocol * result unit unit) := p ← add_codec p c; Ret (p, Ok tt).
Definition add_inbound_codec (p : Protocol) (c : Codec) : outcome (Protocol * result unit unit) := p ← add_codec p c; Ret (p, Ok tt).

(** [Protocol::outbound_types] and [inbound_types] *)
Definition outbound_types (p : Protocol) : list Codec := (sm_drain (codecs p)).*2.
Definition inbound_types (p : Protocol) : list Codec := (sm_drain (codecs p)).*2.

(** ** The registry *)
Record ProtocolRegistry := mkRegistry {
  protocols : gmap ProtocolName Protocol;
  reg_codecs : SM Codec;
  codec_by_name : gmap MessageName Z;
  codec_by_type_id : gmap TypeId Z;
}.

Definition protocol_registry_default : ProtocolRegistry := mkRegistry ∅ sm_empty ∅ ∅.

(** [register_known_message] *)
Definition register_known_message (reg : ProtocolRegistry) (codec : Codec) : outcome (ProtocolRegistry * Z) :=
  type_id ← expect (codec_tid codec);
  let name := codec_name codec in
  match codec_by_type_id reg !! type_id with
  | Some existing => Ret (reg, existing)
  | None =>
      match codec_by_name reg !! name with
      | None =>
          let '(codecs, codec_key) := sm_insert (reg_codecs reg) codec in
          Ret (mkRegistry (protocols reg) codecs (<[name := codec_key]> (codec_by_name reg))
                 (<[type_id := codec_key]> (codec_by_type_id reg)), codec_key)
      | Some codec_key =>
          _ ← expect (sm_get (reg_codecs reg) codec_key);
          Ret (mkRegistry (protocols reg) (sm_set (reg_codecs reg) codec_key codec) (codec_by_name reg)
                 (<[type_id := codec_key]> (codec_by_type_id reg)), codec_key)
      end
  end.

(** [register_opaque_codec] *)
Definition register_opaque_codec (reg : ProtocolRegistry) (codec : Codec) : outcome (ProtocolRegistry * Z) :=
  assert_ (bool_decide (codec_tid codec = None));;
  match codec_by_name reg !! codec_name codec with
  | Some existing => Ret (reg, existing)
  | None =>
      let '(codecs, codec_key) := sm_insert (reg_codecs reg) codec in
      Ret (mkRegistry (protocols reg) codecs (<[codec_name codec := codec_key]> (codec_by_name reg))
             (codec_by_type_id reg), codec_key)
  end.

(** [ProtocolRegistry::register_message] *)
Definition register_message (reg : ProtocolRegistry) (codec : Codec) : outcome (ProtocolRegistry * Z) :=
  match codec_tid codec with
  | Some _ => register_known_message reg codec
  | None => register_opaque_codec reg codec
  end.

(** [types.map(|c| (c.name(), registry.register_message(c))).collect()] *)
Fixpoint register_messages (reg : ProtocolRegistry) (cs : list Codec) : outcome (ProtocolRegistry * list (MessageName * Z)) :=
  match cs with
  | [] => Ret (reg, [])
  | c :: cs =>
      '(reg, key) ← register_message reg c;
      '(reg, keys) ← register_messages reg cs;
      Ret (reg, (codec_name c, key) :: keys)
  end.

(** The loop of [register_protocol], over [register_known_message] *)
Fixpoint register_known_messages (reg : ProtocolRegistry) (cs : list Codec) : outcome ProtocolRegistry :=
  match cs with
  | [] => Ret reg
  | c :: cs => '(reg, _) ← register_known_message reg c; register_known_messages reg cs
  end.

Inductive RegisterProtocolErrorKind := DuplicateProtocolName.
Inductive UnregisterProtocolErrorKind := NoProtocol | ProtocolInUse.

(** [ProtocolRegistry::register_protocol] *)
Definition register_protocol (reg : ProtocolRegistry) (name : ProtocolName) (protocol : Protocol) :
    outcome (ProtocolRegistry * result unit RegisterProtocolErrorKind) :=
  match protocols reg !! name with
  | Some _ => Ret (reg, Err DuplicateProtocolName)
  | None =>
      reg ← register_known_messages reg (outbound_types protocol ++ inbound_types protocol);
      Ret (mkRegistry (<[name := protocol]> (protocols reg)) (reg_codecs reg) (codec_by_name reg) (codec_by_type_id reg), Ok tt)
  end.

(** [ProtocolRegistry::unregister_protocol]; [shared] is whether another [Arc] of the protocol is alive. *)
Definition unregister_protocol (reg : ProtocolRegistry) (name : ProtocolName) (shared : bool) :
    ProtocolRegistry * result unit UnregisterProtocolErrorKind :=
  match protocols reg !! name with
  | None => (reg, Err NoProtocol)
  | Some _ =>
      if shared then (reg, Err ProtocolInUse)
      else (mkRegistry (delete name (protocols reg)) (reg_codecs reg) (codec_by_name reg) (codec_by_type_id reg), Ok tt)
  end.

(** [protocol_by_name], [local_type_key_by_tid], [message_name_by_key] *)
Definition protocol_by_name (reg : ProtocolRegistry) (name : ProtocolName) : option Protocol := protocols reg !! name.
Definition local_type_key_by_tid (reg : ProtocolRegistry) (tid : TypeId) : option Z := codec_by_type_id reg !! tid.
Definition message_name_by_key (reg : ProtocolRegistry) (key : Z) : outcome MessageName :=
  codec ← expect (sm_get (reg_codecs reg) key); Ret (codec_name codec).

(** ** Several protocols as one *)
Record ProtocolResolved := mkResolved {
  protocol : Protocol;
  outbound : list (MessageName * Z);
  inbound : list (MessageName * Z);
}.

Section Reduce.
Context {BM : Type} `{!BiMap MessageName Z BM}.

Fixpoint add_codecs (p : Protocol) (cs : list Codec) : outcome Protocol :=
  match cs with
  | [] => Ret p
  | c :: cs => p ← add_codec p c; add_codecs p cs
  end.

(** The loops over the name-key pairs of a protocol *)
Fixpoint combine_keys (combined : BM) (keys : list (MessageName * Z)) : result BM unit :=
  match keys with
  | [] => Ok combined
  | (name, key) :: keys =>
      match bm_insert combined name key with
      | (combined, Neither) | (combined, Both) => combine_keys combined keys
      | _ => Err tt
      end
  end.

Fixpoint reduce_loop (combined_protocol : Protocol) (combined_outbound combined_inbound : BM) (ps : list ProtocolResolved) :
    outcome (result ProtocolResolved unit) :=
  match ps with
  | [] => Ret (Ok (mkResolved combined_protocol (bm_pairs combined_outbound) (bm_pairs combined_inbound)))
  | p :: ps =>
      combined_protocol ← add_codecs combined_protocol (outbound_types (protocol p));
      combined_protocol ← add_codecs combined_protocol (inbound_types (protocol p));
      match combine_keys combined_outbound (outbound p) with
      | Err e => Ret (Err e)
      | Ok combined_outbound =>
          match combine_keys combined_inbound (inbound p) with
          | Err e => Ret (Err e)
          | Ok combined_inbound => reduce_loop combined_protocol combined_outbound combined_inbound ps
          end
      end
  end.

(** [multiple_protocols::reduce] *)
Definition reduce (ps : list ProtocolResolved) : outcome (result ProtocolResolved unit) :=
  reduce_loop protocol_new bm_empty bm_empty ps.

End Reduce.

(** ** Protocols: the tables agree *)
Definition protocol_ok (p : Protocol) : Prop :=
  (∀ n k, by_type_name p !! n = Some k ↔ ∃ c, sm_get (codecs p) k = Some c ∧ codec_name c = n) ∧
  (∀ t k, by_type_id p !! t = Some k ↔ sm_get (codecs p) k = Some (Known t)).

Lemma protocol_new_ok : protocol_ok protocol_new.
Proof.
  split; cbn.
  - intros n k. rewrite lookup_empty. split; [done|]. intros (c & Hc & _). by rewrite sm_get_empty in Hc.
  - intros t k. by rewrite lookup_empty, sm_get_empty.
Qed.

Lemma add_codec_ok p c : protocol_ok p →
  ∃ p', add_codec p c = Ret p' ∧ protocol_ok p' ∧
    ∀ n, is_Some (by_type_name p' !! n) ↔ n = codec_name c ∨ is_Some (by_type_name p !! n).
Proof.
  intros [Hn Ht]. unfold add_codec. destruct (by_type_name p !! codec_name c) as [k0|] eqn:E.
  { exists p. split_and!; [done|done|]. intros n. split; [by right|]. intros [->|?]; [by eexists|done]. }
  assert (Hnew : ∀ k c', sm_get (codecs p) k = Some c' → codec_name c' ≠ codec_name c).
  { intros k c' Hk Hc. assert (by_type_name p !! codec_name c = Some k) by (apply Hn; eauto). congruence. }
  assert (Ha : match codec_tid c with Some t => bool_decide (by_type_id p !! t = None) | None => true end = true).
  { destruct c as [t|n]; cbn; [|done]. apply bool_decide_eq_true. destruct (by_type_id p !! t) as [k|] eqn:Et; [|done].
    apply Ht, Hnew in Et. done. }
  rewrite assert_true by done. cbn [mbind outcome_bind].
  pose proof (sm_insert_fresh (codecs p) c) as Hf. pose proof (sm_get_insert (codecs p) c) as Hi.
  destruct (sm_insert (codecs p) c) as [cs key]. cbn [fst snd] in *. eexists. split; [done|]. split.
  - split; cbn.
    + intros n k. rewrite Hi. destruct (decide (n = codec_name c)) as [->|Hne].
      * rewrite lookup_insert_eq. split; [intros [= <-]; rewrite decide_True by done; eauto|].
        intros (c' & Hc' & Ec). case_decide as Hk; [by subst|]. by destruct (Hnew _ _ Hc').
      * rewrite lookup_insert_ne by done. rewrite Hn. case_decide as Hk; [|done]. subst k. rewrite Hf. naive_solver.
    + intros t k. rewrite Hi. destruct c as [t'|n']; cbn in *.
      * destruct (decide (t = t')) as [->|Hne].
        -- rewrite lookup_insert_eq. case_decide as Hk; [by subst|]. split; [by intros [= <-]|]. intros ?%Hnew. done.
        -- rewrite lookup_insert_ne, Ht by done. case_decide as Hk; [|done]. subst k. rewrite Hf. naive_solver.
      * rewrite Ht. case_decide as Hk; [|done]. subst k. rewrite Hf. naive_solver.
  - intros n. cbn. destruct (decide (n = codec_name c)) as [->|Hne]; [rewrite lookup_insert_eq; naive_solver|].
    rewrite lookup_insert_ne by done. naive_solver.
Qed.

Lemma add_codecs_ok p cs : protocol_ok p → ∃ p', add_codecs p cs = Ret p' ∧ protocol_ok p' ∧
  ∀ n, is_Some (by_type_name p' !! n) ↔ n ∈ codec_name <$> cs ∨ is_Some (by_type_name p !! n).
Proof.
  revert p. induction cs as [|c cs IH]; intros p Hp; cbn.
  - exists p. split_and!; [done|done|]. intros n. rewrite elem_of_nil. tauto.
  - destruct (add_codec_ok p c Hp) as (p1 & -> & Hp1 & Hn1). cbn. destruct (IH p1 Hp1) as (p2 & -> & Hp2 & Hn2).
    exists p2. split_and!; [done|done|]. intros n. rewrite Hn2, Hn1, elem_of_cons. tauto.
Qed.

(** ** The registry: one key per name *)
Definition registry_ok (reg : ProtocolRegistry) : Prop :=
  (∀ n k, codec_by_name reg !! n = Some k ↔ ∃ c, sm_get (reg_codecs reg) k = Some c ∧ codec_name c = n) ∧
  (∀ t k, codec_by_type_id reg !! t = Some k → codec_by_name reg !! type_name t = Some k).

Lemma registry_default_ok : registry_ok protocol_registry_default.
Proof.
  split; cbn.
  - intros n k. rewrite lookup_empty. split; [done|]. intros (c & Hc & _). by rewrite sm_get_empty in Hc.
  - intros t k. by rewrite lookup_empty.
Qed.

Lemma registry_name reg n k : registry_ok reg → codec_by_name reg !! n = Some k → message_name_by_key reg k = Ret n.
Proof. intros [Hn _] (c & Hc & <-)%Hn. unfold message_name_by_key. by rewrite Hc. Qed.

(** What registering a message gives: a key for its name, old or new *)
Record registered (reg reg' : ProtocolRegistry) (c : Codec) (k : Z) : Prop := {
  rg_ok : registry_ok reg';
  rg_protocols : protocols reg' = protocols reg;
  rg_key : codec_by_name reg' !! codec_name c = Some k;
  rg_others n : n ≠ codec_name c → codec_by_name reg' !! n = codec_by_name reg !! n;
  rg_stable k0 : codec_by_name reg !! codec_name c = Some k0 → k0 = k;
  rg_tid t : codec_tid c = Some t → local_type_key_by_tid reg' t = Some k;
}.

Lemma registered_new reg c ids : registry_ok reg → codec_by_name reg !! codec_name c = None →
  (∀ t, codec_tid c = Some t → ids = <[t := (sm_insert (reg_codecs reg) c).2]> (codec_by_type_id reg)) →
  (codec_tid c = None → ids = codec_by_type_id reg) →
  let '(cs, k) := sm_insert (reg_codecs reg) c in
  registered reg (mkRegistry (protocols reg) cs (<[codec_name c := k]> (codec_by_name reg)) ids) c k.
Proof.
  intros [Hn Ht] E Hids1 Hids2. pose proof (sm_insert_fresh (reg_codecs reg) c) as Hf. pose proof (sm_get_insert (reg_codecs reg) c) as Hi.
  destruct (sm_insert (reg_codecs reg) c) as [cs key]. cbn [fst snd] in *. split; cbn; try done.
  - split; cbn.
    + intros n k. rewrite Hi. destruct (decide (n = codec_name c)) as [->|Hne].
      * rewrite lookup_insert_eq. split; [intros [= <-]; rewrite decide_True by done; eauto|].
        intros (c' & Hc' & Ec). case_decide as Hk; [by subst|]. assert (codec_by_name reg !! codec_name c = Some k) by (apply Hn; eauto). congruence.
      * rewrite lookup_insert_ne by done. rewrite Hn. case_decide as Hk; [|done]. subst k. rewrite Hf. naive_solver.
    + assert (Hold : ∀ t k, codec_by_type_id reg !! t = Some k → <[codec_name c := key]> (codec_by_name reg) !! type_name t = Some k).
      { intros t k Hk%Ht. rewrite lookup_insert_ne; [done|]. intros Heq. rewrite <- Heq in Hk. congruence. }
      intros t k. destruct c as [t'|n']; cbn in *; [|rewrite Hids2 by done; apply Hold].
      rewrite (Hids1 t') by done. destruct (decide (t = t')) as [->|Hne]; [rewrite !lookup_insert_eq; congruence|].
      rewrite lookup_insert_ne by done. apply Hold.
  - by rewrite lookup_insert_eq.
  - intros n Hne. by rewrite lookup_insert_ne.
  - congruence.
  - intros t Hc. unfold local_type_key_by_tid. cbn. rewrite (Hids1 t) by done. by rewrite lookup_insert_eq.
Qed.

Lemma register_message_ok reg c : registry_ok reg →
  ∃ reg' k, register_message reg c = Ret (reg', k) ∧ registered reg reg' c k.
Proof.
  intros Hr. pose proof Hr as [Hn Ht]. unfold register_message. destruct c as [t|n]; cbn [codec_tid].
  - unfold register_known_message. cbn [codec_tid expect mbind outcome_bind].
    destruct (codec_by_type_id reg !! t) as [k|] eqn:Et.
    { exists reg, k. split; [done|]. pose proof (Ht _ _ Et) as E. split; cbn; try done; [congruence|].
      intros t' [= <-]. done. }
    destruct (codec_by_name reg !! codec_name (Known t)) as [k|] eqn:E.
    + pose proof E as (c & Hc & Ec)%Hn. rewrite Hc. cbn [expect mbind outcome_bind]. eexists _, k. split; [done|]. split; cbn; try done.
      * assert (Hs : ∀ k', sm_get (sm_set (reg_codecs reg) k (Known t)) k' = if decide (k' = k) then Some (Known t) else sm_get (reg_codecs reg) k')
          by (intros; by apply sm_get_set).
        split; cbn.
        -- intros n k'. rewrite Hs, Hn. case_decide as Hk; [|done]. subst k'. rewrite Hc. split; intros (c' & [= <-] & <-); eauto.
        -- intros t' k'. destruct (decide (t' = t)) as [->|Hne]; [rewrite lookup_insert_eq; by intros [= <-]|].
           rewrite lookup_insert_ne by done. apply Ht.
      * cbn in E. congruence.
      * intros t' [= <-]. unfold local_type_key_by_tid. cbn. by rewrite lookup_insert_eq.
    + pose proof (registered_new reg (Known t) (<[t := (sm_insert (reg_codecs reg) (Known t)).2]> (codec_by_type_id reg)) Hr E) as Hreg.
      destruct (sm_insert (reg_codecs reg) (Known t)) as [cs key]. eexists _, _. split; [done|]. apply Hreg; [by intros t' [= <-]|done].
  - unfold register_opaque_codec. cbn [codec_tid]. rewrite assert_true by (by apply bool_decide_eq_true). cbn [mbind outcome_bind].
    destruct (codec_by_name reg !! codec_name (Opaque n)) as [k|] eqn:E.
    + exists reg, k. split; [done|]. split; try done. intros k0 Hk0. congruence.
    + pose proof (registered_new reg (Opaque n) (codec_by_type_id reg) Hr E) as Hreg.
      destruct (sm_insert (reg_codecs reg) (Opaque n)) as [cs key]. eexists _, _. split; [done|]. by apply Hreg.
Qed.

Lemma registered_sub reg reg' c k : registered reg reg' c k → codec_by_name reg ⊆ codec_by_name reg'.
Proof.
  intros Hg. apply map_subseteq_spec. intros n k0 Hk. destruct (decide (n = codec_name c)) as [->|Hne].
  - apply (rg_stable _ _ _ _ Hg) in Hk as ->. apply (rg_key _ _ _ _ Hg).
  - by rewrite (rg_others _ _ _ _ Hg).
Qed.

Lemma register_messages_ok reg cs : registry_ok reg →
  ∃ reg' keys, register_messages reg cs = Ret (reg', keys) ∧ registry_ok reg' ∧ protocols reg' = protocols reg ∧
    codec_by_name reg ⊆ codec_by_name reg' ∧ keys.*1 = codec_name <$> cs ∧
    ∀ n k, (n, k) ∈ keys → codec_by_name reg' !! n = Some k.
Proof.
  revert reg. induction cs as [|c cs IH]; intros reg Hr; cbn.
  - exists reg, []. split_and!; try done. intros n k ?%not_elem_of_nil; done.
  - destruct (register_message_ok reg c Hr) as (reg1 & k & -> & Hg). cbn.
    destruct (IH reg1 (rg_ok _ _ _ _ Hg)) as (reg2 & keys & -> & Hr2 & Hp & Hsub & Hnames & Hkeys). cbn.
    eexists _, _. split_and!; [done|done|by rewrite Hp, (rg_protocols _ _ _ _ Hg)| |by rewrite fmap_cons, Hnames|].
    + etrans; [by eapply registered_sub|done].
    + intros n k' [[= -> ->]|Hin]%elem_of_cons; [|by apply Hkeys]. eapply map_subseteq_spec; [done|]. apply (rg_key _ _ _ _ Hg).
Qed.

(** A message name has one key for the life of the registry: registering codecs, known or opaque, in any order never panics,
    keeps the key of every name already registered, gives two codecs the same key exactly when they have the same name, and every
    key handed out resolves to its name. *)
Theorem message_keys_stable reg cs (Hr : registry_ok reg) :
  ∃ reg' keys, register_messages reg cs = Ret (reg', keys) ∧ registry_ok reg' ∧
    codec_by_name reg ⊆ codec_by_name reg' ∧ keys.*1 = codec_name <$> cs ∧
    (∀ n k, (n, k) ∈ keys → message_name_by_key reg' k = Ret n) ∧
    (∀ n1 k1 n2 k2, (n1, k1) ∈ keys → (n2, k2) ∈ keys → k1 = k2 ↔ n1 = n2).
Proof.
  destruct (register_messages_ok reg cs Hr) as (reg' & keys & E & Hr' & _ & Hsub & Hnames & Hkeys).
  exists reg', keys. split_and!; try done.
  - intros n k Hin%Hkeys. by apply registry_name.
  - intros n1 k1 n2 k2 H1%Hkeys H2%Hkeys. split; [|congruence]. intros ->.
    apply registry_name in H1; [|done]. apply registry_name in H2; [|done]. congruence.
Qed.

Lemma register_known_messages_ok reg cs : registry_ok reg → Forall (λ c, is_Some (codec_tid c)) cs →
  ∃ reg', register_known_messages reg cs = Ret reg' ∧ registry_ok reg' ∧ protocols reg' = protocols reg ∧
    codec_by_name reg ⊆ codec_by_name reg' ∧
    ∀ t, Known t ∈ cs → is_Some (codec_by_name reg' !! type_name t).
Proof.
  revert reg. induction cs as [|c cs IH]; intros reg Hr Hcs; cbn.
  - exists reg. split_and!; try done. intros t ?%not_elem_of_nil; done.
  - apply Forall_cons in Hcs as [[t Hc] Hcs]. destruct (register_message_ok reg c Hr) as (reg1 & k & E & Hg).
    unfold register_message in E. rewrite Hc in E. rewrite E. cbn.
    destruct (IH reg1 (rg_ok _ _ _ _ Hg) Hcs) as (reg2 & -> & Hr2 & Hp & Hsub & Hkeys).
    eexists. split_and!; [done|done|by rewrite Hp, (rg_protocols _ _ _ _ Hg)|etrans; [by eapply registered_sub|done]|].
    intros t' [<-|Hin]%elem_of_cons; [|by apply Hkeys]. exists k. eapply map_subseteq_spec; [done|]. apply (rg_key _ _ _ _ Hg).
Qed.

(** Registering a protocol of known types: a second of the same name is refused with nothing changed; else it is found under its name,
    and each of its types has a key. *)
Lemma register_protocol_ok reg name p : registry_ok reg → Forall (λ c, is_Some (codec_tid c)) (outbound_types p) →
  (is_Some (protocols reg !! name) → register_protocol reg name p = Ret (reg, Err DuplicateProtocolName)) ∧
  (protocols reg !! name = None → ∃ reg', register_protocol reg name p = Ret (reg', Ok tt) ∧ registry_ok reg' ∧
    protocols reg' = <[name := p]> (protocols reg) ∧ codec_by_name reg ⊆ codec_by_name reg').
Proof.
  intros Hr Hp. unfold register_protocol. split; [by intros [q ->]|]. intros ->.
  destruct (register_known_messages_ok reg (outbound_types p ++ inbound_types p)) as (reg' & -> & Hr' & Hps & Hsub & _); [done|by apply Forall_app|].
  cbn. eexists. split; [done|]. rewrite Hps. done.
Qed.

(** Unregistering only takes protocols away: the keys of the messages stay. *)
Lemma unregister_protocol_ok reg name shared : ∃ ps r, unregister_protocol reg name shared =
  (mkRegistry ps (reg_codecs reg) (codec_by_name reg) (codec_by_type_id reg), r) ∧ ps ⊆ protocols reg.
Proof.
  unfold unregister_protocol. destruct (protocols reg !! name), shared; try (exists (protocols reg); eexists; split; [by destruct reg|done]).
  eexists _, _. split; [done|]. apply delete_subseteq.
Qed.

(** ** Combining protocols *)
Section ReduceSpec.
Context {BM : Type} `{!BiMap MessageName Z BM}.

(** The keys of a registry: a name determines its key and a key its name. *)
Definition keyed (f : MessageName → Z) (keys : list (MessageName * Z)) : Prop :=
  Inj (=) (=) f ∧ ∀ n k, (n, k) ∈ keys → k = f n.

Lemma combine_keys_spec f keys (b : BM) : keyed f (keys ++ bm_pairs b) → NoDup (bm_pairs b).*1 →
  if decide (NoDup (keys ++ bm_pairs b).*1) then ∃ b', combine_keys b keys = Ok b' ∧ bm_pairs b' ≡ₚ keys ++ bm_pairs b
  else combine_keys b keys = Err tt.
Proof.
  revert b. induction keys as [|[n k] keys IH]; intros b [Hinj Hf] Hb; cbn [combine_keys app].
  { rewrite decide_True by done. eauto. }
  assert (Hk : k = f n) by (apply Hf; by left). destruct (bm_insert b n k) as [b' o] eqn:E.
  pose proof (bm_insert_pairs b n k) as Hp. rewrite E in Hp. cbn [fst] in Hp. destruct (decide (n ∈ (bm_pairs b).*1)) as [Hin|Hin].
  - rewrite decide_False.
    2: { rewrite fmap_cons, fmap_app. intros [Hn _]%NoDup_cons. apply Hn. apply elem_of_app. by right. }
    apply list_elem_of_fmap in Hin as ([n' k'] & -> & Hin). cbn in *.
    assert (k' = k) as -> by (rewrite Hk; apply Hf; right; apply elem_of_app; by right).
    pose proof (proj2 (bm_insert_pair b n' k) Hin) as Ho. rewrite E in Ho. cbn in Ho. by subst o.
  - assert (Hne : ∀ p, p ∈ bm_pairs b → p.1 ≠ n ∧ p.2 ≠ k).
    { intros [n' k'] Hp'. assert (Hnn : n' ≠ n) by (intros ->; apply Hin, list_elem_of_fmap; by exists (n, k')). split; [done|]. cbn.
      intros ->. assert (k = f n') by (apply Hf; right; apply elem_of_app; by right). apply Hnn, Hinj. congruence. }
    pose proof (proj2 (bm_insert_neither b n k) Hne) as Ho. rewrite E in Ho. cbn in Ho. subst o.
    rewrite filter_all in Hp by (by apply Forall_forall).
    assert (Hp' : keys ++ bm_pairs b' ≡ₚ (n, k) :: keys ++ bm_pairs b) by (rewrite Hp; by rewrite Permutation_middle).
    assert (Hd : NoDup (keys ++ bm_pairs b').*1 ↔ NoDup ((n, k) :: keys ++ bm_pairs b).*1) by (by rewrite Hp').
    assert (Hkey : keyed f (keys ++ bm_pairs b')) by (split; [done|]; intros n' k' Hin'; rewrite Hp' in Hin'; by apply Hf).
    assert (Hnd : NoDup (bm_pairs b').*1) by (rewrite Hp; cbn; by constructor).
    specialize (IH b' Hkey Hnd). case_decide; case_decide; try tauto. destruct IH as (b2 & E2 & Hb2). exists b2. by rewrite Hb2.
Qed.

Definition keys_of (dir : ProtocolResolved → list (MessageName * Z)) (ps : list ProtocolResolved) : list (MessageName * Z) := ps ≫= dir.

Lemma combine_step f keys rest (b : BM) : keyed f ((keys ++ rest) ++ bm_pairs b) → NoDup (bm_pairs b).*1 →
  (∃ b', combine_keys b keys = Ok b' ∧ rest ++ bm_pairs b' ≡ₚ (keys ++ rest) ++ bm_pairs b ∧ NoDup (bm_pairs b').*1 ∧
    keyed f (rest ++ bm_pairs b')) ∨
  (combine_keys b keys = Err tt ∧ ¬ NoDup ((keys ++ rest) ++ bm_pairs b).*1).
Proof.
  intros [Hinj Hf] Hb.
  assert (Hp0 : (keys ++ rest) ++ bm_pairs b ≡ₚ rest ++ keys ++ bm_pairs b) by (rewrite (Permutation_app_comm keys rest); by rewrite app_assoc).
  assert (Hk : keyed f (keys ++ bm_pairs b)).
  { split; [done|]. intros n k Hin. apply Hf. rewrite Hp0. apply elem_of_app. by right. }
  pose proof (combine_keys_spec f keys b Hk Hb) as Hc. case_decide as Hd.
  - destruct Hc as (b' & -> & Hp). left. exists b'.
    assert (Hpp : rest ++ bm_pairs b' ≡ₚ (keys ++ rest) ++ bm_pairs b) by (by rewrite Hp, Hp0).
    split_and!; [done|done|by rewrite Hp|]. split; [done|]. intros n k Hin. apply Hf. by rewrite <- Hpp.
  - right. split; [done|]. intros Hn. apply Hd. rewrite Hp0, fmap_app in Hn. by apply NoDup_app in Hn as (_ & _ & ?).
Qed.

Lemma reduce_loop_spec f ps p (bo bi : BM) : protocol_ok p →
  keyed f (keys_of outbound ps ++ bm_pairs bo) → keyed f (keys_of inbound ps ++ bm_pairs bi) →
  NoDup (bm_pairs bo).*1 → NoDup (bm_pairs bi).*1 →
  (NoDup (keys_of outbound ps ++ bm_pairs bo).*1 ∧ NoDup (keys_of inbound ps ++ bm_pairs bi).*1 →
    ∃ r, reduce_loop p bo bi ps = Ret (Ok r) ∧ protocol_ok (protocol r) ∧
      outbound r ≡ₚ keys_of outbound ps ++ bm_pairs bo ∧ inbound r ≡ₚ keys_of inbound ps ++ bm_pairs bi) ∧
  (¬ (NoDup (keys_of outbound ps ++ bm_pairs bo).*1 ∧ NoDup (keys_of inbound ps ++ bm_pairs bi).*1) →
    reduce_loop p bo bi ps = Ret (Err tt)).
Proof.
  revert p bo bi. induction ps as [|q ps IH]; intros p bo bi Hp Ho Hi Hbo Hbi; cbn [reduce_loop].
  - cbn. split; [|tauto]. intros _. eexists. split_and!; done.
  - destruct (add_codecs_ok p (outbound_types (protocol q)) Hp) as (p1 & -> & Hp1 & _).
    destruct (add_codecs_ok p1 (inbound_types (protocol q)) Hp1) as (p2 & E2 & Hp2 & _). cbn [mbind outcome_bind]. rewrite E2. cbn [mbind outcome_bind].
    change (keys_of outbound (q :: ps)) with (outbound q ++ keys_of outbound ps) in *.
    change (keys_of inbound (q :: ps)) with (inbound q ++ keys_of inbound ps) in *.
    destruct (combine_step f _ _ bo Ho Hbo) as [(bo' & -> & Po & Hbo' & Ho')|[-> Hno]]; [|split; [tauto|done]].
    destruct (combine_step f _ _ bi Hi Hbi) as [(bi' & -> & Pi & Hbi' & Hi')|[-> Hni]]; [|split; [tauto|done]].
    destruct (IH p2 bo' bi') as [IH1 IH2]; try done. rewrite <- Po, <- Pi. split; [|done].
    intros (r & E & Hr & H1 & H2)%IH1. exists r. by rewrite <- Po, <- Pi.
Qed.

(** Combining the protocols of a connection, whose messages carry the keys of the registry, never panics, and succeeds exactly when
    no message name occurs twice: then the combined protocol has precisely the names and keys of its parts, and otherwise the
    connection is refused. *)
Theorem reduce_spec f ps (Ho : keyed f (keys_of outbound ps)) (Hi : keyed f (keys_of inbound ps)) :
  (NoDup (keys_of outbound ps).*1 ∧ NoDup (keys_of inbound ps).*1 →
    ∃ r, reduce (BM := BM) ps = Ret (Ok r) ∧ protocol_ok (protocol r) ∧
      outbound r ≡ₚ keys_of outbound ps ∧ inbound r ≡ₚ keys_of inbound ps) ∧
  (¬ (NoDup (keys_of outbound ps).*1 ∧ NoDup (keys_of inbound ps).*1) → reduce (BM := BM) ps = Ret (Err tt)).
Proof.
  pose proof (reduce_loop_spec f ps protocol_new (bm_empty (BM := BM)) bm_empty protocol_new_ok) as Hs.
  rewrite bm_pairs_empty, !app_nil_r in Hs. apply Hs; [done|done|constructor|constructor].
Qed.

End ReduceSpec.
End Protocols.

(** ** Examples *)
Section Examples.
#[local] Existing Instance gmap_slot_map.
#[local] Instance names_bimap : BiMap MessageName Z (list (MessageName * Z)) := list_bimap.

Definition names (t : TypeId) : MessageName := if t =? 1 then "app::Ping" else if t =? 2 then "app::Pong" else "app::Other".

Lemma message_keys_stable_witness : ∃ reg k1 k2, register_messages (SM := gmap Z) names protocol_registry_default
    [Opaque "app::Ping"; Known 2; Known 1] = Ret (reg, [("app::Ping", k1); ("app::Pong", k2); ("app::Ping", k1)]) ∧
  message_name_by_key names reg k2 = Ret "app::Pong" ∧ k1 ≠ k2.
Proof.
  destruct (message_keys_stable (SM := gmap Z) names protocol_registry_default [Opaque "app::Ping"; Known 2; Known 1]
    (registry_default_ok names)) as (reg & keys & E & _ & _ & Hn & Hk & Hi).
  vm_compute in E. injection E as <- <-. eexists _, _, _. split; [vm_compute; reflexivity|].
  split; [apply Hk; right; left|]. intros Hc. apply (Hi "app::Ping" _ "app::Pong") in Hc; [done|left|right; left].
Defined.

Definition protocol_of (ts : list TypeId) : Protocol (SM := gmap Z) :=
  match add_codecs names protocol_new (Known <$> ts) with Ret p => p | Panic => protocol_new end.
Definition key_of (n : MessageName) : Z := Z.pos (encode n).

(** Protocols of one type and of two *)
Definition ping : ProtocolResolved := mkResolved (protocol_of [1]) [("app::Ping", key_of "app::Ping")] [("app::Ping", key_of "app::Ping")].
Definition pong : ProtocolResolved := mkResolved (protocol_of [2]) [("app::Pong", key_of "app::Pong")] [("app::Pong", key_of "app::Pong")].

Lemma key_of_inj : Inj (=) (=) key_of.
Proof. intros n m [= E]. by apply (inj encode) in E. Qed.

Lemma reduce_spec_witness : (∃ r, reduce names (BM := list (MessageName * Z)) [ping; pong] = Ret (Ok r) ∧ outbound r ≡ₚ keys_of outbound [ping; pong]) ∧
  reduce names (BM := list (MessageName * Z)) [ping; ping] = Ret (Err tt).
Proof.
  assert (Hk : ∀ keys, Forall (λ p, p.2 = key_of p.1) keys → keyed key_of keys).
  { intros keys Hf. split; [exact key_of_inj|]. intros n k Hin. rewrite Forall_forall in Hf. exact (Hf _ Hin). }
  split.
  - destruct (reduce_spec names (BM := list (MessageName * Z)) key_of [ping; pong]) as [Hs _].
    1-2: apply Hk; repeat constructor.
    destruct Hs as (r & E & _ & Ho & _).
    { split; cbn; apply NoDup_cons; (split; [set_solver|]); apply NoDup_singleton. }
    exists r. split; [exact E|exact Ho].
  - apply (reduce_spec names (BM := list (MessageName * Z)) key_of [ping; ping]).
    1-2: apply Hk; repeat constructor.
    intros [Hn _]. cbn in Hn. apply NoDup_cons in Hn as [Hn _]. apply Hn. by left.
Defined.
End Examples.
