(* ===== verification/Manager.v ===== *)
(** * The multinode manager (components/mm1-multinode/src/actors/multinode_manager.rs)

    The actor that keeps the node's routes, protocols and interfaces. Its handlers are
    functions of its state that yield the new state, the messages sent, and the
    reply; what the handler asks of other actors or of the runtime comes as an
    argument: the answer of a supervisor, the reference of a watch, the key of a timer. *)

From stdpp Require Import strings.
From S2P Require Import Prelude U64 Address Subnet Collections Btree Routes Protocols.

Open Scope Z_scope.

Definition RequestHeader : Type := Z.
Definition WatchRef : Type := Z.
Definition WaitlistKey : Type := Z.
Definition OneshotKey : Type := Z.

(** [proto::SetRoute] *)
Record SetRoute := mkSetRoute {
  sr_message : LocalTypeKey;
  destination : NetAddress;
  via : option Address;
  sr_metric : option RouteMetric;
}.

(** The distance of one route once the message is handled *)
Definition route_effect (g : option Address) (n : NetAddress) (k : LocalTypeKey) (c : option RouteMetric) (sr : SetRoute) : option RouteMetric :=
  if decide ((g, n, k) = (via sr, destination sr, sr_message sr)) then sr_metric sr else c.

(** [From<(LocalTypeKey, NetAddress, Option<Address>, RouteMetric)> for SetRoute] *)
Definition set_route_from (e : RouteEntry) : SetRoute := mkSetRoute (message e) (dst_net e) (gw e) (Some (metric e)).

Record WaitlistEntry := mkWaiting {
  wl_protocol : ProtocolName;
  reply_to : RequestHeader;
  timer_key : option OneshotKey;
}.

(** The order of [BTreeSet<(ProtocolName, Option<WaitlistKey>)>] *)
Definition wl_cmp : ProtocolName * option WaitlistKey → ProtocolName * option WaitlistKey → comparison :=
  pair_cmp String.compare (option_cmp Z.compare).

Inductive ConnectErrorKind := DuplicateDstAddr.
Inductive BindErrorKind := DuplicateBindAddr.
Inductive GetProtocolByNameErrorKind := NoSuchProtocol.

Section Manager.
Context {SM : Type → Type} `{SlotMap SM} `{HashSetOrder}.
Context {BM : Type} `{!BiMap WatchRef Address BM}.
Context {SocketAddr Path : Type} `{Countable SocketAddr} `{Countable Path}.
Context (type_name : TypeId → MessageName) (default_key : LocalTypeKey).

(** ** State *)
Record IfaceEntry (A : Type) := mkIface { iface_address : A; actor_address : Address }.
#[global] Arguments mkIface {A} iface_address actor_address.

Record Ifaces (A : Type) `{Countable A} := mkIfaces {
  entries : SM (IfaceEntry A);
  by_iface_addr : gmap A Z;
}.
#[global] Arguments mkIfaces {A _ _} entries by_iface_addr.
#[global] Arguments entries {A _ _} i.
#[global] Arguments by_iface_addr {A _ _} i.

Record Waitlist := mkWaitlist {
  wl_entries : SM WaitlistEntry;
  by_protocol : BTreeMap (ProtocolName * option WaitlistKey) unit;
}.

Record Manager := mkManager {
  local_subnets : BTreeMap AddressRange unit;
  route_registry : RouteRegistry (SM := SM);
  route_subscribers : gmap WatchRef Address;
  route_gws : BM;
  protocol_registry : ProtocolRegistry (SM := SM);
  protocol_waitlist : Waitlist;
  subnet_ingress_workers : BTreeMap AddressRange Address;
  tcp_acceptors : Ifaces SocketAddr;
  uds_acceptors : Ifaces Path;
  tcp_connectors : Ifaces SocketAddr;
  uds_connectors : Ifaces Path;
}.

Definition manager_default : Manager :=
  mkManager [] registry_default ∅ bm_empty protocol_registry_default (mkWaitlist sm_empty []) []
    (mkIfaces sm_empty ∅) (mkIfaces sm_empty ∅) (mkIfaces sm_empty ∅) (mkIfaces sm_empty ∅).

Definition set_local_subnets (m : Manager) x :=
  mkManager x (route_registry m) (route_subscribers m) (route_gws m) (protocol_registry m) (protocol_waitlist m)
    (subnet_ingress_workers m) (tcp_acceptors m) (uds_acceptors m) (tcp_connectors m) (uds_connectors m).
Definition set_protocols (m : Manager) reg wl :=
  mkManager (local_subnets m) (route_registry m) (route_subscribers m) (route_gws m) reg wl
    (subnet_ingress_workers m) (tcp_acceptors m) (uds_acceptors m) (tcp_connectors m) (uds_connectors m).
Definition set_routes (m : Manager) reg gws workers :=
  mkManager (local_subnets m) reg (route_subscribers m) gws (protocol_registry m) (protocol_waitlist m)
    workers (tcp_acceptors m) (uds_acceptors m) (tcp_connectors m) (uds_connectors m).
Definition set_subscribers (m : Manager) x :=
  mkManager (local_subnets m) (route_registry m) x (route_gws m) (protocol_registry m) (protocol_waitlist m)
    (subnet_ingress_workers m) (tcp_acceptors m) (uds_acceptors m) (tcp_connectors m) (uds_connectors m).
Definition set_ifaces (m : Manager) ta ua tc uc :=
  mkManager (local_subnets m) (route_registry m) (route_subscribers m) (route_gws m) (protocol_registry m) (protocol_waitlist m)
    (subnet_ingress_workers m) ta ua tc uc.

(** ** What a handler does *)
Inductive Response :=
| RegisterLocalSubnetRs
| ConnectRs (r : result unit ConnectErrorKind)
| BindRs (r : result unit BindErrorKind)
| RegisterProtocolRs (r : result unit RegisterProtocolErrorKind)
| UnregisterProtocolRs (r : result unit UnregisterProtocolErrorKind)
| RegisterOpaqueMessageRs (key : LocalTypeKey)
| GetMessageNameRs (name : MessageName)
| GetProtocolByNameRs (r : result (ProtocolResolved (SM := SM)) GetProtocolByNameErrorKind)
| GetLocalSubnetsRs (nets : list NetAddress)
| ResolveTypeIdRs (type_key_opt : option LocalTypeKey)
| SubscribeToRoutesRs (routes : list SetRoute).

Inductive Out :=
| TellSelf (m : SetRoute)
| Tell (to : Address) (m : SetRoute)
| Reply (to : RequestHeader) (r : Response)
| Schedule (k : WaitlistKey)
| Cancel (k : OneshotKey)
| Watch (a : Address).

(** [Ok (Some r)] is [Outcome::reply(r)], [Ok None] is [Outcome::no_reply()], and an [Err] ends the actor. *)
Definition Handled : Type := Manager * list Out * result (option Response) unit.

(** ** Local subnets *)

(** [RegisterLocalSubnetRequest]; a [BTreeSet] keeps the value it has. *)
Definition on_register_local_subnet (m : Manager) (net : NetAddress) : outcome Handled :=
  range ← range_from_net net;
  let nets := match bt_entry range_cmp (local_subnets m) range with
              | Some _ => local_subnets m
              | None => bt_insert range_cmp (local_subnets m) range tt
              end in
  Ret (set_local_subnets m nets, [], Ok (Some RegisterLocalSubnetRs)).

Fixpoint nets_from (l : BTreeMap AddressRange unit) : outcome (list NetAddress) :=
  match l with
  | [] => Ret []
  | (r, _) :: l => n ← net_from_range r; ns ← nets_from l; Ret (n :: ns)
  end.

(** [GetLocalSubnetsRequest] *)
Definition on_get_local_subnets (m : Manager) : outcome Handled :=
  nets ← nets_from (local_subnets m); Ret (m, [], Ok (Some (GetLocalSubnetsRs nets))).

(** ** Interfaces: one connector or acceptor per address *)
Section IfaceRequest.
Context {A : Type} `{Countable A}.

(** The part the four requests share; [started] is the answer of the supervisor: the outer error is that of the [ask]. *)
Definition start_iface (ifaces : Ifaces A) (addr : A) (started : result (result Address unit) unit) : option (Ifaces A * bool) :=
  match by_iface_addr ifaces !! addr with
  | Some _ => Some (ifaces, false)
  | None =>
      match started with
      | Ok (Ok actor) =>
          let '(es, key) := sm_insert (entries ifaces) (mkIface addr actor) in
          Some (mkIfaces es (<[addr := key]> (by_iface_addr ifaces)), true)
      | _ => None
      end
  end.

End IfaceRequest.

(** [ConnectRequest<SocketAddr>], [ConnectRequest<Box<Path>>], [BindRequest<SocketAddr>], [BindRequest<Box<Path>>] *)
Definition on_connect_tcp (m : Manager) (addr : SocketAddr) (started : result (result Address unit) unit) : Handled :=
  match start_iface (tcp_connectors m) addr started with
  | Some (x, ok) => (set_ifaces m (tcp_acceptors m) (uds_acceptors m) x (uds_connectors m), [],
      Ok (Some (ConnectRs (if ok then Ok tt else Err DuplicateDstAddr))))
  | None => (m, [], Err tt)
  end.
Definition on_connect_uds (m : Manager) (addr : Path) (started : result (result Address unit) unit) : Handled :=
  match start_iface (uds_connectors m) addr started with
  | Some (x, ok) => (set_ifaces m (tcp_acceptors m) (uds_acceptors m) (tcp_connectors m) x, [],
      Ok (Some (ConnectRs (if ok then Ok tt else Err DuplicateDstAddr))))
  | None => (m, [], Err tt)
  end.
Definition on_bind_tcp (m : Manager) (addr : SocketAddr) (started : result (result Address unit) unit) : Handled :=
  match start_iface (tcp_acceptors m) addr started with
  | Some (x, ok) => (set_ifaces m x (uds_acceptors m) (tcp_connectors m) (uds_connectors m), [],
      Ok (Some (BindRs (if ok then Ok tt else Err DuplicateBindAddr))))
  | None => (m, [], Err tt)
  end.
Definition on_bind_uds (m : Manager) (addr : Path) (started : result (result Address unit) unit) : Handled :=
  match start_iface (uds_acceptors m) addr started with
  | Some (x, ok) => (set_ifaces m (tcp_acceptors m) x (tcp_connectors m) (uds_connectors m), [],
      Ok (Some (BindRs (if ok then Ok tt else Err DuplicateBindAddr))))
  | None => (m, [], Err tt)
  end.

(** ** Protocols and those who wait for them *)

(** The first waiter for a protocol: [by_protocol.range((name, None)..).skip_while(none).take_while(same name).next()] *)
Definition first_waiting (wl : Waitlist) (name : ProtocolName) : option (option WaitlistKey) :=
  match list_find (λ e, is_Some e.1.2) (bt_range_from wl_cmp (by_protocol wl) (name, None)) with
  | Some (_, ((n, k), _)) => if decide (n = name) then Some k else None
  | None => None
  end.

(** The loop that takes the waiters out; [fuel] is the number of waiters. *)
Fixpoint drain_waitlist (fuel : nat) (wl : Waitlist) (name : ProtocolName) : outcome (Waitlist * list (OneshotKey * RequestHeader)) :=
  match first_waiting wl name with
  | None => Ret (wl, [])
  | Some waitlist_key =>
      match fuel with
      | O => Panic
      | S fuel =>
          key ← expect waitlist_key;
          e ← expect (sm_get (wl_entries wl) key);
          timer ← expect (timer_key e);
          let wl := mkWaitlist (sm_remove (wl_entries wl) key) (bt_remove wl_cmp (by_protocol wl) (wl_protocol e, Some key)) in
          '(wl, hits) ← drain_waitlist fuel wl name;
          Ret (wl, (timer, reply_to e) :: hits)
      end
  end.

(** The routes announced for a protocol: every inbound type to every local subnet *)
Fixpoint announce (reg : ProtocolRegistry (SM := SM)) (nets : list NetAddress) (cs : list Codec) : outcome (ProtocolRegistry (SM := SM) * list SetRoute) :=
  match cs with
  | [] => Ret (reg, [])
  | c :: cs =>
      '(reg, key) ← register_message type_name reg c;
      '(reg, l) ← announce reg nets cs;
      Ret (reg, ((λ n, mkSetRoute key n None (Some 0)) <$> nets) ++ l)
  end.

(** Sends that end the handler when one fails: the first [budget] succeed. *)
Definition send_all {A} (budget : nat) (f : A → list Out) (l : list A) : list Out * bool :=
  (take budget l ≫= f, bool_decide (length l ≤ budget)%nat).

(** [RegisterProtocolRequest]; [tells] and [cancels] are how many sends to self and cancellations of timers succeed. *)
Definition on_register_protocol (m : Manager) (hdr : RequestHeader) (name : ProtocolName) (p : Protocol (SM := SM)) (tells cancels : nat) :
    outcome Handled :=
  '(reg, reply_with) ← register_protocol type_name (protocol_registry m) name p;
  '(wl, waitlist_hits) ← match reply_with with
    | Ok _ => drain_waitlist (length (by_protocol (protocol_waitlist m))) (protocol_waitlist m) name
    | Err _ => Ret (protocol_waitlist m, [])
    end;
  nets ← nets_from (local_subnets m);
  '(reg, routes) ← announce reg nets (inbound_types p);
  let '(sent, all_sent) := send_all tells (λ r, [TellSelf r]) routes in
  if negb all_sent then Ret (set_protocols m reg wl, sent, Err tt)
  else
    '(reg, outbound) ← register_messages type_name reg (outbound_types p);
    '(reg, inbound) ← register_messages type_name reg (inbound_types p);
    let resolved := mkResolved p outbound inbound in
    let '(answers, all_cancelled) :=
      send_all cancels (λ h, [Cancel h.1; Reply h.2 (GetProtocolByNameRs (Ok resolved))]) waitlist_hits in
    Ret (set_protocols m reg wl, sent ++ [Reply hdr (RegisterProtocolRs reply_with)] ++ answers,
         if all_cancelled then Ok None else Err tt).

(** [UnregisterProtocolRequest] *)
Definition on_unregister_protocol (m : Manager) (name : ProtocolName) (shared : bool) : Handled :=
  let '(reg, r) := unregister_protocol (protocol_registry m) name shared in
  (set_protocols m reg (protocol_waitlist m), [], Ok (Some (UnregisterProtocolRs r))).

(** [RegisterOpaqueMessageRequest], [GetMessageNameRequest], [ResolveTypeIdRequest] *)
Definition on_register_opaque_message (m : Manager) (name : MessageName) : outcome Handled :=
  '(reg, key) ← register_message type_name (protocol_registry m) (Opaque name);
  Ret (set_protocols m reg (protocol_waitlist m), [], Ok (Some (RegisterOpaqueMessageRs key))).
Definition on_get_message_name (m : Manager) (key : LocalTypeKey) : outcome Handled :=
  name ← message_name_by_key type_name (protocol_registry m) key; Ret (m, [], Ok (Some (GetMessageNameRs name))).
Definition on_resolve_type_id (m : Manager) (tid : TypeId) : Handled :=
  (m, [], Ok (Some (ResolveTypeIdRs (local_type_key_by_tid (protocol_registry m) tid)))).

(** [GetProtocolByNameRequest]; [scheduled] is the timer's answer. *)
Definition on_get_protocol_by_name (m : Manager) (hdr : RequestHeader) (name : ProtocolName) (timeout : bool)
    (scheduled : result OneshotKey unit) : outcome Handled :=
  match protocol_by_name (protocol_registry m) name, timeout with
  | Some p, _ =>
      '(reg, outbound) ← register_messages type_name (protocol_registry m) (outbound_types p);
      '(reg, inbound) ← register_messages type_name reg (inbound_types p);
      Ret (set_protocols m reg (protocol_waitlist m), [], Ok (Some (GetProtocolByNameRs (Ok (mkResolved p outbound inbound)))))
  | None, false => Ret (m, [], Ok (Some (GetProtocolByNameRs (Err NoSuchProtocol))))
  | None, true =>
      let wl := protocol_waitlist m in
      let '(es, key) := sm_insert (wl_entries wl) (mkWaiting name hdr None) in
      match scheduled with
      | Err _ => Ret (set_protocols m (protocol_registry m) (mkWaitlist es (by_protocol wl)), [Schedule key], Err tt)
      | Ok timer =>
          e ← expect (sm_get es key);
          let es := sm_set es key (mkWaiting (wl_protocol e) (reply_to e) (Some timer)) in
          assert_ (bool_decide (bt_entry wl_cmp (by_protocol wl) (name, Some key) = None));;
          Ret (set_protocols m (protocol_registry m) (mkWaitlist es (bt_insert wl_cmp (by_protocol wl) (name, Some key) tt)),
               [Schedule key], Ok None)
      end
  end.

(** [WaitlistTimeoutElapsed] *)
Definition on_waitlist_timeout (m : Manager) (key : WaitlistKey) : outcome Handled :=
  let wl := protocol_waitlist m in
  match sm_get (wl_entries wl) key with
  | None => Ret (m, [], Ok None)
  | Some e =>
      assert_ (bool_decide (protocol_by_name (protocol_registry m) (wl_protocol e) = None));;
      assert_ (bool_decide (bt_entry wl_cmp (by_protocol wl) (wl_protocol e, Some key) ≠ None));;
      let wl := mkWaitlist (sm_remove (wl_entries wl) key) (bt_remove wl_cmp (by_protocol wl) (wl_protocol e, Some key)) in
      Ret (set_protocols m (protocol_registry m) wl, [Reply (reply_to e) (GetProtocolByNameRs (Err NoSuchProtocol))], Ok None)
  end.

(** ** Routes *)

(** [SubscribeToRoutesRequest] *)
Definition on_subscribe_to_routes (m : Manager) (deliver_to : Address) (watch_ref : WatchRef) : Handled :=
  (set_subscribers m (<[watch_ref := deliver_to]> (route_subscribers m)), [Watch deliver_to],
   Ok (Some (SubscribeToRoutesRs (set_route_from <$> all_routes (route_registry m))))).

(** Starting or stopping the ingress worker of a net when the first route to it comes or the last one goes; [asked] is the answer
    of the supervisor: the outer error is that of the [ask], and a [Stop] answers with an address of no meaning. *)
Definition update_ingress (m : Manager) (dst : NetAddress) (before after : bool) (asked : result (result Address unit) unit) :
    outcome (BTreeMap AddressRange Address * bool) :=
  range ← range_from_net dst;
  let workers := subnet_ingress_workers m in
  match bt_entry range_cmp (local_subnets m) range, before, after with
  | None, true, false =>
      assert_ (bool_decide (is_Some (bt_entry range_cmp workers range)));;
      Ret match asked with
          | Ok (Ok _) => (bt_remove range_cmp workers range, true)
          | _ => (workers, false)
          end
  | None, false, true =>
      assert_ (bool_decide (bt_entry range_cmp workers range = None));;
      Ret match asked with
          | Ok (Ok worker) => (bt_insert range_cmp workers range worker, true)
          | _ => (workers, false)
          end
  | _, _, _ => Ret (workers, true)
  end.

(** Watching the gateway of a route, once *)
Definition watch_gw (gws : BM) (via : option Address) (watch_ref : WatchRef) : BM * list Out :=
  match via with
  | Some gw => if bm_contains_right gws gw then (gws, []) else ((bm_insert gws watch_ref gw).1, [Watch gw])
  | None => (gws, [])
  end.

(** [SetRoute] *)
Definition on_set_route (m : Manager) (sr : SetRoute) (asked : result (result Address unit) unit) (watch_ref : WatchRef) :
    outcome Handled :=
  before ← contains_net default_key (route_registry m) (destination sr);
  '(reg, r) ← set_route (route_registry m) (sr_message sr) (destination sr) (via sr) (sr_metric sr);
  match r with
  | Err _ => Ret (m, [], Ok None)
  | Ok _ =>
      after ← contains_net default_key reg (destination sr);
      '(workers, ok) ← update_ingress m (destination sr) before after asked;
      if negb ok then Ret (set_routes m reg (route_gws m) workers, [], Err tt)
      else
        let '(gws, watched) := watch_gw (route_gws m) (via sr) watch_ref in
        Ret (set_routes m reg gws workers, watched ++ ((λ s, Tell s sr) <$> (map_to_list (route_subscribers m)).*2), Ok None)
  end.

(** [sys::Down] *)
Definition on_down (m : Manager) (watch_ref : WatchRef) (peer : Address) : Handled :=
  let m := set_subscribers m (delete watch_ref (route_subscribers m)) in
  if bm_contains_left (route_gws m) watch_ref
  then (set_routes m (route_registry m) (bm_remove_left (route_gws m) watch_ref) (subnet_ingress_workers m),
        (λ '(msg, dst, _), TellSelf (mkSetRoute msg dst (Some peer) None)) <$> all_routes_by_gw (route_registry m) peer, Ok None)
  else (m, [], Ok None).

(** ** The waitlist: who waits for which protocol *)
Definition any {A} (_ : A) : Prop := True.

#[local] Instance wl_lawful : Lawful wl_cmp any.
Proof.
  eapply lawful_weaken; [|apply pair_lawful; [apply string_lawful|apply option_lawful, Z_lawful]]. by intros [n [k|]] _.
Qed.

(** The index lists the entries under their protocols. *)
Record index_ok (wl : Waitlist) : Prop := {
  ix_sorted : bt_ok wl_cmp any (by_protocol wl);
  ix_entries n k : ((n, k), tt) ∈ by_protocol wl ↔ ∃ key e, k = Some key ∧ sm_get (wl_entries wl) key = Some e ∧ wl_protocol e = n;
}.

(** Nobody waits for a protocol that is registered, and every waiter has a timer. *)
Definition waits_ok (reg : ProtocolRegistry (SM := SM)) (wl : Waitlist) : Prop :=
  ∀ key e, sm_get (wl_entries wl) key = Some e → is_Some (timer_key e) ∧ protocols reg !! wl_protocol e = None.

Definition waiting (wl : Waitlist) : list WaitlistEntry := (sm_drain (wl_entries wl)).*2.

Lemma sm_drain_remove {A} (m : SM A) k x : sm_get m k = Some x → sm_drain m ≡ₚ (k, x) :: sm_drain (sm_remove m k).
Proof.
  intros E. assert (Hnd : ∀ m : SM A, NoDup (sm_drain m)) by (intros m'; eapply NoDup_fmap_1, sm_drain_NoDup).
  apply NoDup_Permutation; [apply Hnd|constructor; [|apply Hnd]|].
  - rewrite sm_drain_elem, sm_get_remove. by rewrite decide_True.
  - intros [k' x']. rewrite elem_of_cons, !sm_drain_elem, sm_get_remove. case_decide; naive_solver.
Qed.

Lemma sm_drain_insert {A} (m : SM A) x : sm_drain (sm_insert m x).1 ≡ₚ ((sm_insert m x).2, x) :: sm_drain m.
Proof.
  pose proof (sm_insert_fresh m x) as Hf. pose proof (sm_get_insert m x) as Hi.
  assert (Hnd : ∀ m : SM A, NoDup (sm_drain m)) by (intros m'; eapply NoDup_fmap_1, sm_drain_NoDup).
  apply NoDup_Permutation; [apply Hnd|constructor; [|apply Hnd]|].
  - rewrite sm_drain_elem. congruence.
  - intros [k' x']. rewrite elem_of_cons, !sm_drain_elem, Hi. case_decide; naive_solver.
Qed.

Lemma sm_drain_set {A} (m : SM A) k x y : sm_get m k = Some x → sm_drain (sm_set m k y) ≡ₚ (k, y) :: sm_drain (sm_remove m k).
Proof.
  intros E. assert (Hnd : ∀ m : SM A, NoDup (sm_drain m)) by (intros m'; eapply NoDup_fmap_1, sm_drain_NoDup).
  apply NoDup_Permutation; [apply Hnd|constructor; [|apply Hnd]|].
  - rewrite sm_drain_elem, sm_get_remove. by rewrite decide_True.
  - intros [k' x']. rewrite elem_of_cons, !sm_drain_elem, sm_get_remove, sm_get_set by done. case_decide; naive_solver.
Qed.

Lemma first_waiting_some wl name k : index_ok wl → first_waiting wl name = Some k →
  ∃ key e, k = Some key ∧ sm_get (wl_entries wl) key = Some e ∧ wl_protocol e = name.
Proof.
  intros Hix. unfold first_waiting. destruct (list_find _ _) as [[i [[n k'] []]]|] eqn:E; [|done].
  case_decide as Hn; [|done]. subst n. intros [= ->]. apply list_find_Some in E as (Hl & _ & _).
  apply list_elem_of_lookup_2, bt_range_from_sub in Hl. by apply (ix_entries _ Hix).
Qed.

Lemma first_waiting_none wl name key e : index_ok wl → first_waiting wl name = None → sm_get (wl_entries wl) key = Some e →
  wl_protocol e ≠ name.
Proof.
  intros Hix. unfold first_waiting. intros Hf He Hn.
  assert (Hin : ((name, Some key), tt) ∈ bt_range_from wl_cmp (by_protocol wl) (name, None)).
  { apply bt_range_from_elem; [apply (ix_entries _ Hix); eauto|]. unfold wl_cmp, pair_cmp. cbn [fst snd].
    destruct string_lawful as [se _ _]. by rewrite (proj2 (se name name I I) eq_refl). }
  assert (Hall : ∀ x, x ∈ bt_range_from wl_cmp (by_protocol wl) (name, None) → is_Some x.1.2).
  { intros [[n k] []] Hx%bt_range_from_sub. apply (ix_entries _ Hix) in Hx as (key' & _ & -> & _). by eexists. }
  destruct (bt_range_sorted wl_cmp any (by_protocol wl) (name, None) (ix_sorted _ Hix)) as [_ Hs].
  destruct (sorted_head wl_cmp _ _ Hs Hin) as ([[n k] []] & Hh & Hhin & Hle).
  destruct (bt_range_from wl_cmp (by_protocol wl) (name, None)) as [|x l] eqn:El; [done|]. injection Hh as ->.
  apply bt_range_from_head in El. cbn [list_find] in Hf.
  destruct (Hall _ Hhin) as [k' Hk']. cbn in Hk'. subst k. rewrite decide_True in Hf by (by eexists).
  cbn in Hf. case_decide as Hne; [done|]. apply Hne. destruct Hle as [[= -> _]|Hlt]; [done|].
  unfold key_lt, wl_cmp, pair_cmp in *. cbn [fst snd] in *. destruct string_lawful as [se so _].
  rewrite (so n name) in El by done. destruct (String.compare n name) eqn:E; [by apply se in E|done|done].
Qed.

(** Taking a waiter out *)
Lemma index_remove wl key e : index_ok wl → sm_get (wl_entries wl) key = Some e →
  let wl' := mkWaitlist (sm_remove (wl_entries wl) key) (bt_remove wl_cmp (by_protocol wl) (wl_protocol e, Some key)) in
  index_ok wl' ∧ waiting wl ≡ₚ e :: waiting wl' ∧ length (by_protocol wl) = S (length (by_protocol wl')) ∧
  bt_entry wl_cmp (by_protocol wl) (wl_protocol e, Some key) ≠ None.
Proof.
  intros Hix He. cbn. assert (Hin : ((wl_protocol e, Some key), tt) ∈ by_protocol wl) by (apply (ix_entries _ Hix); eauto).
  destruct (bt_remove_ok wl_cmp any (by_protocol wl) (wl_protocol e, Some key) (ix_sorted _ Hix) I) as [Ho Hel]. split_and!.
  - split; [done|]. cbn. intros n k. rewrite Hel, (ix_entries _ Hix). setoid_rewrite sm_get_remove. split.
    + intros [(key' & e' & -> & He' & <-) Hne]. exists key', e'. rewrite decide_False; [done|].
      intros ->. apply Hne. cbn. congruence.
    + intros (key' & e' & -> & He' & <-). case_decide as Hk; [done|]. split; [eauto|]. cbn. congruence.
  - unfold waiting. by rewrite (sm_drain_remove _ _ _ He).
  - by rewrite (bt_remove_perm wl_cmp any (by_protocol wl) _ tt (ix_sorted _ Hix) I Hin) at 1.
  - intros Hnone. apply (bt_get_none wl_cmp) in Hnone.
    rewrite (proj2 (bt_get_elem wl_cmp any _ _ tt (ix_sorted _ Hix) I) Hin) in Hnone. done.
Qed.

Lemma nobody_waiting wl name : index_ok wl → first_waiting wl name = None →
  filter (λ e, wl_protocol e ≠ name) (waiting wl) = waiting wl ∧ filter (λ e, wl_protocol e = name) (waiting wl) = [].
Proof.
  intros Hix Ef. assert (Hne : Forall (λ e, wl_protocol e ≠ name) (waiting wl)).
  { apply Forall_forall. intros e ([k e'] & -> & Hin%sm_drain_elem)%list_elem_of_fmap. by eapply first_waiting_none. }
  split; [by apply filter_all|by apply filter_none].
Qed.

Lemma drain_waitlist_ok reg fuel wl name : index_ok wl → waits_ok reg wl → (length (by_protocol wl) ≤ fuel)%nat →
  ∃ wl' hits, drain_waitlist fuel wl name = Ret (wl', hits) ∧ index_ok wl' ∧ waits_ok reg wl' ∧
    waiting wl' ≡ₚ filter (λ e, wl_protocol e ≠ name) (waiting wl) ∧
    hits.*2 ≡ₚ reply_to <$> filter (λ e, wl_protocol e = name) (waiting wl).
Proof.
  revert wl. induction fuel as [|fuel IH]; intros wl Hix Hw Hfuel.
  all: cbn [drain_waitlist]; destruct (first_waiting wl name) as [k|] eqn:Ef.
  2,4: destruct (nobody_waiting _ _ Hix Ef) as [Hr Hh]; exists wl, []; by rewrite Hr, Hh.
  all: destruct (first_waiting_some _ _ _ Hix Ef) as (key & e & -> & He & Hn); destruct (index_remove wl key e Hix He) as (Hix' & Hp & Hl & _).
  - lia.
  - cbn [expect mbind outcome_bind]. rewrite He. cbn [expect mbind outcome_bind]. destruct (Hw _ _ He) as [[t Ht] _]. rewrite Ht. cbn [expect mbind outcome_bind].
    set (wl1 := mkWaitlist _ _) in *.
    assert (Hw1 : waits_ok reg wl1). { intros k' e'. cbn. rewrite sm_get_remove. case_decide; [done|]. apply Hw. }
    destruct (IH wl1 Hix' Hw1 ltac:(lia)) as (wl2 & hits & -> & Hix2 & Hw2 & Hrest & Hhits). cbn [mbind outcome_bind].
    eexists _, _. split_and!; [done|done|done|rewrite Hrest, Hp, filter_cons_False by tauto; done|].
    rewrite fmap_cons, Hhits, Hp, filter_cons_True by done. done.
Qed.

(** ** The handlers about protocols *)
Record protocols_ok (reg : ProtocolRegistry (SM := SM)) (wl : Waitlist) : Prop := {
  po_registry : registry_ok type_name reg;
  po_index : index_ok wl;
  po_waits : waits_ok reg wl;
}.

Lemma waits_ok_same reg reg' wl : protocols reg' = protocols reg → waits_ok reg wl → waits_ok reg' wl.
Proof. intros E Hw key e He. rewrite E. exact (Hw key e He). Qed.

(** The headers of the waiters, and of those a handler answers *)
Definition waiters (m : Manager) : list RequestHeader := reply_to <$> waiting (protocol_waitlist m).
Definition answered (out : list Out) : list RequestHeader :=
  omap (λ o, match o with Reply h (GetProtocolByNameRs _) => Some h | _ => None end) out.

Lemma answered_app o1 o2 : answered (o1 ++ o2) = answered o1 ++ answered o2.
Proof. apply omap_app. Qed.

Lemma announce_ok reg nets cs : registry_ok type_name reg →
  ∃ reg' routes, announce reg nets cs = Ret (reg', routes) ∧ registry_ok type_name reg' ∧ protocols reg' = protocols reg.
Proof.
  revert reg. induction cs as [|c cs IH]; intros reg Hr; cbn; [eauto 6|].
  destruct (register_message_ok type_name reg c Hr) as (reg1 & k & -> & Hg). cbn.
  destruct (IH reg1 (rg_ok _ _ _ _ _ Hg)) as (reg2 & routes & -> & Hr2 & Hp). cbn.
  eexists _, _. split_and!; [done|done|]. by rewrite Hp, (rg_protocols _ _ _ _ _ Hg).
Qed.

Lemma send_all_answered {A} budget (f : A → list Out) (g : A → list RequestHeader) l : (∀ x, answered (f x) = g x) →
  (send_all budget f l).2 = true → answered (send_all budget f l).1 = l ≫= g.
Proof.
  intros Hf Hb. unfold send_all in *. cbn [fst snd] in *. apply bool_decide_eq_true in Hb. rewrite take_ge by done. clear Hb.
  induction l as [|x l IH]; [done|]. change ((x :: l) ≫= f) with (f x ++ (l ≫= f)). by rewrite answered_app, Hf, IH.
Qed.

Lemma answer_hits resolved (hits : list (OneshotKey * RequestHeader)) :
  (hits ≫= λ h, [h.2]) = hits.*2 ∧ ∀ h, answered [Cancel h.1; Reply h.2 (GetProtocolByNameRs resolved)] = [h.2].
Proof. split; [|done]. induction hits as [|h hits IH]; [done|]. cbn. by f_equal. Qed.

(** Registering a protocol takes its waiters out of the list. *)
Lemma register_and_drain reg wl name p : protocols_ok reg wl → Forall (λ c, is_Some (codec_tid c)) (outbound_types p) →
  ∃ reg' reply wl' hits, register_protocol type_name reg name p = Ret (reg', reply) ∧
    (match reply with Ok _ => drain_waitlist (length (by_protocol wl)) wl name | Err _ => Ret (wl, []) end) = Ret (wl', hits) ∧
    protocols_ok reg' wl' ∧ (reply_to <$> waiting wl') ++ hits.*2 ≡ₚ reply_to <$> waiting wl.
Proof.
  intros [Hr Hix Hw] Hp. destruct (register_protocol_ok type_name reg name p Hr Hp) as [Hdup Hnew].
  destruct (protocols reg !! name) as [q|] eqn:Eq.
  - eexists _, _, _, []. split_and!; [apply Hdup; by eexists|done|done|by rewrite app_nil_r].
  - destruct (Hnew eq_refl) as (reg' & Er & Hr' & Hps & _).
    destruct (drain_waitlist_ok reg _ wl name Hix Hw (le_n _)) as (wl' & hits & Ed & Hix' & Hw' & Hrest & Hhits).
    exists reg', (Ok tt), wl', hits. split_and!; [done|done|split; [done|done|]|].
    + intros key e He. destruct (Hw' _ _ He) as [Ht Hpn]. split; [done|]. rewrite Hps, lookup_insert_ne; [done|].
      intros ->. assert (Hin : e ∈ waiting wl') by (unfold waiting; apply list_elem_of_fmap; exists (key, e); by rewrite sm_drain_elem).
      rewrite Hrest in Hin. by apply list_elem_of_filter in Hin as [? _].
    + rewrite Hrest, Hhits, <- fmap_app. apply fmap_Permutation.
      rewrite (Permutation_app_comm (filter _ _)). apply (filter_app_complement (λ e, wl_protocol e = name)).
Qed.

Lemma on_register_protocol_ok m hdr name p tells cancels nets :
  protocols_ok (protocol_registry m) (protocol_waitlist m) → Forall (λ c, is_Some (codec_tid c)) (outbound_types p) →
  nets_from (local_subnets m) = Ret nets →
  ∃ reg wl out r, on_register_protocol m hdr name p tells cancels = Ret (set_protocols m reg wl, out, r) ∧
    protocols_ok reg wl ∧
    (is_ok r = true → (reply_to <$> waiting wl) ++ answered out ≡ₚ waiters m).
Proof.
  intros Hok Hp Hn. unfold on_register_protocol.
  destruct (register_and_drain _ _ name p Hok Hp) as (reg & reply & wl & hits & -> & E2 & [Hr' Hix' Hw'] & Hperm). cbn [mbind outcome_bind].
  rewrite E2. cbn [mbind outcome_bind].
  rewrite Hn. cbn [mbind outcome_bind]. destruct (announce_ok reg nets (inbound_types p) Hr') as (reg1 & routes & -> & Hr1 & Hp1). cbn [mbind outcome_bind].
  pose proof (send_all_answered tells (λ r, [TellSelf r]) (λ _, []) routes (λ _, eq_refl)) as Hsent.
  destruct (send_all tells (λ r, [TellSelf r]) routes) as [sent [|]] eqn:Es; cbn [negb].
  2: { eexists _, _, _, _. split; [done|]. split; [split; [done|done|by eapply waits_ok_same]|done]. }
  destruct (register_messages_ok type_name reg1 (outbound_types p) Hr1) as (reg2 & outs & -> & Hr2 & Hp2 & _). cbn [mbind outcome_bind].
  destruct (register_messages_ok type_name reg2 (inbound_types p) Hr2) as (reg3 & ins & -> & Hr3 & Hp3 & _). cbn [mbind outcome_bind].
  destruct (answer_hits (Ok (mkResolved p outs ins)) hits) as [Hh1 Hh2].
  pose proof (send_all_answered cancels _ (λ h, [h.2]) hits Hh2) as Hans.
  destruct (send_all cancels _ hits) as [answers b]. eexists _, _, _, _. split; [done|].
  split; [split; [done|done|eapply waits_ok_same; [|done]; congruence]|].
  destruct b; [|done]. intros _. cbn [fst snd] in *. rewrite !answered_app, Hans, Hsent, Hh1 by done. cbn.
  assert ((routes ≫= λ _, []) = ([] : list RequestHeader)) as -> by (clear; induction routes; done). done.
Qed.

(** A new waiter *)
Lemma index_insert wl name hdr timer : index_ok wl →
  let '(es, key) := sm_insert (wl_entries wl) (mkWaiting name hdr None) in
  let wl' := mkWaitlist (sm_set es key (mkWaiting name hdr (Some timer))) (bt_insert wl_cmp (by_protocol wl) (name, Some key) tt) in
  sm_get es key = Some (mkWaiting name hdr None) ∧ bt_entry wl_cmp (by_protocol wl) (name, Some key) = None ∧ index_ok wl' ∧
  waiting wl' ≡ₚ mkWaiting name hdr (Some timer) :: waiting wl ∧
  ∀ k, sm_get (wl_entries wl') k = if decide (k = key) then Some (mkWaiting name hdr (Some timer)) else sm_get (wl_entries wl) k.
Proof.
  intros Hix. pose proof (sm_insert_fresh (wl_entries wl) (mkWaiting name hdr None)) as Hf.
  pose proof (sm_get_insert (wl_entries wl) (mkWaiting name hdr None)) as Hi.
  pose proof (sm_drain_insert (wl_entries wl) (mkWaiting name hdr None)) as Hd.
  destruct (sm_insert (wl_entries wl) (mkWaiting name hdr None)) as [es key]. cbn [fst snd] in *.
  assert (Hk : sm_get es key = Some (mkWaiting name hdr None)) by (rewrite Hi; by rewrite decide_True).
  assert (Hs : ∀ k, sm_get (sm_set es key (mkWaiting name hdr (Some timer))) k =
    if decide (k = key) then Some (mkWaiting name hdr (Some timer)) else sm_get (wl_entries wl) k).
  { intros k. rewrite sm_get_set, Hi by (by eexists). by case_decide. }
  destruct (bt_insert_ok wl_cmp any (by_protocol wl) (name, Some key) tt (ix_sorted _ Hix) I) as [Ho He]. split_and!; [done| | | |done].
  - apply (bt_get_none wl_cmp). destruct (bt_get wl_cmp (by_protocol wl) (name, Some key)) as [[]|] eqn:E; [|done].
    apply (bt_get_elem wl_cmp any) in E; [|apply (ix_sorted _ Hix)|done].
    apply (ix_entries _ Hix) in E as (k' & e & [= <-] & Hk' & _). congruence.
  - split; [done|]. cbn [wl_entries by_protocol]. intros n k. rewrite He. setoid_rewrite Hs. split.
    + intros [[= -> ->]|[Hin _]]; [exists key; eexists; by rewrite decide_True by done|].
      apply (ix_entries _ Hix) in Hin as (k' & e & -> & Hk' & <-). exists k', e. rewrite decide_False; [done|]. congruence.
    + intros (k' & e & -> & Hk' & <-). case_decide as Hkk; [left; by injection Hk' as <-; subst|]. right.
      split; [apply (ix_entries _ Hix); eauto|]. cbn. congruence.
  - unfold waiting. cbn [wl_entries]. rewrite (sm_drain_set _ _ _ _ Hk), fmap_cons. cbn. constructor. apply fmap_Permutation.
    apply (Permutation_cons_inv (a := (key, mkWaiting name hdr None))). by rewrite <- (sm_drain_remove _ _ _ Hk).
Qed.

Lemma on_get_protocol_by_name_ok m hdr name timeout scheduled : protocols_ok (protocol_registry m) (protocol_waitlist m) →
  ∃ reg wl out r, on_get_protocol_by_name m hdr name timeout scheduled = Ret (set_protocols m reg wl, out, r) ∧
    (is_ok r = true → protocols_ok reg wl ∧
      (reply_to <$> waiting wl) ++ answered out ≡ₚ match r with Ok None => [hdr] | _ => [] end ++ waiters m).
Proof.
  intros [Hr Hix Hw]. unfold on_get_protocol_by_name, protocol_by_name. destruct (protocols (protocol_registry m) !! name) as [p|] eqn:Ep.
  - destruct (register_messages_ok type_name (protocol_registry m) (outbound_types p) Hr) as (reg2 & outs & -> & Hr2 & Hp2 & _). cbn [mbind outcome_bind].
    destruct (register_messages_ok type_name reg2 (inbound_types p) Hr2) as (reg3 & ins & -> & Hr3 & Hp3 & _). cbn [mbind outcome_bind].
    eexists _, _, _, _. split; [done|]. intros _. split; [split; [done|done|eapply waits_ok_same; [|done]; congruence]|]. by rewrite app_nil_r.
  - destruct timeout.
    2: { exists (protocol_registry m), (protocol_waitlist m). eexists _, _. split; [by destruct m|]. intros _. split; [done|]. by rewrite app_nil_r. }
    pose proof (index_insert (protocol_waitlist m) name hdr (match scheduled with Ok t => t | Err _ => 0 end) Hix) as Hi.
    destruct (sm_insert (wl_entries (protocol_waitlist m)) (mkWaiting name hdr None)) as [es key].
    destruct Hi as (Hk & Hn & Hix' & Hperm & Hs). destruct scheduled as [timer|[]].
    2: { eexists _, _, _, _. split; [done|]. done. }
    rewrite Hk. cbn [expect mbind outcome_bind wl_protocol reply_to]. rewrite assert_true by (by apply bool_decide_eq_true). cbn [mbind outcome_bind].
    eexists _, _, _, _. split; [done|]. intros _. split; [split; [done|done|]|].
    + intros k e He. rewrite Hs in He. case_decide; [injection He as <-; split; [by eexists|done]|exact (Hw k e He)].
    + rewrite Hperm, app_nil_r. done.
Qed.

Lemma on_waitlist_timeout_ok m key : protocols_ok (protocol_registry m) (protocol_waitlist m) →
  ∃ wl out, on_waitlist_timeout m key = Ret (set_protocols m (protocol_registry m) wl, out, Ok None) ∧
    protocols_ok (protocol_registry m) wl ∧ (reply_to <$> waiting wl) ++ answered out ≡ₚ waiters m.
Proof.
  intros [Hr Hix Hw]. unfold on_waitlist_timeout. destruct (sm_get (wl_entries (protocol_waitlist m)) key) as [e|] eqn:He.
  2: { exists (protocol_waitlist m), []. split; [by destruct m|]. split; [done|]. by rewrite app_nil_r. }
  destruct (Hw _ _ He) as [_ Hp]. unfold protocol_by_name. rewrite (bool_decide_true (_ !! _ = None)) by exact Hp. cbn [assert_ mbind outcome_bind].
  destruct (index_remove _ _ _ Hix He) as (Hix' & Hperm & _ & Hin). rewrite assert_true by (apply bool_decide_eq_true; exact Hin). cbn [mbind outcome_bind].
  eexists _, _. split; [done|]. split; [split; [done|done|]|].
  - intros k e'. cbn. rewrite sm_get_remove. case_decide; [done|]. apply Hw.
  - unfold waiters. rewrite Hperm. cbn. by rewrite Permutation_app_comm.
Qed.

(** ** The handlers about routes *)
Section Plan.
Context (plan : NetAddress → Prop) `{!AddressPlan plan}.

#[local] Instance planned_lawful : Lawful range_cmp (planned plan) := range_lawful plan.

Lemma planned_net n : plan n → planned plan (net_range n).
Proof. intros. by exists n. Qed.

#[local] Hint Resolve planned_net : mm1.

Definition routed (reg : RouteRegistry (SM := SM)) (n : NetAddress) : Prop := ∃ g k c, route_of reg g n k = Some c.

(** A net that is not local has an ingress worker exactly while a route leads to it. *)
Record manager_ok (m : Manager) : Prop := {
  mo_protocols : protocols_ok (protocol_registry m) (protocol_waitlist m);
  mo_routes : routes_ok plan (route_registry m);
  mo_locals : bt_ok range_cmp (planned plan) (local_subnets m);
  mo_workers : bt_ok range_cmp (planned plan) (subnet_ingress_workers m);
  mo_ingress n : plan n → bt_get range_cmp (local_subnets m) (net_range n) = None →
    is_Some (bt_get range_cmp (subnet_ingress_workers m) (net_range n)) ↔ routed (route_registry m) n;
}.

Lemma manager_default_ok : manager_ok manager_default.
Proof.
  split; cbn; [split| |split; constructor|split; constructor|].
  - apply registry_default_ok.
  - split; [split; constructor|]. intros n k. cbn. rewrite elem_of_nil. split; [done|]. intros (key & e & _ & He & _). by rewrite sm_get_empty in He.
  - intros key e. cbn. by rewrite sm_get_empty.
  - apply (routes_default plan).
  - intros n Hn _. unfold bt_get. cbn. split; [by intros [? ?]|]. by intros (g & k & c & Hc).
Qed.

Lemma nets_from_ok l : Forall (λ e, planned plan e.1) l → ∃ nets, nets_from l = Ret nets ∧ Forall plan nets ∧ (net_range <$> nets) = l.*1.
Proof.
  induction 1 as [|[r u] l (n & Hn & E) _ (nets & El & Hp & Hf)]; cbn; [by exists []|]. cbn in E. subst r.
  destruct (plan_range plan n Hn) as (_ & -> & _). cbn. rewrite El. cbn. exists (n :: nets). split_and!; [done|by constructor|]. cbn. by f_equal.
Qed.

Lemma nets_from_locals m : manager_ok m → ∃ nets, nets_from (local_subnets m) = Ret nets.
Proof. intros Hm. destruct (mo_locals _ Hm) as [Hf _]. destruct (nets_from_ok _ Hf) as (nets & -> & _). eauto. Qed.

Lemma on_register_local_subnet_ok m net : manager_ok m → plan net →
  ∃ m', on_register_local_subnet m net = Ret (m', [], Ok (Some RegisterLocalSubnetRs)) ∧ manager_ok m' ∧
    protocol_registry m' = protocol_registry m ∧ protocol_waitlist m' = protocol_waitlist m ∧
    ∀ n, plan n → bt_get range_cmp (local_subnets m') (net_range n) = if decide (n = net) then Some tt else bt_get range_cmp (local_subnets m) (net_range n).
Proof.
  intros Hm Hn. destruct Hm as [Hp Hr Hl Hw Hi]. unfold on_register_local_subnet.
  destruct (plan_range plan net Hn) as (-> & _ & _). cbn [mbind outcome_bind].
  set (nets := match bt_entry range_cmp (local_subnets m) (net_range net) with Some _ => _ | None => _ end).
  assert (Hnets : bt_ok range_cmp (planned plan) nets ∧
    ∀ n, plan n → bt_get range_cmp nets (net_range n) = if decide (n = net) then Some tt else bt_get range_cmp (local_subnets m) (net_range n)).
  { unfold nets. destruct (bt_entry range_cmp (local_subnets m) (net_range net)) as [e|] eqn:E.
    - split; [done|]. intros n Hn'. case_decide; [|done]. subst n. unfold bt_get. rewrite E. cbn. by destruct e as [? []].
    - destruct (bt_insert_ok range_cmp (planned plan) (local_subnets m) (net_range net) tt) as [Ho _]; auto with mm1. split; [done|].
      intros n Hn'. rewrite (bt_get_insert range_cmp (planned plan)) by auto with mm1.
      destruct (decide (n = net)) as [->|Hne]; [by rewrite decide_True|]. rewrite decide_False; [done|]. intros E'. by apply (net_range_inj plan) in E'. }
  destruct Hnets as [Ho Hg]. eexists. split; [done|]. split; [|split_and!; done]. split; cbn; try done.
  intros n Hn' Hloc. rewrite Hg in Hloc by done. case_decide; [done|]. by apply Hi.
Qed.

(** Starting and stopping of workers follows the routes. *)
Lemma update_ingress_ok m reg dst before after asked :
  manager_ok m → routes_ok plan reg → plan dst →
  (before = true ↔ routed (route_registry m) dst) → (after = true ↔ routed reg dst) →
  (∀ n, plan n → n ≠ dst → routed reg n ↔ routed (route_registry m) n) →
  ∃ workers ok, update_ingress m dst before after asked = Ret (workers, ok) ∧ (∀ a, asked = Ok (Ok a) → ok = true) ∧
    (ok = true → bt_ok range_cmp (planned plan) workers ∧
     ∀ n, plan n → bt_get range_cmp (local_subnets m) (net_range n) = None →
       is_Some (bt_get range_cmp workers (net_range n)) ↔ routed reg n).
Proof.
  intros [_ _ Hl Hw Hi] Hr Hd Hb Ha Hsame. unfold update_ingress. destruct (plan_range plan dst Hd) as (-> & _ & _). cbn [mbind outcome_bind].
  assert (Hother : ∀ n, plan n → n ≠ dst → net_range n ≠ net_range dst) by (intros n Hn Hne E; by apply (net_range_inj plan) in E).
  assert (Hstay : (bt_get range_cmp (local_subnets m) (net_range dst) = None → before = after) →
    ∃ workers ok, Ret (subnet_ingress_workers m, true) = Ret (workers, ok) ∧ (∀ a, asked = Ok (Ok a) → ok = true) ∧ (ok = true → bt_ok range_cmp (planned plan) workers ∧
      ∀ n, plan n → bt_get range_cmp (local_subnets m) (net_range n) = None → is_Some (bt_get range_cmp workers (net_range n)) ↔ routed reg n)).
  { intros Heq. eexists _, _. split; [done|]. split; [done|]. intros _. split; [done|]. intros n Hn Hloc. rewrite Hi by done.
    destruct (decide (n = dst)) as [->|Hne]; [|by rewrite Hsame]. rewrite <- Hb, <- Ha. by rewrite Heq. }
  destruct (bt_entry range_cmp (local_subnets m) (net_range dst)) as [e|] eqn:El.
  { apply Hstay. intros Hn. apply (bt_get_none range_cmp) in Hn. congruence. }
  apply (bt_get_none range_cmp) in El. specialize (Hi dst Hd El) as Hid.
  destruct before, after; try (by apply Hstay).
  - assert (Hwk : bt_entry range_cmp (subnet_ingress_workers m) (net_range dst) ≠ None).
    { intros E%(bt_get_none range_cmp). destruct Hid as [_ Hid]. destruct (Hid (proj1 Hb eq_refl)) as [a Ea]. congruence. }
    rewrite bool_decide_true by (by apply not_eq_None_Some). cbn [assert_ mbind outcome_bind].
    destruct asked as [[a|[]]|[]]; eexists _, _; (split; [done|]); (split; [done|]); try done. intros _.
    destruct (bt_remove_ok range_cmp (planned plan) (subnet_ingress_workers m) (net_range dst)) as [Ho _]; auto with mm1. split; [done|].
    intros n Hn Hloc. rewrite (bt_get_remove range_cmp (planned plan)) by auto with mm1.
    destruct (decide (n = dst)) as [->|Hne]; [rewrite decide_True, <- Ha by done; split; [by intros [? ?]|done]|].
    rewrite decide_False by auto. by rewrite Hi, Hsame by done.
  - assert (Hwk : bt_entry range_cmp (subnet_ingress_workers m) (net_range dst) = None).
    { apply (bt_get_none range_cmp). destruct (bt_get range_cmp (subnet_ingress_workers m) (net_range dst)) eqn:E; [|done].
      exfalso. assert (false = true); [|done]. apply Hb, Hid. by eexists. }
    rewrite bool_decide_true by done. cbn [assert_ mbind outcome_bind].
    destruct asked as [[a|[]]|[]]; eexists _, _; (split; [done|]); (split; [done|]); try done. intros _.
    destruct (bt_insert_ok range_cmp (planned plan) (subnet_ingress_workers m) (net_range dst) a) as [Ho _]; auto with mm1. split; [done|].
    intros n Hn Hloc. rewrite (bt_get_insert range_cmp (planned plan)) by auto with mm1.
    destruct (decide (n = dst)) as [->|Hne]; [rewrite decide_True, <- Ha by done; split; [done|by eexists]|].
    rewrite decide_False by auto. by rewrite Hi, Hsame by done.
Qed.

(** A route that may be asked for: to a net of the plan, at a distance that is a [u8] *)
Definition set_route_ok_args (sr : SetRoute) : Prop := plan (destination sr) ∧ ∀ c, sr_metric sr = Some c → 0 ≤ c < 256.

(** What [SetRoute] does to the table *)
Definition table_after (reg reg' : RouteRegistry (SM := SM)) (sr : SetRoute) : Prop :=
  ∀ g n k, plan n → route_of reg' g n k =
    if decide ((g, n, k) = (via sr, destination sr, sr_message sr)) then sr_metric sr else route_of reg g n k.

Lemma on_set_route_ok m sr asked w : manager_ok m → set_route_ok_args sr →
  ∃ reg gws workers out r, on_set_route m sr asked w = Ret (set_routes m reg gws workers, out, r) ∧
    (r = Ok None ∨ r = Err tt) ∧ (∀ a, asked = Ok (Ok a) → r = Ok None) ∧ routes_ok plan reg ∧ table_after (route_registry m) reg sr ∧
    (r = Ok None → manager_ok (set_routes m reg gws workers) ∧
      (∀ g, via sr = Some g → bm_contains_right gws g = true) ∧
      omap (λ o, match o with Tell s sr' => Some (s, sr') | _ => None end) out =
        (λ s, (s, sr)) <$> (map_to_list (route_subscribers m)).*2 ∧ answered out = []).
Proof.
  intros Hm [Hd Hc]. pose proof Hm as [Hp Hr Hl Hw Hi]. unfold on_set_route.
  destruct (contains_net_ok plan default_key (route_registry m) _ Hr Hd) as (before & -> & Hb). cbn [mbind outcome_bind].
  destruct (set_route_ok plan (route_registry m) (sr_message sr) _ (via sr) (sr_metric sr) Hr Hd Hc) as (reg & -> & Hr' & Ht). cbn [mbind outcome_bind].
  destruct (contains_net_ok plan default_key reg _ Hr' Hd) as (after & -> & Ha). cbn [mbind outcome_bind].
  assert (Hsame : ∀ n, plan n → n ≠ destination sr → routed reg n ↔ routed (route_registry m) n).
  { intros n Hn Hne. unfold routed. setoid_rewrite Ht; [|done]. setoid_rewrite decide_False; [done|]. intros [=]; done. }
  destruct (update_ingress_ok m reg _ before after asked Hm Hr' Hd Hb Ha Hsame) as (workers & ok & -> & Hask & Hok). cbn [mbind outcome_bind].
  destruct ok; cbn [negb]; [|eexists _, _, _, _, _; split_and!; [done|by right|intros a Ea; by apply Hask in Ea|done|done|done]].
  destruct (Hok eq_refl) as [Hwo Hwi]. destruct (watch_gw (route_gws m) (via sr) w) as [gws watched] eqn:Eg.
  eexists _, _, _, _, _. split_and!; [done|by left|done|done|done|]. intros _. split_and!.
  - split; cbn; done.
  - intros g Hg. rewrite Hg in Eg. unfold watch_gw in Eg. destruct (bm_contains_right (route_gws m) g) eqn:Ec; injection Eg as <- <-; [done|].
    unfold bm_contains_right. apply bool_decide_eq_true. rewrite bm_insert_pairs. by left.
  - assert (Hwt : omap (λ o : Out, match o with Tell s sr' => Some (s, sr') | _ => None end) watched = []).
    { unfold watch_gw in Eg. destruct (via sr); [destruct (bm_contains_right _ _)|]; by injection Eg as <- <-. }
    rewrite omap_app, Hwt. cbn. induction (map_to_list (route_subscribers m)) as [|x l IH]; [done|]. cbn. by f_equal.
  - assert (Hwt : answered watched = []).
    { unfold watch_gw in Eg. destruct (via sr); [destruct (bm_contains_right _ _)|]; by injection Eg as <- <-. }
    rewrite answered_app, Hwt. cbn. induction (map_to_list (route_subscribers m)) as [|x l IH]; [done|]. cbn. done.
Qed.

(** ** The actor: a sequence of handled messages *)
Inductive Op :=
| OpRegisterLocalSubnet (net : NetAddress)
| OpConnectTcp (addr : SocketAddr) (started : result (result Address unit) unit)
| OpConnectUds (addr : Path) (started : result (result Address unit) unit)
| OpBindTcp (addr : SocketAddr) (started : result (result Address unit) unit)
| OpBindUds (addr : Path) (started : result (result Address unit) unit)
| OpRegisterProtocol (hdr : RequestHeader) (name : ProtocolName) (p : Protocol (SM := SM)) (tells cancels : nat)
| OpUnregisterProtocol (name : ProtocolName) (shared : bool)
| OpRegisterOpaqueMessage (name : MessageName)
| OpGetMessageName (key : LocalTypeKey)
| OpGetProtocolByName (hdr : RequestHeader) (name : ProtocolName) (timeout : bool) (scheduled : result OneshotKey unit)
| OpGetLocalSubnets
| OpResolveTypeId (tid : TypeId)
| OpWaitlistTimeout (key : WaitlistKey)
| OpSubscribeToRoutes (deliver_to : Address) (w : WatchRef)
| OpSetRoute (sr : SetRoute) (asked : result (result Address unit) unit) (w : WatchRef)
| OpDown (w : WatchRef) (peer : Address).

Definition step (m : Manager) (op : Op) : outcome Handled :=
  match op with
  | OpRegisterLocalSubnet net => on_register_local_subnet m net
  | OpConnectTcp addr started => Ret (on_connect_tcp m addr started)
  | OpConnectUds addr started => Ret (on_connect_uds m addr started)
  | OpBindTcp addr started => Ret (on_bind_tcp m addr started)
  | OpBindUds addr started => Ret (on_bind_uds m addr started)
  | OpRegisterProtocol hdr name p tells cancels => on_register_protocol m hdr name p tells cancels
  | OpUnregisterProtocol name shared => Ret (on_unregister_protocol m name shared)
  | OpRegisterOpaqueMessage name => on_register_opaque_message m name
  | OpGetMessageName key => on_get_message_name m key
  | OpGetProtocolByName hdr name timeout scheduled => on_get_protocol_by_name m hdr name timeout scheduled
  | OpGetLocalSubnets => on_get_local_subnets m
  | OpResolveTypeId tid => Ret (on_resolve_type_id m tid)
  | OpWaitlistTimeout key => on_waitlist_timeout m key
  | OpSubscribeToRoutes deliver_to w => Ret (on_subscribe_to_routes m deliver_to w)
  | OpSetRoute sr asked w => on_set_route m sr asked w
  | OpDown w peer => Ret (on_down m w peer)
  end.

(** What a message must satisfy: nets of the plan, protocols of known types, keys that were handed out *)
Definition op_ok (m : Manager) (op : Op) : Prop :=
  match op with
  | OpRegisterLocalSubnet net => plan net
  | OpRegisterProtocol _ _ p _ _ => Forall (λ c, is_Some (codec_tid c)) (outbound_types p)
  | OpGetMessageName key => ∃ n, codec_by_name (protocol_registry m) !! n = Some key
  | OpSetRoute sr _ _ => set_route_ok_args sr
  | _ => True
  end.

(** The request that a step puts on the waitlist *)
Definition enqueued (op : Op) (r : result (option Response) unit) : list RequestHeader :=
  match op, r with OpGetProtocolByName hdr _ _ _, Ok None => [hdr] | _, _ => [] end.

Lemma manager_ok_ext m m' : protocols_ok (protocol_registry m') (protocol_waitlist m') → route_registry m' = route_registry m →
  local_subnets m' = local_subnets m → subnet_ingress_workers m' = subnet_ingress_workers m → manager_ok m → manager_ok m'.
Proof. intros Hp Er El Ew [_ Hr Hl Hw Hi]. split; rewrite ?Er, ?El, ?Ew; done. Qed.

Lemma on_down_ok m w peer : ∃ subs gws out,
  on_down m w peer = (set_routes (set_subscribers m subs) (route_registry m) gws (subnet_ingress_workers m), out, Ok None) ∧ answered out = [].
Proof.
  unfold on_down. destruct (bm_contains_left _ w); cbn; [|by exists (delete w (route_subscribers m)), (route_gws m), []].
  eexists _, _, _. split; [done|]. induction (all_routes_by_gw _ peer) as [|[[? ?] ?] l IH]; [done|]. cbn. done.
Qed.

Ltac same_state Hm := split; [eapply manager_ok_ext; [..|exact Hm]; cbn; try done|by rewrite app_nil_r].

(** Every handler returns, keeps the invariant unless it ends the actor, and accounts for the waiters. *)
Lemma step_ok m op : manager_ok m → op_ok m op → ∃ m' out r, step m op = Ret (m', out, r) ∧
  (is_ok r = true → manager_ok m' ∧ waiters m' ++ answered out ≡ₚ enqueued op r ++ waiters m).
Proof.
  intros Hm Ho. pose proof (mo_protocols _ Hm) as Hp. pose proof Hp as [Hreg _ _].
  destruct op as [net|addr st|addr st|addr st|addr st|hdr name p tells cancels|name sh|name|key|hdr name timeout sched| |tid|key|a w|sr asked w|w peer];
    cbn [step op_ok enqueued] in *.
  1: { destruct (on_register_local_subnet_ok m net Hm Ho) as (m' & -> & Hm' & E1 & E2 & _). eexists _, _, _. split; [done|]. intros _.
       split; [done|]. unfold waiters. by rewrite E2, app_nil_r. }
  1-4: unfold on_connect_tcp, on_connect_uds, on_bind_tcp, on_bind_uds;
    destruct (start_iface _ addr st) as [[x b]|]; eexists _, _, _; (split; [done|]); [intros _; same_state Hm|done].
  - destruct (nets_from_locals m Hm) as [nets Hn].
    destruct (on_register_protocol_ok m hdr name p tells cancels nets Hp Ho Hn) as (reg & wl & out & r & -> & Hp' & Hw).
    eexists _, _, _. split; [done|]. intros Hr. split; [by eapply manager_ok_ext; [..|exact Hm]|]. by apply Hw.
  - unfold on_unregister_protocol. destruct (unregister_protocol_ok (protocol_registry m) name sh) as (ps & r & -> & Hps). eexists _, _, _.
    split; [done|]. intros _. same_state Hm. split; [apply Hreg|apply Hp|]. intros k e He. destruct (po_waits _ _ Hp k e He) as [Ht Hn]. split; [done|].
    by eapply lookup_weaken_None.
  - unfold on_register_opaque_message. destruct (register_message_ok type_name (protocol_registry m) (Opaque name) Hreg) as (reg & k & -> & Hg).
    eexists _, _, _. split; [done|]. intros _. same_state Hm. split; [apply Hg|apply Hp|]. eapply waits_ok_same; [apply Hg|apply Hp].
  - destruct Ho as [n Hn]. unfold on_get_message_name. rewrite (registry_name _ _ _ _ Hreg Hn). eexists _, _, _. split; [done|]. intros _. same_state Hm.
  - destruct (on_get_protocol_by_name_ok m hdr name timeout sched Hp) as (reg & wl & out & r & -> & Hw). eexists _, _, _. split; [done|].
    intros [Hp' Hperm]%Hw. split; [by eapply manager_ok_ext; [..|exact Hm]|done].
  - destruct (nets_from_locals m Hm) as [nets Hn]. unfold on_get_local_subnets. rewrite Hn. eexists _, _, _. split; [done|]. intros _. same_state Hm.
  - eexists _, _, _. split; [done|]. intros _. same_state Hm.
  - destruct (on_waitlist_timeout_ok m key Hp) as (wl & out & -> & Hp' & Hperm). eexists _, _, _. split; [done|].
    intros _. split; [by eapply manager_ok_ext; [..|exact Hm]|done].
  - eexists _, _, _. split; [done|]. intros _. same_state Hm.
  - destruct (on_set_route_ok m sr asked w Hm Ho) as (reg & gws & workers & out & r & -> & Hr & _ & _ & _ & Hok). eexists _, _, _. split; [done|].
    intros Hi. destruct Hr as [->| ->]; [|done]. destruct (Hok eq_refl) as (Hm' & _ & _ & Ha). split; [done|]. by rewrite Ha, app_nil_r.
  - destruct (on_down_ok m w peer) as (subs & gws & out & -> & Ha). eexists _, _, _. split; [done|]. intros _. rewrite Ha. same_state Hm.
Qed.

(** A run of the actor: messages it handled without ending, and what it sent *)
Inductive run : Manager → list (Op * list Out * result (option Response) unit) → Manager → Prop :=
| run_nil m : run m [] m
| run_step m op m1 out r tr m2 :
    op_ok m op → step m op = Ret (m1, out, r) → is_ok r = true → run m1 tr m2 → run m ((op, out, r) :: tr) m2.

Lemma run_ok m tr m' : manager_ok m → run m tr m' → manager_ok m' ∧
  waiters m' ++ answered (tr ≫= λ x, x.1.2) ≡ₚ (tr ≫= λ x, enqueued x.1.1 x.2) ++ waiters m.
Proof.
  intros Hm Hrun. induction Hrun as [m|m op m1 out r tr m2 Ho Es Hi Hrun IH]; [by rewrite app_nil_r|].
  destruct (step_ok m op Hm Ho) as (m1' & out' & r' & Es' & Hstep). rewrite Es in Es'. injection Es' as <- <- <-.
  destruct (Hstep Hi) as [Hm1 Hp1]. destruct (IH Hm1) as [Hm2 Hp2]. split; [done|].
  change (answered (((op, out, r) :: tr) ≫= λ x, x.1.2)) with (answered (out ++ (tr ≫= λ x, x.1.2))).
  change ((((op, out, r) :: tr) ≫= λ x, enqueued x.1.1 x.2)) with (enqueued op r ++ (tr ≫= λ x, enqueued x.1.1 x.2)).
  rewrite answered_app, (Permutation_app_comm (answered out)), app_assoc, Hp2, <- app_assoc, Hp1, !app_assoc.
  by rewrite (Permutation_app_comm (enqueued op r)).
Qed.

(** What a subscriber is told, among what is sent *)
Definition announced (a : Address) (out : list Out) : list SetRoute :=
  omap (λ o, match o with Tell s sr => if decide (s = a) then Some sr else None | _ => None end) out.

(** Only [SetRoute] touches the routes and tells the subscribers, and these change by subscriptions and their ends only. *)
Lemma step_frame m op m1 out r a : step m op = Ret (m1, out, r) → (∀ sr asked w, op ≠ OpSetRoute sr asked w) →
  route_registry m1 = route_registry m ∧ announced a out = [] ∧
  route_subscribers m1 = match op with
    | OpSubscribeToRoutes deliver_to w => <[w := deliver_to]> (route_subscribers m)
    | OpDown w _ => delete w (route_subscribers m)
    | _ => route_subscribers m
    end.
Proof.
  intros E Hop. destruct op as [net|addr st|addr st|addr st|addr st|hdr name p tells cancels|name sh|name|key|hdr name timeout sched| |tid|key|x w|sr asked w|w peer];
    cbn [step] in E; [..|by destruct (Hop sr asked w)|].
  2-5: unfold on_connect_tcp, on_connect_uds, on_bind_tcp, on_bind_uds in E; destruct (start_iface _ addr st) as [[y b]|]; by injection E as <- <- <-.
  - apply bind_Ret_inv in E as (range & _ & [= <- <- <-]). done.
  - unfold on_register_protocol in E. apply bind_Ret_inv in E as ([reg rw] & _ & E). apply bind_Ret_inv in E as ([wl hits] & _ & E).
    apply bind_Ret_inv in E as (nets & _ & E). apply bind_Ret_inv in E as ([reg1 routes] & _ & E). cbn in E.
    assert (Hself : ∀ l, announced a (l ≫= λ r, [TellSelf r]) = []) by (intros l; induction l; [done|exact IHl]).
    destruct (bool_decide _); cbn in E; [|injection E as <- <- <-; by split_and!]. apply bind_Ret_inv in E as ([reg2 ob] & _ & E). apply bind_Ret_inv in E as ([reg3 ib] & _ & E).
    injection E as <- <- <-. split_and!; try done. unfold announced in *. rewrite omap_app, Hself. cbn.
    induction (take cancels hits) as [|h l IH]; [done|]. exact IH.
  - unfold on_unregister_protocol in E. destruct (unregister_protocol _ _ _). by injection E as <- <- <-.
  - apply bind_Ret_inv in E as ([reg k] & _ & [= <- <- <-]). done.
  - apply bind_Ret_inv in E as (n & _ & [= <- <- <-]). done.
  - unfold on_get_protocol_by_name in E. destruct (protocol_by_name _ name).
    + apply bind_Ret_inv in E as ([reg1 ob] & _ & E). apply bind_Ret_inv in E as ([reg2 ib] & _ & [= <- <- <-]). done.
    + destruct timeout; [|by injection E as <- <- <-]. destruct (sm_insert _ _) as [es k]. destruct sched; [|by injection E as <- <- <-].
      apply bind_Ret_inv in E as (e & _ & E). apply bind_Ret_inv in E as (? & _ & [= <- <- <-]). done.
  - apply bind_Ret_inv in E as (n & _ & [= <- <- <-]). done.
  - by injection E as <- <- <-.
  - unfold on_waitlist_timeout in E. destruct (sm_get _ key); [|by injection E as <- <- <-].
    apply bind_Ret_inv in E as (? & _ & E). apply bind_Ret_inv in E as (? & _ & [= <- <- <-]). done.
  - by injection E as <- <- <-.
  - unfold on_down in E. destruct (bm_contains_left _ w); injection E as <- <- <-; [|done]. split_and!; try done.
    unfold announced. induction (all_routes_by_gw _ peer) as [|[[? ?] ?] l IH]; [done|]. exact IH.
Qed.

(** C12: The manager never panics: after any run of its handlers, whatever the supervisors, the timer and the mailboxes answered,
    a message about nets of the plan, protocols of known types and keys the registry handed out is handled
    without a failed assertion, a missing entry or a worker table that disagrees with the routes. *)
Theorem manager_never_panics tr m op (Hrun : run manager_default tr m) (Ho : op_ok m op) :
  ∃ m' out r, step m op = Ret (m', out, r).
Proof.
  destruct (run_ok _ _ _ manager_default_ok Hrun) as [Hm _]. destruct (step_ok m op Hm Ho) as (m' & out & r & E & _). eauto.
Qed.

(** After any run of the manager, a net of the plan that is not local has an ingress worker exactly when some route leads
    to it. *)
Theorem ingress_follows_routes tr m n (Hrun : run manager_default tr m) (Hn : plan n)
  (Hl : bt_get range_cmp (local_subnets m) (net_range n) = None) :
  is_Some (bt_get range_cmp (subnet_ingress_workers m) (net_range n)) ↔ routed (route_registry m) n.
Proof. destruct (run_ok _ _ _ manager_default_ok Hrun) as [Hm _]. by apply mo_ingress. Qed.

(** C18: Every request put on the waitlist is answered once: over any run, the requests put on it are exactly those answered and those
    that still wait, and none waits for a protocol that is registered. *)
Theorem waiters_answered_once tr m (Hrun : run manager_default tr m) :
  waiters m ++ answered (tr ≫= λ x, x.1.2) ≡ₚ (tr ≫= λ x, enqueued x.1.1 x.2) ∧
  ∀ e, e ∈ waiting (protocol_waitlist m) → protocol_by_name (protocol_registry m) (wl_protocol e) = None.
Proof.
  destruct (run_ok _ _ _ manager_default_ok Hrun) as [Hm Hp]. split.
  - rewrite Hp. unfold waiters, waiting. cbn.
    assert (sm_drain (sm_empty (SM := SM) (A := WaitlistEntry)) = []) as ->; [|by rewrite app_nil_r].
    apply elem_of_nil_inv. intros [k x]. by rewrite sm_drain_elem, sm_get_empty.
  - intros e ([k e'] & -> & Hin%sm_drain_elem)%list_elem_of_fmap. by apply (po_waits _ _ (mo_protocols _ Hm)) in Hin as [_ ?].
Qed.

(** ** A gateway goes down *)

(** [SetRoute] messages handled one after the other *)
Inductive sets : Manager → list SetRoute → Manager → Prop :=
| sets_nil m : sets m [] m
| sets_cons m sr asked w m1 out srs m2 :
    on_set_route m sr asked w = Ret (m1, out, Ok None) → sets m1 srs m2 → sets m (sr :: srs) m2.

Lemma sets_ok m srs m' : manager_ok m → Forall set_route_ok_args srs → sets m srs m' →
  manager_ok m' ∧ ∀ g n k, plan n →
    route_of (route_registry m') g n k = foldl (route_effect g n k)
      (route_of (route_registry m) g n k) srs.
Proof.
  intros Hm Hf Hs. induction Hs as [m|m sr asked w m1 out srs m2 E Hs IH]; [done|]. apply Forall_cons in Hf as [Ha Hf].
  destruct (on_set_route_ok m sr asked w Hm Ha) as (reg & gws & workers & out' & r & E' & _ & _ & _ & Ht & Hok).
  rewrite E in E'. injection E' as -> -> <-. destruct (Hok eq_refl) as [Hm1 _]. destruct (IH Hm1 Hf) as [Hm2 Hfold]. split; [done|].
  intros g n k Hn. rewrite Hfold by done. cbn [foldl]. cbn [route_registry set_routes]. unfold route_effect. by rewrite Ht.
Qed.

Lemma sets_exist m srs (a : Address) : manager_ok m → Forall set_route_ok_args srs → ∃ m', sets m srs m'.
Proof.
  intros Hm Hf. revert m Hm. induction Hf as [|sr srs Ha Hf IH]; intros m Hm; [eexists; constructor|].
  destruct (on_set_route_ok m sr (Ok (Ok a)) 0 Hm Ha) as (reg & gws & workers & out & r & E & _ & Hr & _ & _ & Hok).
  rewrite (Hr a eq_refl) in *. destruct (Hok eq_refl) as [Hm1 _]. destruct (IH _ Hm1) as [m2 Hm2]. exists m2. by econstructor.
Qed.

(** The messages a handler sends to the manager itself *)
Definition own_routes (out : list Out) : list SetRoute := omap (λ o, match o with TellSelf sr => Some sr | _ => None end) out.

Lemma down_routes (l : list (LocalTypeKey * NetAddress * RouteMetric)) g :
  own_routes ((λ '(msg, dst, _), TellSelf (mkSetRoute msg dst (Some g) None)) <$> l) = (λ '(msg, dst, _), mkSetRoute msg dst (Some g) None) <$> l.
Proof. induction l as [|[[msg dst] c] l IH]; [done|]. cbn. f_equal. apply IH. Qed.

Lemma fold_clears (l : list (LocalTypeKey * NetAddress * RouteMetric)) g g' n k (c : option RouteMetric) :
  foldl (route_effect g' n k) c
    ((λ '(msg, dst, _), mkSetRoute msg dst (Some g) None) <$> l) =
  if decide (g' = Some g ∧ (k, n) ∈ l.*1) then None else c.
Proof.
  revert c. induction l as [|[[msg dst] c0] l IH]; intros c; [rewrite decide_False; [done|]; by intros [_ ?%not_elem_of_nil]|].
  cbn [fmap list_fmap foldl]. rewrite IH. unfold route_effect. cbn [via destination sr_message sr_metric].
  destruct (decide ((g', n, k) = (Some g, dst, msg))) as [[= -> -> ->]|Hne].
  - assert (Hin : Some g = Some g ∧ (msg, dst) ∈ ((msg, dst, c0) :: l).*1) by (split; [done|by left]). repeat case_decide; tauto.
  - apply decide_ext. rewrite elem_of_cons. cbn. split; [tauto|]. intros [-> [[= -> ->]|Hin]]; [done|tauto].
Qed.

(** C27: When the gateway of a watch goes down, the manager sends itself the withdrawal of all its routes: once they are
    handled (and they can be, if the supervisor answers), no route leads through the gateway and every other route is as before. *)
Theorem down_purges_gateway m w g (Hm : manager_ok m) (Hw : (w, g) ∈ bm_pairs (route_gws m)) :
  ∃ m1 out, on_down m w g = (m1, out, Ok None) ∧ (∃ m2, sets m1 (own_routes out) m2) ∧
  ∀ m2, sets m1 (own_routes out) m2 → manager_ok m2 ∧
    ∀ g' n k, plan n → route_of (route_registry m2) g' n k = if decide (g' = Some g) then None else route_of (route_registry m) g' n k.
Proof.
  unfold on_down. assert (Hc : bm_contains_left (route_gws m) w = true) by (apply bool_decide_eq_true, list_elem_of_fmap; by exists (w, g)).
  cbn [route_gws set_subscribers]. rewrite Hc. eexists _, _. split; [done|]. rewrite down_routes. cbn [route_registry set_subscribers].
  set (m1 := set_routes _ _ _ _). assert (Hm1 : manager_ok m1) by (eapply manager_ok_ext; [exact (mo_protocols _ Hm)|..|exact Hm]; done).
  assert (Hf : Forall set_route_ok_args ((λ '(msg, dst, _), mkSetRoute msg dst (Some g) None) <$> all_routes_by_gw (route_registry m) g)).
  { apply Forall_forall. intros sr ([[msg dst] c] & -> & Hin)%list_elem_of_fmap. split; [|done]. cbn.
    unfold all_routes_by_gw in Hin. apply list_elem_of_omap in Hin as ([key e] & Hin%sm_drain_elem & E). case_decide; [|done].
    injection E as <- <- <-. by apply (entries_ok _ _ (mo_routes _ Hm)) in Hin as (? & _). }
  split; [by apply (sets_exist m1 _ 0)|]. intros m2 Hs. destruct (sets_ok _ _ _ Hm1 Hf Hs) as [Hm2 Hfold]. split; [done|].
  intros g' n k Hn. rewrite Hfold, fold_clears by done. change (route_registry m1) with (route_registry m).
  destruct (decide (g' = Some g)) as [->|Hne]; [|rewrite decide_False; [done|tauto]].
  case_decide as Hd; [done|]. destruct (route_of (route_registry m) (Some g) n k) as [c|] eqn:E; [|done]. exfalso. apply Hd. split; [done|].
  apply (all_routes_by_gw_elem plan (route_registry m) g k n c (mo_routes _ Hm) Hn) in E. apply list_elem_of_fmap. by exists (k, n, c).
Qed.

End Plan.
End Manager.

(** ** Examples *)
Section Examples.
#[local] Existing Instance gmap_slot_map.
#[local] Existing Instance elements_order.
#[local] Existing Instance two_nets_plan.
#[local] Instance gws_bimap : BiMap WatchRef Address (list (WatchRef * Address)) := list_bimap.

Notation M := (Manager (SM := gmap Z) (BM := list (WatchRef * Address)) (SocketAddr := Z) (Path := Z)).

(** A request for a protocol that is not there, and a route to [west] *)
Definition wait_ping : Op (SM := gmap Z) (SocketAddr := Z) (Path := Z) := OpGetProtocolByName 1 "ping" true (Ok 70).
Definition route_west : SetRoute := mkSetRoute 7 west (Some 100) (Some 1).
Definition add_west : Op (SM := gmap Z) (SocketAddr := Z) (Path := Z) := OpSetRoute route_west (Ok (Ok 500)) 9.
Definition add_ping : Op (SM := gmap Z) (SocketAddr := Z) (Path := Z) := OpRegisterProtocol 2 "ping" (protocol_of [1]) 9 9.

Definition after (m : M) (op : Op) : M := match step names 0 m op with Ret (m, _, _) => m | Panic => m end.
Definition out_of (m : M) (op : Op (SM := gmap Z) (SocketAddr := Z) (Path := Z)) : list (Out (SM := gmap Z)) :=
  match step names 0 m op with Ret (_, out, _) => out | Panic => [] end.

Definition m0 : M := manager_default.
Definition m1 : M := after m0 wait_ping.
Definition m2 : M := after m1 add_west.
Definition m3 : M := after m2 add_ping.

Lemma west_args : set_route_ok_args two_nets route_west.
Proof. split; [by left|]. intros c [= <-]. lia. Qed.

Lemma run2 : run names 0 two_nets m0 [(wait_ping, out_of m0 wait_ping, Ok None); (add_west, out_of m1 add_west, Ok None)] m2.
Proof.
  eapply (run_step _ _ _ m0 wait_ping m1); [done|vm_compute; reflexivity|done|].
  eapply (run_step _ _ _ m1 add_west m2); [exact west_args|vm_compute; reflexivity|done|]. constructor.
Qed.

Lemma ping_known : Forall (λ c, is_Some (codec_tid c)) (outbound_types (protocol_of [1])).
Proof. vm_compute. repeat constructor. by eexists. Qed.

Lemma manager_never_panics_witness : op_ok two_nets m2 add_ping ∧ ∃ m' out r, step names 0 m2 add_ping = Ret (m', out, r).
Proof. split; [exact ping_known|]. exact (manager_never_panics names 0 two_nets _ m2 add_ping run2 ping_known). Defined.

Lemma ingress_follows_routes_witness : is_Some (bt_get range_cmp (subnet_ingress_workers m2) (net_range west)) ∧ routed (route_registry m2) west.
Proof.
  assert (Hs : is_Some (bt_get range_cmp (subnet_ingress_workers m2) (net_range west))) by (vm_compute; by eexists).
  split; [exact Hs|]. apply (ingress_follows_routes names 0 two_nets _ m2 west run2); [by left|vm_compute; reflexivity|exact Hs].
Defined.

Lemma run3 : run names 0 two_nets m0 [(wait_ping, out_of m0 wait_ping, Ok None); (add_west, out_of m1 add_west, Ok None);
  (add_ping, out_of m2 add_ping, Ok None)] m3.
Proof.
  eapply (run_step _ _ _ m0 wait_ping m1); [done|vm_compute; reflexivity|done|].
  eapply (run_step _ _ _ m1 add_west m2); [exact west_args|vm_compute; reflexivity|done|].
  eapply (run_step _ _ _ m2 add_ping m3); [exact ping_known|vm_compute; reflexivity|done|]. constructor.
Qed.

Lemma waiters_answered_once_witness : waiters m3 ++ answered (out_of m0 wait_ping ++ out_of m1 add_west ++ out_of m2 add_ping ++ []) ≡ₚ [1].
Proof. exact (proj1 (waiters_answered_once names 0 two_nets _ m3 run3)). Defined.

Lemma down_purges_gateway_witness : route_of (route_registry m2) (Some 100) west 7 = Some 1 ∧
  ∃ m' out m'', on_down m2 9 100 = (m', out, Ok None) ∧ sets 0 m' (own_routes out) m'' ∧ route_of (route_registry m'') (Some 100) west 7 = None.
Proof.
  split; [vm_compute; reflexivity|].
  destruct (run_ok names 0 two_nets _ _ _ (manager_default_ok names two_nets) run2) as [Hm _].
  assert (Hw : (9, 100) ∈ bm_pairs (route_gws m2)) by (vm_compute; left).
  destruct (down_purges_gateway names 0 two_nets m2 9 100 Hm Hw) as (m' & out & E & [m'' Hs] & Hp).
  exists m', out, m''. split; [exact E|]. split; [exact Hs|].
  destruct (Hp m'' Hs) as [_ Hr]. rewrite Hr by (by left). reflexivity.
Defined.

(** A registration refused as a duplicate still announces its types, which the registered protocol does not have, to every local
    subnet. *)
Theorem duplicate_announces : ∃ m, after (after (m0 : M) add_ping) (OpRegisterLocalSubnet west) = m ∧
  ∃ m' key, step names 0 m (OpRegisterProtocol 3 "ping" (protocol_of [2]) 9 9) =
    Ret (m', [TellSelf (mkSetRoute key west None (Some 0)); Reply 3 (RegisterProtocolRs (Err DuplicateProtocolName))], Ok None).
Proof. eexists. split; [reflexivity|]. eexists _, _. vm_compute. reflexivity. Qed.

End Examples.
