(* ===== verification/Ingress.v ===== *)
(** * The ingress of a subnet (components/mm1-multinode/src/actors/subnet_ingress.rs)

    The worker that owns a remote net on this node: it is bound to the net, keeps a copy of
    the routes to it, and forwards what is sent there to a gateway. *)

From stdpp Require Import strings.
From S2P Require Import Prelude U64 Address Subnet Collections Btree Routes Protocols Manager.

Open Scope Z_scope.

Section Ingress.
Context {SM : Type → Type} `{SlotMap SM} `{HashSetOrder}.
Context (addr_hash : Address → Z).

(** The routes of the reply to [SubscribeToRoutesRequest] that lead to the worker's net *)
Fixpoint load_routes (reg : RouteRegistry (SM := SM)) (net_address : NetAddress) (routes : list SetRoute) :
    outcome (result (RouteRegistry (SM := SM)) unit) :=
  match routes with
  | [] => Ret (Ok reg)
  | r :: routes =>
      if decide (destination r = net_address)
      then '(reg, res) ← set_route reg (sr_message r) (destination r) (via r) (sr_metric r);
           match res with Ok _ => load_routes reg net_address routes | Err _ => Ret (Err tt) end
      else load_routes reg net_address routes
  end.

(** [run], up to its event loop: [forked] and [bound] are whether the fork and the binding succeed, [routes] is the
    answer of the manager. *)
Definition ingress_start (net_address : NetAddress) (forked bound : bool) (routes : result (list SetRoute) unit) :
    outcome (result (RouteRegistry (SM := SM)) unit) :=
  if negb forked then Ret (Err tt)
  else if negb bound then Ret (Err tt)
  else match routes with
       | Err _ => Ret (Err tt)
       | Ok routes => load_routes registry_default net_address routes
       end.

(** [process_worker_inbound]: [None] stands for a message of another type. *)
Definition process_worker_inbound (net_address : NetAddress) (reg : RouteRegistry (SM := SM)) (envelope : option SetRoute) :
    outcome (RouteRegistry (SM := SM) * result unit unit) :=
  match envelope with
  | None => Ret (reg, Ok tt)
  | Some r =>
      if decide (destination r = net_address)
      then '(reg, res) ← set_route reg (sr_message r) (destination r) (via r) (sr_metric r);
           Ret (reg, match res with Ok _ => Ok tt | Err _ => Err tt end)
      else Ret (reg, Ok tt)
  end.

(** The announcements of the manager, in the order they come *)
Fixpoint announcements (net_address : NetAddress) (reg : RouteRegistry (SM := SM)) (srs : list SetRoute) :
    outcome (RouteRegistry (SM := SM) * result unit unit) :=
  match srs with
  | [] => Ret (reg, Ok tt)
  | sr :: srs =>
      '(reg, res) ← process_worker_inbound net_address reg (Some sr);
      match res with Ok _ => announcements net_address reg srs | Err _ => Ret (reg, Err tt) end
  end.

(** A message that came for the net: one a connection forwards, with the key of its type, or one of a type of this program *)
Inductive Inbound := ForwardOf (key : LocalTypeKey) | MessageOf (tid : TypeId).

Definition TidCache : Type := gmap TypeId LocalTypeKey.

(** The key of the message's type: [Ok None] when the type has no codec. [resolved] is the manager's answer to
    [ResolveTypeIdRequest], asked for a type that is not in the cache. *)
Definition message_type_key (cache : TidCache) (envelope : Inbound) (resolved : result (option LocalTypeKey) unit) :
    TidCache * result (option LocalTypeKey) unit :=
  match envelope with
  | ForwardOf key => (cache, Ok (Some key))
  | MessageOf tid =>
      match cache !! tid with
      | Some key => (cache, Ok (Some key))
      | None =>
          match resolved with
          | Err _ => (cache, Err tt)
          | Ok (Some key) => (<[tid := key]> cache, Ok (Some key))
          | Ok None => (cache, Ok None)
          end
      end
  end.

(** [process_subnet_inbound]: the gateway the envelope is forwarded to, if any *)
Definition process_subnet_inbound (cache : TidCache) (reg : RouteRegistry (SM := SM)) (to : Address) (envelope : Inbound)
    (resolved : result (option LocalTypeKey) unit) : outcome (TidCache * option Address * result unit unit) :=
  let '(cache, key_opt) := message_type_key cache envelope resolved in
  match key_opt with
  | Err _ => Ret (cache, None, Err tt)
  | Ok None => Ret (cache, None, Ok tt)
  | Ok (Some key) =>
      r ← find_route addr_hash reg key to;
      Ret (cache, match r with Ok (Some gw, _) => Some gw | _ => None end, Ok tt)
  end.

(** ** A copy of the routes *)
Lemma fold_effect_none g n k c srs : (∀ sr, sr ∈ srs → (g, n, k) ≠ (via sr, destination sr, sr_message sr)) →
  foldl (route_effect g n k) c srs = c.
Proof.
  revert c. induction srs as [|sr srs IH]; intros c Hn; [done|]. cbn. unfold route_effect at 2.
  rewrite decide_False by (apply Hn; by left). apply IH. intros sr' Hin. apply Hn. by right.
Qed.

Lemma fold_effect_all g n k c d srs : (∀ sr, sr ∈ srs → (g, n, k) = (via sr, destination sr, sr_message sr) → sr_metric sr = d) →
  (c = d ∨ ∃ sr, sr ∈ srs ∧ (g, n, k) = (via sr, destination sr, sr_message sr)) → foldl (route_effect g n k) c srs = d.
Proof.
  revert c. induction srs as [|sr srs IH]; intros c Hall Hor; cbn.
  - destruct Hor as [->|(sr & ?%not_elem_of_nil & _)]; done.
  - apply IH; [intros sr' Hin; apply Hall; by right|]. unfold route_effect. case_decide as Hd.
    + left. by apply Hall; [left|].
    + destruct Hor as [->|(sr' & [->|Hin]%elem_of_cons & Hm)]; [by left|done|right; eauto].
Qed.

Section Plan.
Context (plan : NetAddress → Prop) `{!AddressPlan plan}.

(** The copy has the routes of the table to the one net, and no others. *)
Definition copy_of (net : NetAddress) (table copy : RouteRegistry (SM := SM)) : Prop :=
  routes_ok plan copy ∧ (∀ g k, route_of copy g net k = route_of table g net k) ∧
  ∀ g n k, plan n → n ≠ net → route_of copy g n k = None.

Lemma load_routes_ok reg net srs : routes_ok plan reg → plan net → Forall (set_route_ok_args plan) srs →
  ∃ reg', load_routes reg net srs = Ret (Ok reg') ∧ routes_ok plan reg' ∧
    ∀ g n k, plan n → route_of reg' g n k =
      if decide (n = net) then foldl (route_effect g n k) (route_of reg g n k) srs else route_of reg g n k.
Proof.
  intros Hr Hn Hf. revert reg Hr. induction Hf as [|sr srs [Hd Hc] Hf IH]; intros reg Hr; cbn.
  { exists reg. split_and!; [done|done|]. intros g n k _. by case_decide. }
  case_decide as He.
  - destruct (set_route_ok plan reg (sr_message sr) _ (via sr) (sr_metric sr) Hr Hd Hc) as (reg1 & -> & Hr1 & Ht). cbn.
    destruct (IH reg1 Hr1) as (reg2 & -> & Hr2 & Hfold). exists reg2. split_and!; [done|done|]. intros g n k Hp. rewrite Hfold, Ht by done. unfold route_effect at 3.
    case_decide; [done|]. rewrite decide_False; [done|]. intros [=]; congruence.
  - destruct (IH reg Hr) as (reg2 & -> & Hr2 & Hfold). exists reg2. split_and!; [done|done|]. intros g n k Hp. rewrite Hfold by done. unfold route_effect at 3.
    case_decide; [|done]. rewrite (decide_False (P := _ = (_, destination sr, _))); [done|]. intros [=]; congruence.
Qed.

(** The snapshot of the manager's routes *)
Definition snapshot (reg : RouteRegistry (SM := SM)) : list SetRoute := set_route_from <$> all_routes reg.

Lemma snapshot_args reg : routes_ok plan reg → Forall (set_route_ok_args plan) (snapshot reg).
Proof.
  intros Hr. apply Forall_forall. intros sr (e & -> & ([k e'] & -> & Hin%sm_drain_elem)%list_elem_of_fmap)%list_elem_of_fmap.
  apply (entries_ok _ _ Hr) in Hin as (Hp & Hc & _). split; [done|]. cbn. by intros c [= <-].
Qed.

Lemma snapshot_fold reg g n k : routes_ok plan reg → plan n → foldl (route_effect g n k) None (snapshot reg) = route_of reg g n k.
Proof.
  intros Hr Hn. assert (Hin : ∀ sr, sr ∈ snapshot reg → (g, n, k) = (via sr, destination sr, sr_message sr) → sr_metric sr = route_of reg g n k).
  { intros sr (e & -> & ([key e'] & -> & Hin%sm_drain_elem)%list_elem_of_fmap)%list_elem_of_fmap. cbn. intros [= -> -> ->]. symmetry.
    apply (route_of_entry plan); [done|done|]. exists key. rewrite Hin. by destruct e'. }
  apply fold_effect_all; [done|]. destruct (route_of reg g n k) as [c|] eqn:E; [right|by left].
  apply (route_of_entry plan) in E as (key & Hk); [|done|done]. exists (set_route_from (mkRoute k n g c)). split; [|done].
  apply list_elem_of_fmap. eexists. split; [done|]. apply list_elem_of_fmap. exists (key, mkRoute k n g c). by rewrite sm_drain_elem.
Qed.

Lemma snapshot_copy reg net : routes_ok plan reg → plan net →
  ∃ copy, ingress_start net true true (Ok (snapshot reg)) = Ret (Ok copy) ∧ copy_of net reg copy.
Proof.
  intros Hr Hn. destruct (load_routes_ok registry_default net (snapshot reg) (routes_default plan) Hn (snapshot_args reg Hr)) as (copy & E & Hc & Ht).
  exists copy. split; [done|]. split; [done|]. split.
  - intros g k. rewrite Ht, decide_True by done. by apply snapshot_fold.
  - intros g n k Hp Hne. by rewrite Ht, decide_False.
Qed.

(** One announcement, handled by the manager and by the worker *)
Lemma copy_step net table table' copy sr : copy_of net table copy → set_route_ok_args plan sr → plan net → table_after plan table table' sr →
  ∃ copy', process_worker_inbound net copy (Some sr) = Ret (copy', Ok tt) ∧ copy_of net table' copy'.
Proof.
  intros (Hr & Hc & Ho) [Hd Hm] Hn Ht. cbn. case_decide as He.
  - destruct (set_route_ok plan copy (sr_message sr) _ (via sr) (sr_metric sr) Hr Hd Hm) as (copy' & -> & Hr' & Ht'). cbn.
    exists copy'. split; [done|]. split; [done|]. split.
    + intros g k. rewrite Ht, Ht' by done. case_decide; [done|]. apply Hc.
    + intros g n k Hp Hne. rewrite Ht', decide_False by (done || intros [=]; congruence). by apply Ho.
  - exists copy. split; [done|]. split; [done|]. split; [|done]. intros g k. rewrite Ht by done. rewrite decide_False by (intros [=]; congruence). apply Hc.
Qed.

(** In a copy, the search is exact: it fails only if there is no route. *)
Lemma copy_find net table copy k x : copy_of net table copy → plan net → net_contains net x →
  ∃ r, find_route addr_hash copy k x = Ret r ∧
  match r with
  | Ok (g, c) => route_of table g net k = Some c ∧ ∀ g' c', route_of table g' net k = Some c' → c ≤ c'
  | Err _ => ∀ g, route_of table g net k = None
  end.
Proof.
  intros (Hr & Hc & Ho) Hn Hx. destruct (find_route_ok plan addr_hash copy net k x Hr Hn Hx) as [[r Er] Hs]. exists r. split; [done|].
  destruct r as [[g c]|[]].
  - destruct (find_route_sound plan addr_hash copy k x g c Hr Er) as (n' & Hp & Hg). destruct (decide (n' = net)) as [->|Hne]; [|by rewrite Ho in Hg].
    rewrite <- Hc. split; [done|]. intros g' c' Hg'. rewrite <- Hc in Hg'. destruct (Hs _ _ Hg') as (g2 & c2 & E2 & _ & Hmin).
    rewrite Er in E2. injection E2 as -> ->. by apply (Hmin _ _ Hg').
  - intros g. rewrite <- Hc. destruct (route_of copy g net k) as [c|] eqn:E; [|done]. destruct (Hs _ _ E) as (g2 & c2 & E2 & _). congruence.
Qed.

(** ** The worker and the manager *)
Section WithManager.
Context {BM : Type} `{!BiMap WatchRef Address BM} {SocketAddr Path : Type} `{Countable SocketAddr} `{Countable Path}.
Context (type_name : TypeId → MessageName) (default_key : LocalTypeKey).
Notation M := (Manager (SM := SM) (BM := BM) (SocketAddr := SocketAddr) (Path := Path)).

Lemma announcements_app net copy srs srs' : announcements net copy (srs ++ srs') =
  ('(copy, r) ← announcements net copy srs; match r with Ok _ => announcements net copy srs' | Err e => Ret (copy, Err e) end).
Proof.
  revert copy. induction srs as [|sr srs IH]; intros copy; [done|]. cbn [app announcements].
  destruct (process_worker_inbound net copy (Some sr)) as [[copy1 [[]|[]]]|]; cbn [mbind outcome_bind]; [apply IH|done|done].
Qed.

(** A subscriber is told of a route once for each of its subscriptions; all but the first change nothing. *)
Lemma copy_repeats net table table' copy sr l : copy_of net table copy → set_route_ok_args plan sr → plan net → table_after plan table table' sr →
  Forall (λ sr', sr' = sr) l → l ≠ [] → ∃ copy', announcements net copy l = Ret (copy', Ok tt) ∧ copy_of net table' copy'.
Proof.
  intros Hc Ha Hn Ht Hl. revert table copy Hc Ht. induction Hl as [|? l -> Hl IH]; intros table copy Hc Ht Hne; [done|].
  destruct (copy_step net table table' copy sr Hc Ha Hn Ht) as (copy1 & E1 & Hc1). cbn [announcements]. rewrite E1. cbn [mbind outcome_bind].
  destruct l as [|sr' l]; [by exists copy1|]. apply (IH table' copy1 Hc1); [|done].
  intros g n k Hp. rewrite (Ht g n k Hp). by case_decide.
Qed.

Lemma set_route_announced (out : list (Out (SM := SM))) sr a subs : omap (λ o, match o with Tell s sr' => Some (s, sr') | _ => None end) out = (λ s, (s, sr)) <$> subs →
  announced a out = (λ _, sr) <$> filter (λ s, s = a) subs.
Proof.
  intros E. transitivity (omap (λ x : Address * SetRoute, if decide (x.1 = a) then Some x.2 else None)
    (omap (λ o, match o with Tell s sr' => Some (s, sr') | _ => None end) out)).
  { clear E. induction out as [|o out IH]; [done|]. unfold announced in *. cbn [omap list_omap]. destruct o; try exact IH. cbn [omap list_omap fst snd].
    destruct (decide _); by rewrite IH. }
  rewrite E. clear E. induction subs as [|s subs IH]; [done|]. cbn [fmap list_fmap omap list_omap fst snd]. rewrite filter_cons.
  destruct (decide (s = a)); [rewrite fmap_cons; by f_equal|done].
Qed.

(** The subscription with this reference is not ended, and its reference not used for another. *)
Definition keeps_watch (w : WatchRef) (op : Op (SM := SM) (SocketAddr := SocketAddr) (Path := Path)) : Prop :=
  match op with OpSubscribeToRoutes _ w' | OpDown w' _ => w' ≠ w | _ => True end.

(** What the subscriber is told while the manager runs keeps its copy true. *)
Lemma copy_follows (m m' : M) a w net copy tr : manager_ok type_name plan m → run type_name default_key plan m tr m' →
  Forall (λ x, keeps_watch w x.1.1) tr → plan net → route_subscribers m !! w = Some a → copy_of net (route_registry m) copy →
  ∃ copy', announcements net copy (announced a (tr ≫= λ x, x.1.2)) = Ret (copy', Ok tt) ∧ copy_of net (route_registry m') copy'.
Proof.
  intros Hm Hrun. revert copy. induction Hrun as [m|m op m1 out r tr m2 Ho Es Hi Hrun IH]; intros copy Hk Hn Hw Hc; [by exists copy|].
  apply Forall_cons in Hk as [Hk Hks]. cbn [fst] in Hk. change (((op, out, r) :: tr) ≫= λ x, x.1.2) with (out ++ (tr ≫= λ x, x.1.2)).
  unfold announced. rewrite omap_app. fold (announced a out) (announced a (tr ≫= λ x, x.1.2)). rewrite announcements_app.
  destruct (step_ok type_name default_key plan m op Hm Ho) as (m1' & out' & r' & Es' & Hs). rewrite Es in Es'. injection Es' as <- <- <-.
  destruct (Hs Hi) as [Hm1 _]. clear Hs.
  assert ((∀ sr asked w, op ≠ OpSetRoute sr asked w) ∨ ∃ sr asked w', op = OpSetRoute sr asked w') as [Hop|(sr & asked & w' & ->)] by (destruct op; naive_solver).
  - destruct (step_frame type_name default_key m op m1 out r a Es Hop) as (Er & -> & Esub). cbn [announcements mbind outcome_bind].
    apply IH; [done|done|done| |by rewrite Er]. rewrite Esub. destruct op; try done; cbn in Hk; [by rewrite lookup_insert_ne|by rewrite lookup_delete_ne].
  - cbn [step op_ok] in Es, Ho.
    destruct (on_set_route_ok type_name default_key plan m sr asked w' Hm Ho) as (reg & gws & workers & out' & r' & E' & Hr & _ & _ & Ht & Hok).
    rewrite Es in E'. injection E' as -> -> ->. destruct Hr as [->| ->]; [|done]. destruct (Hok eq_refl) as (_ & _ & Htell & _).
    rewrite (set_route_announced _ _ a _ Htell).
    destruct (copy_repeats net _ _ copy sr ((λ _, sr) <$> filter (λ s, s = a) (map_to_list (route_subscribers m)).*2) Hc Ho Hn Ht) as (copy1 & -> & Hc1).
    { apply Forall_fmap, Forall_true. done. }
    { intros E%fmap_nil_inv. assert (a ∈ filter (λ s, s = a) (map_to_list (route_subscribers m)).*2) as Hin; [|rewrite E in Hin; by apply elem_of_nil in Hin].
      apply list_elem_of_filter. split; [done|]. apply list_elem_of_fmap. exists (w, a). split; [done|]. by apply elem_of_map_to_list. }
    cbn [mbind outcome_bind]. by apply IH.
Qed.

(** The gateway a worker should choose for a message type: one at the least distance in the table, unless there is no route
    or the least distance is that of the local node itself *)
Definition best_gateway (table : RouteRegistry (SM := SM)) (net : NetAddress) (key : LocalTypeKey) (chosen : option Address) : Prop :=
  let shortest g c := route_of table g net key = Some c ∧ ∀ g' c', route_of table g' net key = Some c' → c ≤ c' in
  match chosen with
  | Some g => ∃ c, shortest (Some g) c
  | None => (∀ g, route_of table g net key = None) ∨ ∃ c, shortest None c
  end.

(** The worker's cache of keys, of a message's type *)
Definition cache_ok (m : M) (cache : TidCache) : Prop :=
  ∀ t k, cache !! t = Some k → message_name_by_key type_name (protocol_registry m) k = Ret (type_name t).

(** C14: The manager and an ingress worker together, on nets of an address plan. A worker subscribes after any run of the manager and starts on
    the answer; the manager then handles any messages, the end of that subscription apart, without ending; and the worker handles what
    the manager has sent it since. Then the worker has not failed, and it sends a message for its net to a gateway at the least
    distance in the manager's table for the message's type, or to none exactly when the table has no route for it or the net is nearest
    here. The type is the one a forwarded message names; of a message of this program it is the key that the manager, asked for the
    message's type, answers or has answered, which is the key of that type's name, and if there is no such key the message goes nowhere. *)
Theorem ingress_routes_shortest (m m1 m' : M) tr0 a w out routes net tr x (Hrun0 : run type_name default_key plan manager_default tr0 m)
  (Hn : plan net) (Hx : net_contains net x)
  (Hsub : on_subscribe_to_routes m a w = (m1, out, Ok (Some (SubscribeToRoutesRs routes))))
  (Hrun : run type_name default_key plan m1 tr m') (Hk : Forall (λ x, keeps_watch w x.1.1) tr) :
  ∃ copy copy', ingress_start net true true (Ok routes) = Ret (Ok copy) ∧
    announcements net copy (announced a (tr ≫= λ x, x.1.2)) = Ret (copy', Ok tt) ∧
    (∀ key cache resolved, ∃ chosen, process_subnet_inbound cache copy' x (ForwardOf key) resolved = Ret (cache, chosen, Ok tt) ∧
      best_gateway (route_registry m') net key chosen) ∧
    ∀ tid cache key_opt, cache_ok m' cache → (on_resolve_type_id m' tid).2 = Ok (Some (ResolveTypeIdRs key_opt)) →
      ∃ cache' chosen, process_subnet_inbound cache copy' x (MessageOf tid) (Ok key_opt) = Ret (cache', chosen, Ok tt) ∧ cache_ok m' cache' ∧
        ((∃ key, message_name_by_key type_name (protocol_registry m') key = Ret (type_name tid) ∧ best_gateway (route_registry m') net key chosen) ∨
         cache !! tid = None ∧ codec_by_type_id (protocol_registry m') !! tid = None ∧ chosen = None).
Proof.
  destruct (run_ok _ _ plan _ _ _ (manager_default_ok type_name plan) Hrun0) as [Hm _]. injection Hsub as <- _ <-.
  assert (manager_ok type_name plan (set_subscribers m (<[w := a]> (route_subscribers m)))) as Hm1 by (destruct Hm; split; done).
  destruct (run_ok _ _ plan _ _ _ Hm1 Hrun) as [Hm' _].
  destruct (snapshot_copy (route_registry m) net (mo_routes _ _ _ Hm) Hn) as (copy & E0 & Hc).
  destruct (copy_follows _ m' a w net copy tr Hm1 Hrun Hk Hn) as (copy' & E1 & Hc'); [apply lookup_insert_eq | done |].
  assert (Hfind : ∀ key, ∃ r, find_route addr_hash copy' key x = Ret r ∧
    best_gateway (route_registry m') net key (match r with Ok (Some gw, _) => Some gw | _ => None end)).
  { intros key. destruct (copy_find net _ copy' key x Hc' Hn Hx) as (r & Er & Hr). exists r. split; [done|].
    unfold best_gateway. destruct r as [[[g|] c]|[]]; cbn; eauto. }
  exists copy, copy'. split; [exact E0|]. split; [exact E1|]. split.
  - intros key cache resolved. destruct (Hfind key) as (r & Er & Hb). eexists. split; [|exact Hb]. cbn. by rewrite Er.
  - intros tid cache key_opt Hcache [= <-]. unfold process_subnet_inbound, message_type_key, local_type_key_by_tid.
    destruct (cache !! tid) as [key|] eqn:Ec.
    { destruct (Hfind key) as (r & Er & Hb). rewrite Er. eexists _, _. split; [done|]. split; [done|]. left. exists key. split; [by apply Hcache|done]. }
    destruct (codec_by_type_id (protocol_registry m') !! tid) as [key|] eqn:Et; [|eexists _, _; split; [done|]; split; [done|]; by right].
    destruct (Hfind key) as (r & Er & Hb). rewrite Er. eexists _, _. split; [done|].
    assert (message_name_by_key type_name (protocol_registry m') key = Ret (type_name tid)) as Hname.
    { pose proof (mo_protocols _ _ _ Hm') as [Hreg _ _]. apply (registry_name _ _ _ _ Hreg). by apply Hreg. }
    split; [|left; by exists key]. intros t k [[<- <-]|[_ Hk']]%lookup_insert_Some; [done | by apply Hcache].
Qed.

End WithManager.
End Plan.

End Ingress.

(** ** Examples *)
Section Examples.
#[local] Existing Instance gmap_slot_map.
#[local] Existing Instance elements_order.
#[local] Existing Instance two_nets_plan.
#[local] Existing Instance gws_bimap.

Notation M := (Manager (SM := gmap Z) (BM := list (WatchRef * Address)) (SocketAddr := Z) (Path := Z)).

(** A nearer gateway is announced after the worker has subscribed. *)
Definition nearer : SetRoute := mkSetRoute 7 west (Some 101) (Some 0).

Lemma nearer_args : set_route_ok_args two_nets nearer.
Proof. split; [by left|]. intros c [= <-]. lia. Qed.

Definition add_nearer : Op (SM := gmap Z) (SocketAddr := Z) (Path := Z) := OpSetRoute nearer (Ok (Ok 50)) 10.
Definition m2_subscribed : M := (on_subscribe_to_routes m2 50 60).1.1.
Definition m2_nearer : M := after m2_subscribed add_nearer.

Lemma run_nearer : run names 0 two_nets m2_subscribed [(add_nearer, out_of m2_subscribed add_nearer, Ok None)] m2_nearer.
Proof. eapply (run_step _ _ _ m2_subscribed add_nearer m2_nearer); [exact nearer_args|vm_compute; reflexivity|done|]. constructor. Qed.

(** The worker has the nearer route from the announcement, and a type that the manager has no key for goes nowhere. *)
Lemma ingress_routes_shortest_witness : announced 50 (out_of m2_subscribed add_nearer) = [nearer] ∧ ∃ copy chosen,
  process_subnet_inbound no_hash ∅ copy (2 ^ 48 + 5) (ForwardOf 7) (Err tt) = Ret (∅, chosen, Ok tt) ∧
  best_gateway (route_registry m2_nearer) west 7 chosen ∧
  ∃ cache, process_subnet_inbound no_hash ∅ copy (2 ^ 48 + 5) (MessageOf 3) (Ok None) = Ret (cache, None, Ok tt).
Proof.
  split; [vm_compute; reflexivity|].
  destruct (ingress_routes_shortest no_hash two_nets names 0 m2 m2_subscribed m2_nearer _ 50 60 (on_subscribe_to_routes m2 50 60).1.2
    (snapshot (route_registry m2)) west [(add_nearer, out_of m2_subscribed add_nearer, Ok None)] (2 ^ 48 + 5) run2 (or_introl eq_refl))
    as (copy & copy' & _ & _ & Hf & Hl).
  - unfold net_contains, west. cbn. lia.
  - reflexivity.
  - exact run_nearer.
  - repeat constructor.
  - destruct (Hf 7 ∅ (Err tt)) as (chosen & E & Hb). exists copy', chosen. split; [exact E|]. split; [exact Hb|].
    destruct (Hl 3 ∅ None) as (cache & chosen' & E' & _ & Hor); [done|vm_compute; reflexivity|]. exists cache. rewrite E'.
    cbn in E'. by injection E' as <- <-.
Defined.
End Examples.
