(* ===== verification/Wire.v ===== *)
(** * The wire: frames, the handshake, the writer and the reader
    (components/mm1-multinode/src/actors/iostream_connection/: pdu.rs, iostream_util.rs, hello.rs,
    config.rs, iostream_write.rs, iostream_read_loop.rs)

    A connection sends headers in frames of 48 bytes, some followed by a body. Headers are encoded by
    [bincode], a library the sources only call: an interface with its laws. A stream to read is the list of
    the bytes that will come; a stream to write takes a number of bytes before it breaks. *)

From stdpp Require Import strings.
From S2P Require Import Prelude U64 Address Subnet Collections Btree Routes Protocols Manager.

Open Scope Z_scope.

Definition byte : Type := Z.
Definition ForeignTypeKey : Type := Z.

(** ** Headers (pdu.rs) *)
Record TransmitMessage := mkTransmit {
  dst_address : Address;
  tm_type : Z;
  trace_id : Z;
  origin_seq_no : Z;
  payload_size : Z;
  tm_ttl : Z;
  tm_priority : bool;
}.

Inductive Header :=
| Hello (hello : list byte)
| KeepAlive
| SubnetDistance (net_address : NetAddress) (type_handle : Z) (metric : option RouteMetric)
| DeclareType (message_type : Z) (type_name_len : Z)
| Transmit (m : TransmitMessage).

Definition HEADER_FRAME_SIZE : nat := 48.

Definition u16_ok (x : Z) : Prop := 0 ≤ x < 2 ^ 16.
Definition u8_ok (x : Z) : Prop := 0 ≤ x < 2 ^ 8.

(** The values a header can have *)
Definition header_ok (h : Header) : Prop :=
  match h with
  | Hello hello => length hello = 30%nat ∧ Forall u8_ok hello
  | KeepAlive => True
  | SubnetDistance n k c => net_ok n ∧ u64_ok k ∧ from_option u8_ok True c
  | DeclareType k l => u64_ok k ∧ u16_ok l
  | Transmit m => u64_ok (dst_address m) ∧ u64_ok (tm_type m) ∧ u64_ok (trace_id m) ∧ u64_ok (origin_seq_no m) ∧
      u16_ok (payload_size m) ∧ u8_ok (tm_ttl m)
  end.

(** ** The handshake's messages (hello.rs, config.rs) *)
Inductive AuthcConfig := Trusted | Cookie (cookie : list byte) | SharedSecret.
Inductive CapAuthc := CapTrusted | CapCookie | CapSharedSecret.
Inductive Negotiate := NegotiateCookie (len : Z) | NegotiateDone.

#[export] Instance cap_authc_eq_dec : EqDecision CapAuthc.
Proof. solve_decision. Defined.

Definition negotiate_ok (n : Negotiate) : Prop := match n with NegotiateCookie l => u16_ok l | NegotiateDone => True end.

(** [bincode] with its standard configuration: what is encoded is decoded, whatever follows it, and it is
    small enough for the frames. *)
Class Bincode := {
  bin_header : Header → list byte;
  un_header : list byte → option Header;
  bin_caps : CapAuthc → list byte;
  un_caps : list byte → option (CapAuthc * list byte);
  bin_negotiate : Negotiate → list byte;
  un_negotiate : list byte → option Negotiate;
  un_bin_header h rest : header_ok h → un_header (bin_header h ++ rest) = Some h;
  bin_header_size h : header_ok h → (length (bin_header h) ≤ 48)%nat;
  un_bin_caps c rest : un_caps (bin_caps c ++ rest) = Some (c, rest);
  bin_caps_size c : (length (bin_caps c) ≤ 26)%nat;
  bin_caps_bytes c : Forall u8_ok (bin_caps c);
  un_bin_negotiate n rest : negotiate_ok n → un_negotiate (bin_negotiate n ++ rest) = Some n;
  bin_negotiate_size n : negotiate_ok n → (length (bin_negotiate n) ≤ 16)%nat;
}.

(** ** Streams *)

(** [read_exact] *)
Definition read_exact (n : nat) (io : list byte) : option (list byte * list byte) :=
  if decide (n ≤ length io)%nat then Some (take n io, drop n io) else None.

(** A stream to write to, and how many more bytes it takes *)
Record Writer := mkWriter { written : list byte; capacity : nat }.

(** [write_all]; [flush] is a write of nothing. *)
Definition write_all (w : Writer) (bs : list byte) : Writer * result unit unit :=
  (mkWriter (written w ++ take (capacity w) bs) (capacity w - length bs),
   if decide (length bs ≤ capacity w)%nat then Ok tt else Err tt).

(** An encoding at the start of a buffer of zeroes; [Err] if it does not fit *)
Definition pad (n : nat) (bs : list byte) : result (list byte) unit :=
  if decide (length bs ≤ n)%nat then Ok (bs ++ replicate (n - length bs) 0) else Err tt.

Section Wire.
Context `{bincode : Bincode}.

(** [iostream_util::read_header] *)
Definition read_header (io : list byte) : result (Header * list byte) unit :=
  match read_exact HEADER_FRAME_SIZE io with
  | None => Err tt
  | Some (buf, io) => match un_header buf with Some header => Ok (header, io) | None => Err tt end
  end.

(** [iostream_util::write_header] *)
Definition write_header (w : Writer) (header : Header) : Writer * result unit unit :=
  match pad HEADER_FRAME_SIZE (bin_header header) with
  | Err e => (w, Err e)
  | Ok buf => write_all w buf
  end.

(** ** The handshake *)
Definition HELLO : list byte := [77; 77; 49; 33].
(** [mem::size_of::<Negotiate>() * 2]: a [repr(C)] enum of a [u16] *)
Definition NEGOTIATE_FRAME : nat := 16.

(** [capabilities] *)
Definition capabilities (authc : AuthcConfig) : CapAuthc :=
  match authc with Trusted => CapTrusted | Cookie _ => CapCookie | SharedSecret => CapSharedSecret end.

(** [read_negotiate] and [write_negotiate] *)
Definition read_negotiate (io : list byte) : result (Negotiate * list byte) unit :=
  match read_exact NEGOTIATE_FRAME io with
  | None => Err tt
  | Some (buf, io) => match un_negotiate buf with Some n => Ok (n, io) | None => Err tt end
  end.
Definition write_negotiate (w : Writer) (n : Negotiate) : Writer * result unit unit :=
  match pad NEGOTIATE_FRAME (bin_negotiate n) with
  | Err e => (w, Err e)
  | Ok buf => write_all w buf
  end.

(** The two halves of [negotiate_authc] with a cookie *)
Definition write_cookie (w : Writer) (cookie : list byte) : Writer * result unit unit :=
  if decide (Z.of_nat (length cookie) < 2 ^ 16)
  then match write_negotiate w (NegotiateCookie (Z.of_nat (length cookie))) with
       | (w, Err e) => (w, Err e)
       | (w, Ok _) => write_all w cookie
       end
  else (w, Err tt).
Definition read_cookie (io : list byte) (cookie : list byte) : result (list byte) unit :=
  match read_negotiate io with
  | Ok (NegotiateCookie cookie_len, io) =>
      match read_exact (Z.to_nat cookie_len) io with
      | Some (buf, io) => if decide (buf = cookie) then Ok io else Err tt
      | None => Err tt
      end
  | _ => Err tt
  end.

(** [try_join] of a writing and a reading half, in the order that writes first *)
Definition try_join {A} (w : Writer * result unit unit) (r : result A unit) : Writer * result A unit :=
  match w with (w, Ok _) => (w, r) | (w, Err e) => (w, Err e) end.

(** [negotiate_authc] *)
Definition negotiate_authc (w : Writer) (io : list byte) (authc : AuthcConfig) (local peer : CapAuthc) : Writer * result (list byte) unit :=
  if decide (local = peer)
  then match authc with
       | Trusted => (w, Ok io)
       | Cookie cookie => try_join (write_cookie w cookie) (read_cookie io cookie)
       | SharedSecret => (w, Err tt)
       end
  else (w, Err tt).

(** [negotiate_done] *)
Definition read_done (io : list byte) : result (list byte) unit :=
  match read_negotiate io with Ok (NegotiateDone, io) => Ok io | _ => Err tt end.
Definition negotiate_done (w : Writer) (io : list byte) : Writer * result (list byte) unit :=
  try_join (write_negotiate w NegotiateDone) (read_done io).

(** [negotiate] *)
Definition negotiate (w : Writer) (io : list byte) (authc : AuthcConfig) (local peer : CapAuthc) : Writer * result (list byte) unit :=
  match negotiate_authc w io authc local peer with
  | (w, Err e) => (w, Err e)
  | (w, Ok io) => negotiate_done w io
  end.

(** The hello of this side, and the reading of the peer's *)
Definition write_hello (w : Writer) (local : CapAuthc) : Writer * result unit unit :=
  match pad 26 (bin_caps local) with
  | Err e => (w, Err e)
  | Ok caps => write_header w (Hello (HELLO ++ caps))
  end.
Definition check_hello (header : Header) : result CapAuthc unit :=
  match header with
  | Hello inbound_hello =>
      if decide (take 4 inbound_hello = HELLO)
      then match un_caps (drop 4 inbound_hello) with
           | Some (peer, should_be_zeroes) => if forallb (Z.eqb 0) should_be_zeroes then Ok peer else Err tt
           | None => Err tt
           end
      else Err tt
  | _ => Err tt
  end.

(** [hello::run]: what is left of the stream once the handshake is done *)
Definition hello_run (w : Writer) (io : list byte) (authc : AuthcConfig) : Writer * result (list byte) unit :=
  let local := capabilities authc in
  match try_join (write_hello w local) (read_header io) with
  | (w, Err e) => (w, Err e)
  | (w, Ok (header, io)) =>
      match check_hello header with
      | Err e => (w, Err e)
      | Ok peer => negotiate w io authc local peer
      end
  end.

(** ** Frames *)
Definition padded (n : nat) (bs : list byte) : list byte := bs ++ replicate (n - length bs) 0.
Definition frame (h : Header) : list byte := padded HEADER_FRAME_SIZE (bin_header h).

Lemma pad_padded n bs : (length bs ≤ n)%nat → pad n bs = Ok (padded n bs).
Proof. intros. unfold pad. by rewrite decide_True. Qed.

Lemma length_padded n bs : (length bs ≤ n)%nat → length (padded n bs) = n.
Proof. intros. unfold padded. rewrite length_app, length_replicate. lia. Qed.

Lemma read_exact_app n bs io : length bs = n → read_exact n (bs ++ io) = Some (bs, io).
Proof. intros <-. unfold read_exact. rewrite decide_True by (rewrite length_app; lia). by rewrite take_app_length, drop_app_length. Qed.

Lemma read_exact_some n io bs rest : read_exact n io = Some (bs, rest) → io = bs ++ rest ∧ length bs = n.
Proof. unfold read_exact. case_decide; [|done]. intros [= <- <-]. rewrite take_drop, length_take. split; [done|lia]. Qed.

Lemma write_all_ok w bs w' : write_all w bs = (w', Ok tt) ↔
  (length bs ≤ capacity w)%nat ∧ w' = mkWriter (written w ++ bs) (capacity w - length bs).
Proof.
  unfold write_all. case_decide as Hd; [|naive_solver]. rewrite take_ge by done. split; [by intros [= <-]|]. by intros [_ ->].
Qed.

Lemma write_all_fits w bs : (length bs ≤ capacity w)%nat → write_all w bs = (mkWriter (written w ++ bs) (capacity w - length bs), Ok tt).
Proof. intros Hc. by apply write_all_ok. Qed.

Lemma length_frame h : header_ok h → length (frame h) = 48%nat.
Proof. intros Hh. by apply length_padded, bin_header_size. Qed.

Lemma read_header_frame h io : header_ok h → read_header (frame h ++ io) = Ok (h, io).
Proof.
  intros Hh. unfold read_header. rewrite read_exact_app by (by apply length_frame). unfold frame, padded. by rewrite un_bin_header.
Qed.

Lemma write_header_ok w h w' : header_ok h → write_header w h = (w', Ok tt) ↔
  (48 ≤ capacity w)%nat ∧ w' = mkWriter (written w ++ frame h) (capacity w - 48).
Proof.
  intros Hh. unfold write_header. rewrite pad_padded by (by apply bin_header_size). fold (frame h).
  by rewrite write_all_ok, length_frame.
Qed.

(** ** The handshake *)
Definition negotiate_frame (n : Negotiate) : list byte := padded NEGOTIATE_FRAME (bin_negotiate n).
Definition hello_header (authc : AuthcConfig) : Header := Hello (HELLO ++ padded 26 (bin_caps (capabilities authc))).

(** What a side sends in a handshake *)
Definition hello_bytes (authc : AuthcConfig) : list byte :=
  frame (hello_header authc) ++
  (match authc with Cookie c => negotiate_frame (NegotiateCookie (Z.of_nat (length c))) ++ c | _ => [] end) ++
  negotiate_frame NegotiateDone.

Lemma hello_header_ok authc : header_ok (hello_header authc).
Proof.
  split.
  - cbn. by rewrite length_padded by apply bin_caps_size.
  - apply Forall_app. split; [unfold HELLO; repeat constructor; by vm_compute|]. apply Forall_app.
    split; [apply bin_caps_bytes|]. apply Forall_replicate. by vm_compute.
Qed.

Lemma check_hello_ok authc : check_hello (hello_header authc) = Ok (capabilities authc).
Proof.
  unfold check_hello, hello_header. set (p := padded 26 _). change (take 4 (HELLO ++ p)) with HELLO. change (drop 4 (HELLO ++ p)) with p.
  rewrite decide_True by done. unfold p, padded. rewrite un_bin_caps.
  assert (Hz : ∀ n, forallb (Z.eqb 0) (replicate n 0) = true) by (induction n; done). by rewrite Hz.
Qed.

Lemma length_negotiate_frame n : negotiate_ok n → length (negotiate_frame n) = 16%nat.
Proof. intros. by apply length_padded, bin_negotiate_size. Qed.

Lemma read_negotiate_frame n io : negotiate_ok n → read_negotiate (negotiate_frame n ++ io) = Ok (n, io).
Proof.
  intros Hn. unfold read_negotiate. rewrite read_exact_app by (by apply length_negotiate_frame). unfold negotiate_frame, padded. by rewrite un_bin_negotiate.
Qed.

Lemma write_negotiate_ok w n w' : negotiate_ok n → write_negotiate w n = (w', Ok tt) ↔
  (16 ≤ capacity w)%nat ∧ w' = mkWriter (written w ++ negotiate_frame n) (capacity w - 16).
Proof.
  intros Hn. unfold write_negotiate. rewrite pad_padded by (by apply bin_negotiate_size). fold (negotiate_frame n).
  by rewrite write_all_ok, length_negotiate_frame.
Qed.

Lemma write_hello_ok w authc w' : write_hello w (capabilities authc) = (w', Ok tt) ↔
  (48 ≤ capacity w)%nat ∧ w' = mkWriter (written w ++ frame (hello_header authc)) (capacity w - 48).
Proof.
  unfold write_hello. rewrite pad_padded by apply bin_caps_size. apply (write_header_ok w (hello_header authc)), hello_header_ok.
Qed.

Lemma write_hello_fits w authc : (48 ≤ capacity w)%nat →
  write_hello w (capabilities authc) = (mkWriter (written w ++ frame (hello_header authc)) (capacity w - 48), Ok tt).
Proof. intros Hc. by apply write_hello_ok. Qed.

(** The configurations with which two nodes can talk *)
Definition usable (authc : AuthcConfig) : Prop :=
  match authc with Trusted => True | Cookie c => Z.of_nat (length c) < 2 ^ 16 | SharedSecret => False end.

(** The part after the hello *)
Definition authc_bytes (authc : AuthcConfig) : list byte :=
  match authc with Cookie c => negotiate_frame (NegotiateCookie (Z.of_nat (length c))) ++ c | _ => [] end.

Lemma write_negotiate_fits w n : negotiate_ok n → (16 ≤ capacity w)%nat →
  write_negotiate w n = (mkWriter (written w ++ negotiate_frame n) (capacity w - 16), Ok tt).
Proof. intros Hn Hc. by apply write_negotiate_ok. Qed.

Lemma authc_completes w authc rest : usable authc → (length (authc_bytes authc) ≤ capacity w)%nat →
  negotiate_authc w (authc_bytes authc ++ rest) authc (capabilities authc) (capabilities authc) =
    (mkWriter (written w ++ authc_bytes authc) (capacity w - length (authc_bytes authc)), Ok rest).
Proof.
  intros Hu. unfold negotiate_authc. rewrite decide_True by done. destruct authc as [|c|]; [| |done]; cbn [authc_bytes].
  - intros _. cbn. rewrite app_nil_r, Nat.sub_0_r. by destruct w.
  - cbn in Hu. assert (Hn : negotiate_ok (NegotiateCookie (Z.of_nat (length c)))) by (unfold negotiate_ok, u16_ok; lia).
    rewrite length_app, (length_negotiate_frame _ Hn). intros Hc. unfold write_cookie. rewrite decide_True by done.
    rewrite write_negotiate_fits by (done || lia).
    rewrite write_all_fits by (cbn [capacity]; lia). cbn [try_join written capacity]. f_equal; [f_equal; [by rewrite app_assoc|lia]|].
    unfold read_cookie. rewrite <- app_assoc, read_negotiate_frame, Nat2Z.id, read_exact_app by done. by rewrite decide_True.
Qed.

Lemma hello_completes w authc rest : usable authc → (length (hello_bytes authc) ≤ capacity w)%nat →
  ∃ w', hello_run w (hello_bytes authc ++ rest) authc = (w', Ok rest) ∧ written w' = written w ++ hello_bytes authc.
Proof.
  intros Hu. pose proof (length_negotiate_frame NegotiateDone I) as Hl. unfold hello_bytes. fold (authc_bytes authc).
  rewrite !length_app, (length_frame _ (hello_header_ok authc)), Hl. intros Hc. unfold hello_run.
  rewrite (write_hello_fits w authc) by lia. cbn [try_join].
  rewrite <- !app_assoc, read_header_frame, check_hello_ok by apply hello_header_ok. unfold negotiate.
  rewrite authc_completes by (done || (cbn [capacity]; lia)). unfold negotiate_done. rewrite write_negotiate_fits by (done || (cbn [capacity]; lia)). cbn [try_join].
  unfold read_done. rewrite read_negotiate_frame by done. eexists. split; [done|]. cbn. by rewrite !app_assoc.
Qed.

(** A handshake that is done has read the peer's proof. *)
Lemma read_negotiate_some io n rest : read_negotiate io = Ok (n, rest) → ∃ f, io = f ++ rest ∧ length f = 16%nat ∧ un_negotiate f = Some n.
Proof.
  unfold read_negotiate. destruct (read_exact NEGOTIATE_FRAME io) as [[buf io']|] eqn:E; [|done].
  apply read_exact_some in E as [-> Hl]. destruct (un_negotiate buf) eqn:En; [|done]. intros [= <- <-]. eauto.
Qed.

Lemma hello_sound w io authc w' rest : hello_run w io authc = (w', Ok rest) →
  usable authc ∧ ∃ h proof d, io = h ++ proof ++ d ++ rest ∧ length h = 48%nat ∧ length d = 16%nat ∧
  match authc with Cookie c => ∃ n, length n = 16%nat ∧ proof = n ++ c | _ => proof = [] end.
Proof.
  unfold hello_run. destruct (write_hello w (capabilities authc)) as [w1 [?|?]]; cbn [try_join]; [|done].
  unfold read_header. destruct (read_exact HEADER_FRAME_SIZE io) as [[buf io1]|] eqn:E1; [|done]. apply read_exact_some in E1 as [-> Hh].
  destruct (un_header buf) as [hd|]; [|done]. destruct (check_hello hd) as [peer|]; [|done]. unfold negotiate, negotiate_authc.
  case_decide; [|done]. intros Hn. assert (Hd : ∀ w io w' rest, negotiate_done w io = (w', Ok rest) → ∃ d, io = d ++ rest ∧ length d = 16%nat).
  { intros v i v' r. unfold negotiate_done. destruct (write_negotiate v NegotiateDone) as [v1 [?|?]]; cbn [try_join]; [|done]. intros [= _ Hr].
    unfold read_done in Hr. destruct (read_negotiate i) as [[[?|] i']|] eqn:E; [done| |done]. injection Hr as ->.
    apply read_negotiate_some in E as (f & -> & Hl & _). eauto. }
  destruct authc as [|c|]; [..|done].
  - apply Hd in Hn as (d & -> & Hl). split; [done|]. by exists buf, [], d.
  - destruct (write_cookie w1 c) as [w2 [?|?]] eqn:Ew; cbn [try_join] in Hn; [|done]. unfold read_cookie in Hn.
    destruct (read_negotiate io1) as [[[len|] io2]|] eqn:En; [|done|done]. apply read_negotiate_some in En as (n & -> & Hln & _).
    destruct (read_exact (Z.to_nat len) io2) as [[b io3]|] eqn:Er; [|done]. apply read_exact_some in Er as [-> _].
    case_decide; [subst b|done]. apply Hd in Hn as (d & -> & Hl). split.
    + cbn. unfold write_cookie in Ew. by case_decide.
    + exists buf, (n ++ c), d. rewrite <- app_assoc. split_and!; [done|done|done|eauto].
Qed.

(** A handshake that is done has written all that the peer is to read. *)
Lemma try_join_ok {A} (wr : Writer * result unit unit) (r : result A unit) w' x : try_join wr r = (w', Ok x) → wr = (w', Ok tt) ∧ r = Ok x.
Proof. destruct wr as [w [[]|]]; cbn; [by intros [= -> ->] | done]. Qed.

Lemma hello_wrote w io authc w' rest : hello_run w io authc = (w', Ok rest) → written w' = written w ++ hello_bytes authc.
Proof.
  intros E. pose proof (hello_sound _ _ _ _ _ E) as [Hu _]. unfold hello_run in E.
  destruct (try_join _ _) as [w1 [[header io1]|]] eqn:E1; [|done]. apply try_join_ok in E1 as [E1%write_hello_ok _].
  destruct (check_hello header) as [peer|]; [|done]. unfold negotiate in E.
  destruct (negotiate_authc w1 io1 authc (capabilities authc) peer) as [w2 [io2|]] eqn:E2; [|done].
  unfold negotiate_done in E. apply try_join_ok in E as [E%write_negotiate_ok _]; [|done].
  assert (written w2 = written w1 ++ authc_bytes authc) as H2.
  { unfold negotiate_authc in E2. case_decide; [|done]. destruct authc as [|c|]; [injection E2 as <- _; by rewrite app_nil_r | | done].
    apply try_join_ok in E2 as [E2 _]. unfold write_cookie in E2. cbn in Hu. rewrite decide_True in E2 by done.
    destruct (write_negotiate w1 _) as [w3 [[]|]] eqn:E3; [|done].
    apply write_negotiate_ok in E3 as [_ ->]; [|unfold negotiate_ok, u16_ok; lia]. apply write_all_ok in E2 as [_ ->]. cbn. by rewrite app_assoc. }
  destruct E1 as [_ ->], E as [_ ->]. cbn [written] in *. rewrite H2. unfold hello_bytes. fold (authc_bytes authc). by rewrite !app_assoc.
Qed.

(** C24: The handshake lets in exactly the peers that prove themselves: a node that completes it has a usable configuration (never a shared
    secret, which is not implemented) and, if it is set up with a cookie, has read that very cookie from the peer; and a peer of the same
    usable configuration always completes it, over a stream that takes its bytes, leaving the rest of the stream unread. *)
Theorem handshake_authenticates authc :
  (∀ w io w' rest, hello_run w io authc = (w', Ok rest) →
    usable authc ∧ ∃ h proof d, io = h ++ proof ++ d ++ rest ∧ length h = 48%nat ∧ length d = 16%nat ∧
    match authc with Cookie c => ∃ n, length n = 16%nat ∧ proof = n ++ c | _ => proof = [] end) ∧
  (usable authc → ∀ w rest, (length (hello_bytes authc) ≤ capacity w)%nat →
    ∃ w', hello_run w (hello_bytes authc ++ rest) authc = (w', Ok rest) ∧ written w' = written w ++ hello_bytes authc).
Proof. split; [intros w io w' rest; apply hello_sound|intros Hu w rest; by apply hello_completes]. Qed.

End Wire.

(** ** Such an encoding exists: fields of a fixed size, the least significant byte first. *)
Fixpoint le_bytes (n : nat) (z : Z) : list byte := match n with O => [] | S n => z mod 256 :: le_bytes n (z / 256) end.
Fixpoint of_le (bs : list byte) : Z := match bs with [] => 0 | b :: bs => b + 256 * of_le bs end.

Lemma length_le_bytes n z : length (le_bytes n z) = n.
Proof. revert z. induction n; intros; cbn; auto. Qed.

Lemma of_le_bytes n z : 0 ≤ z < 256 ^ Z.of_nat n → of_le (le_bytes n z) = z.
Proof.
  revert z. induction n as [|n IH]; intros z Hz; [cbn in *; lia|]. cbn [le_bytes of_le].
  rewrite Nat2Z.inj_succ, Z.pow_succ_r in Hz by lia. rewrite IH; [pose proof (Z.div_mod z 256); lia|].
  split; [apply Z.div_pos; lia|apply Z.div_lt_upper_bound; lia].
Qed.

Definition get_le (n : nat) (bs : list byte) : Z * list byte := (of_le (take n bs), drop n bs).

Lemma get_le_app n z rest : 0 ≤ z < 256 ^ Z.of_nat n → get_le n (le_bytes n z ++ rest) = (z, rest).
Proof.
  intros Hz. unfold get_le. rewrite take_app_length', drop_app_length' by (by rewrite length_le_bytes). by rewrite of_le_bytes.
Qed.

Definition fixed_header (h : Header) : list byte :=
  match h with
  | Hello hello => 0 :: hello
  | KeepAlive => [1]
  | SubnetDistance n k c =>
      2 :: le_bytes 8 (address n) ++ le_bytes 1 (mask n) ++ le_bytes 8 k ++ match c with None => [0; 0] | Some c => [1; c] end
  | DeclareType k l => 3 :: le_bytes 8 k ++ le_bytes 2 l
  | Transmit m => 4 :: le_bytes 8 (dst_address m) ++ le_bytes 8 (tm_type m) ++ le_bytes 8 (trace_id m) ++ le_bytes 8 (origin_seq_no m) ++
      le_bytes 2 (payload_size m) ++ le_bytes 1 (tm_ttl m) ++ [if tm_priority m then 1 else 0]
  end.

Definition fixed_unheader (bs : list byte) : option Header :=
  match bs with
  | 0 :: bs => Some (Hello (take 30 bs))
  | 1 :: _ => Some KeepAlive
  | 2 :: bs =>
      let '(a, bs) := get_le 8 bs in let '(m, bs) := get_le 1 bs in let '(k, bs) := get_le 8 bs in
      match bs with
      | 0 :: _ => Some (SubnetDistance (mkNet a m) k None)
      | 1 :: c :: _ => Some (SubnetDistance (mkNet a m) k (Some c))
      | _ => None
      end
  | 3 :: bs => let '(k, bs) := get_le 8 bs in let '(l, _) := get_le 2 bs in Some (DeclareType k l)
  | 4 :: bs =>
      let '(d, bs) := get_le 8 bs in let '(k, bs) := get_le 8 bs in let '(t, bs) := get_le 8 bs in let '(o, bs) := get_le 8 bs in
      let '(p, bs) := get_le 2 bs in let '(ttl, bs) := get_le 1 bs in
      match bs with b :: _ => Some (Transmit (mkTransmit d k t o p ttl (b =? 1))) | [] => None end
  | _ => None
  end.

Lemma fixed_roundtrip h rest : header_ok h → fixed_unheader (fixed_header h ++ rest) = Some h.
Proof.
  destruct h as [hello| |n k c|k l|m]; cbn [header_ok fixed_header]; unfold u64_ok, u16_ok, u8_ok, net_ok, u64_ok; intros Hh.
  - cbn [app fixed_unheader]. rewrite take_app_length' by (symmetry; apply Hh). done.
  - done.
  - destruct Hh as ([Ha Hm] & Hk & Hc). rewrite <- !app_comm_cons, <- !app_assoc. cbn [fixed_unheader]. rewrite !get_le_app by (cbn; lia).
    destruct n, c; done.
  - rewrite <- !app_comm_cons, <- !app_assoc. cbn [fixed_unheader]. by rewrite !get_le_app by (cbn; lia).
  - destruct Hh as (? & ? & ? & ? & ? & ?). rewrite <- !app_comm_cons, <- !app_assoc. cbn [fixed_unheader]. rewrite !get_le_app by (cbn; lia).
    by destruct m as [? ? ? ? ? ? []].
Qed.

Definition fixed_bincode : Bincode.
Proof.
  refine {|
    bin_header := fixed_header;
    un_header := fixed_unheader;
    bin_caps := λ c, [match c with CapTrusted => 0 | CapCookie => 1 | CapSharedSecret => 2 end];
    un_caps := λ bs, match bs with
      | 0 :: bs => Some (CapTrusted, bs) | 1 :: bs => Some (CapCookie, bs) | 2 :: bs => Some (CapSharedSecret, bs) | _ => None end;
    bin_negotiate := λ n, match n with NegotiateCookie l => 0 :: le_bytes 2 l | NegotiateDone => [1] end;
    un_negotiate := λ bs, match bs with 0 :: bs => Some (NegotiateCookie (get_le 2 bs).1) | 1 :: _ => Some NegotiateDone | _ => None end;
  |}.
  - apply fixed_roundtrip.
  - intros [hello| |n k c|k l|m]; cbn [header_ok fixed_header]; intros Hh.
    + cbn. destruct Hh as [-> _]. lia.
    + cbn. lia.
    + cbn [length]. rewrite !length_app, !length_le_bytes. destruct c; cbn; lia.
    + cbn [length]. rewrite !length_app, !length_le_bytes. lia.
    + cbn [length]. rewrite !length_app, !length_le_bytes. cbn. lia.
  - by intros [] rest.
  - intros []; cbn; lia.
  - intros []; repeat constructor; by vm_compute.
  - intros [l|] rest Hn; [|done]. unfold negotiate_ok, u16_ok in Hn. rewrite <- app_comm_cons. cbv beta iota. by rewrite get_le_app by (cbn; lia).
  - intros [l|] _; cbn; lia.
Defined.

(** Two nodes with the same cookie shake hands; with another cookie they do not. *)
Lemma handshake_authenticates_witness :
  (∃ w, hello_run (bincode := fixed_bincode) (mkWriter [] 100) (hello_bytes (bincode := fixed_bincode) (Cookie [7; 8]) ++ [5]) (Cookie [7; 8]) = (w, Ok [5])).
Proof.
  destruct (handshake_authenticates (bincode := fixed_bincode) (Cookie [7; 8])) as [_ Hc].
  destruct (Hc ltac:(cbn; lia) (mkWriter [] 100) [5]) as (w & E & _); [vm_compute; lia|]. exists w. exact E.
Defined.
