(* ===== verification/Stream.v ===== *)
(** * The two ends of a connection's stream
    (components/mm1-multinode/src/actors/iostream_connection/: iostream_write.rs and iostream_read_loop.rs)

    The writer declares a message type before it first refers to it; the read loop reports every frame to the
    connection's actor. Answers of the manager and of the codecs are arguments. *)

From stdpp Require Import strings.
From S2P Require Import Prelude U64 Address Subnet Collections Btree Routes Protocols Manager Wire.

Open Scope Z_scope.

(** ** Names as bytes *)
Fixpoint name_bytes (s : string) : list byte :=
  match s with EmptyString => [] | String a s => Z.of_N (Ascii.N_of_ascii a) :: name_bytes s end.
Fixpoint bytes_name (bs : list byte) : string :=
  match bs with [] => EmptyString | b :: bs => String (Ascii.ascii_of_N (Z.to_N b)) (bytes_name bs) end.

(** The check of [String::from_utf8] *)
Definition between (lo x hi : Z) : bool := (lo <=? x) && (x <=? hi).
Fixpoint utf8_valid (bs : list byte) : bool :=
  match bs with
  | [] => true
  | b0 :: bs =>
      if b0 <? 128 then utf8_valid bs
      else match bs with
      | [] => false
      | b1 :: bs =>
          if between 194 b0 223 then between 128 b1 191 && utf8_valid bs
          else match bs with
          | [] => false
          | b2 :: bs =>
              if between 224 b0 239 then
                between (if b0 =? 224 then 160 else 128) b1 (if b0 =? 237 then 159 else 191) && between 128 b2 191 && utf8_valid bs
              else match bs with
              | [] => false
              | b3 :: bs =>
                  between 240 b0 244 && between (if b0 =? 240 then 144 else 128) b1 (if b0 =? 244 then 143 else 191) &&
                  between 128 b2 191 && between 128 b3 191 && utf8_valid bs
              end
          end
      end
  end.

Definition string_from_utf8 (bs : list byte) : result string unit := if utf8_valid bs then Ok (bytes_name bs) else Err tt.

(** The envelope's header, as far as it crosses the wire *)
Record EnvelopeHeader := mkEnvHeader { eh_to : Address; eh_trace_id : Z; eh_no : Z; eh_ttl : Z; eh_priority : bool }.

Section Stream.
Context `{bincode : Bincode}.

(** ** The writer *)
Record OutputWriter := mkOutput {
  io_w : Writer;
  declared_types : gmap LocalTypeKey MessageName;
  outbound_by_type_id : gmap TypeId LocalTypeKey;
}.

Definition set_io (o : OutputWriter) (w : Writer) : OutputWriter := mkOutput w (declared_types o) (outbound_by_type_id o).

(** [OutputWriter::new] *)
Definition output_new (w : Writer) (outbound : gmap TypeId LocalTypeKey) : OutputWriter := mkOutput w ∅ outbound.

(** A header and the bytes that follow it *)
Definition write_framed (w : Writer) (h : Header) (body : list byte) : Writer * result unit unit :=
  match write_header w h with (w, Err e) => (w, Err e) | (w, Ok _) => write_all w body end.

(** [do_write_declare_type] *)
Definition do_write_declare_type (w : Writer) (message_type : LocalTypeKey) (name : MessageName) : Writer * result unit unit :=
  let len := Z.of_nat (length (name_bytes name)) in
  if decide (len < 2 ^ 16) then write_framed w (DeclareType message_type len) (name_bytes name) else (w, Err tt).

(** [do_write_subnet_distance] *)
Definition do_write_subnet_distance (w : Writer) (net : NetAddress) (type_handle : LocalTypeKey) (metric : option RouteMetric) :
    Writer * result unit unit := write_header w (SubnetDistance net type_handle metric).

(** [OutputWriter::write_keep_alive] *)
Definition write_keep_alive (o : OutputWriter) : OutputWriter * result unit unit :=
  let '(w, r) := write_header (io_w o) KeepAlive in (set_io o w, r).

(** [OutputWriter::write_delcare_type] *)
Definition write_declare_type (o : OutputWriter) (message_type : LocalTypeKey) (name : MessageName) : OutputWriter * result unit unit :=
  match declared_types o !! message_type with
  | Some declared => (o, if decide (declared = name) then Ok tt else Err tt)
  | None =>
      match do_write_declare_type (io_w o) message_type name with
      | (w, Err e) => (set_io o w, Err e)
      | (w, Ok _) => (mkOutput w (<[message_type := name]> (declared_types o)) (outbound_by_type_id o), Ok tt)
      end
  end.

(** The declaration of a type that is not yet declared; [named] is the manager's answer to [GetMessageNameRequest]. *)
Definition declare_if_vacant (o : OutputWriter) (message_type : LocalTypeKey) (named : result MessageName unit) : OutputWriter * result unit unit :=
  match declared_types o !! message_type with
  | Some _ => (o, Ok tt)
  | None =>
      match named with
      | Err e => (o, Err e)
      | Ok name =>
          match do_write_declare_type (io_w o) message_type name with
          | (w, Err e) => (set_io o w, Err e)
          | (w, Ok _) => (mkOutput w (<[message_type := name]> (declared_types o)) (outbound_by_type_id o), Ok tt)
          end
      end
  end.

(** [OutputWriter::write_subnet_distance] *)
Definition write_subnet_distance (o : OutputWriter) (route : SetRoute) (named : result MessageName unit) : OutputWriter * result unit unit :=
  match declare_if_vacant o (sr_message route) named with
  | (o, Err e) => (o, Err e)
  | (o, Ok _) =>
      let '(w, r) := do_write_subnet_distance (io_w o) (destination route) (sr_message route) (sr_metric route) in (set_io o w, r)
  end.

(** The end both kinds of message share: the size of the body, the header, the body *)
Definition write_message (o : OutputWriter) (h : EnvelopeHeader) (ttl : Z) (message_type : LocalTypeKey) (body : list byte) :
    OutputWriter * result unit unit :=
  let size := Z.of_nat (length body) in
  if decide (size < 2 ^ 16)
  then let '(w, r) := write_framed (io_w o)
         (Transmit (mkTransmit (eh_to h) message_type (eh_trace_id h) (eh_no h) size ttl (eh_priority h))) body in (set_io o w, r)
  else (o, Err tt).

(** [OutputWriter::write_known_message]: [tid] is the type of the message, [encoded] what its codec makes of it. *)
Definition write_known_message (o : OutputWriter) (h : EnvelopeHeader) (tid : TypeId) (encoded : result (list byte) unit) :
    outcome (OutputWriter * result unit unit) :=
  if eh_ttl h =? 0 then Ret (o, Ok tt)
  else
    match outbound_by_type_id o !! tid with
    | None => Ret (o, Err tt)
    | Some message_type =>
        assert_ (bool_decide (is_Some (declared_types o !! message_type)));;
        Ret match encoded with
            | Err e => (o, Err e)
            | Ok body => write_message o h (eh_ttl h - 1) message_type body
            end
    end.

(** [OutputWriter::write_opaque_message] *)
Definition write_opaque_message (o : OutputWriter) (h : EnvelopeHeader) (message_type : LocalTypeKey) (body : list byte)
    (named : result MessageName unit) : OutputWriter * result unit unit :=
  if eh_ttl h =? 0 then (o, Ok tt)
  else
    match declare_if_vacant o message_type named with
    | (o, Err e) => (o, Err e)
    | (o, Ok _) => write_message o h (eh_ttl h - 1) message_type body
    end.

(** ** The read loop *)
Inductive Event :=
| EvDeclareType (foreign_type_key : ForeignTypeKey) (name : MessageName)
| EvSubnetDistance (net_address : NetAddress) (type_handle : ForeignTypeKey) (metric : option RouteMetric)
| EvReceived (m : TransmitMessage) (body : list byte).

(** Why the loop ended; it has no other end, and [OutOfFuel] is the model's. *)
Inductive ReadEnd := ReadFailed | TellFailed | OutOfFuel.

(** [iostream_read_loop::run]; [tells] is how many reports the connection's mailbox takes. *)
Fixpoint read_loop (fuel : nat) (tells : nat) (io : list byte) : list Event * ReadEnd :=
  match fuel with
  | O => ([], OutOfFuel)
  | S fuel =>
      let tell (ev : Event) (io : list byte) : list Event * ReadEnd :=
        match tells with
        | O => ([], TellFailed)
        | S tells => let '(evs, e) := read_loop fuel tells io in (ev :: evs, e)
        end in
      match read_header io with
      | Err _ => ([], ReadFailed)
      | Ok (Hello _, _) => ([], ReadFailed)
      | Ok (KeepAlive, io) => read_loop fuel tells io
      | Ok (DeclareType message_type type_name_len, io) =>
          match read_exact (Z.to_nat type_name_len) io with
          | None => ([], ReadFailed)
          | Some (buf, io) =>
              match string_from_utf8 buf with
              | Err _ => ([], ReadFailed)
              | Ok type_name => tell (EvDeclareType message_type type_name) io
              end
          end
      | Ok (SubnetDistance net_address type_handle metric, io) => tell (EvSubnetDistance net_address type_handle metric) io
      | Ok (Transmit m, io) =>
          match read_exact (Z.to_nat (payload_size m)) io with
          | None => ([], ReadFailed)
          | Some (body, io) => tell (EvReceived m body) io
          end
      end
  end.

(** ** What goes over the wire *)
Inductive Sent :=
| SKeepAlive
| SDeclare (k : LocalTypeKey) (name : MessageName)
| SDistance (n : NetAddress) (k : LocalTypeKey) (c : option RouteMetric)
| SMessage (m : TransmitMessage) (body : list byte).

Definition name_len (name : MessageName) : Z := Z.of_nat (length (name_bytes name)).

Definition sent_bytes (s : Sent) : list byte :=
  match s with
  | SKeepAlive => frame KeepAlive
  | SDeclare k name => frame (DeclareType k (name_len name)) ++ name_bytes name
  | SDistance n k c => frame (SubnetDistance n k c)
  | SMessage m body => frame (Transmit m) ++ body
  end.

Definition sent_event (s : Sent) : option Event :=
  match s with
  | SKeepAlive => None
  | SDeclare k name => Some (EvDeclareType k name)
  | SDistance n k c => Some (EvSubnetDistance n k c)
  | SMessage m body => Some (EvReceived m body)
  end.

Definition name_ok (name : MessageName) : Prop := utf8_valid (name_bytes name) = true.

Definition sent_ok (s : Sent) : Prop :=
  match s with
  | SKeepAlive => True
  | SDeclare k name => header_ok (DeclareType k (name_len name)) ∧ name_ok name
  | SDistance n k c => header_ok (SubnetDistance n k c)
  | SMessage m body => header_ok (Transmit m) ∧ payload_size m = Z.of_nat (length body)
  end.

Definition stream_bytes (ss : list Sent) : list byte := ss ≫= sent_bytes.

Lemma stream_bytes_cons s ss : stream_bytes (s :: ss) = sent_bytes s ++ stream_bytes ss.
Proof. done. Qed.
Lemma stream_bytes_app ss ss' : stream_bytes (ss ++ ss') = stream_bytes ss ++ stream_bytes ss'.
Proof. apply bind_app. Qed.

Lemma bytes_name_bytes s : bytes_name (name_bytes s) = s.
Proof. induction s as [|a s IH]; cbn; [done|]. by rewrite N2Z.id, Ascii.ascii_N_embedding, IH. Qed.

(** The loop reads a frame back. *)
Lemma read_loop_sent s fuel tells rest : sent_ok s →
  read_loop (S fuel) (match sent_event s with Some _ => S tells | None => tells end) (sent_bytes s ++ rest) =
  match sent_event s with
  | Some ev => let '(evs, e) := read_loop fuel tells rest in (ev :: evs, e)
  | None => read_loop fuel tells rest
  end.
Proof.
  destruct s as [|k name|n k c|m body]; cbn [sent_ok sent_event sent_bytes]; intros Hs; cbn [read_loop].
  - by rewrite read_header_frame.
  - destruct Hs as [Hh Hn]. rewrite <- app_assoc, read_header_frame by done. unfold name_len. rewrite Nat2Z.id, read_exact_app by done.
    unfold string_from_utf8. rewrite Hn, bytes_name_bytes. done.
  - by rewrite read_header_frame.
  - destruct Hs as [Hh Hp]. rewrite <- app_assoc, read_header_frame by done. by rewrite Hp, Nat2Z.id, read_exact_app.
Qed.

Lemma read_loop_stream ss : Forall sent_ok ss → ∀ fuel tells rest,
  read_loop (length ss + fuel) (length (omap sent_event ss) + tells) (stream_bytes ss ++ rest) =
  let '(evs, e) := read_loop fuel tells rest in (omap sent_event ss ++ evs, e).
Proof.
  induction 1 as [|s ss Hs Hss IH]; intros fuel tells rest; [cbn; by destruct (read_loop fuel tells rest)|].
  rewrite stream_bytes_cons, <- app_assoc. pose proof (read_loop_sent s (length ss + fuel) (length (omap sent_event ss) + tells) (stream_bytes ss ++ rest) Hs) as E.
  rewrite IH in E. destruct (read_loop fuel tells rest) as [evs e]. cbn [length Nat.add omap list_omap]. destruct (sent_event s); cbn [length Nat.add]; exact E.
Qed.

(** ** Any bytes at all *)

(** What the bytes of a frame say, its header and what follows it: [None] if they are not a frame the loop accepts, else what is reported, if anything. *)
Definition frame_says (hd body : list byte) : option (option Event) :=
  match un_header hd with
  | None | Some (Hello _) => None
  | Some KeepAlive => if decide (length body = 0%nat) then Some None else None
  | Some (SubnetDistance n k c) => if decide (length body = 0%nat) then Some (Some (EvSubnetDistance n k c)) else None
  | Some (DeclareType k len) => if decide (length body = Z.to_nat len ∧ utf8_valid body = true) then Some (Some (EvDeclareType k (bytes_name body))) else None
  | Some (Transmit m) => if decide (length body = Z.to_nat (payload_size m)) then Some (Some (EvReceived m body)) else None
  end.

(** A frame of the bytes: a header of 48 bytes, and a body *)
Definition frame_at (io hd body rest : list byte) : Prop := io = hd ++ body ++ rest ∧ length hd = 48%nat.
Definition no_frame (io : list byte) : Prop := ∀ hd body rest, frame_at io hd body rest → frame_says hd body = None.

Lemma no_frame_short io : (length io < 48)%nat → no_frame io.
Proof. intros Hl hd body rest [-> Hh]. rewrite length_app, Hh in Hl. lia. Qed.

(** After a header of 48 bytes, what follows must be a body it accepts. *)
Lemma no_frame_after hd io : length hd = 48%nat → (∀ body rest, io = body ++ rest → frame_says hd body = None) → no_frame (hd ++ io).
Proof.
  intros Hh Hno hd' body rest [E Hh']. apply app_inj_1 in E as [-> E]; [|lia]. by apply (Hno _ rest).
Qed.

(** One turn: it takes a frame off, or there is none to take. *)
Lemma read_turn io :
  (∃ hd body rest said, frame_at io hd body rest ∧ frame_says hd body = Some said ∧ ∀ fuel tells, read_loop (S fuel) tells io =
     match said with
     | None => read_loop fuel tells rest
     | Some ev => match tells with O => ([], TellFailed) | S tells => let '(evs, e) := read_loop fuel tells rest in (ev :: evs, e) end
     end) ∨
  (no_frame io ∧ ∀ fuel tells, read_loop (S fuel) tells io = ([], ReadFailed)).
Proof.
  cbn [read_loop]. unfold read_header. destruct (read_exact HEADER_FRAME_SIZE io) as [[hd io1]|] eqn:E; cycle 1.
  { right. split; [|done]. apply no_frame_short. unfold read_exact in E. case_decide; [done|]. unfold HEADER_FRAME_SIZE in *. lia. }
  apply read_exact_some in E as [-> Hl].
  assert (Hbad : (∀ body rest, io1 = body ++ rest → frame_says hd body = None) → no_frame (hd ++ io1)) by (by apply no_frame_after).
  assert (Htake : ∀ n b, read_exact n io1 = b → match b with Some (body, rest) => frame_at (hd ++ io1) hd body rest ∧ length body = n | None => ∀ body rest, io1 = body ++ rest → length body ≠ n end).
  { intros n b <-. unfold read_exact. case_decide; [|intros body rest ->; rewrite length_app in *; lia].
    split; [by split; [rewrite take_drop|]|rewrite length_take; lia]. }
  destruct (un_header hd) as [[hello| |n k c|k l|m]|] eqn:Eh.
  - right. split; [|done]. apply Hbad. intros. unfold frame_says. by rewrite Eh.
  - left. exists hd, [], io1, None. split; [done|]. split; [|done]. unfold frame_says. by rewrite Eh.
  - left. exists hd, [], io1, (Some (EvSubnetDistance n k c)). split; [done|]. split; [|done]. unfold frame_says. by rewrite Eh.
  - destruct (read_exact (Z.to_nat l) io1) as [[body rest]|] eqn:E; apply Htake in E.
    + destruct E as [Hfr Hb]. unfold string_from_utf8. destruct (utf8_valid body) eqn:Eu.
      * left. exists hd, body, rest, (Some (EvDeclareType k (bytes_name body))). split; [done|]. split; [|done]. unfold frame_says. by rewrite Eh, decide_True.
      * right. split; [|done]. apply Hbad. intros body' rest' Eio. unfold frame_says. rewrite Eh, decide_False; [done|]. intros [Hb' Hu].
        destruct Hfr as [Eio' _]. apply (inj (app hd)) in Eio'. rewrite Eio in Eio'. apply app_inj_1 in Eio' as [-> _]; [congruence|lia].
    + right. split; [|done]. apply Hbad. intros body rest Eio. unfold frame_says. rewrite Eh, decide_False; [done|]. intros [Hb _]. by apply (E _ _ Eio).
  - destruct (read_exact (Z.to_nat (payload_size m)) io1) as [[body rest]|] eqn:E; apply Htake in E.
    + destruct E as [Hfr Hb]. left. exists hd, body, rest, (Some (EvReceived m body)). split; [done|]. split; [|done]. unfold frame_says. by rewrite Eh, decide_True.
    + right. split; [|done]. apply Hbad. intros body rest Eio. unfold frame_says. rewrite Eh, decide_False; [done|]. by apply (E _ rest).
  - right. split; [|done]. apply Hbad. intros. unfold frame_says. by rewrite Eh.
Qed.

(** C28: The read loop on any bytes at all, well-formed or not, for a connection whose mailbox takes [tells] reports: it ends after at most one turn more
    than a 48th of the number of bytes, and it has then cut a prefix of the bytes into frames, each a header of 48 bytes and the body the
    header announces, has reported what these say, in order, each once and nothing else, and has stopped for a reason: a mailbox that has taken [tells] reports
    and would not take that of the next frame, or bytes that no frame the loop accepts begins (a truncated header or body, a header that cannot be decoded, a
    second hello, or a name that is not UTF-8). *)
Theorem read_loop_exact fuel tells io (Hf : (length io < 48 * fuel)%nat) : ∃ frames rest evs e,
  read_loop fuel tells io = (evs, e) ∧
  io = (frames ≫= λ f, f.1 ++ f.2) ++ rest ∧
  Forall (λ f, length f.1 = 48%nat ∧ is_Some (frame_says f.1 f.2)) frames ∧
  evs = omap (λ f, mjoin (frame_says f.1 f.2)) frames ∧
  match e with
  | OutOfFuel => False
  | TellFailed => length evs = tells ∧ ∃ hd body rest' ev, frame_at rest hd body rest' ∧ frame_says hd body = Some (Some ev)
  | ReadFailed => (length evs ≤ tells)%nat ∧ no_frame rest
  end.
Proof.
  revert tells io Hf. induction fuel as [|fuel IH]; intros tells io Hf; [lia|].
  destruct (read_turn io) as [(hd & body & rest & said & [-> Hh] & Hs & E)|[Hno E]]; rewrite E; [|exists [], io, [], ReadFailed; split_and!; [done|done|done|done|cbn; lia|done]].
  rewrite !length_app in Hf.
  assert (Hmore : ∀ tells, ∃ frames rest' evs e, read_loop fuel tells rest = (evs, e) ∧
    hd ++ body ++ rest = (((hd, body) :: frames) ≫= λ f, f.1 ++ f.2) ++ rest' ∧ Forall (λ f, length f.1 = 48%nat ∧ is_Some (frame_says f.1 f.2)) ((hd, body) :: frames) ∧
    evs = omap (λ f, mjoin (frame_says f.1 f.2)) frames ∧
    match e with
    | OutOfFuel => False
    | TellFailed => length evs = tells ∧ ∃ hd body rest'' ev, frame_at rest' hd body rest'' ∧ frame_says hd body = Some (Some ev)
    | ReadFailed => (length evs ≤ tells)%nat ∧ no_frame rest'
    end).
  { intros tells'. destruct (IH tells' rest ltac:(lia)) as (frames & rest' & evs & e & E1 & -> & Hfr & Hev & He). exists frames, rest', evs, e.
    split_and!; [done|by rewrite bind_cons; cbn [fst snd]; rewrite <- !app_assoc|by constructor; [cbn; eauto|]|done|done]. }
  destruct said as [ev|].
  - destruct tells as [|tells].
    + exists [], (hd ++ body ++ rest), [], TellFailed. split_and!; [done..|]. by eexists _, _, _, _.
    + destruct (Hmore tells) as (frames & rest' & evs & e & E1 & Eio & Hfr & -> & He). rewrite E1. eexists ((hd, body) :: frames), rest', _, e.
      split_and!; [done|done|done|cbn; by rewrite Hs|]. destruct e; [|destruct He as [<- He]; done|done]. destruct He. split; [cbn; lia|done].
  - destruct (Hmore tells) as (frames & rest' & evs & e & E1 & Eio & Hfr & Hev & He). rewrite E1. exists ((hd, body) :: frames), rest', evs, e.
    split_and!; [done|done|done|cbn; by rewrite Hs|done].
Qed.

(** ** A type is declared once, and before it is used *)
Definition declared_after (D : gmap LocalTypeKey MessageName) (s : Sent) : gmap LocalTypeKey MessageName :=
  match s with SDeclare k name => <[k := name]> D | _ => D end.

Definition refers_ok (D : gmap LocalTypeKey MessageName) (s : Sent) : Prop :=
  match s with
  | SKeepAlive => True
  | SDeclare k _ => D !! k = None
  | SDistance _ k _ => is_Some (D !! k)
  | SMessage m _ => is_Some (D !! tm_type m)
  end.

Fixpoint well_declared (D : gmap LocalTypeKey MessageName) (ss : list Sent) : Prop :=
  match ss with [] => True | s :: ss => refers_ok D s ∧ well_declared (declared_after D s) ss end.

Lemma well_declared_app D ss ss' : well_declared D (ss ++ ss') ↔ well_declared D ss ∧ well_declared (foldl declared_after D ss) ss'.
Proof. revert D. induction ss as [|s ss IH]; intros D; cbn; [tauto|]. rewrite IH. tauto. Qed.

(** ** The writer's operations *)
Inductive WriteOp :=
| WKeepAlive
| WDeclareType (k : LocalTypeKey) (name : MessageName)
| WSubnetDistance (sr : SetRoute) (named : result MessageName unit)
| WKnown (h : EnvelopeHeader) (tid : TypeId) (encoded : result (list byte) unit)
| WOpaque (h : EnvelopeHeader) (k : LocalTypeKey) (body : list byte) (named : result MessageName unit).

Definition write_op (o : OutputWriter) (op : WriteOp) : outcome (OutputWriter * result unit unit) :=
  match op with
  | WKeepAlive => Ret (write_keep_alive o)
  | WDeclareType k name => Ret (write_declare_type o k name)
  | WSubnetDistance sr named => Ret (write_subnet_distance o sr named)
  | WKnown h tid encoded => write_known_message o h tid encoded
  | WOpaque h k body named => Ret (write_opaque_message o h k body named)
  end.

(** Values of the types they have in the source *)
Definition env_ok (h : EnvelopeHeader) : Prop := u64_ok (eh_to h) ∧ u64_ok (eh_trace_id h) ∧ u64_ok (eh_no h) ∧ u8_ok (eh_ttl h).
Definition named_ok (named : result MessageName unit) : Prop := match named with Ok name => name_ok name | Err _ => True end.
Definition op_args (outbound : gmap TypeId LocalTypeKey) (op : WriteOp) : Prop :=
  match op with
  | WKeepAlive => True
  | WDeclareType k name => u64_ok k ∧ name_ok name
  | WSubnetDistance sr named => net_ok (destination sr) ∧ u64_ok (sr_message sr) ∧ from_option u8_ok True (sr_metric sr) ∧ named_ok named
  | WKnown h tid _ => env_ok h ∧ from_option u64_ok True (outbound !! tid)
  | WOpaque h k _ named => env_ok h ∧ u64_ok k ∧ named_ok named
  end.

(** What an operation sends *)
Definition declares (D : gmap LocalTypeKey MessageName) (k : LocalTypeKey) (named : result MessageName unit) : list Sent :=
  match D !! k, named with None, Ok name => [SDeclare k name] | _, _ => [] end.
Definition transmits (h : EnvelopeHeader) (k : LocalTypeKey) (body : list byte) : Sent :=
  SMessage (mkTransmit (eh_to h) k (eh_trace_id h) (eh_no h) (Z.of_nat (length body)) (eh_ttl h - 1) (eh_priority h)) body.
Definition op_sends (D : gmap LocalTypeKey MessageName) (outbound : gmap TypeId LocalTypeKey) (op : WriteOp) : list Sent :=
  match op with
  | WKeepAlive => [SKeepAlive]
  | WDeclareType k name => declares D k (Ok name)
  | WSubnetDistance sr named => declares D (sr_message sr) named ++ [SDistance (destination sr) (sr_message sr) (sr_metric sr)]
  | WKnown h tid encoded =>
      if eh_ttl h =? 0 then []
      else match outbound !! tid, encoded with Some k, Ok body => [transmits h k body] | _, _ => [] end
  | WOpaque h k body named => if eh_ttl h =? 0 then [] else declares D k named ++ [transmits h k body]
  end.

(** A successful write has sent these, and no more. *)
Definition wrote (o o' : OutputWriter) (ss : list Sent) : Prop :=
  written (io_w o') = written (io_w o) ++ stream_bytes ss ∧ Forall sent_ok ss ∧ well_declared (declared_types o) ss ∧
  declared_types o' = foldl declared_after (declared_types o) ss ∧ outbound_by_type_id o' = outbound_by_type_id o.

Lemma wrote_nil o : wrote o o [].
Proof. split; [by rewrite app_nil_r|done]. Qed.

Lemma wrote_trans o o1 o2 ss ss' : wrote o o1 ss → wrote o1 o2 ss' → wrote o o2 (ss ++ ss').
Proof.
  intros (Hb & Hs & Hw & Hd & Ho) (Hb' & Hs' & Hw' & Hd' & Ho'). split_and!.
  - by rewrite Hb', Hb, stream_bytes_app, app_assoc.
  - by apply Forall_app.
  - apply well_declared_app. by rewrite <- Hd.
  - by rewrite Hd', Hd, foldl_app.
  - congruence.
Qed.

Lemma write_framed_ok w h body w' : header_ok h → write_framed w h body = (w', Ok tt) → written w' = written w ++ frame h ++ body.
Proof.
  intros Hh. unfold write_framed. destruct (write_header w h) as [w1 [[]|]] eqn:E; [|done]. apply write_header_ok in E as [_ ->]; [|done].
  intros [_ ->]%write_all_ok. cbn. by rewrite app_assoc.
Qed.

Lemma wrote_declare o (k : LocalTypeKey) name w : u64_ok k → name_ok name → declared_types o !! k = None →
  do_write_declare_type (io_w o) k name = (w, Ok tt) →
  wrote o (mkOutput w (<[k := name]> (declared_types o)) (outbound_by_type_id o)) [SDeclare k name].
Proof.
  intros Hk Hn Hv. unfold do_write_declare_type. case_decide as Hl; [|done]. intros E.
  assert (Hh : header_ok (DeclareType k (name_len name))) by (split; [done|unfold u16_ok, name_len; lia]).
  apply write_framed_ok in E; [|done]. split_and!; cbn; try done; [by rewrite E, app_nil_r|by constructor].
Qed.

Lemma declare_if_vacant_ok o (k : LocalTypeKey) named o' : u64_ok k → named_ok named → declare_if_vacant o k named = (o', Ok tt) →
  wrote o o' (declares (declared_types o) k named) ∧ is_Some (declared_types o' !! k).
Proof.
  intros Hk Hn. unfold declare_if_vacant, declares. destruct (declared_types o !! k) as [d|] eqn:Ed.
  - intros [= <-]. split; [apply wrote_nil|by rewrite Ed].
  - destruct named as [name|]; [|done]. destruct (do_write_declare_type (io_w o) k name) as [w [[]|]] eqn:E; [|done]. intros [= <-].
    split; [by apply wrote_declare|]. cbn. by rewrite lookup_insert_eq.
Qed.

Lemma write_message_ok o h (k : LocalTypeKey) body o' : env_ok h → eh_ttl h ≠ 0 → u64_ok k → is_Some (declared_types o !! k) →
  write_message o h (eh_ttl h - 1) k body = (o', Ok tt) → wrote o o' [transmits h k body].
Proof.
  intros (H1 & H2 & H3 & H4) Ht Hk Hd. unfold write_message. case_decide as Hl; [|done].
  destruct (write_framed _ _ _) as [w r] eqn:E. intros [= <- ->].
  assert (Hh : header_ok (Transmit (mkTransmit (eh_to h) k (eh_trace_id h) (eh_no h) (Z.of_nat (length body)) (eh_ttl h - 1) (eh_priority h)))).
  { cbn. unfold u8_ok, u16_ok in *. split_and!; done || lia. }
  apply write_framed_ok in E; [|done]. split_and!; cbn; try done; [by rewrite E, app_nil_r|by constructor].
Qed.

Lemma write_op_ok o op o' : op_args (outbound_by_type_id o) op → write_op o op = Ret (o', Ok tt) →
  wrote o o' (op_sends (declared_types o) (outbound_by_type_id o) op).
Proof.
  intros Ha. destruct op as [|k name|sr named|h tid encoded|h k body named]; cbn [write_op op_sends op_args] in *.
  - unfold write_keep_alive. destruct (write_header (io_w o) KeepAlive) as [w r] eqn:E. intros [= <- ->].
    apply (write_header_ok _ KeepAlive) in E as [_ ->]; [|done]. split_and!; cbn; try done; [by rewrite app_nil_r|by constructor].
  - destruct Ha as [Hk Hn]. unfold write_declare_type, declares. destruct (declared_types o !! k) as [d|] eqn:Ed.
    { case_decide; [|done]. intros [= <-]. apply wrote_nil. }
    destruct (do_write_declare_type (io_w o) k name) as [w [[]|]] eqn:E; [|done]. intros [= <-]. by apply wrote_declare.
  - destruct Ha as (Hn & Hk & Hc & Hnm). unfold write_subnet_distance. destruct (declare_if_vacant o (sr_message sr) named) as [o1 [[]|]] eqn:E; [|done].
    apply declare_if_vacant_ok in E as [Hw Hs]; [|done|done]. destruct (do_write_subnet_distance _ _ _ _) as [w r] eqn:E. intros [= <- ->].
    eapply wrote_trans; [done|]. apply (write_header_ok _ (SubnetDistance _ _ _)) in E as [_ ->]; [|done].
    split_and!; cbn; try done; [by rewrite app_nil_r|by constructor].
  - unfold write_known_message. case_Zb; [intros [= <-]; apply wrote_nil|].
    destruct (outbound_by_type_id o !! tid) as [k|] eqn:Eo; [|done]. destruct Ha as [Hh Hk]. cbn in Hk.
    destruct (bool_decide _) eqn:Ed; [|done]. apply bool_decide_eq_true in Ed. cbn. destruct encoded as [body|]; [|done]. intros [= E]. by apply write_message_ok.
  - destruct Ha as (Hh & Hk & Hn). unfold write_opaque_message. case_Zb; [intros [= <-]; apply wrote_nil|].
    destruct (declare_if_vacant o k named) as [o1 [[]|]] eqn:E; [|done]. apply declare_if_vacant_ok in E as [Hw Hs]; [|done|done].
    intros [= E]. eapply wrote_trans; [done|]. by apply write_message_ok.
Qed.

(** A sequence of operations that all succeed, and all that they send *)
Fixpoint write_ops (o : OutputWriter) (ops : list WriteOp) : outcome (OutputWriter * result unit unit) :=
  match ops with
  | [] => Ret (o, Ok tt)
  | op :: ops =>
      '(o, r) ← write_op o op;
      match r with Ok _ => write_ops o ops | Err e => Ret (o, Err e) end
  end.

Fixpoint ops_send (D : gmap LocalTypeKey MessageName) (outbound : gmap TypeId LocalTypeKey) (ops : list WriteOp) : list Sent :=
  match ops with
  | [] => []
  | op :: ops => op_sends D outbound op ++ ops_send (foldl declared_after D (op_sends D outbound op)) outbound ops
  end.

Lemma write_ops_ok ops o o' : Forall (op_args (outbound_by_type_id o)) ops → write_ops o ops = Ret (o', Ok tt) →
  wrote o o' (ops_send (declared_types o) (outbound_by_type_id o) ops).
Proof.
  revert o. induction ops as [|op ops IH]; intros o Ha; cbn; [intros [= <-]; apply wrote_nil|]. apply Forall_cons in Ha as [Ha Has].
  intros ([o1 r] & E & Hr)%bind_Ret_inv. destruct r as [[]|]; [|done]. apply write_op_ok in E; [|done].
  eapply wrote_trans; [done|]. pose proof E as (_ & _ & _ & Hd & Ho). rewrite <- Hd, <- Ho. apply IH; [by rewrite Ho|done].
Qed.

(** A connection's stream is read back as it was written: whatever operations its writer performs without an error, the peer's read
    loop reports the declarations, distances and messages they sent, all of them, in order and unchanged, and then meets the end of the
    stream; and in what it reports no type is declared twice and none is referred to before its declaration. *)
Theorem stream_roundtrip w outbound ops o fuel tells (Ha : Forall (op_args outbound) ops) (Hw : written w = [])
  (He : write_ops (output_new w outbound) ops = Ret (o, Ok tt))
  (Hf : (length (ops_send ∅ outbound ops) < fuel)%nat) (Ht : (length (omap sent_event (ops_send ∅ outbound ops)) ≤ tells)%nat) :
  read_loop fuel tells (written (io_w o)) = (omap sent_event (ops_send ∅ outbound ops), ReadFailed) ∧
  well_declared ∅ (ops_send ∅ outbound ops).
Proof.
  destruct (write_ops_ok ops (output_new w outbound) o Ha He) as (Hb & Hs & Hwd & _). cbn in Hb, Hs, Hwd. split; [|done].
  rewrite Hb, Hw. cbn [app]. set (ss := ops_send ∅ outbound ops) in *.
  replace fuel with (length ss + S (fuel - length ss - 1))%nat by lia.
  replace tells with (length (omap sent_event ss) + (tells - length (omap sent_event ss)))%nat by lia.
  rewrite <- (app_nil_r (stream_bytes ss)), read_loop_stream by done.
  assert (E : read_loop (S (fuel - length ss - 1)) (tells - length (omap sent_event ss)) [] = ([], ReadFailed)) by done.
  rewrite E. by rewrite app_nil_r.
Qed.

End Stream.

(** ** Examples *)
Section Examples.
#[local] Existing Instance fixed_bincode.

Definition envelope : EnvelopeHeader := mkEnvHeader (2 ^ 48 + 9) 3 1 8 false.
Definition three_ops : list WriteOp :=
  [WDeclareType 7 "app::Ping"; WSubnetDistance (mkSetRoute 9 west None (Some 0)) (Ok "app::Pong"); WKnown envelope 1 (Ok [1; 2; 3])].

Lemma stream_roundtrip_witness : ∃ o, write_ops (output_new (mkWriter [] 1000) {[1 := 7]}) three_ops = Ret (o, Ok tt) ∧
  read_loop 9 9 (written (io_w o)) = ([EvDeclareType 7 "app::Ping"; EvDeclareType 9 "app::Pong"; EvSubnetDistance west 9 (Some 0);
    EvReceived (mkTransmit (2 ^ 48 + 9) 7 3 1 3 7 false) [1; 2; 3]], ReadFailed).
Proof.
  eexists. split; [vm_compute; reflexivity|].
  refine (proj1 (stream_roundtrip (mkWriter [] 1000) {[1 := 7]} three_ops _ 9 9 _ eq_refl _ _ _)).
  - repeat constructor; cbn; unfold u64_ok, u8_ok; lia || reflexivity.
  - vm_compute. reflexivity.
  - vm_compute. lia.
  - vm_compute. lia.
Defined.

(** A keep-alive and the start of another *)
Definition cut_off : list byte := frame KeepAlive ++ frame (DeclareType 7 2) ++ [112; 113] ++ take 20 (frame KeepAlive).

Lemma read_loop_exact_witness : ∃ frames rest, read_loop 3 9 cut_off = ([EvDeclareType 7 "pq"], ReadFailed) ∧
  cut_off = (frames ≫= λ f, f.1 ++ f.2) ++ rest ∧ no_frame rest.
Proof.
  destruct (read_loop_exact 3 9 cut_off) as (frames & rest & evs & e & E & Eio & _ & _ & He); [vm_compute; lia|].
  assert (E' : read_loop 3 9 cut_off = ([EvDeclareType 7 "pq"], ReadFailed)) by (vm_compute; reflexivity).
  exists frames, rest. rewrite E' in E. injection E as <- <-. split; [exact E'|]. split; [exact Eio|apply He].
Defined.
End Examples.
