(* ===== verification/Dispatch.v ===== *)
(** * Messages of any type, envelopes, and the [dispatch!] macro
    (core/mm1-core/src/message.rs, core/mm1-core/src/envelope.rs, libs/mm1-proc-macros/src/dispatch.rs)

    The macro is a compiler: it takes the arms of a [match] over types to a tree of casts. Its input is the syntax of
    [syn]; its output is a term of [code], indexed by what the variable [__expr] holds at that point; the meaning of the
    output is given over the operations of envelopes. Guards and bodies of arms are opaque to the macro: here they are
    functions of the bindings. Identifiers are ASCII. *)

From stdpp Require Import strings.
From Stdlib Require Import Ascii.
From S2P Require Import Prelude U64 Address Protocols Stream.

Open Scope Z_scope.

(** ** Values, as far as a pattern looks into them *)
Inductive value :=
| VStruct (t : TypeId) (fields : list (string * value))
| VPrim (t : TypeId) (z : Z).

(** The type in the vtable of a [Box<dyn Any>] *)
Definition vtype (v : value) : TypeId := match v with VStruct t _ | VPrim t _ => t end.

(** ** [AnyMessage] *)
Record TypeInfo := mkTypeInfo { ti_id : TypeId; ti_name : string }.
Record AnyMessage := mkAny { any_message : value; any_info : TypeInfo }.

Section AnyMessage.
Context (type_name : TypeId → string).

(** [AnyMessage::new] *)
Definition any_new (v : value) : AnyMessage := mkAny v (mkTypeInfo (vtype v) (type_name (vtype v))).
End AnyMessage.

(** [AnyMessage::peek], [AnyMessage::cast], [AnyMessage::is], [AnyMessage::tid], [AnyMessage::type_name] *)
Definition any_peek (t : TypeId) (m : AnyMessage) : option value :=
  if vtype (any_message m) =? t then Some (any_message m) else None.

Definition any_cast (t : TypeId) (m : AnyMessage) : result value AnyMessage :=
  let '(mkAny message info) := m in
  if vtype message =? t then Ok message else Err (mkAny message info).

Definition any_is (t : TypeId) (m : AnyMessage) : bool := vtype (any_message m) =? t.
Definition any_tid (m : AnyMessage) : TypeId := ti_id (any_info m).
Definition any_type_name (m : AnyMessage) : string := ti_name (any_info m).

(** ** Envelopes *)
Record Envelope (M : Type) := mkEnvelope { env_header : EnvelopeHeader; env_message : M }.
Arguments mkEnvelope {M} _ _.
Arguments env_header {M} _.
Arguments env_message {M} _.

(** [EnvelopeHeader::to_address]: the state is the process's sequence number ([fetch_add] wraps) and the task's trace *)
Definition to_address (seq_no trace_id : Z) (to : Address) : Z * EnvelopeHeader :=
  (u64_wrapping_add seq_no 1, mkEnvHeader to trace_id seq_no 15 false).

(** [with_ttl], [with_trace_id], [with_priority], [with_no] *)
Definition with_ttl (h : EnvelopeHeader) (ttl : Z) : EnvelopeHeader := mkEnvHeader (eh_to h) (eh_trace_id h) (eh_no h) ttl (eh_priority h).
Definition with_trace_id (h : EnvelopeHeader) (t : Z) : EnvelopeHeader := mkEnvHeader (eh_to h) t (eh_no h) (eh_ttl h) (eh_priority h).
Definition with_priority (h : EnvelopeHeader) (p : bool) : EnvelopeHeader := mkEnvHeader (eh_to h) (eh_trace_id h) (eh_no h) (eh_ttl h) p.
Definition with_no (h : EnvelopeHeader) (no : Z) : EnvelopeHeader := mkEnvHeader (eh_to h) (eh_trace_id h) no (eh_ttl h) (eh_priority h).

(** [Envelope::into_erased] *)
Definition into_erased (type_name : TypeId → string) (e : Envelope value) : Envelope AnyMessage :=
  let '(mkEnvelope info message) := e in mkEnvelope info (any_new type_name message).

(** [Envelope::cast] *)
Definition env_cast (t : TypeId) (e : Envelope AnyMessage) : result (Envelope value) (Envelope AnyMessage) :=
  let '(mkEnvelope info message) := e in
  match any_cast t message with
  | Ok message => Ok (mkEnvelope info message)
  | Err message => Err (mkEnvelope info message)
  end.

(** [Envelope::peek], [Envelope::is], [Envelope::tid], [Envelope::message_name] *)
Definition env_peek (t : TypeId) (e : Envelope AnyMessage) : option value := any_peek t (env_message e).
Definition env_is (t : TypeId) (e : Envelope AnyMessage) : bool := any_is t (env_message e).
Definition env_tid (e : Envelope AnyMessage) : TypeId := any_tid (env_message e).
Definition message_name (e : Envelope AnyMessage) : string := any_type_name (env_message e).

(** [Envelope::take], [EnvelopeHeader::from] *)
Definition env_take {M} (e : Envelope M) : M * Envelope unit := (env_message e, mkEnvelope (env_header e) tt).
Definition header_of (e : Envelope unit) : EnvelopeHeader := let '(mkEnvelope header tt) := e in header.

(** ** The syntax of arms *)
Inductive Pat :=
| PatIdent (by_ref mutability : bool) (ident : string) (subpat : option Pat)
| PatPath (path : string)
| PatTupleStruct (path : string) (elems : list Pat)
| PatStruct (path : string) (fields : list (string * Pat)) (rest : bool)
| PatWild
| PatOther (tokens : string).

(** What a pattern binds a name to *)
Inductive bound := BVal (v : value) | BAny (m : AnyMessage).
Definition bindings : Type := list (string * bound).

Section Dispatch.
Context {R : Type}.

Record Arm := mkArm {
  attrs : list string;
  pat : Pat;
  guard : option (bindings → bool);
  arm_body : bindings → R;
}.

Inductive Expr := ExprMatch (arms : list Arm) | ExprOther.

Inductive DispatchError := ExpectedMatch | GuardedCatchAll (p : Pat) | BareBinding (p : Pat) | UnsupportedPattern (p : Pat).

(** [looks_like_binding] *)
Definition is_lowercase (c : ascii) : bool := (97 <=? nat_of_ascii c)%nat && (nat_of_ascii c <=? 122)%nat.

Definition strip_raw (s : string) : string :=
  match s with
  | String c1 (String c2 rest) => if (Ascii.eqb c1 "r" && Ascii.eqb c2 "#")%char then rest else s
  | _ => s
  end.

Fixpoint trim_underscores (s : string) : string :=
  match s with
  | String c rest => if Ascii.eqb c "_"%char then trim_underscores rest else s
  | EmptyString => EmptyString
  end.

Definition looks_like_binding (ident : string) : bool :=
  match trim_underscores (strip_raw ident) with
  | EmptyString => true
  | String c _ => is_lowercase c
  end.

(** [ArmBind] and [dispatch_arm_bind]. The tokens of an identifier pattern carry its [ref] and [mut]. *)
Record ArmBind := mkArmBind { ab_ty : option string; ab_bind : Pat }.

Definition ident_tokens (by_ref mutability : bool) (x : string) : string :=
  ((if by_ref then "ref " else "") +:+ (if mutability then "mut " else "") +:+ x)%string.

Fixpoint dispatch_arm_bind (p : Pat) : result ArmBind DispatchError :=
  match p with
  | PatIdent r m x (Some sub) =>
      match sub with
      | PatWild => Ok (mkArmBind None (PatIdent false false x None))
      | _ =>
          match dispatch_arm_bind sub with
          | Ok (mkArmBind ty bind) => Ok (mkArmBind ty (PatIdent false false x (Some bind)))
          | Err e => Err e
          end
      end
  | PatIdent r m x None =>
      if looks_like_binding x then Err (BareBinding p)
      else Ok (mkArmBind (Some (ident_tokens r m x)) p)
  | PatPath path => Ok (mkArmBind (Some path) p)
  | PatTupleStruct path _ => Ok (mkArmBind (Some path) p)
  | PatStruct path _ _ => Ok (mkArmBind (Some path) p)
  | PatWild => Ok (mkArmBind None p)
  | PatOther _ => Err (UnsupportedPattern p)
  end.

(** ** The generated code

    Indexed by what [__expr] is: the erased envelope, an envelope of a known type, or what [take] leaves. *)
Inductive stage := Erased | Typed (ty : string) | Taken.

Inductive code : stage → Type :=
| CLogUnhandled : code Erased                                                            (* __expr.log_unhandled() *)
| CIfPeek (ty : string) (bind : Pat) (g : bindings → bool) : code Erased → code Erased → code Erased
    (* if __expr.peek::<ty>().is_some_and(|bind| g) { .. } else { .. } *)
| CExpectCast (ty : string) : code (Typed ty) → code Erased                              (* let __expr = __expr.cast::<ty>().expect(..); .. *)
| CMatchCast (ty : string) : code (Typed ty) → code Erased → code Erased
    (* match __expr.cast::<ty>() { Ok(__expr) => .., Err(__expr) => .. } *)
| CTakeAny (bind : Pat) : code Taken → code Erased                                       (* let (bind, __expr) = __expr.take(); .. *)
| CTake (ty : string) (bind : Pat) : code Taken → code (Typed ty)
| CBody (body : bindings → R) : code Taken.

(** [dispatch_arm] *)
Definition dispatch_arm (arm : Arm) (or_else : code Erased) : result (code Erased) DispatchError :=
  match dispatch_arm_bind (pat arm) with
  | Err e => Err e
  | Ok (mkArmBind ty bind) =>
      match guard arm with
      | Some g =>
          match ty with
          | None => Err (GuardedCatchAll (pat arm))
          | Some ty => Ok (CIfPeek ty bind g (CExpectCast ty (CTake ty bind (CBody (arm_body arm)))) or_else)
          end
      | None =>
          match ty with
          | Some ty => Ok (CMatchCast ty (CTake ty bind (CBody (arm_body arm))) or_else)
          | None => Ok (CTakeAny bind (CBody (arm_body arm)))
          end
      end
  end.

(** [Iterator::try_fold] *)
Fixpoint try_fold {A B E} (f : B → A → result B E) (acc : B) (l : list A) : result B E :=
  match l with
  | [] => Ok acc
  | a :: l => match f acc a with Ok acc => try_fold f acc l | Err e => Err e end
  end.

(** [expand_dispatch] *)
Definition expand_dispatch (input : Expr) : result (code Erased) DispatchError :=
  match input with
  | ExprOther => Err ExpectedMatch
  | ExprMatch arms => try_fold (λ or_else arm, dispatch_arm arm or_else) CLogUnhandled (reverse arms)
  end.

(** ** What the generated code does

    The language's part: the names in scope at the call, what a pattern matches. *)
Context (type_of : string → TypeId) (unit_struct : string → bool).

Fixpoint lookup_field (f : string) (fs : list (string * value)) : option value :=
  match fs with
  | [] => None
  | (g, v) :: fs => if String.eqb f g then Some v else lookup_field f fs
  end.

Fixpoint pat_match (p : Pat) (b : bound) : option bindings :=
  match p with
  | PatIdent _ _ x None =>
      if unit_struct x then match b with BVal v => if vtype v =? type_of x then Some [] else None | BAny _ => None end
      else Some [(x, b)]
  | PatIdent _ _ x (Some sub) => match pat_match sub b with Some l => Some ((x, b) :: l) | None => None end
  | PatPath path => match b with BVal v => if vtype v =? type_of path then Some [] else None | BAny _ => None end
  | PatTupleStruct path elems =>
      match b with
      | BVal (VStruct t fs) =>
          if t =? type_of path then
            (fix go (ps : list Pat) (fs : list (string * value)) : option bindings :=
              match ps, fs with
              | [], [] => Some []
              | p :: ps, (_, v) :: fs =>
                  match pat_match p (BVal v), go ps fs with Some l, Some l' => Some (l ++ l') | _, _ => None end
              | _, _ => None
              end) elems fs
          else None
      | _ => None
      end
  | PatStruct path fields _ =>
      match b with
      | BVal (VStruct t fs) =>
          if t =? type_of path then
            (fix go (ps : list (string * Pat)) : option bindings :=
              match ps with
              | [] => Some []
              | (f, p) :: ps =>
                  match lookup_field f fs with
                  | Some v => match pat_match p (BVal v), go ps with Some l, Some l' => Some (l ++ l') | _, _ => None end
                  | None => None
                  end
              end) fields
          else None
      | _ => None
      end
  | PatWild => Some []
  | PatOther _ => None
  end.

(** What [__expr] holds *)
Definition var (s : stage) : Type :=
  match s with Erased => Envelope AnyMessage | Typed _ => Envelope value | Taken => Envelope unit end.

(** The value of the block, or the line logged by [log_unhandled] *)
Inductive Dispatched := Handled (r : R) | Unhandled (header : EnvelopeHeader) (name : string).

(** [Envelope::log_unhandled] *)
Definition log_unhandled (e : Envelope AnyMessage) : Dispatched := Unhandled (env_header e) (message_name e).

(** [x.is_some_and(f)], with a closure whose pattern must match *)
Definition peek_holds (o : option value) (bind : Pat) (g : bindings → bool) : outcome bool :=
  match o with
  | None => Ret false
  | Some v => l ← expect (pat_match bind (BVal v)); Ret (g l)
  end.

Definition ok_opt {T E} (r : result T E) : option T := match r with Ok t => Some t | Err _ => None end.

Fixpoint eval {s : stage} (c : code s) : var s → bindings → outcome Dispatched :=
  match c in code s return var s → bindings → outcome Dispatched with
  | CLogUnhandled => λ e _, Ret (log_unhandled e)
  | CIfPeek ty bind g yes no => λ e l, b ← peek_holds (env_peek (type_of ty) e) bind g; if (b : bool) then eval yes e l else eval no e l
  | CExpectCast ty k => λ e l, e' ← expect (ok_opt (env_cast (type_of ty) e)); eval k e' l
  | CMatchCast ty ok err => λ e l,
      match env_cast (type_of ty) e with Ok e' => eval ok e' l | Err e' => eval err e' l end
  | CTakeAny bind k => λ e l,
      let '(m, e') := env_take e in l' ← expect (pat_match bind (BAny m)); eval k e' (l' ++ l)
  | CTake ty bind k => λ e l,
      let '(v, e') := env_take e in l' ← expect (pat_match bind (BVal v)); eval k e' (l' ++ l)
  | CBody body => λ _ l, Ret (Handled (body l))
  end.

(** ** What the compiler of the language demands of the generated code

    The pattern of a [let] and of a closure is irrefutable for its type. [declared] is [None] for a type that is not a
    struct. *)
Context (declared : TypeId → option (list (string * TypeId))).

Fixpoint covers (p : Pat) (t : TypeId) : bool :=
  match p with
  | PatIdent r m x None => if unit_struct x then negb r && negb m && (t =? type_of x) else true
  | PatIdent _ _ _ (Some sub) => covers sub t
  | PatPath path => t =? type_of path
  | PatTupleStruct path elems =>
      (t =? type_of path) &&
      match declared t with
      | None => false
      | Some fs =>
          (fix go (ps : list Pat) (fs : list (string * TypeId)) : bool :=
            match ps, fs with
            | [], [] => true
            | p :: ps, (_, t) :: fs => covers p t && go ps fs
            | _, _ => false
            end) elems fs
      end
  | PatStruct path fields rest =>
      (t =? type_of path) &&
      match declared t with
      | None => false
      | Some fs =>
          (fix go (ps : list (string * Pat)) : bool :=
            match ps with
            | [] => true
            | (f, p) :: ps => match list_find (λ g, f = g.1) fs with Some (_, (_, t)) => covers p t | None => false end && go ps
            end) fields &&
          (rest || bool_decide (Forall (λ g, g.1 ∈ fields.*1) fs))
      end
  | PatWild => true
  | PatOther _ => false
  end.

(** A message is matched whole by a name or by [_] *)
Definition covers_any (p : Pat) : bool :=
  match p with PatIdent _ _ x None => negb (unit_struct x) | PatWild => true | _ => false end.

(** The pattern below the bindings [x @ ..] of an arm *)
Fixpoint core_pat (p : Pat) : Pat := match p with PatIdent _ _ _ (Some sub) => core_pat sub | _ => p end.

(** A type is a path: it carries neither [ref] nor [mut] *)
Definition plain_type (p : Pat) : bool := match core_pat p with PatIdent r m _ _ => negb r && negb m | _ => true end.

Definition arm_compiles (arm : Arm) : bool :=
  plain_type (pat arm) &&
  match dispatch_arm_bind (pat arm) with
  | Ok (mkArmBind (Some ty) bind) => covers bind (type_of ty)
  | Ok (mkArmBind None bind) => covers_any bind
  | Err _ => false
  end.

(** A value of its declared type *)
Fixpoint well_typed (v : value) : bool :=
  match v with
  | VPrim t _ => bool_decide (declared t = None)
  | VStruct t fs =>
      bool_decide (declared t = Some (map (λ f, (f.1, vtype f.2)) fs)) && forallb (λ f, well_typed f.2) fs
  end.

(** ** The reference: the arms of a [match] over types *)
Definition arm_type (arm : Arm) : option string :=
  match core_pat (pat arm) with
  | PatIdent _ _ x _ => Some x
  | PatPath path | PatTupleStruct path _ | PatStruct path _ _ => Some path
  | _ => None
  end.

Definition arm_error (arm : Arm) : option DispatchError :=
  match core_pat (pat arm) with
  | PatIdent _ _ x _ as p => if looks_like_binding x then Some (BareBinding p) else None
  | PatOther _ as p => Some (UnsupportedPattern p)
  | PatWild => match guard arm with Some _ => Some (GuardedCatchAll (pat arm)) | None => None end
  | _ => None
  end.

Definition arm_bindings (arm : Arm) (e : Envelope AnyMessage) : bindings :=
  default [] (pat_match (pat arm) (match arm_type arm with Some _ => BVal (any_message (env_message e)) | None => BAny (env_message e) end)).

(** The message has the arm's type, and the guard holds *)
Definition arm_accepts (arm : Arm) (e : Envelope AnyMessage) : bool :=
  match arm_type arm with Some t => env_is (type_of t) e | None => true end &&
  match guard arm with Some g => g (arm_bindings arm e) | None => true end.

(** The first arm that accepts, in the order of the source *)
Definition reference (arms : list Arm) (e : Envelope AnyMessage) : Dispatched :=
  match list_find (λ a, arm_accepts a e = true) arms with
  | Some (_, a) => Handled (arm_body a (arm_bindings a e))
  | None => Unhandled (env_header e) (message_name e)
  end.

(** ** Induction on patterns *)
Lemma Pat_rec' (P : Pat → Prop) :
  (∀ r m x, P (PatIdent r m x None)) →
  (∀ r m x p, P p → P (PatIdent r m x (Some p))) →
  (∀ x, P (PatPath x)) →
  (∀ x ps, Forall P ps → P (PatTupleStruct x ps)) →
  (∀ x ps rest, Forall (λ q, P q.2) ps → P (PatStruct x ps rest)) →
  P PatWild → (∀ s, P (PatOther s)) → ∀ p, P p.
Proof.
  intros H1 H2 H3 H4 H5 H6 H7. fix IH 1. intros [r m x [p|]|x|x ps|x ps rest| |s].
  - apply H2, IH.
  - apply H1.
  - apply H3.
  - apply H4. induction ps as [|p ps IHps]; constructor; [apply IH | exact IHps].
  - apply H5. induction ps as [|[f p] ps IHps]; constructor; [apply IH | exact IHps].
  - apply H6.
  - apply H7.
Qed.

(** ** Messages and envelopes *)
Lemma env_cast_peek t (e : Envelope AnyMessage) :
  env_cast t e = if env_is t e then Ok (mkEnvelope (env_header e) (any_message (env_message e))) else Err e.
Proof. destruct e as [h [v i]]. unfold env_cast, env_is, any_is, any_cast. simpl. by destruct (_ =? _). Qed.

Lemma env_peek_is t e : env_peek t e = if env_is t e then Some (any_message (env_message e)) else None.
Proof. reflexivity. Qed.

Lemma env_is_type t e : env_is t e = true → vtype (any_message (env_message e)) = t.
Proof. apply Z.eqb_eq. Qed.

(** ** Irrefutable patterns match *)
Lemma lookup_declared f fs i n t :
  list_find (λ g : string * TypeId, f = g.1) (map (λ g : string * value, (g.1, vtype g.2)) fs) = Some (i, (n, t)) →
  ∃ v, lookup_field f fs = Some v ∧ vtype v = t ∧ v ∈ fs.*2.
Proof.
  revert i. induction fs as [|[g v] fs IH]; intros i; [done|]. simpl.
  destruct (decide (f = g)) as [->|Hne]; intros H.
  - injection H as _ _ <-. exists v. rewrite String.eqb_refl. split; [done|]. split; [done | left].
  - destruct (String.eqb_spec f g); [done|]. destruct (list_find _ (map _ fs)) as [[j [n' t']]|] eqn:E; simpl in H; [|discriminate].
    injection H as _ <- <-. destruct (IH j eq_refl) as (v' & ? & ? & ?). exists v'. split; [done|]. split; [done | by right].
Qed.

Lemma covers_match p : ∀ v, well_typed v = true → covers p (vtype v) = true → is_Some (pat_match p (BVal v)).
Proof.
  induction p as [r m x|r m x p IH|x|x ps IH|x ps rest IH| |s] using Pat_rec'; intros v Hw Hc; simpl in Hc |- *.
  - destruct (unit_struct x); [|eauto]. apply andb_prop in Hc as [_ ->]. eauto.
  - destruct (IH v Hw Hc) as [l ->]. eauto.
  - rewrite Hc. eauto.
  - apply andb_prop in Hc as [Ht Hc].
    destruct v as [t fs|t z]; simpl in Hw, Ht, Hc |- *; [|apply bool_decide_eq_true in Hw; by rewrite Hw in Hc].
    apply andb_prop in Hw as [Hd Hw]. apply bool_decide_eq_true in Hd. rewrite Hd in Hc. rewrite Ht. clear Hd Ht.
    revert ps IH Hc. induction fs as [|[f v] fs IHfs]; intros [|p ps] IH Hc; simpl in Hc |- *; try done.
    apply andb_prop in Hc as [Hp Hc]. apply andb_prop in Hw as [Hv Hw].
    apply Forall_cons in IH as [IHp IH]. destruct (IHp v Hv Hp) as [l ->]. destruct (IHfs Hw ps IH Hc) as [l' ->]. eauto.
  - apply andb_prop in Hc as [Ht Hc].
    destruct v as [t fs|t z]; simpl in Hw, Ht, Hc |- *; [|apply bool_decide_eq_true in Hw; by rewrite Hw in Hc].
    apply andb_prop in Hw as [Hd Hw]. apply bool_decide_eq_true in Hd. rewrite Hd in Hc. rewrite Ht.
    apply andb_prop in Hc as [Hc _]. rewrite forallb_forall in Hw. clear Hd Ht.
    induction ps as [|[f p] ps IHps]; simpl in Hc |- *; [eauto|]. apply andb_prop in Hc as [Hp Hc]. apply Forall_cons in IH as [IHp IH].
    destruct (list_find _ _) as [[i [n t']]|] eqn:E; [|done]. apply lookup_declared in E as (v & -> & <- & Hin).
    apply list_elem_of_fmap in Hin as ([g v'] & -> & Hin). apply list_elem_of_In in Hin.
    cbn [fst snd] in IHp, Hp |- *. destruct (IHp v' (Hw _ Hin) Hp) as [l ->]. destruct (IHps IH Hc) as [l' ->]. eauto.
  - eauto.
  - done.
Qed.

(** ** Expansion, arm by arm *)
Lemma try_fold_app {A B E} (f : B → A → result B E) acc l l' :
  try_fold f acc (l ++ l') = match try_fold f acc l with Ok acc => try_fold f acc l' | Err e => Err e end.
Proof. revert acc. induction l as [|a l IH]; intros acc; [done|]. simpl. by destruct (f acc a). Qed.

Lemma expand_cons arm arms :
  expand_dispatch (ExprMatch (arm :: arms)) =
  match expand_dispatch (ExprMatch arms) with Ok or_else => dispatch_arm arm or_else | Err e => Err e end.
Proof.
  unfold expand_dispatch. rewrite reverse_cons, try_fold_app. destruct (try_fold _ _ _) as [c|e]; [|done].
  simpl. by destruct (dispatch_arm arm c).
Qed.

Lemma arm_bind_at r m x p :
  p = PatWild ∨
  dispatch_arm_bind (PatIdent r m x (Some p)) =
  match dispatch_arm_bind p with
  | Ok (mkArmBind ty bind) => Ok (mkArmBind ty (PatIdent false false x (Some bind)))
  | Err e => Err e
  end.
Proof. destruct p; auto. Qed.

(** What [dispatch_arm_bind] keeps of a pattern *)
Lemma arm_bind_ok p :
  match dispatch_arm_bind p with
  | Ok ab =>
      ((core_pat p = PatWild → covers_any (ab_bind ab) = true) → ∀ b, pat_match (ab_bind ab) b = pat_match p b) ∧
      match core_pat p with
      | PatIdent r m x _ => looks_like_binding x = false ∧ ab_ty ab = Some (ident_tokens r m x)
      | PatPath path | PatTupleStruct path _ | PatStruct path _ _ => ab_ty ab = Some path
      | PatWild => ab_ty ab = None
      | PatOther _ => False
      end
  | Err e => match core_pat p with
             | PatIdent _ _ x _ as q => looks_like_binding x = true ∧ e = BareBinding q
             | PatOther _ as q => e = UnsupportedPattern q
             | _ => False
             end
  end.
Proof.
  induction p as [r m x|r m x p IH|x|x ps _|x ps rest _| |s] using Pat_rec'; try done.
  - simpl. by destruct (looks_like_binding x) eqn:E.
  - cbn [core_pat]. destruct (arm_bind_at r m x p) as [->| ->].
    { simpl. split; [|done]. intros Hx b. specialize (Hx eq_refl). by destruct (unit_struct x). }
    destruct (dispatch_arm_bind p) as [[ty bind]|e]; [|done]. cbn [ab_bind ab_ty] in *.
    destruct IH as [Hm Ht]. split; [|done]. intros Hx b. simpl. rewrite Hm; [done|]. intros Hw. by specialize (Hx Hw).
Qed.

Lemma dispatch_arm_error arm or_else :
  match dispatch_arm arm or_else with Ok _ => arm_error arm = None | Err e => arm_error arm = Some e end.
Proof.
  unfold dispatch_arm, arm_error. pose proof (arm_bind_ok (pat arm)) as H.
  destruct (dispatch_arm_bind (pat arm)) as [[ty bind]|e]; destruct (core_pat (pat arm)); cbn [ab_ty ab_bind] in H; split_hyps; subst;
    try done; destruct (guard arm); try done; repeat case_match; congruence.
Qed.

(** The meaning of one arm's code *)
Lemma eval_arm arm or_else c (e : Envelope AnyMessage) :
  dispatch_arm arm or_else = Ok c → arm_compiles arm = true → well_typed (any_message (env_message e)) = true →
  eval c e [] = if arm_accepts arm e then Ret (Handled (arm_body arm (arm_bindings arm e))) else eval or_else e [].
Proof.
  unfold dispatch_arm, arm_compiles. pose proof (arm_bind_ok (pat arm)) as H. intros Hd Hc Hw.
  apply andb_prop in Hc as [Hp Hc].
  destruct (dispatch_arm_bind (pat arm)) as [[ty bind]|]; [|done]. cbn [ab_ty ab_bind] in H. destruct H as [Hm Ht].
  destruct ty as [ty|].
  - assert (arm_type arm = Some ty) as Hty.
    { unfold arm_type, plain_type in *. destruct (core_pat (pat arm)); try congruence; destruct Ht as [_ Ht] || done.
      injection Ht as ->. by destruct by_ref, mutability. }
    assert (core_pat (pat arm) ≠ PatWild) as Hnw by (intros E; by rewrite E in Ht).
    assert (Hb : env_is (type_of ty) e = true →
      pat_match bind (BVal (any_message (env_message e))) = Some (arm_bindings arm e)).
    { intros Hi. apply env_is_type in Hi. rewrite <- Hi in Hc. destruct (covers_match _ _ Hw Hc) as [l Hl].
      unfold arm_bindings. rewrite Hty, <- Hm by done. by rewrite Hl. }
    unfold arm_accepts. rewrite Hty. destruct (guard arm) as [g|]; injection Hd as <-; cbn [eval].
    + rewrite env_peek_is, env_cast_peek. destruct (env_is (type_of ty) e) eqn:Hi; [|done].
      cbn [peek_holds andb ok_opt expect]. rewrite (Hb eq_refl). cbn [expect mbind outcome_bind].
      destruct (g _); [|done]. cbn [env_take env_message]. rewrite (Hb eq_refl). cbn [expect mbind outcome_bind]. by rewrite app_nil_r.
    + rewrite env_cast_peek. destruct (env_is (type_of ty) e) eqn:Hi; [|done]. cbn [env_take env_message]. rewrite (Hb eq_refl).
      cbn [expect mbind outcome_bind]. by rewrite app_nil_r.
  - assert (core_pat (pat arm) = PatWild) as Hcore.
    { destruct (core_pat (pat arm)); try done; by destruct Ht. }
    assert (arm_type arm = None) as Hty by (unfold arm_type; by rewrite Hcore).
    destruct (guard arm) as [g|] eqn:Hg; [done|]. injection Hd as <-. unfold arm_accepts. rewrite Hty, Hg. cbn [eval env_take andb].
    unfold arm_bindings. rewrite Hty, <- Hm by done.
    assert (is_Some (pat_match bind (BAny (env_message e)))) as [l Hl].
    { destruct bind as [r m x [sub|]| | | | |]; try done. simpl in Hc |- *. destruct (unit_struct x); [done | eauto]. }
    rewrite Hl. cbn [expect mbind outcome_bind from_option default]. by rewrite app_nil_r.
Qed.

Lemma dispatch_ok arms :
  Forall (λ a, arm_error a = None ∧ arm_compiles a = true) arms →
  ∃ c, expand_dispatch (ExprMatch arms) = Ok c ∧
    ∀ e, well_typed (any_message (env_message e)) = true → eval c e [] = Ret (reference arms e).
Proof.
  induction 1 as [|a arms [He Hc] _ IH]; [by exists CLogUnhandled|]. destruct IH as (c & Hx & Hv). rewrite expand_cons, Hx.
  pose proof (dispatch_arm_error a c) as Ha. destruct (dispatch_arm a c) as [c'|] eqn:Hd; [|congruence].
  exists c'. split; [done|]. intros e Hw. rewrite (eval_arm _ _ _ _ Hd Hc Hw), (Hv e Hw). unfold reference. simpl.
  destruct (arm_accepts a e) eqn:E; [by rewrite decide_True | rewrite decide_False by congruence].
  by destruct (list_find _ arms) as [[i b]|].
Qed.

(** The errors: the last arm that is not supported is reported *)
Lemma expand_errors_ok arms :
  match expand_dispatch (ExprMatch arms) with
  | Ok _ => Forall (λ a, arm_error a = None) arms
  | Err e => ∃ before a after, arms = before ++ a :: after ∧ arm_error a = Some e ∧ Forall (λ a, arm_error a = None) after
  end.
Proof.
  induction arms as [|a arms IH]; [constructor|]. rewrite expand_cons. destruct (expand_dispatch (ExprMatch arms)) as [c|e].
  - pose proof (dispatch_arm_error a c) as H. destruct (dispatch_arm a c); [by constructor|]. by exists [], a, arms.
  - destruct IH as (before & b & after & -> & ? & ?). by exists (a :: before), b, after.
Qed.

(** C11: The code [dispatch!] generates for a [match] whose arms it supports, and whose patterns the language accepts, runs the
    body of the first arm in source order whose type is the message's and whose guard holds, with the bindings of the pattern as
    written; if there is none it logs the envelope's header and the type's name. It never panics: the cast after a successful peek
    succeeds. *)
Theorem dispatch_correct arms :
  Forall (λ a, arm_error a = None ∧ arm_compiles a = true) arms →
  ∃ c, expand_dispatch (ExprMatch arms) = Ok c ∧
    ∀ e, well_typed (any_message (env_message e)) = true → eval c e [] = Ret (reference arms e).
Proof. apply dispatch_ok. Qed.

(** The macro rejects exactly the arms it documents: bare lower-case names, guards on catch-alls, other patterns; what it reports
    is the last of them. *)
Theorem expand_errors arms :
  match expand_dispatch (ExprMatch arms) with
  | Ok _ => Forall (λ a, arm_error a = None) arms
  | Err e => ∃ before a after, arms = before ++ a :: after ∧ arm_error a = Some e ∧ Forall (λ a, arm_error a = None) after
  end.
Proof. apply expand_errors_ok. Qed.

(** Attributes of arms do nothing: an arm under [cfg] is always compiled. *)
Theorem attributes_ignored arm a or_else :
  dispatch_arm (mkArm a (pat arm) (guard arm) (arm_body arm)) or_else = dispatch_arm arm or_else.
Proof. reflexivity. Qed.

(** The [mut] of a binding in front of a type is dropped. *)
Theorem mut_dropped r m x p ty bind :
  dispatch_arm_bind (PatIdent r m x (Some p)) = Ok (mkArmBind ty bind) → ∃ sub, bind = PatIdent false false x sub.
Proof.
  destruct (arm_bind_at r m x p) as [->| ->]; [intros H; injection H as _ <-; eauto|].
  destruct (dispatch_arm_bind p) as [[ty' bind']|]; [|done]. intros H. injection H as _ <-. eauto.
Qed.
End Dispatch.

(** ** Examples: the arms of the test of the macro *)
Section Examples.
Definition ex_type_of (s : string) : TypeId :=
  if String.eqb s "Ping" then 1 else if String.eqb s "AUnit" then 2 else if String.eqb s "ATuple" then 3 else 0.
Definition ex_unit (s : string) : bool := String.eqb s "AUnit".
Definition ex_declared (t : TypeId) : option (list (string * TypeId)) :=
  if t =? 1 then Some [("reply_to", 8); ("seq_num", 9)] else if t =? 2 then Some [] else if t =? 3 then Some [("0", 9); ("1", 9)] else None.

Definition seq_of (l : bindings) : Z :=
  match list_find (λ b, b.1 = "seq_num") l with Some (_, (_, BVal (VPrim _ z))) => z | _ => 0 end.

Definition ex_arms : list (Arm (R := Z)) := [
  mkArm [] (PatStruct "Ping" [("seq_num", PatIdent false false "seq_num" None)] true) (Some (λ l, seq_of l <? 10)) (λ _, 1);
  mkArm [] (PatIdent false false "p" (Some (PatStruct "Ping" [("seq_num", PatIdent false false "seq_num" None)] true)))
    (Some (λ l, 10 <? seq_of l)) (λ _, 2);
  mkArm [] (PatStruct "Ping" [] true) None (λ _, 3);
  mkArm [] (PatIdent false false "AUnit" None) None (λ _, 4);
  mkArm [] (PatTupleStruct "ATuple" [PatIdent false false "a" None; PatWild]) None (λ l, Z.of_nat (length l))].

Definition ex_header : EnvelopeHeader := (to_address 7 0 222).2.
Definition ex_ping (n : Z) : Envelope AnyMessage :=
  into_erased (λ _, "app::Message") (mkEnvelope ex_header (VStruct 1 [("reply_to", VPrim 8 111); ("seq_num", VPrim 9 n)])).
Definition ex_other : Envelope AnyMessage := into_erased (λ _, "app::Message") (mkEnvelope ex_header (VPrim 5 0)).

Lemma dispatch_correct_witness :
  ∃ c, expand_dispatch (ExprMatch ex_arms) = Ok c ∧
    eval ex_type_of ex_unit c (ex_ping 5) [] = Ret (Handled 1) ∧
    eval ex_type_of ex_unit c (ex_ping 15) [] = Ret (Handled 2) ∧
    eval ex_type_of ex_unit c (ex_ping 10) [] = Ret (Handled 3) ∧
    eval ex_type_of ex_unit c ex_other [] = Ret (Unhandled ex_header "app::Message").
Proof.
  destruct (dispatch_correct ex_type_of ex_unit ex_declared ex_arms) as (c & Hx & Hv).
  { repeat constructor. }
  exists c. split; [exact Hx|]. repeat split; rewrite Hv; reflexivity.
Defined.

Example bare_binding_rejected :
  expand_dispatch (ExprMatch [mkArm (R := unit) [] (PatIdent false false "message" None) None (λ _, tt)]) =
  Err (BareBinding (PatIdent false false "message" None)).
Proof. reflexivity. Qed.

Lemma mut_dropped_witness :
  ∃ ty bind, dispatch_arm_bind (PatIdent false true "m" (Some (PatPath "Ping"))) = Ok (mkArmBind ty bind) ∧
    ∃ sub, bind = PatIdent false false "m" sub.
Proof.
  exists (Some "Ping"), (PatIdent false false "m" (Some (PatPath "Ping"))). split; [reflexivity|].
  exact (mut_dropped false true "m" (PatPath "Ping") (Some "Ping") _ eq_refl).
Defined.
End Examples.
