(* ===== verification/MessageAttr.v ===== *)
(** * The attribute [#[message]] (libs/mm1-proc-macros/src/message.rs)

    The macro that makes a struct or an enum a message: it derives the serialisation and implements the trait [Message]. Its input is the
    tokens of the attribute and the item, its output the tokens that replace the item, both as far as the macro looks into them. *)

From stdpp Require Import strings.
From S2P Require Import Prelude.

(** ** The arguments *)

(** Tokens; a path of more than one segment, or with a leading separator, counts as one. *)
Inductive Tok := TIdent (s : string) | TEq | TComma | TBool (b : bool) | TPath (p : string) | TOther.

Inductive MessageArg := BasePath (p : string) | DeriveSerialize (value : bool) | DeriveDeserialize (value : bool).
Record MessageArgs := mkArgs { base_path : option string; derive_serialize : bool; derive_deserialize : bool }.

(** [input.parse::<Path>()] and [input.parse::<LitBool>()] *)
Definition parse_path (ts : list Tok) : result (string * list Tok) unit :=
  match ts with TIdent p :: ts | TPath p :: ts => Ok (p, ts) | _ => Err tt end.
Definition parse_bool (ts : list Tok) : result (bool * list Tok) unit :=
  match ts with TBool b :: ts => Ok (b, ts) | _ => Err tt end.

(** [<MessageArg as Parse>::parse] *)
Definition parse_arg (ts : list Tok) : result (MessageArg * list Tok) unit :=
  match ts with
  | TIdent ident :: TEq :: ts =>
      if String.eqb ident "base_path" then match parse_path ts with Ok (p, ts) => Ok (BasePath p, ts) | Err e => Err e end
      else if String.eqb ident "derive_serialize" then match parse_bool ts with Ok (b, ts) => Ok (DeriveSerialize b, ts) | Err e => Err e end
      else if String.eqb ident "derive_deserialize" then match parse_bool ts with Ok (b, ts) => Ok (DeriveDeserialize b, ts) | Err e => Err e end
      else Err tt
  | _ => Err tt
  end.

(** [Punctuated::parse_terminated]; every argument takes three tokens, so there are no more turns than tokens. *)
Fixpoint parse_args (fuel : nat) (ts : list Tok) : result (list MessageArg) unit :=
  match fuel, ts with
  | O, _ | _, [] => Ok []
  | S fuel, ts =>
      match parse_arg ts with
      | Err e => Err e
      | Ok (a, []) => Ok [a]
      | Ok (a, TComma :: ts) => match parse_args fuel ts with Ok args => Ok (a :: args) | Err e => Err e end
      | Ok _ => Err tt
      end
  end.

Definition default_args : MessageArgs := mkArgs None true true.

(** The loop over the arguments *)
Definition take_arg (acc : MessageArgs) (a : MessageArg) : MessageArgs :=
  match a with
  | BasePath p => mkArgs (Some p) (derive_serialize acc) (derive_deserialize acc)
  | DeriveSerialize b => mkArgs (base_path acc) b (derive_deserialize acc)
  | DeriveDeserialize b => mkArgs (base_path acc) (derive_serialize acc) b
  end.

(** [<MessageArgs as Parse>::parse] *)
Definition message_args (ts : list Tok) : result MessageArgs unit :=
  match ts with
  | [] => Ok default_args
  | _ => match parse_args (length ts) ts with Ok args => Ok (foldl take_arg default_args args) | Err e => Err e end
  end.

(** ** The expansion *)
Inductive Kind := Struct | Enum | OtherItem.

(** An item: its kind, name, parameters, the predicates of its where-clause, and all of it as it stands *)
Record Item := mkItem { item_kind : Kind; ident : string; generics : list string; predicates : list string; body : list string }.

Record Expansion := mkExpansion {
  derives : list string;
  item : Item;
  impl_generics : list string;
  impl_trait : string;
  impl_for : string;
  impl_where : list string;
}.

(** [message] *)
Definition message (attr : list Tok) (input : Item) : result Expansion unit :=
  match message_args attr with
  | Err e => Err e
  | Ok args =>
      match item_kind input with
      | OtherItem => Err tt
      | _ =>
          Ok (mkExpansion
            ((if derive_serialize args then ["::serde::Serialize"] else []) ++ (if derive_deserialize args then ["::serde::Deserialize"] else []))
            input (generics input) (default "::mm1::proto" (base_path args) +:+ " :: Message") (ident input)
            (predicates input ++ ["Self : ::serde::Serialize + Send + 'static"]))
      end
  end.

(** ** The arguments as they are written *)
Definition arg_tokens (a : MessageArg) : list Tok :=
  match a with
  | BasePath p => [TIdent "base_path"; TEq; TPath p]
  | DeriveSerialize b => [TIdent "derive_serialize"; TEq; TBool b]
  | DeriveDeserialize b => [TIdent "derive_deserialize"; TEq; TBool b]
  end.

Fixpoint args_tokens (trailing : bool) (args : list MessageArg) : list Tok :=
  match args with
  | [] => []
  | [a] => arg_tokens a ++ if trailing then [TComma] else []
  | a :: args => arg_tokens a ++ TComma :: args_tokens trailing args
  end.

Lemma parse_arg_tokens a ts : parse_arg (arg_tokens a ++ ts) = Ok (a, ts).
Proof. by destruct a. Qed.

Lemma parse_args_tokens trailing args fuel : (length args ≤ fuel)%nat → parse_args fuel (args_tokens trailing args) = Ok args.
Proof.
  revert fuel. induction args as [|a args IH]; intros fuel Hf; [by destruct fuel|]. destruct fuel as [|fuel]; [cbn in Hf; lia|].
  assert (∀ ts, parse_args (S fuel) (arg_tokens a ++ ts) = match ts with
    | [] => Ok [a] | TComma :: ts => match parse_args fuel ts with Ok args => Ok (a :: args) | Err e => Err e end | _ => Err tt end) as Hp.
  { intros ts. destruct a; (destruct ts as [|[]]; done). }
  cbn in Hf. destruct args as [|b args]; cbn [args_tokens]; rewrite Hp; [destruct trailing; [by destruct fuel | done]|].
  rewrite IH by (cbn in *; lia). done.
Qed.

Lemma args_tokens_length trailing args : (length args ≤ length (args_tokens trailing args))%nat.
Proof.
  induction args as [|a args IH]; [done|]. destruct args as [|b args]; [cbn [args_tokens]; rewrite length_app; destruct a; cbn; lia|].
  change (args_tokens trailing (a :: b :: args)) with (arg_tokens a ++ TComma :: args_tokens trailing (b :: args)).
  rewrite length_app. set (l := b :: args) in *. destruct a; cbn [arg_tokens length]; lia.
Qed.

(** Whatever arguments are written, with or without a last comma, the macro takes them, and of those given twice the last counts; a struct or an
    enum is kept as it is and becomes a message under the same parameters and predicates and one more, any other item is refused. *)
Theorem message_expands trailing args input :
  message (args_tokens trailing args) input =
    let given := foldl take_arg default_args args in
    match item_kind input with
    | OtherItem => Err tt
    | _ => Ok (mkExpansion
        ((if derive_serialize given then ["::serde::Serialize"] else []) ++ (if derive_deserialize given then ["::serde::Deserialize"] else []))
        input (generics input) (default "::mm1::proto" (base_path given) +:+ " :: Message") (ident input)
        (predicates input ++ ["Self : ::serde::Serialize + Send + 'static"]))
    end.
Proof.
  unfold message. assert (message_args (args_tokens trailing args) = Ok (foldl take_arg default_args args)) as ->; [|done].
  unfold message_args. destruct args as [|a args]; [done|].
  destruct (args_tokens trailing (a :: args)) as [|t ts] eqn:E; [by destruct a, args|]. rewrite <- E, parse_args_tokens; [done|]. apply args_tokens_length.
Qed.
