(* ===== verification/TestRt.v ===== *)
(** * The scripted test runtime (core/mm1-test-rt/src: rt.rs, rt/runtime.rs, rt/query.rs, rt/context.rs, rt/event.rs)
    and the exit of an actor (core/mm1-core/src/actor_exit.rs)

    Actors under test run against a context whose every method sends a query and waits for its answer; the test takes the
    queries as events and plays the rest of the world. An actor is a machine that at each point has finished or calls a
    method of one of its contexts, and goes on with the answer. One-shot channels are slots of a store. The choices of
    [select!] and the order in which tasks are polled are inputs. *)

From stdpp Require Import strings.
From S2P Require Import Prelude U64 Address Protocols Stream Dispatch.

Open Scope Z_scope.

(** ** One-shot channels and notifications *)
Record Sender (O : Type) := mkSender { chan : Z }.
Arguments mkSender {O} _.
Arguments chan {O} _.

(** ** Keys of tasks *)
Record TaskKey := mkKey { actor : Address; context : Address }.

(** [TaskKey::actor], [TaskKey::fork] *)
Definition key_actor (address : Address) : TaskKey := mkKey address address.
Definition key_fork (actor fork : Address) : outcome TaskKey :=
  _ ← assert_ (negb (actor =? fork)); Ret (mkKey actor fork).

Section TestRt.
Context {R Lease WatchRef Reason Duration ESpawn EStart EBind ERecv EFork ESend BindArgs A : Type}.

Record TestContext := mkContext { cx_key : TaskKey; cx_lease : option Lease }.

(** ** Futures: the body of a task, an actor with its context, an actor that has called [quit] *)
Inductive Fut := FTask (a : A) | FActor (cx : TestContext) (a : A) | FExit.

(** ** Queries *)
Record Spawn (R : Type) := mkSpawn { spawn_key : TaskKey; spawn_link : bool; spawn_runnable : R; spawn_tx : Sender (result Address ESpawn) }.
Record Start (R : Type) := mkStart {
  start_key : TaskKey; start_link : bool; start_timeout : Duration; start_runnable : R; start_tx : Sender (result Address EStart) }.
Record Bind := mkBind { bind_key : TaskKey; bind_args : BindArgs; bind_tx : Sender (result unit EBind) }.
Record InitDone := mkInitDone { init_key : TaskKey; init_address : Address; init_tx : Sender unit }.
Record Recv := mkRecv { recv_key : TaskKey; recv_tx : Sender (result (Envelope AnyMessage) ERecv) }.
Record RecvClose := mkRecvClose { close_key : TaskKey; close_tx : Sender unit }.
Record Fork := mkFork { fork_key : TaskKey; fork_tx : Sender (result TestContext EFork) }.
Record ForkRun := mkForkRun { run_key : TaskKey; run_lease : option Lease; run_task : Fut; run_tx : Sender unit }.
Record PendingTask := mkPending { pending_key : TaskKey; pending_lease : option Lease; pending_fut : Fut }.
Record Quit := mkQuit { quit_key : TaskKey; quit_result : result unit Reason; quit_tx : Sender Empty_set }.
Record Tell := mkTell { tell_key : TaskKey; tell_to : Address; tell_envelope : Envelope AnyMessage; tell_tx : Sender (result unit ESend) }.
Record Watch := mkWatch { watch_key : TaskKey; watch_peer : Address; watch_tx : Sender WatchRef }.
Record Unwatch := mkUnwatch { unwatch_key : TaskKey; unwatch_ref : WatchRef; unwatch_tx : Sender unit }.
Record Link := mkLink { link_key : TaskKey; link_peer : Address; link_tx : Sender unit }.
Record Unlink := mkUnlink { unlink_key : TaskKey; unlink_peer : Address; unlink_tx : Sender unit }.
Record SetTrapExit := mkSetTrapExit { trap_key : TaskKey; trap_enable : bool; trap_tx : Sender unit }.
Record Exit := mkExit { exit_key : TaskKey; exit_peer : Address; exit_tx : Sender bool }.
Record Kill := mkKill { kill_key : TaskKey; kill_peer : Address; kill_tx : Sender bool }.
Arguments mkSpawn {R}.
Arguments mkStart {R}.
Arguments spawn_key {R}.
Arguments spawn_link {R}.
Arguments spawn_runnable {R}.
Arguments spawn_tx {R}.
Arguments start_key {R}.
Arguments start_link {R}.
Arguments start_timeout {R}.
Arguments start_runnable {R}.
Arguments start_tx {R}.

Inductive Query :=
| QInitDone (q : InitDone) | QSpawn (q : Spawn R) | QStart (q : Start R) | QRecv (q : Recv) | QRecvClose (q : RecvClose)
| QFork (q : Fork) | QForkRun (q : ForkRun) | QQuit (q : Quit) | QTell (q : Tell) | QWatch (q : Watch) | QUnwatch (q : Unwatch)
| QLink (q : Link) | QUnlink (q : Unlink) | QSetTrapExit (q : SetTrapExit) | QExit (q : Exit) | QKill (q : Kill) | QBindNetAddress (q : Bind).

(** The sender a query carries, and the task that asks *)
Definition query_chan (q : Query) : Z :=
  match q with
  | QInitDone q => chan (init_tx q) | QSpawn q => chan (spawn_tx q) | QStart q => chan (start_tx q) | QRecv q => chan (recv_tx q)
  | QRecvClose q => chan (close_tx q) | QFork q => chan (fork_tx q) | QForkRun q => chan (run_tx q) | QQuit q => chan (quit_tx q)
  | QTell q => chan (tell_tx q) | QWatch q => chan (watch_tx q) | QUnwatch q => chan (unwatch_tx q) | QLink q => chan (link_tx q)
  | QUnlink q => chan (unlink_tx q) | QSetTrapExit q => chan (trap_tx q) | QExit q => chan (exit_tx q) | QKill q => chan (kill_tx q)
  | QBindNetAddress q => chan (bind_tx q)
  end.

Definition is_quit (q : Query) : bool := match q with QQuit _ => true | _ => false end.

(** ** Answers *)
Inductive Answer :=
| AUnit | ABool (b : bool) | ASpawn (r : result Address ESpawn) | AStart (r : result Address EStart) | ABind (r : result unit EBind)
| ARecv (r : result (Envelope AnyMessage) ERecv) | AFork (r : result TestContext EFork) | ASend (r : result unit ESend) | AWatch (w : WatchRef).

Class Out (O : Type) := inject : O → Answer.
#[local] Instance out_unit : Out unit := λ _, AUnit.
#[local] Instance out_bool : Out bool := ABool.
#[local] Instance out_spawn : Out (result Address ESpawn) := ASpawn.
#[local] Instance out_start : Out (result Address EStart) := AStart.
#[local] Instance out_bind : Out (result unit EBind) := ABind.
#[local] Instance out_recv : Out (result (Envelope AnyMessage) ERecv) := ARecv.
#[local] Instance out_fork : Out (result TestContext EFork) := AFork.
#[local] Instance out_send : Out (result unit ESend) := ASend.
#[local] Instance out_watch : Out WatchRef := AWatch.

(** [From<query::K> for Query] *)
Class IntoQuery (K : Type) := into_query : K → Query.
#[local] Instance into_init_done : IntoQuery InitDone := QInitDone.
#[local] Instance into_spawn : IntoQuery (Spawn R) := QSpawn.
#[local] Instance into_start : IntoQuery (Start R) := QStart.
#[local] Instance into_recv : IntoQuery Recv := QRecv.
#[local] Instance into_recv_close : IntoQuery RecvClose := QRecvClose.
#[local] Instance into_fork : IntoQuery Fork := QFork.
#[local] Instance into_tell : IntoQuery Tell := QTell.
#[local] Instance into_watch : IntoQuery Watch := QWatch.
#[local] Instance into_unwatch : IntoQuery Unwatch := QUnwatch.
#[local] Instance into_link : IntoQuery Link := QLink.
#[local] Instance into_unlink : IntoQuery Unlink := QUnlink.
#[local] Instance into_set_trap_exit : IntoQuery SetTrapExit := QSetTrapExit.
#[local] Instance into_exit : IntoQuery Exit := QExit.
#[local] Instance into_kill : IntoQuery Kill := QKill.
#[local] Instance into_bind : IntoQuery Bind := QBindNetAddress.

(** [From<query::K> for oneshot::Sender<O>]: what a test may answer a query with *)
Class IntoSender (K O : Type) := into_sender : K → Sender O.
#[local] Instance sender_spawn {R} : IntoSender (Spawn R) (result Address ESpawn) := spawn_tx.
#[local] Instance sender_start {R} : IntoSender (Start R) (result Address EStart) := start_tx.
#[local] Instance sender_bind : IntoSender Bind (result unit EBind) := bind_tx.
#[local] Instance sender_recv : IntoSender Recv (result (Envelope AnyMessage) ERecv) := recv_tx.
#[local] Instance sender_recv_close : IntoSender RecvClose unit := close_tx.
#[local] Instance sender_fork : IntoSender Fork (result TestContext EFork) := fork_tx.
#[local] Instance sender_tell : IntoSender Tell (result unit ESend) := tell_tx.
#[local] Instance sender_watch : IntoSender Watch WatchRef := watch_tx.
#[local] Instance sender_unwatch : IntoSender Unwatch unit := unwatch_tx.
#[local] Instance sender_link : IntoSender Link unit := link_tx.
#[local] Instance sender_unlink : IntoSender Unlink unit := unlink_tx.
#[local] Instance sender_set_trap_exit : IntoSender SetTrapExit unit := trap_tx.
#[local] Instance sender_init_done : IntoSender InitDone unit := init_tx.
#[local] Instance sender_exit : IntoSender Exit bool := exit_tx.
#[local] Instance sender_kill : IntoSender Kill bool := kill_tx.

(** ** The methods of a context *)
Inductive OnRxFailure := OnPanic | OnFreeze.

Definition spawn (cx : TestContext) (runnable : R) (link : bool) (tx : Z) : Query := QSpawn (mkSpawn (cx_key cx) link runnable (mkSender tx)).
Definition start (cx : TestContext) (runnable : R) (link : bool) (timeout : Duration) (tx : Z) : Query :=
  QStart (mkStart (cx_key cx) link timeout runnable (mkSender tx)).
Definition bind (cx : TestContext) (args : BindArgs) (tx : Z) : Query := QBindNetAddress (mkBind (cx_key cx) args (mkSender tx)).
Definition fork (cx : TestContext) (tx : Z) : Query := QFork (mkFork (cx_key cx) (mkSender tx)).
(** [run] takes the lease out of the context it moves into the task. *)
Definition run (cx : TestContext) (fut : TestContext → A) (tx : Z) : Query :=
  QForkRun (mkForkRun (cx_key cx) (cx_lease cx) (FTask (fut (mkContext (cx_key cx) None))) (mkSender tx)).
Definition quit_ok (cx : TestContext) (tx : Z) : Query := QQuit (mkQuit (cx_key cx) (Ok tt) (mkSender tx)).
Definition quit_err (cx : TestContext) (reason : Reason) (tx : Z) : Query := QQuit (mkQuit (cx_key cx) (Err reason) (mkSender tx)).
Definition cx_address (cx : TestContext) : Address := context (cx_key cx).
Definition close (cx : TestContext) (tx : Z) : Query := QRecvClose (mkRecvClose (cx_key cx) (mkSender tx)).
Definition recv (cx : TestContext) (tx : Z) : Query := QRecv (mkRecv (cx_key cx) (mkSender tx)).
Definition send (cx : TestContext) (e : Envelope AnyMessage) (tx : Z) : Query := QTell (mkTell (cx_key cx) (eh_to (env_header e)) e (mkSender tx)).
Definition forward (cx : TestContext) (to : Address) (e : Envelope AnyMessage) (tx : Z) : Query := QTell (mkTell (cx_key cx) to e (mkSender tx)).
Definition watch (cx : TestContext) (peer : Address) (tx : Z) : Query := QWatch (mkWatch (cx_key cx) peer (mkSender tx)).
Definition unwatch (cx : TestContext) (w : WatchRef) (tx : Z) : Query := QUnwatch (mkUnwatch (cx_key cx) w (mkSender tx)).
Definition link (cx : TestContext) (peer : Address) (tx : Z) : Query := QLink (mkLink (cx_key cx) peer (mkSender tx)).
Definition unlink (cx : TestContext) (peer : Address) (tx : Z) : Query := QUnlink (mkUnlink (cx_key cx) peer (mkSender tx)).
Definition set_trap_exit (cx : TestContext) (enable : bool) (tx : Z) : Query := QSetTrapExit (mkSetTrapExit (cx_key cx) enable (mkSender tx)).
Definition init_done (cx : TestContext) (address : Address) (tx : Z) : Query := QInitDone (mkInitDone (cx_key cx) address (mkSender tx)).
Definition exit (cx : TestContext) (peer : Address) (tx : Z) : Query := QExit (mkExit (cx_key cx) peer (mkSender tx)).
Definition kill (cx : TestContext) (peer : Address) (tx : Z) : Query := QKill (mkKill (cx_key cx) peer (mkSender tx)).

(** A call of a method *)
Inductive Method :=
| MSpawn (runnable : R) (link : bool) | MStart (runnable : R) (link : bool) (timeout : Duration) | MBind (args : BindArgs) | MFork
| MRun (fut : TestContext → A) | MQuitOk | MQuitErr (reason : Reason) | MClose | MRecv | MSend (e : Envelope AnyMessage)
| MForward (to : Address) (e : Envelope AnyMessage) | MWatch (peer : Address) | MUnwatch (w : WatchRef) | MLink (peer : Address)
| MUnlink (peer : Address) | MSetTrapExit (enable : bool) | MInitDone (address : Address) | MExit (peer : Address) | MKill (peer : Address).

Definition make_query (cx : TestContext) (m : Method) (tx : Z) : Query :=
  match m with
  | MSpawn r l => spawn cx r l tx | MStart r l t => start cx r l t tx | MBind a => bind cx a tx | MFork => fork cx tx
  | MRun f => run cx f tx | MQuitOk => quit_ok cx tx | MQuitErr e => quit_err cx e tx | MClose => close cx tx | MRecv => recv cx tx
  | MSend e => send cx e tx | MForward to e => forward cx to e tx | MWatch p => watch cx p tx | MUnwatch w => unwatch cx w tx
  | MLink p => link cx p tx | MUnlink p => unlink cx p tx | MSetTrapExit b => set_trap_exit cx b tx | MInitDone a => init_done cx a tx
  | MExit p => exit cx p tx | MKill p => kill cx p tx
  end.

Definition on_rx_failure (m : Method) : OnRxFailure := match m with MQuitOk | MQuitErr _ => OnFreeze | _ => OnPanic end.

(** ** [ActorExit]: what an actor's function may return *)
Inductive ActorExit := ExitUnit | ExitResult (r : result unit Reason) | ExitResultNever (r : result Empty_set Reason).

Definition actor_exit (e : ActorExit) : Method :=
  match e with
  | ExitUnit => MQuitOk
  | ExitResult (Ok _) => MQuitOk
  | ExitResult (Err reason) => MQuitErr reason
  | ExitResultNever (Ok never) => match never with end
  | ExitResultNever (Err reason) => MQuitErr reason
  end.

(** ** The machines of the actors under test *)
Inductive Next := Finished (e : ActorExit) | Call (cx : TestContext) (m : Method).
Context (next : A → Next) (resume : A → Answer → A).

(** ** The runtime's state *)
Inductive RuntimeError := NoActor (address : Address) | Duplicate (address : Address).

Inductive Slot := Open | Sent (a : Answer) | Dropped.
Record ActorEntry := mkEntry { forks : gset Address; actor_canceled : Z; actor_done : Z }.

(** A future that has not been polled yet, waits for the answer to a call, or hangs for good *)
Inductive FutState := Ready (f : Fut) | Waiting (f : Fut) (cx : TestContext) (m : Method) (c : Z) | Frozen.

(** The two kinds of tasks, with the notifications they wait for and give *)
Inductive TaskKind := MainTask (canceled done : Z) | ForkTask (done : Z).
Record Task := mkTask {
  task_key : TaskKey; task_lease : option Lease; task_kind : TaskKind; task_fut : FutState;
  listening : bool; notified : bool;
}.

Record RuntimeShared := mkShared {
  queries_rx : list Query;
  tasks : gmap Z Task;
  entries : gmap Address ActorEntry;
  slots : gmap Z Slot;
  next_id : Z;
}.

Definition set_queries (s : RuntimeShared) q : RuntimeShared := mkShared q (tasks s) (entries s) (slots s) (next_id s).
Definition set_tasks (s : RuntimeShared) t : RuntimeShared := mkShared (queries_rx s) t (entries s) (slots s) (next_id s).
Definition set_entries (s : RuntimeShared) e : RuntimeShared := mkShared (queries_rx s) (tasks s) e (slots s) (next_id s).
Definition set_slots (s : RuntimeShared) c : RuntimeShared := mkShared (queries_rx s) (tasks s) (entries s) c (next_id s).

(** [TestRuntime::new] *)
Definition runtime_new : RuntimeShared := mkShared [] ∅ ∅ ∅ 0.

(** [TestRuntime::new_context] *)
Definition new_context (key : TaskKey) (lease : option Lease) : TestContext := mkContext key lease.

(** [RuntimeShared::add_task]; identities of tasks and notifications are drawn from a counter *)
Definition add_task (s : RuntimeShared) (key : TaskKey) (lease : option Lease) (fut : Fut) : RuntimeShared * result unit RuntimeError :=
  let n := next_id s in
  match entries s !! actor key, actor key =? context key with
  | None, false => (s, Err (NoActor (actor key)))
  | None, true =>
      (mkShared (queries_rx s) (<[n := mkTask key lease (MainTask (n + 1) (n + 2)) (Ready fut) false false]> (tasks s))
         (<[actor key := mkEntry ∅ (n + 1) (n + 2)]> (entries s)) (slots s) (n + 3), Ok tt)
  | Some _, true => (s, Err (Duplicate (actor key)))
  | Some entry, false =>
      if decide (context key ∈ forks entry) then (s, Err (Duplicate (context key)))
      else (mkShared (queries_rx s) (<[n := mkTask key lease (ForkTask (actor_done entry)) (Ready fut) false false]> (tasks s))
              (<[actor key := mkEntry ({[context key]} ∪ forks entry) (actor_canceled entry) (actor_done entry)]> (entries s)) (slots s) (n + 1), Ok tt)
  end.

(** [TestRuntime::add_actor] *)
Definition add_actor (s : RuntimeShared) (address : Address) (lease : option Lease) (a : A) : RuntimeShared * result unit RuntimeError :=
  let key := key_actor address in
  add_task s key lease (FActor (new_context key None) a).

(** [Notify::notify_waiters]: it wakes those that wait at this moment *)
Definition waits_for (k : TaskKind) : Z := match k with MainTask canceled _ => canceled | ForkTask done => done end.
Definition notify (n : Z) (t : Task) : Task :=
  if listening t && (waits_for (task_kind t) =? n)
  then mkTask (task_key t) (task_lease t) (task_kind t) (task_fut t) true true else t.
Definition notify_waiters (s : RuntimeShared) (n : Z) : RuntimeShared := set_tasks s (notify n <$> tasks s).

(** [invoke], up to its wait: the receiving end of the queries lives as long as the tasks do *)
Definition invoke (s : RuntimeShared) (f : Fut) (cx : TestContext) (m : Method) : RuntimeShared * FutState :=
  let c := next_id s in
  (mkShared (queries_rx s ++ [make_query cx m c]) (tasks s) (entries s) (<[c := Open]> (slots s)) (c + 1), Waiting f cx m c).

(** The body of a task, from where it has been resumed to its next wait or its end *)
Definition run_fut (s : RuntimeShared) (f : Fut) : RuntimeShared * option FutState :=
  match f with
  | FTask a =>
      match next a with
      | Finished _ => (s, None)
      | Call cx m => let '(s, w) := invoke s f cx m in (s, Some w)
      end
  | FActor self a =>
      match next a with
      | Finished e => let '(s, w) := invoke s FExit self (actor_exit e) in (s, Some w)
      | Call cx m => let '(s, w) := invoke s f cx m in (s, Some w)
      end
  | FExit => (s, Some Frozen)
  end.

Definition resume_fut (f : Fut) (x : Answer) : Fut :=
  match f with FTask a => FTask (resume a x) | FActor cx a => FActor cx (resume a x) | FExit => FExit end.

(** A poll of the body: the wait of [invoke] *)
Definition poll_fut (s : RuntimeShared) (w : FutState) : outcome (RuntimeShared * option FutState) :=
  match w with
  | Ready f => Ret (run_fut s f)
  | Waiting f cx m c =>
      match slots s !! c with
      | Some (Sent x) => Ret (run_fut s (resume_fut f x))
      | Some Dropped => match on_rx_failure m with OnPanic => Panic | OnFreeze => Ret (s, Some Frozen) end
      | Some Open | None => Ret (s, Some w)
      end
  | Frozen => Ret (s, Some Frozen)
  end.

(** ** Outcomes of tasks and events *)
Record MainActorOutcome := mkMainOutcome { mo_address : Address; mo_lease : option Lease }.
Record ForkTaskOutcome := mkForkOutcome { fo_key : TaskKey; fo_lease : option Lease }.
Inductive ActorTaskOutcome := Main (o : MainActorOutcome) | ForkDone (o : ForkTaskOutcome).
Inductive EventKind := Done (o : ActorTaskOutcome) | EQuery (q : Query).

(** The end of a task's future *)
Definition finish_task (s : RuntimeShared) (id : Z) (t : Task) : RuntimeShared * ActorTaskOutcome :=
  let s := set_tasks s (delete id (tasks s)) in
  match task_kind t with
  | MainTask _ done => (notify_waiters s done, Main (mkMainOutcome (actor (task_key t)) (task_lease t)))
  | ForkTask _ => (s, ForkDone (mkForkOutcome (task_key t) (task_lease t)))
  end.

(** A poll of a task: its [select!] looks at the body first or at the notification *)
Definition poll_task (s : RuntimeShared) (id : Z) (body_first : bool) : outcome (RuntimeShared * option ActorTaskOutcome) :=
  match tasks s !! id with
  | None => Ret (s, None)
  | Some t =>
      if notified t && negb body_first then let '(s, o) := finish_task s id t in Ret (s, Some o)
      else
        '(s, w) ← poll_fut s (task_fut t);
        match w with
        | None => let '(s, o) := finish_task s id t in Ret (s, Some o)
        | Some w =>
            if notified t then let '(s, o) := finish_task s id t in Ret (s, Some o)
            else Ret (set_tasks s (<[id := mkTask (task_key t) (task_lease t) (task_kind t) w true false]> (tasks s)), None)
        end
  end.

(** [tasks.next()]: tasks are polled until one is done *)
Fixpoint poll_tasks (s : RuntimeShared) (schedule : list (Z * bool)) : outcome (RuntimeShared * option ActorTaskOutcome) :=
  match schedule with
  | [] => Ret (s, None)
  | (id, body_first) :: schedule =>
      '(s, o) ← poll_task s id body_first;
      match o with Some o => Ret (s, Some o) | None => poll_tasks s schedule end
  end.

(** [try_recv] *)
Definition pop_query (s : RuntimeShared) : RuntimeShared * option EventKind :=
  match queries_rx s with [] => (s, None) | q :: rest => (set_queries s rest, Some (EQuery q)) end.

(** One poll of [next_event] *)
Inductive Polled := IsReady (e : option EventKind) | IsPending.

Definition next_event (s : RuntimeShared) (queries_first : bool) (schedule : list (Z * bool)) : outcome (RuntimeShared * Polled) :=
  if decide (tasks s = ∅) then let '(s, e) := pop_query s in Ret (s, IsReady e)
  else
    let poll_done (s : RuntimeShared) (otherwise : RuntimeShared → outcome (RuntimeShared * Polled)) :=
      '(s, o) ← poll_tasks s schedule;
      match o with Some o => Ret (s, IsReady (Some (Done o))) | None => otherwise s end in
    let poll_query (s : RuntimeShared) (otherwise : RuntimeShared → outcome (RuntimeShared * Polled)) :=
      match pop_query s with (s, Some e) => Ret (s, IsReady (Some e)) | (s, None) => otherwise s end in
    let pending (s : RuntimeShared) := Ret (s, IsPending) in
    if queries_first then poll_query s (λ s, poll_done s pending) else poll_done s (λ s, poll_query s pending).

(** ** What a test does with events *)

(** [EventResolve::resolve], [resolve_ok], [resolve_err] *)
Definition resolve {K O} `{IntoSender K O, Out O} (s : RuntimeShared) (kind : K) (outcome : O) : RuntimeShared :=
  set_slots s (<[chan (into_sender kind) := Sent (inject outcome)]> (slots s)).
Definition resolve_ok {K T E} `{IntoSender K (result T E), Out (result T E)} (s : RuntimeShared) (kind : K) (t : T) : RuntimeShared :=
  resolve (O := result T E) s kind (Ok t).
Definition resolve_err {K T E} `{IntoSender K (result T E), Out (result T E)} (s : RuntimeShared) (kind : K) (e : E) : RuntimeShared :=
  resolve (O := result T E) s kind (Err e).

(** The drop of a sender *)
Definition drop_chan (s : RuntimeShared) (c : Z) : RuntimeShared := set_slots s (<[c := Dropped]> (slots s)).

(** [Event<Spawn>::take_runnable], [Event<Start>::take_runnable] *)
Definition spawn_take_runnable (q : Spawn R) : R * Spawn unit := (spawn_runnable q, mkSpawn (spawn_key q) (spawn_link q) tt (spawn_tx q)).
Definition start_take_runnable (q : Start R) : R * Start unit :=
  (start_runnable q, mkStart (start_key q) (start_link q) (start_timeout q) tt (start_tx q)).

(** [Event<Tell>::take_envelope]: an empty envelope to the same address stays behind *)
Definition take_envelope (type_name : TypeId → string) (empty : value) (seq_no trace_id : Z) (q : Tell) : Z * Envelope AnyMessage * Tell :=
  let '(seq_no, info) := to_address seq_no trace_id (eh_to (env_header (tell_envelope q))) in
  (seq_no, tell_envelope q, mkTell (tell_key q) (tell_to q) (into_erased type_name (mkEnvelope info empty)) (tell_tx q)).

(** [Event<ForkRun>::resolve], [Event<PendingTask>::run] *)
Definition fork_run_resolve (s : RuntimeShared) (q : ForkRun) : RuntimeShared * PendingTask :=
  (set_slots s (<[chan (run_tx q) := Sent AUnit]> (slots s)), mkPending (run_key q) (run_lease q) (run_task q)).
Definition pending_run (s : RuntimeShared) (p : PendingTask) : RuntimeShared * result unit RuntimeError :=
  add_task s (pending_key p) (pending_lease p) (pending_fut p).

(** [Event<Quit>::stop_tasks]: the event, and its sender, are gone on either path *)
Definition stop_tasks (s : RuntimeShared) (q : Quit) : RuntimeShared * result unit RuntimeError :=
  let s := drop_chan s (chan (quit_tx q)) in
  match entries s !! actor (quit_key q) with
  | None => (s, Err (NoActor (actor (quit_key q))))
  | Some entry => (notify_waiters s (actor_canceled entry), Ok tt)
  end.

(** [Event<MainActorOutcome>::remove_actor_entry] *)
Definition remove_actor_entry (s : RuntimeShared) (o : MainActorOutcome) : RuntimeShared * result unit RuntimeError :=
  match entries s !! mo_address o with
  | None => (s, Err (NoActor (mo_address o)))
  | Some _ => (set_entries s (delete (mo_address o) (entries s)), Ok tt)
  end.

(** ** Events of a kind: [TryFrom], [Event::convert], [Event::expect] *)
Class TryFromEvent (K : Type) := try_from : EventKind → result K EventKind.
#[local] Instance try_outcome : TryFromEvent ActorTaskOutcome := λ e, match e with Done kind => Ok kind | kind => Err kind end.
#[local] Instance try_main : TryFromEvent MainActorOutcome := λ e, match e with Done (Main kind) => Ok kind | kind => Err kind end.
#[local] Instance try_fork_done : TryFromEvent ForkTaskOutcome := λ e, match e with Done (ForkDone kind) => Ok kind | kind => Err kind end.
#[local] Instance try_query : TryFromEvent Query := λ e, match e with EQuery kind => Ok kind | kind => Err kind end.
#[local] Instance try_spawn : TryFromEvent (Spawn R) := λ e, match e with EQuery (QSpawn kind) => Ok kind | kind => Err kind end.
#[local] Instance try_start : TryFromEvent (Start R) := λ e, match e with EQuery (QStart kind) => Ok kind | kind => Err kind end.
#[local] Instance try_bind : TryFromEvent Bind := λ e, match e with EQuery (QBindNetAddress kind) => Ok kind | kind => Err kind end.
#[local] Instance try_recv : TryFromEvent Recv := λ e, match e with EQuery (QRecv kind) => Ok kind | kind => Err kind end.
#[local] Instance try_recv_close : TryFromEvent RecvClose := λ e, match e with EQuery (QRecvClose kind) => Ok kind | kind => Err kind end.
#[local] Instance try_fork : TryFromEvent Fork := λ e, match e with EQuery (QFork kind) => Ok kind | kind => Err kind end.
#[local] Instance try_fork_run : TryFromEvent ForkRun := λ e, match e with EQuery (QForkRun kind) => Ok kind | kind => Err kind end.
#[local] Instance try_quit : TryFromEvent Quit := λ e, match e with EQuery (QQuit kind) => Ok kind | kind => Err kind end.
#[local] Instance try_tell : TryFromEvent Tell := λ e, match e with EQuery (QTell kind) => Ok kind | kind => Err kind end.
#[local] Instance try_watch : TryFromEvent Watch := λ e, match e with EQuery (QWatch kind) => Ok kind | kind => Err kind end.
#[local] Instance try_unwatch : TryFromEvent Unwatch := λ e, match e with EQuery (QUnwatch kind) => Ok kind | kind => Err kind end.
#[local] Instance try_link : TryFromEvent Link := λ e, match e with EQuery (QLink kind) => Ok kind | kind => Err kind end.
#[local] Instance try_unlink : TryFromEvent Unlink := λ e, match e with EQuery (QUnlink kind) => Ok kind | kind => Err kind end.
#[local] Instance try_set_trap_exit : TryFromEvent SetTrapExit := λ e, match e with EQuery (QSetTrapExit kind) => Ok kind | kind => Err kind end.
#[local] Instance try_init_done : TryFromEvent InitDone := λ e, match e with EQuery (QInitDone kind) => Ok kind | kind => Err kind end.
#[local] Instance try_exit : TryFromEvent Exit := λ e, match e with EQuery (QExit kind) => Ok kind | kind => Err kind end.
#[local] Instance try_kill : TryFromEvent Kill := λ e, match e with EQuery (QKill kind) => Ok kind | kind => Err kind end.

Definition convert {K} `{TryFromEvent K} (e : EventKind) : result K EventKind := try_from e.
Definition expect_event {K} `{TryFromEvent K} (e : EventKind) : outcome K := match convert e with Ok k => Ret k | Err _ => Panic end.
(** [TestRuntime::expect_next_event], on what [next_event] gave *)
Definition expect_next_event (o : option EventKind) : outcome EventKind := expect o.

(** ** A test and the runtime

    The test holds the events it has been given and not used up, and the tasks it has not started yet. *)
Record Sys := mkSys { rt : RuntimeShared; held : list EventKind; to_run : list PendingTask }.

Definition sys_new : Sys := mkSys runtime_new [] [].

(** [dropped] says which queries the test may leave without an answer *)
Inductive tstep (dropped : Query → Prop) : Sys → Sys → Prop :=
| TEvent s h p qf sch s' e : next_event s qf sch = Ret (s', IsReady (Some e)) → tstep dropped (mkSys s h p) (mkSys s' (e :: h) p)
| TNoEvent s h p qf sch s' : next_event s qf sch = Ret (s', IsReady None) → tstep dropped (mkSys s h p) (mkSys s' h p)
| TPending s h p qf sch s' : next_event s qf sch = Ret (s', IsPending) → tstep dropped (mkSys s h p) (mkSys s' h p)
| TResolve {K O} `{IntoSender K O, Out O, IntoQuery K} (kind : K) (o : O) s h1 h2 p :
    chan (into_sender kind) = query_chan (into_query kind) →
    tstep dropped (mkSys s (h1 ++ EQuery (into_query kind) :: h2) p) (mkSys (resolve s kind o) (h1 ++ h2) p)
| TForkRun q s h1 h2 p : tstep dropped (mkSys s (h1 ++ EQuery (QForkRun q) :: h2) p)
    (mkSys (fork_run_resolve s q).1 (h1 ++ h2) ((fork_run_resolve s q).2 :: p))
| TStop q s h1 h2 p : tstep dropped (mkSys s (h1 ++ EQuery (QQuit q) :: h2) p) (mkSys (stop_tasks s q).1 (h1 ++ h2) p)
| TDrop q s h1 h2 p : dropped q → tstep dropped (mkSys s (h1 ++ EQuery q :: h2) p) (mkSys (drop_chan s (query_chan q)) (h1 ++ h2) p)
| TDone o s h1 h2 p : tstep dropped (mkSys s (h1 ++ Done o :: h2) p) (mkSys s (h1 ++ h2) p)
| TRemove o s h1 h2 p : tstep dropped (mkSys s (h1 ++ Done (Main o) :: h2) p) (mkSys (remove_actor_entry s o).1 (h1 ++ h2) p)
| TRun k s h p1 p2 : tstep dropped (mkSys s h (p1 ++ k :: p2)) (mkSys (pending_run s k).1 h (p1 ++ p2))
| TAdd key lease f s h p : tstep dropped (mkSys s h p) (mkSys (add_task s key lease f).1 h p).

(** ** The invariant

    [qs] are the queries in the channel and in the hands of the test. *)
Definition waiting (s : RuntimeShared) (id : Z) (cx : TestContext) (m : Method) (c : Z) : Prop :=
  ∃ t f, tasks s !! id = Some t ∧ task_fut t = Waiting f cx m c.

Record Inv (dropped : Query → Prop) (qs : list Query) (s : RuntimeShared) : Prop := {
  inv_open : ∀ c, slots s !! c = Some Open ↔ c ∈ query_chan <$> qs;
  inv_nodup : NoDup (query_chan <$> qs);
  inv_fresh : ∀ c, next_id s ≤ c → slots s !! c = None;
  inv_tasks : ∀ id, next_id s ≤ id → tasks s !! id = None;
  inv_waiting : ∀ id cx m c, waiting s id cx m c → is_Some (slots s !! c);
  inv_asked : ∀ id cx m c q, waiting s id cx m c → q ∈ qs → query_chan q = c → q = make_query cx m c;
  inv_one : ∀ id id' cx cx' m m' c, waiting s id cx m c → waiting s id' cx' m' c → id = id';
  inv_dropped : ∀ id cx m c, waiting s id cx m c → slots s !! c = Some Dropped →
    is_quit (make_query cx m c) = true ∨ dropped (make_query cx m c);
}.

Lemma query_chan_make cx m c : query_chan (make_query cx m c) = c.
Proof. by destruct m. Qed.

Lemma quit_freezes cx m c : is_quit (make_query cx m c) = true ↔ on_rx_failure m = OnFreeze.
Proof. by destruct m. Qed.

Section Invariant.
Context (dropped : Query → Prop).

Lemma inv_perm qs qs' s : qs ≡ₚ qs' → Inv dropped qs s → Inv dropped qs' s.
Proof.
  intros Hp [H1 H2 H3 H4 H5 H6 H7 H8]. split; try done.
  - intros c. by rewrite H1, Hp.
  - by rewrite <- Hp.
  - intros id cx m c q Hw Hq. rewrite <- Hp in Hq. by apply (H6 id).
Qed.

(** Tasks that wait for no more than before *)
Lemma inv_shrink qs s s' :
  slots s' = slots s → next_id s ≤ next_id s' →
  (∀ id, next_id s' ≤ id → tasks s' !! id = None) →
  (∀ id cx m c, waiting s' id cx m c → waiting s id cx m c) →
  Inv dropped qs s → Inv dropped qs s'.
Proof.
  intros Hs Hn Ht Hw [H1 H2 H3 H4 H5 H6 H7 H8]. split; try done; rewrite ?Hs; eauto.
  intros c Hc. apply H3. lia.
Qed.

(** A query is used up *)
Lemma inv_use_up qs s q slot :
  Inv dropped (q :: qs) s → slot ≠ Open →
  (slot = Dropped → is_quit q = true ∨ dropped q) →
  Inv dropped qs (set_slots s (<[query_chan q := slot]> (slots s))).
Proof.
  intros [H1 H2 H3 H4 H5 H6 H7 H8] Hne Hd. rewrite fmap_cons in H1, H2. apply NoDup_cons in H2 as [Hq H2].
  split; try done; simpl.
  - intros c. destruct (decide (c = query_chan q)) as [->|Hc].
    + rewrite lookup_insert_eq. split; [congruence | done].
    + rewrite lookup_insert_ne, H1 by done. split; [intros [?|?]%elem_of_cons; [done | done] | by right].
  - intros c Hc. destruct (decide (c = query_chan q)) as [->|Hne']; [|rewrite lookup_insert_ne by done; auto].
    assert (slots s !! query_chan q = Some Open) as E by (apply H1; left). by rewrite H3 in E.
  - intros id cx m c Hw. destruct (decide (c = query_chan q)) as [->|Hc]; [rewrite lookup_insert_eq; eauto|].
    rewrite lookup_insert_ne by done. eapply H5, Hw.
  - intros id cx m c q' Hw Hq'. apply (H6 id); [done | by right].
  - intros id cx m c Hw. destruct (decide (c = query_chan q)) as [->|Hc].
    + rewrite lookup_insert_eq. intros [= ->]. rewrite <- (H6 id cx m (query_chan q) q Hw); [auto | left | done].
    + rewrite lookup_insert_ne by done. eapply H8, Hw.
Qed.

(** A task calls a method *)
Definition with_fut (t : Task) (w : FutState) : Task := mkTask (task_key t) (task_lease t) (task_kind t) w true false.
Definition put_task (s : RuntimeShared) (id : Z) (t : Task) (w : FutState) : RuntimeShared :=
  set_tasks s (<[id := with_fut t w]> (tasks s)).

Lemma waiting_put s id t w id' cx m c :
  waiting (put_task s id t w) id' cx m c → (id' = id ∧ ∃ f, w = Waiting f cx m c) ∨ (id' ≠ id ∧ waiting s id' cx m c).
Proof.
  intros (t' & f & Ht & Hf). simpl in Ht. destruct (decide (id' = id)) as [->|Hne].
  - rewrite lookup_insert_eq in Ht. injection Ht as <-. eauto.
  - rewrite lookup_insert_ne in Ht by done. right. split; [done|]. by exists t', f.
Qed.

Lemma inv_put_idle qs s id t w :
  tasks s !! id = Some t → (∀ f cx m c, w = Waiting f cx m c → task_fut t = Waiting f cx m c) →
  Inv dropped qs s → Inv dropped qs (put_task s id t w).
Proof.
  intros Ht Hw H. apply (inv_shrink qs s); try done.
  - intros id' Hid. simpl in *. rewrite lookup_insert_ne by (intros <-; rewrite (inv_tasks _ _ _ H) in Ht; [done | lia]).
    by apply (inv_tasks _ _ _ H).
  - intros id' cx m c [[-> [f ->]]|[_ ?]]%waiting_put; [|done]. exists t, f. split; [done | by apply Hw].
Qed.

Lemma inv_invoke qs s id t f cx m s' w :
  tasks s !! id = Some t → invoke s f cx m = (s', w) →
  Inv dropped qs s → Inv dropped (make_query cx m (next_id s) :: qs) (put_task s' id t w).
Proof.
  intros Ht Hi H. injection Hi as <- <-. pose proof H as [H1 H2 H3 H4 H5 H6 H7 H8].
  assert (next_id s ∉ query_chan <$> qs) as Hnew.
  { intros Hin. apply H1 in Hin. rewrite H3 in Hin; [done | lia]. }
  assert (∀ id' cx' m' c', waiting s id' cx' m' c' → c' ≠ next_id s) as Hold.
  { intros id' cx' m' c' Hw ->. apply H5 in Hw as [x Hx]. rewrite H3 in Hx; [done | lia]. }
  assert (id < next_id s) as Hid.
  { destruct (Z.lt_ge_cases id (next_id s)) as [|Hge]; [done|]. by rewrite H4 in Ht. }
  assert (∀ id' cx' m' c', waiting (put_task (mkShared (queries_rx s ++ [make_query cx m (next_id s)]) (tasks s) (entries s)
      (<[next_id s:=Open]> (slots s)) (next_id s + 1)) id t (Waiting f cx m (next_id s))) id' cx' m' c' →
      (id' = id ∧ cx' = cx ∧ m' = m ∧ c' = next_id s) ∨ (id' ≠ id ∧ c' ≠ next_id s ∧ waiting s id' cx' m' c')) as Hcase.
  { intros id' cx' m' c' [[-> [g [= -> -> -> ->]]]|[Hne Hw]]%waiting_put; [auto|]. right. split; [done|]. split; [by eapply Hold, Hw | done]. }
  split; simpl.
  - intros c. rewrite query_chan_make. destruct (decide (c = next_id s)) as [->|Hc].
    + rewrite lookup_insert_eq. split; [left | done].
    + rewrite lookup_insert_ne, H1 by done. split; [by right | intros [?|?]%elem_of_cons; done].
  - rewrite query_chan_make. by constructor.
  - intros c Hc. rewrite lookup_insert_ne by lia. apply H3. lia.
  - intros id' Hid'. rewrite lookup_insert_ne by lia. apply H4. lia.
  - intros id' cx' m' c' [(-> & -> & -> & ->)|(_ & Hne & Hw)]%Hcase; [rewrite lookup_insert_eq; eauto|].
    rewrite lookup_insert_ne by done. eapply H5, Hw.
  - intros id' cx' m' c' q [(-> & -> & -> & ->)|(_ & Hne & Hw)]%Hcase [->|Hq]%elem_of_cons Hc; [done| | |by eapply H6].
    + destruct Hnew. rewrite <- Hc. apply list_elem_of_fmap. by exists q.
    + by rewrite query_chan_make in Hc.
  - intros i1 i2 cx1 cx2 m1 m2 c [(-> & _ & _ & ->)|(? & Hc1 & Hw1)]%Hcase [(-> & _ & _ & Hc)|(? & Hc2 & Hw2)]%Hcase; [done|done|done|].
    eapply H7; eauto.
  - intros id' cx' m' c' [(-> & -> & -> & ->)|(_ & Hne & Hw)]%Hcase; [by rewrite lookup_insert_eq|].
    rewrite lookup_insert_ne by done. by eapply H8.
Qed.

Lemma run_fut_inv s f s' o id t qs :
  run_fut s f = (s', o) → tasks s !! id = Some t → Inv dropped qs s →
  match o with
  | None => s' = s
  | Some w => tasks s' = tasks s ∧ ∃ new, queries_rx s' = queries_rx s ++ new ∧ Inv dropped (new ++ qs) (put_task s' id t w)
  end.
Proof.
  intros Hr Ht H.
  assert (∀ g cx m, let '(s', w) := invoke s g cx m in
    tasks s' = tasks s ∧ ∃ new, queries_rx s' = queries_rx s ++ new ∧ Inv dropped (new ++ qs) (put_task s' id t w)) as Hinv.
  { intros g cx m. destruct (invoke s g cx m) as [s1 w] eqn:E. pose proof (inv_invoke _ _ _ _ _ _ _ _ _ Ht E H) as Hi.
    injection E as <- <-. split; [done|]. exists [make_query cx m (next_id s)]. by split. }
  unfold run_fut in Hr. destruct f as [a|self a|].
  - destruct (next a) as [e|cx m]; [by injection Hr as <- <-|]. pose proof (Hinv (FTask a) cx m) as Hi.
    destruct (invoke s _ cx m). by injection Hr as <- <-.
  - destruct (next a) as [e|cx m].
    + pose proof (Hinv FExit self (actor_exit e)) as Hi. destruct (invoke s _ _ _). by injection Hr as <- <-.
    + pose proof (Hinv (FActor self a) cx m) as Hi. destruct (invoke s _ cx m). by injection Hr as <- <-.
  - injection Hr as <- <-. split; [done|]. exists []. rewrite app_nil_r. split; [done|]. by apply inv_put_idle.
Qed.

Lemma poll_fut_inv s s' o id t qs :
  poll_fut s (task_fut t) = Ret (s', o) → tasks s !! id = Some t → Inv dropped qs s →
  match o with
  | None => s' = s
  | Some w => tasks s' = tasks s ∧ ∃ new, queries_rx s' = queries_rx s ++ new ∧ Inv dropped (new ++ qs) (put_task s' id t w)
  end.
Proof.
  intros Hp Ht H.
  assert (∀ w, (∀ f cx m c, w = Waiting f cx m c → task_fut t = Waiting f cx m c) →
    tasks s = tasks s ∧ ∃ new, queries_rx s = queries_rx s ++ new ∧ Inv dropped (new ++ qs) (put_task s id t w)) as Hidle.
  { intros w Hw. split; [done|]. exists []. rewrite app_nil_r. split; [done|]. by apply inv_put_idle. }
  unfold poll_fut in Hp. destruct (task_fut t) as [f|f cx m c|] eqn:Hf.
  - injection Hp as Hp. by apply (run_fut_inv s f).
  - destruct (slots s !! c) as [[|x|]|].
    + injection Hp as <- <-. by apply Hidle.
    + injection Hp as Hp. by apply (run_fut_inv s (resume_fut f x)).
    + destruct (on_rx_failure m); [done|]. injection Hp as <- <-. by apply Hidle.
    + injection Hp as <- <-. by apply Hidle.
  - injection Hp as <- <-. by apply Hidle.
Qed.

Lemma waiting_notify s n id cx m c : waiting (notify_waiters s n) id cx m c → waiting s id cx m c.
Proof.
  intros (t & f & Ht & Hf). simpl in Ht. rewrite lookup_fmap in Ht. destruct (tasks s !! id) as [t'|] eqn:E; [|done].
  injection Ht as <-. exists t', f. split; [done|]. unfold notify in Hf. by destruct (listening t' && _).
Qed.

Lemma inv_notify qs s n : Inv dropped qs s → Inv dropped qs (notify_waiters s n).
Proof.
  intros H. apply (inv_shrink qs s); try done; [|apply waiting_notify].
  intros id Hid. simpl. by rewrite lookup_fmap, (inv_tasks _ _ _ H).
Qed.

Lemma inv_finish qs s id t s' o :
  finish_task s id t = (s', o) → Inv dropped qs (set_tasks s (delete id (tasks s))) →
  queries_rx s' = queries_rx s ∧ Inv dropped qs s'.
Proof.
  intros Hf H. unfold finish_task in Hf. destruct (task_kind t); injection Hf as <- <-; [|done].
  split; [done|]. by apply inv_notify.
Qed.

Lemma inv_delete qs s s1 id :
  (∀ id' cx m c, id' ≠ id → waiting s1 id' cx m c → waiting s id' cx m c) → slots s1 = slots s → next_id s1 = next_id s →
  (∀ id', next_id s ≤ id' → tasks s1 !! id' = None) →
  Inv dropped qs s → Inv dropped qs (set_tasks s1 (delete id (tasks s1))).
Proof.
  intros Hw Hs Hn Ht H. apply (inv_shrink qs s); simpl; [done | lia | | | done].
  - intros id' Hid. apply lookup_delete_None. right. apply Ht. lia.
  - intros id' cx m c (t & f & Hl & Hf). simpl in Hl. apply lookup_delete_Some in Hl as [Hne Hl]. apply Hw; [done|]. by exists t, f.
Qed.

Lemma poll_task_inv s id b s' o h :
  poll_task s id b = Ret (s', o) → Inv dropped (queries_rx s ++ h) s → Inv dropped (queries_rx s' ++ h) s'.
Proof.
  intros Hp H. unfold poll_task in Hp. destruct (tasks s !! id) as [t|] eqn:Ht; [|by injection Hp as <- <-].
  assert (Inv dropped (queries_rx s ++ h) (set_tasks s (delete id (tasks s)))) as Hdel.
  { apply (inv_delete _ s); try done. by apply (inv_tasks _ _ _ H). }
  destruct (notified t && negb b).
  { destruct (finish_task s id t) as [s1 o1] eqn:Hf. injection Hp as <- <-. by apply (inv_finish _ _ _ _ _ _ Hf) in Hdel as [-> ?]. }
  destruct (poll_fut s (task_fut t)) as [[s1 w]|] eqn:Hpf; [|done]. cbn [mbind outcome_bind] in Hp.
  pose proof (poll_fut_inv _ _ _ id t _ Hpf Ht H) as Hq. destruct w as [w|].
  - destruct Hq as (Hts & new & Hrx & Hi).
    assert (Inv dropped (queries_rx s1 ++ h) (put_task s1 id t w)) as Hi'.
    { eapply inv_perm; [|exact Hi]. rewrite Hrx. solve_Permutation. }
    destruct (notified t); [|by injection Hp as <- <-].
    destruct (finish_task s1 id t) as [s2 o2] eqn:Hf. injection Hp as <- <-.
    apply (inv_finish (queries_rx s1 ++ h)) in Hf as [-> ?]; [done|].
    apply (inv_delete _ (put_task s1 id t w)); try done.
    + intros id' cx m c Hne (t' & f & Hl & Hf'). exists t', f. simpl. by rewrite lookup_insert_ne.
    + intros id' Hid. pose proof (inv_tasks _ _ _ Hi' id' Hid) as Hn. simpl in Hn. by apply lookup_insert_None in Hn as [].
  - subst s1. destruct (finish_task s id t) as [s1 o1] eqn:Hf. injection Hp as <- <-. by apply (inv_finish _ _ _ _ _ _ Hf) in Hdel as [-> ?].
Qed.

Lemma poll_tasks_inv schedule s s' o h :
  poll_tasks s schedule = Ret (s', o) → Inv dropped (queries_rx s ++ h) s → Inv dropped (queries_rx s' ++ h) s'.
Proof.
  revert s. induction schedule as [|[id b] schedule IH]; intros s Hp H; [by injection Hp as <- <-|].
  simpl in Hp. destruct (poll_task s id b) as [[s1 o1]|] eqn:E; [|done]. cbn [mbind outcome_bind] in Hp.
  apply (poll_task_inv _ _ _ _ _ _ E) in H. destruct o1; [by injection Hp as <- <- | by apply (IH s1)].
Qed.

Lemma pop_query_inv s h :
  Inv dropped (queries_rx s ++ h) s →
  Inv dropped (queries_rx (pop_query s).1 ++ match (pop_query s).2 with Some (EQuery q) => [q] | _ => [] end ++ h) (pop_query s).1.
Proof.
  intros H. unfold pop_query. destruct (queries_rx s) as [|q rest] eqn:E; simpl; [by rewrite E|].
  apply (inv_shrink _ s); try done; simpl; [apply (inv_tasks _ _ _ H)|]. eapply inv_perm; [|exact H]. solve_Permutation.
Qed.

Definition event_query (e : EventKind) : option Query := match e with EQuery q => Some q | Done _ => None end.
Definition polled_queries (p : Polled) : list Query :=
  match p with IsReady (Some e) => option_list (event_query e) | _ => [] end.

Lemma poll_query_inv s h s' e :
  pop_query s = (s', e) → Inv dropped (queries_rx s ++ h) s → Inv dropped (queries_rx s' ++ polled_queries (IsReady e) ++ h) s'.
Proof.
  intros Hp H. apply pop_query_inv in H. rewrite Hp in H. by destruct e as [[o|q]|].
Qed.

Lemma next_event_inv s qf sch s' p h :
  next_event s qf sch = Ret (s', p) → Inv dropped (queries_rx s ++ h) s → Inv dropped (queries_rx s' ++ polled_queries p ++ h) s'.
Proof.
  intros Hn H. unfold next_event in Hn. destruct (decide (tasks s = ∅)) as [_|_].
  { destruct (pop_query s) as [s1 e] eqn:E. injection Hn as <- <-. by apply (poll_query_inv _ _ _ _ E). }
  destruct qf.
  - destruct (pop_query s) as [s1 [e|]] eqn:E; apply (poll_query_inv _ _ _ _ E) in H; [by injection Hn as <- <-|].
    destruct (poll_tasks s1 sch) as [[s2 o]|] eqn:E2; [|done]. cbn [mbind outcome_bind] in Hn.
    apply (poll_tasks_inv _ _ _ _ _ E2) in H. destruct o; by injection Hn as <- <-.
  - destruct (poll_tasks s sch) as [[s2 o]|] eqn:E2; [|done]. cbn [mbind outcome_bind] in Hn.
    apply (poll_tasks_inv _ _ _ _ _ E2) in H. destruct o; [by injection Hn as <- <-|].
    destruct (pop_query s2) as [s3 [e|]] eqn:E; apply (poll_query_inv _ _ _ _ E) in H; by injection Hn as <- <-.
Qed.

Lemma add_task_inv qs s key lease f : Inv dropped qs s → Inv dropped qs (add_task s key lease f).1 ∧ queries_rx (add_task s key lease f).1 = queries_rx s.
Proof.
  intros H. unfold add_task.
  assert (∀ e n k, next_id s < n → Inv dropped qs (mkShared (queries_rx s) (<[next_id s := mkTask key lease k (Ready f) false false]> (tasks s)) e (slots s) n)) as Hadd.
  { intros e n k Hn. apply (inv_shrink qs s); simpl; [done | lia | | |done].
    - intros id Hid. rewrite lookup_insert_ne by lia. apply (inv_tasks _ _ _ H). lia.
    - intros id cx m c (t & g & Ht & Hg). simpl in Ht. destruct (decide (id = next_id s)) as [->|Hne].
      + rewrite lookup_insert_eq in Ht. by injection Ht as <-.
      + rewrite lookup_insert_ne in Ht by done. by exists t, g. }
  destruct (entries s !! actor key) as [entry|], (actor key =? context key); try done; [case_decide; [done|]|];
    (split; [apply Hadd; lia | done]).
Qed.

Definition SysInv (sys : Sys) : Prop := Inv dropped (queries_rx (rt sys) ++ omap event_query (held sys)) (rt sys).

Lemma inv_resolve qs1 qs2 s q slot :
  Inv dropped (qs1 ++ q :: qs2) s → slot ≠ Open → (slot = Dropped → is_quit q = true ∨ dropped q) →
  Inv dropped (qs1 ++ qs2) (set_slots s (<[query_chan q := slot]> (slots s))).
Proof. intros H. apply inv_use_up. eapply inv_perm; [|exact H]. solve_Permutation. Qed.

Lemma tstep_inv sys sys' : tstep dropped sys sys' → SysInv sys → SysInv sys'.
Proof.
  unfold SysInv.
  destruct 1 as [s h p qf sch s' e E|s h p qf sch s' E|s h p qf sch s' E|K O i1 i2 i3 kind o s h1 h2 p Hc|q s h1 h2 p|q s h1 h2 p
    |q s h1 h2 p Hd|o s h1 h2 p|o s h1 h2 p|k s h p1 p2|key lease f s h p]; simpl; intros H.
  - apply (next_event_inv _ _ _ _ _ _ E) in H. by destruct e.
  - by apply (next_event_inv _ _ _ _ _ _ E) in H.
  - by apply (next_event_inv _ _ _ _ _ _ E) in H.
  - rewrite omap_app in *. simpl in H. unfold resolve. rewrite Hc. rewrite app_assoc in *. by apply inv_resolve.
  - rewrite omap_app in *. simpl in H. rewrite app_assoc in *. by apply (inv_resolve _ _ _ (QForkRun q)).
  - rewrite omap_app in *. simpl in H. rewrite app_assoc in *.
    apply (inv_resolve _ _ _ (QQuit q) Dropped) in H; [|done|auto]. simpl in H. unfold stop_tasks. simpl.
    destruct (entries s !! actor (quit_key q)); [by apply inv_notify | done].
  - rewrite omap_app in *. simpl in H. rewrite app_assoc in *. apply inv_resolve; auto.
  - by rewrite omap_app in *.
  - rewrite omap_app in *. simpl in H. unfold remove_actor_entry. destruct (entries s !! mo_address o); [|done].
    apply (inv_shrink _ s); try done. apply (inv_tasks _ _ _ H).
  - destruct (add_task_inv _ _ (pending_key k) (pending_lease k) (pending_fut k) H) as [Hi Hq]. unfold pending_run. by rewrite Hq.
  - destruct (add_task_inv _ _ key lease f H) as [Hi Hq]. by rewrite Hq.
Qed.

Lemma sys_inv sys : rtc (tstep dropped) sys_new sys → SysInv sys.
Proof.
  assert (SysInv sys_new) as H0.
  { unfold SysInv. split; simpl; try done.
    - intros c. split; [done | by intros ?%elem_of_nil].
    - constructor.
    - by intros id cx m c (t & f & Ht & _).
    - by intros id cx m c q (t & f & Ht & _).
    - by intros id id' cx cx' m m' c (t & f & Ht & _). }
  intros Hr. revert H0. induction Hr as [|x y z Hs Hr IH]; [done|]. intros H. apply IH. by eapply tstep_inv.
Qed.

(** ** No panic but by a dropped query *)
Lemma poll_fut_ok qs s id t :
  (∀ q, ¬ dropped q) → Inv dropped qs s → tasks s !! id = Some t → poll_fut s (task_fut t) ≠ Panic.
Proof.
  intros Hd H Ht. unfold poll_fut. destruct (task_fut t) as [f|f cx m c|] eqn:Hf; [done| |done].
  destruct (slots s !! c) as [[|x|]|] eqn:E; try done. destruct (on_rx_failure m) eqn:Eo; [|done].
  destruct (inv_dropped _ _ _ H id cx m c) as [Hq|Hq]; [by exists t, f | done | | by apply Hd in Hq].
  apply quit_freezes in Hq. congruence.
Qed.

Lemma poll_task_ok s id b h : (∀ q, ¬ dropped q) → Inv dropped (queries_rx s ++ h) s → poll_task s id b ≠ Panic.
Proof.
  intros Hd H. unfold poll_task. destruct (tasks s !! id) as [t|] eqn:Ht; [|done].
  destruct (notified t && negb b); [by destruct (finish_task s id t)|].
  pose proof (poll_fut_ok _ _ _ _ Hd H Ht) as Hp. destruct (poll_fut s (task_fut t)) as [[s1 w]|]; [|done]. cbn [mbind outcome_bind].
  destruct w; [destruct (notified t); [|done]|]; by destruct (finish_task s1 id t).
Qed.

Lemma poll_tasks_ok schedule s h : (∀ q, ¬ dropped q) → Inv dropped (queries_rx s ++ h) s → poll_tasks s schedule ≠ Panic.
Proof.
  intros Hd. revert s. induction schedule as [|[id b] schedule IH]; intros s H; [done|]. simpl.
  pose proof (poll_task_ok s id b h Hd H) as Hp. destruct (poll_task s id b) as [[s1 o]|] eqn:E; [|done]. cbn [mbind outcome_bind].
  destruct o; [done|]. apply IH. by apply (poll_task_inv _ _ _ _ _ _ E).
Qed.
End Invariant.

(** ** Queries are only added at the end *)
Lemma run_fut_rx s f s' o : run_fut s f = (s', o) → ∃ new, queries_rx s' = queries_rx s ++ new.
Proof.
  assert (∃ new, queries_rx s = queries_rx s ++ new) as H0 by (exists []; by rewrite app_nil_r).
  unfold run_fut, invoke. intros H. repeat case_match; simplify_eq; simpl; eauto.
Qed.

Lemma poll_task_rx s id b s' o : poll_task s id b = Ret (s', o) → ∃ new, queries_rx s' = queries_rx s ++ new.
Proof.
  assert (∃ new, queries_rx s = queries_rx s ++ new) as H0 by (exists []; by rewrite app_nil_r).
  assert (∀ s1 t s2 o', finish_task s1 id t = (s2, o') → queries_rx s2 = queries_rx s1) as Hfin.
  { intros s1 t s2 o' Hf. unfold finish_task in Hf. by destruct (task_kind t); injection Hf as <- <-. }
  unfold poll_task. intros Hp. destruct (tasks s !! id) as [t|]; [|by injection Hp as <- <-].
  destruct (notified t && negb b).
  { destruct (finish_task s id t) as [s1 o1] eqn:E. injection Hp as <- <-. by rewrite (Hfin _ _ _ _ E). }
  destruct (poll_fut s (task_fut t)) as [[s1 w]|] eqn:Hpf; [|done]. cbn [mbind outcome_bind] in Hp.
  assert (∃ new, queries_rx s1 = queries_rx s ++ new) as H1.
  { unfold poll_fut in Hpf. repeat case_match; simplify_eq; eauto using run_fut_rx. }
  destruct w as [w|]; [destruct (notified t); [|by injection Hp as <- <-]|];
    (destruct (finish_task s1 id t) as [s2 o2] eqn:E; injection Hp as <- <-; by rewrite (Hfin _ _ _ _ E)).
Qed.

Lemma patient_ok sys qf sch : rtc (tstep (λ _, False)) sys_new sys → next_event (rt sys) qf sch ≠ Panic.
Proof.
  intros H%sys_inv. unfold SysInv in H. unfold next_event. destruct (decide _); [by destruct (pop_query (rt sys))|].
  destruct qf.
  - destruct (pop_query (rt sys)) as [s1 [e|]] eqn:E; [done|]. apply (poll_query_inv _ _ _ _ _ E) in H.
    pose proof (poll_tasks_ok _ sch _ _ (λ _ x, x) H) as Hp. destruct (poll_tasks s1 sch) as [[s2 o]|]; [|done]. by destruct o.
  - pose proof (poll_tasks_ok _ sch _ _ (λ _ x, x) H) as Hp. destruct (poll_tasks (rt sys) sch) as [[s2 o]|]; [|done].
    cbn [mbind outcome_bind]. destruct o; [done|]. by destruct (pop_query s2) as [s3 [e|]].
Qed.

(** Whatever a test does, a task that waits for an answer has got it, or the test has dropped its query, or the very query it made
    is in the channel or in the hands of the test, once. *)
Theorem test_queries_accounted dropped sys id cx m c :
  rtc (tstep dropped) sys_new sys → waiting (rt sys) id cx m c →
  (slots (rt sys) !! c = Some Open ∧
   ∃ rest, queries_rx (rt sys) ++ omap event_query (held sys) ≡ₚ make_query cx m c :: rest ∧ c ∉ query_chan <$> rest) ∨
  (∃ x, slots (rt sys) !! c = Some (Sent x)) ∨
  (slots (rt sys) !! c = Some Dropped ∧ (is_quit (make_query cx m c) = true ∨ dropped (make_query cx m c))).
Proof.
  intros H%sys_inv Hw. unfold SysInv in H. destruct (inv_waiting _ _ _ H id cx m c Hw) as [[|x|] E].
  - left. split; [done|]. pose proof E as Hin. apply (inv_open _ _ _ H) in Hin. apply list_elem_of_fmap in Hin as (q & Hq & Hin).
    pose proof (inv_asked _ _ _ H id cx m c q Hw Hin (eq_sym Hq)) as Eq. rewrite <- Eq.
    apply elem_of_Permutation in Hin as [rest Hr]. exists rest. split; [done|].
    pose proof (inv_nodup _ _ _ H) as Hn. rewrite Hr, fmap_cons in Hn. apply NoDup_cons in Hn as [Hn _]. by rewrite Hq.
  - right. left. eauto.
  - right. right. split; [done|]. by eapply (inv_dropped _ _ _ H).
Qed.

(** C23: A test that answers the queries it takes, or stops the tasks of an actor that quits, never makes the runtime panic,
    however tasks are scheduled: the wait for an answer fails only if a query has been dropped. *)
Theorem patient_test_never_panics sys queries_first schedule :
  rtc (tstep (λ _, False)) sys_new sys → next_event (rt sys) queries_first schedule ≠ Panic.
Proof. apply patient_ok. Qed.

(** A task that is polled after its query has been resolved goes on with that answer, and the query resolved is the one it made. *)
Theorem answer_reaches_asker {K O} `{IntoSender K O, Out O, IntoQuery K} (kind : K) (o : O) dropped s h p id t f cx m :
  rtc (tstep dropped) sys_new (mkSys s h p) → EQuery (into_query kind) ∈ h →
  tasks s !! id = Some t → task_fut t = Waiting f cx m (query_chan (into_query kind)) →
  chan (into_sender kind) = query_chan (into_query kind) →
  into_query kind = make_query cx m (query_chan (into_query kind)) ∧
  poll_fut (resolve s kind o) (task_fut t) = Ret (run_fut (resolve s kind o) (resume_fut f (inject o))).
Proof.
  intros Hr%sys_inv Hh Ht Hf Hc. unfold SysInv in Hr. simpl in Hr. split.
  - apply (inv_asked _ _ _ Hr id); [by exists t, f | | done]. apply elem_of_app. right. apply list_elem_of_omap. by exists (EQuery (into_query kind)).
  - rewrite Hf. unfold poll_fut, resolve. simpl. by rewrite Hc, lookup_insert_eq.
Qed.

(** Events are taken in the order of the queries, and a poll with a query in the channel is ready. *)
Theorem next_event_ready s queries_first schedule s' p q rest :
  queries_rx s = q :: rest → next_event s queries_first schedule = Ret (s', p) →
  p = IsReady (Some (EQuery q)) ∨ ∃ o, p = IsReady (Some (Done o)).
Proof.
  intros Hq. unfold next_event. destruct (decide _).
  { unfold pop_query. rewrite Hq. intros [= <- <-]. auto. }
  assert (∀ sch s s' o, poll_tasks s sch = Ret (s', o) → ∃ new, queries_rx s' = queries_rx s ++ new) as Hrx.
  { clear. induction sch as [|[id b] sch IH]; intros s s' o Hp; [injection Hp as <- <-; exists []; by rewrite app_nil_r|].
    simpl in Hp. destruct (poll_task s id b) as [[s1 o1]|] eqn:E; [|done]. cbn [mbind outcome_bind] in Hp.
    assert (∃ new, queries_rx s1 = queries_rx s ++ new) as [new1 Hn1].
    { apply poll_task_rx in E. done. }
    destruct o1; [injection Hp as <- <-; eauto|]. apply IH in Hp as [new Hn]. exists (new1 ++ new). by rewrite Hn, Hn1, <- app_assoc. }
  destruct queries_first.
  - unfold pop_query. rewrite Hq. intros [= <- <-]. auto.
  - destruct (poll_tasks s schedule) as [[s2 o]|] eqn:E; [|done]. cbn [mbind outcome_bind]. destruct o; [intros [= <- <-]; eauto|].
    apply Hrx in E as [new Hn]. unfold pop_query. rewrite Hn, Hq. intros [= <- <-]. auto.
Qed.

(** The address of a fork that has ended stays taken until the actor's entry is removed. *)
Theorem fork_key_kept s key lease f s' id t s'' o :
  add_task s key lease f = (s', Ok tt) → actor key ≠ context key →
  finish_task s' id t = (s'', o) →
  ∀ lease' f', add_task s'' key lease' f' = (s'', Err (Duplicate (context key))).
Proof.
  intros Ha Hne Hf lease' f'. unfold add_task in Ha. destruct (Z.eqb_spec (actor key) (context key)) as [|_]; [done|].
  destruct (entries s !! actor key) as [entry|]; [|done]. case_decide; [done|]. injection Ha as <-.
  assert (entries s'' !! actor key = Some (mkEntry ({[context key]} ∪ forks entry) (actor_canceled entry) (actor_done entry))) as He.
  { unfold finish_task in Hf. destruct (task_kind t); injection Hf as <- <-; simpl; by rewrite lookup_insert_eq. }
  unfold add_task. rewrite He. destruct (Z.eqb_spec (actor key) (context key)); [done|]. cbn [forks].
  rewrite decide_True; [done|]. set_solver.
Qed.
End TestRt.

(** ** Example: an actor that receives one message and returns *)
Section Examples.
Definition ex_next (a : Z) : Next (R := unit) (Lease := unit) (WatchRef := Z) (Reason := string) (Duration := Z) (BindArgs := unit) (A := Z) :=
  if a =? 0 then Call (mkContext (key_actor 5) None) MRecv else Finished ExitUnit.
Definition ex_resume (a : Z)
  (x : Answer (Lease := unit) (WatchRef := Z) (ESpawn := unit) (EStart := unit) (EBind := unit) (ERecv := unit) (EFork := unit) (ESend := unit)) : Z :=
  a + 1.

Definition ExRt : Type := RuntimeShared (R := unit) (Lease := unit) (WatchRef := Z) (Reason := string) (Duration := Z) (ESpawn := unit) (EStart := unit)
  (EBind := unit) (ERecv := unit) (EFork := unit) (ESend := unit) (BindArgs := unit) (A := Z).
Definition ExQuery : Type := Query (R := unit) (Lease := unit) (WatchRef := Z) (Reason := string) (Duration := Z) (ESpawn := unit) (EStart := unit)
  (EBind := unit) (ERecv := unit) (EFork := unit) (ESend := unit) (BindArgs := unit) (A := Z).

Definition ex_rt0 : ExRt := (add_actor runtime_new 5 None 0).1.
Definition ex_poll (s : ExRt) : ExRt :=
  match next_event ex_next ex_resume s false [(0, true)] with Ret (s, _) => s | Panic => s end.
Definition ex_rt1 : ExRt := ex_poll ex_rt0.
Definition ex_recv : Recv (ERecv := unit) := mkRecv (key_actor 5) (mkSender 3).
Definition ex_rt2 : ExRt := resolve (H := recv_tx) (H0 := ARecv) ex_rt1 ex_recv (Err tt).
Definition ex_rt3 : ExRt := ex_poll ex_rt2.

Lemma ex_reach1 : rtc (tstep ex_next ex_resume (λ _, False)) sys_new (mkSys ex_rt1 [EQuery (QRecv ex_recv)] []).
Proof.
  eapply rtc_l; [exact (TAdd ex_next ex_resume (λ _, False) (key_actor 5) None (FActor (mkContext (key_actor 5) None) 0) runtime_new [] [])|].
  apply rtc_once. apply (TEvent ex_next ex_resume (λ _, False) ex_rt0 [] [] false [(0, true)] ex_rt1 (EQuery (QRecv ex_recv))).
  vm_compute. reflexivity.
Qed.

Lemma test_queries_accounted_witness :
  waiting ex_rt1 0 (mkContext (key_actor 5) None) MRecv 3 ∧
  ((slots ex_rt1 !! 3 = Some Open ∧
    ∃ rest : list ExQuery, [QRecv ex_recv] ≡ₚ QRecv ex_recv :: rest ∧ 3 ∉ query_chan <$> rest) ∨
   (∃ x, slots ex_rt1 !! 3 = Some (Sent x)) ∨
   (slots ex_rt1 !! 3 = Some Dropped ∧ (false = true ∨ False))).
Proof.
  assert (waiting ex_rt1 0 (mkContext (key_actor 5) None) MRecv 3) as Hw.
  { eexists _, _. split; vm_compute; reflexivity. }
  split; [exact Hw|].
  exact (test_queries_accounted ex_next ex_resume (λ _, False) (mkSys ex_rt1 [EQuery (QRecv ex_recv)] []) 0
    (mkContext (key_actor 5) None) MRecv 3 ex_reach1 Hw).
Defined.

Lemma patient_test_never_panics_witness :
  next_event ex_next ex_resume ex_rt3 true [(0, false)] ≠ Panic ∧
  ∃ q : ExQuery, queries_rx ex_rt3 = [] ∧ slots ex_rt3 !! 4 = Some Open ∧ q = QQuit (mkQuit (key_actor 5) (Ok tt) (mkSender 4)) ∧
    rtc (tstep ex_next ex_resume (λ _, False)) sys_new (mkSys ex_rt3 [EQuery q] []).
Proof.
  assert (rtc (tstep ex_next ex_resume (λ _, False)) sys_new
    (mkSys ex_rt3 [EQuery (QQuit (mkQuit (key_actor 5) (Ok tt) (mkSender 4)))] [])) as Hr.
  { eapply rtc_r; [eapply rtc_r; [exact ex_reach1|]|].
    - exact (TResolve ex_next ex_resume (λ _, False) (K := Recv) (O := result (Envelope AnyMessage) unit) (H := recv_tx) (H0 := ARecv) (H1 := QRecv)
        ex_recv (Err tt) ex_rt1 [] [] [] eq_refl).
    - apply (TEvent ex_next ex_resume (λ _, False) ex_rt2 [] [] false [(0, true)] ex_rt3). vm_compute. reflexivity. }
  split.
  - exact (patient_test_never_panics ex_next ex_resume (mkSys ex_rt3 _ []) true [(0, false)] Hr).
  - eexists. split; [reflexivity|]. split; [reflexivity|]. split; [reflexivity | exact Hr].
Defined.

Definition ex_fork : TaskKey := mkKey 5 6.
Definition ex_rt4 : ExRt := (add_task ex_rt0 ex_fork None (FTask 1)).1.

Definition ex_task : Task := mkTask ex_fork None (ForkTask 2) (Frozen : FutState (R := unit) (Lease := unit) (WatchRef := Z) (Reason := string)
  (Duration := Z) (BindArgs := unit) (A := Z)) true false.
Definition ex_rt5 : ExRt := (finish_task ex_rt4 3 ex_task).1.

Lemma fork_key_kept_witness : add_task ex_rt5 ex_fork None (FTask 1) = (ex_rt5, Err (Duplicate 6)).
Proof.
  refine (fork_key_kept ex_rt0 ex_fork None (FTask 1) ex_rt4 3 ex_task ex_rt5 (finish_task ex_rt4 3 ex_task).2 _ _ _ None (FTask 1)).
  - vm_compute. reflexivity.
  - discriminate.
  - vm_compute. reflexivity.
Defined.
End Examples.
