(* ===== verification/Connection.v ===== *)
(** * A connection to a peer (components/mm1-multinode/src/actors/iostream_connection.rs)

    The actor between the two ends of a stream: it tells the peer the distances of this node, takes the peer's
    declarations and distances to the manager, delivers or forwards the messages it receives, and writes those
    that are sent to its gateway address. *)

From stdpp Require Import strings.
From S2P Require Import Prelude U64 Address Subnet Collections Btree Routes Protocols Manager Wire Stream.

Open Scope Z_scope.

Section Connection.
Context `{bincode : Bincode} {SM : Type → Type} `{SlotMap SM} `{HashSetOrder}.
Context (type_name : TypeId → MessageName) (addr_hash : Address → Z).

(** ** Start-up *)

(** [inbound.iter().cloned().collect()] *)
Definition inbound_by_name_of (inbound : list (MessageName * LocalTypeKey)) : gmap MessageName LocalTypeKey :=
  foldl (λ m '(name, key), <[name := key]> m) ∅ inbound.

Definition find_codec (types : list Codec) (name : MessageName) : option Codec :=
  snd <$> list_find (λ c, codec_name type_name c = name) types.

(** The maps from keys to codecs, and from types to keys; a name without a codec, or an opaque one, is a panic. *)
Fixpoint inbound_by_lkey_of (p : Protocol (SM := SM)) (outbound : list (MessageName * LocalTypeKey)) : outcome (gmap LocalTypeKey Codec) :=
  match outbound with
  | [] => Ret ∅
  | (name, key) :: outbound =>
      codec ← expect (find_codec (inbound_types p) name);
      m ← inbound_by_lkey_of p outbound;
      Ret (if decide (key ∈ outbound.*2) then m else <[key := codec]> m)
  end.
Fixpoint outbound_by_type_id_of (p : Protocol (SM := SM)) (outbound : list (MessageName * LocalTypeKey)) : outcome (gmap TypeId LocalTypeKey) :=
  match outbound with
  | [] => Ret ∅
  | (name, key) :: outbound =>
      codec ← expect (find_codec (outbound_types p) name);
      tid ← expect (codec_tid codec);
      m ← outbound_by_type_id_of p outbound;
      Ret (if decide (is_Some (m !! tid)) then m else <[tid := key]> m)
  end.

(** The declarations of the connection's own types *)
Fixpoint declare_all (o : OutputWriter) (outbound : list (MessageName * LocalTypeKey)) : OutputWriter * result unit unit :=
  match outbound with
  | [] => (o, Ok tt)
  | (name, key) :: outbound =>
      match write_declare_type o key name with (o, Err e) => (o, Err e) | (o, Ok _) => declare_all o outbound end
  end.

(** ** Distances for the peer *)

(** [route_registry.find_route(..).map(|(_, m)| m).ok()] *)
Definition best_metric (reg : RouteRegistry (SM := SM)) (msg : LocalTypeKey) (probe : Address) : outcome (option RouteMetric) :=
  r ← find_route addr_hash reg msg probe; Ret match r with Ok (_, m) => Some m | Err _ => None end.

(** [handle_set_routes]; [named k] is the manager's answer for the name of a type that is not declared. *)
Fixpoint handle_set_routes (o : OutputWriter) (reg : RouteRegistry (SM := SM)) (own_gw : Address) (named : LocalTypeKey → result MessageName unit)
    (routes : list SetRoute) : outcome (OutputWriter * RouteRegistry (SM := SM) * result unit unit) :=
  match routes with
  | [] => Ret (o, reg, Ok tt)
  | sr :: routes =>
      range ← range_from_net (destination sr);
      let probe_address := lo range in
      metric_before ← best_metric reg (sr_message sr) probe_address;
      '(reg, r) ← set_route reg (sr_message sr) (destination sr) (via sr) (sr_metric sr);
      match r with
      | Err _ => Ret (o, reg, Err tt)
      | Ok _ =>
          metric_after ← best_metric reg (sr_message sr) probe_address;
          if negb (bool_decide (metric_after = metric_before)) && negb (bool_decide (via sr = Some own_gw))
          then match write_subnet_distance o sr (named (sr_message sr)) with
               | (o, Err e) => Ret (o, reg, Err e)
               | (o, Ok _) => handle_set_routes o reg own_gw named routes
               end
          else handle_set_routes o reg own_gw named routes
      end
  end.

(** ** The connection's state *)
Record Connection := mkConnection {
  output_writer : OutputWriter;
  conn_routes : RouteRegistry (SM := SM);
  type_key_map : gmap ForeignTypeKey LocalTypeKey;
}.

(** What does not change while it runs *)
Record ConnectionEnv := mkConnEnv {
  own_gw : Address;
  inbound_by_name : gmap MessageName LocalTypeKey;
  inbound_by_lkey : gmap LocalTypeKey Codec;
  conn_subnets : BTreeMap AddressRange unit;
}.

(** [run], between the handshake and the event loop *)
Definition connection_start (w : Writer) (resolved : ProtocolResolved (SM := SM)) (gw : Address) (named : LocalTypeKey → result MessageName unit)
    (routes : list SetRoute) (local_subnets : BTreeMap AddressRange unit) : outcome (Connection * ConnectionEnv * result unit unit) :=
  let by_name := inbound_by_name_of (inbound resolved) in
  by_lkey ← inbound_by_lkey_of (protocol resolved) (outbound resolved);
  by_tid ← outbound_by_type_id_of (protocol resolved) (outbound resolved);
  let env := mkConnEnv gw by_name by_lkey local_subnets in
  match declare_all (output_new w by_tid) (outbound resolved) with
  | (o, Err e) => Ret (mkConnection o registry_default ∅, env, Err e)
  | (o, Ok _) =>
      '(o, reg, r) ← handle_set_routes o registry_default gw named routes;
      Ret (mkConnection o reg ∅, env, r)
  end.

(** ** Messages *)
Inductive ConnOut :=
| TellManager (sr : SetRoute)
| Deliver (m : TransmitMessage) (codec : Codec) (body : list byte)
| SendForward (m : TransmitMessage) (key : LocalTypeKey) (body : list byte)
| ScheduleKeepAlive.

(** A message to the connection's own address, with the answers it depends on: whether the timer and the mailboxes take what is sent to
    them, the key of an opaque type, and which bodies a codec reads *)
Inductive ConnMsg :=
| KeepAliveTick (scheduled : bool)
| FromPeer (ev : Event) (registered : result LocalTypeKey unit) (told : bool) (decodes : Codec → list byte → bool)
| RouteUpdate (sr : SetRoute) (named : LocalTypeKey → result MessageName unit)
| Unexpected.

(** The arms of [handle_connection_actor_message] for the reports of the read loop; the sum of a distance overflows at 255. *)
Definition handle_event (env : ConnectionEnv) (c : Connection) (ev : Event) (registered : result LocalTypeKey unit) (told : bool)
    (decodes : Codec → list byte → bool) :
    outcome (Connection * list ConnOut * result unit unit) :=
  match ev with
  | EvDeclareType foreign_type_key name =>
      match type_key_map c !! foreign_type_key with
      | Some _ => Ret (c, [], Err tt)
      | None =>
          let insert key := mkConnection (output_writer c) (conn_routes c) (<[foreign_type_key := key]> (type_key_map c)) in
          match inbound_by_name env !! name with
          | Some key => Ret (insert key, [], Ok tt)
          | None => Ret match registered with Ok key => (insert key, [], Ok tt) | Err e => (c, [], Err e) end
          end
      end
  | EvSubnetDistance net_address type_handle metric =>
      match type_key_map c !! type_handle with
      | None => Ret (c, [], Err tt)
      | Some key =>
          m ← match metric with Some m => assert_ (m <? 255);; Ret (Some (m + 1)) | None => Ret None end;
          if (told : bool) then Ret (c, [TellManager (mkSetRoute key net_address (Some (own_gw env)) m)], Ok tt) else Ret (c, [], Err tt)
      end
  | EvReceived m body =>
      match type_key_map c !! (tm_type m : ForeignTypeKey) with
      | None => Ret (c, [], Err tt)
      | Some key =>
          range ← range_from_address (dst_address m);
          match bt_entry range_cmp (conn_subnets env) range with
          | Some _ =>
              match inbound_by_lkey env !! key with
              | None => Ret (c, [], Err tt)
              | Some codec => if decodes codec body then Ret (c, [Deliver m codec body], Ok tt) else Ret (c, [], Err tt)
              end
          | None => Ret (c, [SendForward m key body], Ok tt)
          end
      end
  end.

(** [handle_connection_actor_message] *)
Definition handle_connection_actor_message (env : ConnectionEnv) (c : Connection) (msg : ConnMsg) :
    outcome (Connection * list ConnOut * result unit unit) :=
  match msg with
  | KeepAliveTick scheduled =>
      let '(o, r) := write_keep_alive (output_writer c) in
      let c := mkConnection o (conn_routes c) (type_key_map c) in
      Ret match r with
          | Err e => (c, [], Err e)
          | Ok _ => (c, [ScheduleKeepAlive], if scheduled then Ok tt else Err tt)
          end
  | FromPeer ev registered told decodes => handle_event env c ev registered told decodes
  | RouteUpdate sr named =>
      '(o, reg, r) ← handle_set_routes (output_writer c) (conn_routes c) (own_gw env) named [sr];
      Ret (mkConnection o reg (type_key_map c), [], r)
  | Unexpected => Ret (c, [], Ok tt)
  end.

(** A message to the gateway's address: one that is being forwarded, or one of a type of this program *)
Inductive ToForward :=
| ForwardBody (key : LocalTypeKey) (body : list byte) (named : result MessageName unit)
| TypedMessage (tid : TypeId) (encoded : result (list byte) unit).

(** [handle_forward_actor_message] *)
Definition handle_forward_actor_message (c : Connection) (h : EnvelopeHeader) (m : ToForward) : outcome (Connection * result unit unit) :=
  '(o, r) ← match m with
    | ForwardBody key body named => Ret (write_opaque_message (output_writer c) h key body named)
    | TypedMessage tid encoded => write_known_message (output_writer c) h tid encoded
    end;
  Ret (mkConnection o (conn_routes c) (type_key_map c), r).

(** ** The peer understands what is written *)

(** What a connection that reads is answered: the key its manager gives an opaque type, whether the manager takes what is told of a
    distance, and which bodies a codec reads *)
Record Answers := mkAnswers {
  registers : MessageName → result LocalTypeKey unit;
  takes : Event → bool;
  decodes : Codec → list byte → bool;
}.

(** The reports of the read loop, handled in turn, up to the first error *)
Fixpoint handle_events (env : ConnectionEnv) (an : Answers) (c : Connection) (evs : list Event) :
    outcome (Connection * list ConnOut * result unit unit) :=
  match evs with
  | [] => Ret (c, [], Ok tt)
  | ev :: evs =>
      let name := match ev with EvDeclareType _ name => name | _ => EmptyString end in
      '(c, out, r) ← handle_event env c ev (registers an name) (takes an ev) (decodes an);
      match r with
      | Err e => Ret (c, out, Err e)
      | Ok _ => '(c, out', r) ← handle_events env an c evs; Ret (c, out ++ out', r)
      end
  end.

(** The key a type of this name has here *)
Definition reg_key (an : Answers) (name : MessageName) : LocalTypeKey := match registers an name with Ok key => key | Err _ => 0 end.
Definition local_key (env : ConnectionEnv) (an : Answers) (name : MessageName) : LocalTypeKey :=
  default (reg_key an name) (inbound_by_name env !! name).

Definition is_local (env : ConnectionEnv) (a : Address) : bool := bool_decide (is_Some (bt_entry range_cmp (conn_subnets env) (mkRange a a))).

(** What should come of a frame, its type referred to by name *)
Definition peer_out (env : ConnectionEnv) (an : Answers) (D : gmap LocalTypeKey MessageName) (s : Sent) : list ConnOut :=
  match s with
  | SKeepAlive | SDeclare _ _ => []
  | SDistance n k c =>
      match D !! k with
      | Some name => [TellManager (mkSetRoute (local_key env an name) n (Some (own_gw env)) ((λ m, m + 1) <$> c))]
      | None => []
      end
  | SMessage m body =>
      match D !! tm_type m with
      | Some name =>
          if is_local env (dst_address m)
          then match inbound_by_lkey env !! local_key env an name with Some codec => [Deliver m codec body] | None => [] end
          else [SendForward m (local_key env an name) body]
      | None => []
      end
  end.

(** The manager gives every type a key that the connection has none for, and takes every distance. *)
Definition manager_answers (env : ConnectionEnv) (an : Answers) : Prop :=
  (∀ name, inbound_by_name env !! name = None → ∃ key, registers an name = Ok key) ∧ ∀ ev, takes an ev = true.

(** A distance below the overflow, and a codec that reads the body of a message that is for this node *)
Definition acceptable (env : ConnectionEnv) (an : Answers) (D : gmap LocalTypeKey MessageName) (s : Sent) : Prop :=
  match s with
  | SDistance _ _ (Some c) => c < 255
  | SMessage m body => is_local env (dst_address m) = true → ∀ name, D !! tm_type m = Some name →
      ∃ codec, inbound_by_lkey env !! local_key env an name = Some codec ∧ decodes an codec body = true
  | _ => True
  end.

(** The keys of the peer, as this side knows them *)
Definition keys_known (env : ConnectionEnv) (an : Answers) (D : gmap LocalTypeKey MessageName) (c : Connection) : Prop :=
  type_key_map c = local_key env an <$> D.

Lemma keys_known_lookup env an D c (k : ForeignTypeKey) : keys_known env an D c →
  type_key_map c !! k = local_key env an <$> (D !! (k : LocalTypeKey)).
Proof. intros Hk. rewrite Hk. apply lookup_fmap. Qed.
Lemma keys_known_Some env an D c (k : LocalTypeKey) name : keys_known env an D c → D !! k = Some name →
  type_key_map c !! (k : ForeignTypeKey) = Some (local_key env an name).
Proof. intros Hk Hn. by rewrite (keys_known_lookup env an D c k Hk), Hn. Qed.

Lemma handle_sent_ok env an D c s : manager_answers env an → keys_known env an D c → refers_ok D s → acceptable env an D s →
  match sent_event s with
  | None => declared_after D s = D ∧ peer_out env an D s = []
  | Some ev => ∃ c', handle_event env c ev (registers an (match ev with EvDeclareType _ name => name | _ => EmptyString end)) (takes an ev) (decodes an) =
      Ret (c', peer_out env an D s, Ok tt) ∧ keys_known env an (declared_after D s) c'
  end.
Proof.
  intros [Hreg Htk] Hk Hr Ha. destruct s as [|k name|n k m|m body]; cbn [sent_event declared_after peer_out refers_ok acceptable] in *; [done|..].
  - cbn [handle_event]. rewrite (keys_known_lookup env an D) by done. rewrite Hr. cbn [fmap option_fmap option_map].
    assert (Hi : ∀ c', type_key_map c' = <[k := local_key env an name]> (type_key_map c) → keys_known env an (<[k := name]> D) c').
    { unfold keys_known in *. intros c' ->. rewrite Hk. symmetry. apply fmap_insert. }
    unfold local_key, reg_key in Hi. destruct (inbound_by_name env !! name) as [key|] eqn:En; [eexists; split; [done|]; by apply Hi|].
    destruct (Hreg name En) as [key Ek]. rewrite Ek in Hi |- *. eexists. split; [done|]. by apply Hi.
  - destruct Hr as [name Hn]. cbn [handle_event]. rewrite (keys_known_Some env an D c k name Hk Hn).
    rewrite Hn, Htk. cbn. destruct m as [m|]; cbn; [|eauto].
    rewrite (proj2 (Z.ltb_lt m 255)) by done. cbn. eauto.
  - destruct Hr as [name Hn]. cbn [handle_event]. rewrite (keys_known_Some env an D c (tm_type m) name Hk Hn).
    rewrite Hn. cbn. unfold range_from_address, range_new. rewrite Z.leb_refl. cbn.
    unfold is_local in *. destruct (bt_entry range_cmp (conn_subnets env) (mkRange (dst_address m) (dst_address m))) as [e|] eqn:El.
    + rewrite bool_decide_true in * by (by eexists). destruct (Ha eq_refl _ Hn) as (codec & Hc & Hd). rewrite Hc, Hd. eauto.
    + rewrite bool_decide_false by (by intros [? ?]). eauto.
Qed.

(** A type that is declared keeps its name. *)
Lemma well_declared_mono D ss : well_declared D ss → D ⊆ foldl declared_after D ss.
Proof.
  revert D. induction ss as [|s ss IH]; intros D; cbn; [done|]. intros [Hr Hw]. etrans; [|by apply IH].
  destruct s; cbn in *; try done. by apply insert_subseteq.
Qed.

Lemma peer_out_mono env an D D' s : D ⊆ D' → refers_ok D s → peer_out env an D s = peer_out env an D' s.
Proof.
  intros Hs. destruct s as [|k name|n k m|m body]; cbn; try done; intros [name Hn]; rewrite Hn; by rewrite (lookup_weaken _ _ _ _ Hn Hs).
Qed.

Lemma handle_events_ok env an ss D c : manager_answers env an → keys_known env an D c → well_declared D ss →
  Forall (acceptable env an (foldl declared_after D ss)) ss →
  ∃ c', handle_events env an c (omap sent_event ss) = Ret (c', ss ≫= peer_out env an (foldl declared_after D ss), Ok tt) ∧
    keys_known env an (foldl declared_after D ss) c'.
Proof.
  intros Hm. revert D c. induction ss as [|s ss IH]; intros D c Hk Hw Hacc; [by exists c|].
  pose proof (well_declared_mono D (s :: ss) Hw) as Hmono. cbn [foldl well_declared] in *. destruct Hw as [Hr Hw]. apply Forall_cons in Hacc as [Ha Hacc].
  set (Df := foldl declared_after (declared_after D s) ss) in *. rewrite bind_cons, <- (peer_out_mono env an D Df s Hmono Hr).
  assert (Ha' : acceptable env an D s).
  { destruct s as [| |? ? []|m body]; cbn in *; try done. intros Hl name Hn. apply (Ha Hl). by eapply lookup_weaken. }
  pose proof (handle_sent_ok env an D c s Hm Hk Hr Ha') as Hs. cbn [omap list_omap]. destruct (sent_event s) as [ev|].
  - destruct Hs as (c1 & E1 & Hk1). destruct (IH _ c1 Hk1 Hw Hacc) as (c2 & E2 & Hk2). exists c2. split; [|done].
    cbn [handle_events]. rewrite E1. cbn [mbind outcome_bind]. rewrite E2. done.
  - destruct Hs as [HD ->]. rewrite HD in Hw. destruct (IH D c Hk Hw) as (c2 & E2 & Hk2); unfold Df in *; rewrite HD in *; [done|]. exists c2. done.
Qed.

Lemma peer_handles w outbound ops o env an c0 : Forall (op_args outbound) ops →
  write_ops (output_new w outbound) ops = Ret (o, Ok tt) → Forall (acceptable env an (declared_types o)) (ops_send ∅ outbound ops) →
  manager_answers env an → type_key_map c0 = ∅ →
  ∃ bytes fuel tells evs c, written (io_w o) = written w ++ bytes ∧ read_loop fuel tells bytes = (evs, ReadFailed) ∧
    handle_events env an c0 evs = Ret (c, ops_send ∅ outbound ops ≫= peer_out env an (declared_types o), Ok tt).
Proof.
  intros Ha He Hacc Hm Hc0.
  destruct (write_ops_ok ops (output_new w outbound) o Ha He) as (Hb & Hs & Hwd & Hd & _). cbn [declared_types output_new outbound_by_type_id io_w] in *.
  set (ss := ops_send ∅ outbound ops) in *. exists (stream_bytes ss), (length ss + 1)%nat, (length (omap sent_event ss) + 0)%nat, (omap sent_event ss).
  rewrite Hd in Hacc. destruct (handle_events_ok env an ss ∅ c0 Hm) as (c & E & _); [|done|done|].
  { unfold keys_known. by rewrite fmap_empty. }
  exists c. split; [done|]. split; [|by rewrite Hd]. rewrite <- (app_nil_r (stream_bytes ss)), read_loop_stream by done.
  assert (E0 : read_loop 1 0 [] = ([], ReadFailed)) by done. rewrite E0. by rewrite app_nil_r.
Qed.

(** The two ends of a connection together: whatever one side writes without an error, the other reads and handles without an error, if its
    manager answers, no distance is 255, and it has a codec that reads each message for its own subnets. No
    type is unknown to it or declared twice; every distance is told to its manager, one further and for the type of the same name; every
    message is delivered, if it is for a subnet of the node, or sent on under the key its type has here, with its body as it was. *)
Theorem peer_understands w outbound ops o env an routes (Ha : Forall (op_args outbound) ops) (Hw : written w = [])
  (He : write_ops (output_new w outbound) ops = Ret (o, Ok tt))
  (Hacc : Forall (acceptable env an (declared_types o)) (ops_send ∅ outbound ops)) (Hm : manager_answers env an) :
  ∃ fuel tells evs c, read_loop fuel tells (written (io_w o)) = (evs, ReadFailed) ∧
    handle_events env an (mkConnection (output_new w outbound) routes ∅) evs =
      Ret (c, ops_send ∅ outbound ops ≫= peer_out env an (declared_types o), Ok tt).
Proof.
  destruct (peer_handles w outbound ops o env an (mkConnection (output_new w outbound) routes ∅)) as (bytes & fuel & tells & evs & c & -> & Hp); [done..|].
  rewrite Hw. by exists fuel, tells, evs, c.
Qed.

(** ** What the peer is told of the routes *)
Section Plan.
Context (plan : NetAddress → Prop) `{!AddressPlan plan}.

Lemma best_metric_ok reg n msg : routes_ok plan reg → plan n → ∃ m, best_metric reg msg (lo (net_range n)) = Ret m.
Proof.
  intros Hr Hn. destruct (plan_range plan n Hn) as (_ & _ & Hok). unfold best_metric.
  destruct (find_route_ok plan addr_hash reg n msg (lo (net_range n)) Hr Hn) as [[r ->] _]; [|cbn; eauto].
  apply net_range_contains. unfold range_contains. unfold range_ok in Hok. cbn in *. lia.
Qed.

(** The distances written for a list of routes *)
Definition tell_ops (named : LocalTypeKey → result MessageName unit) (told : list SetRoute) : list WriteOp :=
  (λ sr, WSubnetDistance sr (named (sr_message sr))) <$> told.

Lemma handle_set_routes_ok o reg gw named routes : routes_ok plan reg → Forall (set_route_ok_args plan) routes →
  ∃ o' reg' r told, handle_set_routes o reg gw named routes = Ret (o', reg', r) ∧ routes_ok plan reg' ∧
    told `sublist_of` routes ∧ Forall (λ sr, via sr ≠ Some gw) told ∧ write_ops o (tell_ops named told) = Ret (o', r) ∧
    (r = Ok tt → ∀ g n k, plan n → route_of reg' g n k = foldl (route_effect g n k) (route_of reg g n k) routes).
Proof.
  revert o reg. induction routes as [|sr routes IH]; intros o reg Hr Ha; [by eexists o, reg, _, []|].
  apply Forall_cons in Ha as [[Hn Hc] Ha]. cbn [handle_set_routes].
  destruct (plan_range plan _ Hn) as (-> & _ & _). cbn [mbind outcome_bind].
  destruct (best_metric_ok reg _ (sr_message sr) Hr Hn) as [before ->]. cbn [mbind outcome_bind].
  destruct (set_route_ok plan reg (sr_message sr) _ (via sr) (sr_metric sr) Hr Hn Hc) as (reg1 & -> & Hr1 & Ht). cbn [mbind outcome_bind].
  destruct (best_metric_ok reg1 _ (sr_message sr) Hr1 Hn) as [after ->]. cbn [mbind outcome_bind].
  assert (Hfold : ∀ reg', (∀ g n k, plan n → route_of reg' g n k = foldl (route_effect g n k) (route_of reg1 g n k) routes) →
    ∀ g n k, plan n → route_of reg' g n k = foldl (route_effect g n k) (route_of reg g n k) (sr :: routes)).
  { intros reg' Hf g n k Hpn. rewrite Hf by done. cbn [foldl]. unfold route_effect. by rewrite Ht. }
  destruct (negb (bool_decide (after = before)) && negb (bool_decide (via sr = Some gw))) eqn:Eb.
  - apply andb_true_iff in Eb as [_ Eb]. apply negb_true_iff, bool_decide_eq_false in Eb.
    destruct (write_subnet_distance o sr (named (sr_message sr))) as [o1 [[]|e]] eqn:Ew.
    + destruct (IH o1 reg1 Hr1 Ha) as (o' & reg' & r & told & E & Hr' & Hs & Hv & Hw & Hf).
      exists o', reg', r, (sr :: told). split_and!; [done|done|by constructor|by constructor| |auto].
      cbn [tell_ops fmap list_fmap write_ops write_op]. rewrite Ew. exact Hw.
    + exists o1, reg1, (Err e), [sr]. split_and!; [done|done|apply sublist_skip, sublist_nil_l|by repeat constructor| |done].
      cbn [tell_ops fmap list_fmap write_ops write_op]. by rewrite Ew.
  - destruct (IH o reg1 Hr1 Ha) as (o' & reg' & r & told & E & Hr' & Hs & Hv & Hw & Hf).
    exists o', reg', r, told. split_and!; [done|done|by constructor|done|done|auto].
Qed.

(** Under an address plan a connection takes the manager's routes without a panic: its own table becomes the manager's, one entry
    per route, and all that is written is the distances of some of those routes, in their order and each with its type declared first,
    but never that of a route through the connection itself (split horizon). *)
Theorem split_horizon o reg gw named routes (Hr : routes_ok plan reg) (Ha : Forall (set_route_ok_args plan) routes) :
  ∃ o' reg' r told, handle_set_routes o reg gw named routes = Ret (o', reg', r) ∧ routes_ok plan reg' ∧
    told `sublist_of` routes ∧ Forall (λ sr, via sr ≠ Some gw) told ∧ write_ops o (tell_ops named told) = Ret (o', r) ∧
    (r = Ok tt → ∀ g n k, plan n → route_of reg' g n k = foldl (route_effect g n k) (route_of reg g n k) routes).
Proof. by apply handle_set_routes_ok. Qed.

End Plan.

End Connection.

(** ** Examples *)
Section Examples.
#[local] Existing Instance fixed_bincode.
#[local] Existing Instance gmap_slot_map.
#[local] Existing Instance elements_order.
#[local] Existing Instance two_nets_plan.

(** The peer knows [app::Ping] and serves [west]. *)
Definition peer_env : ConnectionEnv := mkConnEnv 200 {["app::Ping" := 3]} {[3 := Known 1]} [(net_range west, tt)].

(** A manager that gives every type it is asked for the key 40, and codecs that read everything *)
Definition ex_answers : Answers := mkAnswers (λ _, Ok 40) (λ _, true) (λ _ _, true).

Definition three_written : OutputWriter :=
  match write_ops (output_new (mkWriter [] 1000) {[1 := 7]}) three_ops with Ret (o, _) => o | Panic => output_new (mkWriter [] 0) ∅ end.

Lemma peer_understands_witness : ∃ c evs, write_ops (output_new (mkWriter [] 1000) {[1 := 7]}) three_ops = Ret (three_written, Ok tt) ∧
  handle_events (SM := gmap Z) peer_env ex_answers (mkConnection (output_new (mkWriter [] 1000) {[1 := 7]}) registry_default ∅) evs =
    Ret (c, [TellManager (mkSetRoute 40 west (Some 200) (Some 1)); Deliver (mkTransmit (2 ^ 48 + 9) 7 3 1 3 7 false) (Known 1) [1; 2; 3]], Ok tt).
Proof.
  destruct (peer_understands (SM := gmap Z) (mkWriter [] 1000) {[1 := 7]} three_ops three_written peer_env ex_answers registry_default)
    as (fuel & tells & evs & c & _ & E).
  - repeat constructor; cbn; unfold u64_ok, u8_ok; lia || reflexivity.
  - reflexivity.
  - vm_compute; reflexivity.
  - assert (E : ops_send ∅ {[1 := 7]} three_ops = [SDeclare 7 "app::Ping"; SDeclare 9 "app::Pong"; SDistance west 9 (Some 0);
      SMessage (mkTransmit (2 ^ 48 + 9) 7 3 1 3 7 false) [1; 2; 3]]) by (vm_compute; reflexivity).
    rewrite E. repeat (constructor; try done). cbn. intros _ name Hn.
    assert (E7 : declared_types three_written !! 7 = Some "app::Ping") by (vm_compute; reflexivity).
    pose proof (eq_trans (eq_sym E7) Hn) as [= <-]. by exists (Known 1).
  - split; [by eexists | done].
  - exists c, evs. split; [vm_compute; reflexivity|]. rewrite E. vm_compute. reflexivity.
Defined.

Definition via_peer : SetRoute := mkSetRoute 7 west (Some 100) (Some 2).
Definition via_us : SetRoute := mkSetRoute 7 west (Some 200) (Some 1).
Definition named_ping (k : LocalTypeKey) : result MessageName unit := Ok "app::Ping".
Definition fresh_writer : OutputWriter := output_new (mkWriter [] 1000) ∅.

Lemma split_horizon_witness : ∃ o' reg' r told,
  handle_set_routes (SM := gmap Z) no_hash fresh_writer registry_default 200 named_ping [via_peer; via_us] = Ret (o', reg', r) ∧
  told `sublist_of` [via_peer; via_us] ∧ Forall (λ sr, via sr ≠ Some 200) told.
Proof.
  destruct (split_horizon (SM := gmap Z) no_hash two_nets fresh_writer registry_default 200 named_ping [via_peer; via_us])
    as (o' & reg' & r & told & E & _ & Hs & Hv & _).
  - apply (routes_default two_nets).
  - repeat constructor; try (by left); cbn; lia || naive_solver lia.
  - exists o', reg', r, told. split; [exact E|]. split; [exact Hs|exact Hv].
Defined.

Definition told (routes : list SetRoute) : outcome (OutputWriter * RouteRegistry (SM := gmap Z) * result unit unit) :=
  handle_set_routes no_hash fresh_writer registry_default 200 named_ping routes.

(** When the best of two routes is withdrawn, the peer is told that the net cannot be reached, although the other route remains. *)
Theorem withdrawal_hides_route : ∃ o reg,
  told [mkSetRoute 7 west (Some 100) (Some 1); mkSetRoute 7 west (Some 101) (Some 2); mkSetRoute 7 west (Some 100) None] = Ret (o, reg, Ok tt) ∧
  write_ops fresh_writer (tell_ops named_ping [mkSetRoute 7 west (Some 100) (Some 1); mkSetRoute 7 west (Some 100) None]) = Ret (o, Ok tt) ∧
  route_of reg (Some 101) west 7 = Some 2.
Proof. eexists _, _. vm_compute. done. Qed.

(** A first route to [west] is not reported when [east], the next net, already is at the same distance. *)
Theorem route_unreported : ∃ o reg,
  told [mkSetRoute 7 east (Some 100) (Some 1); mkSetRoute 7 west (Some 100) (Some 1)] = Ret (o, reg, Ok tt) ∧
  write_ops fresh_writer (tell_ops named_ping [mkSetRoute 7 east (Some 100) (Some 1)]) = Ret (o, Ok tt) ∧
  route_of reg (Some 100) west 7 = Some 1.
Proof. eexists _, _. vm_compute. done. Qed.

(** A distance of 255 from the peer overflows. *)
Theorem distance_overflows net :
  handle_event (SM := gmap Z) peer_env (mkConnection fresh_writer registry_default {[7 := 3]}) (EvSubnetDistance net 7 (Some 255)) (Ok 0) true (λ _ _, true) = Panic.
Proof. reflexivity. Qed.

End Examples.
