(* ===== verification/Remote.v ===== *)
(** * From one node to the next
    (components/mm1-multinode/src/actors/iostream_connection.rs, [run] and [event_loop])

    The whole life of a connection, from its start through its event loop, in which messages to its own address and to its
    gateway's address are handled as they come; and the composition of a connection, its stream and the connection of the peer:
    what is sent to the gateway on one node comes out on the other. *)

From stdpp Require Import strings.
From S2P Require Import Prelude U64 Address Subnet Collections Btree Routes Protocols Manager Wire Stream Connection.

Open Scope Z_scope.

Section Remote.
Context {SM : Type → Type} `{SlotMap SM} `{HashSetOrder} `{bincode : Bincode} {BM : Type} `{!BiMap MessageName Z BM}.
Context (type_name : TypeId → MessageName) (addr_hash : Address → Z).

(** What the two receives of the event loop yield *)
Inductive LoopInput :=
| ToConnection (m : ConnMsg)
| ToGateway (h : EnvelopeHeader) (m : ToForward)
| RecvFailed.

(** One turn of [event_loop] *)
Definition loop_turn (env : ConnectionEnv) (c : Connection (SM := SM)) (i : LoopInput) :
    outcome (Connection (SM := SM) * list ConnOut * result unit unit) :=
  match i with
  | ToConnection m => handle_connection_actor_message addr_hash env c m
  | ToGateway h m => '(c, r) ← handle_forward_actor_message c h m; Ret (c, [], r)
  | RecvFailed => Ret (c, [], Err tt)
  end.

Fixpoint loop_turns (env : ConnectionEnv) (c : Connection (SM := SM)) (inputs : list LoopInput) :
    outcome (Connection (SM := SM) * list ConnOut * result unit unit) :=
  match inputs with
  | [] => Ret (c, [], Ok tt)
  | i :: inputs =>
      '(c, out, r) ← loop_turn env c i;
      match r with
      | Err e => Ret (c, out, Err e)
      | Ok _ => '(c, out', r) ← loop_turns env c inputs; Ret (c, out ++ out', r)
      end
  end.

(** [event_loop]: it first sends itself a tick. *)
Definition event_loop (env : ConnectionEnv) (c : Connection (SM := SM)) (ticked : bool) (inputs : list LoopInput) :
    outcome (Connection (SM := SM) * list ConnOut * result unit unit) :=
  if ticked then loop_turns env c inputs else Ret (c, [], Err tt).

(** [run] once the routes are known: tables, declarations, the first distances, the subnets of the node, the event loop *)
Definition connection_run (w : Writer) (resolved : ProtocolResolved (SM := SM)) (gw : Address) (named : LocalTypeKey → result MessageName unit)
    (routes : list SetRoute) (subnets : option (BTreeMap AddressRange unit)) (ticked : bool) (inputs : list LoopInput) :
    outcome (Connection (SM := SM) * list ConnOut * result unit unit) :=
  '(c, env, r) ← connection_start type_name addr_hash w resolved gw named routes (default [] subnets);
  match r, subnets with
  | Err e, _ => Ret (c, [], Err e)
  | Ok _, None => Ret (c, [], Err tt)
  | Ok _, Some _ => event_loop env c ticked inputs
  end.

(** What the calls of [run] to other parts of the node give: the timer, the forks of the context, the manager's answers, the message to itself *)
Record RunEnv := mkRunEnv {
  timer_created : bool;
  gw_forked : option Address;
  reader_forked : bool;
  subscribed : option (list SetRoute);
  writer_forked : bool;
  name_answers : LocalTypeKey → result MessageName unit;
  subnets_told : option (BTreeMap AddressRange unit);
  self_ticked : bool;
}.

Inductive RunError := TimerFailed | ForkFailed | ReduceFailed | HelloFailed | SubscribeFailed.

(** [run], after it has acknowledged its start. Either it fails before it is set up, or it reads the rest of the stream in a task of its own
    and has got as far as its inputs take it. *)
Definition run (e : RunEnv) (w : Writer) (io : list byte) (authc : AuthcConfig) (ps : list (ProtocolResolved (SM := SM))) (inputs : list LoopInput) :
    outcome (result (list byte * Connection (SM := SM) * list ConnOut * result unit unit) RunError) :=
  if negb (timer_created e) then Ret (Err TimerFailed) else
  match gw_forked e with
  | None => Ret (Err ForkFailed)
  | Some gw =>
      if negb (reader_forked e) then Ret (Err ForkFailed) else
      reduced ← reduce type_name (BM := BM) ps;
      match reduced with
      | Err _ => Ret (Err ReduceFailed)
      | Ok resolved =>
          match hello_run w io authc with
          | (_, Err _) => Ret (Err HelloFailed)
          | (w, Ok rest) =>
              match subscribed e with
              | None => Ret (Err SubscribeFailed)
              | Some routes =>
                  (* the tables are made before the writer's fork *)
                  _ ← inbound_by_lkey_of type_name (protocol resolved) (outbound resolved);
                  _ ← outbound_by_type_id_of type_name (protocol resolved) (outbound resolved);
                  if negb (writer_forked e) then Ret (Err ForkFailed) else
                  '(c, out, r) ← connection_run w resolved gw (name_answers e) routes (subnets_told e) (self_ticked e) inputs;
                  Ret (Ok (rest, c, out, r))
              end
          end
      end
  end.

(** ** What a connection writes is a sequence of the writer's operations *)
Lemma write_ops_app o ops ops' :
  write_ops o (ops ++ ops') = ('(o, r) ← write_ops o ops; match r with Ok _ => write_ops o ops' | Err e => Ret (o, Err e) end).
Proof.
  revert o. induction ops as [|op ops IH]; intros o; [done|]. cbn [app write_ops]. destruct (write_op o op) as [[o1 [[]|[]]]|]; cbn [mbind outcome_bind]; auto.
Qed.

Definition declare_ops (outbound : list (MessageName * LocalTypeKey)) : list WriteOp := (λ d, WDeclareType d.2 d.1) <$> outbound.

Lemma declare_all_ops o outbound o' r : declare_all o outbound = (o', r) → write_ops o (declare_ops outbound) = Ret (o', r).
Proof.
  revert o. induction outbound as [|[name key] outbound IH]; intros o; cbn; [by intros [= <- <-]|].
  destruct (write_declare_type o key name) as [o1 [[]|e]]; [apply IH | by intros [= <- <-]].
Qed.

Lemma set_routes_ops o reg gw named routes o' reg' :
  handle_set_routes addr_hash o reg gw named routes = Ret (o', reg', Ok tt) →
  ∃ told, told `sublist_of` routes ∧ write_ops o (tell_ops named told) = Ret (o', Ok tt).
Proof.
  revert o reg. induction routes as [|sr routes IH]; intros o reg E; cbn [handle_set_routes] in E; [injection E as <- <-; by exists []|].
  apply bind_Ret_inv in E as (range & _ & E). apply bind_Ret_inv in E as (before & _ & E). apply bind_Ret_inv in E as ([reg1 r1] & _ & E).
  destruct r1; [|done]. apply bind_Ret_inv in E as (after & _ & E). destruct (_ && _).
  - destruct (write_subnet_distance o sr (named (sr_message sr))) as [o1 [[]|e]] eqn:Ew; [|done].
    apply IH in E as (told & Hs & Hw). exists (sr :: told). split; [by constructor|]. cbn. by rewrite Ew.
  - apply IH in E as (told & Hs & Hw). exists told. split; [by constructor | done].
Qed.

(** The operations an input leads to *)
Definition input_ops (i : LoopInput) (ops : list WriteOp) : Prop :=
  match i with
  | ToConnection (KeepAliveTick _) => ops = [WKeepAlive]
  | ToConnection (RouteUpdate sr named) => ops = [] ∨ ops = [WSubnetDistance sr (named (sr_message sr))]
  | ToGateway h (ForwardBody key body named) => ops = [WOpaque h key body named]
  | ToGateway h (TypedMessage tid encoded) => ops = [WKnown h tid encoded]
  | _ => ops = []
  end.

Lemma write_op_one o op o' : write_op o op = Ret (o', Ok tt) → write_ops o [op] = Ret (o', Ok tt).
Proof. intros E. cbn [write_ops]. by rewrite E. Qed.

Lemma loop_turn_ops env c i c' out :
  loop_turn env c i = Ret (c', out, Ok tt) → ∃ ops, write_ops (output_writer c) ops = Ret (output_writer c', Ok tt) ∧ input_ops i ops.
Proof.
  destruct i as [[scheduled|ev registered told decodes|sr named|]|h [key body named|tid encoded]|]; cbn [loop_turn handle_connection_actor_message handle_forward_actor_message].
  - destruct (write_keep_alive (output_writer c)) as [o [[]|]] eqn:E; [|done]. intros [= <- _ _]. exists [WKeepAlive]. split; [|done].
    apply write_op_one. cbn. by rewrite E.
  - intros E. exists []. split; [|done]. cbn. do 2 f_equal. symmetry.
    assert (output_writer c' = output_writer c) as ->; [|done].
    unfold handle_event in E. destruct ev; repeat (case_match; try done); try (apply bind_Ret_inv in E as (? & _ & E)); repeat (case_match; try done);
      by injection E as <-.
  - intros E. apply bind_Ret_inv in E as ([[o reg] r] & E & Er). injection Er as <- _ ->.
    apply set_routes_ops in E as (told & Hs & Hw). exists (tell_ops named told). split; [done|]. cbn.
    apply sublist_cons_r in Hs as [Hs|(l & -> & Hs)]; [left | right]; apply sublist_nil_r in Hs as ->; done.
  - intros [= <- _]. by exists [].
  - intros E. apply bind_Ret_inv in E as ([c1 r1] & E & [= <- _ ->]). unfold handle_forward_actor_message in E. apply bind_Ret_inv in E as ([o r] & E & [= <- ->]).
    exists [WOpaque h key body named]. split; [|done]. by apply write_op_one.
  - intros E. apply bind_Ret_inv in E as ([c1 r1] & E & [= <- _ ->]). unfold handle_forward_actor_message in E. apply bind_Ret_inv in E as ([o r] & E & [= <- ->]).
    exists [WKnown h tid encoded]. split; [|done]. by apply write_op_one.
  - done.
Qed.

Lemma loop_turns_ops env inputs c c' out :
  loop_turns env c inputs = Ret (c', out, Ok tt) →
  ∃ opss, write_ops (output_writer c) (concat opss) = Ret (output_writer c', Ok tt) ∧ Forall2 input_ops inputs opss.
Proof.
  revert c out. induction inputs as [|i inputs IH]; intros c out E; cbn [loop_turns] in E; [injection E as <- _; by exists []|].
  apply bind_Ret_inv in E as ([[c1 out1] r1] & E1 & E). destruct r1 as [[]|]; [|done].
  apply bind_Ret_inv in E as ([[c2 out2] r2] & E2 & [= <- _ ->]). apply loop_turn_ops in E1 as (ops & Hw & Hi). apply IH in E2 as (opss & Hw2 & Hf).
  exists (ops :: opss). split; [|by constructor]. cbn [concat]. rewrite write_ops_app, Hw. done.
Qed.

(** Writing leaves the table of types alone. *)
Lemma declare_outbound o k named o' r : declare_if_vacant o k named = (o', r) → outbound_by_type_id o' = outbound_by_type_id o.
Proof.
  unfold declare_if_vacant. destruct (declared_types o !! k); [by intros [= <- _]|]. destruct named; [|by intros [= <- _]].
  destruct (do_write_declare_type _ _ _) as [w' []]; by intros [= <- _].
Qed.

Lemma write_message_outbound o h ttl k body o' r : write_message o h ttl k body = (o', r) → outbound_by_type_id o' = outbound_by_type_id o.
Proof. unfold write_message. destruct (decide _); [|by intros [= <- _]]. destruct (write_framed _ _ _). by intros [= <- _]. Qed.

Lemma write_op_outbound o op o' r : write_op o op = Ret (o', r) → outbound_by_type_id o' = outbound_by_type_id o.
Proof.
  destruct op as [|k name|sr named|h tid encoded|h k body named]; cbn [write_op].
  - unfold write_keep_alive. destruct (write_header _ _). by intros [= <- _].
  - unfold write_declare_type. destruct (declared_types o !! k); [by intros [= <- _]|]. destruct (do_write_declare_type _ _ _) as [w' []]; by intros [= <- _].
  - unfold write_subnet_distance. destruct (declare_if_vacant o (sr_message sr) named) as [o1 r1] eqn:E. apply declare_outbound in E.
    destruct r1; [|intros [= <- _]; done]. destruct (do_write_subnet_distance _ _ _ _). intros [= <- _]. done.
  - unfold write_known_message. destruct (_ =? _); [by intros [= <- _]|]. destruct (_ !! tid); [|by intros [= <- _]].
    intros E. apply bind_Ret_inv in E as (u & _ & E). destruct encoded; [|by injection E as <- _]. injection E as E. by apply write_message_outbound in E.
  - unfold write_opaque_message. destruct (_ =? _); [by intros [= <- _]|]. destruct (declare_if_vacant o k named) as [o1 r1] eqn:E. apply declare_outbound in E.
    destruct r1; [|intros [= <- _]; done]. intros [= E1]. apply write_message_outbound in E1. congruence.
Qed.

Lemma write_ops_outbound ops o o' r : write_ops o ops = Ret (o', r) → outbound_by_type_id o' = outbound_by_type_id o.
Proof.
  revert o. induction ops as [|op ops IH]; intros o E; cbn in E; [by injection E as <- _|].
  apply bind_Ret_inv in E as ([o1 r1] & E1%write_op_outbound & E). destruct r1; [apply IH in E; congruence | by injection E as <- _].
Qed.

(** ** The messages among what is written *)
Definition sent_message (x : Sent) : option (TransmitMessage * list byte) := match x with SMessage m body => Some (m, body) | _ => None end.
Definition out_message (o : ConnOut) : option (TransmitMessage * list byte) :=
  match o with Deliver m _ body | SendForward m _ body => Some (m, body) | _ => None end.

(** A message as it goes over the wire: one hop less to live *)
Definition on_wire (h : EnvelopeHeader) (k : LocalTypeKey) (body : list byte) : TransmitMessage * list byte :=
  (mkTransmit (eh_to h) k (eh_trace_id h) (eh_no h) (Z.of_nat (length body)) (eh_ttl h - 1) (eh_priority h), body).

Definition op_message (outbound : gmap TypeId LocalTypeKey) (op : WriteOp) : option (TransmitMessage * list byte) :=
  match op with
  | WKnown h tid encoded =>
      if eh_ttl h =? 0 then None else match outbound !! tid, encoded with Some k, Ok body => Some (on_wire h k body) | _, _ => None end
  | WOpaque h k body _ => if eh_ttl h =? 0 then None else Some (on_wire h k body)
  | _ => None
  end.

(** What is sent to the gateway and has time to live *)
Definition input_message (outbound : gmap TypeId LocalTypeKey) (i : LoopInput) : option (TransmitMessage * list byte) :=
  match i with
  | ToGateway h (ForwardBody key body _) => if eh_ttl h =? 0 then None else Some (on_wire h key body)
  | ToGateway h (TypedMessage tid encoded) =>
      if eh_ttl h =? 0 then None else match outbound !! tid, encoded with Some k, Ok body => Some (on_wire h k body) | _, _ => None end
  | _ => None
  end.

Lemma declares_message D k named : omap sent_message (declares D k named) = [].
Proof. unfold declares. destruct (D !! k), named; done. Qed.

Lemma op_sends_message D outbound op : omap sent_message (op_sends D outbound op) = option_list (op_message outbound op).
Proof.
  destruct op as [|k name|sr named|h tid encoded|h k body named]; cbn [op_sends op_message]; try done.
  - apply declares_message.
  - by rewrite omap_app, declares_message.
  - destruct (eh_ttl h =? 0); [done|]. by destruct (outbound !! tid), encoded.
  - destruct (eh_ttl h =? 0); [done|]. by rewrite omap_app, declares_message.
Qed.

Lemma ops_send_message D outbound ops : omap sent_message (ops_send D outbound ops) = omap (op_message outbound) ops.
Proof.
  revert D. induction ops as [|op ops IH]; intros D; [done|]. cbn [ops_send]. rewrite omap_app, IH, op_sends_message. cbn. by destruct (op_message outbound op).
Qed.

Lemma input_ops_message outbound i ops : input_ops i ops → omap (op_message outbound) ops = option_list (input_message outbound i).
Proof.
  destruct i as [[]|h []|]; cbn [input_ops input_message]; try (by intros ->); try (by intros [-> | ->]); intros ->; cbn; by repeat case_match.
Qed.

Lemma inputs_message outbound inputs opss :
  Forall2 input_ops inputs opss → omap (op_message outbound) (concat opss) = omap (input_message outbound) inputs.
Proof.
  induction 1 as [|i ops inputs opss Hi _ IH]; [done|]. cbn [concat]. rewrite omap_app, IH, (input_ops_message outbound i ops Hi). cbn.
  by destruct (input_message outbound i).
Qed.

(** What the peer makes of a frame it accepts *)
Lemma peer_out_message env an D x : refers_ok D x → acceptable env an D x →
  omap out_message (peer_out env an D x) = option_list (sent_message x).
Proof.
  destruct x as [|k name|n k m|m body]; cbn [peer_out refers_ok acceptable sent_message]; try done.
  - intros [name ->]. done.
  - intros [name Hn] Ha. rewrite Hn. destruct (is_local env (dst_address m)) eqn:El; [|done]. destruct (Ha eq_refl name Hn) as (codec & -> & _). done.
Qed.

Lemma peer_outs_message env an Df ss D : well_declared D ss → foldl declared_after D ss ⊆ Df →
  Forall (acceptable env an Df) ss → omap out_message (ss ≫= peer_out env an Df) = omap sent_message ss.
Proof.
  revert D. induction ss as [|x ss IH]; intros D Hw Hs Ha; [done|]. pose proof (well_declared_mono D (x :: ss) Hw) as Hm.
  destruct Hw as [Hr Hw]. apply Forall_cons in Ha as [Hax Ha].
  assert (refers_ok Df x ∨ ∃ k name, x = SDeclare k name) as Hr'.
  { destruct x as [|k name|n k m|m body]; cbn in Hr |- *; [by left | right; eauto | left..]; destruct Hr as [name Hn]; exists name;
      (eapply lookup_weaken; [done|]; by etrans). }
  rewrite bind_cons, omap_app, (IH _ Hw Hs Ha).
  assert (omap out_message (peer_out env an Df x) = option_list (sent_message x)) as ->
    by (destruct Hr' as [?|(k & name & ->)]; [by apply peer_out_message | done]).
  cbn. by destruct (sent_message x).
Qed.

(** Where the frames come from *)
Lemma op_sends_from D outbound op x : x ∈ op_sends D outbound op →
  match x with
  | SDistance _ _ c => ∃ sr named, op = WSubnetDistance sr named ∧ c = sr_metric sr
  | SMessage m body => op_message outbound op = Some (m, body)
  | _ => True
  end.
Proof.
  assert (∀ k named, x ∈ declares D k named → match x with SDeclare _ _ => True | _ => False end) as Hd.
  { intros k named. unfold declares. destruct (D !! k), named; try (by intros ?%elem_of_nil). by intros ->%list_elem_of_singleton. }
  destruct op as [|k name|sr named|h tid encoded|h k body named]; cbn [op_sends op_message].
  - by intros ->%list_elem_of_singleton.
  - intros ?%Hd. by destruct x.
  - intros [?%Hd| ->%list_elem_of_singleton]%elem_of_app; [by destruct x | eauto].
  - destruct (eh_ttl h =? 0); [by intros ?%elem_of_nil|]. destruct (outbound !! tid), encoded; try (by intros ?%elem_of_nil).
    by intros ->%list_elem_of_singleton.
  - destruct (eh_ttl h =? 0); [by intros ?%elem_of_nil|]. intros [?%Hd| ->%list_elem_of_singleton]%elem_of_app; [by destruct x | done].
Qed.

Lemma ops_send_from D outbound ops x : x ∈ ops_send D outbound ops → ∃ D' op, op ∈ ops ∧ x ∈ op_sends D' outbound op.
Proof.
  revert D. induction ops as [|op ops IH]; intros D; cbn [ops_send]; [by intros ?%elem_of_nil|].
  intros [Hx|Hx]%elem_of_app; [exists D, op; split; [left | done]|]. apply IH in Hx as (D' & op' & ? & ?). exists D', op'. split; [by right | done].
Qed.

(** ** End to end *)

(** Values of the types they have in the source, and distances that can grow *)
Definition route_args (named : LocalTypeKey → result MessageName unit) (sr : SetRoute) : Prop :=
  net_ok (destination sr) ∧ u64_ok (sr_message sr) ∧ from_option (λ c, u8_ok c ∧ c < 255) True (sr_metric sr) ∧ named_ok (named (sr_message sr)).
Definition input_args (outbound : gmap TypeId LocalTypeKey) (i : LoopInput) : Prop :=
  match i with
  | ToConnection (RouteUpdate sr named) => route_args named sr
  | ToGateway h (ForwardBody key _ named) => env_ok h ∧ u64_ok key ∧ named_ok named
  | ToGateway h (TypedMessage tid _) => env_ok h ∧ from_option u64_ok True (outbound !! tid)
  | _ => True
  end.

(** The peer has a codec for what is meant for its own subnets, which reads it. *)
Definition peer_decodes (env : ConnectionEnv) (an : Answers) (D : gmap LocalTypeKey MessageName)
    (x : option (TransmitMessage * list byte)) : Prop :=
  match x with
  | Some (m, body) => is_local env (dst_address m) = true → ∀ name, D !! tm_type m = Some name →
      ∃ codec, inbound_by_lkey env !! local_key env an name = Some codec ∧ decodes an codec body = true
  | None => True
  end.

Lemma connection_run_ops w resolved gw named routes subnets ticked inputs c out :
  connection_run w resolved gw named routes subnets ticked inputs = Ret (c, out, Ok tt) →
  ∃ by_tid told opss, outbound_by_type_id_of type_name (protocol resolved) (outbound resolved) = Ret by_tid ∧
    write_ops (output_new w by_tid) (declare_ops (outbound resolved) ++ tell_ops named told ++ concat opss) = Ret (output_writer c, Ok tt) ∧
    told `sublist_of` routes ∧ Forall2 input_ops inputs opss.
Proof.
  unfold connection_run. intros E. apply bind_Ret_inv in E as ([[c1 env] r1] & E1 & E). destruct r1 as [[]|], subnets as [subnets|]; try done.
  unfold connection_start in E1. apply bind_Ret_inv in E1 as (by_lkey & _ & E1). apply bind_Ret_inv in E1 as (by_tid & Ht & E1).
  destruct (declare_all (output_new w by_tid) (outbound resolved)) as [o [[]|]] eqn:Ed; [|done].
  apply bind_Ret_inv in E1 as ([[o1 reg] r] & Er & [= <- <- ->]). apply declare_all_ops in Ed. apply set_routes_ops in Er as (told & Hs & Hw).
  unfold event_loop in E. destruct ticked; [|done]. apply loop_turns_ops in E as (opss & Hl & Hf). exists by_tid, told, opss.
  split; [done|]. split; [|done]. rewrite write_ops_app, Ed. cbn [mbind outcome_bind]. rewrite write_ops_app, Hw. exact Hl.
Qed.

(** The operations have arguments of their types, and distances that can grow. *)
Lemma connection_ops_args by_tid (resolved : ProtocolResolved (SM := SM)) named routes told inputs opss :
  Forall (λ d, u64_ok d.2 ∧ name_ok d.1) (outbound resolved) → Forall (route_args named) routes → Forall (input_args by_tid) inputs →
  told `sublist_of` routes → Forall2 input_ops inputs opss →
  Forall (λ op, op_args by_tid op ∧ match op with WSubnetDistance sr _ => from_option (λ c, c < 255) True (sr_metric sr) | _ => True end)
    (declare_ops (outbound resolved) ++ tell_ops named told ++ concat opss).
Proof.
  intros Hd Hr Hi Hs Hf. apply Forall_app. split; [|apply Forall_app; split].
  - apply Forall_fmap. eapply Forall_impl; [exact Hd|]. intros [name key] ?. done.
  - apply Forall_fmap. apply Forall_forall. intros sr Hin. rewrite Forall_forall in Hr. destruct (Hr sr) as (H1 & H2 & H3 & H4).
    { eapply elem_of_submseteq; [done | by apply sublist_submseteq]. }
    cbn. split; [split_and!; try done|]; destruct (sr_metric sr); cbn in *; tauto.
  - induction Hf as [|i ops inputs opss Ho _ IH]; [constructor|]. apply Forall_cons in Hi as [Hi His]. cbn [concat]. apply Forall_app. split; [|by apply IH].
    destruct i as [[]|h []|]; cbn in Ho, Hi; subst; try (by repeat constructor).
    + destruct Ho as [->| ->]; [constructor|]. destruct Hi as (H1 & H2 & H3 & H4). constructor; [|constructor].
      split; [split_and!; try done|]; destruct (sr_metric sr); cbn in *; tauto.
    + apply Forall_singleton. by split.
    + apply Forall_singleton. by split.
Qed.

(** From the tables on: what the peer makes of the frames that are written *)
Lemma run_reaches w resolved gw named routes subnets ticked inputs c out env an c0 :
  connection_run w resolved gw named routes subnets ticked inputs = Ret (c, out, Ok tt) → manager_answers env an → type_key_map c0 = ∅ →
  Forall (λ d, u64_ok d.2 ∧ name_ok d.1) (outbound resolved) → Forall (route_args named) routes →
  Forall (input_args (outbound_by_type_id (output_writer c))) inputs →
  Forall (λ i, peer_decodes env an (declared_types (output_writer c)) (input_message (outbound_by_type_id (output_writer c)) i)) inputs →
  ∃ rest bytes fuel tells evs c', let by_tid := outbound_by_type_id (output_writer c) in let ss := ops_send ∅ by_tid (declare_ops (outbound resolved) ++ rest) in
    outbound_by_type_id_of type_name (protocol resolved) (outbound resolved) = Ret by_tid ∧
    well_declared ∅ ss ∧ declared_types (output_writer c) = foldl declared_after ∅ ss ∧ omap sent_message ss = omap (input_message by_tid) inputs ∧
    Forall (acceptable env an (declared_types (output_writer c))) ss ∧
    written (io_w (output_writer c)) = written w ++ bytes ∧ read_loop fuel tells bytes = (evs, ReadFailed) ∧
    handle_events (SM := SM) env an c0 evs = Ret (c', ss ≫= peer_out env an (declared_types (output_writer c)), Ok tt).
Proof.
  intros E Hm Hc0 Hd Hr Hi Hp. apply connection_run_ops in E as (by_tid & told & opss & Hby & Hops & Hs & Hf).
  set (ops := declare_ops (outbound resolved) ++ tell_ops named told ++ concat opss) in *.
  assert (outbound_by_type_id (output_writer c) = by_tid) as Hb by apply (write_ops_outbound _ _ _ _ Hops).
  rewrite Hb in *. pose proof (connection_ops_args by_tid resolved named routes told inputs opss Hd Hr Hi Hs Hf) as Hargs. fold ops in Hargs.
  assert (Forall (op_args by_tid) ops) as Ha by (eapply Forall_impl; [exact Hargs | by intros ? []]).
  assert (omap (op_message by_tid) ops = omap (input_message by_tid) inputs) as Hmsg.
  { unfold ops. rewrite !omap_app, (inputs_message by_tid inputs opss Hf).
    assert (∀ l, omap (op_message by_tid) (declare_ops l) = []) as -> by (intros l; induction l; [done | exact IHl]).
    assert (∀ l, omap (op_message by_tid) (tell_ops named l) = []) as -> by (intros l; induction l; [done | exact IHl]). done. }
  destruct (write_ops_ok ops (output_new w by_tid) (output_writer c) Ha Hops) as (_ & _ & Hwd & Hdt & _). cbn [declared_types output_new outbound_by_type_id] in *.
  assert (Forall (acceptable env an (declared_types (output_writer c))) (ops_send ∅ by_tid ops)) as Hacc.
  { apply Forall_forall. intros x Hx. destruct x as [|k name|n k m|m body]; cbn [acceptable]; try done.
    - destruct m as [m|]; [|done]. apply ops_send_from in Hx as (D' & op & Hop & Hx). apply op_sends_from in Hx as (sr & nm & -> & Em).
      rewrite Forall_forall in Hargs. apply Hargs in Hop as [_ Hsm]. by rewrite <- Em in Hsm.
    - assert ((m, body) ∈ omap (input_message by_tid) inputs) as Hin.
      { rewrite <- Hmsg, <- (ops_send_message ∅). apply list_elem_of_omap. by exists (SMessage m body). }
      apply list_elem_of_omap in Hin as (i & Hini & Ei). rewrite Forall_forall in Hp. pose proof (Hp i Hini) as Hpi. by rewrite Ei in Hpi. }
  destruct (peer_handles w by_tid ops (output_writer c) env an c0 Ha Hops Hacc Hm Hc0) as (bytes & fuel & tells & evs & c' & Hb' & Hrd & Hh).
  exists (tell_ops named told ++ concat opss), bytes, fuel, tells, evs, c'. cbv zeta. fold ops. split_and!; try done. by rewrite ops_send_message.
Qed.

Lemma run_delivers w resolved gw named routes subnets ticked inputs c out env an c0 :
  connection_run w resolved gw named routes subnets ticked inputs = Ret (c, out, Ok tt) → manager_answers env an → type_key_map c0 = ∅ →
  Forall (λ d, u64_ok d.2 ∧ name_ok d.1) (outbound resolved) → Forall (route_args named) routes →
  Forall (input_args (outbound_by_type_id (output_writer c))) inputs →
  Forall (λ i, peer_decodes env an (declared_types (output_writer c)) (input_message (outbound_by_type_id (output_writer c)) i)) inputs →
  ∃ bytes fuel tells evs c' out', written (io_w (output_writer c)) = written w ++ bytes ∧ read_loop fuel tells bytes = (evs, ReadFailed) ∧
    handle_events (SM := SM) env an c0 evs = Ret (c', out', Ok tt) ∧
    omap out_message out' = omap (input_message (outbound_by_type_id (output_writer c))) inputs.
Proof.
  intros E Hm Hc0 Hd Hr Hi Hp.
  destruct (run_reaches _ _ _ _ _ _ _ _ _ _ env an c0 E Hm Hc0 Hd Hr Hi Hp) as (rest & bytes & fuel & tells & evs & c' & _ & Hwd & Hdt & Hmsg & Hacc & Hb & Hrd & Hh).
  eexists bytes, fuel, tells, evs, c', _. split; [done|]. split; [done|]. split; [exact Hh|].
  rewrite (peer_outs_message env an _ _ ∅ Hwd) by (done || by rewrite Hdt). exact Hmsg.
Qed.

Lemma connection_run_ok e w io authc ps inputs resolved rest c out r :
  run e w io authc ps inputs = Ret (Ok (rest, c, out, r)) → reduce type_name (BM := BM) ps = Ret (Ok resolved) →
  ∃ gw routes w1, hello_run w io authc = (w1, Ok rest) ∧ subscribed e = Some routes ∧
    connection_run w1 resolved gw (name_answers e) routes (subnets_told e) (self_ticked e) inputs = Ret (c, out, r).
Proof.
  unfold run. intros E Hr. destruct (negb (timer_created e)); [done|]. destruct (gw_forked e) as [gw|]; [|done].
  destruct (negb (reader_forked e)); [done|]. rewrite Hr in E. cbn [mbind outcome_bind] in E.
  destruct (hello_run w io authc) as [w1 [rest1|]]; [|done]. destruct (subscribed e) as [routes|]; [|done].
  apply bind_Ret_inv in E as (? & _ & E). apply bind_Ret_inv in E as (? & _ & E). destruct (negb (writer_forked e)); [done|].
  apply bind_Ret_inv in E as ([[c1 out1] r1] & E & [= <- <- <- <-]). by exists gw, routes, w1.
Qed.

(** C26: Messages cross from one node to the next unchanged and in order. One side has shaken hands and run without an error, from its start
    through any inputs; its routes and names fit the wire, and every distance it has to tell is below 255. The other side is set up with
    the same authentication, has room to write its hello, reads the bytes the first side wrote, has a manager that answers it, and for
    every message to its own subnets a codec that reads the body. Then the other side completes the handshake, reads and handles the
    rest without an error, and the messages that come out there, delivered or sent on, are exactly those that were sent to the gateway
    with time to live left: the same body, address, priority, trace and number, and one hop less to live; in the order in which they
    were sent. *)
Theorem remote_delivery e w io authc ps inputs resolved routes rest c out w2 env an c0 :
  run e w io authc ps inputs = Ret (Ok (rest, c, out, Ok tt)) → written w = [] → reduce type_name (BM := BM) ps = Ret (Ok resolved) →
  subscribed e = Some routes → (length (hello_bytes authc) ≤ capacity w2)%nat → manager_answers env an → type_key_map c0 = ∅ →
  Forall (λ d, u64_ok d.2 ∧ name_ok d.1) (outbound resolved) → Forall (route_args (name_answers e)) routes →
  Forall (input_args (outbound_by_type_id (output_writer c))) inputs →
  Forall (λ i, peer_decodes env an (declared_types (output_writer c)) (input_message (outbound_by_type_id (output_writer c)) i)) inputs →
  ∃ w2' bytes fuel tells evs c' out', hello_run w2 (written (io_w (output_writer c))) authc = (w2', Ok bytes) ∧
    read_loop fuel tells bytes = (evs, ReadFailed) ∧ handle_events (SM := SM) env an c0 evs = Ret (c', out', Ok tt) ∧
    omap out_message out' = omap (input_message (outbound_by_type_id (output_writer c))) inputs.
Proof.
  intros E Hw Hr Hs Hcap Hm Hc0 Hd Hro Hi Hp. eapply connection_run_ok in E as (gw & routes' & w1 & Eh & Hs' & E); [|exact Hr].
  assert (routes' = routes) as -> by congruence. pose proof (hello_sound _ _ _ _ _ Eh) as [Hu _]. apply hello_wrote in Eh.
  destruct (run_delivers w1 resolved gw (name_answers e) routes (subnets_told e) (self_ticked e) inputs c out env an c0)
    as (bytes & fuel & tells & evs & c' & out' & Hb & Hrd & Hh & Hmsg); [done..|].
  rewrite Eh, Hw in Hb. cbn [app] in Hb. rewrite Hb. destruct (hello_completes w2 authc bytes Hu Hcap) as (w2' & Eh2 & _).
  exists w2', bytes, fuel, tells, evs, c', out'. done.
Qed.
End Remote.

(** ** Example: a ping crosses *)
Section Examples.
#[local] Existing Instance fixed_bincode.
#[local] Existing Instance gmap_slot_map.
#[local] Existing Instance elements_order.
#[local] Existing Instance names_bimap.

Definition ex_ping : ProtocolResolved (SM := gmap Z) := mkResolved (protocol_of [1]) [("app::Ping", 7)] [("app::Ping", 7)].
Definition ex_inputs : list LoopInput :=
  [ToConnection (KeepAliveTick true); ToConnection (RouteUpdate via_peer named_ping); ToGateway envelope (TypedMessage 1 (Ok [1; 2; 3]));
   ToGateway envelope (ForwardBody 9 [4] (Ok "app::Pong"))].
Definition ex_env : RunEnv := mkRunEnv true (Some 200) true (Some []) true named_ping (Some []) true.
Definition ex_resolved : ProtocolResolved (SM := gmap Z) :=
  match reduce names (BM := list (MessageName * Z)) [ex_ping] with Ret (Ok r) => r | _ => ex_ping end.
Definition ex_run :=
  run (BM := list (MessageName * Z)) names no_hash ex_env (mkWriter [] 1000) (hello_bytes (Cookie [5; 6])) (Cookie [5; 6]) [ex_ping] ex_inputs.
Definition ex_conn : Connection (SM := gmap Z) :=
  match ex_run with Ret (Ok (_, c, _, _)) => c | _ => mkConnection fresh_writer registry_default ∅ end.
Definition ex_out : list ConnOut := match ex_run with Ret (Ok (_, _, out, _)) => out | _ => [] end.
Definition ex_peer : ConnectionEnv := mkConnEnv 200 {["app::Ping" := 3; "app::Pong" := 4]} {[3 := Known 1; 4 := Known 2]} [(net_range west, tt)].

Lemma remote_delivery_witness : ∃ w2 bytes evs c' out',
  hello_run (mkWriter [] 100) (written (io_w (output_writer ex_conn))) (Cookie [5; 6]) = (w2, Ok bytes) ∧
  handle_events (SM := gmap Z) ex_peer ex_answers (mkConnection fresh_writer registry_default ∅) evs = Ret (c', out', Ok tt) ∧
  omap out_message out' = [on_wire envelope 7 [1; 2; 3]; on_wire envelope 9 [4]].
Proof.
  destruct (remote_delivery (SM := gmap Z) (BM := list (MessageName * Z)) names no_hash ex_env (mkWriter [] 1000) (hello_bytes (Cookie [5; 6]))
    (Cookie [5; 6]) [ex_ping] ex_inputs ex_resolved [] [] ex_conn ex_out (mkWriter [] 100) ex_peer ex_answers (mkConnection fresh_writer registry_default ∅))
    as (w2 & bytes & fuel & tells & evs & c' & out' & Eh & _ & Hh & Hm).
  - vm_compute. reflexivity.
  - reflexivity.
  - vm_compute. reflexivity.
  - reflexivity.
  - vm_compute. lia.
  - split; [by eexists | done].
  - reflexivity.
  - assert (E : outbound ex_resolved = [("app::Ping", 7)]) by (vm_compute; reflexivity). rewrite E.
    repeat constructor; cbn; unfold u64_ok; lia || reflexivity.
  - constructor.
  - assert (E : outbound_by_type_id (output_writer ex_conn) = {[1 := 7]}) by (vm_compute; reflexivity). rewrite E.
    repeat constructor; cbn; unfold u64_ok, u8_ok; lia || reflexivity.
  - assert (E : outbound_by_type_id (output_writer ex_conn) = {[1 := 7]}) by (vm_compute; reflexivity). rewrite E.
    assert (E2 : declared_types (output_writer ex_conn) = {[7 := "app::Ping"; 9 := "app::Pong"]}) by (vm_compute; reflexivity). rewrite E2.
    unfold ex_inputs. apply Forall_cons_2; [exact I|]. apply Forall_cons_2; [exact I|]. apply Forall_cons_2; [|apply Forall_cons_2; [|apply Forall_nil_2; exact I]].
    + assert (E3 : input_message {[1 := 7]} (ToGateway envelope (TypedMessage 1 (Ok [1; 2; 3]))) = Some (on_wire envelope 7 [1; 2; 3])) by (vm_compute; reflexivity).
      rewrite E3. intros _ name Hn. assert (Some "app::Ping" = Some name) as [= <-] by exact Hn. exists (Known 1). split; reflexivity.
    + intros _ name Hn. assert (Some "app::Pong" = Some name) as [= <-] by exact Hn. exists (Known 2). split; reflexivity.
  - exists w2, bytes, evs, c', out'. split; [exact Eh|]. split; [exact Hh|]. rewrite Hm. vm_compute. reflexivity.
Defined.
End Examples.
