(* ===== verification/Network.v ===== *)
(** * How routes reach the next node
    (components/mm1-multinode/src/actors: multinode_manager.rs, iostream_connection.rs)

    The managers of two nodes and the connection between them, put together: what the manager of one node answers to a
    subscription becomes distances on the stream, and these become routes in the table of the other node's manager. *)

From stdpp Require Import strings.
From Stdlib Require Import Sorting.Sorted.
From S2P Require Import Prelude U64 Address Subnet Collections Btree Routes Protocols Manager Wire Stream Connection Remote.

Open Scope Z_scope.

Section Network.
Context {SM : Type → Type} `{SlotMap SM} `{HashSetOrder} `{bincode : Bincode}.
Context (type_name : TypeId → MessageName) (addr_hash : Address → Z).
Context (plan : NetAddress → Prop) `{!AddressPlan plan}.

(** ** The least distance to a net *)
Definition is_least (reg : RouteRegistry (SM := SM)) (n : NetAddress) (k : LocalTypeKey) (c : option RouteMetric) : Prop :=
  match c with
  | Some c => (∃ g, route_of reg g n k = Some c) ∧ ∀ g c', route_of reg g n k = Some c' → c ≤ c'
  | None => ∀ g, route_of reg g n k = None
  end.

(** What is found for an address is a route to its net or to a net above it. *)
Lemma find_route_above reg k x g c : routes_ok plan reg → find_route addr_hash reg k x = Ret (Ok (g, c)) →
  ∃ n, plan n ∧ route_of reg g n k = Some c ∧ x ≤ hi (net_range n).
Proof.
  intros Hr. unfold find_route, range_from_address, range_new. rewrite assert_true by (apply Z.leb_le; lia). cbn [mbind outcome_bind].
  destruct (bt_range_from dst_cmp (by_dst reg) (mkRange x x, k, 0)) as [|[[[r1 m1] c1] ks1] l] eqn:Eb; [done|]. cbn [head].
  pose proof (bt_range_from_head _ _ _ _ _ Eb) as Hge. assert (((r1, m1, c1), ks1) ∈ by_dst reg) as Hin by (apply (bt_range_from_sub dst_cmp _ (mkRange x x, k, 0)); rewrite Eb; left).
  case_Zb; [subst m1|done]. apply (tree_entry_route plan _ _ _ _ _ Hr) in Hin as (n & Hn & -> & Hne & Hk).
  destruct (select_route_ok addr_hash reg x n k c1 ks1 Hne Hk) as (g1 & key & -> & Hg). cbn. intros [= <- <-].
  exists n. split; [done|]. split; [apply (route_of_entry plan); eauto|]. destruct (plan_range plan n Hn) as (_ & _ & Hok). unfold range_ok in Hok.
  destruct (Z_le_gt_dec x (hi (net_range n))) as [?|Hgt]; [done|]. destruct Hge. cbn [fst]. unfold dst_cmp, pair_cmp. cbn [fst snd].
  unfold range_cmp. cbn [hi lo]. rewrite (proj2 (Z.compare_gt_iff x (hi _))), (proj2 (Z.compare_gt_iff x (lo _))) by lia. done.
Qed.

(** [best_metric] is the least distance as long as no net above has a route. *)
Lemma best_metric_least reg n k : routes_ok plan reg → plan n →
  (∀ n', plan n' → address n < address n' → ∀ g, route_of reg g n' k = None) →
  ∃ m, best_metric addr_hash reg k (lo (net_range n)) = Ret m ∧ is_least reg n k m.
Proof.
  intros Hr Hn Hab. destruct (plan_range plan n Hn) as (_ & _ & Hok). unfold best_metric.
  assert (net_contains n (lo (net_range n))) as Hc by (apply net_range_contains; unfold range_contains, range_ok in *; lia).
  destruct (find_route_ok plan addr_hash reg n k (lo (net_range n)) Hr Hn Hc) as [[r Er] Hall]. rewrite Er. cbn.
  destruct r as [[g c]|e].
  - exists (Some c). split; [done|]. destruct (find_route_above _ _ _ _ _ Hr Er) as (n' & Hn' & Hg & Hle).
    assert (n' = n) as ->.
    { destruct (decide (address n < address n')) as [Hlt|Hge]; [by rewrite (Hab n' Hn' Hlt g) in Hg|].
      destruct (plan_range plan n' Hn') as (_ & _ & Hok'). eapply (plan_disjoint n' n (lo (net_range n))); [done..| |done].
      apply net_range_contains. unfold range_contains, net_range in *. cbn in *. lia. }
    destruct (Hall _ _ Hg) as (g' & c' & E' & Hg' & Hmin). rewrite Er in E'. injection E' as <- <-. split; [by exists g | done].
  - exists None. split; [done|]. intros g. destruct (route_of reg g n k) as [c|] eqn:Hg; [|done].
    destruct (Hall _ _ Hg) as (g' & c' & E' & _). by rewrite Er in E'.
Qed.

Lemma is_least_fun reg n k c c' : is_least reg n k c → is_least reg n k c' → c = c'.
Proof.
  destruct c as [c|], c' as [c'|]; cbn; [| | |done].
  - intros [[g Hg] Hm] [[g' Hg'] Hm']. f_equal. apply Z.le_antisymm; eauto.
  - intros [[g Hg] _] Hn. by rewrite Hn in Hg.
  - intros Hn [[g Hg] _]. by rewrite Hn in Hg.
Qed.

(** A route where there was none *)
Lemma is_least_add reg reg' sr m b : (∀ g n k, plan n → route_of reg' g n k =
    if decide ((g, n, k) = (via sr, destination sr, sr_message sr)) then sr_metric sr else route_of reg g n k) →
  plan (destination sr) → sr_metric sr = Some m → route_of reg (via sr) (destination sr) (sr_message sr) = None →
  is_least reg (destination sr) (sr_message sr) b →
  is_least reg' (destination sr) (sr_message sr) (Some (match b with Some b => Z.min b m | None => m end)).
Proof.
  intros Ht Hp Hm Hnone Hb.
  assert (route_of reg' (via sr) (destination sr) (sr_message sr) = Some m) as Hnew by (rewrite Ht, decide_True by done; done).
  assert (∀ g c', route_of reg' g (destination sr) (sr_message sr) = Some c' → c' = m ∨ route_of reg g (destination sr) (sr_message sr) = Some c') as Hold.
  { intros g c'. rewrite Ht by done. case_decide; [rewrite Hm; intros [= ->]; by left | by right]. }
  destruct b as [b|].
  - destruct Hb as [[g Hg] Hmin]. split.
    + destruct (Z.min_spec b m) as [[_ ->]|[_ ->]]; [|by exists (via sr)]. exists g. rewrite Ht by done. rewrite decide_False; [done|].
      intros [= ->]. by rewrite Hg in Hnone.
    + intros g' c' [->|Hg']%Hold; [lia|]. apply Hmin in Hg'. lia.
  - split; [by exists (via sr)|]. intros g' c' [->|Hg']%Hold; [lia|]. by rewrite Hb in Hg'.
Qed.

Lemma is_least_ext reg reg' n k c : (∀ g, route_of reg' g n k = route_of reg g n k) → is_least reg n k c → is_least reg' n k c.
Proof.
  intros He. destruct c as [c|]; cbn; [|intros Hn g; by rewrite He]. intros [[g Hg] Hm]. split; [exists g; by rewrite He|].
  intros g' c'. rewrite He. apply Hm.
Qed.

(** ** What the peer is told at the start *)

(** What the peer knows of a net, after a report *)
Definition told_effect (n : NetAddress) (k : LocalTypeKey) (c : option RouteMetric) (sr : SetRoute) : option RouteMetric :=
  if decide ((destination sr, sr_message sr) = (n, k)) then sr_metric sr else c.

Definition route_key (sr : SetRoute) : option Address * NetAddress * LocalTypeKey := (via sr, destination sr, sr_message sr).
Definition net_le (a b : SetRoute) : Prop := address (destination a) ≤ address (destination b).

(** A route to a net that has none through its gateway, and above which there are none *)
Definition comes_next (reg : RouteRegistry (SM := SM)) (sr : SetRoute) : Prop :=
  route_of reg (via sr) (destination sr) (sr_message sr) = None ∧
  ∀ n g k, plan n → address (destination sr) < address n → route_of reg g n k = None.

Lemma tell_least reg reg1 own_gw sr before after :
  routes_ok plan reg → routes_ok plan reg1 → set_route_ok_args plan sr → comes_next reg sr → is_Some (sr_metric sr) → via sr ≠ Some own_gw →
  (∀ g n k, plan n → route_of reg1 g n k = if decide ((g, n, k) = route_key sr) then sr_metric sr else route_of reg g n k) →
  best_metric addr_hash reg (sr_message sr) (lo (net_range (destination sr))) = Ret before →
  best_metric addr_hash reg1 (sr_message sr) (lo (net_range (destination sr))) = Ret after →
  ∀ n k c, plan n → is_least reg n k c →
    is_least reg1 n k (if negb (bool_decide (after = before)) && negb (bool_decide (via sr = Some own_gw)) then told_effect n k c sr else c).
Proof.
  intros Hr Hr1 [Hn _] [Hnone Hab] [m Hm] Hv Ht Eb Ea n k c Hpn Hc. rewrite (bool_decide_false (via sr = Some own_gw)) by done. rewrite andb_true_r.
  destruct (best_metric_least reg (destination sr) (sr_message sr) Hr Hn) as (b & Eb' & Hb); [eauto|]. rewrite Eb in Eb'. injection Eb' as <-.
  destruct (best_metric_least reg1 (destination sr) (sr_message sr) Hr1 Hn) as (a & Ea' & Ha).
  { intros n' Hn' Hlt g. rewrite Ht by done. rewrite decide_False; [eauto|]. unfold route_key. intros ?. simplify_eq. lia. }
  rewrite Ea in Ea'. injection Ea' as <-.
  pose proof (is_least_fun _ _ _ _ _ Ha (is_least_add reg reg1 sr m before Ht Hn Hm Hnone Hb)) as ->.
  unfold told_effect. destruct (decide ((destination sr, sr_message sr) = (n, k))) as [[= <- <-]|Hne].
  - rewrite (is_least_fun _ _ _ _ _ Hc Hb). rewrite Hm. case_bool_decide as Hd; cbn [negb]; [by rewrite <- Hd|].
    destruct before as [b|]; [|done]. destruct (Z.min_spec b m) as [[_ E]|[_ E]]; rewrite E in *; [by destruct Hd | done].
  - assert (is_least reg1 n k c) as Hc1; [|by destruct (negb _)].
    eapply is_least_ext; [|done]. intros g. rewrite Ht by done. rewrite decide_False; [done|]. unfold route_key. intros ?. by simplify_eq.
Qed.

(** A connection that takes the manager's routes tells some of them to the peer, none of them a route through the connection. If the routes
    are in the order of their nets, the last that is told of a net is the least distance to it. *)
Lemma set_routes_told o reg own_gw named routes o' reg' : routes_ok plan reg → Forall (set_route_ok_args plan) routes →
  handle_set_routes addr_hash o reg own_gw named routes = Ret (o', reg', Ok tt) →
  ∃ told, told `sublist_of` routes ∧ Forall (λ sr, via sr ≠ Some own_gw) told ∧ write_ops o (tell_ops named told) = Ret (o', Ok tt) ∧
    (∀ g n k, plan n → route_of reg' g n k = foldl (route_effect g n k) (route_of reg g n k) routes) ∧
    (Forall (λ sr, is_Some (sr_metric sr) ∧ via sr ≠ Some own_gw) routes → NoDup (route_key <$> routes) → StronglySorted net_le routes →
     Forall (comes_next reg) routes → ∀ n k c, plan n → is_least reg n k c → is_least reg' n k (foldl (told_effect n k) c told)).
Proof.
  revert o reg. induction routes as [|sr routes IH]; intros o reg Hr Ha E; cbn [handle_set_routes] in E.
  { injection E as <- <-. exists []. split_and!; try done. }
  apply Forall_cons in Ha as [Hsr Ha]. pose proof Hsr as [Hn Hc]. destruct (plan_range plan _ Hn) as (Er & _ & _). rewrite Er in E. cbn [mbind outcome_bind] in E.
  apply bind_Ret_inv in E as (before & Eb & E). destruct (set_route_ok plan reg (sr_message sr) _ (via sr) (sr_metric sr) Hr Hn Hc) as (reg1 & Es & Hr1 & Ht).
  rewrite Es in E. cbn [mbind outcome_bind] in E. apply bind_Ret_inv in E as (after & Ea & E).
  assert (∀ told, (Forall (λ x, is_Some (sr_metric x) ∧ via x ≠ Some own_gw) routes → NoDup (route_key <$> routes) → StronglySorted net_le routes →
      Forall (comes_next reg1) routes → ∀ n k c, plan n → is_least reg1 n k c → is_least reg' n k (foldl (told_effect n k) c told)) →
    Forall (λ x, is_Some (sr_metric x) ∧ via x ≠ Some own_gw) (sr :: routes) → NoDup (route_key <$> sr :: routes) → StronglySorted net_le (sr :: routes) →
    Forall (comes_next reg) (sr :: routes) → ∀ n k c, plan n → is_least reg n k c →
    is_least reg' n k (foldl (told_effect n k) (if negb (bool_decide (after = before)) && negb (bool_decide (via sr = Some own_gw)) then told_effect n k c sr else c) told)) as Hstep.
  { intros told Hl [[Hm Hv] Hms]%Forall_cons [Hni Hnd]%NoDup_cons [Hss Hle]%StronglySorted_inv [Hcn Hcs]%Forall_cons n k c Hpn Hlc. apply Hl; [done..| |done|].
    - rewrite Forall_forall in Hcs, Hle |- *. intros x Hx. destruct (Hcs x Hx) as [Hnone Hab]. rewrite Forall_forall in Ha. destruct (Ha x Hx) as [Hpx _]. split.
      + rewrite Ht by done. rewrite decide_False; [done|]. intros Heq. apply Hni, list_elem_of_fmap. exists x. split; [by symmetry | done].
      + intros n' g k' Hn' Hlt. rewrite Ht by done. rewrite decide_False; [eauto|]. intros ?. simplify_eq. specialize (Hle x Hx). unfold net_le in Hle. lia.
    - exact (tell_least reg reg1 own_gw sr before after Hr Hr1 Hsr Hcn Hm Hv Ht Eb Ea n k c Hpn Hlc). }
  assert (Hfold : (∀ g n k, plan n → route_of reg' g n k = foldl (route_effect g n k) (route_of reg1 g n k) routes) →
    ∀ g n k, plan n → route_of reg' g n k = foldl (route_effect g n k) (route_of reg g n k) (sr :: routes)).
  { intros Hf g n k Hpn. rewrite Hf by done. cbn [foldl]. unfold route_effect. by rewrite Ht. }
  destruct (negb (bool_decide (after = before)) && negb (bool_decide (via sr = Some own_gw))) eqn:Et.
  - destruct (write_subnet_distance o sr (named (sr_message sr))) as [o1 [[]|e]] eqn:Ew; [|done].
    destruct (IH o1 reg1 Hr1 Ha E) as (told & Hs & Hv & Hw & Hf & Hl). exists (sr :: told). apply andb_true_iff in Et as [_ Et].
    apply negb_true_iff, bool_decide_eq_false in Et. split_and!; [by constructor | by constructor | | auto | exact (Hstep told Hl)].
    cbn [tell_ops fmap list_fmap write_ops write_op]. rewrite Ew. exact Hw.
  - destruct (IH o reg1 Hr1 Ha E) as (told & Hs & Hv & Hw & Hf & Hl). exists told.
    split_and!; [by constructor | done | done | auto | exact (Hstep told Hl)].
Qed.

(** ** What the peer makes of it *)
Definition out_route (o : ConnOut) : option SetRoute := match o with TellManager sr => Some sr | _ => None end.
Definition sent_distance (x : Sent) : option (NetAddress * LocalTypeKey * option RouteMetric) :=
  match x with SDistance n k c => Some (n, k, c) | _ => None end.
Definition op_distance (op : WriteOp) : option (NetAddress * LocalTypeKey * option RouteMetric) :=
  match op with WSubnetDistance sr _ => Some (destination sr, sr_message sr, sr_metric sr) | _ => None end.

(** A distance as the peer's manager is told it: the peer's key for the type, and one hop further *)
Definition learnt (own : Address) (lk : LocalTypeKey → LocalTypeKey) (d : NetAddress * LocalTypeKey * option RouteMetric) : SetRoute :=
  let '(n, k, c) := d in mkSetRoute (lk k) n (Some own) ((λ m, m + 1) <$> c).

Lemma op_sends_distance D outbound op : omap sent_distance (op_sends D outbound op) = option_list (op_distance op).
Proof.
  assert (∀ k named, omap sent_distance (declares D k named) = []) as Hd by (intros; unfold declares; by destruct (D !! _), named).
  destruct op as [|k name|sr named|h tid encoded|h k body named]; cbn [op_sends op_distance]; [done|apply Hd|by rewrite omap_app, Hd|..].
  - destruct (eh_ttl h =? 0); [done|]. by destruct (outbound !! tid), encoded.
  - destruct (eh_ttl h =? 0); [done|]. by rewrite omap_app, Hd.
Qed.

Lemma ops_send_distance D outbound ops : omap sent_distance (ops_send D outbound ops) = omap op_distance ops.
Proof.
  revert D. induction ops as [|op ops IH]; intros D; [done|]. cbn [ops_send]. rewrite omap_app, IH, op_sends_distance. cbn. by destruct (op_distance op).
Qed.

Lemma tell_ops_distance named outbound told :
  omap op_distance (declare_ops outbound ++ tell_ops named told) = (λ sr, (destination sr, sr_message sr, sr_metric sr)) <$> told.
Proof.
  rewrite omap_app. assert (omap op_distance (declare_ops outbound) = []) as -> by (induction outbound; [done | exact IHoutbound]).
  cbn [app]. induction told as [|sr told IH]; [done|]. cbn. by f_equal.
Qed.

(** The names that are declared *)
Definition op_names (names : LocalTypeKey → MessageName) (op : WriteOp) : Prop :=
  match op with
  | WDeclareType k name => name = names k
  | WSubnetDistance sr (Ok name) => name = names (sr_message sr)
  | WOpaque _ k _ (Ok name) => name = names k
  | _ => True
  end.

Lemma op_sends_names names D outbound op k name : op_names names op → SDeclare k name ∈ op_sends D outbound op → name = names k.
Proof.
  assert (∀ k' named, SDeclare k name ∈ declares D k' named → k = k' ∧ named = Ok name) as Hd.
  { intros k' named. unfold declares. destruct (D !! k'), named; try (by intros ?%elem_of_nil). intros E%list_elem_of_singleton. by injection E as -> ->. }
  destruct op as [|k' name'|sr named|h tid encoded|h k' body named]; cbn [op_sends op_names]; intros Hn.
  - by intros ?%list_elem_of_singleton.
  - intros [-> [= ->]]%Hd. done.
  - intros [[-> ->]%Hd|?%list_elem_of_singleton]%elem_of_app; done.
  - destruct (eh_ttl h =? 0); [by intros ?%elem_of_nil|]. destruct (outbound !! tid), encoded; try (by intros ?%elem_of_nil). by intros ?%list_elem_of_singleton.
  - destruct (eh_ttl h =? 0); [by intros ?%elem_of_nil|]. intros [[-> ->]%Hd|?%list_elem_of_singleton]%elem_of_app; done.
Qed.

Lemma declared_from ss D k name : foldl declared_after D ss !! k = Some name → D !! k = Some name ∨ SDeclare k name ∈ ss.
Proof.
  revert D. induction ss as [|x ss IH]; intros D Hk; cbn [foldl] in Hk; [by left|].
  apply IH in Hk as [Hk|Hk]; [|right; by right]. destruct x as [|k' name'|n k' c|m body]; cbn [declared_after] in Hk; try (by left).
  apply lookup_insert_Some in Hk as [[-> ->]|[_ Hk]]; [right; left | by left].
Qed.

Lemma peer_outs_route env an names Df ss D : well_declared D ss → foldl declared_after D ss ⊆ Df → (∀ k name, Df !! k = Some name → name = names k) →
  omap out_route (ss ≫= peer_out env an Df) =
    learnt (own_gw env) (λ k, local_key env an (names k)) <$> omap sent_distance ss.
Proof.
  intros Hw Hs Hnm. revert D Hw Hs. induction ss as [|x ss IH]; intros D Hw Hs; [done|]. pose proof (well_declared_mono D (x :: ss) Hw) as Hm.
  destruct Hw as [Hr Hw]. rewrite bind_cons, omap_app, (IH _ Hw Hs).
  destruct x as [|k name|n k c|m body]; cbn [peer_out]; [done|done| |].
  - destruct Hr as [name Hn]. eapply lookup_weaken in Hn; [|by etrans]. rewrite Hn. cbn. by rewrite (Hnm k name Hn).
  - destruct Hr as [name Hn]. eapply lookup_weaken in Hn; [|by etrans]. rewrite Hn. cbn [omap list_omap sent_distance].
    destruct (is_local env (dst_address m)); [|done]. by destruct (inbound_by_lkey env !! _).
Qed.

(** The route through a gateway after a number of reports *)
Lemma learnt_fold own lk told n k r0 : (∀ sr, sr ∈ told → lk (sr_message sr) = lk k → sr_message sr = k) →
  foldl (route_effect (Some own) n (lk k)) r0 (learnt own lk <$> ((λ sr, (destination sr, sr_message sr, sr_metric sr)) <$> told)) =
    foldl (λ c sr, if decide ((destination sr, sr_message sr) = (n, k)) then (λ m, m + 1) <$> sr_metric sr else c) r0 told.
Proof.
  revert r0. induction told as [|sr told IH]; intros r0 Hinj; [done|]. cbn [fmap list_fmap foldl]. rewrite IH by (intros; apply Hinj; [by right | done]). f_equal.
  unfold route_effect. cbn. specialize (Hinj sr (list_elem_of_here _ _)).
  repeat case_decide; try done; simplify_eq; naive_solver.
Qed.

Lemma told_fold n k told (c : option RouteMetric) m : foldl (told_effect n k) None told = Some m →
  foldl (λ c sr, if decide ((destination sr, sr_message sr) = (n, k)) then (λ m, m + 1) <$> sr_metric sr else c) c told = Some (m + 1).
Proof.
  assert (∀ c0, foldl (told_effect n k) c0 told = Some m → (c0 = None ∨ c = (λ m, m + 1) <$> c0) →
    foldl (λ c sr, if decide ((destination sr, sr_message sr) = (n, k)) then (λ m, m + 1) <$> sr_metric sr else c) c told = Some (m + 1)) as Hgen; [|by eauto].
  revert c. induction told as [|sr told IH]; intros c c0 E Hc; cbn [foldl] in *; [subst c0; destruct Hc as [?| ->]; done|].
  eapply IH; [exact E|]. unfold told_effect. case_decide; [by right | done].
Qed.

Lemma learnt_from own lk told g n k r0 c :
  foldl (route_effect g n k) r0 (learnt own lk <$> ((λ sr, (destination sr, sr_message sr, sr_metric sr)) <$> told)) = Some c →
  r0 = Some c ∨ g = Some own ∧ ∃ sr, sr ∈ told ∧ destination sr = n ∧ lk (sr_message sr) = k ∧ (λ m, m + 1) <$> sr_metric sr = Some c.
Proof.
  revert r0. induction told as [|sr told IH]; intros r0; [by left|]. cbn [fmap list_fmap foldl]. intros [Hr|(-> & x & Hx & Hr)]%IH.
  - unfold route_effect in Hr. cbn in Hr. case_decide as Hd; [|by left]. simplify_eq. right. split; [done|]. exists sr. split; [left | done].
  - right. split; [done|]. exists x. split; [by right | done].
Qed.

(** ** All routes of a table *)
Lemma all_routes_elem (reg : RouteRegistry (SM := SM)) e : routes_ok plan reg → e ∈ all_routes reg → plan (dst_net e) ∧ 0 ≤ metric e < 256 ∧ route_of reg (gw e) (dst_net e) (message e) = Some (metric e).
Proof.
  intros Hr ([k e'] & -> & Hin%sm_drain_elem)%list_elem_of_fmap. cbn [snd]. destruct (entries_ok plan reg Hr k e' Hin) as (Hp & Hm & _). split; [done|]. split; [done|].
  apply (route_of_entry plan); [done..|]. exists k. by destruct e'.
Qed.

Lemma route_in_all (reg : RouteRegistry (SM := SM)) g n k c : routes_ok plan reg → plan n → route_of reg g n k = Some c → mkRoute k n g c ∈ all_routes reg.
Proof. intros Hr Hn (key & Hk)%(route_of_entry plan); [|done..]. apply list_elem_of_fmap. exists (key, mkRoute k n g c). split; [done|]. by apply sm_drain_elem. Qed.

Lemma all_routes_args reg : routes_ok plan reg → Forall (set_route_ok_args plan) (set_route_from <$> all_routes reg).
Proof. intros Hr. apply Forall_fmap, Forall_forall. intros e (Hp & Hm & _)%(all_routes_elem _ _ Hr). split; [done|]. cbn. by intros c [= <-]. Qed.

Lemma all_routes_keys reg : routes_ok plan reg → NoDup (route_key <$> (set_route_from <$> all_routes reg)).
Proof.
  intros Hr. unfold all_routes. rewrite <- !list_fmap_compose.
  pose proof (sm_drain_NoDup (route_entries reg)) as Hnd. assert (Forall (λ ke, sm_get (route_entries reg) ke.1 = Some ke.2) (sm_drain (route_entries reg))) as Hall.
  { apply Forall_forall. intros [k e] Hin. by apply sm_drain_elem. }
  induction (sm_drain (route_entries reg)) as [|[k e] l IH]; [constructor|]. cbn [fmap list_fmap] in *. apply NoDup_cons in Hnd as [Hni Hnd].
  apply Forall_cons in Hall as [Hk Hall]. apply NoDup_cons. split; [|auto]. intros ([k' e'] & Heq & Hin)%list_elem_of_fmap. cbn in Heq, Hk. injection Heq as Eg En Em.
  rewrite Forall_forall in Hall. pose proof (Hall _ Hin) as Hk'. cbn in Hk'.
  destruct (entries_ok plan reg Hr _ _ Hk) as (_ & _ & H1), (entries_ok plan reg Hr _ _ Hk') as (_ & _ & H2). rewrite <- Eg, <- En, <- Em in H2.
  rewrite H1 in H2. injection H2 as <-. apply Hni, list_elem_of_fmap. by exists (k, e').
Qed.

(** Putting them into an empty table gives the table back. *)
Lemma all_routes_fold reg g n k : routes_ok plan reg → plan n →
  foldl (route_effect g n k) None (set_route_from <$> all_routes reg) = route_of reg g n k.
Proof.
  intros Hr Hn. assert (∀ l c, NoDup (route_key <$> l) → foldl (route_effect g n k) c l =
      match list_find (λ sr, (g, n, k) = route_key sr) l with Some (_, sr) => sr_metric sr | None => c end) as Hgen.
  { induction l as [|sr l IH]; intros c; [done|]. cbn [fmap list_fmap foldl list_find]. intros [Hni Hnd]%NoDup_cons. rewrite IH by done.
    unfold route_effect. change (via sr, destination sr, sr_message sr) with (route_key sr). case_decide as Hd.
    - destruct (list_find _ l) as [[i x]|] eqn:Ef; [|done]. apply list_find_Some in Ef as (Ei & Ek & _). destruct Hni. apply list_elem_of_fmap.
      exists x. split; [congruence|]. by eapply list_elem_of_lookup_2.
    - destruct (list_find _ l) as [[i x]|]; done. }
  rewrite Hgen by (by apply all_routes_keys). destruct (list_find _ _) as [[i sr]|] eqn:Ef.
  - apply list_find_Some in Ef as (Ei & Ek & _). apply list_elem_of_lookup_2, list_elem_of_fmap in Ei as (e & -> & He).
    apply (all_routes_elem reg e Hr) in He as (_ & _ & He). injection Ek as -> -> ->. cbn. by rewrite He.
  - destruct (route_of reg g n k) as [c|] eqn:E; [|done]. apply route_in_all in E; [|done..]. apply list_find_None in Ef. rewrite Forall_forall in Ef.
    destruct (Ef (set_route_from (mkRoute k n g c))); [|done]. apply list_elem_of_fmap. by eexists.
Qed.

(** ** The two managers *)
Context {BM : Type} `{!BiMap WatchRef Address BM} {SocketAddr Path : Type} `{Countable SocketAddr} `{Countable Path} (default_key : LocalTypeKey).
Notation Mgr := (Manager (SM := SM) (BM := BM) (SocketAddr := SocketAddr) (Path := Path)).

(** Both nodes agree on what a type is called: the names this side declares are those of its keys, and different keys that are routed have
    different names for the peer. *)
Record names_agree (names : LocalTypeKey → MessageName) (lk : LocalTypeKey → LocalTypeKey) (named : LocalTypeKey → result MessageName unit)
    (resolved : ProtocolResolved (SM := SM)) (routes : list SetRoute) : Prop := {
  na_outbound : Forall (λ d, u64_ok d.2 ∧ name_ok d.1 ∧ d.1 = names d.2) (outbound resolved);
  na_named sr : sr ∈ routes → named (sr_message sr) = Ok (names (sr_message sr));
  na_inj sr sr' : sr ∈ routes → sr' ∈ routes → lk (sr_message sr) = lk (sr_message sr') → sr_message sr = sr_message sr';
}.

Lemma start_told w resolved conn_gw named reg subnets c env : routes_ok plan reg →
  connection_start type_name addr_hash w resolved conn_gw named (set_route_from <$> all_routes reg) subnets = Ret (c, env, Ok tt) →
  ∃ by_tid told, write_ops (output_new w by_tid) (declare_ops (outbound resolved) ++ tell_ops named told) = Ret (output_writer c, Ok tt) ∧
    told `sublist_of` (set_route_from <$> all_routes reg) ∧ Forall (λ sr, via sr ≠ Some conn_gw) told ∧
    (StronglySorted net_le (set_route_from <$> all_routes reg) → Forall (λ e, gw e ≠ Some conn_gw) (all_routes reg) →
     ∀ n k m, plan n → is_least reg n k m → foldl (told_effect n k) None told = m).
Proof.
  intros Hr E. unfold connection_start in E. apply bind_Ret_inv in E as (by_lkey & _ & E). apply bind_Ret_inv in E as (by_tid & _ & E).
  destruct (declare_all (output_new w by_tid) (outbound resolved)) as [o [[]|]] eqn:Ed; [|done]. apply declare_all_ops in Ed.
  apply bind_Ret_inv in E as ([[o1 reg1] r] & Er & [= <- _ ->]). cbn [output_writer].
  destruct (set_routes_told o registry_default conn_gw named _ o1 reg1 (routes_default plan) (all_routes_args reg Hr) Er) as (told & Hs & Hv & Hw & Hf & Hl).
  exists by_tid, told. split; [rewrite write_ops_app, Ed; exact Hw|]. split; [done|]. split; [done|]. intros Hsort Hown n k m Hn Hm.
  assert (∀ g n k, route_of (registry_default (SM := SM)) g n k = None) as Hdef by done.
  assert (is_least reg1 n k (foldl (told_effect n k) None told)) as Hl1.
  { apply Hl; [|by apply all_routes_keys|done| |done|by intros g].
    - apply Forall_fmap. eapply Forall_impl; [exact Hown|]. intros e Hg. split; [by eexists | exact Hg].
    - apply Forall_forall. intros sr _. split; [apply Hdef|]. intros. apply Hdef. }
  eapply is_least_fun; [|exact Hm]. eapply is_least_ext; [|exact Hl1]. intros g. by rewrite Hf, Hdef, all_routes_fold.
Qed.

(** The reports as operations of the writer *)
Lemma start_ops names lk named resolved routes told by_tid : names_agree names lk named resolved routes → Forall (route_args named) routes → told `sublist_of` routes →
  let ops := declare_ops (outbound resolved) ++ tell_ops named told in
  Forall (op_args by_tid) ops ∧ Forall (op_names names) ops ∧ ∀ env an D, Forall (acceptable env an D) (ops_send ∅ by_tid ops).
Proof.
  intros [Hout Hnamed _] Hr Hs ops.
  assert (Forall (λ d, u64_ok d.2 ∧ name_ok d.1) (outbound resolved)) as Hd by (eapply Forall_impl; [exact Hout|]; cbn; tauto).
  pose proof (connection_ops_args type_name addr_hash by_tid resolved named routes told [] [] Hd Hr (Forall_nil_2 _) Hs ltac:(constructor)) as Hargs.
  cbn [concat] in Hargs. rewrite app_nil_r in Hargs. fold ops in Hargs. split_and!.
  - eapply Forall_impl; [exact Hargs|]. by intros ? [].
  - apply Forall_app. split; apply Forall_fmap.
    + eapply Forall_impl; [exact Hout|]. intros [name k] (_ & _ & E). exact E.
    + apply Forall_forall. intros sr Hsr. cbn. by rewrite Hnamed by (eapply elem_of_submseteq; [done | by apply sublist_submseteq]).
  - intros env an D. apply Forall_forall. intros x (D' & op & Hop & Hx)%ops_send_from. rewrite Forall_forall in Hargs. apply Hargs in Hop as Ha.
    apply op_sends_from in Hx. destruct x as [|k name|n k [m|]|m body]; cbn [acceptable]; try done.
    + destruct Hx as (sr & nm & -> & Em). destruct Ha as [_ Ha]. by rewrite <- Em in Ha.
    + apply elem_of_app in Hop as [(d & -> & _)%list_elem_of_fmap|(sr & -> & _)%list_elem_of_fmap]; done.
Qed.

(** C9: The routes of one node reach the next. All nets are of one address plan (no two overlap), the managers' tables are in order, every
    distance of the first node is below 255, both sides call a type by one name and two types that are routed by two, and the second
    side's manager answers its connection. When a connection has started on one side, with the routes its manager answered, the other
    side, reading what was written, handles it without an error and tells its own manager. From then on the table of that manager holds,
    besides what it held, only routes through this connection to nets the first node has a route to, not through the connection itself,
    for the type of the same name and one hop further. And if the first node's routes come in the order of their nets and none goes
    through the new connection, then for every net and type it holds the least distance of the first node plus one. *)
Theorem routes_learnt (mA mA' mB : Mgr) conn watch outA routes w resolved conn_gw named names subnets c envA env an c0 :
  let lk k := local_key env an (names k) in
  on_subscribe_to_routes mA conn watch = (mA', outA, Ok (Some (SubscribeToRoutesRs routes))) → routes_ok plan (route_registry mA) →
  connection_start type_name addr_hash w resolved conn_gw named routes subnets = Ret (c, envA, Ok tt) →
  names_agree names lk named resolved routes → Forall (route_args named) routes →
  manager_answers env an → type_key_map c0 = ∅ → manager_ok type_name plan mB →
  ∃ bytes fuel tells evs c' out', written (io_w (output_writer c)) = written w ++ bytes ∧ read_loop fuel tells bytes = (evs, ReadFailed) ∧
    handle_events (SM := SM) env an c0 evs = Ret (c', out', Ok tt) ∧ (∃ mB', sets default_key mB (omap out_route out') mB') ∧
    ∀ mB', sets default_key mB (omap out_route out') mB' → manager_ok type_name plan mB' ∧
      (∀ g n k m, plan n → route_of (route_registry mB') g n k = Some m → route_of (route_registry mB) g n k = Some m ∨
        g = Some (own_gw env) ∧ ∃ e, e ∈ all_routes (route_registry mA) ∧ dst_net e = n ∧ lk (message e) = k ∧ metric e + 1 = m ∧ gw e ≠ Some conn_gw) ∧
      (StronglySorted net_le routes → Forall (λ sr, via sr ≠ Some conn_gw) routes → ∀ n k m, plan n → is_least (route_registry mA) n k (Some m) →
        route_of (route_registry mB') (Some (own_gw env)) n (lk k) = Some (m + 1)).
Proof.
  intros lk Hsub HrA E Hna Hargs Hans Hc0 HmB. injection Hsub as _ _ <-.
  destruct (start_told _ _ _ _ _ _ _ _ HrA E) as (by_tid & told & Hops & Hs & Hv & Hleast).
  destruct (start_ops _ _ _ _ _ _ by_tid Hna Hargs Hs) as (Ha & Hnm & Hacc).
  set (ops := declare_ops (outbound resolved) ++ tell_ops named told) in *.
  destruct (write_ops_ok ops (output_new w by_tid) (output_writer c) Ha Hops) as (_ & _ & Hwd & Hdt & _). cbn [declared_types output_new outbound_by_type_id] in *.
  destruct (peer_handles w by_tid ops (output_writer c) env an c0 Ha Hops (Hacc _ _ _) Hans Hc0) as (bytes & fuel & tells & evs & c' & Hb & Hrd & Hh).
  eexists bytes, fuel, tells, evs, c', _. split; [done|]. split; [done|]. split; [exact Hh|].
  assert (∀ sr, sr ∈ told → sr ∈ set_route_from <$> all_routes (route_registry mA)) as Hsub by (intros sr Hsr; eapply elem_of_submseteq; [done | by apply sublist_submseteq]).
  assert (omap out_route (ops_send ∅ by_tid ops ≫= peer_out env an (declared_types (output_writer c))) =
    learnt (own_gw env) lk <$> ((λ sr, (destination sr, sr_message sr, sr_metric sr)) <$> told)) as ->.
  { rewrite (peer_outs_route env an names _ _ ∅ Hwd), ops_send_distance; [unfold ops; by rewrite tell_ops_distance|by rewrite Hdt|].
    intros k name. rewrite Hdt. intros [?|(D' & op & Hop & Hx)%ops_send_from]%declared_from; [done|]. rewrite Forall_forall in Hnm. eapply op_sends_names; eauto. }
  assert (Forall (set_route_ok_args plan) (learnt (own_gw env) lk <$> ((λ sr, (destination sr, sr_message sr, sr_metric sr)) <$> told))) as Hok.
  { apply Forall_fmap, Forall_fmap, Forall_forall. intros sr Hsr%Hsub. rewrite Forall_forall in Hargs. pose proof (Hargs sr Hsr) as (_ & _ & Hm & _).
    apply list_elem_of_fmap in Hsr as (e & -> & He). apply (all_routes_elem _ _ HrA) in He as (Hp & Hme & _). split; [exact Hp|]. cbn in *. intros m [= <-]. lia. }
  split; [by apply (sets_exist type_name default_key plan mB _ 0)|]. intros mB' Hsets.
  destruct (sets_ok type_name default_key plan mB _ mB' HmB Hok Hsets) as [HmB' Hfold]. split; [done|]. split.
  - intros g n k m Hn. rewrite Hfold by done. intros [?|(-> & sr & Hsr & <- & <- & Em)]%learnt_from; [by left|]. right. split; [done|].
    rewrite Forall_forall in Hv. apply Hv in Hsr as Hvia. apply Hsub, list_elem_of_fmap in Hsr as (e & -> & He). exists e. cbn in Em. injection Em as <-. done.
  - intros Hsort Hown n k m Hn Hm. rewrite Hfold by done. rewrite learnt_fold.
    + apply told_fold. apply Hleast; [exact Hsort| |done|done]. apply Forall_forall. intros e He. refine (proj1 (Forall_forall _ _) Hown (set_route_from e) _). apply list_elem_of_fmap. by exists e.
    + intros sr Hsr%Hsub Hk. destruct Hm as [[g Hg] _]. apply (route_in_all _ _ _ _ _ HrA Hn) in Hg.
      apply (na_inj _ _ _ _ _ Hna sr (set_route_from (mkRoute k n g m))); [done| |done]. apply list_elem_of_fmap. by eexists.
Qed.
End Network.

(** ** Example: a node learns of [west] *)
Section Examples.
#[local] Existing Instance fixed_bincode.
#[local] Existing Instance gmap_slot_map.
#[local] Existing Instance elements_order.
#[local] Existing Instance two_nets_plan.
#[local] Existing Instance gws_bimap.

Definition west_routes : list SetRoute := [mkSetRoute 7 west (Some 100) (Some 1)].
Definition west_start := connection_start (SM := gmap Z) names no_hash (mkWriter [] 1000) ex_ping 200 named_ping west_routes [].
Definition west_conn : Connection (SM := gmap Z) :=
  match west_start with Ret (c, _, _) => c | _ => mkConnection fresh_writer registry_default ∅ end.
Definition west_env : ConnectionEnv := match west_start with Ret (_, e, _) => e | _ => ex_peer end.

Lemma m2_west : all_routes (route_registry m2) = [mkRoute 7 west (Some 100) 1].
Proof. vm_compute. reflexivity. Qed.

Lemma routes_learnt_witness : ∃ srs mB', sets (SM := gmap Z) 0 m0 srs mB' ∧ route_of (route_registry mB') (Some 200) west 3 = Some 2.
Proof.
  destruct (run_ok names 0 two_nets _ _ _ (manager_default_ok names two_nets) run2) as [Hm _].
  destruct (routes_learnt (SM := gmap Z) names no_hash two_nets 0 m2 (on_subscribe_to_routes m2 50 60).1.1 m0 50 60 (on_subscribe_to_routes m2 50 60).1.2
    west_routes (mkWriter [] 1000) ex_ping 200 named_ping (λ _, "app::Ping"%string) [] west_conn west_env ex_peer ex_answers
    (mkConnection fresh_writer registry_default ∅)) as (bytes & fuel & tells & evs & c' & out' & _ & _ & _ & [mB' Hs] & Hall).
  - unfold on_subscribe_to_routes. rewrite m2_west. reflexivity.
  - exact (mo_routes _ _ _ Hm).
  - vm_compute. reflexivity.
  - split.
    + repeat constructor; cbn; unfold u64_ok; lia || reflexivity.
    + done.
    + intros sr sr' ->%list_elem_of_singleton ->%list_elem_of_singleton. done.
  - repeat constructor; cbn; unfold u64_ok, u8_ok; lia || reflexivity.
  - split; [by eexists | done].
  - reflexivity.
  - exact (manager_default_ok names two_nets).
  - exists (omap out_route out'), mB'. split; [exact Hs|]. destruct (Hall mB' Hs) as (_ & _ & Hl).
    apply (Hl ltac:(repeat constructor) ltac:(repeat constructor; discriminate) west 7 1); [by left|].
    assert (route_of (route_registry m2) (Some 100) west 7 = Some 1) as Hr by (vm_compute; reflexivity). split; [by exists (Some 100)|].
    intros g c Hg. apply (route_in_all two_nets _ _ _ _ _ (mo_routes _ _ _ Hm) (or_introl eq_refl)) in Hg. rewrite m2_west in Hg.
    apply list_elem_of_singleton in Hg. by injection Hg as _ ->.
Defined.
End Examples.
