(* ===== verification/Codec.v ===== *)
(** * Codecs (components/mm1-multinode/src/codec.rs, [ErasedCodecApi])

    How a message of a known type becomes a body and a body a message again. MessagePack ([rmp_serde]) is a parameter; what is relied
    upon is that it reads what it has written. *)

From stdpp Require Import strings.
From S2P Require Import Prelude U64 Address Protocols Wire Stream Dispatch Connection Remote.

Open Scope Z_scope.

Class MessagePack := {
  mp_write : TypeId → value → result (list byte) unit;
  mp_read : TypeId → list byte → result value unit;
  mp_read_write t v body : vtype v = t → mp_write t v = Ok body → mp_read t body = Ok v;
}.

Section Codec.
Context `{MessagePack} (type_name : TypeId → string).

(** [encode] and [decode] of [Known<T>] and of [Opaque] *)
Definition codec_encode (c : Codec) (message : AnyMessage) : result (list byte) unit :=
  match c with
  | Known t => match any_peek t message with None => Err tt | Some typed_message => mp_write t typed_message end
  | Opaque _ => Err tt
  end.
Definition codec_decode (c : Codec) (body : list byte) : result AnyMessage unit :=
  match c with
  | Known t => match mp_read t body with Ok typed_message => Ok (any_new type_name typed_message) | Err e => Err e end
  | Opaque _ => Err tt
  end.

(** The message of a connection's gateway address, as its writer takes it: the codec it finds by the message's type is a known one. *)
Definition to_forward (message : AnyMessage) : ToForward := TypedMessage (any_tid message) (codec_encode (Known (any_tid message)) message).

(** The envelope that is sent on to the actor, [handle_connection_actor_message] *)
Definition to_deliver (c : Codec) (m : TransmitMessage) (body : list byte) : result (Envelope AnyMessage) unit :=
  match codec_decode c body with
  | Err e => Err e
  | Ok any_message => Ok (mkEnvelope (mkEnvHeader (dst_address m) (trace_id m) (origin_seq_no m) (tm_ttl m) (tm_priority m)) any_message)
  end.

(** A message that a program has made, sent through a gateway: if its type can be written, it arrives as it was, in an envelope with the same
    header but for one hop less to live. A message of another type than the codec's is refused, and an opaque codec refuses everything. *)
Theorem typed_roundtrip v h key :
  let m := any_new type_name v in
  match to_forward m with
  | TypedMessage t (Ok body) =>
      to_deliver (Known t) (on_wire h key body).1 body = Ok (mkEnvelope (with_ttl h (eh_ttl h - 1)) m) ∧
      (∀ t' n, t' ≠ t → codec_encode (Known t') m = Err tt ∧ codec_encode (Opaque n) m = Err tt ∧ codec_decode (Opaque n) body = Err tt)
  | TypedMessage t (Err _) => mp_write t v = Err tt
  | ForwardBody _ _ _ => False
  end.
Proof.
  cbn. unfold any_peek. cbn [any_message any_new]. rewrite Z.eqb_refl. destruct (mp_write (vtype v) v) as [body|[]] eqn:E; [|done]. split.
  - unfold to_deliver, codec_decode. rewrite (mp_read_write _ _ _ eq_refl E). done.
  - intros t' n Hne. rewrite (proj2 (Z.eqb_neq _ _)) by congruence. done.
Qed.
End Codec.
