(* ===== verification/Config.v ===== *)
(** * The configuration of a node (core/mm1-node/src/config.rs, config/actor_config.rs, config/rt_config.rs,
    config/validation.rs, config/defaults.rs, actor_key.rs, and the lookups of runtime/rt_api.rs)

    What a configuration says of every actor and of the node's subnets, and the validation whose success the rest of the
    node relies on. Reading the configuration from text is serde's. *)

From Stdlib Require Import Ascii.
From stdpp Require Import sorting strings.
From S2P Require Import Prelude U64 Address Subnet Btree Routes.

Open Scope Z_scope.

(** ** Actor keys *)
Inductive ActorKey := Root | Child (parent : ActorKey) (func : string).

(** [trim_matches('(')], and the part before the first [<] *)
Fixpoint trim_start (s : string) : string :=
  match s with
  | String c s' => if bool_decide (c = "("%char) then trim_start s' else s
  | EmptyString => EmptyString
  end.
Fixpoint trim_end (s : string) : string :=
  match s with
  | EmptyString => EmptyString
  | String c s =>
      match trim_end s with
      | EmptyString => if bool_decide (c = "("%char) then EmptyString else String c EmptyString
      | s => String c s
      end
  end.
Fixpoint before_lt (s : string) : string :=
  match s with
  | String c s => if bool_decide (c = "<"%char) then EmptyString else String c (before_lt s)
  | EmptyString => EmptyString
  end.
Definition func_segment (func : string) : string := before_lt (trim_end (trim_start func)).

(** [ActorKey::child] and [ActorKey::path] *)
Definition child (k : ActorKey) (func : string) : ActorKey := Child k (func_segment func).
Fixpoint path_up (k : ActorKey) : list string :=
  match k with Root => [] | Child parent func => func :: path_up parent end.
Definition path (k : ActorKey) : list string := rev (path_up k).

(** ** The configuration of actors *)
Record ActorConfig := mkActorConfig {
  ac_runtime : option string;
  ac_message_tap : option string;
  ac_netmask : option NetMask;
  ac_inbox_size : option Z;
}.

(** [sub] is a [HashMap], listed in the order in which it is iterated. *)
Inductive ActorConfigNode := mkActorNode (config : ActorConfig) (sub : list (string * ActorConfigNode)).
Definition node_config (n : ActorConfigNode) : ActorConfig := let '(mkActorNode c _) := n in c.
Definition node_sub (n : ActorConfigNode) : list (string * ActorConfigNode) := let '(mkActorNode _ s) := n in s.

Definition sub_get (n : ActorConfigNode) (p : string) : option ActorConfigNode :=
  (λ e, e.2.2) <$> list_find (λ e, e.1 = p) (node_sub n).

(** The node for a step of the path *)
Definition step_into (n : ActorConfigNode) (p : string) : option ActorConfigNode := or_ (sub_get n p) (sub_get n "_").

Definition overlay (n out : ActorConfig) : ActorConfig :=
  mkActorConfig (or_ (ac_runtime n) (ac_runtime out)) (or_ (ac_message_tap n) (ac_message_tap out))
    (or_ (ac_netmask n) (ac_netmask out)) (or_ (ac_inbox_size n) (ac_inbox_size out)).

(** [ActorConfigNode::select] *)
Fixpoint select_loop (path : list string) (node : ActorConfigNode) (out : ActorConfig) : ActorConfig :=
  match path with
  | [] => out
  | p :: path =>
      match step_into node p with
      | None => out
      | Some n => select_loop path n (overlay (node_config n) out)
      end
  end.
Definition select (n : ActorConfigNode) (k : ActorKey) : ActorConfig := select_loop (path k) n (node_config n).

(** [EffectiveActorConfig for ActorConfig] *)
Definition DEFAULT_ACTOR_NETMASK : NetMask := 56.
Definition DEFAULT_ACTOR_INBOX_SIZE : Z := 1024.
Definition netmask (c : ActorConfig) : NetMask := default DEFAULT_ACTOR_NETMASK (ac_netmask c).
Definition inbox_size (c : ActorConfig) : Z := default DEFAULT_ACTOR_INBOX_SIZE (ac_inbox_size c).

(** [ActorConfigNode::runtime_keys]: a stack of nodes still to visit, its top first; the fuel is the number of nodes. *)
Fixpoint node_size (n : ActorConfigNode) : nat :=
  match n with mkActorNode _ sub => S (list_sum (map (λ e, let '(_, n) := e in node_size n) sub)) end.
Fixpoint runtime_keys_loop (fuel : nat) (q : list ActorConfigNode) (used_keys : BTreeMap string unit) : option (BTreeMap string unit) :=
  match q with
  | [] => Some used_keys
  | n :: q =>
      match fuel with
      | O => None
      | S fuel =>
          let used_keys := match ac_runtime (node_config n) with
                           | Some k => bt_insert String.compare used_keys k tt
                           | None => used_keys
                           end in
          runtime_keys_loop fuel (rev (node_sub n).*2 ++ q) used_keys
      end
  end.
Definition runtime_keys (n : ActorConfigNode) : BTreeMap string unit := default [] (runtime_keys_loop (node_size n) [n] []).

(** ** Runtimes *)
Record RtConfig := mkRt {
  worker_threads : Z;
  blocking_threads_max : Z;
  blocking_thread_keep_alive : Z;
  thread_stack_size : Z;
  enable_io : bool;
  enable_time : bool;
}.
Record RtConfigs := mkRts { rt_default : option RtConfig; rt_named : gmap string RtConfig }.

Definition rt_config_default (num_cpus : Z) : RtConfig := mkRt num_cpus 512 10000000000 (2 * 1024 * 1024) true true.

(** ** The node *)
Inductive LocalSubnetKind := Auto | Bind.
#[export] Instance local_subnet_kind_eq_dec : EqDecision LocalSubnetKind.
Proof. solve_decision. Defined.
Record DefLocalSubnet := mkLocalSubnet { ls_net : NetAddress; ls_kind : LocalSubnetKind }.

Inductive DefAddr (SocketAddr Path : Type) := DefTcp (a : SocketAddr) | DefUds (p : Path).
Arguments DefTcp {SocketAddr Path} a.
Arguments DefUds {SocketAddr Path} p.

(** What [validate] reports, without its wording *)
Inductive ConfigError :=
| InvalidRtKeys (keys : list string)
| DefaultWithoutTime
| RuntimeWithoutTime (name : string)
| NotOneAuto
| Overlaps (this that : NetAddress).

Section Node.
Context {SocketAddr Path Options : Type}.

Record Mm1NodeConfig := mkNodeConfig {
  local_subnets : list DefLocalSubnet;
  inbound_ifaces : list (list string * DefAddr SocketAddr Path * Options);
  outbound_ifaces : list (list string * DefAddr SocketAddr Path * Options);
  actor : ActorConfigNode;
  runtime : RtConfigs;
}.

(** [Default for Mm1NodeConfig] *)
Definition DEFAULT_LOCAL_SUBNET_ADDRESS_AUTO : NetAddress := mkNet 0xFFF8000000000000 13.
Definition DEFAULT_LOCAL_SUBNET_ADDRESS_BIND : NetAddress := mkNet 0xFFF0000000000000 13.
Definition default_local_subnets : list DefLocalSubnet :=
  [mkLocalSubnet DEFAULT_LOCAL_SUBNET_ADDRESS_AUTO Auto; mkLocalSubnet DEFAULT_LOCAL_SUBNET_ADDRESS_BIND Bind].
Definition node_config_default : Mm1NodeConfig :=
  mkNodeConfig default_local_subnets [] [] (mkActorNode (mkActorConfig None None None None) []) (mkRts None ∅).

(** ** Validation *)

(** [ensure_runtime_keys_are_valid]; [difference] keeps the order of the set. *)
Definition ensure_runtime_keys_are_valid (n : ActorConfigNode) (available : gset string) : result unit (list string) :=
  let invalid_keys := filter (λ k, k ∉ available) (runtime_keys n).*1 in
  match invalid_keys with [] => Ok tt | _ => Err invalid_keys end.

(** [time_driver_validation_errors] *)
Definition time_driver_validation_errors (rts : RtConfigs) (used : list string) : list ConfigError :=
  (match rt_default rts with Some c => if enable_time c then [] else [DefaultWithoutTime] | None => [] end) ++
  omap (λ name, match rt_named rts !! name with
                | Some c => if enable_time c then None else Some (RuntimeWithoutTime name)
                | None => None
                end) used.

(** The local subnets that overlap an earlier one that overlaps none *)
Fixpoint overlapping_local_nets (nets : BTreeMap AddressRange unit) (l : list NetAddress) : outcome (list ConfigError) :=
  match l with
  | [] => Ret []
  | this :: l =>
      range ← range_from_net this;
      match bt_entry range_cmp nets range with
      | Some (r, _) =>
          that ← net_from_range r;
          conflicts ← overlapping_local_nets nets l;
          Ret (Overlaps this that :: conflicts)
      | None => overlapping_local_nets (bt_insert range_cmp nets range tt) l
      end
  end.

Definition one_auto (l : list DefLocalSubnet) : bool := bool_decide (length (filter (λ d, ls_kind d = Auto) l) = 1%nat).

(** [Mm1NodeConfig::validate] *)
Definition validate (c : Mm1NodeConfig) : outcome (result Mm1NodeConfig (list ConfigError * Mm1NodeConfig)) :=
  let used_runtime_keys := (runtime_keys (actor c)).*1 in
  let runtime_keys_error := match ensure_runtime_keys_are_valid (actor c) (dom (rt_named (runtime c))) with
                            | Ok _ => []
                            | Err keys => [InvalidRtKeys keys]
                            end in
  let time_errors := time_driver_validation_errors (runtime c) used_runtime_keys in
  let auto_error := if one_auto (local_subnets c) then [] else [NotOneAuto] in
  conflicts ← overlapping_local_nets [] (ls_net <$> local_subnets c);
  let errors := runtime_keys_error ++ time_errors ++ auto_error ++ conflicts in
  Ret match errors with [] => Ok c | _ => Err (errors, c) end.

(** ** What a validated configuration is used for *)

(** [local_subnet_address_auto] and [local_subnet_addresses_bind] *)
Definition local_subnet_address_auto (c : Mm1NodeConfig) : outcome NetAddress :=
  e ← expect (list_find (λ d, ls_kind d = Auto) (local_subnets c)); Ret (ls_net e.2).
Definition local_subnet_addresses_bind (c : Mm1NodeConfig) : list NetAddress :=
  omap (λ d, match ls_kind d with Bind => Some (ls_net d) | Auto => None end) (local_subnets c).

Section Runtimes.
Context {Rt Tap : Type} (build_default : result Rt unit) (build : string → RtConfig → result Rt unit).

(** [RtConfig::build_runtime]: [build] is what tokio's builder makes of the settings in the end; its setters for the numbers of threads panic when they are zero. *)
Definition build_runtime (thread_name : string) (c : RtConfig) : outcome (result Rt unit) :=
  assert_ (0 <? worker_threads c);;
  assert_ (0 <? blocking_threads_max c);;
  Ret (build thread_name c).

(** [RtConfigs::build_runtimes]; [build_default] is tokio's builder without a configuration. *)
Fixpoint build_named (l : list (string * RtConfig)) : outcome (result (gmap string Rt) unit) :=
  match l with
  | [] => Ret (Ok ∅)
  | (n, c) :: l =>
      built ← build_runtime n c;
      match built with
      | Err e => Ret (Err e)
      | Ok rt => named ← build_named l; Ret match named with Ok m => Ok (<[n := rt]> m) | Err e => Err e end
      end
  end.
Definition build_runtimes (rts : RtConfigs) : outcome (result (Rt * gmap string Rt) unit) :=
  default ← match rt_default rts with Some c => build_runtime "default" c | None => Ret build_default end;
  match default with
  | Err e => Ret (Err e)
  | Ok d => named ← build_named (map_to_list (rt_named rts)); Ret match named with Ok m => Ok (d, m) | Err e => Err e end
  end.

(** [RtApi::choose_executor] and [RtApi::message_tap] *)
Definition choose_executor (default_rt : Rt) (named_rts : gmap string Rt) (key : option string) : outcome Rt :=
  match key with Some key => expect (named_rts !! key) | None => Ret default_rt end.
Definition message_tap (default_tap : Tap) (message_taps : gmap string Tap) (key : option string) : Tap :=
  default default_tap (key ≫= λ k, message_taps !! k).

End Runtimes.
End Node.

(** ** Effective configurations *)
Lemma path_child k func : path (child k func) = path k ++ [func_segment func].
Proof. done. Qed.

(** The node of a path, when the tree has one for all of it *)
Fixpoint node_at (n : ActorConfigNode) (ps : list string) : option ActorConfigNode :=
  match ps with [] => Some n | p :: ps => n ← step_into n p; node_at n ps end.

Lemma select_loop_app ps qs n out :
  select_loop (ps ++ qs) n out =
    match node_at n ps with Some n' => select_loop qs n' (select_loop ps n out) | None => select_loop ps n out end.
Proof.
  revert n out. induction ps as [|p ps IH]; intros n out; cbn; [done|].
  destruct (step_into n p) as [n1|]; cbn; [apply IH|done].
Qed.

(** Configurations are inherited along the actor tree: the effective configuration of a child differs from its parent's exactly in the
    settings made at the node for the child, that of its function's name or else the wildcard; where the tree has no node for the
    parent or none for the child, it is the parent's. *)
Theorem select_inherits n k func :
  select n (child k func) =
    match node_at n (path k) ≫= λ p, step_into p (func_segment func) with
    | Some m => overlay (node_config m) (select n k)
    | None => select n k
    end.
Proof.
  unfold select. rewrite path_child, select_loop_app. destruct (node_at n (path k)) as [p|]; cbn; [|done].
  by destruct (step_into p (func_segment func)).
Qed.

(** ** The runtimes the actors use *)
Inductive uses (k : string) : ActorConfigNode → Prop :=
| uses_here n : ac_runtime (node_config n) = Some k → uses k n
| uses_sub n e : e ∈ node_sub n → uses k e.2 → uses k n.

Lemma uses_inv k n : uses k n ↔ ac_runtime (node_config n) = Some k ∨ ∃ e, e ∈ node_sub n ∧ uses k e.2.
Proof. split; [intros []; eauto|]. intros [?|(e & ? & ?)]; [by apply uses_here|by eapply uses_sub]. Qed.

Definition nodes_size (q : list ActorConfigNode) : nat := list_sum (node_size <$> q).
Lemma nodes_size_cons n q : nodes_size (n :: q) = (node_size n + nodes_size q)%nat.
Proof. done. Qed.

Lemma node_size_eq n : node_size n = S (nodes_size (node_sub n).*2).
Proof.
  destruct n as [c sub]. cbn [node_size node_sub]. unfold nodes_size. do 2 f_equal.
  induction sub as [|[k m] sub IH]; [done|]. cbn [map fmap list_fmap]. by rewrite IH.
Qed.

Lemma nodes_size_app q q' : nodes_size (q ++ q') = (nodes_size q + nodes_size q')%nat.
Proof. unfold nodes_size. rewrite fmap_app. apply list_sum_app. Qed.
Lemma nodes_size_rev q : nodes_size (rev q) = nodes_size q.
Proof. induction q as [|n q IH]; [done|]. cbn [rev]. rewrite nodes_size_app, IH, !nodes_size_cons. cbn. lia. Qed.

Notation keys_ok := (bt_ok (V := unit) String.compare (λ _, True)).
#[local] Existing Instance string_lawful.

(** The traversal visits every node once and needs no more fuel than there are nodes. *)
Lemma runtime_keys_loop_ok fuel q used : keys_ok used → (nodes_size q ≤ fuel)%nat →
  ∃ used', runtime_keys_loop fuel q used = Some used' ∧ keys_ok used' ∧
    ∀ k, k ∈ used'.*1 ↔ k ∈ used.*1 ∨ ∃ n, n ∈ q ∧ uses k n.
Proof.
  revert q used. induction fuel as [|fuel IH]; intros [|n q] used Hu Hf.
  1,3: exists used; split_and!; [done|done|]; intros k; split; [by left|]; intros [?|(n & Hn%not_elem_of_nil & _)]; done.
  { rewrite nodes_size_cons, node_size_eq in Hf. lia. }
  cbn [runtime_keys_loop]. set (used1 := match ac_runtime (node_config n) with Some k => _ | None => _ end).
  assert (H1 : keys_ok used1 ∧ ∀ k, k ∈ used1.*1 ↔ k ∈ used.*1 ∨ ac_runtime (node_config n) = Some k).
  { subst used1. destruct (ac_runtime (node_config n)) as [k0|]; [|split; [done|]; intros k; naive_solver].
    destruct (bt_insert_ok String.compare (λ _, True) used k0 tt Hu I) as [Ho He]. split; [done|]. intros k.
    rewrite !list_elem_of_fmap. setoid_rewrite He. split.
    - intros ([k1 []] & -> & [[= ->]|[Hin _]]); cbn; [by right|]. left. by exists (k1, tt).
    - intros [(e & -> & Hin)|[= ->]]; [|exists (k, tt); by split; [|left]]. destruct e as [k1 []]. cbn.
      exists (k1, tt). split; [done|]. destruct (decide (k1 = k0)) as [->|?]; [by left|by right]. }
  destruct H1 as [Hu1 He1]. destruct (IH (rev (node_sub n).*2 ++ q) used1 Hu1) as (used' & -> & Hu' & He').
  { rewrite nodes_size_app, nodes_size_rev. rewrite nodes_size_cons, node_size_eq in Hf. lia. }
  exists used'. split_and!; [done|done|]. intros k. rewrite He', He1. setoid_rewrite elem_of_app.
  split.
  - intros [[?|?]|(m & [Hm|Hm] & Huse)]; [by left|right; exists n; split; [left|by apply uses_here]| |right; exists m; split; [by right|done]].
    apply list_elem_of_In, in_rev, list_elem_of_In, list_elem_of_fmap in Hm as (e & -> & Hin).
    right. exists n. split; [left|by eapply uses_sub].
  - intros [?|(m & [->|Hm]%elem_of_cons & Huse)]; [by left; left| |right; exists m; split; [by right|done]].
    apply uses_inv in Huse as [?|(e & Hin & Huse)]; [by left; right|]. right. exists e.2. split; [|done]. left.
    apply list_elem_of_In, in_rev. rewrite rev_involutive. apply list_elem_of_In, list_elem_of_fmap. eauto.
Qed.

Lemma runtime_keys_ok n : keys_ok (runtime_keys n) ∧ ∀ k, k ∈ (runtime_keys n).*1 ↔ uses k n.
Proof.
  unfold runtime_keys. destruct (runtime_keys_loop_ok (node_size n) [n] []) as (used & -> & Ho & He).
  - apply bt_ok_nil.
  - rewrite nodes_size_cons. cbn. lia.
  - split; [done|]. intros k. cbn. rewrite He. setoid_rewrite list_elem_of_singleton. cbn. rewrite elem_of_nil. naive_solver.
Qed.

(** A selected runtime is one the tree uses. *)
Lemma sub_get_elem n p m : sub_get n p = Some m → ∃ k, (k, m) ∈ node_sub n.
Proof.
  unfold sub_get. destruct (list_find _ _) as [[i [k m']]|] eqn:E; [|done]. intros [= <-]. exists k.
  apply list_find_Some in E as (E & _). by eapply list_elem_of_lookup_2.
Qed.
Lemma step_into_elem n p m : step_into n p = Some m → ∃ k, (k, m) ∈ node_sub n.
Proof. unfold step_into, or_. destruct (sub_get n p) eqn:E; [intros [= <-]; by eapply sub_get_elem|]. by eapply sub_get_elem. Qed.

Lemma select_loop_uses k ps n out : ac_runtime (select_loop ps n out) = Some k → ac_runtime out = Some k ∨ uses k n.
Proof.
  revert n out. induction ps as [|p ps IH]; intros n out; cbn; [by left|]. destruct (step_into n p) as [m|] eqn:E; [|by left].
  apply step_into_elem in E as [q Hin]. intros [Hr|Hu]%IH; [|right; by eapply (uses_sub k n (q, m))].
  cbn in Hr. destruct (ac_runtime (node_config m)) as [k'|] eqn:Em; [|by left]. cbn in Hr. injection Hr as ->.
  right. eapply (uses_sub k n (q, m)); [done|]. by apply uses_here.
Qed.

Lemma select_uses k n key : ac_runtime (select n key) = Some k → uses k n.
Proof. intros [?|?]%select_loop_uses; [by apply uses_here|done]. Qed.

(** ** Local subnets that do not overlap *)
Definition ranges_ok (nets : BTreeMap AddressRange unit) : Prop :=
  Forall (λ e, range_ok e.1) nets ∧ StronglySorted (key_lt range_cmp) nets.

Lemma ranges_ok_cons e nets : ranges_ok (e :: nets) ↔ range_ok e.1 ∧ Forall (key_lt range_cmp e) nets ∧ ranges_ok nets.
Proof.
  unfold ranges_ok. rewrite Forall_cons. split.
  - intros [[He Hm] [Hs Hl]%StronglySorted_inv]. tauto.
  - intros (He & Hl & Hm & Hs). repeat split; [done|done|]. by constructor.
Qed.

(** A search with the overlap order finds an overlapping range exactly when there is one. *)
Lemma overlap_search nets r : ranges_ok nets → range_ok r →
  bt_entry range_cmp nets r = None ↔ Forall (λ e, range_disjoint r e.1) nets.
Proof.
  intros Hn Hr. induction nets as [|e nets IH]; cbn; [split; [constructor|done]|].
  apply ranges_ok_cons in Hn as (He & Hl & Hn). rewrite Forall_cons.
  assert (Hd : range_cmp r e.1 ≠ Eq ↔ range_disjoint r e.1).
  { rewrite (range_cmp_eq_overlap r e.1) by done. unfold range_disjoint. naive_solver. }
  destruct (range_cmp r e.1) eqn:E; [naive_solver| |rewrite IH by done; naive_solver].
  split; [intros _|done]. split; [by apply Hd|]. destruct Hn as [Hok _]. rewrite Forall_forall in *. intros e' Hin.
  apply range_cmp_lt in E; [|done|done]. pose proof (Hl e' Hin) as Hlt. apply range_cmp_lt in Hlt; [|done|by apply Hok].
  unfold range_disjoint, range_contains. unfold range_ok in *. intros x. lia.
Qed.

Lemma insert_disjoint nets r : ranges_ok nets → range_ok r → Forall (λ e, range_disjoint r e.1) nets →
  ranges_ok (bt_insert range_cmp nets r tt) ∧ ∀ e, e ∈ bt_insert range_cmp nets r tt ↔ e = (r, tt) ∨ e ∈ nets.
Proof.
  intros Hn Hr. induction nets as [|x nets IH]; cbn; intros Hd.
  { split; [apply ranges_ok_cons; split_and!; [done|constructor|done]|]. intros e. rewrite list_elem_of_singleton, elem_of_nil. naive_solver. }
  pose proof Hn as (Hx & Hl & Hn')%ranges_ok_cons. apply Forall_cons in Hd as [Hdx Hd]. destruct (range_cmp r x.1) eqn:E.
  - apply range_cmp_eq_overlap in E as (y & ? & ?); [|done|done]. by destruct (Hdx y).
  - split; [|intros e; by rewrite elem_of_cons]. apply ranges_ok_cons. split_and!; [done| |done]. apply Forall_cons. split; [done|].
    destruct Hn' as [Hok _]. rewrite Forall_forall in *. intros e' Hin. pose proof (Hl e' Hin) as Hlt. unfold key_lt in *. cbn.
    apply range_cmp_lt in E; [|done|done]. apply range_cmp_lt in Hlt; [|done|by apply Hok]. apply range_cmp_lt; [done|by apply Hok|].
    unfold range_ok in *. lia.
  - destruct (IH Hn' Hd) as [Ho He]. split.
    + apply ranges_ok_cons. split_and!; [done| |apply Ho..]. apply Forall_forall. intros e [->|Hin]%He.
      * unfold key_lt. cbn. apply range_cmp_lt; [done|done|]. by apply range_cmp_gt in E.
      * rewrite Forall_forall in Hl. by apply Hl.
    + intros e. rewrite !elem_of_cons, He. naive_solver.
Qed.

(** The addresses of a subnet: from its address to the end of its block *)
Definition covers (n : NetAddress) (x : Z) : Prop := ∃ r, range_from_net n = Ret r ∧ range_contains r x.
Definition apart (n m : NetAddress) : Prop := ∀ x, ¬ (covers n x ∧ covers m x).

Lemma range_from_net_total n : net_ok n → ∃ r, range_from_net n = Ret r ∧ range_ok r.
Proof.
  intros Hn. rewrite range_from_net_eq by done. eexists. split; [done|]. destruct Hn as [Ha Hm].
  pose proof (div_bounds (address n) (64 - mask n)). unfold range_ok. cbn. lia.
Qed.

Lemma covers_range n r x : range_from_net n = Ret r → covers n x ↔ range_contains r x.
Proof. intros E. unfold covers. rewrite E. naive_solver. Qed.

Lemma net_from_range_total r : ∃ n, net_from_range r = Ret n.
Proof.
  unfold net_from_range, net_mask_try_from, ADDRESS_BITS, U64_BITS.
  set (x := leading_ones _). assert (x ≤ 64).
  { subst x. unfold leading_ones, leading_zeros. case_Zb; [lia|]. pose proof (Z.log2_nonneg (u64_not (u64_not (Z.lxor (lo r) (hi r))))). lia. }
  destruct (Z.leb_spec x 64); [eauto|lia].
Qed.

Lemma overlapping_ok nets l : ranges_ok nets → Forall net_ok l →
  ∃ es, overlapping_local_nets nets l = Ret es ∧
    (es = [] ↔ ForallOrdPairs apart l ∧ ∀ n e x, n ∈ l → e ∈ nets → covers n x → ¬ range_contains e.1 x).
Proof.
  revert nets. induction l as [|n l IH]; intros nets Hn Hl; cbn.
  { exists []. split; [done|]. split; [intros _; split; [constructor|by intros n e x ?%not_elem_of_nil]|done]. }
  apply Forall_cons in Hl as [Hn0 Hl]. destruct (range_from_net_total n Hn0) as (r & Er & Hr). rewrite Er. cbn [mbind outcome_bind].
  pose proof (overlap_search nets r Hn Hr) as Hs. destruct (bt_entry range_cmp nets r) as [[r' []]|] eqn:Ee.
  - destruct (net_from_range_total r') as [that ->]. cbn [mbind outcome_bind].
    destruct (IH nets Hn Hl) as (es & -> & _). cbn [mbind outcome_bind]. eexists. split; [done|]. split; [done|]. intros [_ Hd]. exfalso.
    assert (Hc : Some (r', ()) = None); [|done]. apply Hs. apply Forall_forall. intros e Hin x [Hx Hy].
    apply (Hd n e x); [left|done| |done]. by apply (covers_range n r).
  - destruct (insert_disjoint nets r Hn Hr (proj1 Hs eq_refl)) as [Ho He].
    destruct (IH _ Ho Hl) as (es & -> & Hes). exists es. split; [done|]. rewrite Hes. pose proof (proj1 Hs eq_refl) as Hd. rewrite Forall_forall in Hd.
    split.
    + intros [Hp Hall]. split.
      * constructor; [|done]. apply Forall_forall. intros m Hm x [Hx Hy]. eapply (Hall m (r, tt) x); [done| |done|by apply (covers_range n)].
        apply He. by left.
      * intros m e x [->|Hm]%elem_of_cons Hin Hx Hy; [|by eapply (Hall m e x); [|apply He; right| |]].
        apply (Hd e Hin x). split; [|done]. by apply (covers_range n r).
    + intros [Hp Hall]. inversion Hp as [|? ? Hn1 Hp1]; subst. split; [done|]. intros m e x Hm [->|Hin]%He Hx Hy.
      * rewrite Forall_forall in Hn1. apply (Hn1 m Hm x). split; [|done]. by apply (covers_range n r).
      * apply (Hall m e x); [by right|done|done|done].
Qed.

(** ** What validation means *)
Section Validate.
Context {SocketAddr Path Options : Type}.
Notation NodeConfig := (Mm1NodeConfig (SocketAddr := SocketAddr) (Path := Path) (Options := Options)).

Record config_ok (c : NodeConfig) : Prop := {
  co_keys k : uses k (actor c) → is_Some (rt_named (runtime c) !! k);
  co_default rt : rt_default (runtime c) = Some rt → enable_time rt = true;
  co_time k rt : uses k (actor c) → rt_named (runtime c) !! k = Some rt → enable_time rt = true;
  co_auto : length (filter (λ d, ls_kind d = Auto) (local_subnets c)) = 1%nat;
  co_apart : ForallOrdPairs apart (ls_net <$> local_subnets c);
}.

Lemma app_nil_iff {A} (l l' : list A) : l ++ l' = [] ↔ l = [] ∧ l' = [].
Proof. split; [apply app_nil|]. by intros [-> ->]. Qed.

Lemma keys_valid_iff (c : NodeConfig) :
  match ensure_runtime_keys_are_valid (actor c) (dom (rt_named (runtime c))) with Ok _ => [] | Err keys => [InvalidRtKeys keys] end = [] ↔
  ∀ k, uses k (actor c) → is_Some (rt_named (runtime c) !! k).
Proof.
  unfold ensure_runtime_keys_are_valid. destruct (runtime_keys_ok (actor c)) as [_ Hk].
  destruct (filter _ (runtime_keys (actor c)).*1) as [|k l] eqn:E.
  - split; [intros _ k Hu|done]. apply Hk in Hu. destruct (decide (k ∈ dom (rt_named (runtime c)))) as [Hd|Hd]; [by apply elem_of_dom|].
    assert (Hin : k ∈ filter (λ k, k ∉ dom (rt_named (runtime c))) (runtime_keys (actor c)).*1) by (by apply list_elem_of_filter).
    rewrite E in Hin. by apply not_elem_of_nil in Hin.
  - split; [done|]. intros Hall. exfalso. assert (Hin : k ∈ k :: l) by left. rewrite <- E in Hin. apply list_elem_of_filter in Hin as [Hd Hin].
    apply Hd, elem_of_dom, Hall. by apply Hk.
Qed.

Lemma time_valid_iff (c : NodeConfig) :
  time_driver_validation_errors (runtime c) (runtime_keys (actor c)).*1 = [] ↔
  (∀ rt, rt_default (runtime c) = Some rt → enable_time rt = true) ∧
  ∀ k rt, uses k (actor c) → rt_named (runtime c) !! k = Some rt → enable_time rt = true.
Proof.
  unfold time_driver_validation_errors. rewrite app_nil_iff. destruct (runtime_keys_ok (actor c)) as [_ Hk]. f_equiv.
  - destruct (rt_default (runtime c)) as [rt|]; [|by split].
    destruct (enable_time rt) eqn:E; (split; [try done|]); [by intros _ ? [= <-]|done|]. intros Hx. by rewrite (Hx rt eq_refl) in E.
  - split.
    + intros E k rt Hu Hrt. destruct (enable_time rt) eqn:Et; [done|]. exfalso.
      assert (Hin : RuntimeWithoutTime k ∈ omap (λ name, match rt_named (runtime c) !! name with
        | Some c => if enable_time c then None else Some (RuntimeWithoutTime name) | None => None end) (runtime_keys (actor c)).*1).
      { apply list_elem_of_omap. exists k. split; [by apply Hk|]. by rewrite Hrt, Et. }
      rewrite E in Hin. by apply not_elem_of_nil in Hin.
    + intros Hall. destruct (omap _ _) as [|err l] eqn:E; [done|]. exfalso. assert (Hin : err ∈ err :: l) by left. rewrite <- E in Hin.
      apply list_elem_of_omap in Hin as (k & Hin & Hs). destruct (rt_named (runtime c) !! k) as [rt|] eqn:Ek; [|done].
      rewrite (Hall k rt) in Hs by (done || by apply Hk). done.
Qed.

Lemma validate_ok (c : NodeConfig) : Forall (λ d, net_ok (ls_net d)) (local_subnets c) →
  ∃ r, validate c = Ret r ∧ match r with Ok c' => c' = c ∧ config_ok c | Err (es, c') => c' = c ∧ es ≠ [] ∧ ¬ config_ok c end.
Proof.
  intros Hn. unfold validate. destruct (overlapping_ok [] (ls_net <$> local_subnets c)) as (es & -> & Hes); [by repeat constructor|by apply Forall_fmap|].
  cbn [mbind outcome_bind]. eexists. split; [done|]. pose proof (keys_valid_iff c) as Hk. pose proof (time_valid_iff c) as Ht.
  set (ke := match ensure_runtime_keys_are_valid _ _ with Ok _ => _ | Err _ => _ end) in *. set (te := time_driver_validation_errors _ _) in *.
  assert (Ha : (if one_auto (local_subnets c) then [] else [NotOneAuto]) = [] ↔ length (filter (λ d, ls_kind d = Auto) (local_subnets c)) = 1%nat).
  { unfold one_auto. case_bool_decide; naive_solver. }
  assert (Hes' : es = [] ↔ ForallOrdPairs apart (ls_net <$> local_subnets c)).
  { rewrite Hes. split; [by intros [? _]|]. intros. split; [done|]. by intros n e x _ ?%not_elem_of_nil. }
  set (ae := if one_auto (local_subnets c) then [] else [NotOneAuto]) in *.
  assert (Hall : ke ++ te ++ ae ++ es = [] ↔ config_ok c).
  { rewrite !app_nil_iff, Hk, Ht, Ha, Hes'. split; [intros (? & [? ?] & ? & ?); by split|intros []; done]. }
  destruct (ke ++ te ++ ae ++ es) as [|err l]; [naive_solver|]. split_and!; [done|done|]. intros Hc. apply Hall in Hc. done.
Qed.

(** Validation never panics and is exact: it accepts a configuration if and only if every runtime an actor uses is configured and has
    a time driver, as the default one has, exactly one local subnet is automatic, and no two local subnets share an address; a
    configuration it rejects is handed back with at least one error. *)
Theorem validate_correct (c : NodeConfig) (Hn : Forall (λ d, net_ok (ls_net d)) (local_subnets c)) :
  ∃ r, validate c = Ret r ∧ match r with Ok c' => c' = c ∧ config_ok c | Err (es, c') => c' = c ∧ es ≠ [] ∧ ¬ config_ok c end.
Proof. by apply validate_ok. Qed.

Lemma validated (c c' : NodeConfig) : Forall (λ d, net_ok (ls_net d)) (local_subnets c) → validate c = Ret (Ok c') → c' = c ∧ config_ok c.
Proof. intros Hn E. destruct (validate_ok c Hn) as (r & E' & Hr). rewrite E in E'. by injection E' as <-. Qed.

Lemma auto_found (c : NodeConfig) : config_ok c → ∃ n, local_subnet_address_auto c = Ret n ∧ mkLocalSubnet n Auto ∈ local_subnets c.
Proof.
  intros Hc. unfold local_subnet_address_auto. destruct (list_find _ (local_subnets c)) as [[i [n k]]|] eqn:E.
  - cbn. exists n. split; [done|]. apply list_find_Some in E as (El & Hk & _). cbn in Hk. subst k. by eapply list_elem_of_lookup_2.
  - exfalso. pose proof (co_auto _ Hc) as Hl. rewrite filter_none in Hl; [done|]. apply Forall_forall. intros d Hd.
    apply list_find_None in E. rewrite Forall_forall in E. by apply E.
Qed.

Lemma build_runtime_inv {Rt : Type} (build : string → RtConfig → result Rt unit) n c r : build_runtime build n c = Ret r → r = build n c.
Proof. unfold build_runtime. intros (u & _ & (u' & _ & [= <-])%bind_Ret_inv)%bind_Ret_inv. done. Qed.

Lemma build_named_ok {Rt : Type} (build : string → RtConfig → result Rt unit) l m : NoDup l.*1 → build_named build l = Ret (Ok m) →
  ∀ k, match (list_to_map l : gmap string RtConfig) !! k with Some c => ∃ rt, m !! k = Some rt ∧ build k c = Ok rt | None => m !! k = None end.
Proof.
  revert m. induction l as [|[n c] l IH]; intros m; cbn; [intros _ [= <-] k; by rewrite !lookup_empty|]. intros Hnd.
  apply NoDup_cons in Hnd as [Hn Hnd]. intros ([rt|] & Eb%build_runtime_inv & E)%bind_Ret_inv; [|done]. apply bind_Ret_inv in E as ([m'|] & Em & [= <-]).
  intros k. specialize (IH m' Hnd Em k). destruct (decide (k = n)) as [->|Hne].
  - rewrite !lookup_insert_eq. eauto.
  - by rewrite !lookup_insert_ne.
Qed.

(** A runtime that tokio agrees to build has threads of both kinds. *)
Definition has_threads (c : RtConfig) : bool := (0 <? worker_threads c) && (0 <? blocking_threads_max c).
Definition all_have_threads (rts : RtConfigs) : Prop :=
  (∀ c, rt_default rts = Some c → has_threads c = true) ∧ ∀ n c, rt_named rts !! n = Some c → has_threads c = true.

Section Built.
Context {Rt : Type} (build_default : result Rt unit) (build : string → RtConfig → result Rt unit).
Hypothesis default_built : is_ok build_default = true.
Hypothesis all_built : ∀ n c, is_ok (build n c) = true.

Lemma build_runtime_cases n c : if has_threads c then ∃ rt, build_runtime build n c = Ret (Ok rt) else build_runtime build n c = Panic.
Proof.
  unfold build_runtime, has_threads. destruct (0 <? worker_threads c); [|done]. destruct (0 <? blocking_threads_max c); [|done]. cbn.
  specialize (all_built n c). destruct (build n c); [eauto|done].
Qed.

Lemma build_named_cases l : if forallb has_threads l.*2 then ∃ m, build_named build l = Ret (Ok m) else build_named build l = Panic.
Proof.
  induction l as [|[n c] l IH]; cbn; [eauto|]. pose proof (build_runtime_cases n c) as Hc. destruct (has_threads c); cbn; [|by rewrite Hc].
  destruct Hc as [rt ->]. cbn. destruct (forallb has_threads l.*2); [destruct IH as [m ->]; cbn; eauto|by rewrite IH].
Qed.

(** When tokio can build what it is asked for, all runtimes are built if every configured one has threads, and the node panics otherwise. *)
Lemma build_runtimes_cases rts :
  (all_have_threads rts → ∃ d named, build_runtimes build_default build rts = Ret (Ok (d, named))) ∧
  (¬ all_have_threads rts → build_runtimes build_default build rts = Panic).
Proof.
  assert (Hd : match rt_default rts with Some c => has_threads c | None => true end = true →
    ∃ d, match rt_default rts with Some c => build_runtime build "default" c | None => Ret build_default end = Ret (Ok d)).
  { destruct (rt_default rts) as [c|].
    - intros E. pose proof (build_runtime_cases "default" c) as Hc. by rewrite E in Hc.
    - intros _. destruct build_default; [eauto|done]. }
  assert (Hn : forallb has_threads (map_to_list (rt_named rts)).*2 = true ↔ ∀ n c, rt_named rts !! n = Some c → has_threads c = true).
  { rewrite forallb_forall. setoid_rewrite <- list_elem_of_In. split.
    - intros H n c Hc. apply H. apply list_elem_of_fmap. exists (n, c). split; [done|]. by apply elem_of_map_to_list.
    - intros H c ([n c'] & -> & Hc%elem_of_map_to_list)%list_elem_of_fmap. by eapply H. }
  pose proof (build_named_cases (map_to_list (rt_named rts))) as Hcases. unfold build_runtimes. split.
  - intros [H1 H2]. destruct Hd as [d ->]; [destruct (rt_default rts); auto|]. rewrite (proj2 Hn H2) in Hcases. destruct Hcases as [m ->]. cbn. eauto.
  - intros Hno. destruct (match rt_default rts with Some c => has_threads c | None => true end) eqn:E.
    + destruct (Hd eq_refl) as [d ->]. cbn. destruct (forallb _ _); [|by rewrite Hcases]. destruct Hno. split; [|by apply Hn].
      intros c Hc. by rewrite Hc in E.
    + destruct (rt_default rts) as [c|]; [|done]. pose proof (build_runtime_cases "default" c) as Hc. rewrite E in Hc. by rewrite Hc.
Qed.
End Built.

(** A validated configuration is what the running node takes it for: the automatic subnet is there, and for every actor, wherever it
    is in the tree, the runtime it is to run on was built, from a configuration with a time driver; neither lookup panics. *)
Theorem valid_config_runs {Rt} (c c' : NodeConfig) (build_default : result Rt unit) build d named
  (Hn : Forall (λ d, net_ok (ls_net d)) (local_subnets c)) (Hv : validate c = Ret (Ok c'))
  (Hb : build_runtimes build_default build (runtime c') = Ret (Ok (d, named))) :
  (∃ n, local_subnet_address_auto c' = Ret n ∧ mkLocalSubnet n Auto ∈ local_subnets c') ∧
  ∀ key, ∃ rt, choose_executor d named (ac_runtime (select (actor c') key)) = Ret rt ∧
    match ac_runtime (select (actor c') key) with
    | None => rt = d
    | Some k => ∃ cfg, rt_named (runtime c') !! k = Some cfg ∧ build k cfg = Ok rt ∧ enable_time cfg = true
    end.
Proof.
  destruct (validated c c' Hn Hv) as [-> Hc]. split; [by apply auto_found|]. intros key.
  unfold build_runtimes in Hb. apply bind_Ret_inv in Hb as ([d'|] & _ & Hb); [|done].
  apply bind_Ret_inv in Hb as ([m|] & Em & [= -> ->]).
  destruct (ac_runtime (select (actor c) key)) as [k|] eqn:Ek; cbn; [|eauto]. apply select_uses in Ek as Hu.
  pose proof (build_named_ok build _ _ (NoDup_fst_map_to_list _) Em k) as Hk. rewrite list_to_map_to_list in Hk.
  destruct (co_keys _ Hc k Hu) as [cfg Ecfg]. rewrite Ecfg in Hk. destruct Hk as (rt & -> & Hb). cbn. exists rt. split; [done|].
  exists cfg. split_and!; [done|done|]. by eapply co_time.
Qed.

Lemma canonical_covers n x : net_canonical n → net_contains n x → covers n x.
Proof.
  intros Hc Hx. eexists. split; [by apply range_from_net_canonical|]. unfold range_contains, net_contains in *. cbn. lia.
Qed.

Lemma config_plan (c : NodeConfig) : Forall (λ d, net_canonical (ls_net d)) (local_subnets c) → config_ok c →
  AddressPlan (λ n, n ∈ ls_net <$> local_subnets c) ∧ NoDup (ls_net <$> local_subnets c).
Proof.
  intros Hn Hc. assert (Hcan : ∀ n, n ∈ ls_net <$> local_subnets c → net_canonical n).
  { rewrite Forall_forall in Hn. intros n (d & -> & Hd)%list_elem_of_fmap. by apply Hn. }
  pose proof (co_apart _ Hc) as Hp. split; [split; [done|]|].
  - intros n m x Hn1 Hm1 Hx Hy.
    destruct (ForallOrdPairs_In Hp n m) as [?|[Ha|Ha]]; [by apply list_elem_of_In..|done| |]; exfalso; apply (Ha x); auto using canonical_covers.
  - clear Hc. induction Hp as [|n l Hn1 _ IH]; constructor.
    + intros Hin. rewrite Forall_forall in Hn1. pose proof (Hcan n ltac:(by left)) as Hcn. apply (Hn1 n Hin (address n)).
      assert (net_contains n (address n)) by (destruct Hcn as [[? ?] _]; pose proof (pow2_pos (64 - mask n)); unfold net_contains; lia).
      auto using canonical_covers.
    + apply IH. intros m Hm. apply Hcan. by right.
Qed.

(** The local subnets of a validated configuration, when they are canonical, are an address plan: the routing of the node, whose
    theorems assume one, starts from disjoint nets. *)
Theorem validated_plan (c c' : NodeConfig) (Hn : Forall (λ d, net_canonical (ls_net d)) (local_subnets c)) (Hv : validate c = Ret (Ok c')) :
  AddressPlan (λ n, n ∈ ls_net <$> local_subnets c').
Proof.
  destruct (validated c c') as [-> Hc]; [eapply Forall_impl; [exact Hn|by intros d []]|done|]. by apply config_plan.
Qed.
End Validate.

(** ** Examples *)
Section Examples.
Notation C := (Mm1NodeConfig (SocketAddr := Z) (Path := string) (Options := unit)).

(** A node of two runtimes, one of them for the actors under [db] *)
Definition with_db : C :=
  mkNodeConfig default_local_subnets [] []
    (mkActorNode (mkActorConfig None None None (Some 16)) [("db", mkActorNode (mkActorConfig (Some "io") None None None) [])])
    (mkRts None {["io" := rt_config_default 4]}).

Definition key_of (fs : list string) : ActorKey := foldl child Root fs.

Example select_db : ac_runtime (select (actor with_db) (key_of ["(db<u8>"; "pool"])) = Some "io" ∧
  inbox_size (select (actor with_db) (key_of ["db"; "pool"])) = 16.
Proof. split; reflexivity. Qed.

Lemma default_subnets_canonical : Forall (λ d, net_canonical (ls_net d)) default_local_subnets.
Proof. repeat constructor; cbn; try (by vm_compute); [exists 0x1FFF|exists 0x1FFE]; reflexivity. Qed.

Lemma default_subnets_ok : Forall (λ d, net_ok (ls_net d)) default_local_subnets.
Proof. eapply Forall_impl; [apply default_subnets_canonical|by intros d []]. Qed.

Lemma validate_correct_witness : (∃ r, validate with_db = Ret r) ∧ validate (node_config_default : C) = Ret (Ok node_config_default).
Proof.
  split; [|vm_compute; reflexivity]. destruct (validate_correct with_db) as (r & E & _); [exact default_subnets_ok|]. by exists r.
Defined.

Lemma valid_config_runs_witness : ∃ rt, choose_executor "d" {["io" := "io"]} (ac_runtime (select (actor with_db) (key_of ["db"]))) = Ret rt.
Proof.
  destruct (valid_config_runs (Rt := string) with_db with_db (Ok "d") (λ n _, Ok n) "d" {["io" := "io"]} default_subnets_ok) as [_ H].
  - vm_compute; reflexivity.
  - vm_compute; reflexivity.
  - destruct (H (key_of ["db"])) as (rt & E & _). exists rt. exact E.
Defined.

Lemma validated_plan_witness : AddressPlan (λ n, n ∈ ls_net <$> local_subnets with_db).
Proof. apply (validated_plan with_db with_db default_subnets_canonical). vm_compute. reflexivity. Defined.
End Examples.
