(* ===== verification/Server.v ===== *)
(** * Servers (components/mm1-server/src: handler.rs, lib.rs, outcome.rs) and the connectors built on them
    (components/mm1-multinode/src/actors/tcp_connector.rs and uds_connector.rs)

    A server takes its messages to the handlers declared for their types. What a handler does to the world while it runs is a list of
    effects of its own; the answers it gets are part of its input. *)

From S2P Require Import Prelude U64 Address.

Open Scope Z_scope.

(** ** Outcomes *)
Inductive ControlFlow := Continue | Break.

Section Outcome.
Context {Rq Rs : Type}.

Inductive Action := Nothing | Forward (to : Address) (request : Rq) | Reply (response : Rs).
Record Outcome := mkOutcome { action : Action; then_ : ControlFlow }.

(** [Outcome::forward], [Outcome::reply], [Outcome::no_reply], [Outcome::then_stop] *)
Definition outcome_forward (to : Address) (request : Rq) : Outcome := mkOutcome (Forward to request) Continue.
Definition outcome_reply (response : Rs) : Outcome := mkOutcome (Reply response) Continue.
Definition no_reply : Outcome := mkOutcome Nothing Continue.
Definition then_stop (o : Outcome) : Outcome := mkOutcome (action o) Break.
End Outcome.
Arguments Action Rq Rs : clear implicits.
Arguments Outcome Rq Rs : clear implicits.

Section Server.
Context {B Payload Response Eff Head : Type}.

Record RequestHeader := mkRqHeader { rq_id : Z; rq_reply_to : Address }.
Inductive Body := Plain (m : Payload) | Request (header : RequestHeader) (payload : Payload).

(** An envelope: the type of its message, the rest of its header, and the message *)
Record Envelope := mkEnvelope { e_tid : Z; e_head : Head; e_body : Body }.

(** [Msg<M>] and [Req<Rq, Rs>], with the behaviour's method *)
Inductive Handler :=
| Msg (on_message : B → Payload → B * list Eff * result (Outcome Payload Empty_set) unit)
| Req (on_request : B → RequestHeader → Payload → B * list Eff * result (Outcome Payload Response) unit).

Inductive Effect := Own (e : Eff) | ForwardTo (to : Address) (env : Envelope) | ReplyTo (to : RequestHeader) (r : Response).

(** [ErasedHandler::handle]; [forwarded] is the answer of [ctx.forward], and that of [ctx.reply] is ignored. *)
Definition handle (h : Handler) (b : B) (env : Envelope) (forwarded : bool) : outcome (B * list Effect * result ControlFlow unit) :=
  match h, e_body env with
  | Msg on_message, Plain m =>
      let '(b, effs, r) := on_message b m in
      Ret match r with
          | Err e => (b, Own <$> effs, Err e)
          | Ok o =>
              match action o with
              | Nothing => (b, Own <$> effs, Ok (then_ o))
              | Reply never => match never with end
              | Forward to request =>
                  (b, (Own <$> effs) ++ [ForwardTo to (mkEnvelope (e_tid env) (e_head env) (Plain request))],
                   if (forwarded : bool) then Ok (then_ o) else Err tt)
              end
          end
  | Req on_request, Request header request =>
      let '(b, effs, r) := on_request b header request in
      Ret match r with
          | Err e => (b, Own <$> effs, Err e)
          | Ok o =>
              match action o with
              | Nothing => (b, Own <$> effs, Ok (then_ o))
              | Reply response => (b, (Own <$> effs) ++ [ReplyTo header response], Ok (then_ o))
              | Forward to request =>
                  (b, (Own <$> effs) ++ [ForwardTo to (mkEnvelope (e_tid env) (e_head env) (Request header request))],
                   if (forwarded : bool) then Ok (then_ o) else Err tt)
              end
          end
  | _, _ => Panic
  end.

(** [Register::register] over the declarations, in their order: a type that has a handler keeps it. *)
Definition register (decls : list (Z * Handler)) : gmap Z Handler :=
  foldl (λ handlers '(tid, h), match handlers !! tid with Some _ => handlers | None => <[tid := h]> handlers end) ∅ decls.

Inductive RunEnd := Waiting | Stopped | Failed.

(** [Server::run], on what [ctx.recv] yields in turn, each with the answer to a forwarding *)
Fixpoint run_loop (handlers : gmap Z Handler) (b : B) (inputs : list (result Envelope unit * bool)) : outcome (B * list Effect * RunEnd) :=
  match inputs with
  | [] => Ret (b, [], Waiting)
  | (Err _, _) :: _ => Ret (b, [], Failed)
  | (Ok env, forwarded) :: inputs =>
      match handlers !! e_tid env with
      | None => run_loop handlers b inputs
      | Some h =>
          '(b, effs, r) ← handle h b env forwarded;
          match r with
          | Err _ => Ret (b, effs, Failed)
          | Ok Break => Ret (b, effs, Stopped)
          | Ok Continue => '(b, effs', e) ← run_loop handlers b inputs; Ret (b, effs ++ effs', e)
          end
      end
  end.
Definition run (decls : list (Z * Handler)) (b : B) (inputs : list (result Envelope unit * bool)) : outcome (B * list Effect * RunEnd) :=
  run_loop (register decls) b inputs.

(** [Server]: a behaviour, and the declarations its type lists; [new], [behaviour], [msg] and [req]. A declaration goes behind those made
    before it, as the tuples of types nest to the left. *)
Record Server := mkServer { behaviour : option B; declared : list (Z * Handler) }.
Definition server_new : Server := mkServer None [].
Definition server_behaviour (s : Server) (b : B) : Server := mkServer (Some b) (declared s).
Definition server_msg (s : Server) (tid : Z) on_message : Server := mkServer (behaviour s) (declared s ++ [(tid, Msg on_message)]).
Definition server_req (s : Server) (tid : Z) on_request : Server := mkServer (behaviour s) (declared s ++ [(tid, Req on_request)]).
Definition server_run (s : Server) (inputs : list (result Envelope unit * bool)) : option (outcome (B * list Effect * RunEnd)) :=
  b ← behaviour s; Some (run (declared s) b inputs).

(** ** The first declaration counts, and types keep the handlers from panicking *)
Lemma register_first decls tid : register decls !! tid = (λ d, d.2.2) <$> list_find (λ d, d.1 = tid) decls.
Proof.
  unfold register. assert (Hg : ∀ hs : gmap Z Handler, foldl (λ handlers '(t, h), match handlers !! t with Some _ => handlers | None => <[t := h]> handlers end) hs decls !! tid =
    or_ (hs !! tid) ((λ d, d.2.2) <$> list_find (λ d, d.1 = tid) decls)).
  { induction decls as [|[t h] decls IH]; intros hs; [cbn; by destruct (hs !! tid)|]. cbn [foldl list_find]. rewrite IH.
    case_decide as Ht; cbn in Ht.
    - subst t. destruct (hs !! tid) eqn:E; [by rewrite E|]. by rewrite lookup_insert_eq.
    - assert (E : match hs !! t with Some _ => hs | None => <[t := h]> hs end !! tid = hs !! tid).
      { destruct (hs !! t); [done|]. by rewrite lookup_insert_ne. }
      rewrite E. f_equal. by destruct (list_find (λ d, d.1 = tid) decls) as [[]|]. }
  rewrite Hg, lookup_empty. done.
Qed.

(** What the types of the source guarantee: a handler is declared for the type of its messages. *)
Definition typed (decls : list (Z * Handler)) (env : Envelope) : Prop :=
  ∀ h, (e_tid env, h) ∈ decls → match h, e_body env with Msg _, Plain _ | Req _, Request _ _ => True | _, _ => False end.

Definition typed_input (decls : list (Z * Handler)) (i : result Envelope unit * bool) : Prop :=
  match i.1 with Ok env => typed decls env | Err _ => True end.

Lemma declared_elem decls tid h : register decls !! tid = Some h → (tid, h) ∈ decls.
Proof.
  rewrite register_first. destruct (list_find _ decls) as [[i [t h']]|] eqn:E; [|done]. cbn. intros [= <-].
  apply list_find_Some in E as (E & Ht & _). cbn in Ht. subst. by eapply list_elem_of_lookup_2.
Qed.

Lemma handle_typed decls h b env f : typed decls env → (e_tid env, h) ∈ decls → ∃ b' effs r, handle h b env f = Ret (b', effs, r).
Proof.
  intros Ht Hin. specialize (Ht h Hin). unfold handle. destruct h as [on|on], (e_body env) as [m|hd m]; try done.
  - destruct (on b m) as [[b' effs] [[[|to rq|[]] t]|]]; cbn; eauto.
  - destruct (on b hd m) as [[b' effs] [[[|to rq|rs] t]|]]; cbn; eauto.
Qed.

(** A run is taken apart at any point: what comes first is a run of its own that has not ended. *)
Lemma run_loop_app handlers b i1 i2 : run_loop handlers b (i1 ++ i2) =
  '(b1, effs1, e) ← run_loop handlers b i1;
  match e with Waiting => '(b2, effs2, e2) ← run_loop handlers b1 i2; Ret (b2, effs1 ++ effs2, e2) | _ => Ret (b1, effs1, e) end.
Proof.
  revert b. induction i1 as [|[[env|] f] i1 IH]; intros b; cbn [app run_loop].
  - cbn. destruct (run_loop handlers b i2) as [[[b2 e2] r2]|]; done.
  - destruct (handlers !! e_tid env) as [h|]; [|apply IH]. destruct (handle h b env f) as [[[b1 effs] r]|]; cbn [mbind outcome_bind]; [|done].
    destruct r as [[]|]; [|done|done]. rewrite IH. destruct (run_loop handlers b1 i1) as [[[b2 effs2] e2]|]; cbn [mbind outcome_bind]; [|done].
    destruct e2; [|done|done]. destruct (run_loop handlers b2 i2) as [[[b3 effs3] e3]|]; cbn [mbind outcome_bind]; [|done]. by rewrite (assoc_L (++)).
  - done.
Qed.

Lemma run_typed decls b inputs : Forall (typed_input decls) inputs → ∃ b' effs e, run decls b inputs = Ret (b', effs, e).
Proof.
  unfold run. revert b. induction inputs as [|[[env|] f] inputs IH]; intros b Ht; cbn; [eauto| |eauto].
  apply Forall_cons in Ht as [Henv Ht]. cbn in Henv. destruct (register decls !! e_tid env) as [h|] eqn:Eh; [|by apply IH].
  apply declared_elem in Eh. destruct (handle_typed decls h b env f Henv Eh) as (b1 & effs & r & ->). cbn.
  destruct r as [[]|]; [|eauto|eauto]. destruct (IH b1 Ht) as (b2 & effs2 & e & ->). cbn. eauto.
Qed.

(** A server whose handlers are declared for the types of their messages never panics, whatever it receives; a message of a type
    without a handler changes nothing, one of a type declared twice goes to the first handler; and the server stops at the first
    handler that says so or fails, the messages behind it being left alone. *)
Theorem server_dispatch decls b inputs env f rest (Ht : Forall (typed_input decls) (inputs ++ (Ok env, f) :: rest)) :
  ∃ b1 effs1 e1, run decls b inputs = Ret (b1, effs1, e1) ∧
    (e1 ≠ Waiting → run decls b (inputs ++ (Ok env, f) :: rest) = Ret (b1, effs1, e1)) ∧
    (e1 = Waiting → list_find (λ d, d.1 = e_tid env) decls = None → run decls b (inputs ++ (Ok env, f) :: rest) = run decls b (inputs ++ rest)) ∧
    (e1 = Waiting → ∀ i h, list_find (λ d, d.1 = e_tid env) decls = Some (i, (e_tid env, h)) →
      ∃ b2 effs2 r, handle h b1 env f = Ret (b2, effs2, r) ∧
        match r with
        | Ok Continue => ∃ b3 effs3 e3, run decls b2 rest = Ret (b3, effs3, e3) ∧
            run decls b (inputs ++ (Ok env, f) :: rest) = Ret (b3, effs1 ++ effs2 ++ effs3, e3)
        | Ok Break => run decls b (inputs ++ (Ok env, f) :: rest) = Ret (b2, effs1 ++ effs2, Stopped)
        | Err _ => run decls b (inputs ++ (Ok env, f) :: rest) = Ret (b2, effs1 ++ effs2, Failed)
        end).
Proof.
  apply Forall_app in Ht as [Hi Hr]. apply Forall_cons in Hr as [Henv Hr]. cbn in Henv.
  destruct (run_typed decls b inputs Hi) as (b1 & effs1 & e1 & E1). exists b1, effs1, e1. split; [done|]. unfold run in *.
  assert (E : ∀ l, run_loop (register decls) b (inputs ++ l) =
    match e1 with Waiting => '(b2, effs2, e2) ← run_loop (register decls) b1 l; Ret (b2, effs1 ++ effs2, e2) | _ => Ret (b1, effs1, e1) end).
  { intros l. by rewrite run_loop_app, E1. }
  split_and!.
  - intros Hw. rewrite E. by destruct e1.
  - intros -> Hf. rewrite !E. cbn [run_loop]. by rewrite register_first, Hf.
  - intros -> i h Hf. assert (Hin : (e_tid env, h) ∈ decls) by (apply list_find_Some in Hf as (Hl & _); by eapply list_elem_of_lookup_2).
    destruct (handle_typed decls h b1 env f Henv Hin) as (b2 & effs2 & r & Eh). exists b2, effs2, r. split; [done|].
    assert (El : run_loop (register decls) b1 ((Ok env, f) :: rest) = match r with
      | Err _ => Ret (b2, effs2, Failed)
      | Ok Break => Ret (b2, effs2, Stopped)
      | Ok Continue => '(b3, effs3, e) ← run_loop (register decls) b2 rest; Ret (b3, effs2 ++ effs3, e)
      end) by (cbn [run_loop]; rewrite register_first, Hf; cbn [fmap option_fmap option_map snd]; by rewrite Eh).
    rewrite E, El. destruct r as [[]|]; [|done|done].
    destruct (run_typed decls b2 rest Hr) as (b3 & effs3 & e3 & E3). exists b3, effs3, e3. split; [done|]. unfold run in E3. by rewrite E3.
Qed.
End Server.

(** ** Connectors *)
Section Connector.
Context {Addr Protocol : Type}.

(** The messages of a connector, each with the answers its handler gets: whether the stream connects, the supervisor's answer, and
    whether the timer takes the request *)
Inductive ConnectorMsg :=
| ConnectMsg (connected : bool) (started : result (result Address unit) unit) (scheduled : bool)
| DownMsg (normal_exit : bool) (scheduled : bool).

Inductive ConnectorEff := ScheduleConnect | StartConnection | WatchConnection (a : Address).

(** [TcpConnector] *)
Record Connector := mkConnector { connection_sup : Address; dst_addr : Addr; conn_protocols : list Protocol }.

Notation Handled := (Connector * list ConnectorEff * result (Outcome ConnectorMsg Empty_set) unit)%type.

(** [OnMessage<Connect>] *)
Definition on_connect (c : Connector) (connected : bool) (started : result (result Address unit) unit) (scheduled : bool) : Handled :=
  if connected
  then match started with
       | Ok (Ok connection_addr) => (c, [StartConnection; WatchConnection connection_addr], Ok no_reply)
       | _ => (c, [StartConnection], Err tt)
       end
  else (c, [ScheduleConnect], if scheduled then Ok no_reply else Err tt).

(** [OnMessage<sys::Down>] *)
Definition on_conn_down (c : Connector) (normal_exit scheduled : bool) : Handled :=
  if normal_exit then (c, [], Ok (then_stop no_reply))
  else (c, [ScheduleConnect], if scheduled then Ok no_reply else Err tt).

Definition tid_of (m : ConnectorMsg) : Z := match m with ConnectMsg _ _ _ => 0 | DownMsg _ _ => 1 end.

(** The two declarations; a message of the other type never gets to a handler. *)
Definition connector_handlers : list (Z * Handler (Response := Empty_set)) :=
  [(0, Msg (λ c m, match m with ConnectMsg x y z => on_connect c x y z | DownMsg _ _ => (c, [], Err tt) end));
   (1, Msg (λ c m, match m with DownMsg x y => on_conn_down c x y | ConnectMsg _ _ _ => (c, [], Err tt) end))].

(** They are what the calls of [mm1_server::new()] and its methods put together. *)
Lemma connector_server c inputs :
  server_run (server_msg (server_msg (server_behaviour server_new c)
      0 (λ c m, match m with ConnectMsg x y z => on_connect c x y z | DownMsg _ _ => (c, [], Err tt) end))
      1 (λ c m, match m with DownMsg x y => on_conn_down c x y | ConnectMsg _ _ _ => (c, [], Err tt) end)) inputs =
  Some (run connector_handlers c inputs : outcome (Connector * list (Effect (Head := unit)) * RunEnd)).
Proof. reflexivity. Qed.

Definition conn_input (m : ConnectorMsg) : result (Envelope (Head := unit)) unit * bool := (Ok (mkEnvelope (tid_of m) tt (Plain m)), true).

(** The loop over [wait_for_protocol]: each protocol is awaited, and an answer that is an error ends the actor. *)
Fixpoint wait_for_protocols {Name : Type} (names : list Name) (answers : list (result (result Protocol unit) unit)) : option (list Protocol) :=
  match names with
  | [] => Some []
  | _ :: names =>
      match answers with
      | Ok (Ok p) :: answers => ps ← wait_for_protocols names answers; Some (p :: ps)
      | _ => None
      end
  end.

(** The effects of the connector's own handlers *)
Definition effects_of (effs : list (Effect (Payload := ConnectorMsg) (Response := Empty_set) (Eff := ConnectorEff) (Head := unit))) : list ConnectorEff :=
  omap (λ eff, match eff with Own x => Some x | _ => None end) effs.

(** [run]: [timer] and [told] are whether the timer and the message to itself work. *)
Definition connector_run {Name : Type} (sup : Address) (addr : Addr) (names : list Name) (timer : bool) (answers : list (result (result Protocol unit) unit))
    (told : bool) (msgs : list ConnectorMsg) : outcome (list ConnectorEff * RunEnd) :=
  if negb timer then Ret ([], Failed)
  else match wait_for_protocols names answers with
  | None => Ret ([], Failed)
  | Some protocols =>
      if negb told then Ret ([], Failed)
      else
        '(_, effs, e) ← run connector_handlers (mkConnector sup addr protocols) (conn_input <$> msgs);
        Ret (effects_of effs, e)
  end.

(** *** The connector of a Unix-domain socket: the same actor, its address a path *)
Definition UdsConnector : Type := Connector.
Definition uds_on_connect : UdsConnector → bool → result (result Address unit) unit → bool → Handled := on_connect.
Definition uds_on_conn_down : UdsConnector → bool → bool → Handled := on_conn_down.
Definition uds_wait_for_protocols {Name : Type} := wait_for_protocols (Name := Name).
Definition uds_connector_run {Name : Type} := connector_run (Name := Name).

(** ** One connection at a time *)
Definition is_schedule (e : ConnectorEff) : bool := match e with ScheduleConnect => true | _ => false end.
Definition is_watch (e : ConnectorEff) : bool := match e with WatchConnection _ => true | _ => false end.
Definition is_connect (m : ConnectorMsg) : bool := match m with ConnectMsg _ _ _ => true | _ => false end.
Definition count {A} (f : A → bool) (l : list A) : Z := Z.of_nat (length (List.filter f l)).

Lemma count_app {A} (f : A → bool) l l' : count f (l ++ l') = count f l + count f l'.
Proof. unfold count. rewrite List.filter_app, length_app. lia. Qed.

(** The [Connect] messages on their way, in the mailbox or at the timer, and the connections that are watched: there is one message at
    first. *)
Definition pending (msgs : list ConnectorMsg) (effs : list ConnectorEff) : Z := 1 + count is_schedule effs - count is_connect msgs.
Definition live (msgs : list ConnectorMsg) (effs : list ConnectorEff) : Z := count is_watch effs - count (λ m, negb (is_connect m)) msgs.

(** A sequence of messages that the world can deliver: a [Connect] that is on its way, the end of a connection that lives *)
Definition deliverable (c : Connector) (msgs : list ConnectorMsg) : Prop :=
  ∀ before m after effs, msgs = before ++ m :: after → run connector_handlers c (conn_input <$> before) = Ret (c, effs, Waiting) →
    0 < (if is_connect m then pending before (effects_of effs) else live before (effects_of effs)).

(** What one message does *)
Lemma connector_step c m : ∃ effs r, run connector_handlers c [conn_input m] = Ret (c, effs, r) ∧
  match r with
  | Waiting => count is_schedule (effects_of effs) + count is_watch (effects_of effs) = 1
  | Stopped => ∃ s, m = DownMsg true s
  | Failed => True
  end.
Proof.
  unfold run, conn_input. cbn [run_loop e_tid]. rewrite register_first. destruct m as [connected started scheduled|normal scheduled].
  - destruct connected; [destruct started as [[a|]|]|destruct scheduled]; eexists _, _; (split; [reflexivity|]); cbn; done.
  - destruct normal; [eexists _, _; split; [reflexivity|]; cbn; eauto|]. destruct scheduled; eexists _, _; (split; [reflexivity|]); cbn; done.
Qed.

Lemma run_snoc c msgs m : run connector_handlers c (conn_input <$> (msgs ++ [m])) =
  '(b1, effs1, e) ← run connector_handlers c (conn_input <$> msgs);
  match e with Waiting => '(b2, effs2, e2) ← run connector_handlers b1 [conn_input m]; Ret (b2, effs1 ++ effs2, e2) | _ => Ret (b1, effs1, e) end.
Proof. unfold run. rewrite fmap_app. apply run_loop_app. Qed.

Lemma connector_ok c msgs : deliverable c msgs →
  ∃ effs e, run connector_handlers c (conn_input <$> msgs) = Ret (c, effs, e) ∧
    match e with
    | Waiting => pending msgs (effects_of effs) + live msgs (effects_of effs) = 1 ∧ 0 ≤ pending msgs (effects_of effs) ∧ 0 ≤ live msgs (effects_of effs)
    | Stopped => ∃ s, DownMsg true s ∈ msgs
    | Failed => True
    end.
Proof.
  induction msgs as [|m msgs IH] using rev_ind; intros Hd.
  { eexists _, _. split; [reflexivity|]. done. }
  destruct IH as (effs1 & e1 & E1 & Hi).
  { intros before x after effs -> Hrun. eapply (Hd before x (after ++ [m])); [by rewrite <- (assoc_L (++))|done]. }
  rewrite run_snoc, E1. cbn [mbind outcome_bind]. destruct e1; [|eexists _, _; split; [done|]; destruct Hi as [s Hs]; exists s; set_solver|by eexists _, _].
  specialize (Hd msgs m [] effs1 eq_refl E1). destruct (connector_step c m) as (effs2 & r & -> & Hs). cbn [mbind outcome_bind]. eexists _, _. split; [done|].
  assert (Hcount : count is_connect (msgs ++ [m]) = count is_connect msgs + (if is_connect m then 1 else 0) ∧
    count (λ m, negb (is_connect m)) (msgs ++ [m]) = count (λ m, negb (is_connect m)) msgs + (if is_connect m then 0 else 1)).
  { assert (Hone : ∀ f : ConnectorMsg → bool, count f [m] = if f m then 1 else 0) by (intros f; unfold count; cbn; by destruct (f m)).
    rewrite !count_app, !Hone. by destruct (is_connect m). }
  destruct Hcount as [Hc1 Hc2]. assert (Heff : effects_of (effs1 ++ effs2) = effects_of effs1 ++ effects_of effs2) by apply omap_app.
  destruct r; [| |done].
  - unfold pending, live in *. rewrite Hc1, Hc2, Heff, !count_app.
    assert (0 ≤ count is_schedule (effects_of effs2) ∧ 0 ≤ count is_watch (effects_of effs2)) by (unfold count; lia).
    destruct (is_connect m); lia.
  - destruct Hs as [s ->]. exists s. set_solver.
Qed.

(** A connector holds on to its peer: as long as it runs there is exactly one of a live connection that it watches and an attempt on
    its way, so it never has two connections at once and never waits for nothing; and it stops of itself only when a connection has ended
    normally. *)
Theorem connector_persists c msgs (Hd : deliverable c msgs) :
  ∃ effs e, run connector_handlers c (conn_input <$> msgs) = Ret (c, effs, e) ∧
    match e with
    | Waiting => pending msgs (effects_of effs) = 1 ∧ live msgs (effects_of effs) = 0 ∨
                 pending msgs (effects_of effs) = 0 ∧ live msgs (effects_of effs) = 1
    | Stopped => ∃ s, DownMsg true s ∈ msgs
    | Failed => True
    end.
Proof.
  destruct (connector_ok c msgs Hd) as (effs & e & E & Hi). exists effs, e. split; [done|]. destruct e; [|done|done]. lia.
Qed.
End Connector.

(** ** Examples *)
Section Examples.
(** The first attempt fails, the second gets a connection, which is lost. *)
Definition lossy : list ConnectorMsg := [ConnectMsg false (Err tt) true; ConnectMsg true (Ok (Ok 7)) true; DownMsg false true].
Definition tcp : Connector (Addr := Z) (Protocol := unit) := mkConnector 1 80 [].

Lemma lossy_deliverable : deliverable tcp lossy.
Proof.
  intros before m after effs E. destruct before as [|m1 [|m2 [|m3 before]]]; cbn in E; [injection E as <- <-|injection E as <- <- <-|injection E as <- <- <- <-|].
  - intros [= <-]. reflexivity.
  - vm_compute. intros [= <-]. reflexivity.
  - vm_compute. intros [= <-]. reflexivity.
  - exfalso. apply (f_equal length) in E. cbn in E. rewrite length_app in E. cbn in E. lia.
Qed.

Lemma connector_persists_witness : ∃ effs, run connector_handlers tcp (conn_input <$> lossy) = Ret (tcp, effs, Waiting) ∧
  effects_of effs = [ScheduleConnect; StartConnection; WatchConnection 7; ScheduleConnect].
Proof.
  destruct (connector_persists tcp lossy lossy_deliverable) as (effs & e & E & _). vm_compute in E. injection E as <- <-.
  eexists. split; [vm_compute; reflexivity|reflexivity].
Defined.

Definition answer (b : Z) (_ : RequestHeader) (m : Z) : Z * list unit * result (Outcome Z Z) unit := (b + m, [], Ok (outcome_reply b)).
Definition one_handler : list (Z * Handler (Eff := unit)) := [(5, Req answer)].
Definition ask_5 : Envelope (Head := unit) := mkEnvelope 5 tt (Request (mkRqHeader 1 2) 10).

Lemma server_dispatch_witness : ∃ b effs e, run one_handler 0 ([(Ok ask_5, true)] ++ [(Ok ask_5, true)]) = Ret (b, effs, e) ∧
  effs = [ReplyTo (mkRqHeader 1 2) 0; ReplyTo (mkRqHeader 1 2) 10].
Proof.
  destruct (server_dispatch one_handler 0 [(Ok ask_5, true)] ask_5 true []) as (b1 & effs1 & e1 & E1 & _ & _ & H3).
  - repeat constructor; intros h Hh; apply list_elem_of_singleton in Hh as [= ->]; exact I.
  - vm_compute in E1. injection E1 as <- <- <-. destruct (H3 eq_refl 0%nat (Req answer) eq_refl) as (b2 & effs2 & r & E2 & Hr).
    vm_compute in E2. injection E2 as <- <- <-. destruct Hr as (b3 & effs3 & e3 & E3 & E4). vm_compute in E3. injection E3 as <- <- <-.
    eexists _, _, _. split; [exact E4|reflexivity].
Defined.
End Examples.
