(* ===== verification/Acceptor.v ===== *)
(** * Acceptors (components/mm1-multinode/src/actors/tcp_acceptor.rs and uds_acceptor.rs)

    An acceptor listens at an address and has a connection started for every stream it accepts. At a Unix-domain socket it also has to
    deal with the socket file a former acceptor has left behind, without taking the socket from one that is alive: it guards the socket
    with a lock file. The acceptors of all processes share the file system, so what they do is a sequence of system calls in any order. *)

From stdpp Require Import strings.
From S2P Require Import Prelude U64 Address.

Open Scope Z_scope.

(** ** Accepting *)
Section Accepting.
Context {Name Protocol Options Stream : Type}.

(** What the loop selects: a stream, or the failure to accept one, with what becomes of it (whether the stream tells its local address, and the
    supervisor's answer); or a message, or the failure to receive one. *)
Inductive Selected :=
| Accepted (stream : option Stream) (local_addr : bool) (started : result (result Address unit) unit)
| Received (envelope : result unit unit).

Inductive Out :=
| InitDone
| AskProtocol (name : Name)
| StartConnection (sup : Address) (stream : Stream) (options : Options) (protocols : list Protocol).

(** [handle_accepted] *)
Definition handle_accepted (sup : Address) (options : Options) (protocols : list Protocol) (stream : Stream) (local_addr : bool)
    (started : result (result Address unit) unit) : list Out * result unit unit :=
  if local_addr
  then ([StartConnection sup stream options protocols],
        match started with Ok (Ok _) => Ok tt | _ => Err tt end)
  else ([], Err tt).

(** [handle_envelope]: whatever it is, it is unexpected. *)
Definition handle_envelope : result unit unit := Ok tt.

(** [event_loop]: [None] while it goes on, or the error it ends with. *)
Fixpoint event_loop (sup : Address) (options : Options) (protocols : list Protocol) (selected : list Selected) : list Out * option unit :=
  match selected with
  | [] => ([], None)
  | Accepted None _ _ :: _ => ([], Some tt)
  | Accepted (Some stream) local_addr started :: selected =>
      let '(out, r) := handle_accepted sup options protocols stream local_addr started in
      match r with
      | Err _ => (out, Some tt)
      | Ok _ => let '(out', e) := event_loop sup options protocols selected in (out ++ out', e)
      end
  | Received (Err _) :: _ => ([], Some tt)
  | Received (Ok _) :: selected =>
      match handle_envelope with
      | Err _ => ([], Some tt)
      | Ok _ => event_loop sup options protocols selected
      end
  end.

(** The loop over [wait_for_protocol]: an answer that is an error ends the actor. *)
Fixpoint ask_protocols (names : list Name) (answers : list (result (result Protocol unit) unit)) : list Out * option (list Protocol) :=
  match names with
  | [] => ([], Some [])
  | name :: names =>
      match answers with
      | Ok (Ok protocol) :: answers =>
          let '(out, protocols) := ask_protocols names answers in (AskProtocol name :: out, cons protocol <$> protocols)
      | _ => ([AskProtocol name], None)
      end
  end.

(** [run]: [bound] is whether there is a listener ([TcpListener::bind]; at a Unix-domain socket what the section Lock below does up to [Listening]). *)
Definition run (sup : Address) (names : list Name) (options : Options) (answers : list (result (result Protocol unit) unit)) (bound : bool)
    (selected : list Selected) : list Out * option unit :=
  let '(asked, protocols) := ask_protocols names answers in
  match protocols with
  | None => (InitDone :: asked, Some tt)
  | Some protocols =>
      if bound
      then let '(out, e) := event_loop sup options protocols selected in (InitDone :: asked ++ out, e)
      else (InitDone :: asked, Some tt)
  end.

(** ** What it does to the streams it accepts *)

(** A selection after which the loop goes on *)
Definition works (x : Selected) : bool :=
  match x with
  | Accepted (Some _) true (Ok (Ok _)) | Received (Ok _) => true
  | _ => false
  end.

Definition stream_of (x : Selected) : option Stream := match x with Accepted (Some s) true _ => Some s | _ => None end.

Lemma event_loop_ok sup options protocols selected : ∃ fine rest,
  selected = fine ++ rest ∧ Forall (λ x, works x = true) fine ∧ match rest with [] => True | x :: _ => works x = false end ∧
  event_loop sup options protocols selected =
    ((λ s, StartConnection sup s options protocols) <$> omap stream_of (fine ++ take 1 rest), match rest with [] => None | _ => Some tt end).
Proof.
  induction selected as [|x selected (fine & rest & -> & Hf & Hr & IH)]; [by exists [], []|].
  destruct (works x) eqn:Hx.
  - exists (x :: fine), rest. split_and!; [done|by constructor|done|].
    destruct x as [[s|] [] [[a|]|]|[[]|]]; try discriminate; cbn [event_loop handle_accepted handle_envelope]; rewrite IH; reflexivity.
  - exists [], (x :: fine ++ rest). split_and!; [done|constructor|done|].
    destruct x as [[s|] [] [[a|]|]|[[]|]]; try discriminate; reflexivity.
Qed.

Lemma ask_protocols_ok names answers out protocols : ask_protocols names answers = (out, Some protocols) →
  out = AskProtocol <$> names ∧ take (length names) answers = Ok ∘ Ok <$> protocols.
Proof.
  revert answers out protocols. induction names as [|n names IH]; intros answers out protocols; cbn [ask_protocols].
  - intros [= <- <-]. done.
  - destruct answers as [|[[p|]|] answers]; [discriminate| |discriminate|discriminate].
    destruct (ask_protocols names answers) as [out' [ps|]] eqn:E; intros [= <- <-]. destruct (IH _ _ _ E) as [-> H].
    split; [done|]. cbn. by rewrite H.
Qed.

(** An acceptor that has its protocols has one connection started for every stream, in the order of the streams, with all the
    protocols in the order they were asked for; the first stream that cannot be handed over ends it, and nothing else but a failed
    receive does. *)
Theorem acceptor_starts_all sup names options answers protocols selected (Ha : ask_protocols names answers = (AskProtocol <$> names, Some protocols)) :
  ∃ fine rest, selected = fine ++ rest ∧ Forall (λ x, works x = true) fine ∧ match rest with [] => True | x :: _ => works x = false end ∧
    run sup names options answers true selected =
      (InitDone :: (AskProtocol <$> names) ++ ((λ s, StartConnection sup s options protocols) <$> omap stream_of (fine ++ take 1 rest)),
       match rest with [] => None | _ => Some tt end) ∧
    take (length names) answers = Ok ∘ Ok <$> protocols.
Proof.
  destruct (event_loop_ok sup options protocols selected) as (fine & rest & Hs & Hf & Hr & E). exists fine, rest. split_and!; [done..| |].
  - unfold run. by rewrite Ha, E.
  - by eapply ask_protocols_ok.
Qed.

(** *** The acceptor at a Unix-domain socket, whose loop is the same but for the type of its streams *)
Definition uds_handle_accepted := handle_accepted.
Definition uds_handle_envelope := handle_envelope.
Definition uds_event_loop := event_loop.
Definition uds_ask_protocols := ask_protocols.

(** [run] of uds_acceptor.rs: [cleaned] is whether [try_cleanup_stale_socket] succeeds. *)
Definition uds_run (sup : Address) (names : list Name) (options : Options) (answers : list (result (result Protocol unit) unit)) (cleaned bound : bool)
    (selected : list Selected) : list Out * option unit :=
  let '(asked, protocols) := uds_ask_protocols names answers in
  match protocols with
  | None => (InitDone :: asked, Some tt)
  | Some protocols =>
      if cleaned
      then if bound
           then let '(out, e) := uds_event_loop sup options protocols selected in (InitDone :: asked ++ out, e)
           else (InitDone :: asked, Some tt)
      else (InitDone :: asked, Some tt)
  end.

(** With a listener it does what the acceptor at a TCP address does: [acceptor_starts_all] holds of it, too. *)
Theorem uds_acceptor_same sup names options answers cleaned bound selected :
  uds_run sup names options answers cleaned bound selected = run sup names options answers (cleaned && bound) selected.
Proof. unfold uds_run, run, uds_ask_protocols. destruct (ask_protocols names answers) as [asked [ps|]]; [|done]. by destruct cleaned, bound. Qed.
End Accepting.

(** ** The socket and its lock file *)
Definition Ino := Z.
Definition Fd := nat.
Bind Scope nat_scope with Fd.

(** Advisory locks on files, as the fs4 crate offers them over the system's: a lock belongs to an open file and goes when that is closed. A
    lock that is taken is refused to others. *)
Class FileLocks (L : Type) := {
  fl_none : L;
  fl_owner : L → Ino → option Fd;
  fl_try_lock_exclusive : L → Ino → Fd → bool * L;
  fl_close : L → Fd → L;
}.

Class FileLocksLaws (L : Type) `{FileLocks L} := {
  fl_owner_none i : fl_owner fl_none i = None;
  fl_try_free l i d : fl_owner l i = None → ∃ l', fl_try_lock_exclusive l i d = (true, l') ∧
    ∀ j, fl_owner l' j = if decide (j = i) then Some d else fl_owner l j;
  fl_try_taken l i d d' : fl_owner l i = Some d' → d' ≠ d → fl_try_lock_exclusive l i d = (false, l);
  fl_owner_close l d i : fl_owner (fl_close l d) i = if decide (fl_owner l i = Some d) then None else fl_owner l i;
}.

Section Lock.
Context {L : Type} `{FL : FileLocks L}.

(** The directory: where the paths lead. An inode's number is not used again. *)
Record Fs := mkFs { paths : gmap string Ino; next_ino : Ino }.

(** [OpenOptions::create(true)..open] *)
Definition fs_open (fs : Fs) (p : string) : Fs * Ino :=
  match paths fs !! p with
  | Some i => (fs, i)
  | None => (mkFs (<[p := next_ino fs]> (paths fs)) (next_ino fs + 1), next_ino fs)
  end.

(** [std::fs::remove_file]: [None] when there is nothing at the path. *)
Definition remove_file (fs : Fs) (p : string) : option Fs :=
  match paths fs !! p with Some _ => Some (mkFs (delete p (paths fs)) (next_ino fs)) | None => None end.

(** [UnixListener::bind]: [None] when there is something at the path. *)
Definition uds_bind (fs : Fs) (p : string) : option (Fs * Ino) :=
  match paths fs !! p with
  | Some _ => None
  | None => Some (mkFs (<[p := next_ino fs]> (paths fs)) (next_ino fs + 1), next_ino fs)
  end.

Definition lock_path (socket_path : string) : string := (socket_path +:+ ".lock")%string.

(** Where an acceptor stands: [run] from the protocols to the listener, with [try_cleanup_stale_socket] from [Opened] to [Cleaned]; then the
    drops, of the listener ([SocketGone]) and of the lock file ([Unguarded], [LockGone]), a [RmOnDrop] each: the path is removed, then the file
    is closed. *)
Inductive Pc :=
| Waiting
| Opened (lock_file : Ino)
| Locked (lock_file : Ino)
| Stale (lock_file : Ino)
| Cleaned (lock_file : Ino)
| Listening (lock_file socket : Ino)
| SocketGone (lock_file : Ino)
| Unguarded (lock_file : Ino)
| LockGone (lock_file : Ino)
| Ended.

Record Acceptor := mkAcceptor { socket_path : string; pc : Pc }.
Record World := mkWorld { fs : Fs; locks : L; acceptors : gmap Fd Acceptor }.

(** [RmOnDrop::drop]: an error is logged. *)
Definition rm_on_drop (io : bool) (f : Fs) (p : string) : Fs := if io then default f (remove_file f p) else f.

(** One system call of an acceptor; [io] is whether the system carries it out. *)
Definition proceed (f : Fs) (l : L) (d : Fd) (socket_path : string) (pc : Pc) (io : bool) : Fs * L * Pc :=
  match pc with
  | Waiting => if io then let '(f, i) := fs_open f (lock_path socket_path) in (f, l, Opened i) else (f, l, Ended)
  | Opened i =>
      if io
      then match fl_try_lock_exclusive l i d with
           | (true, l) => (f, l, Locked i)
           | (false, l) => (f, fl_close l d, Ended)
           end
      else (f, fl_close l d, Ended)
  | Locked i => if io && bool_decide (is_Some (paths f !! socket_path)) then (f, l, Stale i) else (f, l, Cleaned i)
  | Stale i =>
      match (if io then remove_file f socket_path else None) with
      | Some f => (f, l, Cleaned i)
      | None => (f, fl_close l d, Ended)
      end
  | Cleaned i =>
      match (if io then uds_bind f socket_path else None) with
      | Some (f, s) => (f, l, Listening i s)
      | None => (f, l, Unguarded i)
      end
  | Listening i s => (f, l, Listening i s)
  | SocketGone i => (f, l, Unguarded i)
  | Unguarded i => (rm_on_drop io f (lock_path socket_path), l, LockGone i)
  | LockGone _ | Ended => (f, fl_close l d, Ended)
  end.

(** The end of the actor, by an error of [event_loop] or because its task is dropped: the listener goes first. *)
Definition stop (f : Fs) (l : L) (socket_path : string) (pc : Pc) (io : bool) : Fs * L * Pc :=
  match pc with
  | Waiting => (f, l, Ended)
  | Listening i _ => (rm_on_drop io f socket_path, l, SocketGone i)
  | pc => (f, l, pc)
  end.

(** An acceptor starts, goes on, is stopped; or its process dies, which closes its files and removes none. *)
Inductive Ev := Begin (d : Fd) (p : string) | Go (d : Fd) (io : bool) | Stop (d : Fd) (io : bool) | Crash (d : Fd).

Definition update (w : World) (d : Fd) (p : string) (r : Fs * L * Pc) : World :=
  let '(f, l, c) := r in mkWorld f l (<[d := mkAcceptor p c]> (acceptors w)).

Definition step (w : World) (e : Ev) : World :=
  match e with
  | Begin d p => match acceptors w !! d with Some _ => w | None => mkWorld (fs w) (locks w) (<[d := mkAcceptor p Waiting]> (acceptors w)) end
  | Go d io => match acceptors w !! d with Some (mkAcceptor p c) => update w d p (proceed (fs w) (locks w) d p c io) | None => w end
  | Stop d io => match acceptors w !! d with Some (mkAcceptor p c) => update w d p (stop (fs w) (locks w) p c io) | None => w end
  | Crash d => match acceptors w !! d with Some (mkAcceptor p _) => update w d p (fs w, fl_close (locks w) d, Ended) | None => w end
  end.

Definition run_world : World → list Ev → World := foldl step.

(** Any files may be there at first. *)
Definition start (f : Fs) : World := mkWorld f fl_none ∅.

(** The lock file that guards an acceptor's socket *)
Definition guarded (c : Pc) : option Ino :=
  match c with
  | Locked i | Stale i | Cleaned i | Listening i _ | SocketGone i | Unguarded i => Some i
  | Waiting | Opened _ | LockGone _ | Ended => None
  end.

(** No lock file is removed while another acceptor of the socket has opened it and not yet tried to lock it. *)
Definition calm (w : World) (e : Ev) : Prop :=
  match e with
  | Go d _ => ∀ p i, acceptors w !! d = Some (mkAcceptor p (Unguarded i)) → ∀ d' i', acceptors w !! d' ≠ Some (mkAcceptor p (Opened i'))
  | _ => True
  end.

Fixpoint calm_run (w : World) (es : list Ev) : Prop :=
  match es with [] => True | e :: es => calm w e ∧ calm_run (step w e) es end.

Context {FLL : FileLocksLaws L}.

(** The sockets' paths: none is the lock file of another. *)
Variable named : string → Prop.
Hypothesis named_apart : ∀ p q, named p → named q → p ≠ lock_path q.

Definition begins_named (e : Ev) : Prop := match e with Begin _ p => named p | _ => True end.

Record fs_ok (f : Fs) : Prop := {
  fs_below p i : paths f !! p = Some i → i < next_ino f;
  fs_inj p q i : paths f !! p = Some i → paths f !! q = Some i → p = q;
}.

Definition acc_ok (f : Fs) (l : L) (d : Fd) (a : Acceptor) : Prop :=
  named (socket_path a) ∧
  (∀ i, pc a = Opened i → paths f !! lock_path (socket_path a) = Some i) ∧
  (∀ i, guarded (pc a) = Some i → paths f !! lock_path (socket_path a) = Some i ∧ fl_owner l i = Some d) ∧
  (∀ i s, pc a = Listening i s → paths f !! socket_path a = Some s) ∧
  (∀ i, pc a = LockGone i → i < next_ino f ∧ ∀ p, paths f !! p = Some i → p = lock_path (socket_path a)).

Record world_ok (w : World) : Prop := {
  wo_fs : fs_ok (fs w);
  wo_acc d a : acceptors w !! d = Some a → acc_ok (fs w) (locks w) d a;
  wo_owner i d : fl_owner (locks w) i = Some d → ∃ a, acceptors w !! d = Some a ∧ (guarded (pc a) = Some i ∨ pc a = LockGone i);
}.

Lemma string_app_inv (p q r : string) : (p +:+ r)%string = (q +:+ r)%string → p = q.
Proof.
  intros E. apply (f_equal String.list_ascii_of_string) in E.
  assert (Happ : ∀ s t : string, String.list_ascii_of_string (s +:+ t) = String.list_ascii_of_string s ++ String.list_ascii_of_string t).
  { intros s t. induction s as [|c s IH]; [done|]. simpl. by rewrite IH. }
  rewrite !Happ in E. apply (inj (.++ _)) in E. rewrite <- (String.string_of_list_ascii_of_string p), <- (String.string_of_list_ascii_of_string q). by rewrite E.
Qed.

Lemma lock_path_inj p q : lock_path p = lock_path q → p = q.
Proof. apply string_app_inv. Qed.

(** One acceptor at a time has a socket to itself. *)
Lemma guard_unique w d d' a a' i i' : world_ok w → acceptors w !! d = Some a → acceptors w !! d' = Some a' →
  socket_path a = socket_path a' → guarded (pc a) = Some i → guarded (pc a') = Some i' → d = d'.
Proof.
  intros Hw Ha Ha' Hs Hg Hg'. destruct (wo_acc w Hw d a Ha) as (_ & _ & H & _). destruct (wo_acc w Hw d' a' Ha') as (_ & _ & H' & _).
  destruct (H i Hg) as [Hp Ho]. destruct (H' i' Hg') as [Hp' Ho']. rewrite Hs in Hp. simplify_eq. by simplify_eq.
Qed.

(** What the other acceptors need to stay as they are *)
Lemma acc_ok_mono f l f' l' d a : acc_ok f l d a →
  (∀ i, fl_owner l i = Some d → fl_owner l' i = Some d) → next_ino f ≤ next_ino f' →
  (∀ p i, i < next_ino f → paths f' !! p = Some i → paths f !! p = Some i) →
  (∀ i i', pc a = Opened i ∨ guarded (pc a) = Some i → paths f !! lock_path (socket_path a) = Some i' → paths f' !! lock_path (socket_path a) = Some i') →
  (∀ i s i', pc a = Listening i s → paths f !! socket_path a = Some i' → paths f' !! socket_path a = Some i') →
  acc_ok f' l' d a.
Proof.
  intros (Hn & Ho & Hg & Hl & Hx) Hown Hnext Hback Hlock Hsock. split_and!; [done|..].
  - intros i Hi. eauto.
  - intros i Hi. destruct (Hg i Hi). eauto.
  - intros i s Hi. eauto.
  - intros i Hi. destruct (Hx i Hi) as [Hlt Hp]. split; [lia|]. intros p E. eauto.
Qed.

(** *** What the calls do to the directory *)
Record grows (f f' : Fs) : Prop := {
  gr_next : next_ino f ≤ next_ino f';
  gr_kept p i : paths f !! p = Some i → paths f' !! p = Some i;
  gr_old p i : i < next_ino f → paths f' !! p = Some i → paths f !! p = Some i;
}.

Lemma fresh_file f p : fs_ok f → paths f !! p = None →
  let f' := mkFs (<[p := next_ino f]> (paths f)) (next_ino f + 1) in fs_ok f' ∧ grows f f'.
Proof.
  intros [Hb Hi] Hn f'. split; split; cbn; intros *.
  - rewrite lookup_insert_Some. intros [[_ <-]|[_ ?%Hb]]; lia.
  - rewrite !lookup_insert_Some. intros [[-> <-]|[? Hp]] [[-> E]|[? Hq]]; [done|apply Hb in Hq; lia|apply Hb in Hp; lia|by eapply Hi].
  - lia.
  - intros Hp. rewrite lookup_insert_ne; [done|congruence].
  - rewrite lookup_insert_Some. intros ? [[_ <-]|[_ ?]]; [lia|done].
Qed.

Lemma fs_open_ok f p : fs_ok f → ∃ f' i, fs_open f p = (f', i) ∧ fs_ok f' ∧ grows f f' ∧ paths f' !! p = Some i ∧
  (paths f !! p = None → i = next_ino f).
Proof.
  intros Hf. unfold fs_open. destruct (paths f !! p) as [i|] eqn:E.
  - exists f, i. split_and!; [done|done|by split|done|done].
  - destruct (fresh_file f p Hf E). eexists _, _. split_and!; [done|done|done|apply lookup_insert_eq|done].
Qed.

Lemma rm_on_drop_ok io f p : fs_ok f → fs_ok (rm_on_drop io f p) ∧ next_ino (rm_on_drop io f p) = next_ino f ∧
  (∀ q i, paths (rm_on_drop io f p) !! q = Some i → paths f !! q = Some i) ∧
  (∀ q, q ≠ p → paths (rm_on_drop io f p) !! q = paths f !! q).
Proof.
  intros Hf. unfold rm_on_drop, remove_file. destruct io; [|done]. destruct (paths f !! p) eqn:E; cbn; [|done]. destruct Hf as [Hb Hi].
  split_and!; [split; cbn; intros *|done|intros *|intros q Hq].
  - intros [_ ?]%lookup_delete_Some. eauto.
  - intros [_ ?]%lookup_delete_Some [_ ?]%lookup_delete_Some. eauto.
  - by intros [_ ?]%lookup_delete_Some.
  - by rewrite lookup_delete_ne.
Qed.

(** *** What a step keeps *)
Lemma world_update w d p c f' l' c' : world_ok w → acceptors w !! d = Some (mkAcceptor p c) → fs_ok f' →
  acc_ok f' l' d (mkAcceptor p c') →
  (∀ d' a', d' ≠ d → acceptors w !! d' = Some a' → acc_ok (fs w) (locks w) d' a' → acc_ok f' l' d' a') →
  (∀ i d', fl_owner l' i = Some d' → if decide (d' = d) then guarded c' = Some i ∨ c' = LockGone i else fl_owner (locks w) i = Some d') →
  world_ok (update w d p (f', l', c')).
Proof.
  intros Hw Hd Hf Ha Hrest Hown. split; cbn.
  - done.
  - intros d' a'. rewrite lookup_insert_Some. intros [[<- <-]|[? H]]; [done|]. eapply Hrest; [done|done|]. by apply wo_acc.
  - intros i d' Ho. specialize (Hown i d' Ho). case_decide as E.
    + subst d'. eexists. by rewrite lookup_insert_eq.
    + rewrite lookup_insert_ne by done. by apply wo_owner.
Qed.

(** The directory only gains files, and the locks of others stay *)
Lemma others_grow f l f' l' d d' a' : grows f f' → (∀ i e, e ≠ d → fl_owner l i = Some e → fl_owner l' i = Some e) →
  d' ≠ d → acc_ok f l d' a' → acc_ok f' l' d' a'.
Proof. intros [Hn Hk Ho] Hl Hd Ha. eapply acc_ok_mono; eauto. Qed.

Lemma grows_refl f : grows f f.
Proof. by split. Qed.

(** An acceptor's place changes while the files stay *)
Lemma owner_kept w d p c c' : world_ok w → acceptors w !! d = Some (mkAcceptor p c) → (∀ i, guarded c = Some i ∨ c = LockGone i → guarded c' = Some i ∨ c' = LockGone i) →
  ∀ i d', fl_owner (locks w) i = Some d' → if decide (d' = d) then guarded c' = Some i ∨ c' = LockGone i else fl_owner (locks w) i = Some d'.
Proof.
  intros Hw Hd Hc i d' Ho. case_decide; [|done]. subst d'. destruct (wo_owner w Hw i d Ho) as (a & Ha & Hg). rewrite Hd in Ha. simplify_eq. by apply Hc.
Qed.

Lemma close_owner w d p c : world_ok w → acceptors w !! d = Some (mkAcceptor p c) →
  world_ok (update w d p (fs w, fl_close (locks w) d, Ended)).
Proof.
  intros Hw Hd. destruct (wo_acc w Hw d _ Hd) as [Hn _]. eapply world_update; [done|done|by apply wo_fs| | |].
  - split_and!; [done|discriminate..].
  - intros d' a' Hne Ha' Hok. eapply others_grow; [apply grows_refl| |done|done]. intros i e He Ho. rewrite fl_owner_close. case_decide; congruence.
  - intros i d'. rewrite fl_owner_close. case_decide; [discriminate|]. intros Ho. case_decide; [subst; congruence|done].
Qed.

Lemma world_grow w d p c f' c' : world_ok w → acceptors w !! d = Some (mkAcceptor p c) → fs_ok f' → grows (fs w) f' →
  acc_ok f' (locks w) d (mkAcceptor p c') → (∀ i, guarded c = Some i ∨ c = LockGone i → guarded c' = Some i ∨ c' = LockGone i) →
  world_ok (update w d p (f', locks w, c')).
Proof.
  intros Hw Hd Hf Hg Ha Hc. eapply world_update; [done|done|done|done| |by eapply owner_kept].
  intros d' a' Hne _ Hok. by eapply (others_grow _ _ _ _ d).
Qed.

(** A guarded acceptor removes its socket or its lock file *)
Lemma world_rm w d p c c' i io q : world_ok w → acceptors w !! d = Some (mkAcceptor p c) → guarded c = Some i →
  q = p ∨ q = lock_path p ∧ (∀ d' i', acceptors w !! d' ≠ Some (mkAcceptor p (Opened i'))) →
  acc_ok (rm_on_drop io (fs w) q) (locks w) d (mkAcceptor p c') → guarded c' = Some i ∨ c' = LockGone i →
  world_ok (update w d p (rm_on_drop io (fs w) q, locks w, c')).
Proof.
  intros Hw Hd Hc Hq Ha Hc'. destruct (rm_on_drop_ok io (fs w) q (wo_fs w Hw)) as (Hf & Hn & Hb & Hk).
  destruct (wo_acc w Hw d _ Hd) as [Hnamed _]. cbn in Hnamed.
  eapply world_update; [done|done|done|done| |eapply owner_kept; [done|done|]].
  - intros d' [p' a'] Hne Hd' Hok. pose proof Hok as [Hn' _]. cbn in Hn'.
    assert (Hmine : p' = p → guarded a' = None).
    { intros ->. destruct (guarded a') as [i'|] eqn:E; [|done]. destruct Hne. by eapply guard_unique. }
    eapply acc_ok_mono; [done|done|lia|eauto| |]; cbn.
    + intros j j' Hj Hp. rewrite Hk; [done|]. destruct Hq as [->|[-> Hcalm]].
      * intros E. apply (named_apart p p' Hnamed Hn'). done.
      * intros E%lock_path_inj. destruct Hj as [->|Hj]; [subst p'; by eapply Hcalm|]. rewrite Hmine in Hj; done.
    + intros j s j' -> Hp. rewrite Hk; [done|]. destruct Hq as [->|[-> Hcalm]].
      * intros E. by specialize (Hmine E).
      * intros E. by apply (named_apart p' p Hn' Hnamed).
  - intros j [Hj|Hj]; [|by subst c]. rewrite Hc in Hj. by simplify_eq.
Qed.

Lemma lock_taken w d p i : world_ok w → acceptors w !! d = Some (mkAcceptor p (Opened i)) → ∃ b l', fl_try_lock_exclusive (locks w) i d = (b, l') ∧
  if b then (∀ j, fl_owner l' j = if decide (j = i) then Some d else fl_owner (locks w) j) ∧ fl_owner (locks w) i = None else l' = locks w.
Proof.
  intros Hw Hd. destruct (fl_owner (locks w) i) as [d'|] eqn:E.
  - exists false, (locks w). split; [|done]. eapply fl_try_taken; [done|]. intros ->.
    destruct (wo_owner w Hw i d E) as (a & Ha & Hg). rewrite Hd in Ha. simplify_eq. cbn in Hg. naive_solver.
  - destruct (fl_try_free _ _ d E) as (l' & -> & H). by exists true, l'.
Qed.

Lemma go_ok w d io : world_ok w → calm w (Go d io) → world_ok (step w (Go d io)).
Proof.
  intros Hw Hcalm. cbn [step calm] in *. destruct (acceptors w !! d) as [[p c]|] eqn:Hd; [|done].
  destruct (wo_acc w Hw d _ Hd) as (Hn & Ho & Hg & Hl & Hx). cbn in Hn, Ho, Hg, Hl, Hx. pose proof (wo_fs w Hw) as Hf.
  destruct c as [|i|i|i|i|i s|i|i|i|]; cbn [proceed].
  - destruct io.
    + destruct (fs_open_ok (fs w) (lock_path p) Hf) as (f' & i & -> & Hf' & Hgr & Hp & _).
      eapply world_grow; [done|done|done|done| |cbn; naive_solver]. split_and!; cbn; naive_solver.
    + eapply world_grow; [done|done|done|apply grows_refl| |cbn; naive_solver]. split_and!; cbn; naive_solver.
  - destruct io; [|by eapply close_owner]. destruct (lock_taken w d p i Hw Hd) as ([] & l' & -> & Hl').
    + destruct Hl' as [Hl' Hfree]. eapply world_update; [done|done|done| | |].
      * split_and!; cbn; try discriminate; [done|]. intros j [= <-]. split; [by apply Ho|]. rewrite Hl'. by rewrite decide_True.
      * intros d' a' Hne _ Hok. eapply others_grow; [apply grows_refl| |done|done]. intros j e He Hje. rewrite Hl'. case_decide; [congruence|done].
      * intros j d'. rewrite Hl'. case_decide; intros E; [simplify_eq; rewrite decide_True by done; by left|].
        case_decide; [|done]. subst d'. destruct (wo_owner w Hw j d E) as (a & Ha & Hj). rewrite Hd in Ha. simplify_eq. cbn in Hj. naive_solver.
    + subst l'. by eapply close_owner.
  - destruct (Hg i eq_refl). case_match; (eapply world_grow; [done|done|done|apply grows_refl| |cbn; naive_solver]); split_and!; cbn; naive_solver.
  - destruct (Hg i eq_refl). destruct (if io then remove_file (fs w) p else None) as [f'|] eqn:E; [|by eapply close_owner].
    assert (f' = rm_on_drop true (fs w) p) as ->. { destruct io; [|done]. unfold rm_on_drop. by rewrite E. }
    eapply world_rm; [done|done|done|by left| |by left].
    destruct (rm_on_drop_ok true (fs w) p Hf) as (_ & _ & _ & Hk). split_and!; cbn; try discriminate; [done|]. intros j [= <-].
    rewrite Hk; [done|]. intros E'. by apply (named_apart p p Hn Hn).
  - destruct (Hg i eq_refl). destruct (if io then uds_bind (fs w) p else None) as [[f' s]|] eqn:E.
    + destruct io; [|done]. unfold uds_bind in E. destruct (paths (fs w) !! p) eqn:Ep; [done|]. injection E as <- <-.
      destruct (fresh_file (fs w) p Hf Ep) as [Hf' Hgr]. eapply world_grow; [done|done|done|done| |cbn; naive_solver].
      split_and!; cbn; try discriminate; [done| |].
      * intros j [= <-]. split; [by apply (gr_kept _ _ Hgr)|done].
      * intros j s [= <- <-]. apply lookup_insert_eq.
    + eapply world_grow; [done|done|done|apply grows_refl| |cbn; naive_solver]. split_and!; cbn; naive_solver.
  - eapply world_grow; [done|done|done|apply grows_refl| |cbn; naive_solver]. split_and!; cbn; naive_solver.
  - destruct (Hg i eq_refl). eapply world_grow; [done|done|done|apply grows_refl| |cbn; naive_solver]. split_and!; cbn; naive_solver.
  - destruct (Hg i eq_refl) as [Hp _]. eapply world_rm; [done|done|done|right; split; [done|by eapply Hcalm]| |by right].
    destruct (rm_on_drop_ok io (fs w) (lock_path p) Hf) as (_ & Hnx & Hb & _). split_and!; cbn; try discriminate; [done|].
    intros j [= <-]. rewrite Hnx. split; [by eapply fs_below|]. intros q Hq%Hb. by eapply fs_inj.
  - by eapply close_owner.
  - by eapply close_owner.
Qed.

Lemma stop_ok w d io : world_ok w → world_ok (step w (Stop d io)).
Proof.
  intros Hw. cbn [step]. destruct (acceptors w !! d) as [[p c]|] eqn:Hd; [|done].
  pose proof (wo_acc w Hw d _ Hd) as Hok. pose proof (wo_fs w Hw) as Hf. pose proof Hok as (Hn & _ & Hg & _). cbn in Hn, Hg.
  assert (Hsame : world_ok (update w d p (fs w, locks w, c))) by (eapply world_grow; [done|done|done|apply grows_refl|done|done]).
  destruct c as [|i|i|i|i|i s|i|i|i|]; cbn [stop]; try done.
  - eapply world_grow; [done|done|done|apply grows_refl| |cbn; naive_solver]. split_and!; cbn; naive_solver.
  - destruct (Hg i eq_refl). eapply world_rm; [done|done|done|by left| |by left].
    destruct (rm_on_drop_ok io (fs w) p Hf) as (_ & _ & _ & Hk). split_and!; cbn; try discriminate; [done|]. intros j [= <-].
    rewrite Hk; [done|]. intros E. by apply (named_apart p p Hn Hn).
Qed.

Lemma lock_step_ok w e : world_ok w → begins_named e → calm w e → world_ok (step w e).
Proof.
  intros Hw Hb Hc. destruct e as [d p|d io|d io|d]; [|by apply go_ok|by apply stop_ok|].
  - cbn [step]. destruct (acceptors w !! d) eqn:E; [done|]. split; cbn; [by apply wo_fs| |].
    + intros d' a'. rewrite lookup_insert_Some. intros [[<- <-]|[_ H]]; [split_and!; cbn; naive_solver|by apply wo_acc].
    + intros i d' (a & Ha & Hg)%(wo_owner w Hw). exists a. split; [|done]. rewrite lookup_insert_ne; [done|congruence].
  - cbn [step]. destruct (acceptors w !! d) as [[p c]|] eqn:E; [|done]. by eapply close_owner.
Qed.

Lemma lock_run_ok es : ∀ w, world_ok w → Forall begins_named es → calm_run w es → world_ok (run_world w es).
Proof.
  induction es as [|e es IH]; intros w Hw Hb Hc; [done|]. apply Forall_cons in Hb as [He Hb]. destruct Hc as [Hc1 Hc].
  apply IH; [by apply lock_step_ok|done|done].
Qed.

Lemma start_ok f : fs_ok f → world_ok (start f).
Proof. intros Hf. split; cbn; [done|done|]. intros i d. by rewrite fl_owner_none. Qed.

(** C30: The lock file does its work: whatever the acceptors of all processes do, in any order, and however they fail or die, no two of them
    have passed the lock of one socket and not yet given it up, and the path of the socket of an acceptor that is listening leads to that
    acceptor. This is when no socket's path is that of another's lock file (as s.lock would be for s), the files are at first each at one path, and as long as no
    lock file is removed between another acceptor's opening and locking it. *)
Theorem acceptors_exclusive f es (Hf : fs_ok f) (Hb : Forall begins_named es) (Hc : calm_run (start f) es) :
  let w := run_world (start f) es in
  (∀ d d' p c c' i i', acceptors w !! d = Some (mkAcceptor p c) → acceptors w !! d' = Some (mkAcceptor p c') →
     guarded c = Some i → guarded c' = Some i' → d = d') ∧
  (∀ d p i s, acceptors w !! d = Some (mkAcceptor p (Listening i s)) → paths (fs w) !! p = Some s) ∧
  (∀ d d' p p' i i' s, acceptors w !! d = Some (mkAcceptor p (Listening i s)) → acceptors w !! d' = Some (mkAcceptor p' (Listening i' s)) → d = d').
Proof.
  intros w. assert (Hw : world_ok w) by (apply lock_run_ok; [by apply start_ok|done|done]).
  assert (Hsock : ∀ d p i s, acceptors w !! d = Some (mkAcceptor p (Listening i s)) → paths (fs w) !! p = Some s).
  { intros d p i s Hd. destruct (wo_acc w Hw d _ Hd) as (_ & _ & _ & Hl & _). by eapply Hl. }
  split_and!; [|done|].
  - intros d d' p c c' i i' Hd Hd' Hg Hg'. by eapply guard_unique.
  - intros d d' p p' i i' s Hd Hd'. assert (p = p') as -> by (eapply (fs_inj _ (wo_fs w Hw)); [by eapply Hsock|by eapply Hsock]). by eapply guard_unique.
Qed.

Lemma begun_lookup (m : gmap Fd Acceptor) d a a' : <[d := a']> (<[d := a]> m) = <[d := a']> m.
Proof. by rewrite insert_insert_eq. Qed.

(** Nothing that was left behind is in the way: when the acceptors of a socket are gone, whether they ended or died, and whatever they left at the
    socket's path and at the lock's, the next one gets the socket. *)
Theorem stale_socket_replaced f es d p (Hf : fs_ok f) (Hb : Forall begins_named es) (Hc : calm_run (start f) es) (Hp : named p)
    (Hd : acceptors (run_world (start f) es) !! d = None)
    (Hgone : ∀ d' c, acceptors (run_world (start f) es) !! d' = Some (mkAcceptor p c) → c = Waiting ∨ c = Ended) :
  ∃ i s, acceptors (run_world (start f) (es ++ [Begin d p; Go d true; Go d true; Go d true; Go d true; Go d true])) !! d =
    Some (mkAcceptor p (Listening i s)).
Proof.
  set (w := run_world (start f) es) in *. assert (Hw : world_ok w) by (apply lock_run_ok; [by apply start_ok|done|done]).
  unfold run_world. rewrite foldl_app. change (foldl step (start f) es) with w. cbn [foldl]. clearbody w.
  assert (Hbegin : step w (Begin d p) = mkWorld (fs w) (locks w) (<[d := mkAcceptor p Waiting]> (acceptors w))) by (cbn [step]; by rewrite Hd).
  rewrite Hbegin. cbn [step acceptors fs locks].
  rewrite lookup_insert_eq. cbn [proceed]. destruct (fs_open_ok (fs w) (lock_path p) (wo_fs w Hw)) as (f1 & i & -> & Hf1 & Hgr & Hi & Hnew).
  cbn [update acceptors fs locks]. rewrite begun_lookup, lookup_insert_eq. cbn [proceed].
  assert (Hfree : fl_owner (locks w) i = None).
  { destruct (fl_owner (locks w) i) as [d'|] eqn:E; [|done]. destruct (wo_owner w Hw i d' E) as ([p' c] & Hd' & Hg). cbn in Hg.
    destruct (wo_acc w Hw d' _ Hd') as (_ & _ & Hgd & _ & Hx). cbn in Hgd, Hx.
    assert (Hlt : i < next_ino (fs w)) by (destruct Hg as [Hg|Hg]; [eapply fs_below; [apply Hw|by apply Hgd]|by apply Hx]).
    assert (Hpi : paths (fs w) !! lock_path p = Some i) by by apply (gr_old _ _ Hgr).
    assert (lock_path p = lock_path p') as ->%lock_path_inj.
    { destruct Hg as [Hg|Hg]; [|by eapply Hx]. destruct (Hgd i Hg). by eapply fs_inj; [apply Hw| |]. }
    destruct (Hgone d' c Hd') as [->| ->]; cbn in Hg; naive_solver. }
  destruct (fl_try_free _ _ d Hfree) as (l' & -> & _). cbn [update acceptors fs locks]. rewrite begun_lookup, lookup_insert_eq. cbn [proceed andb].
  case_bool_decide as Hs; cbn [update acceptors fs locks]; rewrite begun_lookup, lookup_insert_eq; cbn [proceed].
  - unfold remove_file. destruct Hs as [s ->]. cbn [update acceptors fs locks]. rewrite begun_lookup, lookup_insert_eq. cbn [proceed].
    unfold uds_bind. cbn [paths]. rewrite lookup_delete_eq. cbn [update acceptors]. rewrite lookup_insert_eq. eauto.
  - unfold uds_bind. apply eq_None_not_Some in Hs. rewrite Hs. cbn [update acceptors fs locks]. rewrite begun_lookup, lookup_insert_eq. cbn [proceed update acceptors].
    rewrite lookup_insert_eq. eauto.
Qed.

End Lock.

(** ** Examples *)
Section Examples.
(** A table of locks *)
#[local] Instance gmap_locks : FileLocks (gmap Ino Fd) := {
  fl_none := ∅;
  fl_owner l i := l !! i;
  fl_try_lock_exclusive l i d := match l !! i with Some d' => (bool_decide (d' = d), l) | None => (true, <[i := d]> l) end;
  fl_close l d := filter (λ x, x.2 ≠ d) l;
}.
#[local] Instance gmap_locks_laws : FileLocksLaws (gmap Ino Fd).
Proof.
  split; cbn.
  - done.
  - intros l i d Hi. rewrite Hi. eexists. split; [done|]. intros j. case_decide; [subst; apply lookup_insert_eq|by apply lookup_insert_ne].
  - intros l i d d' -> Hne. by rewrite bool_decide_false.
  - intros l d i. destruct (l !! i) as [d'|] eqn:E.
    + case_decide as Hd; [|apply map_lookup_filter_Some; naive_solver]. apply map_lookup_filter_None. naive_solver.
    + rewrite decide_False by done. apply map_lookup_filter_None. naive_solver.
Defined.

Definition socks (p : string) : Prop := p = "s"%string ∨ p = "t"%string.
Definition socks_apart : ∀ p q, socks p → socks q → p ≠ lock_path q.
Proof. by intros p q [-> | ->] [-> | ->]. Defined.

Definition empty_fs : Fs := mkFs ∅ 0.
Definition empty_fs_ok : fs_ok empty_fs.
Proof. split; cbn; intros *; by rewrite lookup_empty. Defined.

Definition gos (d : Fd) (n : nat) : list Ev := replicate n (Go d true).

(** Two acceptors at one socket and one at another; the first of them dies. *)
Definition busy : list Ev := [Begin 1 "s"] ++ gos 1 4 ++ [Begin 2 "s"; Go 2 true; Go 2 true; Begin 3 "t"] ++ gos 3 4 ++ [Crash 1].

Definition busy_named : Forall (begins_named socks) busy.
Proof. unfold busy, gos, socks; cbn; repeat (apply Forall_cons; split; [cbn; auto|]); apply Forall_nil; exact I. Defined.

Definition busy_calm : calm_run (L := gmap Ino Fd) (start empty_fs) busy.
Proof. unfold busy, gos. cbn [app replicate calm_run calm]. split_and!; try exact I; intros p i E; vm_compute in E; discriminate E. Defined.

Lemma acceptors_exclusive_witness : let w := run_world (L := gmap Ino Fd) (start empty_fs) busy in
  acceptors w !! 3%nat = Some (mkAcceptor "t" (Listening 2 3)) ∧ paths (fs w) !! "t"%string = Some 3.
Proof.
  intros w. assert (E : acceptors w !! 3%nat = Some (mkAcceptor "t" (Listening 2 3))) by (vm_compute; reflexivity). split; [exact E|].
  exact (proj1 (proj2 (acceptors_exclusive socks socks_apart empty_fs busy empty_fs_ok busy_named busy_calm)) 3%nat "t"%string 2 3 E).
Defined.

Lemma stale_socket_replaced_witness : ∃ i s,
  acceptors (run_world (L := gmap Ino Fd) (start empty_fs) (busy ++ [Begin 4 "s"; Go 4 true; Go 4 true; Go 4 true; Go 4 true; Go 4 true])) !! 4%nat =
    Some (mkAcceptor "s" (Listening i s)).
Proof.
  apply (stale_socket_replaced socks socks_apart empty_fs busy 4 "s" empty_fs_ok busy_named busy_calm).
  - left. reflexivity.
  - vm_compute. reflexivity.
  - intros d' c E%elem_of_map_to_list.
    set (l := map_to_list _) in E. assert (Hl : l =
      [(2%nat, mkAcceptor "s" Ended); (3%nat, mkAcceptor "t" (Listening 2 3)); (1%nat, mkAcceptor "s" Ended)]) by (vm_compute; reflexivity).
    rewrite Hl in E. clear Hl l. rewrite !elem_of_cons in E. destruct E as [E|[E|[E|[]%not_elem_of_nil]]]; simplify_eq; right; reflexivity.
Defined.

(** The gap: an acceptor that has opened the lock file just before it is removed locks a file nobody else can find, so a third one passes the lock
    too, takes the socket of the second for a stale one, and both are listening, the second where no one reaches it. *)
Lemma lock_race : let w := run_world (L := gmap Ino Fd) (start empty_fs)
    ([Begin 1 "s"] ++ gos 1 4 ++ [Begin 2 "s"; Go 2 true; Stop 1 true] ++ gos 1 3 ++ gos 2 3 ++ [Begin 3 "s"] ++ gos 3 5) in
  acceptors w !! 2%nat = Some (mkAcceptor "s" (Listening 0 2)) ∧ acceptors w !! 3%nat = Some (mkAcceptor "s" (Listening 3 4)) ∧
  paths (fs w) !! "s"%string = Some 4.
Proof. vm_compute. done. Qed.

Lemma acceptor_starts_all_witness : ∃ fine rest : list (Selected (Stream := nat)),
  [Accepted (Some 1%nat) true (Ok (Ok 7)); Accepted (Some 2%nat) true (Err tt)] = fine ++ rest ∧
  run (Name := nat) (Protocol := nat) (Options := unit) 9 [0%nat] tt [Ok (Ok 5%nat)] true
    [Accepted (Some 1%nat) true (Ok (Ok 7)); Accepted (Some 2%nat) true (Err tt)] =
    (InitDone :: (AskProtocol <$> [0%nat]) ++
       ((λ s, StartConnection 9 s tt [5%nat]) <$> omap stream_of (fine ++ take 1 rest)), match rest with [] => None | _ => Some tt end).
Proof.
  destruct (acceptor_starts_all (Name := nat) 9 [0%nat] tt [Ok (Ok 5%nat)] [5%nat]
    [Accepted (Some 1%nat) true (Ok (Ok 7)); Accepted (Some 2%nat) true (Err tt)] eq_refl) as (fine & rest & Hs & _ & _ & E & _).
  exists fine, rest. split; [exact Hs|exact E].
Defined.
End Examples.
