(* ===== verification/LogFilter.v ===== *)
(** * The log filter (libs/mm1-logger/src/level_filter_trie.rs and config.rs)

    Statements such as [a::b=debug] set a level for a target and all below it; the trie answers which statement applies. The
    levels are those of [tracing], whose parser and printer are parameters. *)

From Stdlib Require Import Ascii.
From stdpp Require Import strings.
From S2P Require Import Prelude.

Open Scope Z_scope.

(** [tracing::Level]: a level is greater the more it lets through. *)
Inductive Level := ERROR | WARN | INFO | DEBUG | TRACE.
#[export] Instance level_eq_dec : EqDecision Level.
Proof. solve_decision. Defined.
Definition verbosity (l : Level) : Z := match l with ERROR => 0 | WARN => 1 | INFO => 2 | DEBUG => 3 | TRACE => 4 end.

(** ** Text *)

(** [str::split("::")] and [str::split_once('=')] *)
Fixpoint split_colons (s : string) : list string :=
  match s with
  | EmptyString => [EmptyString]
  | String c s =>
      match s with
      | String c' s' =>
          if bool_decide (c = ":"%char ∧ c' = ":"%char) then EmptyString :: split_colons s'
          else match split_colons s with h :: t => String c h :: t | [] => [String c EmptyString] end
      | EmptyString => [String c EmptyString]
      end
  end.
Fixpoint split_eq (s : string) : option (string * string) :=
  match s with
  | EmptyString => None
  | String c s =>
      if bool_decide (c = "="%char) then Some (EmptyString, s)
      else match split_eq s with Some (l, r) => Some (String c l, r) | None => None end
  end.

(** ** The trie *)
Inductive FilterTrie := mkTrie (level : option Level) (children : gmap string FilterTrie).
Definition level (t : FilterTrie) : option Level := let '(mkTrie l _) := t in l.
Definition children (t : FilterTrie) : gmap string FilterTrie := let '(mkTrie _ c) := t in c.
Definition trie_default : FilterTrie := mkTrie None ∅.

(** [FilterTrie::level_for_target]; for the empty path it is the node's own level. *)
Fixpoint level_for_target (t : FilterTrie) (path : list string) : option Level :=
  match path with
  | head :: rest =>
      or_ (n ← children t !! head; level_for_target n rest) (or_ (n ← children t !! "*"; level n) (level t))
  | [] => level t
  end.

(** [LogTargetConfig] *)
Record LogTargetConfig := mkTarget { target_path : list string; target_level : Level }.

(** One statement of [FilterTrie::from_statements] *)
Fixpoint set_level (t : FilterTrie) (path : list string) (l : Level) : FilterTrie :=
  match path with
  | [] => mkTrie (Some l) (children t)
  | mod_name :: path => mkTrie (level t) (<[mod_name := set_level (default trie_default (children t !! mod_name)) path l]> (children t))
  end.
Definition from_statements (statements : list LogTargetConfig) : FilterTrie :=
  foldl (λ root s, set_level root (target_path s) (target_level s)) trie_default statements.

(** [FilterTrie::allows] *)
Definition allows (t : FilterTrie) (target : string) (event_level : Level) : bool :=
  match level_for_target t (split_colons target) with
  | Some l => verbosity event_level <=? verbosity l
  | None => true
  end.

(** ** Statements as text *)
Section Statements.
Context (level_from_str : string → result Level string) (level_to_string : Level → string).

(** [FromStr for LogTargetConfig] and [Display for LogTargetConfig] *)
Definition log_target_from_str (s : string) : result LogTargetConfig string :=
  match split_eq s with
  | None => Err "eq-sign missing"
  | Some (p, l) =>
      match level_from_str l with
      | Err e => Err e
      | Ok l => Ok (mkTarget (split_colons p) l)
      end
  end.
Definition log_target_to_string (c : LogTargetConfig) : string :=
  String.append (String.concat "::" (target_path c)) (String.append "=" (level_to_string (target_level c))).

Lemma split_colons_nonempty s : split_colons s ≠ [].
Proof.
  destruct s as [|c s]; cbn; [done|]. destruct s as [|c' s]; [done|]. case_bool_decide; [done|]. by destruct (split_colons (String c' s)).
Qed.

Lemma concat_cons h t : t ≠ [] → String.concat "::" (h :: t) = String.append h (String.append "::" (String.concat "::" t)).
Proof. by destruct t. Qed.
Lemma concat_push c h t : String.concat "::" (String c h :: t) = String c (String.concat "::" (h :: t)).
Proof. by destruct t. Qed.

(** Joining the parts gives the text back. *)
Lemma concat_split s : String.concat "::" (split_colons s) = s.
Proof.
  remember (String.length s) as n eqn:Hn. revert s Hn. induction (Nat.lt_wf_0 n) as [n _ IH]. intros s ->.
  destruct s as [|c s]; [done|]. destruct s as [|c' s]; [done|]. cbn [split_colons]. case_bool_decide as Hc.
  - destruct Hc as [-> ->]. rewrite concat_cons by apply split_colons_nonempty. cbn.
    by rewrite (IH (String.length s)) by (done || cbn; lia).
  - pose proof (IH (String.length (String c' s)) ltac:(cbn; lia) (String c' s) eq_refl) as E.
    pose proof (split_colons_nonempty (String c' s)) as Hne. change (match s with EmptyString => _ | String _ _ => _ end) with (split_colons (String c' s)).
    destruct (split_colons (String c' s)) as [|h t]; [done|]. by rewrite concat_push, E.
Qed.

Lemma split_eq_append l r s p : split_eq s = Some (p, r) → split_eq (String.append p (String.append "=" l)) = Some (p, l).
Proof.
  revert p. induction s as [|c s IH]; cbn [split_eq]; [done|]. intros p. case_bool_decide as Hc; [intros [= <- <-]; done|].
  destruct (split_eq s) as [[p' r']|]; [|done]. intros [= <- <-]. specialize (IH p' eq_refl).
  change (String.append (String c p') ?x) with (String c (String.append p' x)). cbn [split_eq].
  rewrite bool_decide_false by done. by rewrite IH.
Qed.

(** A log statement survives being printed and read again, whatever its path looks like, given that levels do: what is parsed from
    any text is parsed again, the same, from its printed form. *)
Theorem log_target_roundtrip s c (Hl : ∀ l, level_from_str (level_to_string l) = Ok l) (Hs : log_target_from_str s = Ok c) :
  log_target_from_str (log_target_to_string c) = Ok c.
Proof.
  unfold log_target_from_str in Hs. destruct (split_eq s) as [[p l]|] eqn:E; [|done]. destruct (level_from_str l) as [lv|]; [|done].
  injection Hs as <-. unfold log_target_to_string, log_target_from_str. cbn [target_path target_level].
  by rewrite concat_split, (split_eq_append _ _ _ _ E), Hl.
Qed.
End Statements.

(** ** Which statement applies *)

(** The level set for exactly this path, by the last statement for it *)
Definition statement_level (ss : list LogTargetConfig) (p : list string) : option Level :=
  target_level <$> last (filter (λ s, target_path s = p) ss).

(** The paths whose statements could apply to a target, the most specific first: the target itself, then for each of its prefixes,
    from the longest, its wildcard and the prefix. *)
Fixpoint candidates (path : list string) : list (list string) :=
  match path with
  | [] => [[]]
  | head :: rest => (cons head <$> candidates rest) ++ [["*"]; []]
  end.

Fixpoint node_level (t : FilterTrie) (p : list string) : option Level :=
  match p with [] => level t | x :: p => n ← children t !! x; node_level n p end.

Lemma node_level_default p : node_level trie_default p = None.
Proof. destruct p; cbn; [done|]. by rewrite lookup_empty. Qed.

Lemma node_level_set t p l q : node_level (set_level t p l) q = if decide (q = p) then Some l else node_level t q.
Proof.
  revert t q. induction p as [|x p IH]; intros t [|y q]; cbn; try done. destruct (decide (y = x)) as [->|Hne].
  - rewrite lookup_insert_eq. cbn. rewrite IH. destruct (decide (q = p)) as [->|Hq]; [by rewrite decide_True|].
    rewrite (decide_False (P := x :: q = x :: p)) by congruence.
    destruct (children t !! x) as [n|]; cbn; [done|apply node_level_default].
  - rewrite lookup_insert_ne by done. by rewrite decide_False by congruence.
Qed.

Lemma from_statements_level ss p : node_level (from_statements ss) p = statement_level ss p.
Proof.
  unfold from_statements, statement_level. induction ss as [|s ss IH] using rev_ind; [apply node_level_default|].
  rewrite foldl_snoc, node_level_set, filter_app, IH. case_decide as Hp.
  - subst p. rewrite filter_cons_True, filter_nil by done. by rewrite last_snoc.
  - rewrite filter_cons_False, filter_nil by done. by rewrite app_nil_r.
Qed.

Lemma level_for_target_first t path : level_for_target t path = head (omap (node_level t) (candidates path)).
Proof.
  revert t. induction path as [|x path IH]; intros t; cbn [level_for_target candidates].
  - cbn. by destruct (level t).
  - rewrite omap_app. cbn [omap list_omap node_level].
    assert (E : omap (node_level t) (cons x <$> candidates path) = match children t !! x with Some n => omap (node_level n) (candidates path) | None => [] end).
    { clear IH. induction (candidates path) as [|p ps IHp]; cbn; [by destruct (children t !! x)|]. rewrite IHp. by destruct (children t !! x). }
    rewrite E. destruct (children t !! x) as [n|]; cbn [mbind option_bind].
    + rewrite IH. destruct (omap (node_level n) (candidates path)); [|done]. cbn. destruct (children t !! "*") as [w|]; cbn; [destruct (level w); [done|]|]; by destruct (level t).
    + cbn. destruct (children t !! "*") as [w|]; cbn; [destruct (level w); [done|]|]; by destruct (level t).
Qed.

(** The filter lets an event through exactly when the most specific statement for its target allows it, and when there is none: the
    trie, built from the statements in turn, answers as a search for the last statement for the target itself, or else for the
    wildcard of its longest prefix, that prefix, and so on down to the statement for everything. *)
Theorem allows_correct ss target l :
  allows (from_statements ss) target l =
    match head (omap (statement_level ss) (candidates (split_colons target))) with
    | Some l' => verbosity l <=? verbosity l'
    | None => true
    end.
Proof.
  unfold allows. rewrite level_for_target_first.
  assert (E : ∀ ps : list (list string), omap (node_level (from_statements ss)) ps = omap (statement_level ss) ps).
  { induction ps as [|p ps IH]; cbn; [done|]. by rewrite from_statements_level, IH. }
  by rewrite E.
Qed.

(** ** Examples *)
Section Examples.
Definition level_name (l : Level) : string := match l with ERROR => "ERROR" | WARN => "WARN" | INFO => "INFO" | DEBUG => "DEBUG" | TRACE => "TRACE" end.
Definition level_named (s : string) : result Level string :=
  match list_find (λ l, level_name l = s) [ERROR; WARN; INFO; DEBUG; TRACE] with Some (_, l) => Ok l | None => Err "invalid level" end.

Lemma log_target_roundtrip_witness : log_target_from_str level_named "a::b=DEBUG" = Ok (mkTarget ["a"; "b"] DEBUG) ∧
  log_target_from_str level_named (log_target_to_string level_name (mkTarget ["a"; "b"] DEBUG)) = Ok (mkTarget ["a"; "b"] DEBUG).
Proof.
  split; [reflexivity|]. apply (log_target_roundtrip level_named level_name "a::b=DEBUG"); [by intros []|reflexivity].
Defined.

Definition two_statements : list LogTargetConfig := [mkTarget ["a"] DEBUG; mkTarget ["a"; "b"] INFO].
Example allows_examples : allows (from_statements two_statements) "a::c" DEBUG = true ∧
  allows (from_statements two_statements) "a::b::c" DEBUG = false ∧ allows (from_statements []) "x" TRACE = true.
Proof. by vm_compute. Qed.
End Examples.
