(* ===== verification/Context.v ===== *)
(** * The actor context (core/mm1-node/src/runtime/context.rs,
    runtime/context/impl_context_api.rs, runtime/rt_api.rs)

    The forks of an actor share one mailbox. Whichever fork receives first sorts
    the incoming messages into the inboxes of all the forks, answers pings, and
    then takes its own next message. A fork may also bind a foreign subnet to the
    actor's mailbox, and may be forked itself. *)

From S2P Require Import Prelude U64 Address Subnet Trie Pool Registry.

Open Scope Z_scope.

Section Context.
Context {M : Type}.

(** ** Messages

    The envelope without its serial number and trace id; of the messages only
    [sys::Ping] is looked into. *)
Inductive Body := Ping (reply_to : option Address) (id : Z) | User (m : M).

Record Envelope := mkEnvelope { env_to : Address; ttl : Z; env_priority : bool; body : Body }.

Definition DEFAULT_TTL : Z := 15.

(** [EnvelopeHeader::to_address(to).with_priority(p)] and [Envelope::new] *)
Definition envelope_new (to : Address) (p : bool) (b : Body) : Envelope := mkEnvelope to DEFAULT_TTL p b.

(** [MessageWithoutPermit] and [MessageWithPermit]; a message with a permit gives
    it back to the semaphore of its node when it is dropped. *)
Record Queued := mkQueued { q_to : Address; q_message : Envelope }.

(** ** The state the forks share *)
Record ForkEntry := mkFork {
  inbox_priority : list Queued;
  inbox_regular : list Queued;
  last_ping_received : option Z;
}.
Definition fork_default : ForkEntry := mkFork [] [] None.

Record SubnetContext := mkSubnet {
  subnet_pool : Shared;
  rx_priority : list Queued;
  rx_regular : list Queued;
  fork_entries : gmap Address ForkEntry;
  (** a [BTreeMap] whose keys are equal when they overlap *)
  bound_subnets : list (AddressRange * Address);
}.

Definition set_lanes (st : SubnetContext) (p r : list Queued) : SubnetContext :=
  mkSubnet (subnet_pool st) p r (fork_entries st) (bound_subnets st).
Definition set_forks (st : SubnetContext) (f : gmap Address ForkEntry) : SubnetContext :=
  mkSubnet (subnet_pool st) (rx_priority st) (rx_regular st) f (bound_subnets st).
Definition set_bound (st : SubnetContext) (b : list (AddressRange * Address)) : SubnetContext :=
  mkSubnet (subnet_pool st) (rx_priority st) (rx_regular st) (fork_entries st) b.

Inductive Out :=
| SendTo (to : Address) (priority : bool) (e : Envelope)
| NotifyFork (fork : Address).

(** ** Sorting the incoming messages *)

(** [bound_subnets.get(&AddressRange::from(to)).copied().unwrap_or(to)] *)
Definition message_to (bound : list (AddressRange * Address)) (to : Address) : outcome Address :=
  range ← range_from_address to;
  Ret match list_peek bound range with Some (_, fork) => fork | None => to end.

(** [if should_notify && notified_forks.insert(message_to) { notify_one() }] *)
Definition notify (should_notify : bool) (notified : gset Address) (fork : Address) : gset Address * list Out :=
  if should_notify && bool_decide (fork ∉ notified) then ({[fork]} ∪ notified, [NotifyFork fork])
  else (notified, []).

(** One message of the priority lane, already taken out of it. [local] tells
    which addresses the registry routes to this very mailbox: a pong to such an
    address joins the lane that is being emptied. *)
Definition sort_priority (local : Address → bool) (st : SubnetContext) (notified : gset Address) (q : Queued) :
  outcome (SubnetContext * gset Address * list Out) :=
  fork ← message_to (bound_subnets st) (q_to q);
  match fork_entries st !! fork with
  | None => Ret (st, notified, [])
  | Some e =>
      match body (q_message q) with
      | Ping (Some reply_to) id =>
          let pong := envelope_new reply_to true (Ping None id) in
          Ret (if local reply_to
               then set_lanes st (rx_priority st ++ [mkQueued reply_to pong]) (rx_regular st) else st,
               notified, [SendTo reply_to true pong])
      | Ping None id =>
          let '(notified, out) := notify true notified fork in
          Ret (set_forks st (<[fork := mkFork (inbox_priority e) (inbox_regular e) (Some id)]> (fork_entries st)),
               notified, out)
      | User _ =>
          let '(notified, out) := notify true notified fork in
          Ret (set_forks st (<[fork := mkFork (inbox_priority e ++ [q]) (inbox_regular e) (last_ping_received e)]>
                               (fork_entries st)), notified, out)
      end
  end.

(** The first loop of [process_inlets]; [n] is how often [try_recv_realtime]
    looks into the lane before it answers [None], because the lane is empty or
    busy. *)
Fixpoint priority_loop (local : Address → bool) (n : nat) (st : SubnetContext) (notified : gset Address) :
  outcome (SubnetContext * gset Address * list Out) :=
  match n, rx_priority st with
  | O, _ | _, [] => Ret (st, notified, [])
  | S n, q :: l =>
      '(st, notified, out) ← sort_priority local (set_lanes st l (rx_regular st)) notified q;
      '(st, notified, out') ← priority_loop local n st notified;
      Ret (st, notified, out ++ out')
  end.

Definition sort_regular (st : SubnetContext) (notified : gset Address) (q : Queued) :
  outcome (SubnetContext * gset Address * list Out) :=
  fork ← message_to (bound_subnets st) (q_to q);
  match fork_entries st !! fork with
  | None => Ret (st, notified, [])
  | Some e =>
      let '(notified, out) := notify true notified fork in
      Ret (set_forks st (<[fork := mkFork (inbox_priority e) (inbox_regular e ++ [q]) (last_ping_received e)]>
                           (fork_entries st)), notified, out)
  end.

Fixpoint regular_loop (n : nat) (st : SubnetContext) (notified : gset Address) :
  outcome (SubnetContext * gset Address * list Out) :=
  match n, rx_regular st with
  | O, _ | _, [] => Ret (st, notified, [])
  | S n, q :: l =>
      '(st, notified, out) ← sort_regular (set_lanes st (rx_priority st) l) notified q;
      '(st, notified, out') ← regular_loop n st notified;
      Ret (st, notified, out ++ out')
  end.

(** What the lanes do during one pass: how many messages each yields, and whether
    it then answers that it is closed. *)
Record Pass := mkPass { n_priority : nat; n_regular : nat; priority_closed : bool; regular_closed : bool }.

Inductive RecvErrorKind := RecvClosed.

Definition process_inlets (local : Address → bool) (p : Pass) (st : SubnetContext) :
  outcome (SubnetContext * list Out * result unit RecvErrorKind) :=
  '(st, notified, out) ← priority_loop local (n_priority p) st ∅;
  if priority_closed p then Ret (st, out, Err RecvClosed)
  else
    '(st, _, out') ← regular_loop (n_regular p) st notified;
    Ret (st, out ++ out', if regular_closed p then Err RecvClosed else Ok tt).

(** ** Receiving *)

(** The locked part of one turn of [recv]: [Ok None] means wait. *)
Definition recv_pass (local : Address → bool) (p : Pass) (fork : Address) (st : SubnetContext) :
  outcome (SubnetContext * list Out * result (option Envelope) RecvErrorKind) :=
  '(st, out, r) ← process_inlets local p st;
  match r with
  | Err e => Ret (st, out, Err e)
  | Ok _ =>
      e ← expect (fork_entries st !! fork);
      match inbox_priority e, inbox_regular e with
      | q :: l, _ =>
          Ret (set_forks st (<[fork := mkFork l (inbox_regular e) (last_ping_received e)]> (fork_entries st)),
               out, Ok (Some (q_message q)))
      | [], q :: l =>
          Ret (set_forks st (<[fork := mkFork [] l (last_ping_received e)]> (fork_entries st)),
               out, Ok (Some (q_message q)))
      | [], [] => Ret (st, out, Ok None)
      end
  end.

(** [Messaging::recv]: a turn for each notification. Before each turn the
    surroundings have put messages into the lanes. *)
Record Arrival := mkArrival { to_priority : list Queued; to_regular : list Queued; pass : Pass }.

Definition arrive (st : SubnetContext) (a : Arrival) : SubnetContext :=
  set_lanes st (rx_priority st ++ to_priority a) (rx_regular st ++ to_regular a).

Fixpoint recv (local : Address → bool) (fork : Address) (st : SubnetContext) (turns : list Arrival) :
  outcome (SubnetContext * list Out * option (result Envelope RecvErrorKind)) :=
  match turns with
  | [] => Ret (st, [], None)
  | a :: turns =>
      '(st, out, r) ← recv_pass local (pass a) fork (arrive st a);
      match r with
      | Ok None => '(st, out', r) ← recv local fork st turns; Ret (st, out ++ out', r)
      | Ok (Some e) => Ret (st, out, Some (Ok e))
      | Err e => Ret (st, out, Some (Err e))
      end
  end.

(** ** Sending *)
Inductive SendErrorKind := InternalError | NotFound | Closed | Full | TtlExhausted.

Section Runtime.
Context {TI : Type → Type} `{TreeIndex TI} {N : Type}.

(** The registry names nodes; [mailboxes] is what their handles share. *)
Record RtApi := mkRt { registry : TI Z; mailboxes : gmap Z (Mailbox (M := Envelope)) }.

(** [RtApi::send_to]; a handle that leads nowhere is a closed mailbox. *)
Definition send_to (rt : RtApi) (to : Address) (priority : bool) (outbound : Envelope) :
  outcome (RtApi * result unit SendErrorKind) :=
  found ← lookup_ (registry rt) to;
  Ret match found with
      | None => (rt, Err NotFound)
      | Some node =>
          match mailboxes rt !! node with
          | None => (rt, Err Closed)
          | Some mb =>
              let '(mb, sent) := node_send mb to priority outbound in
              (mkRt (registry rt) (<[node := mb]> (mailboxes rt)), if sent then Ok tt else Err Closed)
          end
      end.

(** [header.ttl.checked_sub(1)] *)
Definition spend_ttl (e : Envelope) : result Envelope SendErrorKind :=
  if ttl e =? 0 then Err TtlExhausted
  else Ok (mkEnvelope (env_to e) (ttl e - 1) (env_priority e) (body e)).

Definition do_forward (rt : RtApi) (to : Address) (outbound : Envelope) : outcome (RtApi * result unit SendErrorKind) :=
  match spend_ttl outbound with
  | Err k => Ret (rt, Err k)
  | Ok outbound => send_to rt to (env_priority outbound) outbound
  end.

Definition do_send (rt : RtApi) (outbound : Envelope) : outcome (RtApi * result unit SendErrorKind) :=
  match spend_ttl outbound with
  | Err k => Ret (rt, Err k)
  | Ok outbound => send_to rt (env_to outbound) (env_priority outbound) outbound
  end.

(** ** Binding subnets, forking, and the end of a fork *)
Inductive BindErrorKind := BindClosed | BindConflict.

(** [Bind::bind]; [node] is the new node, if the mailbox still has a sender. *)
Definition bind (networks : TI N) (st : SubnetContext) (fork : Address) (bind_to : NetAddress) (node : option N) :
  outcome (TI N * SubnetContext * result unit BindErrorKind) :=
  address_range ← range_from_net bind_to;
  match list_peek (bound_subnets st) address_range with
  | Some _ => Ret (networks, st, Err BindConflict)
  | None =>
      match node with
      | None => Ret (networks, st, Err BindClosed)
      | Some node =>
          '(networks, r) ← register networks bind_to node;
          Ret match r with
              | Err _ => (networks, st, Err BindConflict)
              | Ok _ => (networks, set_bound st ((address_range, fork) :: bound_subnets st), Ok tt)
              end
      end
  end.

(** The second loop of [drop]. *)
Fixpoint unbind_all (networks : TI N) (bound : list (AddressRange * Address)) (unbound_subnets : list AddressRange) :
  outcome (TI N * list (AddressRange * Address)) :=
  match unbound_subnets with
  | [] => Ret (networks, bound)
  | address_range :: unbound_subnets =>
      let bound := default bound (list_remove bound address_range) in
      net ← net_from_range address_range;
      '(networks, _) ← unregister networks net;
      unbind_all networks bound unbound_subnets
  end.

Inductive Returned := ForkDoneSent (fork_lease : Lease) | LeaseDropped | NoLease.

(** What [drop] does with the fork's lease; [connected] tells whether the container
    still has its queue of system messages. A lease that is not handed over is
    dropped. *)
Definition return_lease (pool : Shared) (fork_lease : option Lease) (connected : bool) : outcome (Shared * Returned) :=
  match fork_lease with
  | None => Ret (pool, NoLease)
  | Some l => if connected then Ret (pool, ForkDoneSent l) else pool ← lease_drop pool l; Ret (pool, LeaseDropped)
  end.

(** The subnets a fork has bound. *)
Definition bound_by (fork : Address) (bound : list (AddressRange * Address)) : list AddressRange :=
  (filter (λ e, e.2 = fork) bound).*1.

(** When the last fork is gone, the actor's own subnet is unregistered. *)
Definition unregister_last (networks : TI N) (forks : gmap Address ForkEntry) (subnet_address : NetAddress) :
  outcome (TI N * bool) :=
  if (size forks =? 0)%nat then unregister networks subnet_address else Ret (networks, false).

(** [ActorContext::drop] *)
Definition context_drop (networks : TI N) (st : SubnetContext) (fork : Address) (subnet_address : NetAddress)
  (fork_lease : option Lease) (connected : bool) : outcome (TI N * SubnetContext * Returned) :=
  '(networks, bound) ← unbind_all networks (bound_subnets st) (bound_by fork (bound_subnets st));
  let forks := delete fork (fork_entries st) in
  '(pool, returned) ← return_lease (subnet_pool st) fork_lease connected;
  '(networks, _) ← unregister_last networks forks subnet_address;
  Ret (networks, mkSubnet pool (rx_priority st) (rx_regular st) forks bound, returned).

End Runtime.

Inductive ForkErrorKind := ForkInternalError | ResourceConstraint.

(** [Fork::fork]: the new fork's lease. *)
Definition fork_ (st : SubnetContext) : outcome (SubnetContext * result Lease ForkErrorKind) :=
  '(pool, r) ← lease (subnet_pool st) M_64;
  match r with
  | Err _ =>
      Ret (mkSubnet pool (rx_priority st) (rx_regular st) (fork_entries st) (bound_subnets st), Err ResourceConstraint)
  | Ok l =>
      let fork := address (net_address l) in
      assert_ (bool_decide (fork_entries st !! fork = None));;
      Ret (mkSubnet pool (rx_priority st) (rx_regular st) (<[fork := fork_default]> (fork_entries st)) (bound_subnets st),
           Ok l)
  end.

(** ** What is pending for a fork *)

(** The fork a message to [to] is for. *)
Definition dest (bound : list (AddressRange * Address)) (to : Address) : Address :=
  match list_peek bound (mkRange to to) with Some (_, fork) => fork | None => to end.

Definition is_user (q : Queued) : bool := match body (q_message q) with User _ => true | Ping _ _ => false end.

(** The messages a fork has not received yet, in the order of their arrival: those
    in its inbox, then those still in the lane. Pings are not for the actor. *)
Definition waiting (st : SubnetContext) (f : Address) (lane : list Queued) : list Queued :=
  filter (λ q, dest (bound_subnets st) (q_to q) = f) lane.
Definition pending_priority (st : SubnetContext) (f : Address) : list Queued :=
  match fork_entries st !! f with
  | Some e => inbox_priority e ++ waiting st f (filter is_user (rx_priority st))
  | None => []
  end.
Definition pending_regular (st : SubnetContext) (f : Address) : list Queued :=
  match fork_entries st !! f with
  | Some e => inbox_regular e ++ waiting st f (rx_regular st)
  | None => []
  end.

Definition notification (o : Out) : option Address :=
  match o with NotifyFork f => Some f | SendTo _ _ _ => None end.
Definition notifications (out : list Out) : list Address := omap notification out.

Lemma message_to_dest bound to : message_to bound to = Ret (dest bound to).
Proof. unfold message_to, range_from_address, range_new. by rewrite Z.leb_refl. Qed.

(** What sorting messages leaves as it was, and what it announces: [n] and [n']
    are the forks notified so far. *)
Record sorted (st st' : SubnetContext) (n n' : gset Address) (out : list Out) : Prop := {
  so_bound : bound_subnets st' = bound_subnets st;
  so_pool : subnet_pool st' = subnet_pool st;
  so_forks f : is_Some (fork_entries st' !! f) ↔ is_Some (fork_entries st !! f);
  so_priority f : pending_priority st' f = pending_priority st f;
  so_regular f : pending_regular st' f = pending_regular st f;
  so_same f : f ∉ n' → fork_entries st' !! f = fork_entries st !! f;
  so_notified f : f ∈ n' ↔ f ∈ n ∨ f ∈ notifications out;
  so_once : NoDup (notifications out) ∧ ∀ f, f ∈ n → f ∉ notifications out;
}.

Lemma notifications_app out out' : notifications (out ++ out') = notifications out ++ notifications out'.
Proof. apply omap_app. Qed.

Lemma sorted_refl st n : sorted st st n n [].
Proof.
  split; try done; [|].
  - intros f. split; [by left|]. by intros [?|?%elem_of_nil].
  - split; [constructor|]. by intros f _ ?%elem_of_nil.
Qed.

Lemma sorted_trans st1 st2 st3 n1 n2 n3 out1 out2 :
  sorted st1 st2 n1 n2 out1 → sorted st2 st3 n2 n3 out2 → sorted st1 st3 n1 n3 (out1 ++ out2).
Proof.
  intros [A1 A2 A3 A4 A5 A6 A7 [A8 A9]] [B1 B2 B3 B4 B5 B6 B7 [B8 B9]]. split.
  - by rewrite B1.
  - by rewrite B2.
  - intros f. by rewrite B3.
  - intros f. by rewrite B4.
  - intros f. by rewrite B5.
  - intros f Hf. rewrite B6 by done. apply A6. rewrite B7 in Hf. tauto.
  - intros f. rewrite notifications_app, elem_of_app, B7, A7. tauto.
  - rewrite notifications_app. split.
    + apply NoDup_app. split_and!; try done. intros f Hf. apply B9, A7. by right.
    + intros f Hf. rewrite elem_of_app. intros [H|H]; [by eapply A9|]. eapply B9; [|done]. apply A7. by left.
Qed.

(** Announcing a fork whose entry is replaced. *)
Lemma sorted_entry st st' n n' f e e' out :
  notify true n f = (n', out) →
  bound_subnets st' = bound_subnets st → subnet_pool st' = subnet_pool st →
  fork_entries st !! f = Some e → fork_entries st' = <[f := e']> (fork_entries st) →
  (∀ g, pending_priority st' g = pending_priority st g) → (∀ g, pending_regular st' g = pending_regular st g) →
  sorted st st' n n' out.
Proof.
  unfold notify. intros Hn Hb Hp He He' H1 H2. cbn in Hn.
  assert (Hforks : ∀ g, is_Some (fork_entries st' !! g) ↔ is_Some (fork_entries st !! g)).
  { intros g. rewrite He', lookup_insert_is_Some'. naive_solver. }
  assert (Hsame : ∀ g, g ≠ f → fork_entries st' !! g = fork_entries st !! g).
  { intros g Hg. rewrite He'. by apply lookup_insert_ne. }
  case_bool_decide as Hin; injection Hn as <- <-; split; try done.
  - intros g Hg. apply Hsame. set_solver.
  - intros g. cbn. rewrite list_elem_of_singleton. set_solver.
  - split; [apply NoDup_singleton|]. intros g Hg. cbn. rewrite list_elem_of_singleton. by intros ->.
  - intros g Hg. apply Hsame. by intros ->.
  - intros g. cbn. rewrite elem_of_nil. tauto.
  - split; [constructor|]. intros g _. apply not_elem_of_nil.
Qed.

(** A ping request may leave a pong in the lane, anything else leaves nothing. *)
Definition weight (q : Queued) : nat :=
  match body (q_message q) with Ping (Some _) _ => 2 | _ => 1 end.
Definition work (lane : list Queued) : nat := sum_list_with weight lane.

Lemma work_cons q l : work (q :: l) = (weight q + work l)%nat.
Proof. done. Qed.

Lemma waiting_user_cons st f q l :
  waiting st f (filter is_user (q :: l)) =
  (if is_user q && bool_decide (dest (bound_subnets st) (q_to q) = f) then [q] else []) ++
  waiting st f (filter is_user l).
Proof.
  unfold waiting. rewrite filter_cons. case_decide as Hd; destruct (is_user q); try done.
  rewrite filter_cons. case_decide; case_bool_decide; done.
Qed.

Lemma waiting_cons st f q l :
  waiting st f (q :: l) = (if bool_decide (dest (bound_subnets st) (q_to q) = f) then [q] else []) ++ waiting st f l.
Proof. unfold waiting. rewrite filter_cons. case_decide; case_bool_decide; done. Qed.

Lemma waiting_not_user st f l q : is_user q = false →
  waiting st f (filter is_user (l ++ [q])) = waiting st f (filter is_user l).
Proof.
  intros Hq. unfold waiting. rewrite filter_app, (filter_cons _ q), decide_False, filter_nil, app_nil_r; [done|].
  intros Hu. by rewrite Hq in Hu.
Qed.

Lemma sort_priority_sorted local st n q l : rx_priority st = q :: l →
  ∃ st' n' out, sort_priority local (set_lanes st l (rx_regular st)) n q = Ret (st', n', out) ∧
    sorted st st' n n' out ∧ rx_regular st' = rx_regular st ∧ (work (rx_priority st') < work (rx_priority st))%nat.
Proof.
  intros Hl. unfold sort_priority. cbn [set_lanes bound_subnets fork_entries rx_priority rx_regular].
  rewrite message_to_dest, bind_Ret. set (f := dest (bound_subnets st) (q_to q)).
  assert (Hu : ∀ g, waiting st g (filter is_user (rx_priority st)) =
    (if is_user q && bool_decide (f = g) then [q] else []) ++ waiting st g (filter is_user l)).
  { intros g. by rewrite Hl, waiting_user_cons. }
  destruct (fork_entries st !! f) as [e|] eqn:Ee.
  2: { eexists _, _, _. split; [done|]. rewrite Hl. split_and!; [|done|cbn; destruct q as [? [? ? ? [[]|]]]; cbn; lia].
    destruct (sorted_refl st n) as [? ? ? ? ? ? ? ?]. split; try done. intros g. unfold pending_priority. rewrite Hu.
    cbn. case_bool_decide as Hg; [|by rewrite andb_false_r]. subst g. by rewrite Ee. }
  assert (Hq : is_user q = match body (q_message q) with User _ => true | Ping _ _ => false end) by done.
  destruct (body (q_message q)) as [[r|] id|m] eqn:Eb.
  - eexists _, _, _. split; [done|]. split_and!; [|by destruct (local r)|].
    + destruct (sorted_refl st n) as [? ? ? ? ? ? ? ?].
      split; try (by destruct (local r)).
      * intros g. unfold pending_priority. rewrite Hu, Hq. destruct (local r); [|done]. cbn [rx_priority fork_entries set_lanes].
        destruct (fork_entries st !! g); [|done]. by rewrite (waiting_not_user _ _ _ (mkQueued r _)).
    + rewrite Hl, work_cons. unfold weight. rewrite Eb. destruct (local r); cbn [rx_priority set_lanes]; [|lia].
      unfold work. rewrite sum_list_with_app. cbn. lia.
  - destruct (notify true n f) as [n' out] eqn:En. eexists _, _, _. split; [done|]. split_and!; [|done|].
    + eapply sorted_entry; try done; intros g.
      * unfold pending_priority. rewrite Hu, Hq. cbn.
        destruct (decide (g = f)) as [->|]; simplify_map_eq; done.
      * unfold pending_regular. cbn. destruct (decide (g = f)) as [->|]; simplify_map_eq; done.
    + rewrite Hl, work_cons. unfold weight. rewrite Eb. cbn [rx_priority set_lanes set_forks]. lia.
  - destruct (notify true n f) as [n' out] eqn:En. eexists _, _, _. split; [done|]. split_and!; [|done|].
    + eapply sorted_entry; try done; intros g.
      * unfold pending_priority. rewrite Hu, Hq. cbn.
        destruct (decide (g = f)) as [->|]; simplify_map_eq.
        -- rewrite bool_decide_eq_true_2 by done. by rewrite <- app_assoc.
        -- by rewrite bool_decide_eq_false_2.
      * unfold pending_regular. cbn. destruct (decide (g = f)) as [->|]; simplify_map_eq; done.
    + rewrite Hl, work_cons. unfold weight. rewrite Eb. cbn [rx_priority set_lanes set_forks]. lia.
Qed.

Lemma sort_regular_sorted st n q l : rx_regular st = q :: l →
  ∃ st' n' out, sort_regular (set_lanes st (rx_priority st) l) n q = Ret (st', n', out) ∧
    sorted st st' n n' out ∧ rx_priority st' = rx_priority st ∧ rx_regular st' = l.
Proof.
  intros Hl. unfold sort_regular. cbn [set_lanes bound_subnets fork_entries rx_priority rx_regular].
  rewrite message_to_dest, bind_Ret. set (f := dest (bound_subnets st) (q_to q)).
  assert (Hu : ∀ g, waiting st g (rx_regular st) = (if bool_decide (f = g) then [q] else []) ++ waiting st g l).
  { intros g. by rewrite Hl, waiting_cons. }
  destruct (fork_entries st !! f) as [e|] eqn:Ee.
  - destruct (notify true n f) as [n' out] eqn:En. eexists _, _, _. split; [done|]. split_and!; try done.
    eapply sorted_entry; try done; intros g.
    + unfold pending_priority. cbn. destruct (decide (g = f)) as [->|]; simplify_map_eq; done.
    + unfold pending_regular. rewrite Hu. cbn. destruct (decide (g = f)) as [->|]; simplify_map_eq.
      * rewrite bool_decide_eq_true_2 by done. by rewrite <- app_assoc.
      * by rewrite bool_decide_eq_false_2.
  - eexists _, _, _. split; [done|]. split_and!; try done.
    destruct (sorted_refl st n) as [? ? ? ? ? ? ? ?]. split; try done. intros g. unfold pending_regular. rewrite Hu.
    cbn. case_bool_decide as Hg; [|done]. subst g. by rewrite Ee.
Qed.

Lemma priority_loop_sorted local k st n :
  ∃ st' n' out, priority_loop local k st n = Ret (st', n', out) ∧ sorted st st' n n' out ∧
    rx_regular st' = rx_regular st ∧ ((work (rx_priority st) ≤ k)%nat → rx_priority st' = []).
Proof.
  revert st n. induction k as [|k IH]; intros st n; cbn [priority_loop].
  - eexists _, _, _. split_and!; [done|apply sorted_refl|done|].
    destruct (rx_priority st) as [|q l]; [done|]. rewrite work_cons. unfold weight.
    destruct (body _) as [[]|]; lia.
  - destruct (rx_priority st) as [|q l] eqn:El.
    { eexists _, _, _. split_and!; [done|apply sorted_refl|done|done]. }
    destruct (sort_priority_sorted local st n q l El) as (st1 & n1 & out1 & -> & H1 & Hr1 & Hw). rewrite bind_Ret.
    destruct (IH st1 n1) as (st2 & n2 & out2 & -> & H2 & Hr2 & He). rewrite bind_Ret.
    eexists _, _, _. split_and!; [done|by eapply sorted_trans|congruence|].
    rewrite El in Hw. intros Hk. apply He. lia.
Qed.

Lemma regular_loop_sorted k st n :
  ∃ st' n' out, regular_loop k st n = Ret (st', n', out) ∧ sorted st st' n n' out ∧
    rx_priority st' = rx_priority st ∧ ((length (rx_regular st) ≤ k)%nat → rx_regular st' = []).
Proof.
  revert st n. induction k as [|k IH]; intros st n; cbn [regular_loop].
  - eexists _, _, _. split_and!; [done|apply sorted_refl|done|].
    destruct (rx_regular st) as [|q l]; [done|]. cbn. lia.
  - destruct (rx_regular st) as [|q l] eqn:El.
    { eexists _, _, _. split_and!; [done|apply sorted_refl|done|done]. }
    destruct (sort_regular_sorted st n q l El) as (st1 & n1 & out1 & -> & H1 & Hp1 & Hr1). rewrite bind_Ret.
    destruct (IH st1 n1) as (st2 & n2 & out2 & -> & H2 & Hp2 & He). rewrite bind_Ret.
    eexists _, _, _. split_and!; [done|by eapply sorted_trans|congruence|].
    intros Hk. apply He. rewrite Hr1. cbn in Hk. lia.
Qed.

(** A pass over both lanes, whatever they yield. *)
Lemma process_inlets_sorted local p st :
  ∃ st' n out r, process_inlets local p st = Ret (st', out, r) ∧ sorted st st' ∅ n out ∧
    (r = Ok tt ↔ priority_closed p = false ∧ regular_closed p = false) ∧
    (r = Ok tt → (work (rx_priority st) ≤ n_priority p)%nat → (length (rx_regular st) ≤ n_regular p)%nat →
       rx_priority st' = [] ∧ rx_regular st' = []).
Proof.
  unfold process_inlets.
  destruct (priority_loop_sorted local (n_priority p) st ∅) as (st1 & n1 & out1 & -> & H1 & Hr1 & He1).
  rewrite bind_Ret. destruct (priority_closed p) eqn:Ep.
  { eexists _, _, _, _. split_and!; [done|done|naive_solver|done]. }
  destruct (regular_loop_sorted (n_regular p) st1 n1) as (st2 & n2 & out2 & -> & H2 & Hp2 & He2).
  rewrite bind_Ret. eexists _, n2, _, _. split_and!; [done|by eapply sorted_trans| |].
  - destruct (regular_closed p); naive_solver.
  - intros _ Hk1 Hk2. rewrite Hp2, He1 by done. split; [done|]. apply He2. by rewrite Hr1.
Qed.

(** sorting the incoming messages loses, duplicates and reorders nothing: for
    every fork, what it has yet to receive on each lane is the same sequence
    before and after, whichever fork does the sorting, however many messages
    the lanes yield and even if they turn out to be closed; and every fork whose
    entry changed is notified, exactly once. *)
Theorem inlets_conserve local p st st' out r :
  process_inlets local p st = Ret (st', out, r) →
  (∀ f, pending_priority st' f = pending_priority st f ∧ pending_regular st' f = pending_regular st f) ∧
  NoDup (notifications out) ∧
  (∀ f, f ∉ notifications out → fork_entries st' !! f = fork_entries st !! f).
Proof.
  intros E. destruct (process_inlets_sorted local p st) as (st1 & n & o & r1 & E1 & Hs & _).
  rewrite E in E1. injection E1 as <- <- <-. destruct Hs as [_ _ _ H1 H2 H3 H4 [H5 _]].
  split_and!; [by intros f; split|done|]. intros f Hf. apply H3. rewrite H4. set_solver.
Qed.

(** Taking a message out of a fork's inbox while the lanes are empty. *)
Lemma pending_take st f e e' : fork_entries st !! f = Some e → rx_priority st = [] → rx_regular st = [] →
  let st' := set_forks st (<[f := e']> (fork_entries st)) in
  pending_priority st' f = inbox_priority e' ∧ pending_regular st' f = inbox_regular e' ∧
  ∀ g, g ≠ f → pending_priority st' g = pending_priority st g ∧ pending_regular st' g = pending_regular st g.
Proof.
  intros He Hp Hr st'. unfold pending_priority, pending_regular, st'. cbn. rewrite Hp, Hr. simplify_map_eq. cbn.
  rewrite !app_nil_r. split_and!; try done. intros g Hg. simplify_map_eq. done.
Qed.

Lemma pending_inbox st f e : fork_entries st !! f = Some e → rx_priority st = [] → rx_regular st = [] →
  pending_priority st f = inbox_priority e ∧ pending_regular st f = inbox_regular e.
Proof.
  intros He Hp Hr. unfold pending_priority, pending_regular. rewrite He, Hp, Hr. cbn. by rewrite !app_nil_r.
Qed.

(** a fork receives its messages in order, the urgent ones first: a turn of
    [recv] that sees the lanes to their ends returns the first priority message
    pending for the fork, or, if there is none, the first ordinary one, and waits
    only if nothing is pending; what remains pending for it is the rest, and for
    the other forks nothing changes. *)
Theorem recv_order local p fork st :
  is_Some (fork_entries st !! fork) → priority_closed p = false → regular_closed p = false →
  (work (rx_priority st) ≤ n_priority p)%nat → (length (rx_regular st) ≤ n_regular p)%nat →
  ∃ st' out r, recv_pass local p fork st = Ret (st', out, Ok r) ∧
    match pending_priority st fork, pending_regular st fork with
    | q :: l, l' => r = Some (q_message q) ∧ pending_priority st' fork = l ∧ pending_regular st' fork = l'
    | [], q :: l => r = Some (q_message q) ∧ pending_priority st' fork = [] ∧ pending_regular st' fork = l
    | [], [] => r = None ∧ pending_priority st' fork = [] ∧ pending_regular st' fork = []
    end ∧
    ∀ f, f ≠ fork → pending_priority st' f = pending_priority st f ∧ pending_regular st' f = pending_regular st f.
Proof.
  intros Hf Hc1 Hc2 Hn1 Hn2.
  destruct (process_inlets_sorted local p st) as (st1 & n & out & r1 & E & Hs & Hr & He).
  destruct Hr as [_ Hr]. specialize (Hr (conj Hc1 Hc2)). subst r1. destruct (He eq_refl Hn1 Hn2) as [Hp1 Hr1].
  destruct Hs as [_ _ H3 H4 H5 _ _ _]. apply H3 in Hf as [e Ef].
  unfold recv_pass. rewrite E, bind_Ret, Ef. cbn [expect]. rewrite bind_Ret.
  rewrite <- H4, <- H5. destruct (pending_inbox st1 fork e Ef Hp1 Hr1) as [-> ->].
  setoid_rewrite <- H4. setoid_rewrite <- H5.
  destruct (inbox_priority e) as [|q l] eqn:E1; [destruct (inbox_regular e) as [|q l] eqn:E2|].
  - eexists _, _, _. split; [done|]. destruct (pending_inbox st1 fork e Ef Hp1 Hr1) as [-> ->]. by rewrite E1, E2.
  - eexists _, _, _. split; [done|].
    by destruct (pending_take st1 fork e (mkFork [] l (last_ping_received e)) Ef Hp1 Hr1) as (-> & -> & ?).
  - eexists _, _, _. split; [done|].
    by destruct (pending_take st1 fork e (mkFork l (inbox_regular e) (last_ping_received e)) Ef Hp1 Hr1) as (-> & -> & ?).
Qed.

(** ** Forwarding *)
Section Forwarding.
Context {TI : Type → Type} `{TreeIndex TI}.

(** [e'] is what arrives in some mailbox when [e] is forwarded. *)
Inductive hop : Envelope → Envelope → Prop :=
| hop_forward (rt rt' : RtApi (TI := TI)) to e e' node mb mb' :
    do_forward rt to e = Ret (rt', Ok tt) →
    mailboxes rt !! node = Some mb → mailboxes rt' !! node = Some mb' →
    regular mb' = regular mb ++ [(to, e')] ∨ prioritized mb' = prioritized mb ++ [(to, e')] →
    hop e e'.

Lemma app_self_inv {A} (l : list A) x : l = l ++ [x] → False.
Proof. intros E%(f_equal length). rewrite length_app in E. cbn in E. lia. Qed.

Lemma send_to_arrives (rt rt' : RtApi (TI := TI)) to p e e' node mb mb' :
  send_to rt to p e = Ret (rt', Ok tt) → mailboxes rt !! node = Some mb → mailboxes rt' !! node = Some mb' →
  regular mb' = regular mb ++ [(to, e')] ∨ prioritized mb' = prioritized mb ++ [(to, e')] → e' = e.
Proof.
  intros (found & _ & E)%bind_Ret_inv Hm Hm' Ha. destruct found as [node0|]; [|done].
  destruct (mailboxes rt !! node0) as [mb0|] eqn:E0; [|done].
  destruct (node_send mb0 to p e) as [mb1 sent] eqn:Es. injection E as <- Hs. cbn in Hm'.
  destruct (decide (node = node0)) as [->|Hne]; simplify_map_eq; [|by destruct Ha as [?%app_self_inv|?%app_self_inv]].
  unfold node_send in Es. destruct p, (receiver_alive mb0); try destruct (permits mb0); simplify_eq; cbn in Ha;
    destruct Ha as [Ha|Ha]; try (by apply app_self_inv in Ha); apply app_inj_tail in Ha as [_ ?]; congruence.
Qed.

Lemma hop_ttl e e' : hop e e' → ttl e ≠ 0 ∧ ttl e' = ttl e - 1 ∧ body e' = body e.
Proof.
  destruct 1 as [rt rt' to e e' node mb mb' E Hm Hm' Ha]. unfold do_forward, spend_ttl in E.
  destruct (Z.eqb_spec (ttl e) 0) as [|Hne]; [done|]. by rewrite (send_to_arrives _ _ _ _ _ _ _ _ _ E Hm Hm' Ha).
Qed.

(** C38: no message is forwarded for ever: each hop takes one off its time to live
    and keeps its contents, so that a message sent with [ttl] is forwarded at most
    [ttl] times, and once nothing is left every forward is refused, with nothing
    delivered. *)
Theorem forwarding_bounded n e e' : 0 ≤ ttl e → nsteps hop n e e' →
  Z.of_nat n ≤ ttl e ∧ ttl e' = ttl e - Z.of_nat n ∧ body e' = body e ∧
  (Z.of_nat n = ttl e → ∀ (rt : RtApi (TI := TI)) to, do_forward rt to e' = Ret (rt, Err TtlExhausted)).
Proof.
  intros Ht Hn. assert (Hs : Z.of_nat n ≤ ttl e ∧ ttl e' = ttl e - Z.of_nat n ∧ body e' = body e).
  { revert e Ht Hn. induction n as [|n IH]; intros e Ht Hn; inversion Hn as [|? ? e1 ? Hh Hrest]; subst.
    { split_and!; [done|lia|done]. }
    apply hop_ttl in Hh as (Hne & Ht1 & Hb). destruct (IH e1) as (H1 & H2 & H3); [lia|done|].
    split_and!; [lia|lia|congruence]. }
  destruct Hs as (H1 & H2 & H3). split_and!; try done. intros Hend rt to.
  unfold do_forward, spend_ttl. by rewrite (proj2 (Z.eqb_eq _ _) (ltac:(lia) : ttl e' = 0)).
Qed.

End Forwarding.

(** ** Forks have addresses of their own *)

(** Every fork holds a lease of its address. *)
Definition forks_leased (st : SubnetContext) (leases : list Lease) : Prop :=
  ∀ f, is_Some (fork_entries st !! f) → ∃ l, l ∈ leases ∧ address (net_address l) = f.

(** forking succeeds as long as some address of the actor's subnet is not leased,
    and the new fork gets an address that no living fork has: the check that the
    address is new never fails, because it was leased from the actor's pool and
    every living fork holds its lease. Otherwise forking reports a shortage and
    changes no fork. *)
Theorem fork_fresh net st leases :
  net_ok net → pool_reachable net (mkPool (subnet_pool st) leases) → forks_leased st leases →
  ∃ st' r, fork_ st = Ret (st', r) ∧
    match r with
    | Ok l => fork_entries st !! address (net_address l) = None ∧
        fork_entries st' = <[address (net_address l) := fork_default]> (fork_entries st) ∧
        pool_reachable net (mkPool (subnet_pool st') (l :: leases)) ∧ forks_leased st' (l :: leases)
    | Err e => e = ResourceConstraint ∧ fork_entries st' = fork_entries st ∧
        ∀ x, u64_ok x → in_pool net x → leased leases x
    end.
Proof.
  intros Hn Hr Hf. pose proof (reachable_inv _ _ Hn Hr) as Hinv.
  assert (Hm : 0 ≤ M_64 ≤ 64) by (unfold M_64; lia).
  destruct (lease_spec net (subnet_pool st) leases M_64 Hinv Hm) as (pool & r & El & Hspec).
  unfold fork_. rewrite El, bind_Ret. destruct Hr as (s0 & Hs0 & Hr). destruct r as [l|[]].
  - destruct Hspec as [Hinv' Hmask]. destruct (inv_disjoint _ _ Hinv') as [Hd _]. cbn in Hd.
    pose proof (inv_ok _ _ Hinv') as [[_ [[Ha _] _]] Hok]%Forall_cons.
    assert (Hnone : fork_entries st !! address (net_address l) = None).
    { apply eq_None_not_Some. intros (l' & Hl' & Heq)%Hf.
      apply (Hd (address (net_address l))).
      - unfold covers, net_contains. rewrite Hmask. unfold M_64. cbn. lia.
      - exists l'. split; [done|]. unfold covers, net_contains. rewrite Heq.
        rewrite Forall_forall in Hok. destruct (Hok l' Hl') as [_ [[_ Hm'] _]].
        pose proof (pow2_pos (64 - mask (net_address l'))). lia. }
    rewrite bool_decide_eq_true_2 by done. cbn [assert_]. rewrite bind_Ret. eexists _, _. split; [done|].
    split_and!; [done|done| |].
    + exists s0. split; [done|]. eapply rtc_r; [done|]. by eapply step_lease.
    + intros f. cbn. rewrite lookup_insert_is_Some'. intros [<-|(l' & Hl' & Hla)%Hf].
      * exists l. split; [by left|done].
      * exists l'. split; [by right|done].
  - destruct Hspec as [_ Hno]. eexists _, _. split; [done|]. split_and!; [done|done|]. intros x Hx Hp.
    destruct (decide (Exists (λ l, address (net_address l) ≤ x < address (net_address l) + 2 ^ (64 - mask (net_address l))) leases))
      as [He|He].
    + apply Exists_exists in He as (l & Hl & Hc). by exists l.
    + exfalso. apply (Hno x).
      * split_and!; [done|unfold M_64; lia|unfold M_64; lia|]. unfold M_64. cbn. by exists x; lia.
      * intros y Hy. assert (y = x) as -> by (unfold in_block, M_64 in Hy; cbn in Hy; lia).
        split; [done|]. intros (l & Hl & Hc). apply He, Exists_exists. eauto.
Qed.

(** ** Bound subnets *)
Section Bound.
Context {TI : Type → Type} `{TreeIndex TI} {N : Type}.

Lemma canonical_range net r : net_canonical net → range_from_net net = Ret r →
  range_ok r ∧ net_from_range r = Ret net.
Proof.
  intros Hc. rewrite range_from_net_canonical by done. intros [= <-]. destruct Hc as [[Ha Hm] Hd].
  pose proof (pow2_pos (64 - mask net)). split; [unfold range_ok; cbn; lia|].
  rewrite net_from_range_block by (done || lia). destruct net as [a m]. cbn. do 2 f_equal. lia.
Qed.

Lemma range_cmp_refl r : range_ok r → range_cmp r r = Eq.
Proof. intros Hr. apply range_cmp_eq_overlap; [done|done|]. exists (lo r). unfold range_contains, range_ok in *. lia. Qed.

(** In a table of disjoint ranges, the entry equal to a stored range is that of
    the range. *)
Lemma disjoint_equal {V} (l : list (AddressRange * V)) r v e :
  Forall (λ e, range_ok e.1) l → ranges_disjoint l → (r, v) ∈ l → e ∈ l → range_cmp r e.1 = Eq → e = (r, v).
Proof.
  intros Hok Hd Hr He Heq. pose proof Hok as Hok'. rewrite Forall_forall in Hok'.
  apply range_cmp_eq_overlap in Heq as (x & H1 & H2); [|by apply (Hok' (r, v))|by apply Hok'].
  by eapply (disjoint_unique l e (r, v) x).
Qed.

Lemma disjoint_rest {V} (l l' : list (AddressRange * V)) r v :
  Forall (λ e, range_ok e.1) l → ranges_disjoint l → l ≡ₚ (r, v) :: l' →
  Forall (λ e, range_ok e.1) l' ∧ ranges_disjoint l' ∧ ∀ e, e ∈ l' ↔ e ∈ l ∧ e.1 ≠ r.
Proof.
  intros Hok Hd Hp. rewrite Hp in Hok, Hd. apply Forall_cons in Hok as [Hr Hok]. destruct Hd as [Hd1 Hd2].
  split_and!; try done. intros e. rewrite Hp, elem_of_cons. cbn in Hr. split.
  - intros He. split; [by right|]. intros <-. rewrite Forall_forall in Hd1. by apply (Hd1 e He), range_cmp_refl.
  - intros [[->|He] Hne]; [done|done].
Qed.

(** The subnets bound by the forks: canonical, disjoint and registered. *)
Definition bound_ok (networks : TI N) (bound : list (AddressRange * Address)) : Prop :=
  reg_inv networks ∧ ranges_disjoint bound ∧
  ∀ e, e ∈ bound → (∃ n, (e.1, n) ∈ ti_entries networks) ∧ ∃ net, net_canonical net ∧ range_from_net net = Ret e.1.

Lemma bound_ranges_ok networks bound : bound_ok networks bound → Forall (λ e, range_ok e.1) bound.
Proof.
  intros (_ & _ & Hb). apply Forall_forall. intros e (_ & net & Hc & Hr)%Hb. by eapply canonical_range.
Qed.

(** Unregistering a stored canonical range removes it and nothing else. *)
Lemma unregister_exact (networks : TI N) net r n : reg_inv networks → range_from_net net = Ret r → (r, n) ∈ ti_entries networks →
  ∃ networks', unregister networks net = Ret (networks', true) ∧ ti_entries networks ≡ₚ (r, n) :: ti_entries networks'.
Proof.
  intros [Hok Hd] Hr Hin. unfold unregister. rewrite Hr, bind_Ret.
  assert (Hrr : range_cmp r r = Eq).
  { rewrite Forall_forall in Hok. apply range_cmp_refl, (Hok (r, n) Hin). }
  destruct (ti_peek networks r) as [e|] eqn:Ep.
  2: { apply ti_peek_none in Ep. rewrite Forall_forall in Ep. by destruct (Ep _ Hin). }
  apply ti_peek_some in Ep as [He Heq]. assert (e = (r, n)) as -> by (by eapply disjoint_equal).
  rewrite (proj2 (range_eqb_true r r) Hrr). cbn [negb].
  destruct (ti_remove networks r) as [t|] eqn:Er.
  - apply ti_remove_some in Er as (e & Heq' & Hp). eexists. split; [done|].
    assert (e = (r, n)) as <- by (eapply disjoint_equal; try done; rewrite Hp; by left). done.
  - apply ti_remove_none in Er. rewrite Forall_forall in Er. by destruct (Er _ Hin).
Qed.

Lemma unbind_one (networks : TI N) bound r f : bound_ok networks bound → (r, f) ∈ bound →
  ∃ networks' bound' net, list_remove bound r = Some bound' ∧ net_from_range r = Ret net ∧
    unregister networks net = Ret (networks', true) ∧ bound_ok networks' bound' ∧
    (∀ e, e ∈ bound' ↔ e ∈ bound ∧ e.1 ≠ r) ∧ (∀ e, e ∈ ti_entries networks' ↔ e ∈ ti_entries networks ∧ e.1 ≠ r).
Proof.
  intros Hb Hin. pose proof (bound_ranges_ok _ _ Hb) as Hok. pose proof Hb as (Hreg & Hd & Hall).
  destruct (Hall _ Hin) as ([n Hn] & net & Hc & Hr). cbn in Hn, Hr.
  destruct (canonical_range _ _ Hc Hr) as [Hro Hnet].
  destruct (unregister_exact networks net r n Hreg Hr Hn) as (networks' & Hu & Hp).
  destruct (list_remove bound r) as [bound'|] eqn:El.
  2: { apply list_remove_none in El. rewrite Forall_forall in El. by destruct (El _ Hin (range_cmp_refl r Hro)). }
  apply list_remove_some in El as Hl. destruct Hl as (e & Heq & Hpb).
  assert (e = (r, f)) as -> by (eapply disjoint_equal; try done; rewrite Hpb; by left).
  destruct (disjoint_rest _ _ _ _ Hok Hd Hpb) as (_ & Hd' & Hb').
  destruct Hreg as [Hreg1 Hreg2]. destruct (disjoint_rest _ _ _ _ Hreg1 Hreg2 Hp) as (Hreg1' & Hreg2' & Hn').
  exists networks', bound', net. split_and!; try done.
  split; [by split|]. split; [done|]. intros e [He Hne]%Hb'. destruct (Hall e He) as [[n' Hn''] ?]. split; [|done]. exists n'. by apply Hn'.
Qed.

Lemma unbind_all_spec (networks : TI N) bound rs : bound_ok networks bound → NoDup rs → (∀ r, r ∈ rs → r ∈ bound.*1) →
  ∃ networks' bound', unbind_all networks bound rs = Ret (networks', bound') ∧ bound_ok networks' bound' ∧
    (∀ e, e ∈ bound' ↔ e ∈ bound ∧ e.1 ∉ rs) ∧
    (∀ e, e ∈ ti_entries networks' ↔ e ∈ ti_entries networks ∧ e.1 ∉ rs).
Proof.
  revert networks bound. induction rs as [|r rs IH]; intros networks bound Hb Hnd Hrs; cbn [unbind_all].
  - eexists _, _. split_and!; try done; intros e; rewrite elem_of_nil; naive_solver.
  - apply NoDup_cons in Hnd as [Hr Hnd]. destruct (proj1 (list_elem_of_fmap _ _ _) (Hrs r (list_elem_of_here _ _))) as ([r' f] & -> & Hin).
    cbn in *. destruct (unbind_one networks bound r' f Hb Hin) as (n1 & b1 & net & -> & -> & Hu & Hb1 & He1 & Hn1).
    cbn [default from_option id]. rewrite bind_Ret, Hu, bind_Ret.
    destruct (IH n1 b1 Hb1 Hnd) as (n2 & b2 & -> & Hb2 & He2 & Hn2).
    { intros r Hr'. destruct (proj1 (list_elem_of_fmap _ _ _) (Hrs r (list_elem_of_further _ _ _ Hr'))) as (e & -> & He).
      apply list_elem_of_fmap. exists e. split; [done|]. apply He1. split; [done|]. by intros <-. }
    eexists _, _. split_and!; try done; intros e; rewrite ?He2, ?Hn2, ?He1, ?Hn1, not_elem_of_cons; tauto.
Qed.

Lemma disjoint_NoDup {V} (l : list (AddressRange * V)) :
  Forall (λ e, range_ok e.1) l → ranges_disjoint l → NoDup l.*1.
Proof.
  induction l as [|e l IH]; intros Hok Hd; [constructor|]. apply Forall_cons in Hok as [He Hok].
  destruct Hd as [Hd1 Hd2]. cbn. apply NoDup_cons. split; [|by apply IH].
  intros (e' & Heq & He')%list_elem_of_fmap. rewrite Forall_forall in Hd1. apply (Hd1 e' He').
  rewrite <- Heq. by apply range_cmp_refl.
Qed.

Lemma bound_by_elem f bound r : r ∈ bound_by f bound ↔ (r, f) ∈ bound.
Proof.
  unfold bound_by. rewrite list_elem_of_fmap. setoid_rewrite list_elem_of_filter. split.
  - intros ([r' f'] & -> & Hf & Hin). cbn in Hf. by subst.
  - intros Hin. by exists (r, f).
Qed.

(** what a fork binds is undone when it ends: binding a subnet succeeds exactly
    if it overlaps no registered range, and then it is routed to the actor and
    recorded for the fork; when a fork ends, while others live, exactly the
    subnets it had bound leave the registry and the record, those of the other
    forks and of other actors stay, and its address is handed back. *)
Theorem bindings_follow_forks (networks : TI N) st fork :
  bound_ok networks (bound_subnets st) →
  (∀ net range node, net_canonical net → range_from_net net = Ret range →
     ∃ networks' st' r, bind networks st fork net (Some node) = Ret (networks', st', r) ∧
       bound_ok networks' (bound_subnets st') ∧
       (r = Ok tt ↔ ∀ e, e ∈ ti_entries networks → range_cmp range e.1 ≠ Eq) ∧
       (r = Ok tt → (range, node) ∈ ti_entries networks' ∧ bound_subnets st' = (range, fork) :: bound_subnets st)) ∧
  (∀ subnet l, (2 ≤ size (fork_entries st))%nat →
     ∃ networks' st', context_drop networks st fork subnet (Some l) true = Ret (networks', st', ForkDoneSent l) ∧
       bound_ok networks' (bound_subnets st') ∧
       (∀ e, e ∈ bound_subnets st' ↔ e ∈ bound_subnets st ∧ e.2 ≠ fork) ∧
       (∀ e, e ∈ ti_entries networks' ↔ e ∈ ti_entries networks ∧ (e.1, fork) ∉ bound_subnets st) ∧
       fork_entries st' = delete fork (fork_entries st)).
Proof.
  intros Hb. pose proof Hb as (Hreg & Hd & Hall). pose proof (bound_ranges_ok _ _ Hb) as Hok. split.
  - intros net range node Hc Hr. unfold bind. rewrite Hr, bind_Ret.
    destruct (list_peek (bound_subnets st) range) as [e|] eqn:Ep.
    { apply list_peek_some in Ep as [He Heq]. eexists _, _, _. split_and!; [done|done| |done].
      split; [done|]. intros Hno. destruct (Hall e He) as [[n Hn] _]. by destruct (Hno _ Hn). }
    destruct (register networks net node) as [[t r]|] eqn:Er.
    2: { unfold register in Er. by rewrite Hr in Er. }
    pose proof (register_inv _ _ _ _ _ Hreg Er) as Hreg'. rewrite bind_Ret.
    unfold register in Er. rewrite Hr, bind_Ret in Er.
    destruct (ti_insert networks range node) as [t'|] eqn:Ei; injection Er as <- <-.
    + apply ti_insert_some in Ei as [Hf Hp]. eexists _, _, _. split; [done|]. split_and!; cbn.
      * split; [done|]. split; [split; [by apply list_peek_none|done]|].
        intros e [->|He]%elem_of_cons; [by split; eauto; exists node; rewrite Hp; left|].
        destruct (Hall e He) as [[n Hn] ?]. split; [|done]. exists n. rewrite Hp. by right.
      * split; [|done]. intros _. by apply Forall_forall.
      * intros _. split; [|done]. rewrite Hp. by left.
    + apply ti_insert_none in Ei as (e & He & Heq). eexists _, _, _. split; [done|]. split_and!; [done| |done].
      split; [done|]. intros Hno. by destruct (Hno e He).
  - intros subnet l Hsize. unfold context_drop.
    destruct (unbind_all_spec networks (bound_subnets st) (bound_by fork (bound_subnets st)) Hb)
      as (n1 & b1 & -> & Hb1 & He1 & Hn1).
    { unfold bound_by. eapply sublist_NoDup; [apply (disjoint_NoDup (bound_subnets st)); done|]. apply fmap_sublist, sublist_filter. }
    { intros r Hr%bound_by_elem. apply list_elem_of_fmap. by exists (r, fork). }
    rewrite bind_Ret. cbn [return_lease]. rewrite bind_Ret. unfold unregister_last.
    assert (Hs : (size (delete fork (fork_entries st)) =? 0)%nat = false).
    { apply Nat.eqb_neq. rewrite map_size_delete. destruct (fork_entries st !! fork); cbn; lia. }
    rewrite Hs, bind_Ret. eexists _, _. split; [done|]. split_and!; try done.
    + intros e. cbn. rewrite He1, bound_by_elem. split; intros [He Hne]; (split; [done|]).
      * intros <-. by destruct e.
      * intros Hin. destruct e as [r f]. cbn in *. apply Hne.
        by assert ((r, f) = (r, fork)) as [= ->] by (eapply disjoint_equal; try done; apply range_cmp_refl;
          rewrite Forall_forall in Hok; apply (Hok _ Hin)).
    + intros e. by rewrite Hn1, bound_by_elem.
Qed.

End Bound.

End Context.

(** ** Runs *)
#[local] Existing Instance list_tree_index.

Definition user (to m : Z) : Queued (M := Z) := mkQueued to (envelope_new to false (User m)).

(** Two forks, 5 and 6; fork 6 has bound the addresses 100 to 103. *)
Definition two_forks : SubnetContext (M := Z) :=
  mkSubnet (mkShared Trie.empty Trie.empty)
    [mkQueued 5 (envelope_new 5 true (Ping (Some 6) 77)); user 101 1]
    [user 5 2; user 6 3; user 5 4]
    {[5 := fork_default; 6 := fork_default]} [(mkRange 100 103, 6)].

Definition whole_pass : Pass := mkPass 9 9 false false.
Definition own (a : Address) : bool := bool_decide (a = 5 ∨ a = 6 ∨ 100 ≤ a ≤ 103).

Lemma inlets_conserve_witness : ∃ st' out, process_inlets own whole_pass two_forks = Ret (st', out, Ok tt) ∧
  pending_priority st' 6 = [user 101 1] ∧ pending_regular st' 5 = [user 5 2; user 5 4] ∧ NoDup (notifications out).
Proof.
  assert (∃ st' out, process_inlets own whole_pass two_forks = Ret (st', out, Ok tt)) as (st' & out & E).
  { vm_compute. eexists _, _. reflexivity. }
  exists st', out. destruct (inlets_conserve own whole_pass two_forks st' out (Ok tt) E) as (Hp & Hn & _).
  split; [exact E|]. split; [exact (proj1 (Hp 6))|]. split; [exact (proj2 (Hp 5))|exact Hn].
Defined.

(** Fork 6 gets the message to the bound address before its own ordinary one. *)
Lemma recv_order_witness : ∃ st' out, recv_pass own whole_pass 6 two_forks =
    Ret (st', out, Ok (Some (envelope_new 101 false (User 1)))) ∧ pending_regular st' 6 = [user 6 3].
Proof.
  destruct (recv_order own whole_pass 6 two_forks) as (st' & out & r & E & Hm & _);
    [vm_compute; eauto|reflexivity|reflexivity|cbn; lia|cbn; lia|].
  destruct Hm as (Hr & _ & Hp). exists st', out. split; [rewrite E, Hr; reflexivity|exact Hp].
Defined.

Definition rt1 : RtApi (M := Z) (TI := ListIndex) := mkRt one_net {[1 := node_new 4]}.

Lemma forwarding_bounded_witness : ∃ e', nsteps (hop (TI := ListIndex)) 1 (mkEnvelope 7 1 false (User 9)) e' ∧
  ttl e' = 0 ∧ do_forward rt1 0xFF00000000000005 e' = Ret (rt1, Err TtlExhausted).
Proof.
  exists (mkEnvelope 7 0 false (User 9)).
  assert (Hh : nsteps (hop (TI := ListIndex)) 1 (mkEnvelope 7 1 false (User 9)) (mkEnvelope 7 0 false (User 9))).
  { apply nsteps_once.
    apply (hop_forward rt1 (mkRt one_net {[1 := (node_send (node_new 4) 0xFF00000000000005 false (mkEnvelope 7 0 false (User 9))).1]})
      0xFF00000000000005 _ _ 1 (node_new 4) (node_send (node_new 4) 0xFF00000000000005 false (mkEnvelope 7 0 false (User 9))).1).
    - vm_compute. reflexivity.
    - reflexivity.
    - reflexivity.
    - left. reflexivity. }
  destruct (forwarding_bounded 1 (mkEnvelope 7 1 false (User 9)) (mkEnvelope 7 0 false (User 9))) as (_ & Ht & _ & Hend);
    [cbn; lia|exact Hh|].
  split; [exact Hh|]. split; [exact Ht|]. exact (Hend eq_refl rt1 0xFF00000000000005).
Defined.


(** The fork at address 0 holds the one lease that was given out. *)
Definition forked : SubnetContext (M := Z) := mkSubnet (free leased_state) [] [] {[0 := fork_default]} [].

Lemma fork_fresh_witness : ∃ st' l, fork_ forked = Ret (st', Ok l) ∧
  fork_entries forked !! address (net_address l) = None ∧ forks_leased st' (l :: live leased_state).
Proof.
  destruct (fork_fresh test_net forked (live leased_state)) as (st' & r & E & H).
  - exact test_net_ok.
  - exact leased_reachable.
  - intros f Hf. destruct (decide (f = 0)) as [->|Hne].
    + exists (mkLease (mkNet 0 64) Linked). split; [vm_compute; left|reflexivity].
    + cbn in Hf. rewrite lookup_singleton_ne in Hf by congruence. destruct Hf as [? Hf]. discriminate Hf.
  - assert (Hok : ∃ s l, fork_ forked = Ret (s, Ok l)) by (vm_compute; eexists _, _; reflexivity).
    destruct Hok as (s & l & E'). rewrite E' in E. injection E as <- <-. exists s, l.
    split; [exact E'|]. split; [exact (proj1 H)|exact (proj2 (proj2 (proj2 H)))].
Defined.

(** Fork 5 binds <:100>/56 beside the registered <ff00:>/8. *)
Lemma bindings_follow_forks_witness : ∃ networks' st',
  bind one_net (set_bound two_forks []) 5 (mkNet 0x100 56) (Some 2) = Ret (networks', st', Ok tt) ∧
  bound_ok networks' (bound_subnets st').
Proof.
  assert (Hb : bound_ok one_net []).
  { split; [exact (reg_reachable_inv _ one_net_reachable)|]. split; [exact I|]. intros e He. inversion He. }
  assert (Hc : net_canonical (mkNet 0x100 56)).
  { split; [split; cbn; unfold u64_ok; lia|]. exists 1. reflexivity. }
  destruct (proj1 (bindings_follow_forks one_net (set_bound two_forks []) 5 Hb) (mkNet 0x100 56) _ 2 Hc eq_refl)
    as (n' & st' & r & E & Hok & Hr & _).
  assert (r = Ok tt) as ->.
  { apply Hr. intros e He. apply list_elem_of_singleton in He as ->. vm_compute. discriminate. }
  exists n', st'. split; [exact E|exact Hok].
Defined.
