(* ===== verification/Wakeup.v ===== *)
(** * Waiting for messages (core/mm1-node/src/runtime/context/impl_context_api.rs, registry.rs)

    The forks of an actor wait on two notifications each: one they share, which a sender gives after it has put a message
    into the mailbox, and one of their own, which the fork that sorts the mailbox gives. This file puts the turns of
    [recv] of [Context] together with these notifications, for any interleaving of senders and forks, and with forks
    whose [recv] is cancelled. A notification ([Notify::notify_one]) wakes the first that waits; if nobody waits one is
    kept for the next; one that was given to a wait that is then dropped is passed on. *)

From S2P Require Import Prelude U64 Address Subnet Trie Pool Registry Context.

Open Scope Z_scope.

Section Wakeup.
Context {M : Type}.
Notation SubnetContext := (SubnetContext (M := M)).
Notation Queued := (Queued (M := M)).

(** What a fork is doing: not in [recv]; at the head of its loop; between the look into the mailbox and the wait; in the
    wait, with what it has been notified of. *)
Inductive Status := Idle | Turn | Checking | Wait (by_subnet by_fork : bool).

Record Forks := mkForks {
  ctx : SubnetContext;
  status : gmap Address Status;
  subnet_permit : bool;
  fork_permits : gset Address;
  waiters : list Address;
  in_flight : nat;
}.

Definition set_ctx (s : Forks) c := mkForks c (status s) (subnet_permit s) (fork_permits s) (waiters s) (in_flight s).
Definition set_status (s : Forks) f x :=
  mkForks (ctx s) (<[f := x]> (status s)) (subnet_permit s) (fork_permits s) (waiters s) (in_flight s).

(** [subnet_notify.notify_one()] *)
Definition notify_subnet (s : Forks) : Forks :=
  match waiters s with
  | [] => mkForks (ctx s) (status s) true (fork_permits s) [] (in_flight s)
  | f :: rest =>
      let by_fork := match status s !! f with Some (Wait _ b) => b | _ => false end in
      mkForks (ctx s) (<[f := Wait true by_fork]> (status s)) (subnet_permit s) (fork_permits s) rest (in_flight s)
  end.

(** [fork_notify.notify_one()] *)
Definition notify_fork (s : Forks) (f : Address) : Forks :=
  match status s !! f with
  | Some (Wait by_subnet _) => set_status s f (Wait by_subnet true)
  | _ => mkForks (ctx s) (status s) (subnet_permit s) ({[f]} ∪ fork_permits s) (waiters s) (in_flight s)
  end.

(** What [process_inlets] does besides sorting: a pong to an address of the same mailbox is a message sent to it. *)
Definition effect (local : Address → bool) (s : Forks) (o : Out (M := M)) : Forks :=
  match o with
  | NotifyFork f => notify_fork s f
  | SendTo to _ _ => if local to then notify_subnet s else s
  end.

(** A turn of [recv]: the locked part, and whether it returns or goes on to wait *)
Definition turn (local : Address → bool) (p : Pass) (f : Address) (s : Forks) : outcome (Forks * option (Envelope (M := M))) :=
  '(c, out, r) ← recv_pass local p f (ctx s);
  let s := foldl (effect local) (set_ctx s c) out in
  Ret match r with
      | Ok (Some e) => (set_status s f Idle, Some e)
      | Ok None => (set_status s f Checking, None)
      | Err _ => (set_status s f Idle, None)
      end.

(** The wait for the two notifications: one that has been kept is taken at once. *)
Definition take_subnet_permit (s : Forks) (f : Address) : Forks :=
  mkForks (ctx s) (<[f := Turn]> (status s)) false (fork_permits s) (waiters s) (in_flight s).
Definition take_fork_permit (s : Forks) (f : Address) : Forks :=
  mkForks (ctx s) (<[f := Turn]> (status s)) (subnet_permit s) (fork_permits s ∖ {[f]}) (waiters s) (in_flight s).
Definition block (s : Forks) (f : Address) : Forks :=
  mkForks (ctx s) (<[f := Wait false false]> (status s)) (subnet_permit s) (fork_permits s) (waiters s ++ [f]) (in_flight s).

(** A wait ends, with [next] after it: what it was given and does not use is passed on. *)
Definition leave (s : Forks) (f : Address) (next : Status) (pass_subnet pass_fork : bool) : Forks :=
  let s := mkForks (ctx s) (<[f := next]> (status s)) (subnet_permit s)
             (if pass_fork then {[f]} ∪ fork_permits s else fork_permits s) (filter (λ g, g ≠ f) (waiters s)) (in_flight s) in
  if pass_subnet then notify_subnet s else s.

Definition set_in_flight (s : Forks) n := mkForks (ctx s) (status s) (subnet_permit s) (fork_permits s) (waiters s) n.

(** The lanes are seen to their ends, unless a sender is at work on one of them. *)
Definition sees_all (p : Pass) (s : Forks) : Prop :=
  in_flight s = O → (work (rx_priority (ctx s)) ≤ n_priority p)%nat ∧ (length (rx_regular (ctx s)) ≤ n_regular p)%nat.

Inductive wstep (local : Address → bool) : Forks → Forks → Prop :=
| WPush s (prio : bool) q : wstep local s (set_in_flight (set_ctx s
    (if prio then set_lanes (ctx s) (rx_priority (ctx s) ++ [q]) (rx_regular (ctx s))
     else set_lanes (ctx s) (rx_priority (ctx s)) (rx_regular (ctx s) ++ [q]))) (S (in_flight s)))
| WNotify s n : in_flight s = S n → wstep local s (notify_subnet (set_in_flight s n))
| WFork s f : status s !! f = None → wstep local s
    (set_status (set_ctx s (set_forks (ctx s) (<[f := fork_default]> (fork_entries (ctx s))))) f Idle)
| WCall s f : status s !! f = Some Idle → wstep local s (set_status s f Turn)
| WTurn s f p s' e : status s !! f = Some Turn → priority_closed p = false → regular_closed p = false → sees_all p s →
    turn local p f s = Ret (s', e) → wstep local s s'
| WTakeSubnet s f : status s !! f = Some Checking → subnet_permit s = true → wstep local s (take_subnet_permit s f)
| WTakeFork s f : status s !! f = Some Checking → f ∈ fork_permits s → wstep local s (take_fork_permit s f)
| WBlock s f : status s !! f = Some Checking → subnet_permit s = false → f ∉ fork_permits s → wstep local s (block s f)
| WWakeSubnet s f by_fork : status s !! f = Some (Wait true by_fork) → wstep local s (leave s f Turn false by_fork)
| WWakeFork s f by_subnet : status s !! f = Some (Wait by_subnet true) → wstep local s (leave s f Turn by_subnet false)
| WCancel s f by_subnet by_fork : status s !! f = Some (Wait by_subnet by_fork) → wstep local s (leave s f Idle by_subnet by_fork).

Definition forks_new (c : SubnetContext) : Forks := mkForks c (const Idle <$> fork_entries c) false ∅ [] 0.

(** ** The invariant *)
Definition about_to_sort (s : Forks) : Prop :=
  ∃ g, status s !! g = Some Turn ∨ ∃ b, status s !! g = Some (Wait true b).
Definition lanes_empty (c : SubnetContext) : Prop := rx_priority c = [] ∧ rx_regular c = [].
Definition inbox_empty (c : SubnetContext) (f : Address) : Prop :=
  ∀ e, fork_entries c !! f = Some e → inbox_priority e = [] ∧ inbox_regular e = [].

Record WInv (s : Forks) : Prop := {
  w_lanes : lanes_empty (ctx s) ∨ in_flight s ≠ O ∨ subnet_permit s = true ∨ about_to_sort s;
  w_waiters f : f ∈ waiters s ↔ ∃ b, status s !! f = Some (Wait false b);
  w_nodup : NoDup (waiters s);
  w_permit : subnet_permit s = true → waiters s = [];
  w_inbox f b : status s !! f = Some (Wait b false) → inbox_empty (ctx s) f;
  w_checking f : status s !! f = Some Checking → f ∉ fork_permits s → inbox_empty (ctx s) f;
  w_entries f : is_Some (status s !! f) ↔ is_Some (fork_entries (ctx s) !! f);
}.

(** ** Notifications only add *)
Record grows (s s' : Forks) : Prop := {
  g_ctx : ctx s' = ctx s;
  g_flight : in_flight s' = in_flight s;
  g_wait f a b : status s !! f = Some (Wait a b) →
    ∃ a' b', status s' !! f = Some (Wait a' b') ∧ (a = true → a' = true) ∧ (b = true → b' = true);
  g_other f : (∀ a b, status s !! f ≠ Some (Wait a b)) → status s' !! f = status s !! f;
  g_permits : fork_permits s ⊆ fork_permits s';
  g_subnet : subnet_permit s = true → subnet_permit s' = true;
}.

Record Queues (s : Forks) : Prop := {
  q_waiters f : f ∈ waiters s ↔ ∃ b, status s !! f = Some (Wait false b);
  q_nodup : NoDup (waiters s);
  q_permit : subnet_permit s = true → waiters s = [];
}.

Lemma notified_refl s : grows s s.
Proof. split; eauto 10. Qed.

Lemma grows_not_wait s s' f : grows s s' → (∀ a b, status s !! f ≠ Some (Wait a b)) → ∀ a b, status s' !! f ≠ Some (Wait a b).
Proof. intros H Hf a b. rewrite (g_other _ _ H f Hf). apply Hf. Qed.

Lemma notified_trans s1 s2 s3 : grows s1 s2 → grows s2 s3 → grows s1 s3.
Proof.
  intros H1 H2. pose proof H1 as [A1 A2 A3 A4 A5 A6]. pose proof H2 as [B1 B2 B3 B4 B5 B6]. split.
  - by rewrite B1.
  - by rewrite B2.
  - intros f a b (a1 & b1 & E1 & Ha1 & Hb1)%A3. destruct (B3 _ _ _ E1) as (a2 & b2 & E2 & Ha2 & Hb2). eauto 10.
  - intros f Hf. rewrite B4, A4; [done | done |]. by apply (grows_not_wait s1).
  - by etransitivity.
  - auto.
Qed.

Lemma grows_back s s' f a b : grows s s' → status s' !! f = Some (Wait a b) → ∃ a0 b0, status s !! f = Some (Wait a0 b0) ∧
  (a0 = true → a = true) ∧ (b0 = true → b = true).
Proof.
  intros H E. destruct (status s !! f) as [[| | |a0 b0]|] eqn:E0; try (rewrite (g_other _ _ H f) in E by (intros; congruence); congruence).
  destruct (g_wait _ _ H f a0 b0 E0) as (a' & b' & E' & Ha & Hb). rewrite E in E'. injection E' as <- <-. eauto.
Qed.

Lemma grows_eq s s' f x : grows s s' → (∀ a b, x ≠ Wait a b) → status s' !! f = Some x ↔ status s !! f = Some x.
Proof.
  intros H Hx. split; intros E.
  - destruct (status s !! f) as [[| | |a0 b0]|] eqn:E0; try (rewrite (g_other _ _ H f) in E by (intros; congruence); congruence).
    destruct (g_wait _ _ H f a0 b0 E0) as (a' & b' & E' & _). rewrite E in E'. injection E' as ->. by destruct (Hx a' b').
  - rewrite (g_other _ _ H f); [done|]. intros a b. rewrite E. intros [= ->]. by destruct (Hx a b).
Qed.

Lemma grows_about s s' : grows s s' → about_to_sort s → about_to_sort s'.
Proof.
  intros H (g & [E|[b E]]); exists g.
  - left. by apply (grows_eq s).
  - right. destruct (g_wait _ _ H g true b E) as (a' & b' & E' & Ha & _). rewrite (Ha eq_refl) in E'. eauto.
Qed.

Lemma grows_present s s' f : grows s s' → is_Some (status s' !! f) ↔ is_Some (status s !! f).
Proof.
  intros H. destruct (status s !! f) as [[| | |a b]|] eqn:E; try (rewrite (g_other _ _ H f), E by (intros; congruence); done).
  destruct (g_wait _ _ H f a b E) as (a' & b' & -> & _). split; eauto.
Qed.

Lemma notify_subnet_grows s : Queues s → grows s (notify_subnet s) ∧ Queues (notify_subnet s) ∧
  (subnet_permit (notify_subnet s) = true ∨ about_to_sort (notify_subnet s)).
Proof.
  intros [Hw Hn Hp]. unfold notify_subnet. destruct (waiters s) as [|f rest] eqn:Ew.
  - split; [split; simpl; eauto 10|]. split; [|by left]. by split.
  - destruct (proj1 (Hw f)) as [b Eb]; [left|]. rewrite Eb. split; [|split].
    + split; simpl; try done.
      * intros g a c Eg. destruct (decide (g = f)) as [->|Hne].
        -- rewrite lookup_insert_eq. rewrite Eb in Eg. injection Eg as <- <-. eauto.
        -- rewrite lookup_insert_ne by done. eauto.
      * intros g Hg. rewrite lookup_insert_ne; [done|]. intros <-. by apply (Hg false b).
    + apply NoDup_cons in Hn as [Hf Hn]. split; simpl; [|done|intros E; discriminate (Hp E)].
      intros g. destruct (decide (g = f)) as [->|Hne].
      * rewrite lookup_insert_eq. split; [done | intros [? [=]]].
      * rewrite lookup_insert_ne by done. rewrite <- Hw. set_solver.
    + right. exists f. right. exists b. simpl. by rewrite lookup_insert_eq.
Qed.

Lemma notify_fork_grows s f : Queues s → grows s (notify_fork s f) ∧ Queues (notify_fork s f) ∧
  ((∃ a, status (notify_fork s f) !! f = Some (Wait a true)) ∨
   (∀ a b, status (notify_fork s f) !! f ≠ Some (Wait a b)) ∧ f ∈ fork_permits (notify_fork s f)).
Proof.
  intros [Hw Hn Hp]. unfold notify_fork.
  assert (Hkeep : (∀ a b, status s !! f ≠ Some (Wait a b)) →
    let s' := mkForks (ctx s) (status s) (subnet_permit s) ({[f]} ∪ fork_permits s) (waiters s) (in_flight s) in
    grows s s' ∧ Queues s' ∧ ((∃ a, status s' !! f = Some (Wait a true)) ∨ (∀ a b, status s' !! f ≠ Some (Wait a b)) ∧ f ∈ fork_permits s')).
  { intros Hf s'. split; [split; simpl; eauto 10; set_solver|]. split; [by split|]. right. simpl. split; [done | set_solver]. }
  destruct (status s !! f) as [[| | |a b]|] eqn:E; try (apply Hkeep; intros; congruence).
  split; [|split].
  - split; simpl; try done.
    + intros g a' b' Eg. destruct (decide (g = f)) as [->|Hne].
      * rewrite lookup_insert_eq. rewrite E in Eg. injection Eg as <- <-. eauto.
      * rewrite lookup_insert_ne by done. eauto.
    + intros g Hg. rewrite lookup_insert_ne; [done|]. intros <-. by apply (Hg a b).
  - split; simpl; [|done|done]. intros g. destruct (decide (g = f)) as [->|Hne].
    + rewrite lookup_insert_eq, Hw, E. split; intros [c [= -> _]]; eauto.
    + by rewrite lookup_insert_ne, Hw by done.
  - left. exists a. simpl. by rewrite lookup_insert_eq.
Qed.

Lemma effects_grow local out s : Queues s →
  grows s (foldl (effect local) s out) ∧ Queues (foldl (effect local) s out) ∧
  ∀ f, f ∈ notifications out →
    (∃ a, status (foldl (effect local) s out) !! f = Some (Wait a true)) ∨
    (∀ a b, status (foldl (effect local) s out) !! f ≠ Some (Wait a b)) ∧ f ∈ fork_permits (foldl (effect local) s out).
Proof.
  revert s. induction out as [|o out IH]; intros s Hq; simpl.
  { split; [apply notified_refl|]. split; [done|]. by intros f ?%elem_of_nil. }
  assert (grows s (effect local s o) ∧ Queues (effect local s o)) as [Hg Hq'].
  { destruct o as [to p e|f]; simpl; [|by destruct (notify_fork_grows s f Hq) as (? & ? & _)].
    destruct (local to); [by destruct (notify_subnet_grows s Hq) as (? & ? & _) | split; [apply notified_refl | done]]. }
  destruct (IH _ Hq') as (Hg2 & Hq2 & Hn). split; [by eapply notified_trans|]. split; [done|].
  intros f. destruct o as [to p e|g]; simpl; [apply Hn|]. intros [->|Hf]%elem_of_cons; [|by apply Hn].
  destruct (notify_fork_grows s g Hq) as (_ & _ & [[a Ea]|[Hnw Hin]]).
  - left. destruct (g_wait _ _ Hg2 g a true Ea) as (a' & b' & E' & _ & Hb). rewrite (Hb eq_refl) in E'. eauto.
  - right. split; [by apply (grows_not_wait _ _ _ Hg2) | by apply (g_permits _ _ Hg2)].
Qed.

(** ** A turn, in one piece *)
Lemma recv_pass_inv local p f st :
  is_Some (fork_entries st !! f) → priority_closed p = false → regular_closed p = false →
  ∃ st' out o, recv_pass local p f st = Ret (st', out, Ok o) ∧
    (∀ g, g ≠ f → g ∉ notifications out → fork_entries st' !! g = fork_entries st !! g) ∧
    (∀ g, is_Some (fork_entries st' !! g) ↔ is_Some (fork_entries st !! g)) ∧
    (o = None → inbox_empty st' f) ∧
    ((work (rx_priority st) ≤ n_priority p)%nat → (length (rx_regular st) ≤ n_regular p)%nat → lanes_empty st').
Proof.
  intros Hf Hc1 Hc2. destruct (process_inlets_sorted local p st) as (st1 & n & out & r1 & E & Hs & Hr & He).
  destruct Hr as [_ Hr]. specialize (Hr (conj Hc1 Hc2)). subst r1. specialize (He eq_refl).
  destruct Hs as [_ _ H3 _ _ H6 H7 _]. pose proof Hf as Hf1. apply H3 in Hf1 as [e Ef].
  assert (Hsame : ∀ g, g ∉ notifications out → fork_entries st1 !! g = fork_entries st !! g).
  { intros g Hg. apply H6. rewrite H7. set_solver. }
  unfold recv_pass. rewrite E, bind_Ret, Ef. cbn [expect]. rewrite bind_Ret.
  assert (Htake : ∀ e', let st' := set_forks st1 (<[f := e']> (fork_entries st1)) in
    (∀ g, g ≠ f → g ∉ notifications out → fork_entries st' !! g = fork_entries st !! g) ∧
    (∀ g, is_Some (fork_entries st' !! g) ↔ is_Some (fork_entries st !! g))).
  { intros e' st'. split; intros g; cbn.
    - intros Hne Hg. rewrite lookup_insert_ne by done. by apply Hsame.
    - rewrite <- H3, lookup_insert_is_Some'. split; [intros [<-|?]; [by eexists | done] | by right]. }
  destruct (inbox_priority e) as [|q l] eqn:E1; [destruct (inbox_regular e) as [|q l] eqn:E2|].
  - eexists _, _, _. split; [done|]. split_and!; [by intros; apply Hsame | done | | done].
    intros _ e' Ee. rewrite Ef in Ee. injection Ee as <-. done.
  - eexists _, _, _. split; [done|]. destruct (Htake (mkFork [] l (last_ping_received e))) as [? ?]. by split_and!.
  - eexists _, _, _. split; [done|]. destruct (Htake (mkFork l (inbox_regular e) (last_ping_received e))) as [? ?]. by split_and!.
Qed.

Lemma winv_queues s : WInv s → Queues s.
Proof. intros H. split; apply H. Qed.

(** A fork that does not wait changes what it does. *)
Lemma queues_set s f x : Queues s → (∀ a b, status s !! f ≠ Some (Wait a b)) → (∀ a b, x ≠ Wait a b) → Queues (set_status s f x).
Proof.
  intros [Hw Hn Hp] Hf Hx. split; simpl; [|done|done]. intros g. destruct (decide (g = f)) as [->|Hne].
  - rewrite lookup_insert_eq, Hw. split; intros [b Hb]; [by destruct (Hf false b)|]. injection Hb as ->. by destruct (Hx false b).
  - by rewrite lookup_insert_ne, Hw by done.
Qed.

Lemma about_set s f x : about_to_sort s → status s !! f ≠ Some Turn → (∀ b, status s !! f ≠ Some (Wait true b)) → about_to_sort (set_status s f x).
Proof.
  intros (g & Hg) H1 H2. exists g. simpl. rewrite lookup_insert_ne; [done|]. intros <-. destruct Hg as [?|[b ?]]; [done | by apply (H2 b)].
Qed.

Lemma turn_winv local p f s s' e :
  status s !! f = Some Turn → priority_closed p = false → regular_closed p = false → sees_all p s →
  turn local p f s = Ret (s', e) → WInv s → WInv s'.
Proof.
  intros Hf Hc1 Hc2 Hall Ht H. pose proof (winv_queues _ H) as Hq.
  destruct (recv_pass_inv local p f (ctx s)) as (c & out & o & E & Hsame & Hpres & Hown & Hlanes); [by apply (w_entries _ H); eauto|done|done|].
  unfold turn in Ht. rewrite E, bind_Ret in Ht.
  assert (Queues (set_ctx s c)) as Hq1 by (destruct Hq; by split).
  destruct (effects_grow local out _ Hq1) as (Hg & Hq2 & Hn). set (s2 := foldl (effect local) (set_ctx s c) out) in *.
  assert (status s2 !! f = Some Turn) as Hf2 by (by apply (grows_eq _ _ f Turn Hg)).
  assert (∃ x, s' = set_status s2 f x ∧ (∀ a b, x ≠ Wait a b) ∧ (x = Checking → inbox_empty c f)) as (x & -> & Hx & Hxo).
  { destruct o as [e0|]; injection Ht as <- <-; [exists Idle | exists Checking]; (split; [done|]; split; [done|]; auto; done). }
  assert (Hctx : ctx s2 = c) by apply (g_ctx _ _ Hg).
  destruct (queues_set s2 f x Hq2) as [Qw Qn Qp]; [intros a b; congruence | done |].
  split; simpl; try done.
  - rewrite Hctx. destruct (decide (in_flight s = O)) as [Hz|Hz].
    + left. destruct (Hall Hz). by apply Hlanes.
    + right. left. rewrite (g_flight _ _ Hg). done.
  - intros g b. rewrite Hctx. destruct (decide (g = f)) as [->|Hne].
    { rewrite lookup_insert_eq. intros [= Eb]. by destruct (Hx b false). }
    rewrite lookup_insert_ne by done. intros Eb. destruct (decide (g ∈ notifications out)) as [Hin|Hin].
    { destruct (Hn g Hin) as [[a Ea]|[Hnw _]]; [congruence | by destruct (Hnw b false)]. }
    intros e' Ee. rewrite Hsame in Ee by done. destruct (grows_back _ _ _ _ _ Hg Eb) as (a0 & b0 & E0 & _ & Hb0).
    destruct b0; [by discriminate (Hb0 eq_refl)|]. by apply (w_inbox _ H g a0).
  - intros g. rewrite Hctx. destruct (decide (g = f)) as [->|Hne].
    { rewrite lookup_insert_eq. intros [= ->] _. by apply Hxo. }
    rewrite lookup_insert_ne by done. intros Eb Hnp. destruct (decide (g ∈ notifications out)) as [Hin|Hin].
    { destruct (Hn g Hin) as [[a Ea]|[_ Hp]]; [congruence | done]. }
    intros e' Ee. rewrite Hsame in Ee by done. apply (w_checking _ H g); [by apply (grows_eq _ _ g Checking Hg) | | done].
    intros Hp. apply Hnp. by apply (g_permits _ _ Hg).
  - intros g. rewrite Hctx, Hpres, <- (w_entries _ H), lookup_insert_is_Some', (grows_present _ _ g Hg).
    split; [intros [<-|?]; [by eexists | done] | by right].
Qed.

(** The invariant but for [w_lanes] survives notifications. *)
Record Quiet (s : Forks) : Prop := {
  qt_queues : Queues s;
  qt_inbox f b : status s !! f = Some (Wait b false) → inbox_empty (ctx s) f;
  qt_checking f : status s !! f = Some Checking → f ∉ fork_permits s → inbox_empty (ctx s) f;
  qt_entries f : is_Some (status s !! f) ↔ is_Some (fork_entries (ctx s) !! f);
}.

Lemma winv_split s : WInv s ↔ Quiet s ∧ (lanes_empty (ctx s) ∨ in_flight s ≠ O ∨ subnet_permit s = true ∨ about_to_sort s).
Proof.
  split.
  - intros H. split; [|apply H]. split; [by apply winv_queues | apply H | apply H | apply H].
  - intros [[[? ? ?] ? ? ?] ?]. by split.
Qed.

Lemma quiet_notify s : Quiet s → WInv (notify_subnet s).
Proof.
  intros [Hq H1 H2 H3]. destruct (notify_subnet_grows s Hq) as (Hg & Hq' & Hd). apply winv_split. split; [|by right; right].
  split; [done | | |].
  - intros f b E. rewrite (g_ctx _ _ Hg). destruct (grows_back _ _ _ _ _ Hg E) as (a0 & b0 & E0 & _ & Hb).
    destruct b0; [by discriminate (Hb eq_refl)|]. by apply (H1 f a0).
  - intros f E Hn. rewrite (g_ctx _ _ Hg). apply H2; [by apply (grows_eq _ _ f Checking Hg)|].
    intros Hp. apply Hn. by apply (g_permits _ _ Hg).
  - intros f. rewrite (grows_present _ _ f Hg), (g_ctx _ _ Hg). apply H3.
Qed.

Lemma quiet_set s f x :
  Quiet s → is_Some (status s !! f) → (∀ a b, status s !! f ≠ Some (Wait a b)) → x = Idle ∨ x = Turn → Quiet (set_status s f x).
Proof.
  intros [Hq H1 H2 H3] Hs Hf Hx. split; simpl.
  - apply queues_set; [done | done |]. by destruct Hx as [-> | ->].
  - intros g b. destruct (decide (g = f)) as [->|Hne]; [rewrite lookup_insert_eq; by destruct Hx as [-> | ->]|].
    rewrite lookup_insert_ne by done. apply H1.
  - intros g. destruct (decide (g = f)) as [->|Hne]; [rewrite lookup_insert_eq; by destruct Hx as [-> | ->]|].
    rewrite lookup_insert_ne by done. apply H2.
  - intros g. rewrite lookup_insert_is_Some', <- H3. split; [intros [<-|?]; done | by right].
Qed.

(** The end of a wait *)
Lemma leave_winv s f next pass_subnet pass_fork a b :
  status s !! f = Some (Wait a b) → next = Turn ∨ next = Idle ∧ pass_subnet = a →
  WInv s → WInv (leave s f next pass_subnet pass_fork).
Proof.
  intros Hf Hnext [[[Hw Hn Hp] H1 H2 H3] Hl]%winv_split. unfold leave. cbv zeta. match goal with |- context [notify_subnet ?x] => set (s1 := x) end.
  assert (∀ c d, next ≠ Wait c d) as Hnw by (by destruct Hnext as [->|[-> _]]).
  assert (Quiet s1) as Hq1.
  { split; simpl.
    - split; simpl.
      + intros g. rewrite list_elem_of_filter. destruct (decide (g = f)) as [->|Hne].
        * rewrite lookup_insert_eq. split; [by intros []|]. intros [c [= Ec]]. by destruct (Hnw false c).
        * rewrite lookup_insert_ne, Hw by done. naive_solver.
      + by apply NoDup_filter.
      + intros E. by rewrite (Hp E).
    - intros g c. destruct (decide (g = f)) as [->|Hne]; [rewrite lookup_insert_eq; intros [= Ec]; by destruct (Hnw c false)|].
      rewrite lookup_insert_ne by done. apply H1.
    - intros g. destruct (decide (g = f)) as [->|Hne].
      + rewrite lookup_insert_eq. intros [= ->]. by destruct Hnext as [|[? _]].
      + rewrite lookup_insert_ne by done. intros E Hin. apply H2; [done|]. destruct pass_fork; set_solver.
    - intros g. rewrite lookup_insert_is_Some', <- H3. split; [intros [<-|?]; [by eexists | done] | by right]. }
  destruct pass_subnet; [by apply quiet_notify|]. apply winv_split. split; [done|].
  destruct Hl as [?|[?|[?|(g & Hg)]]]; [by left | by right; left | by right; right; left | right; right; right].
  destruct Hnext as [->|[-> <-]].
  - exists f. left. simpl. by rewrite lookup_insert_eq.
  - exists g. simpl. rewrite lookup_insert_ne; [done|]. intros <-. rewrite Hf in Hg. by destruct Hg as [?|[? ?]].
Qed.

Lemma wstep_winv local s s' : wstep local s s' → WInv s → WInv s'.
Proof.
  destruct 1 as [s prio q|s n En|s f Ef|s f Ef|s f p s' e Ef Hc1 Hc2 Hall Ht|s f Ef Ep|s f Ef Ep|s f Ef Ep Hnp|s f b Ef|s f a Ef|s f a b Ef]; intros H.
  - apply winv_split in H as [[[Hw Hn Hp] H1 H2 H3] _]. apply winv_split. split; [|by right; left].
    destruct prio; split; simpl; done.
  - apply winv_split in H as [[[Hw Hn Hp] H1 H2 H3] _]. by apply quiet_notify.
  - apply winv_split in H as [[[Hw Hn Hp] H1 H2 H3] Hl]. apply winv_split. split.
    + assert (∀ g, is_Some (status s !! g) → g ≠ f) as Hne by (intros g [x Hx] ->; congruence).
      split; simpl.
      * apply (queues_set (set_ctx s _)); simpl; [by split | intros a b; congruence | done].
      * intros g b. destruct (decide (g = f)) as [->|Hgf]; [by rewrite lookup_insert_eq|]. rewrite lookup_insert_ne by done.
        intros E e. simpl. rewrite lookup_insert_ne by done. by apply (H1 g b).
      * intros g. destruct (decide (g = f)) as [->|Hgf]; [by rewrite lookup_insert_eq|]. rewrite lookup_insert_ne by done.
        intros E Hin e. simpl. rewrite lookup_insert_ne by done. by apply (H2 g).
      * intros g. rewrite !lookup_insert_is_Some', H3. done.
    + simpl. destruct Hl as [?|[?|[?|?]]]; [by left | by right; left | by right; right; left |].
      right. right. right. apply (about_set (set_ctx s _)); [done | simpl; congruence | simpl; congruence].
  - apply winv_split in H as [Hq Hl]. apply winv_split. split; [apply quiet_set; [done | by eexists | congruence | auto]|].
    right. right. right. exists f. left. simpl. by rewrite lookup_insert_eq.
  - by eapply turn_winv.
  - apply winv_split in H as [[[Hw Hn Hp] H1 H2 H3] _]. apply winv_split. split.
    + change (Quiet (set_status (mkForks (ctx s) (status s) false (fork_permits s) (waiters s) (in_flight s)) f Turn)).
      apply quiet_set; [by split | simpl; by eexists | simpl; congruence | auto].
    + right. right. right. exists f. left. simpl. by rewrite lookup_insert_eq.
  - apply winv_split in H as [Hq _]. apply winv_split. split.
    + assert (Quiet (set_status s f Turn)) as [[Hw Hn Hp] H1 H2 H3] by (apply quiet_set; [done | by eexists | congruence | auto]).
      split; [by split | done | | done]. simpl. intros g E Hin. apply H2; [done|]. simpl. intros Hg. apply Hin.
      apply elem_of_difference. split; [done|]. intros ->%elem_of_singleton. rewrite lookup_insert_eq in E. discriminate.
    + right. right. right. exists f. left. simpl. by rewrite lookup_insert_eq.
  - apply winv_split in H as [[[Hw Hn Hp] H1 H2 H3] Hl]. apply winv_split. split.
    + split; simpl.
      * split; simpl; [| |congruence].
        -- intros g. rewrite elem_of_app, list_elem_of_singleton. destruct (decide (g = f)) as [->|Hne].
           ++ rewrite lookup_insert_eq. split; [eauto | by right].
           ++ rewrite lookup_insert_ne, <- Hw by done. naive_solver.
        -- apply NoDup_app. split_and!; [done| |apply NoDup_singleton]. intros g [b Hg]%Hw ->%list_elem_of_singleton. congruence.
      * intros g b. destruct (decide (g = f)) as [->|Hne].
        -- rewrite lookup_insert_eq. intros _. by apply H2.
        -- rewrite lookup_insert_ne by done. apply H1.
      * intros g. destruct (decide (g = f)) as [->|Hne]; [by rewrite lookup_insert_eq|]. rewrite lookup_insert_ne by done. apply H2.
      * intros g. rewrite lookup_insert_is_Some', <- H3. split; [intros [<-|?]; [by eexists | done] | by right].
    + destruct Hl as [?|[?|[?|(g & Hg)]]]; [by left | by right; left | congruence |]. right. right. right. exists g. simpl.
      rewrite lookup_insert_ne; [done|]. intros <-. destruct Hg as [?|[? ?]]; congruence.
  - eapply leave_winv; eauto.
  - eapply leave_winv; eauto.
  - eapply leave_winv; eauto.
Qed.

Lemma forks_new_winv c : lanes_empty c → WInv (forks_new c).
Proof.
  intros Hl. split; simpl; [by left | | constructor | done | | |].
  - intros f. rewrite lookup_fmap. split; [by intros ?%elem_of_nil|]. intros [b Hb]. by destruct (fork_entries c !! f).
  - intros f b. rewrite lookup_fmap. by destruct (fork_entries c !! f).
  - intros f. rewrite lookup_fmap. by destruct (fork_entries c !! f).
  - intros f. by rewrite lookup_fmap, fmap_is_Some.
Qed.

Lemma wakeup_inv local c s : lanes_empty c → rtc (wstep local) (forks_new c) s → WInv s.
Proof.
  intros Hc Hr. pose proof (forks_new_winv c Hc) as H. revert H. induction Hr as [|x y z Hs Hr IH]; [done|]. intros H.
  apply IH. by eapply wstep_winv.
Qed.

(** C7: No wake-up is lost: however sends, receives, forks and cancelled receives interleave, a fork that waits, and that
    nothing has woken, has no message for it in its inbox, and none in the mailbox either, unless a sender has still to give its
    notification or some fork is about to sort the mailbox. *)
Theorem no_lost_wakeup local c s f :
  lanes_empty c → rtc (wstep local) (forks_new c) s → status s !! f = Some (Wait false false) →
  inbox_empty (ctx s) f ∧
  (in_flight s ≠ O ∨ about_to_sort s ∨ pending_priority (ctx s) f = [] ∧ pending_regular (ctx s) f = []).
Proof.
  intros Hc Hr Hf. pose proof (wakeup_inv _ _ _ Hc Hr) as H. assert (inbox_empty (ctx s) f) as Hi by by apply (w_inbox _ H f false).
  split; [done|]. destruct (w_lanes _ H) as [[Hl1 Hl2]|[?|[Hp|?]]]; [right; right | by left | | by right; left].
  - unfold pending_priority, pending_regular. destruct (fork_entries (ctx s) !! f) as [e|] eqn:E; [|done].
    destruct (Hi e E) as [-> ->]. by rewrite Hl1, Hl2.
  - exfalso. assert (f ∈ waiters s) as Hin by (apply (w_waiters _ H); eauto). rewrite (w_permit _ H Hp) in Hin. by apply elem_of_nil in Hin.
Qed.

(** The fork that sorts the mailbox wakes every waiting fork it finds a message for. *)
Theorem sorting_wakes local c s g p s' e f a :
  lanes_empty c → rtc (wstep local) (forks_new c) s → status s !! g = Some Turn →
  priority_closed p = false → regular_closed p = false → sees_all p s → turn local p g s = Ret (s', e) →
  status s' !! f = Some (Wait a false) → inbox_empty (ctx s') f ∧ (in_flight s = O → lanes_empty (ctx s')).
Proof.
  intros Hc Hr Hg Hc1 Hc2 Hall Ht Hf. pose proof (wakeup_inv _ _ _ Hc Hr) as H.
  assert (WInv s') as H' by by eapply turn_winv. split; [by apply (w_inbox _ H' f a)|]. intros Hz.
  destruct (recv_pass_inv local p g (ctx s)) as (c' & out & o & E & _ & _ & _ & Hl); [by apply (w_entries _ H); eauto | done | done|].
  unfold turn in Ht. rewrite E, bind_Ret in Ht.
  assert (Queues (set_ctx s c')) as Hq by (destruct (winv_queues _ H); by split).
  destruct (effects_grow local out _ Hq) as (Hgr & _ & _).
  assert (ctx s' = c') as ->.
  { destruct o; injection Ht as <- <-; simpl; apply (g_ctx _ _ Hgr). }
  destruct (Hall Hz). by apply Hl.
Qed.
End Wakeup.

(** ** Example: two forks wait, and a message for the second wakes the first *)
Section Examples.
Definition ex_ctx : SubnetContext (M := Z) := mkSubnet (subnet_pool two_forks) [] [] {[5 := fork_default; 6 := fork_default]} [].
Definition ex_pass : Pass := mkPass 9 9 false false.
Definition ex_local (a : Address) : bool := false.
Definition ex_turn (f : Address) (s : Forks (M := Z)) : Forks (M := Z) := match turn ex_local ex_pass f s with Ret (s, _) => s | Panic => s end.
Definition ex_wait (f : Address) (s : Forks (M := Z)) : Forks (M := Z) := block (ex_turn f (set_status s f Turn)) f.
Definition ex_waiting : Forks (M := Z) := ex_wait 6 (ex_wait 5 (forks_new ex_ctx)).
Definition ex_pushed : Forks (M := Z) :=
  set_in_flight (set_ctx ex_waiting (set_lanes (ctx ex_waiting) (rx_priority (ctx ex_waiting)) (rx_regular (ctx ex_waiting) ++ [user 6 42]))) 1.
Definition ex_woken : Forks (M := Z) := notify_subnet (set_in_flight ex_pushed 0).

Lemma ex_wait_steps f s : status (s : Forks (M := Z)) !! f = Some Idle → sees_all ex_pass (set_status s f Turn) →
  (∃ e, turn ex_local ex_pass f (set_status s f Turn) = Ret (ex_turn f (set_status s f Turn), e)) →
  status (ex_turn f (set_status s f Turn)) !! f = Some Checking →
  subnet_permit (ex_turn f (set_status s f Turn)) = false → f ∉ fork_permits (ex_turn f (set_status s f Turn)) →
  rtc (wstep ex_local) s (ex_wait f s).
Proof.
  intros H1 H2 [e H3] H4 H5 H6. eapply rtc_l; [by apply WCall|]. eapply rtc_l; [eapply (WTurn _ _ f ex_pass); [|done|done|exact H2|exact H3]|].
  - simpl. by rewrite lookup_insert_eq.
  - apply rtc_once. by apply WBlock.
Qed.

Lemma ex_woken_reachable : rtc (wstep ex_local) (forks_new ex_ctx) ex_woken.
Proof.
  assert (∀ f (s : Forks (M := Z)), bool_decide (length (rx_regular (ctx s)) ≤ 9)%nat = true → bool_decide (work (rx_priority (ctx s)) ≤ 9)%nat = true →
    sees_all ex_pass (set_status s f Turn)) as Hs.
  { intros f s H1%bool_decide_eq_true H2%bool_decide_eq_true _. by split. }
  transitivity (ex_wait 5 (forks_new ex_ctx)).
  { apply ex_wait_steps; [reflexivity | apply Hs; reflexivity | eexists; vm_compute; reflexivity | vm_compute; reflexivity | reflexivity |].
    by apply (bool_decide_eq_false _). }
  transitivity ex_waiting.
  { apply ex_wait_steps; [vm_compute; reflexivity | apply Hs; vm_compute; reflexivity | eexists; vm_compute; reflexivity | vm_compute; reflexivity
      | vm_compute; reflexivity |]. by apply (bool_decide_eq_false _). }
  eapply rtc_l; [exact (WPush ex_local ex_waiting false (user 6 42))|]. apply rtc_once. by apply (WNotify ex_local _ 0).
Qed.

Lemma no_lost_wakeup_witness :
  status ex_woken !! 6 = Some (Wait false false) ∧ pending_regular (ctx ex_woken) 6 = [user 6 42] ∧
  inbox_empty (ctx ex_woken) 6 ∧
  (in_flight ex_woken ≠ O ∨ about_to_sort ex_woken ∨ pending_priority (ctx ex_woken) 6 = [] ∧ pending_regular (ctx ex_woken) 6 = []).
Proof.
  split; [vm_compute; reflexivity|]. split; [vm_compute; reflexivity|].
  apply (no_lost_wakeup ex_local ex_ctx); [split; reflexivity | exact ex_woken_reachable | vm_compute; reflexivity].
Defined.
End Examples.
