(* ===== verification/Delivery.v ===== *)
(** * Delivery of messages inside a node (core/mm1-node/src/runtime: rt_api.rs, context.rs, context/impl_context_api.rs; registry.rs)

    The composition of [Registry] and [Context]: any number of actors send and forward, the registry leads each message to the
    mailbox of a node, and the forks of the actors sort and receive. Steps interleave in any order; a log records what was
    accepted and what was received. *)

From S2P Require Import Prelude U64 Address Subnet Trie Pool Registry Context.

Open Scope Z_scope.

Section Delivery.
Context {M : Type} {TI : Type → Type} `{TreeIndex TI}.
Notation Envelope := (Envelope (M := M)).
Notation Queued := (Queued (M := M)).
Notation SubnetContext := (SubnetContext (M := M)).
Notation RtApi := (RtApi (M := M) (TI := TI)).

(** The lanes of an actor are those of its mailbox. *)
Record Net := mkNodes { api : RtApi; contexts : gmap Z SubnetContext }.

Definition queued (x : Address * Envelope) : Queued := mkQueued x.1 x.2.
Definition unqueue (q : Queued) : Address * Envelope := (q_to q, q_message q).
Definition load (mb : Mailbox (M := Envelope)) (st : SubnetContext) : SubnetContext :=
  set_lanes st (queued <$> prioritized mb) (queued <$> regular mb).

(** The mailbox after a turn of [recv]; [permits] counts the messages that have been given up since *)
Definition store (mb : Mailbox (M := Envelope)) (st : SubnetContext) (permits : nat) : Mailbox (M := Envelope) :=
  mkMailbox (inbox_size mb) permits (unqueue <$> rx_regular st) (unqueue <$> rx_priority st) (receiver_alive mb).

(** Does the registry lead to this very mailbox? *)
Definition is_local (rt : RtApi) (node : Z) (a : Address) : bool :=
  match lookup_ (registry rt) a with Ret (Some n) => n =? node | _ => false end.

(** Pongs for other mailboxes *)
Definition pong_out (node : Z) (rt : RtApi) (o : Out (M := M)) : outcome RtApi :=
  match o with
  | SendTo to p e => if is_local rt node to then Ret rt else '(rt, _) ← send_to rt to p e; Ret rt
  | NotifyFork _ => Ret rt
  end.
Fixpoint pongs_out (node : Z) (rt : RtApi) (out : list (Out (M := M))) : outcome RtApi :=
  match out with [] => Ret rt | o :: out => rt ← pong_out node rt o; pongs_out node rt out end.

Inductive LogItem := Accepted (node : Z) (to : Address) (e : Envelope) | Received (node : Z) (fork : Address) (e : Envelope).

Inductive dstep : Net → list LogItem → Net → Prop :=
| DSend rt cs e e' rt' node : do_send rt e = Ret (rt', Ok tt) → spend_ttl e = Ok e' → lookup_ (registry rt) (env_to e) = Ret (Some node) →
    dstep (mkNodes rt cs) [Accepted node (env_to e) e'] (mkNodes rt' cs)
| DForward rt cs to e e' rt' node : do_forward rt to e = Ret (rt', Ok tt) → spend_ttl e = Ok e' → lookup_ (registry rt) to = Ret (Some node) →
    dstep (mkNodes rt cs) [Accepted node to e'] (mkNodes rt' cs)
| DRefused rt cs to e rt' k : do_forward rt to e = Ret (rt', Err k) → dstep (mkNodes rt cs) [] (mkNodes rt' cs)
| DRecv rt cs node f p permits mb st st' out r rt' :
    mailboxes rt !! node = Some mb → cs !! node = Some st →
    recv_pass (is_local rt node) p f (load mb st) = Ret (st', out, r) →
    pongs_out node (mkRt (registry rt) (<[node := store mb st' permits]> (mailboxes rt))) out = Ret rt' →
    dstep (mkNodes rt cs) (match r with Ok (Some e) => [Received node f e] | _ => [] end) (mkNodes rt' (<[node := st']> cs))
| DFork rt cs node st st' l : cs !! node = Some st → fork_ st = Ret (st', Ok l) → dstep (mkNodes rt cs) [] (mkNodes rt (<[node := st']> cs))
| DPermits rt cs node mb permits : mailboxes rt !! node = Some mb →
    dstep (mkNodes rt cs) [] (mkNodes (mkRt (registry rt)
      (<[node := mkMailbox (inbox_size mb) permits (regular mb) (prioritized mb) (receiver_alive mb)]> (mailboxes rt))) cs).

Inductive dsteps : Net → list LogItem → Net → Prop :=
| dsteps_nil n : dsteps n [] n
| dsteps_cons n1 l1 n2 l2 n3 : dstep n1 l1 n2 → dsteps n2 l2 n3 → dsteps n1 (l1 ++ l2) n3.

(** ** What a fork has yet to receive *)
Definition pending (urgent : bool) (n : Net) (node : Z) (f : Address) : list Envelope :=
  match mailboxes (api n) !! node, contexts n !! node with
  | Some mb, Some st => q_message <$> (if urgent then pending_priority (load mb st) f else pending_regular (load mb st) f)
  | _, _ => []
  end.

(** Messages accepted for a fork, and messages it has received, of one lane; pings are not for the actor *)
Definition accepted_one (bound : list (AddressRange * Address)) (urgent : bool) (node : Z) (f : Address) (i : LogItem) : option Envelope :=
  match i with
  | Accepted n to e =>
      if (n =? node) && (dest bound to =? f) && Bool.eqb (env_priority e) urgent && (negb urgent || is_user (mkQueued to e)) then Some e else None
  | _ => None
  end.
Definition received_one (urgent : bool) (node : Z) (f : Address) (i : LogItem) : option Envelope :=
  match i with Received n g e => if (n =? node) && (g =? f) && Bool.eqb (env_priority e) urgent then Some e else None | _ => None end.

(** A fork [f] of the actor at [node], with its bound subnets *)
Definition present (n : Net) (node : Z) (f : Address) (bound : list (AddressRange * Address)) : Prop :=
  is_Some (mailboxes (api n) !! node) ∧
  ∃ st, contexts n !! node = Some st ∧ bound_subnets st = bound ∧ is_Some (fork_entries st !! f).

(** Everything pending is in the lane of its priority. *)
Definition lanes_right (n : Net) (node : Z) (f : Address) : Prop :=
  ∀ urgent, Forall (λ e, env_priority e = urgent) (pending urgent n node f).

(** ** A turn of [recv], whatever the lanes yield *)
Lemma recv_pass_pending local p f (st st' : SubnetContext) out r :
  recv_pass local p f st = Ret (st', out, r) →
  bound_subnets st' = bound_subnets st ∧ (∀ g, is_Some (fork_entries st' !! g) ↔ is_Some (fork_entries st !! g)) ∧
  (∀ g, g ≠ f → pending_priority st' g = pending_priority st g ∧ pending_regular st' g = pending_regular st g) ∧
  match r with
  | Ok (Some e) =>
      (∃ q, q_message q = e ∧ pending_priority st f = q :: pending_priority st' f ∧ pending_regular st' f = pending_regular st f) ∨
      (∃ q, q_message q = e ∧ pending_regular st f = q :: pending_regular st' f ∧ pending_priority st' f = pending_priority st f)
  | _ => pending_priority st' f = pending_priority st f ∧ pending_regular st' f = pending_regular st f
  end.
Proof.
  intros Hp. destruct (process_inlets_sorted local p st) as (st1 & n & out1 & r1 & E & [H1 _ H3 H4 H5 _ _ _] & _).
  unfold recv_pass in Hp. rewrite E, bind_Ret in Hp. destruct r1 as [[]|k]; [|by injection Hp as <- <- <-].
  destruct (fork_entries st1 !! f) as [e|] eqn:Ef; [|done]. cbn [expect] in Hp. rewrite bind_Ret in Hp.
  assert (Htake : ∀ e', let st2 := set_forks st1 (<[f := e']> (fork_entries st1)) in
    bound_subnets st2 = bound_subnets st ∧ (∀ g, is_Some (fork_entries st2 !! g) ↔ is_Some (fork_entries st !! g)) ∧
    (∀ g, g ≠ f → pending_priority st2 g = pending_priority st g ∧ pending_regular st2 g = pending_regular st g) ∧
    pending_priority st2 f = inbox_priority e' ++ waiting st1 f (filter is_user (rx_priority st1)) ∧
    pending_regular st2 f = inbox_regular e' ++ waiting st1 f (rx_regular st1)).
  { intros e' st2. unfold pending_priority at 1 3, pending_regular at 1 3. unfold st2. cbn. split_and!; [done| | |by rewrite lookup_insert_eq..].
    - intros g. rewrite <- H3, lookup_insert_is_Some'. split; [intros [<-|?]; [by eexists | done] | by right].
    - intros g Hg. rewrite <- H4, <- H5. rewrite lookup_insert_ne by done. done. }
  assert (Hpr : pending_priority st f = inbox_priority e ++ waiting st1 f (filter is_user (rx_priority st1)))
    by (rewrite <- H4; unfold pending_priority; by rewrite Ef).
  assert (Hrg : pending_regular st f = inbox_regular e ++ waiting st1 f (rx_regular st1))
    by (rewrite <- H5; unfold pending_regular; by rewrite Ef).
  destruct (inbox_priority e) as [|q l] eqn:E1; [destruct (inbox_regular e) as [|q l] eqn:E2|]; injection Hp as <- <- <-.
  - split_and!; [done | done | by intros; split | done | done].
  - destruct (Htake (mkFork [] l (last_ping_received e))) as (T1 & T2 & T3 & T4 & T5). split_and!; [done | done | done|].
    right. exists q. split; [done|]. by rewrite Hrg, T5, T4, Hpr.
  - destruct (Htake (mkFork l (inbox_regular e) (last_ping_received e))) as (T1 & T2 & T3 & T4 & T5). split_and!; [done | done | done|].
    left. exists q. split; [done|]. by rewrite Hpr, T4, T5, Hrg.
Qed.

(** ** What a fork sends while it sorts: pongs, on the priority lane *)
Definition is_pong (o : Out (M := M)) : Prop :=
  match o with SendTo to p e => p = true ∧ ∃ id, body e = Ping None id | NotifyFork _ => True end.

Lemma notify_pongs b n f : Forall is_pong (notify (M := M) b n f).2.
Proof. unfold notify. destruct (b && _); by repeat constructor. Qed.

Lemma sort_priority_pongs local st n q st' n' out : sort_priority local st n q = Ret (st', n', out) → Forall is_pong out.
Proof.
  unfold sort_priority. intros (fork & _ & E)%bind_Ret_inv. destruct (fork_entries st !! fork) as [e|]; [|by injection E as <- <- <-].
  pose proof (notify_pongs true n fork) as Hn.
  destruct (body (q_message q)) as [[reply_to|] id|m]; [|destruct (notify true n fork); by injection E as <- <- <-..].
  injection E as <- <- <-. constructor; [|done]. simpl. eauto.
Qed.

Lemma sort_regular_pongs st n q st' n' out : sort_regular st n q = Ret (st', n', out) → Forall is_pong out.
Proof.
  unfold sort_regular. intros (fork & _ & E)%bind_Ret_inv. destruct (fork_entries st !! fork) as [e|]; [|by injection E as <- <- <-].
  pose proof (notify_pongs true n fork) as Hn. destruct (notify true n fork). by injection E as <- <- <-.
Qed.

Lemma priority_loop_pongs local k st n st' n' out : priority_loop local k st n = Ret (st', n', out) → Forall is_pong out.
Proof.
  revert st n st' n' out. induction k as [|k IH]; intros st n st' n' out E; cbn [priority_loop] in E; [by injection E as <- <- <-|].
  destruct (rx_priority st); [by injection E as <- <- <-|]. apply bind_Ret_inv in E as ([[st1 n1] out1] & E1%sort_priority_pongs & E).
  apply bind_Ret_inv in E as ([[st2 n2] out2] & E2%IH & [= <- <- <-]). by apply Forall_app.
Qed.

Lemma regular_loop_pongs k st n st' n' out : regular_loop k st n = Ret (st', n', out) → Forall is_pong out.
Proof.
  revert st n st' n' out. induction k as [|k IH]; intros st n st' n' out E; cbn [regular_loop] in E; [by injection E as <- <- <-|].
  destruct (rx_regular st); [by injection E as <- <- <-|]. apply bind_Ret_inv in E as ([[st1 n1] out1] & E1%sort_regular_pongs & E).
  apply bind_Ret_inv in E as ([[st2 n2] out2] & E2%IH & [= <- <- <-]). by apply Forall_app.
Qed.

Lemma recv_pass_pongs local p f st st' out r : recv_pass local p f st = Ret (st', out, r) → Forall is_pong out.
Proof.
  assert (∀ st1 out1 r1, process_inlets local p st = Ret (st1, out1, r1) → Forall is_pong out1) as Hin.
  { intros st1 out1 r1 E. apply bind_Ret_inv in E as ([[st2 n2] out2] & E2%priority_loop_pongs & E).
    destruct (priority_closed p); [by injection E as <- <- <-|].
    apply bind_Ret_inv in E as ([[st3 n3] out3] & E3%regular_loop_pongs & [= <- <- <-]). by apply Forall_app. }
  intros E. apply bind_Ret_inv in E as ([[st1 out1] r1] & E1%Hin & E). destruct r1; [|by injection E as <- <- <-].
  apply bind_Ret_inv in E as (e & _ & E). destruct (inbox_priority e); [destruct (inbox_regular e)|]; by injection E as <- <- <-.
Qed.

(** ** Steps and the queues of one fork *)
Definition pend (urgent : bool) (mb : Mailbox (M := Envelope)) (st : SubnetContext) (f : Address) : list Envelope :=
  q_message <$> (if urgent then pending_priority (load mb st) f else pending_regular (load mb st) f).

Lemma pending_pend urgent n node f mb st :
  mailboxes (api n) !! node = Some mb → contexts n !! node = Some st → pending urgent n node f = pend urgent mb st f.
Proof. unfold pending. by intros -> ->. Qed.

(** What a message adds to the queue of a fork *)
Definition adds (bound : list (AddressRange * Address)) (urgent p : bool) (f to : Address) (e : Envelope) : list Envelope :=
  if (dest bound to =? f) && Bool.eqb p urgent && (negb urgent || is_user (mkQueued to e)) then [e] else [].

Lemma waiting_one (st : SubnetContext) f (q : Queued) : waiting st f [q] = if dest (bound_subnets st) (q_to q) =? f then [q] else [].
Proof.
  unfold waiting. rewrite filter_cons, filter_nil. destruct (Z.eqb_spec (dest (bound_subnets st) (q_to q)) f); [by rewrite decide_True | by rewrite decide_False].
Qed.

Lemma pend_true mb (st : SubnetContext) f en : fork_entries st !! f = Some en →
  pend true mb st f = q_message <$> (inbox_priority en ++ waiting st f (filter is_user (queued <$> prioritized mb))).
Proof. intros E. unfold pend, pending_priority. cbn [load set_lanes fork_entries rx_priority]. by rewrite E. Qed.

Lemma pend_false mb (st : SubnetContext) f en : fork_entries st !! f = Some en →
  pend false mb st f = q_message <$> (inbox_regular en ++ waiting st f (queued <$> regular mb)).
Proof. intros E. unfold pend, pending_regular. cbn [load set_lanes fork_entries rx_regular]. by rewrite E. Qed.

Lemma pend_send urgent mb (st : SubnetContext) f to p e mb' :
  is_Some (fork_entries st !! f) → node_send mb to p e = (mb', true) →
  pend urgent mb' st f = pend urgent mb st f ++ adds (bound_subnets st) urgent p f to e.
Proof.
  intros [en Hen] Hs. unfold adds.
  assert (if p then prioritized mb' = prioritized mb ++ [(to, e)] ∧ regular mb' = regular mb
          else prioritized mb' = prioritized mb ∧ regular mb' = regular mb ++ [(to, e)]) as Hl.
  { unfold node_send in Hs. destruct p; [|destruct (permits mb); [done|]]; destruct (receiver_alive mb); try done; by injection Hs as <-. }
  destruct urgent; [rewrite !(pend_true _ _ _ en Hen) | rewrite !(pend_false _ _ _ en Hen)]; destruct p; destruct Hl as [Hl1 Hl2]; rewrite ?Hl1, ?Hl2;
    rewrite ?fmap_app; cbn [negb orb Bool.eqb andb]; rewrite ?andb_false_r, ?andb_true_r, ?app_nil_r; try done.
  - change (queued <$> [(to, e)]) with [mkQueued to e]. rewrite filter_app, filter_cons, filter_nil. unfold waiting at 1. rewrite filter_app.
    rewrite fmap_app, app_assoc. f_equal. fold (waiting st f). destruct (is_user (mkQueued to e)) eqn:Eu.
    + rewrite decide_True by done. change (filter _ [mkQueued to e]) with (waiting st f [mkQueued to e]). rewrite waiting_one, andb_true_r.
      cbn [q_to]. by destruct (_ =? _).
    + rewrite decide_False by (by intros []). by rewrite andb_false_r.
  - change (queued <$> [(to, e)]) with [mkQueued to e]. unfold waiting at 1. rewrite filter_app, fmap_app, app_assoc. f_equal.
    change (filter _ [mkQueued to e]) with (waiting st f [mkQueued to e]). rewrite waiting_one. cbn [q_to]. by destruct (_ =? _).
Qed.

Lemma send_to_queues rt cs to p e rt' r node f bound :
  send_to rt to p e = Ret (rt', r) → present (mkNodes rt cs) node f bound →
  present (mkNodes rt' cs) node f bound ∧ registry rt' = registry rt ∧
  match r with
  | Ok _ => ∃ node0, lookup_ (registry rt) to = Ret (Some node0) ∧ ∀ urgent,
      pending urgent (mkNodes rt' cs) node f =
      pending urgent (mkNodes rt cs) node f ++ (if node0 =? node then adds bound urgent p f to e else [])
  | Err _ => ∀ urgent, pending urgent (mkNodes rt' cs) node f = pending urgent (mkNodes rt cs) node f
  end.
Proof.
  intros (found & El & E)%bind_Ret_inv Hpr. destruct found as [node0|]; [|injection E as <- <-; done].
  destruct (mailboxes rt !! node0) as [mb0|] eqn:Em0; [|injection E as <- <-; done].
  destruct (node_send mb0 to p e) as [mb1 sent] eqn:Es. injection E as <- <-.
  pose proof Hpr as ([mb Hmb] & st & Hst & Hb & Hf). cbn in Hmb, Hst.
  assert (present (mkNodes (mkRt (registry rt) (<[node0 := mb1]> (mailboxes rt))) cs) node f bound) as Hpr'.
  { split; [|by exists st]. cbn. rewrite lookup_insert_is_Some'. eauto. }
  split; [done|]. split; [done|].
  assert (sent = false → mb1 = mb0) as Hsame.
  { unfold node_send in Es. intros ->. destruct p, (receiver_alive mb0), (permits mb0); by injection Es. }
  destruct (decide (node0 = node)) as [->|Hne].
  - rewrite Hmb in Em0. injection Em0 as ->.
    assert (∀ urgent, pending urgent (mkNodes (mkRt (registry rt) (<[node := mb1]> (mailboxes rt))) cs) node f = pend urgent mb1 st f) as Hp'.
    { intros urgent. apply pending_pend; [cbn; by rewrite lookup_insert_eq | done]. }
    destruct sent.
    + exists node. split; [done|]. intros urgent. rewrite Hp', (pending_pend urgent (mkNodes rt cs) node f mb0 st Hmb Hst), Z.eqb_refl, <- Hb.
      by apply pend_send.
    + intros urgent. by rewrite Hp', (pending_pend urgent (mkNodes rt cs) node f mb0 st Hmb Hst), (Hsame eq_refl).
  - assert (∀ urgent, pending urgent (mkNodes (mkRt (registry rt) (<[node0 := mb1]> (mailboxes rt))) cs) node f = pending urgent (mkNodes rt cs) node f) as Hp'.
    { intros urgent. unfold pending. cbn. by rewrite lookup_insert_ne. }
    destruct sent; [|done]. exists node0. split; [done|]. intros urgent. rewrite Hp'. destruct (Z.eqb_spec node0 node); [done|]. by rewrite app_nil_r.
Qed.

Lemma pong_adds bound urgent f to (e : Envelope) id : body e = Ping None id → adds bound urgent true f to e = [].
Proof.
  intros E. unfold adds. destruct urgent; cbn [Bool.eqb negb orb]; [|by rewrite andb_false_r].
  unfold is_user. cbn [q_message]. rewrite E. by rewrite andb_false_r.
Qed.

Lemma pongs_out_queues node0 rt cs out rt' node f bound :
  pongs_out node0 rt out = Ret rt' → Forall is_pong out → present (mkNodes rt cs) node f bound →
  present (mkNodes rt' cs) node f bound ∧ ∀ urgent, pending urgent (mkNodes rt' cs) node f = pending urgent (mkNodes rt cs) node f.
Proof.
  intros E Ho. revert rt E. induction Ho as [|o out Hp _ IH]; intros rt E Hpr; [by injection E as <-|].
  cbn [pongs_out] in E. apply bind_Ret_inv in E as (rt1 & E1 & E).
  assert (present (mkNodes rt1 cs) node f bound ∧ ∀ urgent, pending urgent (mkNodes rt1 cs) node f = pending urgent (mkNodes rt cs) node f) as [Hpr1 Hp1].
  { destruct o as [to p e|g]; [|by injection E1 as <-]. cbn [pong_out] in E1. destruct (is_local rt node0 to); [by injection E1 as <-|].
    apply bind_Ret_inv in E1 as ([rt2 r] & E1 & [= <-]). destruct Hp as [-> [id Hb]].
    destruct (send_to_queues _ _ _ _ _ _ _ _ _ _ E1 Hpr) as (Hpr1 & _ & Hr). split; [done|].
    destruct r; [|done]. destruct Hr as (n0 & _ & Hr). intros urgent. rewrite Hr, (pong_adds _ _ _ _ _ id Hb). destruct (_ =? _); by rewrite app_nil_r. }
  destruct (IH rt1 E Hpr1) as [Hpr2 Hp2]. split; [done|]. intros urgent. by rewrite Hp2, Hp1.
Qed.

(** One step moves the queues of a fork by what it logs. *)
Definition queue_moves (bound : list (AddressRange * Address)) (node : Z) (f : Address) (n n' : Net) (l : list LogItem) : Prop :=
  ∀ urgent, pending urgent n node f ++ omap (accepted_one bound urgent node f) l = omap (received_one urgent node f) l ++ pending urgent n' node f.

Lemma forward_moves rt cs to e e' rt' node0 node f bound :
  do_forward rt to e = Ret (rt', Ok tt) → spend_ttl e = Ok e' → lookup_ (registry rt) to = Ret (Some node0) →
  present (mkNodes rt cs) node f bound →
  present (mkNodes rt' cs) node f bound ∧ queue_moves bound node f (mkNodes rt cs) (mkNodes rt' cs) [Accepted node0 to e'].
Proof.
  intros E Ht El Hpr. unfold do_forward in E. rewrite Ht in E.
  destruct (send_to_queues _ _ _ _ _ _ _ _ _ _ E Hpr) as (Hpr' & _ & n1 & El1 & Hp). split; [done|].
  rewrite El in El1. injection El1 as <-. intros urgent. rewrite Hp. cbn [omap list_omap received_one accepted_one app]. f_equal.
  unfold adds. destruct (node0 =? node); [|done]. cbn [andb]. by destruct (_ && _ && _).
Qed.

Lemma load_store mb st permits : load (store mb st permits) st = st.
Proof.
  unfold load, store. destruct st as [pl pr rg fe bs]. cbn. rewrite <- !list_fmap_compose.
  assert (∀ l : list Queued, (queued ∘ unqueue) <$> l = l) as Hid by (intros l; rewrite <- (list_fmap_id l) at 2; apply list_fmap_ext; by intros ? [? ?]).
  by rewrite !Hid.
Qed.

Lemma recv_moves rt cs node0 f0 p permits mb st st' out r rt' node f bound :
  mailboxes rt !! node0 = Some mb → cs !! node0 = Some st →
  recv_pass (is_local rt node0) p f0 (load mb st) = Ret (st', out, r) →
  pongs_out node0 (mkRt (registry rt) (<[node0 := store mb st' permits]> (mailboxes rt))) out = Ret rt' →
  present (mkNodes rt cs) node f bound → lanes_right (mkNodes rt cs) node f →
  present (mkNodes rt' (<[node0 := st']> cs)) node f bound ∧
  queue_moves bound node f (mkNodes rt cs) (mkNodes rt' (<[node0 := st']> cs)) (match r with Ok (Some e) => [Received node0 f0 e] | _ => [] end).
Proof.
  intros Hmb Hst Er Ep Hpr Hl. destruct (recv_pass_pending _ _ _ _ _ _ _ Er) as (B1 & B2 & B3 & B4).
  set (rt1 := mkRt (registry rt) (<[node0 := store mb st' permits]> (mailboxes rt))) in *.
  destruct (decide (node = node0)) as [->|Hne].
  - destruct Hpr as ([mb' Hmb'] & st1 & Hst1 & Hb & Hf). cbn in Hmb', Hst1. rewrite Hmb in Hmb'. injection Hmb' as <-. rewrite Hst in Hst1. injection Hst1 as <-.
    assert (present (mkNodes rt1 (<[node0 := st']> cs)) node0 f bound) as Hpr1.
    { split; cbn; [rewrite lookup_insert_eq; eauto|]. exists st'. rewrite lookup_insert_eq. split; [done|]. split; [by rewrite B1|]. by apply B2. }
    destruct (pongs_out_queues _ _ _ _ _ _ _ _ Ep (recv_pass_pongs _ _ _ _ _ _ _ Er) Hpr1) as [Hpr2 Hp2]. split; [done|].
    intros urgent. rewrite Hp2, (pending_pend urgent (mkNodes rt cs) node0 f mb st Hmb Hst).
    rewrite (pending_pend urgent (mkNodes rt1 (<[node0 := st']> cs)) node0 f (store mb st' permits) st') by (cbn; by rewrite lookup_insert_eq).
    assert (∀ u, Forall (λ e, env_priority e = u) (pend u mb st f)) as Hlu.
    { intros u. rewrite <- (pending_pend u (mkNodes rt cs) node0 f mb st Hmb Hst). apply Hl. }
    pose proof (Hlu true) as Ht. pose proof (Hlu false) as Hf'. unfold pend in *. rewrite load_store.
    destruct (decide (f = f0)) as [->|Hff].
    + destruct r as [[e|]|k]; cbn [omap list_omap accepted_one received_one app]; rewrite ?app_nil_r; [|by destruct B4 as [-> ->]..].
      rewrite !Z.eqb_refl. cbn [andb].
      destruct B4 as [(q & <- & Hq & Hsame)|(q & <- & Hq & Hsame)].
      * rewrite Hq in Ht. apply Forall_cons in Ht as [-> _]. destruct urgent; [by rewrite Hq | by rewrite Hsame].
      * rewrite Hq in Hf'. apply Forall_cons in Hf' as [-> _]. destruct urgent; [by rewrite Hsame | by rewrite Hq].
    + assert (omap (received_one urgent node0 f) (match r with Ok (Some e) => [Received node0 f0 e] | _ => [] end) = []) as ->.
      { destruct r as [[e|]|k]; try done. cbn. rewrite Z.eqb_refl. destruct (Z.eqb_spec f0 f); [congruence | done]. }
      assert (omap (accepted_one bound urgent node0 f) (match r with Ok (Some e) => [Received node0 f0 e] | _ => [] end) = []) as -> by (by destruct r as [[e|]|k]).
      rewrite app_nil_r. cbn [app]. by destruct (B3 f Hff) as [-> ->].
  - assert (present (mkNodes rt1 (<[node0 := st']> cs)) node f bound) as Hpr1.
    { destruct Hpr as (Hm & st1 & Hst1 & Hb). split; [|exists st1]; cbn; by rewrite lookup_insert_ne. }
    destruct (pongs_out_queues _ _ _ _ _ _ _ _ Ep (recv_pass_pongs _ _ _ _ _ _ _ Er) Hpr1) as [Hpr2 Hp2]. split; [done|].
    intros urgent. rewrite Hp2. unfold pending. cbn [rt1 api contexts mailboxes]. rewrite !lookup_insert_ne by done.
    destruct r as [[e|]|k]; cbn [omap list_omap accepted_one received_one app]; rewrite ?app_nil_r; try done.
    by destruct (Z.eqb_spec node0 node); [congruence|].
Qed.

Lemma fork_moves rt cs node0 st st' l node f bound :
  cs !! node0 = Some st → fork_ st = Ret (st', Ok l) → present (mkNodes rt cs) node f bound →
  present (mkNodes rt (<[node0 := st']> cs)) node f bound ∧ queue_moves bound node f (mkNodes rt cs) (mkNodes rt (<[node0 := st']> cs)) [].
Proof.
  intros Hst Ef Hpr. unfold fork_ in Ef. apply bind_Ret_inv in Ef as ([pool r] & _ & Ef). destruct r as [l'|]; [|done].
  apply bind_Ret_inv in Ef as (u & Ha%assert_Ret_inv%bool_decide_eq_true & [= <- <-]).
  destruct Hpr as (Hm & st1 & Hst1 & Hb & Hf). cbn in Hm, Hst1. destruct (decide (node = node0)) as [->|Hne].
  - rewrite Hst in Hst1. injection Hst1 as <-. assert (f ≠ address (net_address l')) as Hfl by (intros ->; destruct Hf; congruence).
    split.
    + split; [done|]. eexists. cbn. rewrite lookup_insert_eq. split; [done|]. split; [done|]. cbn. by rewrite lookup_insert_ne.
    + intros urgent. cbn [omap list_omap app]. rewrite app_nil_r. unfold pending. cbn. rewrite Hst, lookup_insert_eq.
      destruct (mailboxes rt !! node0) as [mb|]; [|done]. unfold pending_priority, pending_regular. cbn. by rewrite lookup_insert_ne.
  - split.
    + split; [done|]. exists st1. cbn. by rewrite lookup_insert_ne.
    + intros urgent. cbn [omap list_omap app]. rewrite app_nil_r. unfold pending. cbn. by rewrite lookup_insert_ne.
Qed.

Lemma dstep_moves n l n' node f bound :
  dstep n l n' → present n node f bound → lanes_right n node f → present n' node f bound ∧ queue_moves bound node f n n' l.
Proof.
  destruct 1 as [rt cs e e' rt' node0 E Ht El|rt cs to e e' rt' node0 E Ht El|rt cs to e rt' k E|rt cs node0 f0 p permits mb st st' out r rt' Hmb Hst Er Ep
    |rt cs node0 st st' l Hst Ef|rt cs node0 mb permits Hmb]; intros Hpr Hl.
  - apply (forward_moves rt cs (env_to e) e e' rt' node0); try done. unfold do_send in E. unfold do_forward. rewrite Ht in *.
    unfold spend_ttl in Ht. destruct (ttl e =? 0); [done|]. by injection Ht as <-.
  - by apply (forward_moves rt cs to e e' rt' node0).
  - unfold do_forward in E. destruct (spend_ttl e) as [e'|]; [|injection E as <- <-; split; [done|]; intros urgent; cbn; by rewrite app_nil_r].
    destruct (send_to_queues _ _ _ _ _ _ _ _ _ _ E Hpr) as (Hpr' & _ & Hp). split; [done|]. intros urgent. cbn. by rewrite app_nil_r, Hp.
  - by apply (recv_moves rt cs node0 f0 p permits mb st st' out r rt').
  - by apply (fork_moves rt cs node0 st st' l).
  - destruct Hpr as (Hm & Hst). split; [split; [cbn; rewrite lookup_insert_is_Some'; by right | done]|].
    intros urgent. cbn [omap list_omap app]. rewrite app_nil_r. unfold pending. cbn. destruct (decide (node = node0)) as [->|Hne]; [|by rewrite lookup_insert_ne].
    by rewrite Hmb, lookup_insert_eq.
Qed.

Lemma moves_lanes bound node f n n' l : queue_moves bound node f n n' l → lanes_right n node f → lanes_right n' node f.
Proof.
  intros Hm Hl urgent. assert (Forall (λ e, env_priority e = urgent) (pending urgent n node f ++ omap (accepted_one bound urgent node f) l)) as Hall.
  { apply Forall_app. split; [apply Hl|]. apply Forall_forall. intros e (i & _ & Hi)%list_elem_of_omap. destruct i as [n0 to e0|]; [|done].
    cbn in Hi. destruct (_ && _) eqn:E in Hi; [|done]. injection Hi as <-. apply andb_prop in E as [[_ E]%andb_prop _]. by apply Bool.eqb_prop. }
  rewrite Hm in Hall. by apply Forall_app in Hall as [_ ?].
Qed.

Lemma delivery_ok n log n' node f bound :
  dsteps n log n' → present n node f bound → lanes_right n node f → queue_moves bound node f n n' log.
Proof.
  induction 1 as [n|n1 l1 n2 l2 n3 Hs _ IH]; intros Hpr Hl; [intros urgent; cbn; by rewrite app_nil_r|].
  destruct (dstep_moves _ _ _ _ _ _ Hs Hpr Hl) as [Hpr2 Hm]. pose proof (moves_lanes _ _ _ _ _ _ Hm Hl) as Hl2. specialize (IH Hpr2 Hl2).
  intros urgent. rewrite !omap_app, app_assoc, Hm, <- app_assoc, IH. by rewrite app_assoc.
Qed.

(** C3: Messages are delivered in order, none twice and none lost: over any run of sends, forwards, receives and forks of all the
    actors of a node, what a fork has received on a lane followed by what is still pending for it is what was pending before
    followed by what was accepted for it, in the order of acceptance. This holds for the urgent and for the ordinary lane, whichever
    forks did the sorting, for a fork that is there with its mailbox and whose lanes at the start each hold messages of their own kind, as all steps keep it. *)
Theorem delivery_in_order n log n' node f bound :
  dsteps n log n' → present n node f bound → lanes_right n node f →
  ∀ urgent, pending urgent n node f ++ omap (accepted_one bound urgent node f) log =
    omap (received_one urgent node f) log ++ pending urgent n' node f.
Proof. apply delivery_ok. Qed.
End Delivery.

(** ** Example: two messages, and one of them received *)
Section Examples.
#[local] Existing Instance list_tree_index.

Definition ex_fork : Address := 0xFF00000000000005.
Definition ex_ctx : SubnetContext (M := Z) := mkSubnet (subnet_pool two_forks) [] [] {[ex_fork := fork_default]} [].
Definition ex_n0 : Net (M := Z) (TI := ListIndex) := mkNodes (mkRt one_net {[1 := node_new 4]}) {[1 := ex_ctx]}.
Definition ex_msg (m : Z) : Envelope (M := Z) := envelope_new ex_fork false (User m).
Definition ex_spent (m : Z) : Envelope (M := Z) := mkEnvelope ex_fork 14 false (User m).
Definition ex_send (m : Z) (n : Net (M := Z) (TI := ListIndex)) : Net :=
  match do_send (api n) (ex_msg m) with Ret (rt, _) => mkNodes rt (contexts n) | Panic => n end.
Definition ex_n2 : Net := ex_send 8 (ex_send 7 ex_n0).
Definition ex_mb : Mailbox := default (node_new 0) (mailboxes (api ex_n2) !! 1).
Definition ex_recv := recv_pass (is_local (api ex_n2) 1) (mkPass 9 9 false false) ex_fork (load ex_mb ex_ctx).
Definition ex_st : SubnetContext (M := Z) := match ex_recv with Ret (st, _, _) => st | Panic => ex_ctx end.
Definition ex_n3 : Net := mkNodes (mkRt one_net (<[1 := store ex_mb ex_st 3]> (mailboxes (api ex_n2)))) (<[1 := ex_st]> (contexts ex_n2)).
Definition ex_log : list (LogItem (M := Z)) := [Accepted 1 ex_fork (ex_spent 7)] ++ [Accepted 1 ex_fork (ex_spent 8)] ++ [Received 1 ex_fork (ex_spent 7)] ++ [].

Lemma ex_run : dsteps ex_n0 ex_log ex_n3.
Proof.
  eapply dsteps_cons; [eapply (DSend _ _ (ex_msg 7) (ex_spent 7) _ 1); vm_compute; reflexivity|].
  eapply dsteps_cons; [eapply (DSend _ _ (ex_msg 8) (ex_spent 8) _ 1); vm_compute; reflexivity|].
  eapply dsteps_cons; [|apply dsteps_nil].
  eapply (DRecv (api ex_n2) (contexts ex_n2) 1 ex_fork (mkPass 9 9 false false) 3 ex_mb ex_ctx ex_st _ (Ok (Some (ex_spent 7)))); vm_compute; reflexivity.
Qed.

Lemma delivery_in_order_witness : pending false ex_n3 1 ex_fork = [ex_spent 8] ∧
  ∀ urgent, pending urgent ex_n0 1 ex_fork ++ omap (accepted_one [] urgent 1 ex_fork) ex_log =
    omap (received_one urgent 1 ex_fork) ex_log ++ pending urgent ex_n3 1 ex_fork.
Proof.
  split; [vm_compute; reflexivity|]. apply (delivery_in_order ex_n0 ex_log ex_n3 1 ex_fork []).
  - exact ex_run.
  - split; [by eexists|]. exists ex_ctx. split; [reflexivity|]. split; [reflexivity|]. by eexists.
  - intros []; constructor.
Defined.
End Examples.
