(* ===== verification/Ping.v ===== *)
(** * Pinging (core/mm1-node/src/runtime/context/impl_context_api.rs, [Ping::ping])

    A fork sends a ping with a random id and sorts the incoming messages until the pong is there. Of the pongs for a fork only
    the last one is remembered. *)

From S2P Require Import Prelude U64 Address Subnet Restart Trie Pool Registry Context.

Open Scope Z_scope.

Section Ping.
Context {M : Type} {TI : Type → Type} `{TreeIndex TI}.
Implicit Types (st : SubnetContext (M := M)) (q : Queued (M := M)).

Inductive PingErrorKind := PingTimeout | PingSend | PingRecv.

(** [now.checked_add(timeout).unwrap_or(now)] *)
Definition ping_deadline (now : Instant) (timeout : Duration) : Instant := default now (instant_checked_add now timeout).

(** The moments at which the wait looks up: whether the mailbox or another fork has notified this one by then, which branch of the
    [select!] is taken if the time is up too, what other forks have sorted meanwhile, and what has arrived. *)
Record Moment := mkMoment { at_ : Instant; notified : bool; timeout_first : bool; others : list (Arrival (M := M)); arrival : Arrival (M := M) }.

(** What the other forks do to the shared state in their turns of [recv] *)
Fixpoint pass_others (local : Address → bool) st (l : list Arrival) : outcome (SubnetContext * list Out) :=
  match l with
  | [] => Ret (st, [])
  | a :: l =>
      '(st, out, _) ← process_inlets local (pass a) (arrive st a);
      '(st, out') ← pass_others local st l;
      Ret (st, out ++ out')
  end.

(** The locked part of one turn: whether the pong is there *)
Definition ping_pass (local : Address → bool) (p : Pass) (fork : Address) (ping_id : Z) st :
    outcome (SubnetContext * list Out * result bool RecvErrorKind) :=
  '(st, out, r) ← process_inlets local p st;
  match r with
  | Err e => Ret (st, out, Err e)
  | Ok _ =>
      e ← expect (fork_entries st !! fork);
      Ret (st, out, Ok (bool_decide (last_ping_received e = Some ping_id)))
  end.

(** The loop of [ping] *)
Fixpoint ping_loop (local : Address → bool) (fork : Address) (ping_id : Z) (now deadline : Instant) st (moments : list Moment) :
    outcome (SubnetContext * list Out * option (result Duration PingErrorKind)) :=
  match moments with
  | [] => Ret (st, [], None)
  | m :: moments =>
      '(st, out0) ← pass_others local st (others m);
      if (deadline <=? at_ m) && (negb (notified m) || timeout_first m) then Ret (st, out0, Some (Err PingTimeout))
      else if notified m then
        '(st, out1, r) ← ping_pass local (pass (arrival m)) fork ping_id (arrive st (arrival m));
        match r with
        | Err _ => Ret (st, out0 ++ out1, Some (Err PingRecv))
        | Ok true => Ret (st, out0 ++ out1, Some (Ok (saturating_duration_since (at_ m) now)))
        | Ok false =>
            '(st, out2, r) ← ping_loop local fork ping_id now deadline st moments;
            Ret (st, out0 ++ out1 ++ out2, r)
        end
      else
        '(st, out2, r) ← ping_loop local fork ping_id now deadline st moments;
        Ret (st, out0 ++ out2, r)
  end.

(** [Ping::ping]: [ping_id] is the random id. *)
Definition ping (rt : RtApi (M := M) (TI := TI)) (local : Address → bool) (fork : Address) (ping_id : Z) (now : Instant) (address : Address) (timeout : Duration)
    st (moments : list Moment) : outcome (RtApi (M := M) (TI := TI) * SubnetContext * list Out * option (result Duration PingErrorKind)) :=
  expect (fork_entries st !! fork);;
  '(rt, sent) ← send_to rt address true (envelope_new address true (Ping (Some fork) ping_id));
  match sent with
  | Err _ => Ret (rt, st, [], Some (Err PingSend))
  | Ok _ =>
      '(st, out, r) ← ping_loop local fork ping_id now (ping_deadline now timeout) st moments;
      Ret (rt, st, out, r)
  end.

(** ** What a pass makes of the pongs *)
Definition pong_id (bound : list (AddressRange * Address)) (f : Address) q : option Z :=
  match body (q_message q) with
  | Ping None id => if bool_decide (dest bound (q_to q) = f) then Some id else None
  | _ => None
  end.

Definition pings (id : Z) q : Prop := match body (q_message q) with Ping _ i => i = id | User _ => False end.

Definition last_ping st (f : Address) : option Z := e ← fork_entries st !! f; last_ping_received e.

(** How one state follows another while messages of the priority lane are sorted: [taken] of them are, among them replies of this very
    node, which joined the lane *)
Record pong_step st st' (f : Address) (taken replies : list Queued) : Prop := {
  ps_lane : rx_priority st ++ replies = taken ++ rx_priority st';
  ps_replies : Forall (λ r, ∃ q id, q ∈ rx_priority st ∧ pings id q ∧ pings id r) replies;
  ps_last : last_ping st' f = or_ (last (omap (pong_id (bound_subnets st) f) taken)) (last_ping st f);
  ps_bound : bound_subnets st' = bound_subnets st;
  ps_fork : is_Some (fork_entries st !! f) → is_Some (fork_entries st' !! f);
}.

Lemma or_assoc (x y z : option Z) : or_ x (or_ y z) = or_ (or_ x y) z.
Proof. by destruct x. Qed.

Lemma last_app_or (l l' : list Z) : last (l ++ l') = or_ (last l') (last l).
Proof. destruct l' as [|x l'] using rev_ind; [by rewrite app_nil_r|]. rewrite app_assoc, !last_snoc. done. Qed.

Lemma pings_inj q id j : pings id q → pings j q → id = j.
Proof. unfold pings. destruct (body (q_message q)); [by intros <- <-|done]. Qed.

Lemma pong_step_trans st1 st2 st3 f t1 t2 r1 r2 : pong_step st1 st2 f t1 r1 → pong_step st2 st3 f t2 r2 → pong_step st1 st3 f (t1 ++ t2) (r1 ++ r2).
Proof.
  intros [L1 R1 A1 B1 F1] [L2 R2 A2 B2 F2]. split.
  - rewrite app_assoc, L1, <- !app_assoc. by rewrite L2.
  - apply Forall_app. split; [done|]. rewrite Forall_forall in R1. eapply Forall_impl; [exact R2|]. cbn. intros r (q & id & Hq & Hp & Hr).
    assert (Hq' : q ∈ rx_priority st1 ++ r1) by (rewrite L1; set_solver). apply elem_of_app in Hq' as [Hq'|Hq']; [by exists q, id|].
    destruct (R1 q Hq') as (q' & j & Hq1 & Hj & Hj'). rewrite <- (pings_inj _ _ _ Hp Hj') in Hj. by exists q', id.
  - rewrite A2, A1, B1, omap_app, last_app_or. apply or_assoc.
  - congruence.
  - auto.
Qed.

Lemma sort_priority_pong local st n q l f st' n' out : rx_priority st = q :: l → is_Some (fork_entries st !! f) →
  sort_priority local (set_lanes st l (rx_regular st)) n q = Ret (st', n', out) → ∃ replies, pong_step st st' f [q] replies.
Proof.
  intros Hl Hf. unfold sort_priority. cbn [set_lanes bound_subnets fork_entries rx_priority rx_regular]. rewrite message_to_dest, bind_Ret.
  set (g := dest (bound_subnets st) (q_to q)). destruct (fork_entries st !! g) as [e|] eqn:Eg.
  - destruct (body (q_message q)) as [[r|] id|m] eqn:Eb.
    + intros [= <- _ _]. exists (if local r then [mkQueued r (envelope_new r true (Ping None id))] else []).
      assert (Hn : pong_id (bound_subnets st) f q = None) by (unfold pong_id; by rewrite Eb).
      destruct (local r); split; try done; try (cbn; by rewrite Hl); try (cbn; by rewrite Hn, Hl).
      all: try (cbn; by rewrite Hn). all: try (cbn; by rewrite Hl, app_nil_r). constructor; [|done]. exists q, id. split_and!; [rewrite Hl; set_solver|unfold pings; by rewrite Eb|done].
    + destruct (notify true n g) as [n1 o1]. intros [= <- _ _]. exists []. split; try done; cbn.
      * by rewrite Hl, app_nil_r.
      * unfold last_ping, pong_id. cbn. rewrite Eb. fold g. case_bool_decide as E; [subst f; by rewrite lookup_insert_eq|by rewrite lookup_insert_ne].
      * intros _. destruct (decide (g = f)) as [->|]; [rewrite lookup_insert_eq|rewrite lookup_insert_ne]; done.
    + destruct (notify true n g) as [n1 o1]. intros [= <- _ _]. exists []. split; try done; cbn.
      * by rewrite Hl, app_nil_r.
      * unfold last_ping, pong_id. cbn. rewrite Eb. cbn. destruct (decide (g = f)) as [->|]; [by rewrite lookup_insert_eq, Eg|by rewrite lookup_insert_ne].
      * intros _. destruct (decide (g = f)) as [->|]; [rewrite lookup_insert_eq|rewrite lookup_insert_ne]; done.
  - intros [= <- _ _]. exists []. split; try done; cbn.
    + by rewrite Hl, app_nil_r.
    + assert (Hn : pong_id (bound_subnets st) f q = None); [|by rewrite Hn]. unfold pong_id. fold g. destruct (body (q_message q)) as [[]|]; try done.
      rewrite bool_decide_false; [done|]. intros ->. destruct Hf as [? Hf]. congruence.
Qed.

Lemma priority_loop_pong local f k : ∀ st n st' n' out, is_Some (fork_entries st !! f) → priority_loop local k st n = Ret (st', n', out) →
  ∃ taken replies, pong_step st st' f taken replies.
Proof.
  assert (Hnil : ∀ st, pong_step st st f [] []) by (intros st; split; cbn; [by rewrite app_nil_r|constructor|done|done|done]).
  induction k as [|k IH]; intros st n st' n' out Hf; cbn [priority_loop].
  - intros [= <- _ _]. eauto.
  - destruct (rx_priority st) as [|q l] eqn:El; [intros [= <- _ _]; eauto|].
    intros ([[st1 n1] o1] & E1 & ([[st2 n2] o2] & E2 & [= <- _ _])%bind_Ret_inv)%bind_Ret_inv.
    destruct (sort_priority_pong _ _ _ _ _ _ _ _ _ El Hf E1) as [r1 P1]. destruct (IH _ _ _ _ _ (ps_fork _ _ _ _ _ P1 Hf) E2) as (t2 & r2 & P2).
    eexists _, _. by eapply pong_step_trans.
Qed.

Lemma regular_loop_pong f k : ∀ st n st' n' out, regular_loop k st n = Ret (st', n', out) →
  rx_priority st' = rx_priority st ∧ bound_subnets st' = bound_subnets st ∧ last_ping st' f = last_ping st f ∧
  (is_Some (fork_entries st !! f) → is_Some (fork_entries st' !! f)).
Proof.
  induction k as [|k IH]; intros st n st' n' out; cbn [regular_loop]; [by intros [= <- _ _]|].
  destruct (rx_regular st) as [|q l] eqn:El; [by intros [= <- _ _]|].
  intros ([[st1 n1] o1] & E1 & ([[st2 n2] o2] & E2 & [= <- _ _])%bind_Ret_inv)%bind_Ret_inv.
  destruct (IH _ _ _ _ _ E2) as (Hp & Hb & Hi & Hf). revert E1. unfold sort_regular. cbn [set_lanes bound_subnets fork_entries rx_priority].
  rewrite message_to_dest, bind_Ret. set (g := dest (bound_subnets st) (q_to q)). destruct (fork_entries st !! g) as [e|] eqn:Eg.
  - destruct (notify true n g). intros [= <- _ _]. rewrite Hp, Hb, Hi. split_and!; [done|done| |].
    + unfold last_ping. cbn. destruct (decide (g = f)) as [->|]; [by rewrite lookup_insert_eq, Eg|by rewrite lookup_insert_ne].
    + intros H'. apply Hf. cbn. destruct (decide (g = f)) as [->|]; [rewrite lookup_insert_eq|rewrite lookup_insert_ne]; done.
  - intros [= <- _ _]. rewrite Hp, Hb, Hi. done.
Qed.

(** A pass remembers the last pong it takes, if it takes any. *)
Lemma process_inlets_pong local p f st st' out r : is_Some (fork_entries st !! f) → process_inlets local p st = Ret (st', out, r) →
  ∃ taken replies, pong_step st st' f taken replies.
Proof.
  intros Hf. unfold process_inlets. intros ([[st1 n1] o1] & E1 & E)%bind_Ret_inv.
  destruct (priority_loop_pong _ _ _ _ _ _ _ _ Hf E1) as (taken & replies & P). exists taken, replies.
  destruct (priority_closed p); [by injection E as <- _ _|]. apply bind_Ret_inv in E as ([[st2 n2] o2] & E2 & [= <- _ _]).
  destruct (regular_loop_pong f _ _ _ _ _ _ E2) as (Hp & Hb & Hi & Hk). destruct P as [L R A B F]. split; [by rewrite Hp|done|congruence|congruence|auto].
Qed.

(** ** When a ping is answered *)

(** A message with the id is in the lane or was the last pong *)
Definition heard (id : Z) (f : Address) st : Prop := Exists (pings id) (rx_priority st) ∨ last_ping st f = Some id.

Lemma pong_pings bound f q id : pong_id bound f q = Some id → pings id q.
Proof. unfold pong_id, pings. destruct (body (q_message q)) as [[]|]; try done. case_bool_decide; [by intros [= ->]|done]. Qed.

Lemma pong_step_heard id f st st' taken replies : pong_step st st' f taken replies → heard id f st' → heard id f st.
Proof.
  intros [L R A B F] Hh.
  assert (Hin : ∀ q, q ∈ taken ++ rx_priority st' → pings id q → Exists (pings id) (rx_priority st)).
  { intros q Hq Hp. rewrite <- L in Hq. apply elem_of_app in Hq as [Hq|Hq]; [apply Exists_exists; eauto|].
    rewrite Forall_forall in R. destruct (R q Hq) as (q' & j & Hq' & Hj & Hj'). rewrite <- (pings_inj _ _ _ Hp Hj') in Hj. apply Exists_exists. eauto. }
  destruct Hh as [(q & Hq & Hp)%Exists_exists|Hl]; [left; eapply Hin; [|done]; set_solver|]. rewrite A in Hl.
  destruct (last _) as [j|] eqn:E; cbn in Hl; [|by right]. simplify_eq. left. apply last_Some in E as [l E].
  assert (Hid : id ∈ omap (pong_id (bound_subnets st) f) taken) by (rewrite E; set_solver).
  apply list_elem_of_omap in Hid as (q & Hq & Hid). eapply Hin; [|by eapply pong_pings]. set_solver.
Qed.

(** An arrival brings a message with the id *)
Definition brings (id : Z) (a : Arrival) : Prop := Exists (pings id) (to_priority a).

Lemma heard_arrive id f st a : heard id f (arrive st a) → heard id f st ∨ brings id a.
Proof. unfold heard, brings, arrive. cbn. rewrite Exists_app. unfold last_ping. cbn. tauto. Qed.

Lemma pass_others_ok local id f l : ∀ st st' out, is_Some (fork_entries st !! f) → pass_others local st l = Ret (st', out) →
  is_Some (fork_entries st' !! f) ∧ (heard id f st' → heard id f st ∨ Exists (brings id) l).
Proof.
  induction l as [|a l IH]; intros st st' out Hf; cbn [pass_others]; [by intros [= <- _]; auto|].
  intros ([[st1 o1] r] & E1 & ([st2 o2] & E2 & [= <- _])%bind_Ret_inv)%bind_Ret_inv.
  destruct (process_inlets_pong _ _ f (arrive st a) _ _ _ Hf E1) as (t & rp & P). destruct (IH _ _ _ (ps_fork _ _ _ _ _ P Hf) E2) as [Hf2 Hh].
  split; [done|]. intros [H1|H1]%Hh; [|by right; right]. apply (pong_step_heard _ _ _ _ _ _ P), heard_arrive in H1 as [H1|H1]; [by left|by right; left].
Qed.

Definition moment_brings (id : Z) (m : Moment) : Prop := Exists (brings id) (others m) ∨ brings id (arrival m).

Lemma ping_loop_ok local f id now deadline ms : ∀ st st' out d, is_Some (fork_entries st !! f) →
  ping_loop local f id now deadline st ms = Ret (st', out, Some (Ok d)) →
  (heard id f st ∨ Exists (moment_brings id) ms) ∧ ∃ m, m ∈ ms ∧ d = saturating_duration_since (at_ m) now.
Proof.
  induction ms as [|m ms IH]; intros st st' out d Hf; cbn [ping_loop]; [done|]. intros ([st1 o1] & E1 & E)%bind_Ret_inv.
  destruct (pass_others_ok _ id f _ _ _ _ Hf E1) as [Hf1 Hh1]. destruct (_ && _); [done|]. destruct (notified m).
  - apply bind_Ret_inv in E as ([[st2 o2] r] & E2 & E). unfold ping_pass in E2. apply bind_Ret_inv in E2 as ([[st3 o3] r3] & E3 & E2).
    destruct (process_inlets_pong _ _ f (arrive st1 (arrival m)) _ _ _ Hf1 E3) as (t & rp & P). pose proof (ps_fork _ _ _ _ _ P Hf1) as Hf3.
    assert (Hback : heard id f st3 → heard id f st ∨ moment_brings id m).
    { intros H3. apply (pong_step_heard _ _ _ _ _ _ P), heard_arrive in H3 as [[H3|H3]%Hh1|H3]; [by left|right; by left|right; by right]. }
    destruct r3 as [[]|]; [|by injection E2 as <- <- <-]. destruct Hf3 as [e He]. rewrite He in E2. cbn in E2. injection E2 as <- <- <-.
    case_bool_decide as Hl.
    + injection E as _ _ <-. split; [|exists m; split; [left|done]].
      destruct Hback as [Hb|Hb]; [right; unfold last_ping; by rewrite He|by left|right; by left].
    + apply bind_Ret_inv in E as ([[st4 o4] r4] & E4 & [= <- _ ->]). destruct (IH _ _ _ _ (mk_is_Some _ _ He) E4) as [H4 (m' & Hm' & ->)].
      split; [|exists m'; split; [by right|done]]. destruct H4 as [[Hb|Hb]%Hback|H4]; [by left|right; by left|right; by right].
  - apply bind_Ret_inv in E as ([[st4 o4] r4] & E4 & [= <- _ ->]). destruct (IH _ _ _ _ Hf1 E4) as [H4 (m' & Hm' & ->)].
    split; [|exists m'; split; [by right|done]]. destruct H4 as [[Hb|Hb]%Hh1|H4]; [by left|right; left; by left|right; by right].
Qed.

(** A ping that succeeds was answered: a message with its random id has come since it was sent, whichever fork sorted it, unless the last
    pong before had this very id; and the time it reports is the time that passed. *)
Theorem ping_answered rt local f id now address timeout st ms rt' st' out d
    (E : ping rt local f id now address timeout st ms = Ret (rt', st', out, Some (Ok d))) :
  (heard id f st ∨ Exists (moment_brings id) ms) ∧ ∃ m, m ∈ ms ∧ d = saturating_duration_since (at_ m) now.
Proof.
  unfold ping in E. apply bind_Ret_inv in E as (e & He & ([rt1 [[]|]] & _ & E)%bind_Ret_inv); [|done].
  apply bind_Ret_inv in E as ([[st1 o1] r] & E & [= _ <- _ ->]). eapply ping_loop_ok; [|done].
  destruct (fork_entries st !! f); [done|discriminate].
Qed.

(** And one whose pong is the last that a pass takes is noticed in that pass. *)
Theorem ping_noticed local p f id st : is_Some (fork_entries st !! f) → priority_closed p = false → regular_closed p = false →
  (work (rx_priority st) ≤ n_priority p)%nat → (length (rx_regular st) ≤ n_regular p)%nat →
  ∃ st' out replies, Forall (λ r, ∃ q j, q ∈ rx_priority st ∧ pings j q ∧ pings j r) replies ∧
    ping_pass local p f id st = Ret (st', out, Ok (bool_decide
      (or_ (last (omap (pong_id (bound_subnets st) f) (rx_priority st ++ replies))) (last_ping st f) = Some id))).
Proof.
  intros Hf Hp Hr Hn1 Hn2. destruct (process_inlets_sorted local p st) as (st' & n & out & r & E & _ & Hok & Hall).
  destruct (process_inlets_pong _ _ f _ _ _ _ Hf E) as (taken & replies & P). destruct (ps_fork _ _ _ _ _ P Hf) as [e He].
  assert (r = Ok tt) as -> by (by apply Hok). destruct (Hall eq_refl Hn1 Hn2) as [Hl _]. exists st', out, replies. split; [by eapply ps_replies|].
  unfold ping_pass. rewrite E. cbn [mbind outcome_bind]. rewrite He. cbn. pose proof (ps_lane _ _ _ _ _ P) as HL. rewrite Hl, app_nil_r in HL.
  rewrite HL, <- (ps_last _ _ _ _ _ P). unfold last_ping. by rewrite He.
Qed.
End Ping.

(** ** Examples *)
Section Examples.
#[local] Existing Instance list_tree_index.

Definition pong (to id : Z) : Queued (M := Z) := mkQueued to (envelope_new to true (Ping None id)).
Definition one_fork : SubnetContext (M := Z) := mkSubnet (mkShared Trie.empty Trie.empty) [] [] {[5 := fork_default]} [].
Definition all_of (l : list (Queued (M := Z))) : Arrival (M := Z) := mkArrival l [] (mkPass 9 9 false false).
Definition quiet : Arrival (M := Z) := mkArrival [] [] (mkPass 0 0 false false).

(** The pong comes 30 nanoseconds later, and another fork sorts it. *)
Definition pinging (ms : list (Moment (M := Z))) := ping rt1 own 5 77 100 0xFF00000000000005 1000 one_fork ms.

Lemma ping_answered_witness : ∃ rt' st' out, pinging [mkMoment 130 true false [all_of [pong 5 77]] quiet] = Ret (rt', st', out, Some (Ok 30)) ∧
  (heard 77 5 one_fork ∨ Exists (moment_brings 77) [mkMoment 130 true false [all_of [pong 5 77]] quiet]).
Proof.
  assert (∃ rt' st' out, pinging [mkMoment 130 true false [all_of [pong 5 77]] quiet] = Ret (rt', st', out, Some (Ok 30))) as (rt' & st' & out & E).
  { vm_compute. eexists _, _, _. reflexivity. }
  exists rt', st', out. split; [exact E|]. exact (proj1 (ping_answered _ _ _ _ _ _ _ _ _ _ _ _ _ E)).
Defined.

Lemma ping_noticed_witness : ∃ st' out replies,
  ping_pass own whole_pass 5 77 (arrive one_fork (all_of [pong 5 77])) = Ret (st', out, Ok (bool_decide
    (or_ (last (omap (pong_id [] 5) ([pong 5 77] ++ replies))) None = Some 77))).
Proof.
  destruct (ping_noticed own whole_pass 5 77 (arrive one_fork (all_of [pong 5 77]))) as (st' & out & replies & _ & E);
    [vm_compute; eauto|reflexivity|reflexivity|vm_compute; lia|vm_compute; lia|].
  exists st', out, replies. exact E.
Defined.

(** The late pong of an earlier ping that comes right after the pong takes its place: the ping was answered in time and still fails. *)
Lemma late_pong_hides : ∃ rt' st' out,
  pinging [mkMoment 130 true false [] (all_of [pong 5 77; pong 5 76]); mkMoment 1100 false false [] quiet] = Ret (rt', st', out, Some (Err PingTimeout)).
Proof. vm_compute. eexists _, _, _. reflexivity. Qed.
End Examples.

(** A timeout beyond the end of the clock leaves no time at all. *)
Lemma boundless_ping_times_out {M : Type} local f id now timeout (st : SubnetContext (M := M)) m ms : instant_checked_add now timeout = None → now ≤ at_ m →
  notified m = false → others m = [] → ping_loop local f id now (ping_deadline now timeout) st (m :: ms) = Ret (st, [], Some (Err PingTimeout)).
Proof.
  intros E Hat Hn Ho. unfold ping_deadline. rewrite E. cbn [ping_loop default]. rewrite Ho, Hn. cbn. by rewrite (proj2 (Z.leb_le _ _) Hat).
Qed.
