(* ===== verification/Tasks.v ===== *)
(** * The registry of container tasks (core/mm1-node/src/runtime/task_registry.rs,
    and the shutdown of runtime/rt_api.rs)

    Every container runs as a task. A spawn first reserves a permit, then turns it
    into a tracked task, unless the registry has been closed in between; the task's
    guard takes it off the books when it ends, however it ends. Each operation
    holds the registry's lock, so runs are sequences of operations. *)

From S2P Require Import Prelude U64 Address.

Open Scope Z_scope.

(** [struct Inner] and [struct State] *)
Record Inner := mkInner {
  closing : bool;
  next_task_id : Z;
  pending_spawns : Z;
  tasks : gmap Z Address;
}.

Definition registry_new : Inner := mkInner false 0 0 ∅.

Definition set_pending (st : Inner) (n : Z) : Inner := mkInner (closing st) (next_task_id st) n (tasks st).

(** [pending_spawns -= 1], which panics below zero *)
Definition one_less (st : Inner) : outcome Inner :=
  assert_ (1 <=? pending_spawns st);; Ret (set_pending st (pending_spawns st - 1)).

(** [reserve_spawn]: whether a permit is given. *)
Definition reserve_spawn (st : Inner) : Inner * bool :=
  if closing st then (st, false) else (set_pending st (pending_spawns st + 1), true).

Definition close (st : Inner) : Inner := mkInner true (next_task_id st) (pending_spawns st) (tasks st).

Definition addresses (st : Inner) : list Address := (map_to_list (tasks st)).*2.

Definition is_empty (st : Inner) : bool := (pending_spawns st =? 0) && (size (tasks st) =? 0)%nat.

Inductive SpawnRejected := SpawnRejected_.

(** [SpawnPermit::spawn_on]; [started] tells whether the new task is still there to
    be told to start. The permit is no longer pending afterwards. *)
Definition spawn_on (st : Inner) (address : Address) (started : bool) :
  outcome (Inner * result unit SpawnRejected) :=
  if closing st then st ← one_less st; Ret (st, Err SpawnRejected_)
  else
    let task_id := next_task_id st in
    assert_ (bool_decide (tasks st !! task_id = None));;
    let st := mkInner (closing st) (u64_wrapping_add task_id 1) (pending_spawns st) (<[task_id := address]> (tasks st)) in
    st ← one_less st;
    Ret (st, if started then Ok tt else Err SpawnRejected_).

(** [<SpawnPermit as Drop>::drop] *)
Definition permit_drop (st : Inner) (pending : bool) : outcome Inner :=
  if pending then one_less st else Ret st.

(** [<CompletionGuard as Drop>::drop]: the state, and whether a waiter is told. *)
Definition guard_drop (st : Inner) (task_id : Z) : Inner * bool :=
  (mkInner (closing st) (next_task_id st) (pending_spawns st) (delete task_id (tasks st)),
   bool_decide (is_Some (tasks st !! task_id))).

(** [RtApi::shutdown]: [killing] and [aborting] are the states when the first and the
    second wait end. *)
Inductive Act := Close | Kill (address : Address) | AbortAll.

Definition shutdown (killing aborting : Inner) : list Act :=
  Close ::
  if is_empty killing then []
  else (Kill <$> addresses killing) ++ if is_empty aborting then [] else [AbortAll].

(** ** Runs: the registry, the pending permits and the guards at large *)
Record Sys := mkSys { inner : Inner; permits : nat; guards : gset Z; spawned : nat }.

Inductive Op := OpReserve | OpClose | OpSpawn (address : Address) (started : bool) | OpPermitDrop | OpGuardDrop (task_id : Z).

(** A permit is used by its holder, and a guard dropped by its task. *)
Definition enabled (s : Sys) (op : Op) : Prop :=
  match op with
  | OpReserve | OpClose => True
  | OpSpawn _ _ | OpPermitDrop => (0 < permits s)%nat
  | OpGuardDrop id => id ∈ guards s
  end.

Definition run_op (s : Sys) (op : Op) : outcome Sys :=
  match op with
  | OpReserve =>
      let '(st, given) := reserve_spawn (inner s) in
      Ret (mkSys st (if given then S (permits s) else permits s) (guards s) (spawned s))
  | OpClose => Ret (mkSys (close (inner s)) (permits s) (guards s) (spawned s))
  | OpSpawn a started =>
      '(st, _) ← spawn_on (inner s) a started;
      Ret (if closing (inner s) then mkSys st (pred (permits s)) (guards s) (spawned s)
           else mkSys st (pred (permits s)) ({[next_task_id (inner s)]} ∪ guards s) (S (spawned s)))
  | OpPermitDrop => st ← permit_drop (inner s) true; Ret (mkSys st (pred (permits s)) (guards s) (spawned s))
  | OpGuardDrop id => Ret (mkSys (guard_drop (inner s) id).1 (permits s) (guards s ∖ {[id]}) (spawned s))
  end.

Inductive reachable : Sys → Prop :=
| r_new : reachable (mkSys registry_new 0 ∅ 0)
| r_step s op s' : reachable s → Z.of_nat (spawned s) < 2 ^ 64 → enabled s op → run_op s op = Ret s' → reachable s'.

(** The books are right: as many pending spawns as permits, a tracked task for every
    guard, and task ids used in their order. *)
Record sys_inv (s : Sys) : Prop := {
  si_pending : pending_spawns (inner s) = Z.of_nat (permits s);
  si_tasks : dom (tasks (inner s)) = guards s;
  si_fresh id : id ∈ guards s → 0 ≤ id < Z.of_nat (spawned s);
  si_next : Z.of_nat (spawned s) < 2 ^ 64 → next_task_id (inner s) = Z.of_nat (spawned s);
}.

Lemma one_less_ok st : 1 ≤ pending_spawns st → one_less st = Ret (set_pending st (pending_spawns st - 1)).
Proof. intros Hp. unfold one_less. by rewrite assert_true by (by apply Z.leb_le). Qed.

Lemma tasks_run_op_inv s op : sys_inv s → Z.of_nat (spawned s) < 2 ^ 64 → enabled s op →
  ∃ s', run_op s op = Ret s' ∧ sys_inv s'.
Proof.
  intros [H1 H2 H3 H4] Hs He. specialize (H4 Hs). destruct op as [| |a started| |id]; cbn in He; cbn [run_op].
  - unfold reserve_spawn. destruct (closing (inner s)); (eexists; split; [done|]; split; cbn; [lia|done|done|done]).
  - eexists. split; [done|]. by split.
  - unfold spawn_on. destruct (closing (inner s)).
    { rewrite one_less_ok, !bind_Ret by lia. eexists. split; [done|]. split; cbn; [lia|done|done|done]. }
    assert (Hn : tasks (inner s) !! next_task_id (inner s) = None).
    { apply not_elem_of_dom. rewrite H2. intros Hin%H3. lia. }
    rewrite bool_decide_eq_true_2 by done. cbn [assert_]. rewrite bind_Ret.
    rewrite one_less_ok, !bind_Ret by (cbn; lia). eexists. split; [done|]. split; cbn.
    + lia.
    + by rewrite dom_insert_L, H2.
    + intros id. rewrite elem_of_union, elem_of_singleton. intros [->|Hin%H3]; lia.
    + intros Hlt. unfold u64_wrapping_add. rewrite H4, Z.mod_small; lia.
  - unfold permit_drop. rewrite one_less_ok, bind_Ret by lia. eexists. split; [done|]. split; cbn; [lia|done|done|done].
  - eexists. split; [done|]. split; cbn; [done|by rewrite dom_delete_L, H2| |done].
    intros i Hi. apply H3. set_solver.
Qed.

Lemma tasks_reachable_inv s : reachable s → sys_inv s.
Proof.
  induction 1 as [|s op s' _ IH Hs He E]; [split; cbn; [done|by rewrite dom_empty_L|set_solver|done]|].
  destruct (tasks_run_op_inv s op IH Hs He) as (s1 & E1 & H1). rewrite E in E1. by injection E1 as <-.
Qed.

(** What a shutdown still waits for. *)
Definition outstanding (s : Sys) : nat := (permits s + size (guards s))%nat.

Lemma is_empty_outstanding s : sys_inv s → is_empty (inner s) = true ↔ outstanding s = 0%nat.
Proof.
  intros [H1 H2 _ _]. unfold is_empty, outstanding. rewrite andb_true_iff, Z.eqb_eq, Nat.eqb_eq, H1.
  rewrite <- H2, <- size_dom. lia.
Qed.

(** the registry's books are always right: whatever the order of reservations,
    spawns, drops and completions, the pending count is the number of permits
    that are neither used nor dropped, a task is tracked exactly while its guard
    lives, and no operation panics (the count never goes below zero and no task id
    is used twice), as long as fewer than [2^64] tasks have been spawned. *)
Theorem tasks_books s op : reachable s → Z.of_nat (spawned s) < 2 ^ 64 → enabled s op →
  pending_spawns (inner s) = Z.of_nat (permits s) ∧
  (∀ id, is_Some (tasks (inner s) !! id) ↔ id ∈ guards s) ∧
  ∃ s', run_op s op = Ret s'.
Proof.
  intros Hr Hs He. pose proof (tasks_reachable_inv s Hr) as Hi. split_and!.
  - by apply si_pending.
  - intros id. by rewrite <- elem_of_dom, si_tasks.
  - destruct (tasks_run_op_inv s op Hi Hs He) as (s' & E & _). eauto.
Qed.

(** ** Shutdown *)
Inductive runs : Sys → list Op → Sys → Prop :=
| runs_nil s : runs s [] s
| runs_cons s op s1 ops s2 :
    Z.of_nat (spawned s) < 2 ^ 64 → enabled s op → run_op s op = Ret s1 → runs s1 ops s2 → runs s (op :: ops) s2.

(** The operations that settle a permit or a guard. *)
Definition settles (op : Op) : bool := match op with OpReserve | OpClose => false | _ => true end.

Lemma closed_step s op s' : sys_inv s → closing (inner s) = true → Z.of_nat (spawned s) < 2 ^ 64 →
  enabled s op → run_op s op = Ret s' →
  closing (inner s') = true ∧ tasks (inner s') ⊆ tasks (inner s) ∧
  outstanding s = (outstanding s' + if settles op then 1 else 0)%nat.
Proof.
  intros [H1 H2 _ _] Hc _ He E. unfold outstanding.
  destruct op as [| |a started| |id]; cbn in He; cbn [run_op settles] in *.
  - unfold reserve_spawn in E. rewrite Hc in E. injection E as <-. cbn. split_and!; [done|done|lia].
  - injection E as <-. cbn. split_and!; [done|done|lia].
  - unfold spawn_on in E. rewrite Hc, one_less_ok, !bind_Ret in E by lia. injection E as <-. cbn.
    split_and!; [done|done|lia].
  - unfold permit_drop in E. rewrite one_less_ok, bind_Ret in E by lia. injection E as <-. cbn. split_and!; [done|done|lia].
  - injection E as <-. cbn. split_and!; [done|apply delete_subseteq|]. rewrite size_difference by set_solver.
    rewrite size_singleton. assert (size (guards s) ≠ 0%nat); [|lia].
    intros Hz%size_empty_inv. set_solver.
Qed.

(** a shutdown settles: once the registry is closed no container starts any
    more, the tracked tasks only become fewer, and each permit used or dropped
    and each task ended brings the registry one closer to empty, which it reaches
    exactly when all are settled and then stays; a shutdown kills every container
    that outlives the first grace period. *)
Theorem shutdown_settles s ops s' : reachable s → closing (inner s) = true → runs s ops s' →
  closing (inner s') = true ∧ tasks (inner s') ⊆ tasks (inner s) ∧
  (is_empty (inner s') = true ↔ length (filter settles ops) = outstanding s) ∧
  (is_empty (inner s) = true → is_empty (inner s') = true) ∧
  ∀ id a, tasks (inner s') !! id = Some a → ∀ later, Kill a ∈ shutdown (inner s') later.
Proof.
  intros Hr Hc Hruns.
  assert (H : closing (inner s') = true ∧ tasks (inner s') ⊆ tasks (inner s) ∧ sys_inv s' ∧
    outstanding s = (outstanding s' + length (filter settles ops))%nat).
  { apply tasks_reachable_inv in Hr as Hi. clear Hr. induction Hruns as [s|s op s1 ops s2 Hs He E _ IH].
    - split_and!; [done|done|done|cbn; lia].
    - destruct (closed_step _ _ _ Hi Hc Hs He E) as (Hc1 & Ht1 & Ho1).
      destruct (tasks_run_op_inv s op Hi Hs He) as (s1' & E1 & Hi1). rewrite E in E1. injection E1 as <-.
      destruct (IH Hc1 Hi1) as (Hc2 & Ht2 & Hi2 & Ho2). split_and!; [done|by etrans|done|].
      rewrite filter_cons. case_decide; destruct (settles op); try done; cbn in *; lia. }
  destruct H as (Hc' & Ht & Hi' & Ho). apply tasks_reachable_inv in Hr as Hi. split_and!; try done.
  - rewrite is_empty_outstanding by done. lia.
  - rewrite !is_empty_outstanding by done. lia.
  - intros id a Hid later. unfold shutdown. right. destruct (is_empty (inner s')) eqn:Ee.
    + apply andb_true_iff in Ee as [_ Ee%Nat.eqb_eq%map_size_empty_inv]. rewrite Ee in Hid. by rewrite lookup_empty in Hid.
    + apply elem_of_app. left. apply list_elem_of_fmap. exists a. split; [done|].
      unfold addresses. apply list_elem_of_fmap. exists (id, a). split; [done|]. by apply elem_of_map_to_list.
Qed.

(** ** Runs *)

(** A task runs at address 7, and another permit is pending. *)
Definition busy_sys : Sys := mkSys (mkInner false 1 1 {[0 := 7]}) 1 {[0]} 1.

Lemma busy_reachable : reachable busy_sys.
Proof.
  eapply (r_step (mkSys (mkInner false 0 2 ∅) 2 ∅ 0) (OpSpawn 7 true)); [|cbn; lia|cbn; lia|vm_compute; reflexivity].
  eapply (r_step (mkSys (mkInner false 0 1 ∅) 1 ∅ 0) OpReserve); [|cbn; lia|done|reflexivity].
  eapply (r_step (mkSys registry_new 0 ∅ 0) OpReserve); [constructor|cbn; lia|done|reflexivity].
Qed.

Lemma tasks_books_witness : ∃ s', run_op busy_sys (OpSpawn 8 true) = Ret s'.
Proof.
  assert (Hs : Z.of_nat (spawned busy_sys) < 2 ^ 64) by reflexivity.
  exact (proj2 (proj2 (tasks_books busy_sys (OpSpawn 8 true) busy_reachable Hs ltac:(cbn; lia)))).
Defined.

Definition closed_sys : Sys := mkSys (close (inner busy_sys)) 1 {[0]} 1.
Definition settled_sys : Sys := mkSys (mkInner true 1 0 ∅) 0 ∅ 1.

(** Closed, the pending permit is refused and the task ends: the registry is empty. *)
Lemma shutdown_settles_witness : is_empty (inner settled_sys) = true ↔ 2%nat = outstanding closed_sys.
Proof.
  assert (Hr : reachable closed_sys).
  { eapply (r_step busy_sys OpClose); [exact busy_reachable|cbn; lia|done|reflexivity]. }
  assert (Hruns : runs closed_sys [OpSpawn 9 true; OpGuardDrop 0] settled_sys).
  { econstructor; [cbn; lia|cbn; lia|vm_compute; reflexivity|].
    econstructor; [cbn; lia|cbn; set_solver|vm_compute; reflexivity|]. constructor. }
  exact (proj1 (proj2 (proj2 (shutdown_settles closed_sys _ settled_sys Hr eq_refl Hruns)))).
Defined.
