(* ===== verification/Drain.v ===== *)
(** * Shutting down the containers
    (core/mm1-node/src/runtime/task_registry.rs, [wait_for_empty], and runtime/rt_api.rs, [RtApi::shutdown])

    The three waits of a shutdown, interleaved with the operations of the containers' tasks. An operation changes the registry under its
    lock and tells the waiter afterwards; what is not told yet is owed. The waiter's [Notify] holds one permit. *)

From S2P Require Import Prelude U64 Address Tasks.

Open Scope Z_scope.

(** [counts] *)
Record ContainerTaskCounts := mkCounts { pending_count : Z; active_tasks : nat }.
Definition counts (st : Inner) : ContainerTaskCounts := mkCounts (pending_spawns st) (size (tasks st)).

(** [abort_all]: the tasks that are told to stop *)
Definition abort_all (st : Inner) : list Z := (map_to_list (tasks st)).*1.

(** How many times an operation calls [notify_one] *)
Definition notifies (st : Inner) (op : Op) : nat :=
  match op with
  | OpReserve => 0
  | OpClose | OpSpawn _ _ | OpPermitDrop => 1
  | OpGuardDrop id => if (guard_drop st id).2 then 1 else 0
  end.

(** ** [wait_for_empty] in the three phases of [shutdown] *)
Inductive Phase := Grace | KillGrace | AbortGrace | Done.

(** Before the check, waiting for a notification, after the deadline, and after a wait that has failed *)
Inductive Wait := Checking | Waiting | Expired | GaveUp.

Record Down := mkDown { sys : Sys; owed : nat; permit : bool; phase : Phase; wait : Wait; acts : list Act }.

(** [RtApi::shutdown], up to its first wait *)
Definition shutdown_start (s : Sys) (owed : nat) (permit : bool) : Down :=
  mkDown (mkSys (close (inner s)) (permits s) (guards s) (spawned s)) (S owed) permit Grace Checking [Close].

(** What follows a wait that has failed *)
Definition next_phase (d : Down) : Down :=
  match phase d with
  | Grace => mkDown (sys d) (owed d) (permit d) KillGrace Checking (acts d ++ (Kill <$> addresses (inner (sys d))))
  | KillGrace => mkDown (sys d) (owed d) (permit d) AbortGrace Checking (acts d ++ [AbortAll])
  | AbortGrace | Done => mkDown (sys d) (owed d) (permit d) Done (wait d) (acts d)
  end.

(** The next step of the waiter, if it has one: a wait that ends well ends the shutdown. *)
Definition waiter_step (d : Down) : option Down :=
  match phase d, wait d with
  | Done, _ => None
  | _, Checking =>
      Some (if is_empty (inner (sys d)) then mkDown (sys d) (owed d) (permit d) Done (wait d) (acts d)
            else mkDown (sys d) (owed d) (permit d) (phase d) Waiting (acts d))
  | _, Waiting => if permit d then Some (mkDown (sys d) (owed d) false (phase d) Checking (acts d)) else None
  | _, Expired =>
      Some (if is_empty (inner (sys d)) then mkDown (sys d) (owed d) (permit d) Done (wait d) (acts d)
            else mkDown (sys d) (owed d) (permit d) (phase d) GaveUp (acts d))
  | _, GaveUp => Some (next_phase d)
  end.

Fixpoint waiter_run (n : nat) (d : Down) : Down :=
  match n with O => d | S n => match waiter_step d with Some d' => waiter_run n d' | None => d end end.

(** The steps of a shutdown: of its waiter and of the tasks *)
Inductive down_step : Down → Down → Prop :=
| d_waiter d d' : waiter_step d = Some d' → down_step d d'
| d_op d op s' : Z.of_nat (spawned (sys d)) < 2 ^ 64 → enabled (sys d) op → run_op (sys d) op = Ret s' →
    down_step d (mkDown s' (notifies (inner (sys d)) op + owed d) (permit d) (phase d) (wait d) (acts d))
| d_notify d n : owed d = S n → down_step d (mkDown (sys d) n true (phase d) (wait d) (acts d)).

(** What a shutdown gets to when the time of a wait has run out so many times; it can while the waiter waits and there is no notification for it. *)
Inductive down_reachable : nat → Down → Prop :=
| dr_start s n b : reachable s → down_reachable 0 (shutdown_start s n b)
| dr_step k d d' : down_reachable k d → down_step d d' → down_reachable k d'
| dr_deadline k d : down_reachable k d → phase d ≠ Done → wait d = Waiting → permit d = false →
    down_reachable (S k) (mkDown (sys d) (owed d) (permit d) (phase d) Expired (acts d)).

(** ** The invariant *)
Definition all_killed (d : Down) : Prop := ∀ id a, tasks (inner (sys d)) !! id = Some a → Kill a ∈ acts d.

Record down_inv (d : Down) : Prop := {
  di_sys : sys_inv (sys d);
  di_closed : closing (inner (sys d)) = true;
  di_told : wait d = Waiting → is_empty (inner (sys d)) = true → phase d ≠ Done → permit d = true ∨ (0 < owed d)%nat;
  di_killed : match phase d with
    | Grace => True
    | KillGrace => all_killed d
    | AbortGrace => all_killed d ∧ AbortAll ∈ acts d
    | Done => is_empty (inner (sys d)) = true ∨ AbortAll ∈ acts d ∧ all_killed d
    end;
}.

(** An operation that empties the registry tells the waiter. *)
Lemma emptied_told s op s' : sys_inv s → closing (inner s) = true → Z.of_nat (spawned s) < 2 ^ 64 → enabled s op → run_op s op = Ret s' →
  is_empty (inner s') = true → is_empty (inner s) = true ∨ notifies (inner s) op = 1%nat.
Proof.
  intros Hi Hc Hs He E Hem. destruct (closed_step s op s' Hi Hc Hs He E) as (_ & _ & Ho). destruct (tasks_run_op_inv s op Hi Hs He) as (s1 & E1 & Hi').
  rewrite E in E1. injection E1 as <-. apply is_empty_outstanding in Hem; [|done]. rewrite is_empty_outstanding by done.
  destruct op as [| |a started| |id]; cbn [settles notifies] in *; [left; lia|by right..|]. right. cbn [guard_drop snd].
  rewrite bool_decide_eq_true_2; [done|]. apply elem_of_dom. rewrite (si_tasks _ Hi). exact He.
Qed.

(** Once the registry is closed and empty it stays empty. *)
Lemma stays_empty s op s' : sys_inv s → closing (inner s) = true → Z.of_nat (spawned s) < 2 ^ 64 → enabled s op → run_op s op = Ret s' →
  is_empty (inner s) = true → is_empty (inner s') = true.
Proof.
  intros Hi Hc Hs He E Hem. destruct (closed_step s op s' Hi Hc Hs He E) as (_ & _ & Ho). destruct (tasks_run_op_inv s op Hi Hs He) as (s1 & E1 & Hi').
  rewrite E in E1. injection E1 as <-. apply is_empty_outstanding in Hem; [|done]. apply is_empty_outstanding; [done|]. lia.
Qed.

Lemma all_killed_app d acts' : all_killed d → acts d ⊆ acts' → ∀ id a, tasks (inner (sys d)) !! id = Some a → Kill a ∈ acts'.
Proof. intros Hk Hs id a Hid. by apply Hs, (Hk id). Qed.

Lemma addresses_killed st id a : tasks st !! id = Some a → Kill a ∈ Kill <$> addresses st.
Proof. intros Hid. apply list_elem_of_fmap_2, list_elem_of_fmap. exists (id, a). split; [done|]. by apply elem_of_map_to_list. Qed.

Lemma next_phase_inv d : down_inv d → phase d ≠ Done → down_inv (next_phase d).
Proof.
  intros [Hs Hc Ht Hk] Hp. unfold next_phase. destruct (phase d) eqn:Ep; [..|done]; split; cbn; try done.
  - intros id a Hid. cbn. apply elem_of_app. right. by eapply addresses_killed.
  - split; [|apply elem_of_app; right; left]. intros id a Hid. apply elem_of_app. left. by eapply Hk.
  - destruct Hk as [Hk Ha]. by right.
Qed.

Lemma done_inv d : down_inv d → is_empty (inner (sys d)) = true → down_inv (mkDown (sys d) (owed d) (permit d) Done (wait d) (acts d)).
Proof. intros [Hs Hc Ht Hk] Hem. split; cbn; [done..|by left]. Qed.

Lemma wait_inv d p w : down_inv d → (w = Waiting → is_empty (inner (sys d)) = false) → down_inv (mkDown (sys d) (owed d) p (phase d) w (acts d)).
Proof. intros [Hs Hc Ht Hk] Hw. split; cbn; [done|done| |done]. intros Hwt. rewrite Hw by done. done. Qed.

Lemma waiter_step_inv d d' : down_inv d → waiter_step d = Some d' → down_inv d'.
Proof.
  intros Hi E. assert (phase d ≠ Done) as Hp by (intros Hp; unfold waiter_step in E; by rewrite Hp in E).
  assert (match wait d with
    | Checking => Some (if is_empty (inner (sys d)) then mkDown (sys d) (owed d) (permit d) Done (wait d) (acts d)
                        else mkDown (sys d) (owed d) (permit d) (phase d) Waiting (acts d))
    | Waiting => if permit d then Some (mkDown (sys d) (owed d) false (phase d) Checking (acts d)) else None
    | Expired => Some (if is_empty (inner (sys d)) then mkDown (sys d) (owed d) (permit d) Done (wait d) (acts d)
                       else mkDown (sys d) (owed d) (permit d) (phase d) GaveUp (acts d))
    | GaveUp => Some (next_phase d)
    end = Some d') as E' by (unfold waiter_step in E; by destruct (phase d)).
  destruct (wait d) eqn:Ew.
  - injection E' as <-. destruct (is_empty _) eqn:Ee; [rewrite <- Ew; by apply done_inv | by apply wait_inv].
  - destruct (permit d); [|done]. injection E' as <-. by apply wait_inv.
  - injection E' as <-. destruct (is_empty _) eqn:Ee; [rewrite <- Ew; by apply done_inv | by apply wait_inv].
  - injection E' as <-. by apply next_phase_inv.
Qed.

Lemma down_step_inv d d' : down_inv d → down_step d d' → down_inv d'.
Proof.
  intros Hi Hst. pose proof Hi as [Hs Hc Ht Hk]. destruct Hst as [d d' E|d op s' Hlt He E|d n Hn].
  - by eapply waiter_step_inv.
  - destruct (closed_step _ op s' Hs Hc Hlt He E) as (Hc' & Hsub & _). destruct (tasks_run_op_inv _ op Hs Hlt He) as (s1 & E1 & Hi').
    rewrite E in E1. injection E1 as <-. split; cbn; [done|done| |].
    + intros Hw Hem Hp. destruct (emptied_told _ _ _ Hs Hc Hlt He E Hem) as [Hem0|Hn]; [|right; lia]. destruct (Ht Hw Hem0 Hp); [by left | right; lia].
    + assert (all_killed d → all_killed (mkDown s' (notifies (inner (sys d)) op + owed d) (permit d) (phase d) (wait d) (acts d))) as Hmono.
      { intros Hkd id a Hid. apply (Hkd id). by eapply lookup_weaken. }
      destruct (phase d) eqn:Ep; [done|exact (Hmono Hk)|exact (conj (Hmono (proj1 Hk)) (proj2 Hk))|].
      destruct Hk as [Hem|[Ha Hkd]]; [left; exact (stays_empty _ _ _ Hs Hc Hlt He E Hem) | right; exact (conj Ha (Hmono Hkd))].
  - split; cbn; [done|done|by left|done].
Qed.

Lemma down_reachable_inv k d : down_reachable k d → down_inv d.
Proof.
  induction 1 as [s n b Hr|k d d' _ IH Hst|k d _ IH Hp Hw Hpm]; [|by eapply down_step_inv|destruct IH; by split].
  pose proof (tasks_reachable_inv s Hr) as [H1 H2 H3 H4]. split; cbn; [by split | done..].
Qed.

(** ** How often the time has run out *)
Definition is_kill (a : Act) : Prop := ∃ addr, a = Kill addr.

Definition waits_failed (d : Down) : nat := match wait d with Expired | GaveUp => 1 | _ => 0 end.
Definition closed_only (l : list Act) : Prop := l = [Close].
Definition closed_killed (l : list Act) : Prop := ∃ kills, l = Close :: kills ∧ Forall is_kill kills.
Definition closed_killed_aborted (l : list Act) : Prop := ∃ kills, l = Close :: kills ++ [AbortAll] ∧ Forall is_kill kills.

(** Each phase has seen one more wait fail than the one before; it ends early only when no container is left. *)
Definition paced (k : nat) (d : Down) : Prop :=
  match phase d with
  | Grace => k = waits_failed d ∧ closed_only (acts d)
  | KillGrace => k = (1 + waits_failed d)%nat ∧ closed_killed (acts d)
  | AbortGrace => k = (2 + waits_failed d)%nat ∧ closed_killed_aborted (acts d)
  | Done => (is_empty (inner (sys d)) = true ∨ k = 3%nat) ∧
      (closed_only (acts d) ∨ (1 ≤ k)%nat ∧ closed_killed (acts d) ∨ (2 ≤ k)%nat ∧ closed_killed_aborted (acts d))
  end.

Lemma paced_waiter k d d' : paced k d → waiter_step d = Some d' → paced k d'.
Proof.
  intros Hp E. assert (Hdone : is_empty (inner (sys d)) = true → paced k (mkDown (sys d) (owed d) (permit d) Done (wait d) (acts d))).
  { intros Hem. unfold paced in *. cbn. split; [by left|]. destruct (phase d); [by left; apply Hp| | |by apply Hp]; destruct Hp as [-> Ha];
      [right; left; split; [lia|done]|right; right; split; [lia|done]]. }
  assert (Hmove : ∀ p w, waits_failed (mkDown (sys d) (owed d) p (phase d) w (acts d)) = waits_failed d → paced k (mkDown (sys d) (owed d) p (phase d) w (acts d))).
  { intros p w Hw. unfold paced in *. cbn [phase acts sys]. rewrite Hw. done. }
  unfold waiter_step in E. destruct (phase d) eqn:Ep; [..|done]; (destruct (wait d) eqn:Ew; [|destruct (permit d); [|done]| |]); injection E as <-;
    try (destruct (is_empty (inner (sys d))) eqn:Em; [by apply Hdone|]); try (apply Hmove; unfold waits_failed; cbn; by rewrite Ew);
    unfold next_phase, paced, waits_failed in *; rewrite Ep in *; rewrite ?Ew in *; cbn; destruct Hp as [-> Ha].
  - split; [done|]. unfold closed_only in Ha. rewrite Ha. eexists. split; [done|]. apply Forall_fmap, Forall_true. intros a. by eexists.
  - split; [done|]. destruct Ha as (kills & -> & Hkl). by exists kills.
  - split; [by right|]. right; right. split; [lia|done].
Qed.

Lemma paced_reachable k d : down_reachable k d → paced k d.
Proof.
  induction 1 as [s n b _|k d d' Hd IH Hst|k d _ IH Hp Hw _]; [done| |].
  - pose proof (down_reachable_inv k d Hd) as [Hs Hc _ _]. destruct Hst as [d d' E|d op s' Hlt He E|d n Hn]; [by eapply paced_waiter| |done].
    unfold paced, waits_failed in *. cbn. destruct (phase d); [done..|]. destruct IH as [[Hem|Hk] Ha]; (split; [|done]); [left; by eapply stays_empty|by right].
  - unfold paced, waits_failed in *. cbn. rewrite Hw in IH. destruct (phase d); [..|done]; destruct IH as [-> Ha]; (split; [lia|done]).
Qed.

Lemma paced_acts k d : paced k d → (∀ a, Kill a ∈ acts d → 1 ≤ k)%nat ∧ (AbortAll ∈ acts d → 2 ≤ k)%nat.
Proof.
  assert (Ho : closed_only (acts d) → (∀ a, Kill a ∉ acts d) ∧ AbortAll ∉ acts d).
  { unfold closed_only. intros ->. split; [intros a|]; intros ?%list_elem_of_singleton; done. }
  assert (Hkl : closed_killed (acts d) → AbortAll ∉ acts d).
  { intros (kills & -> & Hf). rewrite Forall_forall in Hf. intros [?|Hin]%elem_of_cons; [done|]. by destruct (Hf _ Hin). }
  unfold paced. destruct (phase d); [intros [-> [? ?]%Ho]; naive_solver|intros [-> ?%Hkl]; split; [lia|done]|intros [-> _]; split; lia|].
  intros [_ [[? ?]%Ho|[[? ?%Hkl]|[? _]]]]; [naive_solver|split; [lia|done]|split; lia].
Qed.

(** C31: A shutdown neither hangs nor gives up early, whatever the tasks do meanwhile. As soon as no container is left and the notifications under
    way have arrived, two steps of the waiter end it; none is lost between its check and its wait. It sends kills only after the time of a wait
    has run out, and aborts only after that of two has. And when it has ended, either no container
    was left, and none comes back, or the time of all three waits has run out: then every container that is still there has been sent a kill and its
    task told to abort. *)
Theorem shutdown_drains k d : down_reachable k d →
  (is_empty (inner (sys d)) = true → owed d = 0%nat → phase (waiter_run 2 d) = Done) ∧
  (∀ a, Kill a ∈ acts d → 1 ≤ k)%nat ∧ (AbortAll ∈ acts d → 2 ≤ k)%nat ∧
  (phase d = Done → is_empty (inner (sys d)) = true ∨
    k = 3%nat ∧ AbortAll ∈ acts d ∧ ∀ id a, tasks (inner (sys d)) !! id = Some a → Kill a ∈ acts d).
Proof.
  intros Hd. pose proof (paced_reachable k d Hd) as Hp. apply down_reachable_inv in Hd as [Hs Hc Ht Hk].
  destruct (paced_acts k d Hp) as [H1 H2]. split_and!; [|done|done|].
  - intros Hem Ho. unfold waiter_run, waiter_step, next_phase.
    assert (phase d ≠ Done → wait d = Waiting → permit d = true) as Hperm by (intros Hd Hw; destruct (Ht Hw Hem Hd); [done | lia]).
    destruct (phase d) eqn:Ep; [..|done]; (destruct (wait d) eqn:Ew; [rewrite Hem|rewrite Hperm by done|rewrite Hem|]); cbn; rewrite ?Hem; done.
  - intros Ed. unfold paced in Hp. rewrite Ed in Hp, Hk. destruct Hk as [?|Hk]; [by left|]. destruct Hp as [[?|Hk3] _]; [by left|subst k; by right].
Qed.

(** ** A shutdown of a busy node *)
Definition drained : Down := mkDown settled_sys 0 true Grace Waiting [Close].

Lemma down_op d op s' d' : Z.of_nat (spawned (sys d)) < 2 ^ 64 → enabled (sys d) op → run_op (sys d) op = Ret s' →
  d' = mkDown s' (notifies (inner (sys d)) op + owed d) (permit d) (phase d) (wait d) (acts d) → down_step d d'.
Proof. intros H1 H2 H3 ->. by constructor. Qed.

Lemma shutdown_drains_witness : phase (waiter_run 2 drained) = Done.
Proof.
  apply (shutdown_drains 0 drained); [|reflexivity|reflexivity].
  eapply dr_step; [|by apply (d_notify (mkDown settled_sys 1 true Grace Waiting [Close]) 0)].
  eapply dr_step; [|by apply (d_notify (mkDown settled_sys 2 false Grace Waiting [Close]) 1)].
  eapply dr_step; [|eapply (down_op (mkDown (mkSys (mkInner true 1 0 {[0 := 7]}) 0 {[0]} 1) 1 false Grace Waiting [Close]) (OpGuardDrop 0)); [cbn; lia|cbn; set_solver|vm_compute; reflexivity|vm_compute; reflexivity]].
  eapply dr_step; [|eapply (down_op (mkDown closed_sys 0 false Grace Waiting [Close]) (OpSpawn 9 true)); [cbn; lia|cbn; lia|vm_compute; reflexivity|vm_compute; reflexivity]].
  eapply dr_step; [|eapply (d_waiter (mkDown closed_sys 0 false Grace Checking [Close])); vm_compute; reflexivity].
  eapply dr_step; [|eapply (d_waiter (mkDown closed_sys 0 true Grace Waiting [Close])); vm_compute; reflexivity].
  eapply dr_step; [|eapply (d_notify (mkDown closed_sys 1 false Grace Waiting [Close])); reflexivity].
  eapply dr_step; [|eapply (d_waiter (mkDown closed_sys 1 false Grace Checking [Close])); vm_compute; reflexivity].
  exact (dr_start busy_sys 0 false busy_reachable).
Defined.
