(* ===== verification/Spawn.v ===== *)
(** * Starting an actor (core/mm1-node/src/runtime/context/impl_context_api.rs, [do_spawn]; runtime/container.rs,
    [Container::create]; and the parts of runtime/rt_api.rs they use)

    A spawn reserves a task, leases a subnet, registers its mailbox and hands the container to an executor. The pool, the
    registry, the task registry and the configuration are the components modelled elsewhere; here they are put together. *)

From stdpp Require Import strings.
From S2P Require Import Prelude U64 Address Subnet Trie Context Pool Registry Config Tasks.

Open Scope Z_scope.

Inductive ContainerError := RegistrationError | ContainerLeaseError.
Inductive SpawnErrorKind := InternalError | ResourceConstraint.

Section Spawn.
Context {TI : Type → Type} `{TreeIndex TI} {Rt : Type}.

(** [registry::Node], without its queues: the lease it keeps alive and the size of its inbox *)
Record ActorNode := mkRegNode { node_lease : Lease; node_inbox : Z }.

(** [rt_api::Inner] *)
Record NodeRt := mkNodeRt {
  subnet_pool : Shared;
  networks : TI ActorNode;
  default_rt : Rt;
  named_rts : gmap string Rt;
  rt_tasks : Inner;
}.

Definition with_pool (rt : NodeRt) p := mkNodeRt p (networks rt) (default_rt rt) (named_rts rt) (rt_tasks rt).
Definition with_tasks (rt : NodeRt) t := mkNodeRt (subnet_pool rt) (networks rt) (default_rt rt) (named_rts rt) t.
Definition with_networks (rt : NodeRt) n := mkNodeRt (subnet_pool rt) n (default_rt rt) (named_rts rt) (rt_tasks rt).

(** [RtApi::create] *)
Definition rt_create (subnet_address : NetAddress) (d : Rt) (named : gmap string Rt) : outcome NodeRt :=
  pool ← pool_new subnet_address; Ret (mkNodeRt pool ti_empty d named registry_new).

(** [RtApi::request_address] *)
Definition request_address (rt : NodeRt) (m : NetMask) : outcome (NodeRt * result Lease LeaseError) :=
  '(pool, r) ← lease (subnet_pool rt) m; Ret (with_pool rt pool, r).

(** [Container::create]: the address of the main fork. A node that is refused is dropped with its lease. *)
Definition container_create (rt : NodeRt) (config : ActorConfig) (subnet_lease : Lease) : outcome (NodeRt * result Address ContainerError) :=
  let actor_subnet := net_address subnet_lease in
  '(nets, r) ← register (networks rt) actor_subnet (mkRegNode subnet_lease (inbox_size config));
  let rt := with_networks rt nets in
  match r with
  | Err node => pool ← lease_drop (subnet_pool rt) (node_lease node); Ret (with_pool rt pool, Err RegistrationError)
  | Ok _ =>
      actor_subnet_pool ← pool_new actor_subnet;
      '(_, r) ← lease actor_subnet_pool M_64;
      Ret (rt, match r with Ok main => Ok (address (net_address main)) | Err _ => Err ContainerLeaseError end)
  end.

(** A permit that is dropped unused *)
Definition abandon (rt : NodeRt) : outcome NodeRt := t ← permit_drop (rt_tasks rt) true; Ret (with_tasks rt t).

(** [do_spawn]: the actor at [key] spawns [func]; [closed] tells whether the node begins to shut down before the container is handed to
    its executor, [started] whether the task is then still there to be started. The answer comes with the executor. *)
Definition do_spawn (config : ActorConfigNode) (rt : NodeRt) (key : ActorKey) (func : string) (closed started : bool) :
    outcome (NodeRt * result (Address * Rt) SpawnErrorKind) :=
  let actor_config := select config (child key func) in
  execute_on ← choose_executor (default_rt rt) (named_rts rt) (ac_runtime actor_config);
  let '(t, permitted) := reserve_spawn (rt_tasks rt) in
  let rt := with_tasks rt t in
  if negb permitted then Ret (rt, Err ResourceConstraint)
  else
    '(rt, leased) ← request_address rt (netmask actor_config);
    match leased with
    | Err _ => rt ← abandon rt; Ret (rt, Err ResourceConstraint)
    | Ok subnet_lease =>
        '(rt, created) ← container_create rt actor_config subnet_lease;
        match created with
        | Err _ => rt ← abandon rt; Ret (rt, Err InternalError)
        | Ok actor_address =>
            let rt := if (closed : bool) then with_tasks rt (close (rt_tasks rt)) else rt in
            '(t, r) ← spawn_on (rt_tasks rt) actor_address started;
            Ret (with_tasks rt t, match r with Ok _ => Ok (actor_address, execute_on) | Err _ => Err ResourceConstraint end)
        end
    end.

(** The end of an actor: its last context unregisters the subnet, and the node, dropped, gives back the lease. *)
Definition subnet_done (rt : NodeRt) (subnet : NetAddress) : outcome (NodeRt * bool) :=
  range ← range_from_net subnet;
  let found := ti_peek (networks rt) range in
  '(nets, removed) ← unregister (networks rt) subnet;
  let rt := with_networks rt nets in
  match found, removed with
  | Some (_, node), true => pool ← lease_drop (subnet_pool rt) (node_lease node); Ret (with_pool rt pool, true)
  | _, _ => Ret (rt, removed)
  end.

(** ** The books of a node: the pool's leases are those of the registered nodes *)
Definition linked (n : ActorNode) : Prop := shared (node_lease n) = Linked.
#[local] Instance weak_ref_eq_dec : EqDecision WeakRef.
Proof. solve_decision. Defined.
#[local] Instance node_linked_dec n : Decision (linked n) := decide (shared (node_lease n) = Linked).

Definition held (nets : TI ActorNode) : list Lease := node_lease <$> filter linked (ti_entries nets).*2.

Record node_ok (net : NetAddress) (rt : NodeRt) : Prop := {
  no_pool : pool_inv net (mkPool (subnet_pool rt) (held (networks rt)));
  no_registry : reg_inv (networks rt);
  no_ranges : Forall (λ e, range_from_net (net_address (node_lease e.2)) = Ret e.1) (ti_entries (networks rt));
}.

Lemma held_perm (nets nets' : TI ActorNode) e : ti_entries nets' ≡ₚ e :: ti_entries nets →
  held nets' ≡ₚ (if decide (linked e.2) then [node_lease e.2] else []) ++ held nets.
Proof.
  intros Hp. unfold held. rewrite Hp. cbn [fmap list_fmap]. rewrite filter_cons. by case_decide.
Qed.

(** The first lease of a fresh pool of a subnet is an address of the subnet. *)
Lemma first_address net : net_canonical net →
  ∃ s s' l, pool_new net = Ret s ∧ lease s M_64 = Ret (s', Ok l) ∧ net_contains net (address (net_address l)).
Proof.
  intros [Hn Hd]. destruct (pool_new_spec net Hn) as (s & Es & Hi). destruct (lease_spec net s [] M_64 Hi) as (s' & r & El & Hr); [unfold M_64; lia|].
  assert (Hin : ∀ x, in_pool net x ↔ net_contains net x).
  { intros x. unfold in_pool, in_block, net_contains. destruct Hn as [Ha Hm], Hd as [k Hk]. pose proof (pow2_pos (64 - mask net)).
    replace (2 ^ (64 - mask net) * (address net / 2 ^ (64 - mask net))) with (address net); [lia|]. rewrite Hk, Z.div_mul; lia. }
  destruct r as [l|[]].
  - exists s, s', l. split_and!; [done|done|]. destruct Hr as [Hi' Hm]. apply Hin, (inv_cover _ _ Hi'). right; right.
    apply leased_cons. left. unfold Pool.covers, net_contains. rewrite Hm. unfold M_64. cbn. lia.
  - exfalso. destruct Hr as [_ Hno]. destruct Hn as [Ha Hm]. apply (Hno (address net)).
    + unfold aligned, M_64. cbn. split_and!; try done; try lia. exists (address net). lia.
    + intros x Hx. unfold in_block, M_64 in Hx. assert (x = address net) as -> by (cbn in Hx; lia).
      split; [|apply leased_nil]. apply Hin. unfold net_contains. pose proof (pow2_pos (64 - mask net)). lia.
Qed.

Lemma lease_range l : lease_ok l → ∃ r, range_from_net (net_address l) = Ret r ∧ range_ok r ∧ ∀ x, net_contains (net_address l) x → range_contains r x.
Proof.
  intros [_ Hc]. eexists. split; [by apply range_from_net_canonical|]. destruct Hc as [[Ha Hm] _]. pose proof (pow2_pos (64 - mask (net_address l))).
  unfold range_ok, range_contains, net_contains. cbn. split; [lia|]. intros x. lia.
Qed.

Lemma node_ok_register net rt nets l n r : pool_inv net (mkPool (subnet_pool rt) (l :: held (networks rt))) → reg_inv (networks rt) →
  Forall (λ e, range_from_net (net_address (node_lease e.2)) = Ret e.1) (ti_entries (networks rt)) →
  lease_ok l → node_lease n = l → range_from_net (net_address l) = Ret r →
  ti_insert (networks rt) r n = Some nets → node_ok net (with_networks rt nets) ∧ ti_entries nets ≡ₚ (r, n) :: ti_entries (networks rt).
Proof.
  intros Hp Hr Hf Hl Hn Er Ei. apply ti_insert_some in Ei as Hi. destruct Hi as [_ He]. split; [|done]. split; cbn.
  - eapply pool_inv_perm; [|exact Hp]. rewrite (held_perm _ _ _ He). cbn. rewrite decide_True by (unfold linked; rewrite Hn; apply Hl). by rewrite Hn.
  - eapply (register_inv _ (net_address l) n _ (Ok tt) Hr). unfold register. by rewrite Er, bind_Ret, Ei.
  - rewrite He. constructor; [by cbn; rewrite Hn|done].
Qed.

Lemma container_create_ok net rt config l : pool_inv net (mkPool (subnet_pool rt) (l :: held (networks rt))) → reg_inv (networks rt) →
  Forall (λ e, range_from_net (net_address (node_lease e.2)) = Ret e.1) (ti_entries (networks rt)) →
  ∃ rt' r, container_create rt config l = Ret (rt', r) ∧ node_ok net rt' ∧ rt_tasks rt' = rt_tasks rt ∧
    match r with
    | Ok a => ∃ range, ti_entries (networks rt') ≡ₚ (range, mkRegNode l (inbox_size config)) :: ti_entries (networks rt) ∧ range_contains range a
    | Err RegistrationError => networks rt' = networks rt
    | Err ContainerLeaseError => False
    end.
Proof.
  intros Hp Hr Hf. assert (Hl : lease_ok l) by (pose proof (inv_ok _ _ Hp) as Ho; by apply Forall_cons in Ho as [? _]).
  destruct (lease_range l Hl) as (r & Er & _ & Hrc). unfold container_create, register. rewrite Er, !bind_Ret.
  destruct (ti_insert (networks rt) r (mkRegNode l (inbox_size config))) as [nets|] eqn:Ei; cbn [mbind outcome_bind].
  - destruct (node_ok_register net rt nets l (mkRegNode l (inbox_size config)) r Hp Hr Hf Hl eq_refl Er Ei) as [Hok He].
    destruct (first_address (net_address l)) as (s & s' & m & -> & Em & Hin); [apply Hl|]. cbn [mbind outcome_bind]. rewrite Em.
    cbn [mbind outcome_bind]. eexists _, _. split; [done|]. split_and!; [done|done|]. exists r. split; [done|by apply Hrc].
  - cbn [networks with_networks subnet_pool node_lease]. destruct (drop_spec net _ _ l (held (networks rt)) Hp) as (pool & -> & Hp'); [done|].
    cbn [mbind outcome_bind]. eexists _, _. split; [done|]. split_and!; [|done|done]. by split.
Qed.

Lemma node_ok_tasks net rt t : node_ok net (with_tasks rt t) ↔ node_ok net rt.
Proof. split; intros []; by split. Qed.

Lemma do_spawn_ok {SocketAddr Path Options} (c : Mm1NodeConfig (SocketAddr := SocketAddr) (Path := Path) (Options := Options)) net rt key func closed started s
  (Hc : config_ok c) (Hnamed : dom (rt_named (runtime c)) ⊆ dom (named_rts rt)) (Hok : node_ok net rt)
  (Hm : 0 ≤ netmask (select (actor c) (child key func)) ≤ 64)
  (Hs : sys_inv s) (Hsp : Z.of_nat (spawned s) < 2 ^ 64) (Ht : inner s = rt_tasks rt) :
  let config := select (actor c) (child key func) in
  ∃ rt' r, do_spawn (actor c) rt key func closed started = Ret (rt', r) ∧ node_ok net rt' ∧
    pending_spawns (rt_tasks rt') = pending_spawns (rt_tasks rt) ∧
    match r with
    | Ok (a, executor) => choose_executor (default_rt rt) (named_rts rt) (ac_runtime config) = Ret executor ∧
        tasks (rt_tasks rt') = <[next_task_id (rt_tasks rt) := a]> (tasks (rt_tasks rt)) ∧
        ∃ range node, ti_entries (networks rt') ≡ₚ (range, node) :: ti_entries (networks rt) ∧ range_contains range a ∧
          mask (net_address (node_lease node)) = netmask config ∧ node_inbox node = inbox_size config
    | Err _ => closed = false → started = true →
        ti_entries (networks rt') = ti_entries (networks rt) ∧ tasks (rt_tasks rt') = tasks (rt_tasks rt)
    end.
Proof.
  intros config. unfold do_spawn. fold config.
  assert (Hex : ∃ e, choose_executor (default_rt rt) (named_rts rt) (ac_runtime config) = Ret e).
  { destruct (ac_runtime config) as [k|] eqn:Ek; cbn; [|eauto]. apply select_uses, (co_keys _ Hc), elem_of_dom, Hnamed, elem_of_dom in Ek as [e ->]. by exists e. }
  destruct Hex as [e ->]. cbn [mbind outcome_bind]. destruct Hs as [Hpend Hdom Hfresh Hnext]. rewrite Ht in *. specialize (Hnext Hsp).
  unfold reserve_spawn. destruct (closing (rt_tasks rt)) eqn:Ecl; cbn [negb].
  { eexists _, _. split; [done|]. split_and!; [by apply node_ok_tasks|done|done]. }
  set (rt1 := with_tasks rt _). destruct Hok as [Hp Hr Hf]. unfold request_address.
  destruct (lease_spec net (subnet_pool rt) (held (networks rt)) (netmask config) Hp Hm) as (s' & lr & El & Hlr).
  change (subnet_pool rt1) with (subnet_pool rt). rewrite El. cbn [mbind outcome_bind].
  assert (Hab : ∀ rt2, rt_tasks rt2 = rt_tasks rt1 → abandon rt2 = Ret (with_tasks rt2 (rt_tasks rt))).
  { intros rt2 E2. unfold abandon, permit_drop. rewrite one_less_ok by (rewrite E2; cbn; lia). rewrite bind_Ret, E2. cbn. do 3 f_equal.
    unfold set_pending. cbn. destruct (rt_tasks rt). cbn in *. do 2 f_equal. lia. }
  destruct lr as [l|[]].
  2: { rewrite Hab by done. cbn [mbind outcome_bind]. eexists _, _. split; [done|]. split_and!; [|done|done]. destruct Hlr as [Hp' _]. by split. }
  destruct Hlr as [Hp' Hmask]. destruct (container_create_ok net (with_pool rt1 s') config l Hp' Hr Hf) as (rt2 & cr & -> & Hok2 & Ht2 & Hcr).
  cbn [mbind outcome_bind]. destruct cr as [a|err].
  2: { rewrite Hab by done. cbn [mbind outcome_bind]. eexists _, _. split; [done|]. split_and!; [by apply node_ok_tasks|done|].
       intros _ _. destruct err; [|done]. cbn [networks with_tasks rt_tasks]. by rewrite Hcr. }
  destruct Hcr as (range & He & Hin). set (rt3 := if closed then _ else _).
  assert (Hfree : tasks (rt_tasks rt) !! next_task_id (rt_tasks rt) = None).
  { apply not_elem_of_dom. rewrite Hdom. intros Hi%Hfresh. lia. }
  assert (Hok3 : node_ok net rt3 ∧ networks rt3 = networks rt2) by (subst rt3; destruct closed; [by split; [apply node_ok_tasks|]|done]).
  destruct Hok3 as [Hok3 En3]. unfold spawn_on. assert (Ec3 : closing (rt_tasks rt3) = closed).
  { subst rt3. destruct closed; cbn; [done|]. by rewrite Ht2. }
  rewrite Ec3. destruct closed; subst rt3.
  - rewrite one_less_ok by (cbn; rewrite Ht2; cbn; lia). cbn [mbind outcome_bind]. eexists _, _. split; [done|].
    split_and!; [by apply node_ok_tasks|cbn; rewrite Ht2; cbn; lia|done].
  - rewrite Ht2. cbn [tasks next_task_id pending_spawns closing rt1 with_tasks with_pool rt_tasks set_pending].
    rewrite bool_decide_eq_true_2 by done. cbn [assert_]. rewrite bind_Ret, one_less_ok by (cbn; lia). cbn [mbind outcome_bind].
    eexists _, _. split; [done|]. split_and!; [by apply node_ok_tasks|cbn; lia|]. destruct started; [|done].
    split_and!; [done|done|]. exists range, (mkRegNode l (inbox_size config)). split_and!; [exact He|done|exact Hmask|done].
Qed.


(** An actor's subnet comes back when the actor ends: unregistering it takes exactly its node off the registry and keeps the node's
    books, so that its addresses are free again, for none of the actors that remain holds one of them. *)
Theorem subnet_returned net rt r node (Hok : node_ok net rt) (Hin : (r, node) ∈ ti_entries (networks rt)) :
  ∃ rt', subnet_done rt (net_address (node_lease node)) = Ret (rt', true) ∧ node_ok net rt' ∧
    ti_entries (networks rt) ≡ₚ (r, node) :: ti_entries (networks rt') ∧
    (linked node → ∀ x, net_contains (net_address (node_lease node)) x → ¬ leased (held (networks rt')) x).
Proof.
  destruct Hok as [Hp Hr Hf]. pose proof Hf as Hf'. rewrite Forall_forall in Hf'. pose proof (Hf' _ Hin) as Er. cbn in Er.
  unfold subnet_done. rewrite Er, bind_Ret. destruct (unregister_exact (networks rt) _ r node Hr Er Hin) as (nets & Eu & He). rewrite Eu, bind_Ret.
  assert (Hfound : ti_peek (networks rt) r = Some (r, node)).
  { destruct Hr as [Hro Hrd]. assert (Hrr : range_ok r) by (rewrite Forall_forall in Hro; by apply (Hro (r, node))).
    destruct (ti_peek (networks rt) r) as [e|] eqn:Ep.
    - apply ti_peek_some in Ep as [He' Heq]. f_equal. by eapply disjoint_equal.
    - apply ti_peek_none in Ep. rewrite Forall_forall in Ep. by destruct (Ep _ Hin (range_cmp_refl r Hrr)). }
  rewrite Hfound. pose proof (held_perm nets (networks rt) (r, node) He) as Hh. cbn [snd] in Hh. cbn [subnet_pool with_networks].
  pose proof (unregister_inv _ _ _ _ Hr Eu) as Hr'. rewrite He in Hf. apply Forall_cons in Hf as [_ Hf].
  destruct (decide (linked node)) as [Hl|Hl].
  - destruct (drop_spec net _ _ (node_lease node) (held nets) Hp Hh) as (pool & -> & Hp'). cbn [mbind outcome_bind].
    eexists. split; [done|]. split_and!; [by split|done|]. intros _ x Hx. cbn [networks with_networks with_pool].
    pose proof (inv_disjoint _ _ Hp) as Hd. cbn in Hd. rewrite Hh in Hd. by apply Hd.
  - assert (Ed : lease_drop (subnet_pool rt) (node_lease node) = Ret (subnet_pool rt)).
    { unfold lease_drop, linked in *. by destruct (shared (node_lease node)). }
    rewrite Ed. cbn [mbind outcome_bind]. eexists. split; [done|]. split_and!; [|done|done]. split; [|done|done].
    by eapply pool_inv_perm.
Qed.

(** A node that has just been created *)
Lemma rt_create_ok net (d : Rt) named : net_ok net → ∃ rt, rt_create net d named = Ret rt ∧ node_ok net rt ∧ rt_tasks rt = registry_new ∧ named_rts rt = named.
Proof.
  intros Hn. destruct (pool_new_spec net Hn) as (s & Es & Hi). unfold rt_create. rewrite Es, bind_Ret. eexists. split; [done|].
  split_and!; [|done|done]. split; cbn.
  - unfold held. by rewrite ti_entries_empty.
  - unfold reg_inv. rewrite ti_entries_empty. by split.
  - by rewrite ti_entries_empty.
Qed.
End Spawn.

(** ** Examples *)
Section Examples.
#[local] Existing Instance list_tree_index.

Definition fresh_sys : Sys := mkSys registry_new 0 ∅ 0.
Lemma fresh_sys_inv : sys_inv fresh_sys.
Proof. apply tasks_reachable_inv. constructor. Qed.

Definition auto_net : NetAddress := DEFAULT_LOCAL_SUBNET_ADDRESS_AUTO.
Lemma auto_net_ok : net_ok auto_net.
Proof. by vm_compute. Qed.

Lemma with_db_ok : config_ok with_db.
Proof. by apply (validated with_db with_db default_subnets_ok); vm_compute. Qed.

Lemma spawn_ready : ∃ rt, rt_create (TI := ListIndex) auto_net 0 {["io" := 1]} = Ret rt ∧ node_ok auto_net rt ∧
  dom (rt_named (runtime with_db)) ⊆ dom (named_rts rt) ∧ inner fresh_sys = rt_tasks rt.
Proof.
  destruct (rt_create_ok (TI := ListIndex) auto_net 0 {["io" := 1]} auto_net_ok) as (rt & E & Hok & Ht & Hn).
  exists rt. split_and!; [done|done| |done]. rewrite Hn. cbn [with_db runtime rt_named]. by rewrite !dom_singleton.
Qed.
Lemma db_netmask : 0 ≤ netmask (select (actor with_db) (child Root "db")) ≤ 64.
Proof. vm_compute. by split. Qed.


(** The first actor gets the first subnet, of the default size, and its first address. *)
Definition one_actor : outcome (NodeRt (TI := ListIndex) (Rt := Z) * result (Address * Z) SpawnErrorKind) :=
  rt ← rt_create auto_net 0 {["io" := 1]}; do_spawn (actor with_db) rt Root "db" false true.
Definition actor_net : NetAddress := mkNet 0xFFF8000000000000 56.

Example one_actor_spawned : match one_actor with
  | Ret (rt, r) => r = Ok (0xFFF8000000000000, 1) ∧ tasks (rt_tasks rt) = {[0 := 0xFFF8000000000000]} ∧
      ti_entries (networks rt) = [(mkRange 0xFFF8000000000000 0xFFF80000000000FF, mkRegNode (mkLease actor_net Linked) 16)]
  | Panic => False
  end.
Proof. vm_compute. done. Qed.

Lemma one_actor_ok : ∃ rt r, one_actor = Ret (rt, r) ∧ node_ok auto_net rt ∧
  (mkRange 0xFFF8000000000000 0xFFF80000000000FF, mkRegNode (mkLease actor_net Linked) 16) ∈ ti_entries (networks rt).
Proof.
  destruct spawn_ready as (rt & E & Hok & Hd & Ht).
  destruct (do_spawn_ok with_db auto_net rt Root "db" false true fresh_sys with_db_ok Hd Hok db_netmask fresh_sys_inv eq_refl Ht) as (rt' & r & E' & Hok' & _).
  exists rt', r.
  assert (Eo : one_actor = Ret (rt', r)) by (unfold one_actor; by rewrite E). split; [done|]. split; [done|].
  pose proof one_actor_spawned as Ho. rewrite Eo in Ho. destruct Ho as (_ & _ & ->). by left.
Qed.

Lemma subnet_returned_witness : ∃ rt r rt', one_actor = Ret (rt, r) ∧ subnet_done rt actor_net = Ret (rt', true).
Proof.
  destruct one_actor_ok as (rt & r & E & Hok & Hin).
  destruct (subnet_returned auto_net rt _ _ Hok Hin) as (rt' & Ed & _). exists rt, r, rt'. split; [exact E|exact Ed].
Defined.
End Examples.
