(* ===== verification/Start.v ===== *)
(** * Waiting for a child to start, and the calls of an actor to its container
    (core/mm1-node/src/runtime/context/impl_context_api.rs: [do_start], [do_exit] and the other [do_*], [spawn], [quit_ok], [quit_err])

    [start] spawns a child that acknowledges to a transient fork and is linked to it, so that an early death is noticed; when the
    acknowledgement comes, the link is handed over to the caller. The containers of both are those of Container.v. *)

From S2P Require Import Prelude U64 Collections Container.

Open Scope Z_scope.

(** ** Calls and messages *)

(** [quit_ok], [quit_err], [do_link], [do_unlink], [do_set_trap_exit], [do_watch], [do_unwatch]: a call to the actor's own container *)
Definition quit_ok : SysCall := CallExit (Ok tt).
Definition quit_err : SysCall := CallExit (Err UserError).
Definition do_link (this peer : Address) : SysCall := CallLink this peer.
Definition do_unlink (this peer : Address) : SysCall := CallUnlink this peer.
Definition do_set_trap_exit (enable : bool) : SysCall := CallTrapExit enable.
Definition do_watch (this peer : Address) : SysCall := CallWatch this peer.
Definition do_unwatch (this : Address) (watch_ref : WatchRef) : SysCall := CallUnwatch this watch_ref.

(** [do_exit] and [do_kill]: a system message to the peer *)
Definition do_exit (this peer : Address) : SysMsg := Link (LinkExit this peer Terminate).
Definition do_kill : SysMsg := Kill.

(** [do_init_done]: the address that waits for the acknowledgement is used once. *)
Definition do_init_done (ack_to : option Address) (address : Address) : option Address * option (Address * Address) :=
  match ack_to with Some to => (None, Some (to, address)) | None => (None, None) end.

(** ** Start *)
Inductive SpawnError := SpawnInternal | SpawnResource.
Inductive StartErrorKind := StartSpawn (e : SpawnError) | StartTimeout | StartExited | StartInternal.

(** What the fork receives within the timeout *)
Inductive Awaited := Elapsed | RecvError | InitAck (address : Address) | ExitedEarly | OtherMessage.

Inductive StartAct :=
| SpawnChild (ack_to link_to : option Address)
| Call (c : SysCall)
| SendKill (peer : Address)
| DropFork.

(** [Start::spawn] *)
Definition spawn (this : Address) (link : bool) : StartAct := SpawnChild None (if link then Some this else None).

(** [do_start]; [forked] is the address of the transient fork, [spawned] the answer of [do_spawn], and [killed] whether a kill can be sent.
    However it ends, the fork is dropped. *)
Definition do_start (this : Address) (forked : result Address unit) (spawned : result Address SpawnError) (awaited : Awaited) (killed link : bool) :
    list StartAct * result Address StartErrorKind :=
  match forked with
  | Err _ => ([], Err StartInternal)
  | Ok fork =>
      let child := SpawnChild (Some fork) (Some fork) in
      match spawned with
      | Err e => ([child; DropFork], Err (StartSpawn e))
      | Ok spawned_address =>
          match awaited with
          | Elapsed => ([child; SendKill spawned_address; DropFork], Err (if killed then StartTimeout else StartInternal))
          | RecvError | OtherMessage => ([child; DropFork], Err StartInternal)
          | ExitedEarly => ([child; DropFork], Err StartExited)
          | InitAck address =>
              ([child; Call (do_unlink fork address)] ++ (if link then [Call (do_link this address)] else []) ++ [DropFork], Ok address)
          end
      end
  end.

(** What the caller's container makes of it: its calls, and the end of the fork *)
Definition container_sees (e : Env) (fork : Address) (acts : list StartAct) : list (Env * Selected) :=
  omap (λ a, match a with
             | Call c => Some (e, SelCall (Some c))
             | DropFork => Some (e, SelMsg (Some (ForkDone fork)))
             | _ => None
             end) acts.

(** The messages a container sends to one address *)
Definition sent_to (a : Address) (out : list Out) : list SysMsg :=
  omap (λ o, match o with SysSend to m => if bool_decide (to = a) then Some m else None | _ => None end) out.

Definition sees (e : Env) (ms : list SysMsg) : list (Env * Selected) := (λ m, (e, SelMsg (Some m))) <$> ms.

Definition env_good (e : Env) : Prop := (∀ m, send_ok e m = true) ∧ mailbox_open e = true.

(** All that the handover of a started child sends: it is unlinked from the fork and, if so asked, linked to the caller. *)
Definition handover (this fork child : Address) (link : bool) : list SysMsg :=
  Link (Disconnect fork child) :: if link then [Link (Connect this child)] else [].

Lemma sent_to_all a ms : sent_to a (SysSend a <$> ms) = ms.
Proof. unfold sent_to. induction ms as [|m ms IH]; [done|]. cbn. rewrite bool_decide_true by done. by f_equal. Qed.

(** The caller's side *)
Lemma caller_hands_over e st this fork child link jt : env_good e → this ≠ fork →
  job_entries st !! this = Some jt → child ∉ linked_to jt → job_entries st !! fork = Some (mkJob {[child]} ∅ ∅) →
  ∃ st', main_loop st (container_sees e fork (do_start this (Ok fork) (Ok child) (InitAck child) true link).1) =
      Ret (st', SysSend child <$> handover this fork child link, Go) ∧
    job_entries st' = <[this := set_linked jt (if link then {[child]} ∪ linked_to jt else linked_to jt)]> (delete fork (job_entries st)).
Proof.
  intros [He _] Hne Ht Hl Hf.
  assert (Hd : ∀ st1, job_entries st1 !! fork = Some (mkJob ∅ ∅ ∅) → on_fork_done st1 fork = Ret (set_taken (set_jobs st1 (delete fork (job_entries st1))) (taken_watch_refs st1), [], None)).
  { intros st1 E1. unfold on_fork_done. rewrite E1. reflexivity. }
  assert (Hu : on_unlink st fork child = Ret (set_jobs st (<[fork := mkJob ∅ ∅ ∅]> (job_entries st)), [SysSend child (Link (Disconnect fork child))], None)).
  { unfold on_unlink. rewrite Hf. cbn [expect mbind outcome_bind linked_to]. rewrite bool_decide_true by set_solver.
    unfold set_linked. cbn [linked_to watches watched_by]. by replace ({[child]} ∖ {[child]} : gset Address) with (∅ : gset Address) by set_solver. }
  set (st1 := set_jobs st (<[fork := mkJob ∅ ∅ ∅]> (job_entries st))) in *.
  assert (Ht1 : job_entries st1 !! this = Some jt) by (cbn; by rewrite lookup_insert_ne).
  destruct link; cbn [do_start fst container_sees omap list_omap app]; cbn [main_loop turn on_call do_unlink do_link]; rewrite Hu; cbn [mbind outcome_bind flow_of].
  - unfold on_link, sys_send_or. rewrite Ht1. cbn [expect mbind outcome_bind]. rewrite bool_decide_false, He by done. cbn [mbind outcome_bind flow_of on_msg].
    rewrite Hd by (cbn; rewrite lookup_insert_ne, lookup_insert_eq; done). cbn [mbind outcome_bind flow_of app]. eexists. split; [done|].
    cbn. rewrite delete_insert_ne by done. f_equal. by rewrite delete_insert_eq.
  - cbn [on_msg]. rewrite Hd by (cbn; by rewrite lookup_insert_eq). cbn [mbind outcome_bind flow_of app]. eexists. split; [done|].
    cbn. rewrite delete_insert_eq. rewrite insert_id; [done|]. rewrite lookup_delete_ne by done. rewrite Ht. by destruct jt.
Qed.

(** The child's side *)
Lemma child_follows e this fork child (link : bool) : env_good e → this ≠ fork →
  ∃ stc out, start e child [fork] = Ret (stc, [SysSend fork (Link (Connect child fork))]) ∧
    main_loop stc (sees e (handover this fork child link)) = Ret (out, [], Go) ∧
    job_entries out = {[child := mkJob (if link then {[this]} else ∅) ∅ ∅]}.
Proof.
  intros [He Hm] Hne. unfold start. rewrite Hm. cbn [assert_ mbind outcome_bind].
  assert (El : list_to_set [fork] = ({[fork]} : gset Address)) by (cbn; set_solver). rewrite El, elements_singleton. cbn [mbind list_bind]. rewrite He. cbn [app].
  set (st0 := mkSt {[child := mkJob {[fork]} ∅ ∅]} ∅ 0 false).
  assert (Hdis : (unlink_entry st0 fork child).1 = mkSt {[child := mkJob ∅ ∅ ∅]} ∅ 0 false).
  { unfold unlink_entry. cbn [job_entries st0]. rewrite lookup_singleton_eq. cbn [fst]. unfold set_jobs, set_linked.
    cbn [linked_to watches watched_by taken_watch_refs next_watch_ref trap_exit job_entries].
    f_equal. rewrite insert_singleton_eq. by replace ({[fork]} ∖ {[fork]} : gset Address) with (∅ : gset Address) by set_solver. }
  destruct link; eexists _, _; (split; [done|]); cbn [handover sees fmap list_fmap app main_loop turn on_msg]; rewrite Hdis; cbn [mbind outcome_bind flow_of]; [|done].
  cbn [job_entries]. rewrite lookup_singleton_eq. cbn [mbind outcome_bind flow_of app]. split; [done|].
  cbn [job_entries set_jobs set_linked linked_to watches watched_by].
  rewrite insert_singleton_eq. by replace ({[this]} ∪ ∅ : gset Address) with ({[this]} : gset Address) by set_solver.
Qed.

(** C21: Starting a child, both containers together, when everything sent is received, the caller was not linked to the child before and the fork
    has nothing of its own: when the child's link to the transient fork has reached the caller before the caller
    handles the acknowledgement, then after the start, and the end of the fork, the two sides agree, the child being linked to the
    caller if it was asked for and to nothing otherwise; the fork is gone from both, and no exit signal has been sent to either: all that the caller's
    container has sent to anyone is that the fork unlinks the child and, if asked for, that the caller links it; the child's container answers nothing. *)
Theorem start_hands_over e st this fork child link jt (He : env_good e) (Hne : this ≠ fork) (Ht : job_entries st !! this = Some jt)
  (Hl : child ∉ linked_to jt) (Hf : job_entries st !! fork = Some job_empty) :
  ∃ stc st1 st2 out2 stc',
    start e child [fork] = Ret (stc, [SysSend fork (Link (Connect child fork))]) ∧
    main_loop st (sees e [Link (Connect child fork)]) = Ret (st1, [], Go) ∧
    main_loop st1 (container_sees e fork (do_start this (Ok fork) (Ok child) (InitAck child) true link).1) = Ret (st2, out2, Go) ∧
    out2 = SysSend child (Link (Disconnect fork child)) :: (if link then [SysSend child (Link (Connect this child))] else []) ∧
    main_loop stc (sees e (sent_to child out2)) = Ret (stc', [], Go) ∧
    job_entries st2 = <[this := set_linked jt (if link then {[child]} ∪ linked_to jt else linked_to jt)]> (delete fork (job_entries st)) ∧
    job_entries stc' = {[child := mkJob (if link then {[this]} else ∅) ∅ ∅]}.
Proof.
  destruct (child_follows e this fork child link He Hne) as (stc & stc' & Es & Ec & Hc).
  set (st1 := set_jobs st (<[fork := mkJob {[child]} ∅ ∅]> (job_entries st))).
  assert (E1 : main_loop st (sees e [Link (Connect child fork)]) = Ret (st1, [], Go)).
  { cbn [sees fmap list_fmap main_loop turn on_msg]. rewrite Hf.
    cbn [mbind outcome_bind flow_of app]. unfold st1, set_linked, job_empty. cbn [linked_to watches watched_by].
    by replace ({[child]} ∪ ∅ : gset Address) with ({[child]} : gset Address) by set_solver. }
  destruct (caller_hands_over e st1 this fork child link jt He Hne) as (st2 & E2 & Hj); [cbn; by rewrite lookup_insert_ne|done|cbn; by rewrite lookup_insert_eq|].
  eexists _, _, _, _, _. split_and!; [exact Es|exact E1|exact E2|by destruct link| | |exact Hc].
  - by rewrite sent_to_all.
  - rewrite Hj. cbn. by rewrite delete_insert_eq.
Qed.

(** ** Examples *)
Section Examples.
Definition caller : St := mkSt {[1 := job_empty; 2 := job_empty]} ∅ 0 false.

Lemma start_hands_over_witness : ∃ stc st1 st2 stc', start env_ok 9 [2] = Ret (stc, [SysSend 2 (Link (Connect 9 2))]) ∧
  main_loop caller (sees env_ok [Link (Connect 9 2)]) = Ret (st1, [], Go) ∧
  main_loop st1 (container_sees env_ok 2 (do_start 1 (Ok 2) (Ok 9) (InitAck 9) true true).1) =
    Ret (st2, [SysSend 9 (Link (Disconnect 2 9)); SysSend 9 (Link (Connect 1 9))], Go) ∧
  main_loop stc (sees env_ok [Link (Disconnect 2 9); Link (Connect 1 9)]) = Ret (stc', [], Go) ∧ linked stc' 1 9.
Proof.
  destruct (start_hands_over env_ok caller 1 2 9 true job_empty) as (stc & st1 & st2 & out2 & stc' & E & E1 & E2 & -> & E3 & _ & Hc).
  - by split.
  - lia.
  - vm_compute. reflexivity.
  - apply not_elem_of_empty.
  - vm_compute. reflexivity.
  - exists stc, st1, st2, stc'. split; [exact E|]. split; [exact E1|]. split; [exact E2|]. split; [exact E3|].
    unfold linked. rewrite Hc, lookup_singleton_eq. cbn. by apply elem_of_singleton.
Defined.

(** When the acknowledgement is handled first, as the caller's container prefers calls to system messages, the unlinking finds no link;
    the link that then arrives is still there when the fork ends, and the started child is told that the fork has exited. *)
Theorem start_race : ∃ st out,
  main_loop caller ([(env_ok, SelCall (Some (do_unlink 2 9))); (env_ok, SelMsg (Some (Link (Connect 9 2)))); (env_ok, SelMsg (Some (ForkDone 2)))]) =
    Ret (st, out, Go) ∧ sent_to 9 out = [Link (LinkExit 2 9 Normal)] ∧
  ∃ stc outc, main_loop (mkSt {[9 := mkJob {[2]} ∅ ∅]} ∅ 0 true) (sees env_ok (sent_to 9 out)) = Ret (stc, outc, Go) ∧
    outc = [Deliver 9 (MExited 2 true)].
Proof. eexists _, _. split; [vm_compute; reflexivity|]. split; [vm_compute; reflexivity|]. eexists _, _. split; vm_compute; reflexivity. Qed.

Example init_done_once : (do_init_done (do_init_done (Some 2) 9).1 9).2 = None.
Proof. reflexivity. Qed.
End Examples.
