(* ===== verification/Stop.v ===== *)
(** * Stopping a peer (core/mm1-core/src/context/stop.rs, [Stop::shutdown])

    A transient fork watches the peer; the peer is asked to exit and, when the time is up, killed; the fork waits for the report of its end.
    Supervisors stop their children so. The containers of both sides are those of Container.v. *)

From S2P Require Import Prelude U64 Collections Container Start.

Open Scope Z_scope.

Inductive ShutdownErrorKind := ShutdownFork | ShutdownRecv.

Inductive StopAct := StopCall (c : SysCall) | StopSend (to : Address) (m : SysMsg) | StopDropFork.

(** What the [select!] sees, in any order: the sequence of exit and kill is polled for the first time, its sleep ends, or the fork receives. *)
Inductive StopEv :=
| SeqPolled
| SleepOver
| StopMsg (m : Message)
| StopOther
| StopRecvError.

(** How far the sequence is *)
Inductive Seq := SeqNew | SeqAsleep | SeqDone.

(** The loop of [shutdown]: [None] while it waits. *)
Fixpoint shutdown_loop (this peer : Address) (watch_ref : WatchRef) (seq : Seq) (evs : list StopEv) : list StopAct * option (result unit ShutdownErrorKind) :=
  match evs with
  | [] => ([], None)
  | SeqPolled :: evs =>
      match seq with
      | SeqNew => let '(acts, r) := shutdown_loop this peer watch_ref SeqAsleep evs in (StopSend peer (do_exit this peer) :: acts, r)
      | seq => shutdown_loop this peer watch_ref seq evs
      end
  | SleepOver :: evs =>
      match seq with
      | SeqAsleep => let '(acts, r) := shutdown_loop this peer watch_ref SeqDone evs in (StopSend peer do_kill :: acts, r)
      | seq => shutdown_loop this peer watch_ref seq evs
      end
  | StopMsg (MDown down_peer down_ref _) :: evs =>
      if bool_decide (down_ref = watch_ref) && bool_decide (down_peer = peer) then ([], Some (Ok tt)) else shutdown_loop this peer watch_ref seq evs
  | StopMsg (MExited _ _) :: evs | StopOther :: evs => shutdown_loop this peer watch_ref seq evs
  | StopRecvError :: _ => ([], Some (Err ShutdownRecv))
  end.

(** [Stop::shutdown]; [watch_ref] is the container's answer to the watch. *)
Definition shutdown (this peer : Address) (forked : result Address unit) (watch_ref : WatchRef) (evs : list StopEv) :
    list StopAct * option (result unit ShutdownErrorKind) :=
  match forked with
  | Err _ => ([], Some (Err ShutdownFork))
  | Ok fork =>
      let '(acts, r) := shutdown_loop this peer watch_ref SeqNew evs in
      (StopCall (do_watch fork peer) :: acts ++ (match r with Some _ => [StopDropFork] | None => [] end), r)
  end.

(** ** What the fork waits for *)
Definition is_report (peer : Address) (watch_ref : WatchRef) (ev : StopEv) : Prop := ∃ normal_exit, ev = StopMsg (MDown peer watch_ref normal_exit).

Lemma shutdown_loop_ok this peer ref evs : ∀ seq,
  ((shutdown_loop this peer ref seq evs).2 = Some (Ok tt) → Exists (is_report peer ref) evs) ∧
  (Exists (is_report peer ref) evs → StopRecvError ∉ evs → (shutdown_loop this peer ref seq evs).2 = Some (Ok tt)).
Proof.
  induction evs as [|ev evs IH]; intros seq; cbn [shutdown_loop]; [split; [done|by intros ?%Exists_nil]|].
  assert (Hskip : ∀ seq', ¬ is_report peer ref ev →
    ((shutdown_loop this peer ref seq' evs).2 = Some (Ok tt) → Exists (is_report peer ref) (ev :: evs)) ∧
    (Exists (is_report peer ref) (ev :: evs) → StopRecvError ∉ ev :: evs → (shutdown_loop this peer ref seq' evs).2 = Some (Ok tt))).
  { intros seq' Hn. rewrite Exists_cons, not_elem_of_cons. destruct (IH seq') as [H1 H2]. split; [auto|]. intros [?|?] [_ ?]; [done|auto]. }
  destruct ev as [| |[p b|p r b]| |].
  - destruct seq; [|by apply Hskip; intros [? ?]|by apply Hskip; intros [? ?]].
    destruct (shutdown_loop this peer ref SeqAsleep evs) as [acts res] eqn:E. cbn [snd]. change res with (acts, res).2. rewrite <- E. apply Hskip. by intros [? ?].
  - destruct seq; [by apply Hskip; intros [? ?]| |by apply Hskip; intros [? ?]].
    destruct (shutdown_loop this peer ref SeqDone evs) as [acts res] eqn:E. cbn [snd]. change res with (acts, res).2. rewrite <- E. apply Hskip. by intros [? ?].
  - apply Hskip. by intros [? ?].
  - case_bool_decide; [case_bool_decide|]; cbn [andb].
    + subst. split; [|done]. intros _. left. by eexists.
    + apply Hskip. by intros [? [= ]].
    + apply Hskip. by intros [? [= ]].
  - apply Hskip. by intros [? ?].
  - split; [done|]. intros _ Hn. exfalso. apply Hn. by left.
Qed.

(** ** The peer's container *)

(** The entry of the fork [a] has [x] in the set [field] *)
Definition has_in (field : JobEntry → gset (Address * WatchRef)) (st : St) (a : Address) (x : Address * WatchRef) : Prop :=
  ∃ j, job_entries st !! a = Some j ∧ x ∈ field j.

(** The peer knows that it is watched, and the fork that it watches *)
Definition watched (st : St) (peer fork : Address) (ref : WatchRef) : Prop := has_in watched_by st peer (fork, ref).
Definition watching (st : St) (fork peer : Address) (ref : WatchRef) : Prop := has_in watches st fork (peer, ref).

(** A message that makes the peer forget *)
Definition forgets (peer fork : Address) (ref : WatchRef) (m : SysMsg) : Prop :=
  m = SWatch (Unwatch fork peer ref) ∨ (∃ reason, m = SWatch (Down fork peer reason)) ∨ m = ForkDone peer.

Lemma has_in_update field st st' a j j' b x : job_entries st !! a = Some j → job_entries st' = <[a := j']> (job_entries st) →
  (a = b → x ∈ field j → x ∈ field j') → has_in field st b x → has_in field st' b x.
Proof.
  intros Ha E Hj (jp & Hp & Hin). unfold has_in. rewrite E. destruct (decide (a = b)) as [->|Hne].
  - rewrite lookup_insert_eq. simplify_eq. eauto.
  - rewrite lookup_insert_ne by done. eauto.
Qed.

Lemma unlink_watched st s a peer fork ref : watched st peer fork ref → watched (unlink_entry st s a).1 peer fork ref.
Proof. unfold unlink_entry. destruct (job_entries st !! a) as [j|] eqn:E; [|done]. eapply has_in_update; [done|done|done]. Qed.

Lemma call_watched e st c st' out o peer fork ref : on_call e st c = Ret (st', out, o) → watched st peer fork ref → watched st' peer fork ref.
Proof.
  intros E Hw. destruct c as [r|b|s r|s r|f| |s r|s r]; cbn [on_call] in E.
  - by injection E as <- _ _.
  - by injection E as <- _ _.
  - unfold on_link in E. apply bind_Ret_inv in E as (j & Hj & E). destruct (job_entries st !! s) as [j'|] eqn:Es; [|done]. injection Hj as ->.
    case_bool_decide; [by injection E as <- _ _|]. apply bind_Ret_inv in E as (out1 & _ & [= <- _ _]). by eapply has_in_update.
  - unfold on_unlink in E. apply bind_Ret_inv in E as (j & Hj & E). destruct (job_entries st !! s) as [j'|] eqn:Es; [|done]. injection Hj as ->.
    case_bool_decide; injection E as <- _ _; [by eapply has_in_update|done].
  - apply bind_Ret_inv in E as (u & Ha%assert_Ret_inv%bool_decide_eq_true & [= <- _ _]). destruct Hw as (j & Hp & Hin). exists j. split; [|done].
    cbn. rewrite lookup_insert_ne; [done|congruence].
  - by injection E as <- _ _.
  - unfold on_watch in E. apply bind_Ret_inv in E as (j & Hj & E). destruct (job_entries st !! s) as [j'|] eqn:Es; [|done]. injection Hj as ->.
    apply bind_Ret_inv in E as ([w n] & _ & E). apply bind_Ret_inv in E as (out1 & _ & [= <- _ _]). by eapply has_in_update.
  - unfold on_unwatch in E. destruct (taken_watch_refs st !! r) as [[ow tg]|]; [|by injection E as <- _ _].
    apply bind_Ret_inv in E as (j & Hj & [= <- _ _]). destruct (job_entries st !! ow) as [j'|] eqn:Es; [|done]. injection Hj as ->. by eapply has_in_update.
Qed.

Lemma msg_watched e st m st' out o peer fork ref : on_msg e st m = Ret (st', out, o) → ¬ forgets peer fork ref m →
  watched st peer fork ref → watched st' peer fork ref.
Proof.
  intros E Hf Hw. destruct m as [|[s r|s r|s r reason]|[s r w|s r w|s r reason]|f]; cbn [on_msg] in E.
  - by injection E as <- _ _.
  - destruct (job_entries st !! r) as [j|] eqn:Er; injection E as <- _ _; [by eapply has_in_update|done].
  - injection E as <- _ _. by apply unlink_watched.
  - unfold on_link_exit in E. pose proof (unlink_watched st s r _ _ _ Hw) as Hu. destruct (trap_exit st).
    + destruct (job_entries st !! r); [|by injection E as <- _ _]. destruct reason; [|by injection E as <- _ _|]; destruct (unlink_entry st s r); by injection E as <- _ _.
    + destruct reason; [by injection E as <- _ _|by injection E as <- _ _|]. destruct (unlink_entry st s r). by injection E as <- _ _.
  - destruct (job_entries st !! r) as [j|] eqn:Er; injection E as <- _ _; [|done]. eapply has_in_update; [done|done| |done]. cbn. set_solver.
  - destruct (job_entries st !! r) as [j|] eqn:Er; injection E as <- _ _; [|done]. eapply has_in_update; [done|done| |done]. cbn. intros -> Hin.
    apply elem_of_difference. split; [done|]. intros [= -> ->]%elem_of_singleton. apply Hf. by left.
  - unfold on_down in E. destruct (job_entries st !! r) as [j|] eqn:Er; [|by injection E as <- _ _].
    destruct (drain_range (size (watched_by j)) (watched_by j) s) as [by_ l] eqn:Eb. destruct (drain_range (size (watches j)) (watches j) s) as [ws l'].
    injection E as <- _ _. eapply has_in_update; [done|done| |done]. cbn. intros -> Hin.
    apply drain_range_spec in Eb as (_ & _ & Hb); [|done]. apply Hb. split; [done|]. cbn. intros ->. apply Hf. right; left. by eexists.
  - unfold on_fork_done in E. apply bind_Ret_inv in E as (j & Hj & E). destruct (unwatch_targets _ _ _) as [taken out1]. injection E as <- _ _.
    destruct Hw as (jp & Hp & Hin). exists jp. split; [|done]. cbn. rewrite lookup_delete_ne; [done|]. intros ->. apply Hf. by right; right.
Qed.

(** The system messages among what a container selects *)
Definition msgs_of (ins : list (Env * Selected)) : list SysMsg := omap (λ x, match x.2 with SelMsg m => m | _ => None end) ins.

Lemma turn_watched e st s st' out f peer fork ref : turn e st s = Ret (st', out, f) → Forall (λ m, ¬ forgets peer fork ref m) (msgs_of [(e, s)]) →
  watched st peer fork ref ∨ SWatch (Watch fork peer ref) ∈ msgs_of [(e, s)] ∧ is_Some (job_entries st !! peer) → watched st' peer fork ref.
Proof.
  intros E Hf Hw.
  assert (Hcall : ∀ c st' out f, ('(st, out, o) ← on_call e st c; Ret (st, out, flow_of o)) = Ret (st', out, f) → watched st peer fork ref → watched st' peer fork ref).
  { intros c st1 o1 f1 ([[st2 o2] r2] & E2 & [= <- _ _])%bind_Ret_inv. by eapply call_watched. }
  destruct s as [|[c|]|[m|]| |[]]; cbn [turn] in E; cbn in Hw;
    try (destruct Hw as [Hw|[?%not_elem_of_nil _]]; [|done]); try (by injection E as <- _ _); try (by eapply Hcall).
  apply bind_Ret_inv in E as ([[st2 o2] r2] & E2 & [= <- _ _]). cbn in Hf. apply Forall_cons in Hf as [Hf _].
  destruct Hw as [Hw|[<-%list_elem_of_singleton [j Hj]]]; [by eapply msg_watched|]. cbn [on_msg] in E2. rewrite Hj in E2. injection E2 as <- _ _.
  eexists. cbn. rewrite lookup_insert_eq. split; [done|]. cbn. set_solver.
Qed.

(** The container has taken all of [ins]: only the last turn may have ended its loop. *)
Fixpoint through (st : St) (ins : list (Env * Selected)) : Prop :=
  match ins with
  | [] => True
  | (e, s) :: ins => ins = [] ∨ ∃ st1 out, turn e st s = Ret (st1, out, Go) ∧ through st1 ins
  end.

Definition tells_down (peer fork : Address) (out : list Out) : Prop := ∃ reason, SysSend fork (SWatch (Down peer fork reason)) ∈ out.

Lemma tells_down_app peer fork out out' : tells_down peer fork out ∨ tells_down peer fork out' → tells_down peer fork (out ++ out').
Proof. intros [[reason H]|[reason H]]; exists reason; set_solver. Qed.

Lemma msgs_of_cons x ins : msgs_of (x :: ins) = msgs_of [x] ++ msgs_of ins.
Proof. unfold msgs_of. cbn. destruct x as [e [|[]|[]| |[]]]; done. Qed.

Lemma turn_told e st s st' out f peer fork ref : turn e st s = Ret (st', out, f) → Forall (λ m, ¬ forgets peer fork ref m) (msgs_of [(e, s)]) →
  watched st peer fork ref ∨ SWatch (Watch fork peer ref) ∈ msgs_of [(e, s)] → watched st' peer fork ref ∨ tells_down peer fork out.
Proof.
  intros E Hf [Hw|Hw]; [left; eapply turn_watched; eauto|]. destruct (job_entries st !! peer) as [j|] eqn:Ej.
  - left. eapply turn_watched; [done|done|]. rewrite Ej. eauto.
  - right. destruct s as [| |[m|]| |[]]; cbn in Hw; try (by apply not_elem_of_nil in Hw). apply list_elem_of_singleton in Hw as <-.
    cbn [turn on_msg] in E. rewrite Ej in E. cbn in E. injection E as _ <- _. exists LinkDown. set_solver.
Qed.

Lemma loop_told peer fork ref ins : ∀ st st' out f, main_loop st ins = Ret (st', out, f) → through st ins →
  Forall (λ m, ¬ forgets peer fork ref m) (msgs_of ins) → watched st peer fork ref ∨ SWatch (Watch fork peer ref) ∈ msgs_of ins →
  watched st' peer fork ref ∨ tells_down peer fork out.
Proof.
  induction ins as [|[e s] ins IH]; intros st st' out f E Ht Hf Hw; cbn [main_loop] in E.
  { injection E as <- _ _. destruct Hw as [Hw|Hw]; [by left|by apply not_elem_of_nil in Hw]. }
  rewrite msgs_of_cons, Forall_app in Hf. destruct Hf as [Hf1 Hf2]. rewrite msgs_of_cons, elem_of_app in Hw.
  apply bind_Ret_inv in E as ([[st1 out1] f1] & E1 & E).
  assert (Hrest : ins = [] ∨ f1 = Go ∧ through st1 ins).
  { destruct Ht as [->|(st2 & out2 & E2 & Ht)]; [by left|right]. rewrite E1 in E2. by injection E2 as -> _ ->. }
  assert (Hgo : ∀ st2 out2 f2, main_loop st1 ins = Ret (st2, out2, f2) → through st1 ins → watched st1 peer fork ref ∨ SWatch (Watch fork peer ref) ∈ msgs_of ins →
    watched st2 peer fork ref ∨ tells_down peer fork (out1 ++ out2)).
  { intros st2 out2 f2 E2 Ht2 Hw2. destruct (IH _ _ _ _ E2 Ht2 Hf2 Hw2); [by left|right; apply tells_down_app; by right]. }
  assert (Hw' : (watched st peer fork ref ∨ SWatch (Watch fork peer ref) ∈ msgs_of [(e, s)]) ∨ SWatch (Watch fork peer ref) ∈ msgs_of ins) by tauto.
  destruct Hw' as [Hnow|Hlater].
  - destruct (turn_told _ _ _ _ _ _ _ _ _ E1 Hf1 Hnow) as [Hw1|Ht1]; destruct f1; try (injection E as <- <- <-; by auto).
    + apply bind_Ret_inv in E as ([[st2 out2] f2] & E2 & [= <- <- <-]). destruct Hrest as [->|[_ Ht']]; [|by eapply Hgo; eauto].
      injection E2 as <- <- _. by left.
    + apply bind_Ret_inv in E as ([[st2 out2] f2] & E2 & [= <- <- <-]). right. apply tells_down_app. by left.
  - destruct Hrest as [->|[-> Ht']]; [by apply not_elem_of_nil in Hlater|].
    apply bind_Ret_inv in E as ([[st2 out2] f2] & E2 & [= <- <- <-]). by eapply Hgo; eauto.
Qed.

(** The end of the container reports to all who watch it. *)
Lemma epilogue_told peer fork ref r st pending st' out : epilogue peer r true st pending = Ret (st', out) →
  Forall (λ m, ¬ forgets peer fork ref m) pending → watched st peer fork ref ∨ SWatch (Watch fork peer ref) ∈ pending → tells_down peer fork out.
Proof.
  unfold epilogue. cbn [assert_]. rewrite bind_Ret. cbv zeta. destruct (drain_msgs (is_ok r) st pending) as [st1 out1] eqn:Ed.
  apply drain_msgs_spec in Ed as (dn & _ & Hin & Hj & Hp). intros (j & Ej & E)%bind_Ret_inv Hf Hw.
  pose proof (fork_end_notifies (is_ok r) peer j) as [_ Hn]. unfold fork_end in Hn. cbn [unwatch_targets snd] in Hn.
  destruct (unwatch_targets (taken_watch_refs st1) peer (watches j)) as [taken out2] eqn:Eu. injection Eu as _ <-. injection E as _ <-.
  exists (exit_reason_of (is_ok r)). apply elem_of_app. destruct Hw as [(j' & Hp' & Hin')|Hw].
  - right. apply Hn. assert (job_entries st1 !! peer = Some j') as E1.
    { rewrite Hj, decide_False; [done|]. intros [Hd _]%Hin. rewrite Forall_forall in Hf. apply (Hf _ Hd). by right; right. }
    rewrite E1 in Ej. injection Ej as ->. right; left. exists fork. split; [by exists ref|done].
  - left. rewrite Hp. apply elem_of_app. right. apply list_elem_of_bind. exists (SWatch (Watch fork peer ref)). split; [|done]. left.
Qed.

Lemma run_told peer fork ref e link_to ins pending out r : run e peer link_to ins true pending = Ret (out, Some (Ok r)) →
  (∀ st out0, start e peer link_to = Ret (st, out0) → through st ins) →
  SWatch (Watch fork peer ref) ∈ msgs_of ins ++ pending → Forall (λ m, ¬ forgets peer fork ref m) (msgs_of ins ++ pending) → tells_down peer fork out.
Proof.
  intros E Ht Hw Hf. unfold run in E. apply bind_Ret_inv in E as ([st0 out0] & E0 & E).
  apply bind_Ret_inv in E as ([[st1 out1] f1] & E1 & E). destruct f1; [done| |done]. apply bind_Ret_inv in E as ([st2 out2] & E2 & [= <- <-]).
  apply Forall_app in Hf as [Hf1 Hf2]. apply tells_down_app; right. apply tells_down_app. apply elem_of_app in Hw as [Hw|Hw]; [|right; eapply epilogue_told; eauto].
  destruct (loop_told peer fork ref ins st0 st1 out1 _ E1 (Ht _ _ E0) Hf1 (or_intror Hw)); [right; eapply epilogue_told; eauto|by left].
Qed.

(** A container that takes a kill does not go on. *)
Lemma kill_ends ins : ∀ st st' out f, main_loop st ins = Ret (st', out, f) → Kill ∈ msgs_of ins → f ≠ Go.
Proof.
  induction ins as [|[e s] ins IH]; intros st st' out f E Hk; [by apply not_elem_of_nil in Hk|]. cbn [main_loop] in E.
  apply bind_Ret_inv in E as ([[st1 out1] f1] & E1 & E). rewrite msgs_of_cons in Hk. destruct f1; [|by injection E as _ _ <-|by injection E as _ _ <-].
  apply bind_Ret_inv in E as ([[st2 out2] f2] & E2 & [= _ _ <-]). apply elem_of_app in Hk as [Hk|Hk]; [|by eapply IH].
  destruct s as [| |[m|]| |[]]; cbn in Hk; try (by apply not_elem_of_nil in Hk). apply list_elem_of_singleton in Hk as <-. done.
Qed.

(** ** The container of the caller *)

(** What makes the fork lose its watch before it is told: the watch is withdrawn, or the fork ends. *)
Definition releases (fork : Address) (ref : WatchRef) (s : Selected) : Prop :=
  (∃ a, s = SelCall (Some (CallUnwatch a ref))) ∨ s = SelMsg (Some (ForkDone fork)).

Lemma unlink_watching st s a fork peer ref : watching st fork peer ref → watching (unlink_entry st s a).1 fork peer ref.
Proof. unfold unlink_entry. destruct (job_entries st !! a) as [j|] eqn:E; [|done]. eapply has_in_update; [done|done|done]. Qed.

Lemma call_watching e st c st' out o fork peer ref : on_call e st c = Ret (st', out, o) → ¬ releases fork ref (SelCall (Some c)) →
  watching st fork peer ref → watching st' fork peer ref.
Proof.
  intros E Hr Hw. destruct c as [r|b|s r|s r|f| |s r|s r]; cbn [on_call] in E.
  - by injection E as <- _ _.
  - by injection E as <- _ _.
  - unfold on_link in E. apply bind_Ret_inv in E as (j & Hj & E). destruct (job_entries st !! s) as [j'|] eqn:Es; [|done]. injection Hj as ->.
    case_bool_decide; [by injection E as <- _ _|]. apply bind_Ret_inv in E as (out1 & _ & [= <- _ _]). by eapply has_in_update.
  - unfold on_unlink in E. apply bind_Ret_inv in E as (j & Hj & E). destruct (job_entries st !! s) as [j'|] eqn:Es; [|done]. injection Hj as ->.
    case_bool_decide; injection E as <- _ _; [by eapply has_in_update|done].
  - apply bind_Ret_inv in E as (u & Ha%assert_Ret_inv%bool_decide_eq_true & [= <- _ _]). destruct Hw as (j & Hp & Hin). exists j. split; [|done].
    cbn. rewrite lookup_insert_ne; [done|congruence].
  - by injection E as <- _ _.
  - unfold on_watch in E. apply bind_Ret_inv in E as (j & Hj & E). destruct (job_entries st !! s) as [j'|] eqn:Es; [|done]. injection Hj as ->.
    apply bind_Ret_inv in E as ([w n] & _ & E). apply bind_Ret_inv in E as (out1 & _ & [= <- _ _]). eapply has_in_update; [done|done| |done]. cbn. set_solver.
  - unfold on_unwatch in E. destruct (taken_watch_refs st !! r) as [[ow tg]|]; [|by injection E as <- _ _].
    apply bind_Ret_inv in E as (j & Hj & [= <- _ _]). destruct (job_entries st !! ow) as [j'|] eqn:Es; [|done]. injection Hj as ->.
    eapply has_in_update; [done|done| |done]. cbn. intros _ Hin. apply elem_of_difference. split; [done|].
    intros [= _ <-]%elem_of_singleton. apply Hr. left. by eexists.
Qed.

Lemma msg_watching e st m st' out o fork peer ref : on_msg e st m = Ret (st', out, o) → ¬ releases fork ref (SelMsg (Some m)) →
  (∀ reason, m ≠ SWatch (Down peer fork reason)) → watching st fork peer ref → watching st' fork peer ref.
Proof.
  intros E Hr Hd Hw. destruct m as [|[s r|s r|s r reason]|[s r w|s r w|s r reason]|f]; cbn [on_msg] in E.
  - by injection E as <- _ _.
  - destruct (job_entries st !! r) as [j|] eqn:Er; injection E as <- _ _; [by eapply has_in_update|done].
  - injection E as <- _ _. by apply unlink_watching.
  - unfold on_link_exit in E. pose proof (unlink_watching st s r _ _ _ Hw) as Hu. destruct (trap_exit st).
    + destruct (job_entries st !! r); [|by injection E as <- _ _]. destruct reason; [|by injection E as <- _ _|]; destruct (unlink_entry st s r); by injection E as <- _ _.
    + destruct reason; [by injection E as <- _ _|by injection E as <- _ _|]. destruct (unlink_entry st s r). by injection E as <- _ _.
  - destruct (job_entries st !! r) as [j|] eqn:Er; injection E as <- _ _; [by eapply has_in_update|done].
  - destruct (job_entries st !! r) as [j|] eqn:Er; injection E as <- _ _; [by eapply has_in_update|done].
  - unfold on_down in E. destruct (job_entries st !! r) as [j|] eqn:Er; [|by injection E as <- _ _].
    destruct (drain_range (size (watched_by j)) (watched_by j) s) as [by_ l]. destruct (drain_range (size (watches j)) (watches j) s) as [ws l'] eqn:Eb.
    injection E as <- _ _. eapply has_in_update; [done|done| |done]. cbn. intros -> Hin.
    apply drain_range_spec in Eb as (_ & _ & Hb); [|done]. apply Hb. split; [done|]. cbn. intros ->. by apply (Hd reason).
  - unfold on_fork_done in E. apply bind_Ret_inv in E as (j & Hj & E). destruct (unwatch_targets _ _ _) as [taken out1]. injection E as <- _ _.
    destruct Hw as (jp & Hp & Hin). exists jp. split; [|done]. cbn. rewrite lookup_delete_ne; [done|]. intros ->. apply Hr. by right.
Qed.

#[local] Instance is_down_dec peer fork m : Decision (∃ reason, m = SWatch (Down peer fork reason)).
Proof.
  destruct m as [|?|[?|?|s r reason]|?]; try (right; intros [? ?]; done).
  destruct (decide (s = peer ∧ r = fork)) as [[-> ->]|Hn]; [left; by exists reason|right; intros [? [= ? ?]]; by apply Hn].
Defined.

(** The first report of the peer's end that the container takes is handed to the fork, with the reference of its watch. *)
Lemma turn_reports e st s st' out f fork peer ref : turn e st s = Ret (st', out, f) → mailbox_open e = true → ¬ releases fork ref s → watching st fork peer ref →
  ((∃ reason, SWatch (Down peer fork reason) ∈ msgs_of [(e, s)]) ∧ ∃ n, Deliver fork (MDown peer ref n) ∈ out) ∨
  ((∀ reason, SWatch (Down peer fork reason) ∉ msgs_of [(e, s)]) ∧ watching st' fork peer ref).
Proof.
  intros E Hm Hr Hw. destruct s as [|[c|]|[m|]| |[]]; cbn [turn] in E; cbn -[elem_of]; try (by injection E as <- _ _; right; split; [intros ?; apply not_elem_of_nil|]);
    try (apply bind_Ret_inv in E as ([[st2 o2] r2] & E2 & [= <- <- _])).
  - right. split; [intros ?; apply not_elem_of_nil|]. by eapply call_watching.
  - destruct (decide (∃ reason, m = SWatch (Down peer fork reason))) as [[reason ->]|Hn].
    + left. split; [exists reason; by left|]. destruct Hw as (j & Hj & Hin).
      destruct (down_reports e st peer fork reason j Hm Hj) as (stc' & outc & j' & Ec & _ & _ & _ & Ho). rewrite Ec in E2. injection E2 as _ <- _.
      exists (is_normal reason). apply Ho. eauto.
    + right. split; [intros reason <-%list_elem_of_singleton; by destruct Hn; exists reason|]. eapply msg_watching; [done|done| |done]. intros reason ->. apply Hn. by exists reason.
Qed.

Lemma loop_reports fork peer ref ins : ∀ st st' out f, main_loop st ins = Ret (st', out, f) → through st ins →
  Forall (λ x, mailbox_open x.1 = true ∧ ¬ releases fork ref x.2) ins → watching st fork peer ref →
  (∃ reason, SWatch (Down peer fork reason) ∈ msgs_of ins) → ∃ n, Deliver fork (MDown peer ref n) ∈ out.
Proof.
  induction ins as [|[e s] ins IH]; intros st st' out f E Ht Hf Hw [reason Hd]; [by apply not_elem_of_nil in Hd|].
  cbn [main_loop] in E. apply bind_Ret_inv in E as ([[st1 out1] f1] & E1 & E). apply Forall_cons in Hf as [[Hm Hr] Hf]. cbn in Hm, Hr.
  rewrite msgs_of_cons, elem_of_app in Hd.
  destruct (turn_reports _ _ _ _ _ _ _ _ _ E1 Hm Hr Hw) as [(_ & n & Hn)|(Hno & Hw1)].
  - exists n. destruct f1; [apply bind_Ret_inv in E as ([[st2 out2] f2] & _ & [= _ <- _]); set_solver|by injection E as _ <- _|by injection E as _ <- _].
  - destruct Hd as [Hd|Hd]; [by destruct (Hno reason)|].
    destruct Ht as [->|(st2 & out2 & E2 & Ht)]; [by apply not_elem_of_nil in Hd|]. rewrite E1 in E2. injection E2 as <- <- ->.
    apply bind_Ret_inv in E as ([[st3 out3] f3] & E3 & [= _ <- _]). destruct (IH _ _ _ _ E3 Ht Hf Hw1) as [n Hn]; [by exists reason|]. exists n. set_solver.
Qed.

(** The call of the fork places the watch: it has a reference of its own, the fork has it in its entry, and the peer is asked; if that fails, the container
    tells itself that the peer is gone. *)
Lemma watch_placed e st fork peer : mailbox_open e = true → is_Some (job_entries st !! fork) → u64_ok (next_watch_ref st) →
  Z.of_nat (size (taken_watch_refs st)) < 2 ^ 64 → ∃ ref st1, watching st1 fork peer ref ∧
  on_call e st (do_watch fork peer) = Ret (st1,
    [SysSend peer (SWatch (Watch fork peer ref))] ++
    (if send_ok e (SWatch (Watch fork peer ref)) then [] else [SelfSend (SWatch (Down peer fork LinkDown))]) ++ [ReplyWatch ref], None).
Proof.
  intros Hm [j Hj] Hn Hsz. destruct (alloc_total _ _ Hn Hsz) as [[ref next] Ea]. cbn [do_watch on_call]. unfold on_watch. rewrite Hj, Ea. cbn [expect].
  rewrite !bind_Ret. unfold sys_send_or. rewrite Hm. cbn [assert_]. rewrite bind_Ret. eexists ref, _. split; cycle 1.
  - destruct (send_ok e _); rewrite bind_Ret; reflexivity.
  - eexists. cbn. rewrite lookup_insert_eq. split; [done|]. cbn. set_solver.
Qed.

(** ** What the caller sends *)
Definition quiet (peer : Address) (ref : WatchRef) (ev : StopEv) : Prop := ¬ is_report peer ref ev ∧ ev ≠ StopRecvError.

Lemma quiet_down peer ref p r b : quiet peer ref (StopMsg (MDown p r b)) → bool_decide (r = ref) && bool_decide (p = peer) = false.
Proof. intros [Hr _]. case_bool_decide; [|done]. case_bool_decide; [|done]. subst. destruct Hr. by eexists. Qed.

Lemma asleep_kills this peer ref mid post : Forall (quiet peer ref) mid →
  StopSend peer do_kill ∈ (shutdown_loop this peer ref SeqAsleep (mid ++ SleepOver :: post)).1.
Proof.
  induction 1 as [|ev mid Hq _ IH]; cbn [app shutdown_loop]; [destruct (shutdown_loop _ _ _ SeqDone _); by left|].
  destruct ev as [| |[p b|p r b]| |]; cbn [shutdown_loop]; try done.
  - destruct (shutdown_loop this peer ref SeqDone (mid ++ SleepOver :: post)). by left.
  - by rewrite (quiet_down _ _ _ _ _ Hq).
  - by destruct Hq.
Qed.

Lemma polled_kills this peer ref pre mid post : Forall (quiet peer ref) pre → Forall (quiet peer ref) mid →
  let acts := (shutdown_loop this peer ref SeqNew (pre ++ SeqPolled :: mid ++ SleepOver :: post)).1 in
  ∃ acts', acts = StopSend peer (do_exit this peer) :: acts' ∧ StopSend peer do_kill ∈ acts'.
Proof.
  intros Hpre Hmid. induction Hpre as [|ev pre Hq Hpre IH]; cbn [app shutdown_loop].
  - pose proof (asleep_kills this peer ref mid post Hmid) as H. destruct (shutdown_loop _ _ _ SeqAsleep _). eauto.
  - destruct ev as [| |[p b|p r b]| |]; cbn [shutdown_loop]; try done.
    + pose proof (asleep_kills this peer ref (pre ++ SeqPolled :: mid) post) as H. rewrite <- app_assoc in H. cbn [app] in H.
      destruct (shutdown_loop _ _ _ SeqAsleep _). eexists. split; [done|]. apply H. apply Forall_app. split; [done|]. constructor; [|done].
      split; [by intros [? ?]|done].
    + by rewrite (quiet_down _ _ _ _ _ Hq).
    + by destruct Hq.
Qed.

(** C33: Shutting a peer down, both containers together, for a fork the caller's container has, in an environment where its mailbox is open and fewer than
    [2^64] watches are in use. The fork's watch gets a reference, and the peer is asked to be watched; if it cannot be reached, the container tells itself that
    it is gone. The shutdown returns once the end of the peer is reported with that reference, and only then. If the peer has not ended when the
    time is up it is sent a kill after the exit, and a container that takes a kill does not go on. However the container of a peer's main address ends, if it
    has taken the watch before or finds it in its queue at the end, the fork is told, provided that nothing makes the peer forget it first (the fork's
    withdrawal, word that the fork has ended, or the peer's own address reported as a finished fork). And whatever else the caller's container does, once it
    takes word of the peer's end, and neither has the watch been withdrawn nor the fork ended, the fork is handed the report it waits for; and a shutdown
    whose fork receives it, with no receive failing, succeeds. *)
Theorem shutdown_completes this peer fork e stc :
  mailbox_open e = true → is_Some (job_entries stc !! fork) → u64_ok (next_watch_ref stc) → Z.of_nat (size (taken_watch_refs stc)) < 2 ^ 64 →
  ∃ ref stc1, on_call e stc (do_watch fork peer) = Ret (stc1,
      [SysSend peer (SWatch (Watch fork peer ref))] ++
      (if send_ok e (SWatch (Watch fork peer ref)) then [] else [SelfSend (SWatch (Down peer fork LinkDown))]) ++ [ReplyWatch ref], None) ∧
  (∀ evs, (shutdown this peer (Ok fork) ref evs).2 = Some (Ok tt) → Exists (is_report peer ref) evs) ∧
  (∀ pre mid post, Forall (quiet peer ref) (pre ++ mid) → ∃ acts,
     (shutdown this peer (Ok fork) ref (pre ++ SeqPolled :: mid ++ SleepOver :: post)).1 =
       StopCall (do_watch fork peer) :: StopSend peer (do_exit this peer) :: acts ∧ StopSend peer do_kill ∈ acts) ∧
  (∀ st ins st' out f, main_loop st ins = Ret (st', out, f) → do_kill ∈ msgs_of ins → f ≠ Go) ∧
  (∀ e' link_to ins pending out r, run e' peer link_to ins true pending = Ret (out, Some (Ok r)) →
     (∀ st out0, start e' peer link_to = Ret (st, out0) → through st ins) →
     SWatch (Watch fork peer ref) ∈ msgs_of ins ++ pending → Forall (λ m, ¬ forgets peer fork ref m) (msgs_of ins ++ pending) →
     ∃ reason, SysSend fork (SWatch (Down peer fork reason)) ∈ out) ∧
  (∀ ins stc2 outc f, main_loop stc1 ins = Ret (stc2, outc, f) → through stc1 ins →
     Forall (λ x, mailbox_open x.1 = true ∧ ¬ releases fork ref x.2) ins → (∃ reason, SWatch (Down peer fork reason) ∈ msgs_of ins) →
     ∃ n, Deliver fork (MDown peer ref n) ∈ outc ∧
       ∀ evs, StopMsg (MDown peer ref n) ∈ evs → StopRecvError ∉ evs → (shutdown this peer (Ok fork) ref evs).2 = Some (Ok tt)).
Proof.
  intros Hm Hj Hn Hsz. destruct (watch_placed e stc fork peer Hm Hj Hn Hsz) as (ref & stc1 & Hw & Ec). exists ref, stc1. split; [exact Ec|].
  assert (Hsnd : ∀ evs, (shutdown this peer (Ok fork) ref evs).2 = (shutdown_loop this peer ref SeqNew evs).2).
  { intros evs. cbn. by destruct (shutdown_loop this peer ref SeqNew evs). }
  split_and!.
  - intros evs. rewrite Hsnd. apply shutdown_loop_ok.
  - intros pre mid post [Hpre Hmid]%Forall_app. destruct (polled_kills this peer ref pre mid post Hpre Hmid) as (acts & E & Hk). cbn [shutdown].
    destruct (shutdown_loop _ _ _ _ _) as [acts0 r]. cbn in E. subst acts0. eexists. split; [done|]. set_solver.
  - intros st ins st' out f. apply kill_ends.
  - intros e' link_to ins pending out r. apply run_told.
  - intros ins stc2 outc f E Ht Hf Hd. destruct (loop_reports _ _ _ _ _ _ _ _ E Ht Hf Hw Hd) as [n Hin]. exists n. split; [done|].
    intros evs He Hne. rewrite Hsnd. apply shutdown_loop_ok; [|done]. apply Exists_exists. eexists. split; [done|]. by eexists.
Qed.

(** ** A run: the peer 9 is watched by the fork 5 and killed. *)
Definition doomed : list (Env * Selected) :=
  [(env_ok, SelMsg (Some (SWatch (Watch 5 9 0)))); (env_ok, SelMsg (Some (do_exit 4 9))); (env_ok, SelMsg (Some do_kill))].
Definition polite : St := mkSt {[9 := mkJob ∅ ∅ ∅]} ∅ 0 true.
Definition caller : St := mkSt (<[5 := job_empty]> {[4 := job_empty]}) ∅ 0 false.

Lemma shutdown_completes_witness : ∃ stc1 out reason n,
  on_call env_ok caller (do_watch 5 9) = Ret (stc1, [SysSend 9 (SWatch (Watch 5 9 0)); ReplyWatch 0], None) ∧
  run env_ok 9 [] [(env_ok, SelMsg (Some (SWatch (Watch 5 9 0)))); (env_ok, SelMsg (Some do_kill))] true [] = Ret (out, Some (Ok (Err Killed))) ∧
  SysSend 5 (SWatch (Down 9 5 reason)) ∈ out ∧
  ∃ stc2 outc, main_loop stc1 [(env_ok, SelMsg (Some (SWatch (Down 9 5 LinkDown))))] = Ret (stc2, outc, Go) ∧ Deliver 5 (MDown 9 0 n) ∈ outc ∧
    (shutdown 4 9 (Ok 5) 0 [SeqPolled; SleepOver; StopMsg (MDown 9 0 n)]).2 = Some (Ok tt).
Proof.
  destruct (shutdown_completes 4 9 5 env_ok caller eq_refl) as (ref & stc1 & E & _ & _ & _ & Htold & Hrep);
    [by vm_compute; eexists|split; [by vm_compute|reflexivity]|reflexivity|].
  assert (ref = 0) as -> by (vm_compute in E; congruence).
  assert (∃ out, run env_ok 9 [] [(env_ok, SelMsg (Some (SWatch (Watch 5 9 0)))); (env_ok, SelMsg (Some do_kill))] true [] = Ret (out, Some (Ok (Err Killed)))) as [out Er].
  { vm_compute. eexists. reflexivity. }
  destruct (Htold env_ok [] _ [] out _ Er) as (reason & Hin).
  - intros st out0 E0. right. cbn [turn on_msg]. injection E0 as <- _. eexists _, _. split; [vm_compute; reflexivity|]. left. reflexivity.
  - left.
  - cbn. repeat constructor; intros [?|[[? ?]|?]]; discriminate.
  - assert (∃ stc2 outc, main_loop stc1 [(env_ok, SelMsg (Some (SWatch (Down 9 5 LinkDown))))] = Ret (stc2, outc, Go)) as (stc2 & outc & Em).
    { injection E as <-. eexists _, _. vm_compute. reflexivity. }
    destruct (Hrep _ _ _ _ Em) as (n & Hd & Hok).
    + left. reflexivity.
    + repeat constructor. intros [[? ?]|?]; discriminate.
    + exists LinkDown. left.
    + exists stc1, out, reason, n. split; [exact E|]. split; [exact Er|]. split; [exact Hin|]. exists stc2, outc. split; [exact Em|]. split; [exact Hd|].
      apply Hok; [right; right; left|]. intros [?|[?|[?|?%elem_of_nil]%elem_of_cons]%elem_of_cons]%elem_of_cons; done.
Defined.

(** A peer that traps exits only hears of the first request; the kill ends it all the same. *)
Lemma trapping_peer_killed : ∃ st out, main_loop polite doomed = Ret (st, out, Break (Err Killed)) ∧ Deliver 9 (MExited 4 false) ∈ out.
Proof. vm_compute. eexists _, _. split; [reflexivity|]. left. Qed.
