(* ===== verification/Init.v ===== *)
(** * The init actor (core/mm1-node/src/init.rs)

    The first actor of a node: it starts the name service and the multinode manager, tells the manager the node's subnets and
    interfaces, spawns the main actor, and lives as long as it. The answers of the actors it starts and asks are inputs. *)

From stdpp Require Import sorting strings.
From S2P Require Import Prelude U64 Address Subnet Collections Btree Routes Protocols Manager Config.

Open Scope Z_scope.

Section Init.
Context {SocketAddr Path Options : Type}.

(** [InitActorArgs] *)
Record InitActorArgs := mkInitArgs {
  local_subnet_auto : NetAddress;
  local_subnets_bind : list NetAddress;
  multinode_inbound : list (list string * DefAddr SocketAddr Path * Options);
  multinode_outbound : list (list string * DefAddr SocketAddr Path * Options);
}.

(** The arguments [Rt::run] makes of a configuration *)
Definition init_actor_args (c : Mm1NodeConfig (SocketAddr := SocketAddr) (Path := Path) (Options := Options)) : outcome InitActorArgs :=
  auto ← local_subnet_address_auto c;
  Ret (mkInitArgs auto (local_subnet_addresses_bind c) (inbound_ifaces c) (outbound_ifaces c)).

Inductive ManagerRequest :=
| RegisterLocalSubnet (net : NetAddress)
| BindTcp (protocol_names : list string) (bind_address : SocketAddr) (options : Options)
| BindUds (protocol_names : list string) (bind_address : Path) (options : Options)
| ConnectTcp (protocol_names : list string) (dst_address : SocketAddr) (options : Options)
| ConnectUds (protocol_names : list string) (dst_address : Path) (options : Options).

Inductive InitAct :=
| TrapExit
| StartNameService
| StartManager
| AskManager (manager : Address) (r : ManagerRequest)
| SpawnMain.

Definition bind_request (d : list string * DefAddr SocketAddr Path * Options) : ManagerRequest :=
  match d with
  | (names, DefTcp a, options) => BindTcp names a options
  | (names, DefUds a, options) => BindUds names a options
  end.
Definition connect_request (d : list string * DefAddr SocketAddr Path * Options) : ManagerRequest :=
  match d with
  | (names, DefTcp a, options) => ConnectTcp names a options
  | (names, DefUds a, options) => ConnectUds names a options
  end.

(** The three loops of requests: each request waits for its answer, and a refusal ends the actor. *)
Fixpoint ask_all (manager : Address) (rs : list ManagerRequest) (answers : list (result (result unit unit) unit)) :
    list InitAct * option (list (result (result unit unit) unit)) :=
  match rs with
  | [] => ([], Some answers)
  | r :: rs =>
      match answers with
      | Ok (Ok _) :: answers => let '(acts, rest) := ask_all manager rs answers in (AskManager manager r :: acts, rest)
      | _ => ([AskManager manager r], None)
      end
  end.

Inductive InitMsg := Exited (peer : Address) (normal_exit : bool) | UnexpectedMsg | RecvFailed.
Inductive InitEnd := QuitOk | InitFailed | StillRunning.

(** [init_should_stop] *)
Definition init_should_stop (peer main_actor_address : Address) : bool := peer =? main_actor_address.

(** The loop that waits for the main actor *)
Fixpoint wait_for_main (main : Address) (msgs : list InitMsg) : InitEnd :=
  match msgs with
  | [] => StillRunning
  | Exited peer _ :: msgs => if init_should_stop peer main then QuitOk else wait_for_main main msgs
  | UnexpectedMsg :: msgs => wait_for_main main msgs
  | RecvFailed :: _ => InitFailed
  end.

(** [run] *)
Definition init_run (args : InitActorArgs) (name_service manager : result Address unit) (answers : list (result (result unit unit) unit))
    (main : result Address unit) (msgs : list InitMsg) : list InitAct * InitEnd :=
  match name_service with
  | Err _ => ([TrapExit; StartNameService], InitFailed)
  | Ok _ =>
      match manager with
      | Err _ => ([TrapExit; StartNameService; StartManager], InitFailed)
      | Ok mgr =>
          let start := [TrapExit; StartNameService; StartManager] in
          let '(acts1, a1) := ask_all mgr (RegisterLocalSubnet <$> local_subnets_bind args ++ [local_subnet_auto args]) answers in
          match a1 with
          | None => (start ++ acts1, InitFailed)
          | Some answers =>
              let '(acts2, a2) := ask_all mgr (bind_request <$> multinode_inbound args) answers in
              match a2 with
              | None => (start ++ acts1 ++ acts2, InitFailed)
              | Some answers =>
                  let '(acts3, a3) := ask_all mgr (connect_request <$> multinode_outbound args) answers in
                  match a3 with
                  | None => (start ++ acts1 ++ acts2 ++ acts3, InitFailed)
                  | Some _ =>
                      let acts := start ++ acts1 ++ acts2 ++ acts3 ++ [SpawnMain] in
                      match main with
                      | Err _ => (acts, InitFailed)
                      | Ok main => (acts, wait_for_main main msgs)
                      end
                  end
              end
          end
      end
  end.

(** ** What the manager is told *)
Definition init_requests (args : InitActorArgs) : list ManagerRequest :=
  (RegisterLocalSubnet <$> local_subnets_bind args ++ [local_subnet_auto args]) ++
  (bind_request <$> multinode_inbound args) ++ (connect_request <$> multinode_outbound args).

Lemma ask_all_ok mgr rs answers acts rest : ask_all mgr rs answers = (acts, Some rest) → acts = AskManager mgr <$> rs.
Proof.
  revert answers acts. induction rs as [|r rs IH]; intros answers acts; cbn; [by intros [= <- _]|].
  destruct answers as [|[[]|] answers]; try done. destruct (ask_all mgr rs answers) as [acts' rest'] eqn:E. intros [= <- ->]. f_equal. by eapply IH.
Qed.

Lemma ask_all_no_spawn mgr rs answers : SpawnMain ∉ (ask_all mgr rs answers).1.
Proof.
  revert answers. induction rs as [|r rs IH]; intros answers; cbn; [apply not_elem_of_nil|].
  assert (Hone : SpawnMain ∉ [AskManager mgr r]) by (rewrite list_elem_of_singleton; done).
  destruct answers as [|[[]|] answers]; try done. specialize (IH answers). destruct (ask_all mgr rs answers). cbn in *.
  rewrite elem_of_cons. by intros [|].
Qed.

Lemma wait_for_main_quit main msgs : wait_for_main main msgs = QuitOk ↔
  ∃ before peer normal after, msgs = before ++ Exited peer normal :: after ∧ peer = main ∧ Forall (λ m, m ≠ RecvFailed) before.
Proof.
  induction msgs as [|m msgs IH]; cbn.
  { split; [done|]. intros (b & ? & ? & ? & E & _). by destruct b. }
  assert (Hskip : m ≠ RecvFailed → (∃ b p n a, msgs = b ++ Exited p n :: a ∧ p = main ∧ Forall (λ m, m ≠ RecvFailed) b) →
    ∃ b p n a, m :: msgs = b ++ Exited p n :: a ∧ p = main ∧ Forall (λ m, m ≠ RecvFailed) b).
  { intros Hm (b & p & n & a & -> & Hp & Hb). exists (m :: b), p, n, a. split_and!; [done|done|by constructor]. }
  assert (Hback : (∀ p n, m = Exited p n → p ≠ main) → (∃ b p n a, m :: msgs = b ++ Exited p n :: a ∧ p = main ∧ Forall (λ m, m ≠ RecvFailed) b) →
    m ≠ RecvFailed ∧ ∃ b p n a, msgs = b ++ Exited p n :: a ∧ p = main ∧ Forall (λ m, m ≠ RecvFailed) b).
  { intros Hm (b & p & n & a & E & Hp & Hb). destruct b as [|m' b]; cbn in E; injection E as -> ->; [by destruct (Hm p n)|].
    apply Forall_cons in Hb as [? ?]. split; [done|]. by exists b, p, n, a. }
  destruct m as [peer normal| |].
  - unfold init_should_stop. case_Zb; [split; [intros _; by exists [], peer, normal, msgs|done]|].
    rewrite IH. split; [by apply Hskip|]. intros [_ ?]%Hback; [done|]. by intros p n' [= <- _].
  - rewrite IH. split; [by apply Hskip|]. by intros [_ ?]%Hback.
  - split; [done|]. intros [? _]%Hback; done.
Qed.

(** The order of a node's start: when the main actor is spawned, the name service and the manager had been started and the manager had
    accepted, in this order, every local subnet, every inbound and every outbound interface; and the init actor then ends well exactly
    when the main actor exits, however the main actor ended and whatever other actors exited before. *)
Theorem init_order args ns mgr answers main msgs acts e (Hrun : init_run args ns mgr answers main msgs = (acts, e)) :
  (SpawnMain ∈ acts → ∃ m, mgr = Ok m ∧
    acts = [TrapExit; StartNameService; StartManager] ++ (AskManager m <$> init_requests args) ++ [SpawnMain]) ∧
  (e = QuitOk ↔ SpawnMain ∈ acts ∧ ∃ a before normal after, main = Ok a ∧ msgs = before ++ Exited a normal :: after ∧ Forall (λ m, m ≠ RecvFailed) before).
Proof.
  assert (Hfail : ∀ l, SpawnMain ∉ l → (acts, e) = (l, InitFailed) →
    (SpawnMain ∈ acts → ∃ m, mgr = Ok m ∧ acts = [TrapExit; StartNameService; StartManager] ++ (AskManager m <$> init_requests args) ++ [SpawnMain]) ∧
    (e = QuitOk ↔ SpawnMain ∈ acts ∧ ∃ a before normal after, main = Ok a ∧ msgs = before ++ Exited a normal :: after ∧ Forall (λ m, m ≠ RecvFailed) before)).
  { intros l Hl [= -> ->]. split; [done|]. split; [done|]. by intros [? _]. }
  unfold init_run in Hrun. destruct ns as [?|]; [|eapply Hfail; [|exact (eq_sym Hrun)]; set_solver].
  destruct mgr as [m|]; [|eapply Hfail; [|exact (eq_sym Hrun)]; set_solver].
  destruct (ask_all m (RegisterLocalSubnet <$> _) answers) as [acts1 a1] eqn:E1. pose proof (ask_all_no_spawn m (RegisterLocalSubnet <$> local_subnets_bind args ++ [local_subnet_auto args]) answers) as N1.
  rewrite E1 in N1. cbn in N1. destruct a1 as [an1|]; [|eapply Hfail; [|exact (eq_sym Hrun)]; set_solver].
  destruct (ask_all m (bind_request <$> _) an1) as [acts2 a2] eqn:E2. pose proof (ask_all_no_spawn m (bind_request <$> multinode_inbound args) an1) as N2.
  rewrite E2 in N2. cbn in N2. destruct a2 as [an2|]; [|eapply Hfail; [|exact (eq_sym Hrun)]; set_solver].
  destruct (ask_all m (connect_request <$> _) an2) as [acts3 a3] eqn:E3. pose proof (ask_all_no_spawn m (connect_request <$> multinode_outbound args) an2) as N3.
  rewrite E3 in N3. cbn in N3. destruct a3 as [an3|]; [|eapply Hfail; [|exact (eq_sym Hrun)]; set_solver].
  apply ask_all_ok in E1 as ->, E2 as ->, E3 as ->.
  assert (Hacts : acts = [TrapExit; StartNameService; StartManager] ++ (AskManager m <$> init_requests args) ++ [SpawnMain]).
  { unfold init_requests. rewrite !(fmap_app (AskManager m)), <- !(assoc_L (++)). destruct main; by injection Hrun as <- _. }
  split; [by intros _; exists m|]. assert (Hin : SpawnMain ∈ acts) by (rewrite Hacts; set_solver).
  destruct main as [a|]; injection Hrun as _ <-.
  - rewrite wait_for_main_quit. split; [|naive_solver].
    intros (b & p & n & af & -> & -> & Hb). split; [done|]. by exists a, b, n, af.
  - split; [done|]. by intros (_ & ? & ? & ? & ? & ? & _).
Qed.
End Init.

(** ** The manager once it has been told *)
Section Told.
Context {SM : Type → Type} `{SlotMap SM} `{HashSetOrder} {BM : Type} `{!BiMap WatchRef Address BM}.
Context {SocketAddr Path Options : Type} `{Countable SocketAddr} `{Countable Path}.
Notation M := (Manager (SM := SM) (BM := BM) (SocketAddr := SocketAddr) (Path := Path)).

(** The manager handles the registrations in turn. *)
Fixpoint register_all (m : M) (rs : list (ManagerRequest (SocketAddr := SocketAddr) (Path := Path) (Options := Options))) : outcome M :=
  match rs with
  | [] => Ret m
  | RegisterLocalSubnet net :: rs => '(m, _, _) ← on_register_local_subnet m net; register_all m rs
  | _ :: rs => register_all m rs
  end.

Section Plan.
Context (plan : NetAddress → Prop) `{!AddressPlan plan}.
#[local] Instance init_lawful : Lawful range_cmp (planned plan) := range_lawful plan.

Lemma register_one (m : M) n : bt_ok range_cmp (planned plan) (Manager.local_subnets m) → plan n →
  ∃ m' out r, on_register_local_subnet m n = Ret (m', out, r) ∧ bt_ok range_cmp (planned plan) (Manager.local_subnets m') ∧
    ∀ e, e ∈ Manager.local_subnets m' ↔ e = (net_range n, tt) ∨ e ∈ Manager.local_subnets m.
Proof.
  intros Ho Hn. unfold on_register_local_subnet. destruct (plan_range plan n Hn) as (-> & _ & _). cbn [mbind outcome_bind].
  assert (Hd : planned plan (net_range n)) by (by exists n). eexists _, _, _. split; [done|]. cbn [Manager.local_subnets set_local_subnets].
  destruct (bt_entry range_cmp (Manager.local_subnets m) (net_range n)) as [[r []]|] eqn:E.
  - split; [done|]. intros e. split; [by right|]. intros [->|?]; [|done]. apply (bt_get_elem range_cmp (planned plan)); [done|done|].
    unfold bt_get. by rewrite E.
  - destruct (bt_insert_ok range_cmp (planned plan) (Manager.local_subnets m) (net_range n) tt Ho Hd) as [Ho' He]. split; [done|].
    intros e. rewrite He. split; [naive_solver|]. intros [->|Hin]; [by left|]. right. split; [done|]. intros Heq. destruct e as [r []]. cbn in Heq. subst r.
    apply (bt_get_elem range_cmp (planned plan)) in Hin; [|done|done]. unfold bt_get in Hin. by rewrite E in Hin.
Qed.

Lemma register_all_ok (m : M) nets rest : bt_ok range_cmp (planned plan) (Manager.local_subnets m) → Forall plan nets →
  Forall (λ r, ∀ n, r ≠ RegisterLocalSubnet n) rest →
  ∃ m', register_all m ((RegisterLocalSubnet <$> nets) ++ rest) = Ret m' ∧ bt_ok range_cmp (planned plan) (Manager.local_subnets m') ∧
    ∀ e, e ∈ Manager.local_subnets m' ↔ (∃ n, n ∈ nets ∧ e = (net_range n, tt)) ∨ e ∈ Manager.local_subnets m.
Proof.
  intros Ho Hp Hrest. revert m Ho. induction nets as [|n nets IH]; intros m Ho; cbn [fmap list_fmap app].
  - assert (E : register_all m rest = Ret m).
    { induction Hrest as [|r rest Hr _ IH]; [done|]. destruct r; try apply IH. by destruct (Hr net). }
    exists m. split_and!; [done|done|]. intros e. split; [by right|]. intros [(n & Hn%not_elem_of_nil & _)|?]; done.
  - apply Forall_cons in Hp as [Hn Hp]. cbn [register_all]. destruct (register_one m n Ho Hn) as (m1 & out & r & -> & Ho1 & He1). cbn [mbind outcome_bind].
    destruct (IH Hp m1 Ho1) as (m' & E & Ho' & He'). exists m'. split_and!; [done|done|]. intros e. rewrite He', He1.
    setoid_rewrite elem_of_cons. naive_solver.
Qed.

Lemma sorted_NoDup (T : BTreeMap AddressRange unit) : bt_ok range_cmp (planned plan) T → NoDup T.*1.
Proof.
  intros Ho. induction T as [|e T IH]; [constructor|]. apply (bt_ok_cons range_cmp) in Ho as (He & Hl & Ho). cbn. constructor; [|by apply IH].
  intros ([r v] & Heq & Hin)%list_elem_of_fmap. rewrite Forall_forall in Hl. apply Hl in Hin. unfold key_lt in Hin. rewrite Heq in *. cbn in *.
  by rewrite (lawful_refl range_cmp (planned plan)) in Hin.
Qed.
End Plan.

Lemma autos_and_binds (l : list DefLocalSubnet) :
  ls_net <$> l ≡ₚ omap (λ d, match ls_kind d with Bind => Some (ls_net d) | Auto => None end) l ++ (ls_net <$> filter (λ d, ls_kind d = Auto) l).
Proof.
  induction l as [|[n []] l IH]; [done| |]; cbn [fmap list_fmap omap list_omap ls_kind ls_net app].
  - rewrite filter_cons_True by done. cbn [fmap list_fmap ls_net]. rewrite <- Permutation_middle. by constructor.
  - rewrite filter_cons_False by done. by constructor.
Qed.

Lemma args_nets (c : Mm1NodeConfig (SocketAddr := SocketAddr) (Path := Path) (Options := Options)) : config_ok c →
  ∃ args, init_actor_args c = Ret args ∧ ls_net <$> Config.local_subnets c ≡ₚ local_subnets_bind args ++ [local_subnet_auto args].
Proof.
  intros Hc. destruct (auto_found c Hc) as (a & Ea & Hin). unfold init_actor_args. rewrite Ea, bind_Ret. eexists. split; [done|]. cbn.
  rewrite autos_and_binds. unfold local_subnet_addresses_bind. f_equiv. pose proof (co_auto _ Hc) as Hl.
  assert (Hf : mkLocalSubnet a Auto ∈ filter (λ d, ls_kind d = Auto) (Config.local_subnets c)) by (by apply list_elem_of_filter).
  destruct (filter _ (Config.local_subnets c)) as [|d [|? ?]]; [done| |done]. apply list_elem_of_singleton in Hf as <-. done.
Qed.

(** Configuration, init actor and manager together: once the manager has handled the requests the init actor makes for a validated
    configuration with canonical subnets, it answers the question for the local subnets with exactly the configured ones. *)
Theorem init_tells_subnets (c : Mm1NodeConfig (SocketAddr := SocketAddr) (Path := Path) (Options := Options)) (Hc : config_ok c)
  (Hn : Forall (λ d, net_canonical (ls_net d)) (Config.local_subnets c)) :
  ∃ args m nets, init_actor_args c = Ret args ∧ register_all manager_default (init_requests args) = Ret m ∧
    on_get_local_subnets m = Ret (m, [], Ok (Some (GetLocalSubnetsRs nets))) ∧ nets ≡ₚ ls_net <$> Config.local_subnets c.
Proof.
  destruct (args_nets c Hc) as (args & Ea & Hp). destruct (config_plan c Hn Hc) as [Hplan Hnd]. set (plan := λ n, n ∈ ls_net <$> Config.local_subnets c) in *.
  assert (Hall : Forall plan (local_subnets_bind args ++ [local_subnet_auto args])).
  { apply Forall_forall. intros n Hin. unfold plan. by rewrite Hp. }
  destruct (register_all_ok plan manager_default (local_subnets_bind args ++ [local_subnet_auto args])
    ((bind_request <$> multinode_inbound args) ++ (connect_request <$> multinode_outbound args))) as (m & Em & Ho & He); [apply bt_ok_nil|done| |].
  { apply Forall_app. split; apply Forall_fmap, Forall_true; by intros [[? []] ?] n. }
  destruct (Manager.nets_from_ok plan (Manager.local_subnets m)) as (ns & Ens & Hns & E1); [by destruct Ho|]. symmetry in E1.
  exists args, m, ns. split_and!; [done|exact Em|unfold on_get_local_subnets; by rewrite Ens|].
  pose proof (sorted_NoDup plan _ Ho) as Hnd'. rewrite E1 in Hnd'. apply NoDup_Permutation; [by eapply NoDup_fmap_1|done|].
  intros n. rewrite Hp. split.
  - intros Hin. assert (Hr : net_range n ∈ (Manager.local_subnets m).*1) by (rewrite E1; by apply list_elem_of_fmap_2).
    apply list_elem_of_fmap in Hr as (e & Hr & [(n' & Hn' & ->)|?%not_elem_of_nil]%He); [|done]. cbn in Hr.
    rewrite Forall_forall in Hns, Hall. apply (net_range_inj plan) in Hr; [by subst|by apply Hns|by apply Hall].
  - intros Hin. assert (Hr : net_range n ∈ (Manager.local_subnets m).*1).
    { apply list_elem_of_fmap. exists (net_range n, tt). split; [done|]. apply He. left. eauto. }
    rewrite E1 in Hr. apply list_elem_of_fmap in Hr as (n' & Hr & Hn'). rewrite Forall_forall in Hns, Hall.
    apply (net_range_inj plan) in Hr; [by subst|by apply Hall|by apply Hns].
Qed.
End Told.

(** ** Examples *)
Section Examples.
#[local] Existing Instance gmap_slot_map.
#[local] Existing Instance elements_order.
#[local] Existing Instance gws_bimap.

Definition db_args : InitActorArgs (SocketAddr := Z) (Path := string) (Options := unit) :=
  mkInitArgs DEFAULT_LOCAL_SUBNET_ADDRESS_AUTO [DEFAULT_LOCAL_SUBNET_ADDRESS_BIND] [(["p"], DefTcp 80, tt)] [].

Lemma init_order_witness : ∃ m, (Ok 5 : result Address unit) = Ok m ∧
  (init_run db_args (Ok 4) (Ok 5) [Ok (Ok tt); Ok (Ok tt); Ok (Ok tt)] (Ok 6) [Exited 4 false; Exited 6 true]).1 =
    [TrapExit; StartNameService; StartManager] ++ (AskManager m <$> init_requests db_args) ++ [SpawnMain].
Proof.
  apply (proj1 (init_order db_args (Ok 4) (Ok 5) [Ok (Ok tt); Ok (Ok tt); Ok (Ok tt)] (Ok 6) [Exited 4 false; Exited 6 true] _ _ eq_refl)).
  cbn. do 6 right. left.
Defined.

Lemma init_tells_subnets_witness : ∃ args m nets, init_actor_args with_db = Ret args ∧
  register_all (SM := gmap Z) (BM := list (WatchRef * Address)) manager_default (init_requests args) = Ret m ∧
  on_get_local_subnets m = Ret (m, [], Ok (Some (GetLocalSubnetsRs nets))) ∧ nets ≡ₚ ls_net <$> Config.local_subnets with_db.
Proof. apply (init_tells_subnets with_db); [|exact default_subnets_canonical]. apply (validated with_db with_db default_subnets_ok). vm_compute. reflexivity. Defined.
End Examples.
