(* ===== verification/Boot.v ===== *)
(** * Running a node (core/mm1-node/src/runtime/rt.rs)

    A node is created from a configuration that is validated first, and run: an address is requested for the init actor, its container created and run,
    and whatever it has started is shut down after it. The configuration, the pool, the registry and the tasks are the components modelled elsewhere. *)

From stdpp Require Import strings.
From S2P Require Import Prelude U64 Address Subnet Trie Context Pool Registry Config Tasks Spawn.

Open Scope Z_scope.

Inductive RtCreateError E := RuntimeConfigError (e : E) | RuntimeInitError.
Arguments RuntimeConfigError {E} e.
Arguments RuntimeInitError {E}.
Inductive RtRunError := RequestAddressError | RtContainerError.

(** [InitActorConfig]: the mask of the init actor's subnet *)
Definition init_netmask : NetMask := 60.

Section Boot.
Context {TI : Type → Type} `{TreeIndex TI} {T Tap SocketAddr Path Options : Type}.
Abbreviation NodeConfig := (Mm1NodeConfig (SocketAddr := SocketAddr) (Path := Path) (Options := Options)).

(** [Rt] *)
Record Rt := mkRt {
  rt_config : NodeConfig;
  rt_main : T;
  rt_others : gmap string T;
  message_taps : gmap string Tap;
}.

(** [Rt::create]; [build_default] and [build] are tokio's builders. *)
Definition create (build_default : result T unit) (build : string → RtConfig → result T unit) (config : NodeConfig) :
    outcome (result Rt (RtCreateError (list ConfigError * NodeConfig))) :=
  valid ← validate config;
  match valid with
  | Err e => Ret (Err (RuntimeConfigError e))
  | Ok config =>
      runtimes ← build_runtimes build_default build (runtime config);
      Ret match runtimes with
          | Err _ => Err RuntimeInitError
          | Ok (rt_default, rt_named) => Ok (mkRt config rt_default rt_named ∅)
          end
  end.

(** [Rt::with_tap] *)
Definition with_tap (rt : Rt) (key : string) (tap : Tap) : Rt :=
  mkRt (rt_config rt) (rt_main rt) (rt_others rt) (<[key := tap]> (message_taps rt)).

Inductive BootAct := RunContainer (main : Address) (tap : Tap) | ShutdownTasks.

(** [run_inner]; [exit_result] is how [Container::run] ends. *)
Definition run_inner (config : NodeConfig) (actor_key : ActorKey) (m : NetMask) (message_tap_key : option string) (rt_default : T) (rt_named : gmap string T)
    (noop : Tap) (taps : gmap string Tap) (exit_result : result (result unit unit) unit) : outcome (list BootAct * result unit RtRunError) :=
  auto ← local_subnet_address_auto config;
  rt_api ← rt_create (TI := TI) auto rt_default rt_named;
  '(rt_api, subnet_lease) ← request_address rt_api m;
  match subnet_lease with
  | Err _ => Ret ([], Err RequestAddressError)
  | Ok subnet_lease =>
      let tap := message_tap noop taps message_tap_key in
      '(_, container) ← container_create rt_api (select (actor config) actor_key) subnet_lease;
      match container with
      | Err _ => Ret ([], Err RtContainerError)
      | Ok main => Ret ([RunContainer main tap; ShutdownTasks], match exit_result with Err _ => Err RtContainerError | Ok _ => Ok tt end)
      end
  end.

(** [Rt::run] *)
Definition rt_run (rt : Rt) (noop : Tap) (exit_result : result (result unit unit) unit) : outcome (list BootAct * result unit RtRunError) :=
  run_inner (rt_config rt) Root init_netmask None (rt_main rt) (rt_others rt) noop (message_taps rt) exit_result.

(** ** Which configurations run *)



End Boot.

(** ** Examples *)
Section Examples.
#[local] Existing Instance list_tree_index.


(** A runtime without worker threads passes the validation; the node panics when it is created. *)
Definition no_workers := mkNodeConfig (local_subnets with_db) (inbound_ifaces with_db) (outbound_ifaces with_db) (actor with_db)
  (mkRts (Some (Config.mkRt 0 512 0 4096 true true)) (rt_named (runtime with_db))).

Definition all_built (_ : string) (_ : RtConfig) : result Z unit := Ok 1.


Lemma no_workers_panics : validate no_workers = Ret (Ok no_workers) ∧ create (T := Z) (Tap := unit) (Ok 0) all_built no_workers = Panic.
Proof. split; vm_compute; reflexivity. Qed.

(** A subnet of eight addresses passes the validation, but no node runs on it. *)
Definition tiny := mkNodeConfig [mkLocalSubnet (mkNet 0xFFF8000000000000 61) Auto] (inbound_ifaces with_db) (outbound_ifaces with_db) (actor with_db) (runtime with_db).

Lemma tiny_node_stays_down :
  match create (T := Z) (Tap := unit) (Ok 0) all_built tiny with
  | Ret (Ok rt) => rt_run (TI := ListIndex) rt tt (Ok (Ok tt)) = Ret ([], Err RequestAddressError)
  | _ => False
  end.
Proof. vm_compute. reflexivity. Qed.
End Examples.
