(* ===== verification/Ask.v ===== *)
(** * Request and response (libs/mm1-ask/src/ask.rs)

    [ask] sends a request that carries a fresh id and the caller's address, and
    receives until the response with that id arrives or the time is up. What
    arrives meanwhile and is no response is put back into the mailbox. *)

From S2P Require Import Prelude U64 Address Subnet Pool Registry Context.

Open Scope Z_scope.

Section Ask.
Context {M Rs : Type} {TI : Type → Type} `{TreeIndex TI}.

Inductive AskErrorKind :=
| AskSend (k : SendErrorKind)
| AskRecv (k : RecvErrorKind)
| AskFork (k : ForkErrorKind)
| AskTimeout.

(** [envelope.cast::<Response<Rs>>()]: the id and the payload of a response. Which
    messages are responses of this type is the business of the type-indexed
    messages. *)
Context (cast : Envelope (M := M) → option (Z * Rs)).

(** [Request] and [Response] as messages *)
Context (mk_request : Z → Address → M) (mk_response : Z → Rs → M).

(** [REQUEST_ID.fetch_add(1)] *)
Definition next_request_id (counter : Z) : Z * Z := (u64_wrapping_add counter 1, counter).

(** The timed loop: [received] is what [recv] yields until the time is up; the
    messages set aside, and the result unless the time is up. *)
Fixpoint ask_loop (request_id : Z) (received : list (result (Envelope (M := M)) RecvErrorKind)) :
  list (Envelope (M := M)) * option (result Rs AskErrorKind) :=
  match received with
  | [] => ([], None)
  | Err e :: _ => ([], Some (Err (AskRecv e)))
  | Ok envelope :: received =>
      match cast envelope with
      | Some (id, payload) => if id =? request_id then ([], Some (Ok payload)) else ask_loop request_id received
      | None => let '(bystanders, r) := ask_loop request_id received in (envelope :: bystanders, r)
      end
  end.

(** [for bystander in bystanders.drain(..) { let _ = ctx.forward(reply_to, bystander).await; }] *)
Fixpoint put_back (rt : RtApi (M := M) (TI := TI)) (reply_to : Address) (bystanders : list (Envelope (M := M))) :
  outcome (RtApi (M := M) (TI := TI)) :=
  match bystanders with
  | [] => Ret rt
  | b :: bystanders => '(rt, _) ← do_forward rt reply_to b; put_back rt reply_to bystanders
  end.

(** [ask_impl]; [meanwhile] is what happens to the mailboxes during the wait. *)
Definition ask_impl (rt : RtApi (M := M) (TI := TI)) (reply_to server : Address) (counter : Z)
  (received : list (result (Envelope (M := M)) RecvErrorKind)) (meanwhile : RtApi (M := M) (TI := TI) → RtApi (M := M) (TI := TI)) :
  outcome (RtApi (M := M) (TI := TI) * Z * result Rs AskErrorKind) :=
  let '(counter, request_id) := next_request_id counter in
  '(rt, sent) ← do_send rt (envelope_new server false (User (mk_request request_id reply_to)));
  match sent with
  | Err k => Ret (rt, counter, Err (AskSend k))
  | Ok _ =>
      let '(bystanders, r) := ask_loop request_id received in
      rt ← put_back (meanwhile rt) reply_to bystanders;
      Ret (rt, counter, match r with Some r => r | None => Err AskTimeout end)
  end.

(** [Ask::ask]: the fork that asks, or why there is none. *)
Definition ask (rt : RtApi (M := M) (TI := TI)) (forked : result Address ForkErrorKind) (server : Address) (counter : Z)
  (received : list (result (Envelope (M := M)) RecvErrorKind)) (meanwhile : RtApi (M := M) (TI := TI) → RtApi (M := M) (TI := TI)) :
  outcome (RtApi (M := M) (TI := TI) * Z * result Rs AskErrorKind) :=
  match forked with
  | Err k => Ret (rt, counter, Err (AskFork k))
  | Ok fork => ask_impl rt fork server counter received meanwhile
  end.

(** [Reply::reply] *)
Definition reply (rt : RtApi (M := M) (TI := TI)) (id : Z) (reply_to : Address) (response : Rs) :
  outcome (RtApi (M := M) (TI := TI) * result unit SendErrorKind) :=
  do_send rt (envelope_new reply_to true (User (mk_response id response))).

(** ** The answer *)

(** Not the response that is waited for. *)
Definition passes (request_id : Z) (r : result (Envelope (M := M)) RecvErrorKind) : Prop :=
  ∃ e, r = Ok e ∧ ∀ v, cast e ≠ Some (request_id, v).

(** The messages that are responses of no kind. *)
Definition set_aside (received : list (result (Envelope (M := M)) RecvErrorKind)) : list (Envelope (M := M)) :=
  omap (λ r, match r with Ok e => match cast e with None => Some e | Some _ => None end | Err _ => None end) received.

(** an ask answers with the response to its own request: it succeeds with [v]
    exactly when, of the messages received in time, the first that ends the wait is
    the response with its id, carrying [v]; responses to other requests are skipped,
    never returned. The messages set aside are those that arrived before it and
    were no responses, in their order. *)
Theorem ask_answer request_id received bystanders v :
  ask_loop request_id received = (bystanders, Some (Ok v)) ↔
  ∃ pre e post, received = pre ++ Ok e :: post ∧ cast e = Some (request_id, v) ∧
    Forall (passes request_id) pre ∧ bystanders = set_aside pre.
Proof.
  revert bystanders. induction received as [|r received IH]; intros bystanders; cbn [ask_loop].
  { split; [done|]. by intros ([] & ? & ? & ? & _). }
  destruct r as [e|e].
  2: { split; [done|]. intros ([|r pre] & e' & post & [= ? ?] & _ & Hp & _); [subst r].
    apply Forall_cons in Hp as [(? & ? & _) _]. done. }
  destruct (cast e) as [[id w]|] eqn:Ec.
  - destruct (Z.eqb_spec id request_id) as [->|Hne].
    + split.
      * intros [= <- <-]. exists [], e, received. by split_and!.
      * intros ([|r pre] & e' & post & [= ? ?] & He' & Hp & Hb); simplify_eq; [done|].
        apply Forall_cons in Hp as [(? & [= <-] & Hno) _]. by destruct (Hno w).
    + rewrite IH. split.
      * intros (pre & e' & post & -> & He' & Hp & ->). exists (Ok e :: pre), e', post. split_and!; try done.
        -- constructor; [|done]. exists e. split; [done|]. congruence.
        -- unfold set_aside. cbn. by rewrite Ec.
      * intros ([|r pre] & e' & post & [= ? ?] & He' & Hp & Hb); simplify_eq.
        apply Forall_cons in Hp as [_ Hp]. exists pre, e', post. split_and!; try done.
        unfold set_aside. cbn. by rewrite Ec.
  - destruct (ask_loop request_id received) as [b r] eqn:El. split.
    + intros [= <- ->]. destruct (proj1 (IH b) eq_refl) as (pre & e' & post & -> & He' & Hp & ->).
      exists (Ok e :: pre), e', post. split_and!; try done.
      * constructor; [|done]. exists e. split; [done|]. congruence.
      * unfold set_aside. cbn. by rewrite Ec.
    + intros ([|r' pre] & e' & post & [= ? ?] & He' & Hp & ->); simplify_eq.
      apply Forall_cons in Hp as [_ Hp]. assert (Hb : (b, r) = (set_aside pre, Some (Ok v))) by (apply IH; by exists pre, e', post).
      injection Hb as -> ->. unfold set_aside. cbn. by rewrite Ec.
Qed.

(** ** Bystanders *)

(** What forwarding makes of an envelope. *)
Definition worn (e : Envelope (M := M)) : Envelope := mkEnvelope (env_to e) (ttl e - 1) (env_priority e) (body e).
Definition urgent (l : list (Envelope (M := M))) : list Envelope := filter (λ e, env_priority e = true) l.
Definition ordinary (l : list (Envelope (M := M))) : list Envelope := filter (λ e, env_priority e = false) l.

(** The mailbox with bystanders put back. *)
Definition refilled (mb : Mailbox (M := Envelope (M := M))) (reply_to : Address) (l : list Envelope) : Mailbox :=
  mkMailbox (inbox_size mb) (permits mb - length (ordinary l))
    (regular mb ++ ((λ e, (reply_to, worn e)) <$> ordinary l))
    (prioritized mb ++ ((λ e, (reply_to, worn e)) <$> urgent l)) (receiver_alive mb).

Lemma do_forward_one (rt : RtApi (M := M) (TI := TI)) reply_to node mb b :
  lookup_ (registry rt) reply_to = Ret (Some node) → mailboxes rt !! node = Some mb → receiver_alive mb = true →
  0 < ttl b → (length (ordinary [b]) ≤ permits mb)%nat →
  do_forward rt reply_to b = Ret (mkRt (registry rt) (<[node := refilled mb reply_to [b]]> (mailboxes rt)), Ok tt).
Proof.
  intros Hl Hm Ha Ht Hp. unfold do_forward, spend_ttl, send_to. rewrite (proj2 (Z.eqb_neq (ttl b) 0)) by lia.
  cbn [env_priority]. rewrite Hl, bind_Ret, Hm. unfold node_send, refilled, ordinary, urgent in *. rewrite Ha.
  rewrite !filter_cons, !filter_nil in *. destruct (env_priority b) eqn:Ep; repeat case_decide; try done; cbn in *.
  - rewrite !app_nil_r, Nat.sub_0_r. unfold worn. try rewrite Ep. done.
  - destruct (permits mb); [lia|]. cbn. rewrite !app_nil_r, Nat.sub_0_r. unfold worn. try rewrite Ep. done.
Qed.

Lemma refilled_cons mb reply_to b l : refilled (refilled mb reply_to [b]) reply_to l = refilled mb reply_to (b :: l).
Proof.
  unfold refilled, ordinary, urgent. cbn [inbox_size permits regular prioritized receiver_alive].
  rewrite !filter_cons, !filter_nil. destruct (env_priority b); repeat case_decide; try done; cbn; rewrite ?app_nil_r, <- ?app_assoc; f_equal; lia.
Qed.

(** an ask destroys no unrelated message that can still travel: if each message it
    set aside has some time to live left and the caller's mailbox has room for the
    ordinary ones, all of them are back in the mailbox afterwards, in their order
    and on their lanes, each worn by one hop. *)
Theorem ask_puts_back (rt : RtApi (M := M) (TI := TI)) reply_to node mb bystanders :
  lookup_ (registry rt) reply_to = Ret (Some node) → mailboxes rt !! node = Some mb → receiver_alive mb = true →
  Forall (λ b, 0 < ttl b) bystanders → (length (ordinary bystanders) ≤ permits mb)%nat →
  put_back rt reply_to bystanders =
    Ret (mkRt (registry rt) (<[node := refilled mb reply_to bystanders]> (mailboxes rt))).
Proof.
  intros Hl Hm Ha Ht Hp. revert rt mb Hl Hm Ha Hp. induction Ht as [|b l Hb _ IH]; intros rt mb Hl Hm Ha Hp; cbn [put_back].
  - unfold refilled. cbn. rewrite !app_nil_r, Nat.sub_0_r.
    replace (mkMailbox _ _ _ _ _) with mb by (by destruct mb). rewrite insert_id by done. by destruct rt.
  - assert (Hlen : (length (ordinary (b :: l)) = length (ordinary [b]) + length (ordinary l))%nat).
    { unfold ordinary. rewrite !filter_cons, filter_nil. by case_decide. }
    rewrite (do_forward_one rt reply_to node mb b), bind_Ret by (done || lia).
    rewrite (IH _ (refilled mb reply_to [b])); cbn [registry mailboxes refilled permits receiver_alive]; [|done|by simplify_map_eq|done|lia].
    by rewrite insert_insert_eq, refilled_cons.
Qed.

(** a message whose time to live is used up does not survive somebody else's ask:
    if it is set aside, putting it back is refused and the refusal ignored, so that
    the mailboxes end up as if it had never been there. *)
Theorem ask_loses_exhausted (rt : RtApi (M := M) (TI := TI)) reply_to l1 b l2 : ttl b = 0 →
  put_back rt reply_to (l1 ++ b :: l2) = put_back rt reply_to (l1 ++ l2).
Proof.
  intros Hb. revert rt. induction l1 as [|x l1 IH]; intros rt; cbn [put_back app].
  - unfold do_forward, spend_ttl. by rewrite Hb.
  - destruct (do_forward rt reply_to x) as [[rt' r]|]; [|done]. rewrite !bind_Ret. apply IH.
Qed.

End Ask.

(** ** Runs *)
#[local] Existing Instance list_tree_index.

(** Messages at or above 1000 are responses: the id in thousands, the payload the
    rest. *)
Definition cast_z (e : Envelope (M := Z)) : option (Z * Z) :=
  match body e with User m => if 1000 <=? m then Some (m / 1000, m mod 1000) else None | _ => None end.

Definition arrived (m ttl : Z) : Envelope (M := Z) := mkEnvelope 5 ttl false (User m).

(** A stale response and an unrelated message come before the answer. *)
Example ask_skips_stale :
  ask_loop cast_z 8 [Ok (arrived 7001 3); Ok (arrived 42 3); Ok (arrived 8002 3); Ok (arrived 43 3)] =
  ([arrived 42 3], Some (Ok 2)).
Proof. vm_compute. reflexivity. Qed.

Lemma ask_puts_back_witness :
  put_back rt1 0xFF00000000000005 [arrived 42 3] =
  Ret (mkRt one_net {[1 := mkMailbox 4 3 [(0xFF00000000000005, arrived 42 2)] [] true]}).
Proof.
  apply (ask_puts_back rt1 0xFF00000000000005 1 (node_new 4) [arrived 42 3]); [reflexivity..| |vm_compute; lia].
  constructor; [reflexivity|constructor].
Defined.

Lemma ask_loses_exhausted_witness :
  put_back rt1 0xFF00000000000005 [arrived 42 0; arrived 43 3] = put_back rt1 0xFF00000000000005 [arrived 43 3].
Proof. exact (ask_loses_exhausted rt1 0xFF00000000000005 [] (arrived 42 0) [arrived 43 3] eq_refl). Defined.
