(* ===== verification/Exchange.v ===== *)
(** * Requests and responses through the mailboxes (libs/mm1-ask/src/ask.rs, with core/mm1-node)

    The composition of [Ask] with [Delivery]: a fork that asks, the server that replies, and everybody else on the node who sends, sorts
    and receives meanwhile. *)

From S2P Require Import Prelude U64 Address Subnet Pool Registry Context Ask Delivery.

Open Scope Z_scope.

Section Exchange.
Context {M Rs : Type} {TI : Type → Type} `{TreeIndex TI}.
Context (cast : Envelope (M := M) → option (Z * Rs)) (mk_response : Z → Rs → M).

(** A response is of the type it is cast to. *)
Context (cast_response : ∀ e id v, body e = User (mk_response id v) → cast e = Some (id, v)).

(** What a fork has received, on either lane *)
Definition received_by (node : Z) (f : Address) (i : LogItem (M := M)) : option (Envelope (M := M)) :=
  match i with Received n g e => if (n =? node) && (g =? f) then Some e else None | _ => None end.

(** A message accepted for a fork that is for its actor, not a ping *)
Definition accepted_for (bound : list (AddressRange * Address)) (node : Z) (f : Address) (i : LogItem (M := M)) (e : Envelope (M := M)) : Prop :=
  ∃ to, i = Accepted node to e ∧ dest bound to = f ∧ (env_priority e = true → is_user (mkQueued to e) = true).

Lemma accepted_for_lane bound node f (log : list (LogItem (M := M))) e : (∃ i, i ∈ log ∧ accepted_for bound node f i e) ↔ e ∈ omap (accepted_one bound (env_priority e) node f) log.
Proof.
  rewrite list_elem_of_omap. split.
  - intros (i & Hi & to & -> & Hd & Hu). exists (Accepted node to e). split; [done|]. cbn [accepted_one].
    rewrite Z.eqb_refl, Hd, Z.eqb_refl, eqb_reflx. cbn. destruct (env_priority e); cbn; [by rewrite Hu | done].
  - intros (i & Hi & E). exists i. split; [done|]. destruct i as [n to e'|]; [|done]. cbn [accepted_one] in E.
    destruct (Z.eqb_spec n node) as [->|]; [|done]. destruct (Z.eqb_spec (dest bound to) f) as [Hd|]; [|done]. cbn in E.
    destruct (Bool.eqb (env_priority e') (env_priority e)) eqn:Ep; [|done]. cbn in E.
    destruct (negb (env_priority e) || is_user (mkQueued to e')) eqn:Eu; [|done]. injection E as ->. exists to. split; [done|]. split; [done|].
    intros Hp. by rewrite Hp in Eu.
Qed.

Lemma received_by_lane node f (log : list (LogItem (M := M))) e : e ∈ omap (received_by node f) log ↔ e ∈ omap (received_one (env_priority e) node f) log.
Proof.
  rewrite !list_elem_of_omap. split; intros (i & Hi & E); exists i; (split; [done|]); destruct i as [|n g e']; try done; cbn [received_by received_one] in *.
  - destruct ((n =? node) && (g =? f)); [|done]. injection E as ->. cbn. by rewrite eqb_reflx.
  - destruct ((n =? node) && (g =? f)); [|done]. cbn in E. destruct (Bool.eqb _ _); [|done]. by injection E as ->.
Qed.

(** Of the messages a fork has received, one ends the wait for a response if there is one. *)
Lemma ask_loop_finds id (es : list (Envelope (M := M))) e v : e ∈ es → cast e = Some (id, v) →
  ∃ bs w, ask_loop cast id (Ok <$> es) = (bs, Some (Ok w)).
Proof.
  induction es as [|e' es IH]; [by intros ?%elem_of_nil|]. intros Hin Hc. cbn [fmap list_fmap ask_loop].
  destruct (cast e') as [[id' w]|] eqn:Ec.
  - destruct (Z.eqb_spec id' id) as [->|Hne]; [by eexists _, _|]. apply IH; [|done]. apply elem_of_cons in Hin as [->|Hin]; [|done].
    rewrite Hc in Ec. by injection Ec as <- _.
  - apply elem_of_cons in Hin as [->|Hin]; [by rewrite Hc in Ec|]. destruct (IH Hin Hc) as (bs & w & ->). by eexists _, _.
Qed.

Lemma ask_loop_from id (es : list (Envelope (M := M))) bs v : ask_loop cast id (Ok <$> es) = (bs, Some (Ok v)) → ∃ e, e ∈ es ∧ cast e = Some (id, v).
Proof.
  revert bs. induction es as [|e es IH]; intros bs; cbn [fmap list_fmap ask_loop]; [done|]. destruct (cast e) as [[id' w]|] eqn:Ec.
  - destruct (Z.eqb_spec id' id) as [->|Hne]; [intros [= _ <-]; exists e; split; [left | done]|].
    intros (e' & He & Hc)%IH. exists e'. split; [by right | done].
  - destruct (ask_loop cast id (Ok <$> es)) as [bs' r] eqn:El. intros [= _ ->]. destruct (IH bs' eq_refl) as (e' & He & Hc). exists e'. split; [by right | done].
Qed.

(** C36: A request is answered by its response, and by nothing else, whatever else happens on the node. A reply that a server sends is
    accepted for the fork that has asked, as the response with the id of the request. Over any run of sends, forwards, receives and forks
    that starts with the new fork, an ask that returns a value has received a response with the id of its request that was accepted for it
    and carries that value; and once such a response has been accepted and all that was accepted has been received, the ask has returned. *)
Theorem ask_exchange id f :
  (∀ (rt : RtApi (M := M) (TI := TI)) cs v rt', reply mk_response rt id f v = Ret (rt', Ok tt) →
    ∃ node e, dstep (mkNodes rt cs) [Accepted node f e] (mkNodes rt' cs) ∧ cast e = Some (id, v)) ∧
  ∀ n log n' node bound, dsteps (TI := TI) n log n' → present n node f bound → (∀ urgent, pending urgent n node f = []) →
    (∀ bs v, ask_loop cast id (Ok <$> omap (received_by node f) log) = (bs, Some (Ok v)) →
      ∃ i e, i ∈ log ∧ accepted_for bound node f i e ∧ cast e = Some (id, v)) ∧
    ((∃ i e v, i ∈ log ∧ accepted_for bound node f i e ∧ cast e = Some (id, v)) → (∀ urgent, pending urgent n' node f = []) →
      ∃ bs v, ask_loop cast id (Ok <$> omap (received_by node f) log) = (bs, Some (Ok v))).
Proof.
  split.
  - intros rt cs v rt' E. unfold reply in E. pose proof E as E'. unfold do_send, envelope_new, spend_ttl, send_to in E'. cbn in E'.
    apply bind_Ret_inv in E' as (found & Hl & E'). destruct found as [node|]; [|done].
    exists node, (mkEnvelope f 14 true (User (mk_response id v))). split; [|by apply cast_response].
    exact (DSend rt cs (envelope_new f true (User (mk_response id v))) _ rt' node E eq_refl Hl).
  - intros n log n' node bound Hs Hpr Hnew.
    assert (lanes_right n node f) as Hl by (intros urgent; rewrite Hnew; constructor).
    pose proof (delivery_ok n log n' node f bound Hs Hpr Hl) as Hd. split.
    + intros bs v (e & He & Hc)%ask_loop_from. apply received_by_lane in He. specialize (Hd (env_priority e)). rewrite Hnew in Hd. cbn [app] in Hd.
      assert (e ∈ omap (accepted_one bound (env_priority e) node f) log) as Ha by (rewrite Hd; apply elem_of_app; by left).
      apply accepted_for_lane in Ha as (i & Hi & Ha). by exists i, e.
    + intros (i & e & v & Hi & Ha & Hc) Hend. eapply ask_loop_finds; [|exact Hc]. apply received_by_lane. specialize (Hd (env_priority e)).
      rewrite Hnew, Hend, app_nil_r in Hd. cbn [app] in Hd. rewrite <- Hd. apply accepted_for_lane. by exists i.
Qed.
End Exchange.

(** ** Example: a response to request 8 *)
Section Examples.
#[local] Existing Instance list_tree_index.

(** Messages are numbers, responses pairs. *)
Definition XM : Type := Z + Z * Z.
Definition x_cast (e : Envelope (M := XM)) : option (Z * Z) := match body e with User (inr r) => Some r | _ => None end.
Definition x_response (id v : Z) : XM := inr (id, v).
Lemma x_cast_response e id v : body e = User (x_response id v) → x_cast e = Some (id, v).
Proof. unfold x_cast. by intros ->. Qed.

Definition x_ctx : SubnetContext (M := XM) := mkSubnet (subnet_pool two_forks) [] [] {[ex_fork := fork_default]} [].
Definition x_n0 : Net (M := XM) (TI := ListIndex) := mkNodes (mkRt one_net {[1 := node_new 4]}) {[1 := x_ctx]}.
Definition x_n1 : Net (M := XM) (TI := ListIndex) :=
  match reply x_response (api x_n0) 8 ex_fork 42 with Ret (rt, _) => mkNodes rt (contexts x_n0) | Panic => x_n0 end.
Definition x_env : Envelope (M := XM) := mkEnvelope ex_fork 14 true (User (x_response 8 42)).
Definition x_mb : Mailbox := default (node_new 0) (mailboxes (api x_n1) !! 1).
Definition x_recv := recv_pass (Delivery.is_local (api x_n1) 1) (mkPass 9 9 false false) ex_fork (load x_mb x_ctx).
Definition x_st : SubnetContext (M := XM) := match x_recv with Ret (st, _, _) => st | Panic => x_ctx end.
Definition x_n2 : Net (M := XM) (TI := ListIndex) := mkNodes (mkRt one_net (<[1 := store x_mb x_st 4]> (mailboxes (api x_n1)))) (<[1 := x_st]> (contexts x_n1)).
Definition x_log : list (LogItem (M := XM)) := [Accepted 1 ex_fork x_env] ++ [Received 1 ex_fork x_env] ++ [].

Lemma ask_exchange_witness : ∃ bs v, ask_loop x_cast 8 (Ok <$> omap (received_by 1 ex_fork) x_log) = (bs, Some (Ok v)).
Proof.
  destruct (ask_exchange (TI := ListIndex) x_cast x_response x_cast_response 8 ex_fork) as [_ Hx].
  apply (Hx x_n0 x_log x_n2 1 []).
  - eapply dsteps_cons; [eapply (DSend _ _ (envelope_new ex_fork true (User (x_response 8 42))) x_env _ 1); vm_compute; reflexivity|].
    eapply dsteps_cons; [|apply dsteps_nil].
    eapply (DRecv (api x_n1) (contexts x_n1) 1 ex_fork (mkPass 9 9 false false) 4 x_mb x_ctx x_st _ (Ok (Some x_env))); vm_compute; reflexivity.
  - split; [by eexists|]. exists x_ctx. split; [reflexivity|]. split; [reflexivity|]. by eexists.
  - intros []; reflexivity.
  - exists (Accepted 1 ex_fork x_env), x_env, 42. split; [left|]. split; [|reflexivity]. by exists ex_fork.
  - intros []; vm_compute; reflexivity.
Defined.
End Examples.
