(* ===== verification/Invoke.v ===== *)
(** * Calls from an actor to its container (core/mm1-node/src/runtime/sys_call.rs)

    A call goes through a channel with room for one request. [invoke] waits for the room, then for the request's acknowledgement, which is
    never sent: the container drops it when it takes the request. The forks of an actor call at the same time, and any call may be given up
    while it waits. Here these calls are steps, in any order; the container is the reader. *)

From S2P Require Import Prelude Container.

Open Scope nat_scope.

Section Invoke.
Context {C : Type}.

(** An invocation is known by its number. tokio's channel serves those that wait for room in the order in which they came. *)
Record Calls := mkCalls {
  started : list C;          (** the calls of all invocations *)
  rx_open : bool;            (** the container still reads *)
  slot : option nat;         (** the request in the channel *)
  waiting : list nat;        (** invocations waiting for room *)
  acked : gset nat;          (** those whose acknowledgement has been dropped *)
  withdrawn : gset nat;      (** those given up while they waited for room *)
  taken : list nat;          (** those the container has taken, in order *)
}.

(** [sys_call::create] *)
Definition create : Calls := mkCalls [] true None [] ∅ ∅ [].

Definition put (s : Calls) (sl : option nat) (w : list nat) : Calls := mkCalls (started s) (rx_open s) sl w (acked s) (withdrawn s) (taken s).

(** [Tx::invoke], first poll: the request is sent if there is room and nobody waits for it. *)
Definition invoke (s : Calls) (call : C) : outcome Calls :=
  let id := length (started s) in
  let s := mkCalls (started s ++ [call]) (rx_open s) (slot s) (waiting s) (acked s) (withdrawn s) (taken s) in
  if negb (rx_open s) then Panic
  else match slot s, waiting s with
       | None, [] => Ret (put s (Some id) [])
       | _, _ => Ret (put s (slot s) (waiting s ++ [id]))
       end.

(** [Tx::invoke], later polls: whether it returns. *)
Definition poll_invoke (s : Calls) (id : nat) : outcome (Calls * bool) :=
  if decide (id ∈ waiting s) then
    if negb (rx_open s) then Panic
    else match slot s, waiting s with
         | None, first :: rest => if first =? id then Ret (put s (Some id) rest, false) else Ret (s, false)
         | _, _ => Ret (s, false)
         end
  else Ret (s, bool_decide (id ∈ acked s)).

(** An invocation is dropped. What is in the channel stays there. *)
Definition cancel (s : Calls) (id : nat) : Calls :=
  if decide (id ∈ waiting s)
  then mkCalls (started s) (rx_open s) (slot s) (filter (λ k, k ≠ id) (waiting s)) (acked s) ({[id]} ∪ withdrawn s) (taken s)
  else s.

(** [Rx::poll_next]: the request is taken apart, and the rest of it dropped. *)
Definition poll_next (s : Calls) : option (Calls * C) :=
  id ← slot s; call ← started s !! id;
  Some (mkCalls (started s) (rx_open s) None (waiting s) ({[id]} ∪ acked s) (withdrawn s) (taken s ++ [id]), call).

(** The container's loop has ended: the channel goes, with the request in it. *)
Definition rx_close (s : Calls) : Calls :=
  mkCalls (started s) false None (waiting s) (match slot s with Some id => {[id]} ∪ acked s | None => acked s end) (withdrawn s) (taken s).

Inductive istep (s : Calls) : Calls → Prop :=
| i_invoke c s' : invoke s c = Ret s' → istep s s'
| i_poll id s' b : poll_invoke s id = Ret (s', b) → istep s s'
| i_cancel id : istep s (cancel s id)
| i_take s' c : poll_next s = Some (s', c) → istep s s'
| i_close : istep s (rx_close s).

Inductive calls_reachable : Calls → Prop :=
| i_create : calls_reachable create
| i_step s s' : calls_reachable s → istep s s' → calls_reachable s'.

(** ** The channel is a queue *)
Definition pending (s : Calls) : list nat := option_list (slot s) ++ waiting s.
Definition kept (s : Calls) : list nat := filter (λ id, id ∉ withdrawn s) (seq 0 (length (started s))).

Record calls_ok (s : Calls) : Prop := {
  ci_queue : kept s = taken s ++ pending s;
  ci_acked id : id ∈ acked s ↔ id ∈ taken s;
}.

Lemma kept_NoDup s : NoDup (kept s).
Proof. apply NoDup_filter, NoDup_seq. Qed.

Lemma kept_lt s id : id ∈ kept s → id < length (started s) ∧ id ∉ withdrawn s.
Proof. unfold kept. rewrite list_elem_of_filter, elem_of_seq. lia || (intros [? ?]; split; [lia|done]). Qed.

(** A new invocation comes last. *)
Lemma kept_new (w : gset nat) n : (∀ id, id ∈ w → id < n) → filter (λ id, id ∉ w) (seq 0 (S n)) = filter (λ id, id ∉ w) (seq 0 n) ++ [n].
Proof.
  intros Hw. rewrite seq_S, filter_app. f_equal. rewrite Nat.add_0_l, filter_cons_True; [done|]. intros ?%Hw. lia.
Qed.

(** Giving up one of those that wait takes it out of the queue. *)
Lemma kept_withdraw (w : gset nat) n id pre post : filter (λ k, k ∉ w) (seq 0 n) = pre ++ post → id ∉ pre →
  filter (λ k, k ∉ {[id]} ∪ w) (seq 0 n) = pre ++ filter (λ k, k ≠ id) post.
Proof.
  intros E Hpre. transitivity (filter (λ k, k ≠ id) (filter (λ k, k ∉ w) (seq 0 n))).
  - rewrite list_filter_filter. apply list_filter_iff. intros k. set_solver.
  - rewrite E, filter_app. f_equal. apply filter_all, Forall_forall. set_solver.
Qed.

Lemma istep_ok s s' : istep s s' → (rx_open s = true → calls_ok s ∧ ∀ id, id ∈ withdrawn s → id < length (started s)) →
  rx_open s' = true → calls_ok s' ∧ ∀ id, id ∈ withdrawn s' → id < length (started s').
Proof.
  intros Hs IH Ho. destruct Hs as [c s' E|id s' b E|id|s' c E|]; [| | | |done].
  - unfold invoke in E. cbn [rx_open started slot waiting put] in E. destruct (rx_open s) eqn:Eo; [|done]. destruct (IH eq_refl) as [[Hq Ha] Hw]. cbn [negb] in E.
    assert (Hk : ∀ s'', started s'' = started s ++ [c] → withdrawn s'' = withdrawn s → kept s'' = kept s ++ [length (started s)]).
    { intros s'' E1 E2. unfold kept. rewrite E1, E2, length_app, Nat.add_1_r. by apply kept_new. }
    assert (Hw' : ∀ id, id ∈ withdrawn s → id < length (started s ++ [c])) by (intros id Hi%Hw; rewrite length_app; cbn; lia).
    destruct (slot s) as [k|] eqn:Es, (waiting s) as [|x l] eqn:El; injection E as <-; (split; [|done]); (split; [|done]);
      rewrite Hk by done; rewrite Hq; unfold pending; cbn; rewrite Es, El; cbn; by rewrite <- ?app_assoc.
  - unfold poll_invoke in E. destruct (decide (id ∈ waiting s)) as [Hi|Hi]; [|injection E as <- _; by apply IH].
    destruct (rx_open s) eqn:Eo; cbn [negb] in E; [|done]. destruct (IH eq_refl) as [[Hq Ha] Hw].
    destruct (slot s) as [k|] eqn:Es; [by injection E as <- _|]. destruct (waiting s) as [|x l] eqn:El; [by injection E as <- _|].
    destruct (Nat.eqb_spec x id) as [->|]; injection E as <- _; [|done]. split; [|done]. split; [|done]. unfold kept, pending in *. cbn.
    by rewrite Hq, Es, El.
  - unfold cancel in *. destruct (decide (id ∈ waiting s)) as [Hi|Hi]; [|by apply IH]. cbn in Ho. destruct (IH Ho) as [[Hq Ha] Hw].
    assert (Hnd : NoDup ((taken s ++ option_list (slot s)) ++ waiting s)) by (rewrite <- app_assoc; fold (pending s); rewrite <- Hq; apply kept_NoDup).
    assert (Hlt : id < length (started s)) by (apply kept_lt; rewrite Hq; unfold pending; set_solver).
    apply NoDup_app in Hnd as (_ & Hd & _). split; [split; [|done]|].
    + unfold kept, pending in *. cbn. rewrite app_assoc. apply kept_withdraw; [by rewrite <- app_assoc|]. intros Hin. by destruct (Hd id Hin).
    + cbn. intros k [->%elem_of_singleton|?]%elem_of_union; [done|by apply Hw].
  - unfold poll_next in E. destruct (slot s) as [id|] eqn:Es; [|done]. cbn in E. destruct (started s !! id) as [c'|] eqn:Ec; [|done].
    cbn in E. injection E as <- <-. cbn in Ho. destruct (IH Ho) as [[Hq Ha] Hw]. split; [|done]. split.
    + unfold kept, pending in *. cbn. rewrite Hq, Es. cbn. by rewrite <- app_assoc.
    + intros k. cbn. rewrite elem_of_union, elem_of_singleton, Ha, elem_of_app, list_elem_of_singleton. tauto.
Qed.

Lemma reachable_ok s : calls_reachable s → rx_open s = true → calls_ok s ∧ ∀ id, id ∈ withdrawn s → id < length (started s).
Proof. induction 1 as [|s s' _ IH Hs]; [intros _; split; [split; [done|cbn; set_solver]|cbn; set_solver]|]. by apply (istep_ok s). Qed.

(** A call has been taken by the container when [invoke] returns, and the channel is a fair queue: as long as the container reads, the calls
    it has taken, the one in the channel and those that wait are, in this order, all the calls ever made but those given up while they
    waited. [invoke] returns for exactly the calls that were taken, and does not panic. Whenever a call is under way, the next one can make
    progress: the container can take it, or it finds room when it is polled. *)
Theorem calls_in_order s : calls_reachable s → rx_open s = true →
  filter (λ id, id ∉ withdrawn s) (seq 0 (length (started s))) = taken s ++ option_list (slot s) ++ waiting s ∧
  (∀ id, ∃ s' b, poll_invoke s id = Ret (s', b) ∧ (id ∉ waiting s → (b = true ↔ id ∈ taken s))) ∧
  match slot s, waiting s with
  | Some id, _ => ∃ s' c, started s !! id = Some c ∧ poll_next s = Some (s', c) ∧ taken s' = taken s ++ [id]
  | None, id :: _ => ∃ s', poll_invoke s id = Ret (s', false) ∧ slot s' = Some id
  | None, [] => True
  end.
Proof.
  intros Hr Ho. destruct (reachable_ok s Hr Ho) as [[Hq Ha] _]. split; [exact Hq|]. split.
  - intros id. unfold poll_invoke. destruct (decide (id ∈ waiting s)) as [Hi|Hi].
    + rewrite Ho. cbn [negb]. destruct (slot s), (waiting s) as [|x l]; [by eexists _, _..|]. destruct (Nat.eqb_spec x id); by eexists _, _.
    + eexists _, _. split; [done|]. intros _. by rewrite bool_decide_eq_true.
  - destruct (slot s) as [id|] eqn:Es.
    + assert (Hlt : id < length (started s)) by (apply kept_lt; rewrite Hq; unfold pending; rewrite Es; set_solver).
      apply lookup_lt_is_Some_2 in Hlt as [c Hc]. unfold poll_next. rewrite Es. cbn. rewrite Hc. cbn. by eexists _, _.
    + destruct (waiting s) as [|id l] eqn:El; [done|]. unfold poll_invoke. rewrite decide_True by (rewrite El; left). rewrite Ho, Es, El. cbn [negb].
      rewrite Nat.eqb_refl. by eexists.
Qed.
End Invoke.

(** ** Two forks call at once *)
Definition two_calls : outcome (Calls (C := SysCall)) :=
  s ← invoke create (CallTrapExit true); s ← invoke s (CallForkAdded 5);
  match poll_next s with Some (s, _) => '(s, _) ← poll_invoke s 1; Ret s | None => Panic end.
Definition after_two : Calls (C := SysCall) := match two_calls with Ret s => s | Panic => create end.

Lemma after_two_reachable : calls_reachable after_two.
Proof.
  set (s1 := match invoke create (CallTrapExit true) with Ret s => s | Panic => create end).
  set (s2 := match invoke s1 (CallForkAdded 5) with Ret s => s | Panic => create end).
  assert (Hn : ∃ s3, poll_next s2 = Some (s3, CallTrapExit true) ∧ poll_invoke s3 1 = Ret (after_two, false)) by (eexists; split; vm_compute; reflexivity).
  destruct Hn as (s3 & E3 & E4). eapply i_step; [|eapply i_poll, E4]. eapply i_step; [|eapply i_take, E3].
  eapply (i_step s1); [eapply i_step; [constructor|]|]; by eapply i_invoke.
Qed.

Lemma calls_in_order_witness : taken after_two = [0] ∧ slot after_two = Some 1 ∧ ∃ s' c, poll_next after_two = Some (s', c) ∧ taken s' = [0; 1].
Proof.
  destruct (calls_in_order after_two after_two_reachable eq_refl) as (_ & _ & s' & c & _ & Hn & Ht).
  split; [reflexivity|]. split; [reflexivity|]. exact (ex_intro _ s' (ex_intro _ c (conj Hn Ht))).
Defined.

(** A request that is still in the channel when the container ends is dropped with its acknowledgement: [invoke] returns although the call
    was never taken. *)
Example dropped_call_returns : match invoke create CallSpawn with
  | Ret s => poll_invoke (rx_close s) 0 = Ret (rx_close s, true) ∧ taken (rx_close s) = []
  | Panic => False
  end.
Proof. vm_compute. done. Qed.
