(* ===== verification/Runnable.v ===== *)
(** * Runnable actors (core/mm1-runnable/src/local/*.rs, core/mm1-core/src/actor_exit.rs, and [Quit] of the node's context)

    What a node runs is a function of a context, with any number of arguments, whose result says how the actor quits. The program of an
    actor may go on for ever: it is an interaction tree over the calls it makes to its container. [std::future::pending()] is the tree that
    is silent for ever. *)

From Stdlib Require Import List String.
From ITree Require Import ITree Eq.Shallow.
From S2P Require Import Prelude Container.

(** [sys_call::Tx::invoke], as the actor sees it *)
Inductive CallE : Type → Type := Invoke (c : SysCall) : CallE unit.
Definition prog (R : Type) : Type := itree CallE R.
Definition invoke (c : SysCall) : prog unit := ITree.trigger (Invoke c).

(** [std::future::pending] *)
Definition pending {R} : prog R := ITree.spin.

(** [Quit for ActorContext] *)
Definition quit_ok : prog Empty_set := ITree.bind (invoke (CallExit (Ok tt))) (λ _, pending).
Definition quit_err : prog Empty_set := ITree.bind (invoke (CallExit (Err UserError))) (λ _, pending).

(** ** [trait ActorExit] and its four instances; an error is turned into an [AnyError] and wrapped. *)
Class ActorExit (Out : Type) := exit_ : Out → prog Empty_set.

#[export] Instance never_exit : ActorExit Empty_set := λ never, match never with end.
#[export] Instance unit_exit : ActorExit unit := λ _, quit_ok.
#[export] Instance result_exit {E} : ActorExit (result unit E) := λ r, match r with Ok _ => quit_ok | Err _ => quit_err end.
#[export] Instance result_never_exit {E} : ActorExit (result Empty_set E) := λ r, match r with Ok never => match never with end | Err _ => quit_err end.

(** ** Functions of a context *)
Fixpoint arrows (args : list Type) (R : Type) : Type := match args with [] => R | T :: args => T → arrows args R end.
Fixpoint tuple (args : list Type) : Type := match args with [] => unit | T :: args => T * tuple args end.
Fixpoint apply {args R} : arrows args R → tuple args → R :=
  match args with [] => λ f _, f | _ :: _ => λ f ts, apply (f (fst ts)) (snd ts) end.

(** [trait ActorFuncInner], for a function and for a function with its arguments. The macro gives the latter for one to fifteen of them. *)
Class ActorFuncInner (Func Out : Type) := call_inner : Func → prog Out.
#[export] Instance plain_func {Out} : ActorFuncInner (unit → prog Out) Out := λ func, func tt.
#[export] Instance func_with_args {args Out} : ActorFuncInner ((unit → arrows args (prog Out)) * tuple args) Out :=
  λ '(f, ts), apply (f tt) ts.

(** [ActorFunc::call] *)
Definition call {Func Out} `{ActorFuncInner Func Out} (self : Func) : prog Out := call_inner self.

(** [ActorRunFnOnce::run] *)
Definition run_fn_once {Func Out} `{ActorFuncInner Func Out, ActorExit Out} (self : Func) : prog Empty_set :=
  ITree.bind (call self) (λ out, exit_ out).

(** [ActorRunBoxed::run]: the future that is pinned in a box *)
Definition run_boxed {Func Out} `{ActorFuncInner Func Out, ActorExit Out} (self : Func) : prog Empty_set :=
  (λ async_move : unit, ITree.bind (call self) (λ out, exit_ out)) tt.

(** [FnOnceRunnable], [BoxedRunnable] and their constructors; a boxed runnable has forgotten its function's type, and knows its name. *)
Record FnOnceRunnable (F : Type) := mkFnOnce { fn_once : F }.
Record BoxedRunnable := mkBoxed { boxed : unit → prog Empty_set; func_name : string }.
Definition from_fn {F} (f : F) : FnOnceRunnable F := mkFnOnce F f.
Definition boxed_from_fn {F Out} `{ActorFuncInner F Out, ActorExit Out} (type_name : string) (f : F) : BoxedRunnable := mkBoxed (λ _, run_boxed f) type_name.

(** [trait ActorRun] *)
Class ActorRun (A : Type) := run : A → prog Empty_set.
#[export] Instance fn_once_run {F Out} `{ActorFuncInner F Out, ActorExit Out} : ActorRun (FnOnceRunnable F) := λ r, run_fn_once (fn_once F r).
#[export] Instance boxed_run : ActorRun BoxedRunnable := λ r, boxed r tt.

(** [Fork::run] hands the program of a fork to the container. *)
Definition fork_run : prog unit := invoke CallSpawn.

(** ** What an actor does

    The next thing a program does, the calls it makes up to some point of its run, and what it is then *)
Inductive Next R := NReturn (r : R) | NSilent (t : prog R) | NCall (c : SysCall) (t : prog R).
Arguments NReturn {R} r.
Arguments NSilent {R} t.
Arguments NCall {R} c t.

Definition next {R} (t : prog R) : Next R :=
  match observe t with
  | RetF r => NReturn r
  | TauF t => NSilent t
  | VisF e k => match e in CallE X return (X → prog R) → Next R with Invoke c => λ k, NCall c (k tt) end k
  end.

Inductive makes {R} : prog R → list SysCall → prog R → Prop :=
| makes_here t : makes t [] t
| makes_silent t t1 l t' : next t = NSilent t1 → makes t1 l t' → makes t l t'
| makes_call t c t1 l t' : next t = NCall c t1 → makes t1 l t' → makes t (c :: l) t'.

(** How an actor's result is told to the container; there is no value of [Never] to be told. *)
Class ExitLaw (Out : Type) `{ActorExit Out} := {
  told : Out → ExitResult;
  exit_told out : exit_ out = ITree.bind (invoke (CallExit (told out))) (λ _, pending);
}.
#[export] Instance never_law : ExitLaw Empty_set.
Proof. refine {| told := λ never : Empty_set, match never with end |}. by intros []. Defined.
#[export] Instance unit_law : ExitLaw unit.
Proof. by refine {| told := λ _, Ok tt |}. Defined.
#[export] Instance result_law {E} : ExitLaw (result unit E).
Proof. refine {| told := λ r, match r with Ok _ => Ok tt | Err _ => Err UserError end |}. by intros []. Defined.
#[export] Instance result_never_law {E} : ExitLaw (result Empty_set E).
Proof. refine {| told := λ _, Err UserError |}. by intros [[]|]. Defined.

Lemma next_bind {R U} (t : prog R) (k : R → prog U) : next (ITree.bind t k) =
  match next t with NReturn r => next (k r) | NSilent t1 => NSilent (ITree.bind t1 k) | NCall c t1 => NCall c (ITree.bind t1 k) end.
Proof. unfold next. rewrite observe_bind. destruct (observe t) as [r|t1|X e k1]; [done|done|]. by destruct e. Qed.

Lemma pending_silent {R} l (t' : prog R) : makes pending l t' → l = [].
Proof.
  intros Hm. remember pending as t eqn:Et. induction Hm as [t|t t1 l t' Eo _ IH|t c t1 l t' Eo _ _]; [done| |]; subst t; [|done].
  injection Eo as <-. by apply IH.
Qed.

Lemma quit_makes r l (t' : prog Empty_set) : makes (ITree.bind (invoke (CallExit r)) (λ _, pending)) l t' → l = [] ∨ l = [CallExit r].
Proof.
  inversion 1 as [|? t1 ? ? Eo|? c t1 l' ? Eo Hm]; subst; [by left|done|right]. rewrite next_bind in Eo. cbn in Eo. injection Eo as <- <-.
  f_equal. change (makes (ITree.bind (ITreeDefinition.Ret tt) (λ _ : unit, pending)) l' t') in Hm.
  inversion Hm as [|? t2 ? ? Eo2 Hm2|? c2 t2 ? ? Eo2]; subst; [done| |done]. rewrite next_bind in Eo2. cbn in Eo2. injection Eo2 as <-. by eapply pending_silent.
Qed.

Lemma makes_app {R} (t t1 t2 : prog R) l1 l2 : makes t l1 t1 → makes t1 l2 t2 → makes t (l1 ++ l2) t2.
Proof. induction 1; intros Hm; cbn; [done|by eapply makes_silent; eauto|by eapply makes_call; eauto]. Qed.

Lemma makes_bind {R U} (t t' : prog R) (k : R → prog U) l : makes t l t' → makes (ITree.bind t k) l (ITree.bind t' k).
Proof.
  induction 1 as [t|t t1 l t' Eo _ IH|t c t1 l t' Eo _ IH]; [constructor|eapply makes_silent; [|exact IH]|eapply makes_call; [|exact IH]];
    by rewrite next_bind, Eo.
Qed.

Lemma bind_makes {R U} (t : prog R) (k : R → prog U) l t' : makes (ITree.bind t k) l t' →
  (∃ t1, makes t l t1) ∨ ∃ l1 l2 t1 r, l = l1 ++ l2 ∧ makes t l1 t1 ∧ next t1 = NReturn r ∧ makes (k r) l2 t'.
Proof.
  intros Hm. remember (ITree.bind t k) as u eqn:Eu. revert t Eu. induction Hm as [u|u u1 l t' Eo Hm IH|u c u1 l t' Eo Hm IH]; intros t ->.
  - left. exists t. constructor.
  - rewrite next_bind in Eo. destruct (next t) as [r|t1|c t1] eqn:Et; [|injection Eo as <-|done].
    + right. exists [], l, t, r. split; [done|]. split; [constructor|]. split; [done|]. by eapply makes_silent.
    + destruct (IH t1 eq_refl) as [[t2 Hm2]|(l1 & l2 & t2 & r & -> & Hm2 & Er & Hk)]; [left; exists t2; by eapply makes_silent|].
      right. exists l1, l2, t2, r. split; [done|]. split; [by eapply makes_silent|done].
  - rewrite next_bind in Eo. destruct (next t) as [r|t1|c' t1] eqn:Et; [|done|injection Eo as -> <-].
    + right. exists [], (c :: l), t, r. split; [done|]. split; [constructor|]. split; [done|]. by eapply makes_call.
    + destruct (IH t1 eq_refl) as [[t2 Hm2]|(l1 & l2 & t2 & r & -> & Hm2 & Er & Hk)]; [left; exists t2; by eapply makes_call|].
      right. exists (c :: l1), l2, t2, r. split; [done|]. split; [by eapply makes_call|done].
Qed.

(** An actor does what its function does and then quits, once. The calls of a boxed runnable, up to any point of its run, are calls of its
    function, or all the calls of the function up to its return followed by one exit that carries the result; after it there are no
    more. When the function returns, the exit follows. It makes no difference whether the runnable is boxed. *)
Theorem actor_quits_once {F Out} `{ActorFuncInner F Out, ActorExit Out, !ExitLaw Out} (f : F) name :
  (∀ l t', makes (run (boxed_from_fn name f)) l t' → (∃ body, makes (call f) l body) ∨
     ∃ l1 body out, makes (call f) l1 body ∧ next body = NReturn out ∧ l = l1 ++ [CallExit (told out)]) ∧
  (∀ l body out, makes (call f) l body → next body = NReturn out → ∃ t', makes (run (boxed_from_fn name f)) (l ++ [CallExit (told out)]) t') ∧
  run (from_fn f) = run (boxed_from_fn name f).
Proof.
  split; [|split; [|done]].
  - intros l t' [?|(l1 & l2 & body & out & -> & Hm & Er & Hk)]%bind_makes; [by left|]. rewrite exit_told in Hk. apply quit_makes in Hk as [->| ->].
    + left. exists body. by rewrite app_nil_r.
    + right. by exists l1, body, out.
  - intros l body out Hm Er.
    assert (∃ t1, next (ITree.bind body (λ out, exit_ out)) = NCall (CallExit (told out)) t1) as [t1 Hn].
    { eexists. rewrite next_bind, Er, exit_told, next_bind. reflexivity. }
    exists t1. eapply makes_app; [apply makes_bind, Hm|]. eapply makes_call; [exact Hn|constructor].
Qed.

(** ** An actor with two arguments: it traps exits if asked to, and fails with an error otherwise *)
Definition guard_actor (ctx : unit) (enable : bool) (code : nat) : prog (result unit nat) :=
  if enable then ITree.bind (invoke (CallTrapExit true)) (λ _, ITreeDefinition.Ret (Ok tt)) else ITreeDefinition.Ret (Err code).
Definition guard_runnable (enable : bool) : (unit → arrows [bool : Type; nat : Type] (prog (result unit nat))) * tuple [bool : Type; nat : Type] :=
  (guard_actor, (enable, (7%nat, tt))).

Lemma guard_returns : ∃ body, makes (call (guard_runnable true)) [CallTrapExit true] body ∧ next body = NReturn (Ok tt).
Proof. eexists. split; [eapply makes_call; [reflexivity|constructor]|]. reflexivity. Qed.

Lemma actor_quits_once_witness : ∃ t', makes (run (boxed_from_fn "guard" (guard_runnable true))) [CallTrapExit true; CallExit (Ok tt)] t'.
Proof.
  destruct guard_returns as (body & Hm & Er).
  destruct (actor_quits_once (guard_runnable true) "guard") as (_ & Hex & _). exact (Hex _ body (Ok tt) Hm Er).
Defined.
