(* ===== verification/Mailbox.v ===== *)
(** * The ends of a mailbox (core/mm1-node/src/registry.rs)

    A mailbox has four shared parts: the queue of system messages, the notification, and the two lanes. Senders hold strong references to
    all four; an actor holds weak references to its own mailbox, and turns them into strong ones when it needs to. Whether a weak reference
    can be upgraded depends on the strong references that others still hold: the counts of [Arc] and of tokio's senders are written out. *)

From S2P Require Import Prelude U64 Address Subnet Pool Registry.

Open Scope nat_scope.

(** ** Reference counts

    A shared object is one part of one allocation; an allocation is never used again while something refers to it. *)
Inductive Part := PSystem | PNotify | PPriority | PRegular | PLease.
#[export] Instance part_eq_dec : EqDecision Part.
Proof. solve_decision. Defined.
#[export] Instance part_countable : Countable Part.
Proof.
  refine (inj_countable' (λ p, match p with PSystem => 0 | PNotify => 1 | PPriority => 2 | PRegular => 3 | PLease => 4 end)
    (λ n, match n with 0 => PSystem | 1 => PNotify | 2 => PPriority | 3 => PRegular | _ => PLease end) _).
  by intros [].
Defined.

Definition Handle : Type := positive * Part.
Record Heap := mkHeap { counts : gmap Handle nat; next_alloc : positive }.

Definition strong (h : Heap) (x : Handle) : nat := default 0 (counts h !! x).
Definition set_strong (h : Heap) (x : Handle) (n : nat) : Heap := mkHeap (<[x := n]> (counts h)) (next_alloc h).

(** [Arc::clone], and the clone of a sender *)
Definition arc_clone (h : Heap) (x : Handle) : Heap := set_strong h x (S (strong h x)).
(** the drop of a strong reference *)
Definition arc_drop (h : Heap) (x : Handle) : Heap := set_strong h x (pred (strong h x)).
(** [Weak::upgrade] and [WeakUnboundedSender::upgrade] *)
Definition arc_upgrade (h : Heap) (x : Handle) : option Heap :=
  if strong h x =? 0 then None else Some (arc_clone h x).
(** [Arc::new] of some parts of one allocation *)
Definition arc_new (h : Heap) (parts : list Part) : Heap * positive :=
  let i := next_alloc h in
  (foldr (λ p h, set_strong h (i, p) 1) (mkHeap (counts h) (Pos.succ i)) parts, i).

Lemma strong_set h x n y : strong (set_strong h x n) y = if decide (x = y) then n else strong h y.
Proof. unfold strong, set_strong. cbn. case_decide; simplify_map_eq; done. Qed.

Lemma strong_clone h x y : strong (arc_clone h x) y = if decide (x = y) then S (strong h x) else strong h y.
Proof. apply strong_set. Qed.

Lemma strong_drop h x y : strong (arc_drop h x) y = if decide (x = y) then pred (strong h x) else strong h y.
Proof. apply strong_set. Qed.

(** ** The two ends *)

(** [struct SubnetMailboxTx] *)
Record SubnetMailboxTx := mkTx { tx_system : Handle; subnet_notify : Handle; tx_priority : Handle; tx_regular : Handle }.
(** [struct WeakSubnetMailboxTx] *)
Record WeakSubnetMailboxTx := mkWeakTx { wtx_system : Handle; wsubnet_notify : Handle; wtx_priority : Handle; wtx_regular : Handle }.
(** [struct SubnetMailboxRx]: the receiving ends of the mailbox's queues, and a strong reference to the notification *)
Record SubnetMailboxRx := mkRx { rx_system : positive; rx_notify : Handle; rx_priority : positive; rx_regular : positive }.

(** [new_mailbox] *)
Definition new_mailbox (h : Heap) : Heap * SubnetMailboxTx * SubnetMailboxRx :=
  let '(h, i) := arc_new h [PNotify; PSystem; PPriority; PRegular] in
  let subnet_notify := (i, PNotify) in
  let h := arc_clone h subnet_notify in
  (h, mkTx (i, PSystem) subnet_notify (i, PPriority) (i, PRegular), mkRx i subnet_notify i i).

(** [SubnetMailboxTx::clone]: the new references have the same referents. *)
Definition tx_clone (h : Heap) (tx : SubnetMailboxTx) : Heap * SubnetMailboxTx :=
  let h := arc_clone h (tx_system tx) in
  let h := arc_clone h (subnet_notify tx) in
  let h := arc_clone h (tx_priority tx) in
  let h := arc_clone h (tx_regular tx) in
  (h, mkTx (tx_system tx) (subnet_notify tx) (tx_priority tx) (tx_regular tx)).

Definition tx_drop (h : Heap) (tx : SubnetMailboxTx) : Heap :=
  arc_drop (arc_drop (arc_drop (arc_drop h (tx_system tx)) (subnet_notify tx)) (tx_priority tx)) (tx_regular tx).

(** [SubnetMailboxTx::downgrade]: weak references do not count. *)
Definition downgrade (tx : SubnetMailboxTx) : WeakSubnetMailboxTx :=
  mkWeakTx (tx_system tx) (subnet_notify tx) (tx_priority tx) (tx_regular tx).

(** [WeakSubnetMailboxTx::clone] *)
Definition weak_clone (w : WeakSubnetMailboxTx) : WeakSubnetMailboxTx :=
  mkWeakTx (wtx_system w) (wsubnet_notify w) (wtx_priority w) (wtx_regular w).

(** [WeakSubnetMailboxTx::upgrade]: at the first part that cannot be upgraded, those that were are dropped again. *)
Definition upgrade (h : Heap) (w : WeakSubnetMailboxTx) : Heap * option SubnetMailboxTx :=
  match arc_upgrade h (wtx_system w) with
  | None => (h, None)
  | Some h1 =>
      match arc_upgrade h1 (wsubnet_notify w) with
      | None => (arc_drop h1 (wtx_system w), None)
      | Some h2 =>
          match arc_upgrade h2 (wtx_priority w) with
          | None => (arc_drop (arc_drop h2 (wsubnet_notify w)) (wtx_system w), None)
          | Some h3 =>
              match arc_upgrade h3 (wtx_regular w) with
              | None => (arc_drop (arc_drop (arc_drop h3 (wtx_priority w)) (wsubnet_notify w)) (wtx_system w), None)
              | Some h4 => (h4, Some (mkTx (wtx_system w) (wsubnet_notify w) (wtx_priority w) (wtx_regular w)))
              end
          end
      end
  end.

(** ** What the ends promise: the parts are held together

    [held h i n rx]: the mailbox of allocation [i] has [n] senders, and [rx] tells whether its receiving end is there. *)
Definition mailbox_of (i : positive) : SubnetMailboxTx := mkTx (i, PSystem) (i, PNotify) (i, PPriority) (i, PRegular).

Definition held (h : Heap) (i : positive) (n : nat) (rx : bool) : Prop :=
  strong h (i, PSystem) = n ∧ strong h (i, PNotify) = n + Nat.b2n rx ∧ strong h (i, PPriority) = n ∧ strong h (i, PRegular) = n.

(** Nothing but the mailbox of allocation [i] is changed. *)
Definition same_but (i : positive) (h h' : Heap) : Prop :=
  next_alloc h' = next_alloc h ∧ ∀ j p, j ≠ i ∨ p = PLease → strong h' (j, p) = strong h (j, p).

(** Compute the counts after a sequence of operations. *)
Ltac count := repeat first [rewrite strong_clone | rewrite strong_drop | rewrite strong_set]; repeat (case_decide; simplify_eq).

Lemma tx_clone_held h i n rx : held h i n rx → ∃ h', tx_clone h (mailbox_of i) = (h', mailbox_of i) ∧ held h' i (S n) rx ∧ same_but i h h'.
Proof.
  intros (H1 & H2 & H3 & H4). eexists. split; [reflexivity|]. split; [|split; [done|]].
  - split_and!; cbn; count; lia.
  - intros j p [Hj| ->]; cbn; by count.
Qed.

Lemma tx_drop_held h i n rx : held h i (S n) rx → held (tx_drop h (mailbox_of i)) i n rx ∧ same_but i h (tx_drop h (mailbox_of i)).
Proof.
  intros (H1 & H2 & H3 & H4). unfold tx_drop. cbn. split; [|split; [done|]].
  - split_and!; count; lia.
  - intros j p [Hj| ->]; by count.
Qed.

Lemma arc_upgrade_0 h x : strong h x = 0 → arc_upgrade h x = None.
Proof. unfold arc_upgrade. by intros ->. Qed.

Lemma arc_upgrade_S h x n : strong h x = S n → arc_upgrade h x = Some (arc_clone h x).
Proof. unfold arc_upgrade. by intros ->. Qed.

(** An upgrade succeeds exactly as long as there is another sender, and otherwise leaves no trace. *)
Lemma upgrade_held h i n rx : held h i n rx →
  match n with
  | O => upgrade h (downgrade (mailbox_of i)) = (h, None)
  | S _ => ∃ h', upgrade h (downgrade (mailbox_of i)) = (h', Some (mailbox_of i)) ∧ held h' i (S n) rx ∧ same_but i h h'
  end.
Proof.
  intros (H1 & H2 & H3 & H4). unfold upgrade, downgrade. cbn. destruct n as [|n]; [by rewrite arc_upgrade_0|].
  rewrite (arc_upgrade_S _ _ n) by done.
  rewrite (arc_upgrade_S _ _ (n + Nat.b2n rx)) by (count; lia).
  rewrite (arc_upgrade_S _ _ n) by (count; lia). rewrite (arc_upgrade_S _ _ n) by (count; lia).
  eexists. split; [reflexivity|]. split; [|split; [done|]].
  - split_and!; count; lia.
  - intros j p [Hj| ->]; by count.
Qed.

Lemma new_mailbox_held h : ∃ h', new_mailbox h = (h', mailbox_of (next_alloc h), mkRx (next_alloc h) (next_alloc h, PNotify) (next_alloc h) (next_alloc h)) ∧
  held h' (next_alloc h) 1 true ∧ next_alloc h' = Pos.succ (next_alloc h) ∧ ∀ j p, j ≠ next_alloc h ∨ p = PLease → strong h' (j, p) = strong h (j, p).
Proof.
  eexists. split; [reflexivity|]. split; [|split; [done|]].
  - split_and!; cbn; count; reflexivity.
  - intros j p [Hj| ->]; cbn; by count.
Qed.

(** The end of the receiver gives up its reference to the notification. *)
Definition rx_drop (h : Heap) (rx : SubnetMailboxRx) : Heap := arc_drop h (rx_notify rx).

Lemma rx_drop_held h i n : held h i n true → held (rx_drop h (mkRx i (i, PNotify) i i)) i n false ∧ same_but i h (rx_drop h (mkRx i (i, PNotify) i i)).
Proof.
  intros (H1 & H2 & H3 & H4). unfold rx_drop. cbn. split; [|split; [done|]].
  - split_and!; count; cbn in *; lia.
  - intros j p [Hj| ->]; by count.
Qed.

(** A weak reference is good exactly while somebody holds the mailbox: however its senders have been cloned, upgraded and dropped, an
    upgrade of all parts succeeds if and only if a sender is left, and one that fails leaves the counts as they were. *)
Theorem upgrade_iff_sender h i n rx : held h i n rx →
  (is_Some (upgrade h (downgrade (mailbox_of i))).2 ↔ 0 < n) ∧
  ((upgrade h (downgrade (mailbox_of i))).2 = None → (upgrade h (downgrade (mailbox_of i))).1 = h) ∧
  (is_Some (arc_upgrade h (i, PSystem)) ↔ 0 < n).
Proof.
  intros Hh. pose proof (upgrade_held _ _ _ _ Hh) as Hu. destruct Hh as (H1 & _). destruct n as [|n].
  - rewrite Hu, arc_upgrade_0 by done. cbn. split_and!; [split; [by intros []|lia]|done|split; [by intros []|lia]].
  - destruct Hu as (h' & -> & _ & _). rewrite (arc_upgrade_S _ _ n) by done. cbn. split_and!; [split; [lia|eauto]|done|split; [lia|eauto]].
Qed.

(** ** Nodes *)

(** [struct Node]: the lease it shares and its senders; the bound and the queues of the inbox are in [Registry]. *)
Record Node := mkNode { n_lease : positive; n_tx : SubnetMailboxTx }.

(** [Node::new], where the senders are handed over *)
Definition node_alloc (h : Heap) (tx : SubnetMailboxTx) : Heap * Node :=
  let '(h, i) := arc_new h [PLease] in (h, mkNode i tx).

(** [Node::clone] *)
Definition node_clone (h : Heap) (n : Node) : Heap * Node :=
  let h := arc_clone h (n_lease n, PLease) in
  let '(h, tx) := tx_clone h (n_tx n) in
  (h, mkNode (n_lease n) tx).

(** The drop of a node: whether it was the last with its lease, which is then dropped too. *)
Definition node_drop (h : Heap) (n : Node) : Heap * bool :=
  let h := arc_drop h (n_lease n, PLease) in
  let last := strong h (n_lease n, PLease) =? 0 in
  (tx_drop h (n_tx n), last).

(** [Node::sys_send]: refused when the container has closed the queue. *)
Definition sys_send {S} (queue : list S) (receiving : bool) (sys_msg : S) : list S * result unit S :=
  if receiving then (queue ++ [sys_msg], Ok tt) else (queue, Err sys_msg).

(** What the container's [rx_system.recv()] finds: a message, nothing yet, or the end, when no sender is left. *)
Inductive SysRecv {S} := RecvMsg (m : S) (rest : list S) | RecvPending | RecvEnd.
Arguments SysRecv : clear implicits.
Definition sys_recv {S} (h : Heap) (i : positive) (queue : list S) : SysRecv S :=
  match queue with
  | m :: rest => RecvMsg m rest
  | [] => if strong h (i, PSystem) =? 0 then RecvEnd else RecvPending
  end.
