(* ===== verification/Lifecycle.v ===== *)
(** * The life of an actor's registration (core/mm1-node/src: runtime/container.rs, runtime/context.rs, runtime/rt_api.rs, registry.rs)

    From its creation to the drop of its last context an actor is reachable through nodes of the registry: its own and those it binds. The
    node holds the only strong references to the mailbox and to the lease of the subnet; lookups clone it, the tree reclaims what is removed
    from it some time later, and the container and the context each unregister the subnet when they end. This file puts the pool, the
    registry and the counted references of [Mailbox] together and shows how long an actor can rely on its mailbox. *)

From S2P Require Import Prelude U64 Address Subnet Pool Registry Context Mailbox.

Open Scope Z_scope.

Section Lifecycle.
Context {TI : Type → Type} `{TreeIndex TI}.

(** The container runs, or it has unregistered the subnet and the context is still to be dropped. *)
Inductive Phase := Running | Ending.
#[export] Instance phase_eq_dec : EqDecision Phase.
Proof. solve_decision. Defined.

(** What an actor keeps of its registration: [Container] and [SubnetContext]. The actor's name is its mailbox. *)
Record Actor := mkActor { a_subnet : NetAddress; a_mail : WeakSubnetMailboxTx; a_rx : SubnetMailboxRx; a_bound : list NetAddress; a_phase : Phase }.

(** [limbo] holds the nodes outside the tree: those that lookups have handed out, and those the tree has yet to reclaim. *)
Record World := mkWorld {
  w_pool : Shared;
  w_nets : TI Node;
  w_heap : Heap;
  w_leases : gmap positive Lease;
  limbo : list Node;
  actors : gmap positive Actor;
}.

Definition set_nets (w : World) nets limbo := mkWorld (w_pool w) nets (w_heap w) (w_leases w) limbo (actors w).
Definition set_heap (w : World) h := mkWorld (w_pool w) (w_nets w) h (w_leases w) (limbo w) (actors w).
Definition set_actors (w : World) a := mkWorld (w_pool w) (w_nets w) (w_heap w) (w_leases w) (limbo w) a.

(** A node is dropped, and with the last one the lease. *)
Definition discard (w : World) (n : Node) : outcome World :=
  let '(h, last) := node_drop (w_heap w) n in
  if last then
    l ← expect (w_leases w !! n_lease n);
    pool ← lease_drop (w_pool w) l;
    Ret (mkWorld pool (w_nets w) h (delete (n_lease n) (w_leases w)) (limbo w) (actors w))
  else Ret (set_heap w h).

(** [Registry::register] of a new node with the given lease and senders; a node that is refused is dropped. *)
Definition enlist (w : World) (net : NetAddress) (l : Lease) (tx : SubnetMailboxTx) : outcome (World * bool) :=
  let '(h, n) := node_alloc (w_heap w) tx in
  let w := mkWorld (w_pool w) (w_nets w) h (<[n_lease n := l]> (w_leases w)) (limbo w) (actors w) in
  '(nets, r) ← register (w_nets w) net n;
  match r with
  | Ok _ => Ret (set_nets w nets (limbo w), true)
  | Err n => w ← discard (set_nets w nets (limbo w)) n; Ret (w, false)
  end.

(** [RtApi::request_address] and [Container::create]: the new actor, unless there is no subnet left or it cannot be registered. The
    original senders go at the end, when the container has kept weak ones. *)
Definition create (w : World) (m : NetMask) : outcome (World * option positive) :=
  '(pool, leased) ← lease (w_pool w) m;
  let w := mkWorld pool (w_nets w) (w_heap w) (w_leases w) (limbo w) (actors w) in
  match leased with
  | Err _ => Ret (w, None)
  | Ok subnet_lease =>
      let '(h, tx, rx) := new_mailbox (w_heap w) in
      let '(h, tx') := tx_clone h tx in
      '(w, registered) ← enlist (set_heap w h) (net_address subnet_lease) subnet_lease tx';
      let w := set_heap w (tx_drop (w_heap w) tx) in
      if (registered : bool) then
        let i := Mailbox.rx_system rx in
        Ret (set_actors w (<[i := mkActor (net_address subnet_lease) (downgrade tx) rx [] Running]> (actors w)), Some i)
      else Ret (set_heap w (rx_drop (w_heap w) rx), None)
  end.

(** The actor has bound a subnet that overlaps the range. *)
Definition has_bound (a : Actor) (range : AddressRange) : bool :=
  existsb (λ net, match range_from_net net with Ret r => range_eqb range r | Panic => false end) (a_bound a).

(** [Bind::bind]: the senders of the new node are upgraded from the weak ones. *)
Definition bind_net (w : World) (i : positive) (a : Actor) (bind_to : NetAddress) : outcome (World * result unit BindErrorKind) :=
  address_range ← range_from_net bind_to;
  if has_bound a address_range then Ret (w, Err BindConflict) else
  let '(h, tx) := upgrade (w_heap w) (a_mail a) in
  match tx with
  | None => Ret (set_heap w h, Err BindClosed)
  | Some tx =>
      '(w, registered) ← enlist (set_heap w h) bind_to (trusted bind_to) tx;
      Ret (if (registered : bool)
           then (set_actors w (<[i := mkActor (a_subnet a) (a_mail a) (a_rx a) (bind_to :: a_bound a) (a_phase a)]> (actors w)), Ok tt)
           else (w, Err BindConflict))
  end.

(** [Registry::lookup] hands out a clone of the node. *)
Definition look_up (w : World) (x : Address) : outcome (World * bool) :=
  found ← lookup_ (w_nets w) x;
  match found with
  | None => Ret (w, false)
  | Some n =>
      let '(h, n') := node_clone (w_heap w) n in
      Ret (set_nets (set_heap w h) (w_nets w) (n' :: limbo w), true)
  end.

(** [Registry::unregister]: the tree keeps what it removes until no reader can see it. *)
Definition retire (w : World) (net : NetAddress) : outcome (World * bool) :=
  range ← range_from_net net;
  let found := ti_peek (w_nets w) range in
  '(nets, removed) ← unregister (w_nets w) net;
  Ret match found, removed with
      | Some (_, n), true => (set_nets w nets (n :: limbo w), true)
      | _, _ => (set_nets w nets (limbo w), removed)
      end.

Fixpoint retire_all (w : World) (nets : list NetAddress) : outcome World :=
  match nets with
  | [] => Ret w
  | net :: nets => '(w, _) ← retire w net; retire_all w nets
  end.

(** The container's use of its own queue: [subnet_mailbox_tx.tx_system.upgrade().expect(..)], and the drop of what it gave. *)
Definition own_sender (w : World) (a : Actor) : outcome World :=
  h ← expect (arc_upgrade (w_heap w) (wtx_system (a_mail a)));
  Ret (set_heap w (arc_drop h (wtx_system (a_mail a)))).

(** The end of the container's loop: [let unregistered = registry.unregister(actor_subnet); assert!(unregistered)] *)
Definition container_end (w : World) (i : positive) (a : Actor) : outcome World :=
  '(w, unregistered) ← retire w (a_subnet a);
  assert_ unregistered;;
  Ret (set_actors w (<[i := mkActor (a_subnet a) (a_mail a) (a_rx a) (a_bound a) Ending]> (actors w))).

(** [ActorContext::drop] of the last context, and the drop of the receiving end with it: whatever the container has done before, the
    subnet is unregistered. *)
Definition last_drop (w : World) (i : positive) (a : Actor) : outcome World :=
  w ← retire_all w (a_bound a);
  '(w, _) ← retire w (a_subnet a);
  Ret (mkWorld (w_pool w) (w_nets w) (rx_drop (w_heap w) (a_rx a)) (w_leases w) (limbo w) (delete i (actors w))).

(** What can happen on a node. A container that is aborted drops its context without having come to its end. *)
Inductive lstep (w : World) : World → Prop :=
| l_create m w' o : 0 ≤ m ≤ 64 → create w m = Ret (w', o) → lstep w w'
| l_bind i a net w' r : actors w !! i = Some a → net_ok net → bind_net w i a net = Ret (w', r) → lstep w w'
| l_lookup x w' b : look_up w x = Ret (w', b) → lstep w w'
| l_release n rest w' : limbo w ≡ₚ n :: rest → discard (set_nets w (w_nets w) rest) n = Ret w' → lstep w w'
| l_own i a w' : actors w !! i = Some a → a_phase a = Running → own_sender w a = Ret w' → lstep w w'
| l_end i a w' : actors w !! i = Some a → a_phase a = Running → container_end w i a = Ret w' → lstep w w'
| l_drop i a w' : actors w !! i = Some a → last_drop w i a = Ret w' → lstep w w'.

(** No registered range overlaps the subnet of an actor whose context is still to be dropped. *)
Definition calm (w : World) : Prop :=
  ∀ i a r e, actors w !! i = Some a → a_phase a = Ending → range_from_net (a_subnet a) = Ret r → e ∈ ti_entries (w_nets w) →
    range_cmp r e.1 ≠ Eq.

Definition world_new (net : NetAddress) : outcome World :=
  pool ← pool_new net; Ret (mkWorld pool ti_empty (mkHeap ∅ 1) ∅ [] ∅).

Inductive lives (net : NetAddress) : World → Prop :=
| lives_new w : world_new net = Ret w → lives net w
| lives_step w w' : lives net w → lstep w w' → calm w' → lives net w'.

(** ** The books: every count is the number of references to the part

    [L] are the nodes there are, [alive] the mailboxes with a receiving end, [hand] the senders a step holds while it runs. *)
Definition all_nodes (w : World) : list Node := (ti_entries (w_nets w)).*2 ++ limbo w.

#[local] Instance tx_eq_dec : EqDecision SubnetMailboxTx.
Proof. solve_decision. Defined.
Definition senders (i : positive) (L : list Node) (hand : list positive) : nat :=
  (length (filter (λ n, n_tx n = mailbox_of i) L) + length (filter (λ k, k = i) hand))%nat.
Definition sharers (j : positive) (L : list Node) : nat := length (filter (λ n, n_lease n = j) L).

Record books (h : Heap) (leases : gmap positive Lease) (L : list Node) (alive : gset positive) (hand : list positive) : Prop := {
  bk_mail i : held h i (senders i L hand) (bool_decide (i ∈ alive));
  bk_lease j : strong h (j, PLease) = sharers j L;
  bk_known j : is_Some (leases !! j) ↔ (0 < sharers j L)%nat;
  bk_node n : n ∈ L → (n_lease n < next_alloc h)%positive ∧ ∃ i, n_tx n = mailbox_of i ∧ (i < next_alloc h)%positive;
  bk_alive i : i ∈ alive → (i < next_alloc h)%positive;
  bk_hand i : i ∈ hand → (i < next_alloc h)%positive;
}.

Lemma mailbox_of_inj i j : mailbox_of i = mailbox_of j → i = j.
Proof. by intros [= ->]. Qed.

Lemma senders_cons i k n L hand : n_tx n = mailbox_of k → senders i (n :: L) hand = ((if decide (k = i) then 1 else 0) + senders i L hand)%nat.
Proof.
  intros E. unfold senders. rewrite filter_cons, E. destruct (decide (k = i)) as [->|Hne]; [by rewrite decide_True|].
  rewrite decide_False; [done|]. by intros ?%mailbox_of_inj.
Qed.
Lemma senders_hand i k L hand : senders i L (k :: hand) = ((if decide (k = i) then 1 else 0) + senders i L hand)%nat.
Proof. unfold senders. rewrite filter_cons. destruct (decide (k = i)); cbn; lia. Qed.
Lemma sharers_cons j n L : sharers j (n :: L) = ((if decide (n_lease n = j) then 1 else 0) + sharers j L)%nat.
Proof. unfold sharers. rewrite filter_cons. by destruct (decide (n_lease n = j)). Qed.

Lemma senders_pos i n L hand : n ∈ L → n_tx n = mailbox_of i → (0 < senders i L hand)%nat.
Proof. intros (L' & Hp)%elem_of_Permutation E. unfold senders. rewrite Hp, filter_cons, decide_True by done. cbn. lia. Qed.
Lemma sharers_pos n L : n ∈ L → (0 < sharers (n_lease n) L)%nat.
Proof. intros (L' & Hp)%elem_of_Permutation. unfold sharers. rewrite Hp, filter_cons, decide_True by done. cbn. lia. Qed.

Lemma books_perm h leases L L' alive hand : L ≡ₚ L' → books h leases L alive hand → books h leases L' alive hand.
Proof.
  intros Hp [Hm Hl Hk Hn ? ?]. unfold senders, sharers in *. split; [intros i; unfold senders| | | |done|done].
  - rewrite <- Hp. apply Hm.
  - intros j. unfold sharers. rewrite <- Hp. apply Hl.
  - intros j. unfold sharers. rewrite <- Hp. apply Hk.
  - intros n. rewrite <- Hp. apply Hn.
Qed.

(** The counts of a mailbox change, and nothing else. *)
Lemma books_mail h h' leases L alive alive' hand hand' i : books h leases L alive hand → same_but i h h' →
  held h' i (senders i L hand') (bool_decide (i ∈ alive')) →
  (∀ k, k ≠ i → senders k L hand' = senders k L hand ∧ (k ∈ alive' ↔ k ∈ alive)) →
  (i < next_alloc h)%positive → (∀ k, k ∈ hand' → k = i ∨ k ∈ hand) → books h' leases L alive' hand'.
Proof.
  intros [Hm Hl Hk Hn Ha Hd] [Hx Hs] Hi Ho Hin Hd'. split.
  - intros k. destruct (decide (k = i)) as [->|Hne]; [done|]. destruct (Ho k Hne) as [-> Hk']. unfold held. rewrite !Hs by auto.
    rewrite (bool_decide_ext (k ∈ alive') (k ∈ alive)) by done. apply Hm.
  - intros j. rewrite Hs by auto. apply Hl.
  - done.
  - intros n. rewrite Hx. apply Hn.
  - intros k Hk'. rewrite Hx. destruct (decide (k = i)) as [->|Hne]; [done|]. apply Ha. by apply (Ho k Hne).
  - intros k [->|?]%Hd'; rewrite Hx; auto.
Qed.

Lemma books_tx_clone h leases L alive hand i : books h leases L alive (i :: hand) →
  ∃ h', tx_clone h (mailbox_of i) = (h', mailbox_of i) ∧ books h' leases L alive (i :: i :: hand).
Proof.
  intros Hb. pose proof (bk_mail _ _ _ _ _ Hb i) as Hi. destruct (tx_clone_held _ _ _ _ Hi) as (h' & -> & Hh & Hs). exists h'. split; [done|].
  eapply (books_mail _ _ _ _ alive alive (i :: hand)); [done|done|by rewrite senders_hand, decide_True| |apply (bk_hand _ _ _ _ _ Hb); left|set_solver].
  intros k Hk. rewrite senders_hand, decide_False by done. done.
Qed.

Lemma books_tx_drop h leases L alive hand i : books h leases L alive (i :: hand) → books (tx_drop h (mailbox_of i)) leases L alive hand.
Proof.
  intros Hb. pose proof (bk_mail _ _ _ _ _ Hb i) as Hi. rewrite senders_hand, decide_True in Hi by done.
  destruct (tx_drop_held _ _ _ _ Hi) as [Hh Hs].
  eapply (books_mail _ _ _ _ alive alive (i :: hand)); [done|done|done| |apply (bk_hand _ _ _ _ _ Hb); left|set_solver].
  intros k Hk. rewrite senders_hand, decide_False by done. done.
Qed.

Lemma books_upgrade h leases L alive hand i : books h leases L alive hand → (0 < senders i L hand)%nat → (i < next_alloc h)%positive →
  ∃ h', upgrade h (downgrade (mailbox_of i)) = (h', Some (mailbox_of i)) ∧ books h' leases L alive (i :: hand).
Proof.
  intros Hb Hpos Hlt. pose proof (bk_mail _ _ _ _ _ Hb i) as Hi. destruct (senders i L hand) as [|n] eqn:En; [lia|].
  destruct (upgrade_held _ _ _ _ Hi) as (h' & -> & Hh & Hs). exists h'. split; [done|].
  eapply (books_mail _ _ _ _ alive alive hand); [done|done|by rewrite senders_hand, decide_True, En| |done|set_solver].
  intros k Hk. rewrite senders_hand, decide_False by done. done.
Qed.

Lemma books_rx_drop h leases L alive hand i : books h leases L alive hand → i ∈ alive →
  books (rx_drop h (mkRx i (i, PNotify) i i)) leases L (alive ∖ {[i]}) hand.
Proof.
  intros Hb Ha. pose proof (bk_mail _ _ _ _ _ Hb i) as Hi. rewrite bool_decide_true in Hi by done.
  destruct (rx_drop_held _ _ _ Hi) as [Hh Hs].
  eapply (books_mail _ _ _ _ alive _ hand); [done|done| | |by apply (bk_alive _ _ _ _ _ Hb)|set_solver].
  - rewrite bool_decide_false by set_solver. done.
  - intros k Hk. split; [done|set_solver].
Qed.

(** Nothing refers to an allocation that is not made yet. *)
Lemma books_fresh h leases L alive hand i : books h leases L alive hand → (next_alloc h ≤ i)%positive →
  senders i L hand = 0%nat ∧ sharers i L = 0%nat ∧ i ∉ alive.
Proof.
  intros Hb Hi. split_and!.
  - unfold senders. rewrite !filter_none; [done| |]; apply Forall_forall; intros x Hx.
    + intros ->. apply (bk_hand _ _ _ _ _ Hb) in Hx. lia.
    + intros E. destruct (bk_node _ _ _ _ _ Hb x Hx) as (_ & k & Ek & Hk). rewrite E in Ek. apply mailbox_of_inj in Ek as <-. lia.
  - unfold sharers. rewrite filter_none; [done|]. apply Forall_forall. intros x Hx <-. destruct (bk_node _ _ _ _ _ Hb x Hx). lia.
  - intros Ha%(bk_alive _ _ _ _ _ Hb). lia.
Qed.

Lemma books_new h leases L alive : books h leases L alive [] →
  ∃ h', new_mailbox h = (h', mailbox_of (next_alloc h), mkRx (next_alloc h) (next_alloc h, PNotify) (next_alloc h) (next_alloc h)) ∧
    books h' leases L ({[next_alloc h]} ∪ alive) [next_alloc h].
Proof.
  intros Hb. set (i := next_alloc h). destruct (books_fresh _ _ _ _ _ i Hb) as (Hs0 & _ & Ha0); [unfold i; lia|].
  destruct (new_mailbox_held h) as (h' & -> & Hh & Hx & Hs). exists h'. split; [done|]. fold i in Hh, Hx, Hs. destruct Hb as [Hm Hl Hk Hn Ha Hd]. split.
  - intros k. rewrite senders_hand. destruct (decide (k = i)) as [->|Hne].
    + rewrite decide_True, Hs0, bool_decide_true by (done || set_solver). done.
    + rewrite decide_False by done. unfold held. rewrite !Hs by auto. rewrite (bool_decide_ext (k ∈ _) (k ∈ alive)) by set_solver. apply Hm.
  - intros j. rewrite Hs by auto. apply Hl.
  - done.
  - intros n (Hj & k & Ek & Hlt)%Hn. rewrite Hx. split; [lia|]. exists k. split; [done|lia].
  - intros k [->%elem_of_singleton|Hk']%elem_of_union; rewrite Hx; [lia|]. apply Ha in Hk'. lia.
  - intros k ->%list_elem_of_singleton. rewrite Hx. lia.
Qed.

Lemma books_node h leases L alive hand i l : books h leases L alive (i :: hand) →
  ∃ h' n, node_alloc h (mailbox_of i) = (h', n) ∧ n_tx n = mailbox_of i ∧ leases !! n_lease n = None ∧
    books h' (<[n_lease n := l]> leases) (n :: L) alive hand.
Proof.
  intros Hb. set (j := next_alloc h). destruct (books_fresh _ _ _ _ _ j Hb) as (Hs0 & Hj0 & Ha0); [unfold j; lia|].
  eexists _, _. split; [reflexivity|]. split; [done|]. fold j. cbn [n_lease].
  assert (Hnone : leases !! j = None) by (apply eq_None_not_Some; rewrite (bk_known _ _ _ _ _ Hb); lia). split; [done|].
  match goal with |- books ?x _ _ _ _ => set (h' := x) end. assert (Hx : next_alloc h' = Pos.succ j) by done.
  assert (Hs : ∀ x, x ≠ (j, PLease) → strong h' x = strong h x) by (intros x Hne; unfold h'; cbn; rewrite strong_set, decide_False by congruence; done).
  destruct Hb as [Hm Hl Hk Hn Ha Hd]. split.
  - intros k. rewrite (senders_cons k i) by done. rewrite <- senders_hand. unfold held. rewrite !Hs by done. apply Hm.
  - intros k. rewrite sharers_cons. cbn [n_lease]. destruct (decide (j = k)) as [<-|Hne]; [|rewrite Hs by congruence; apply Hl].
    rewrite Hj0. unfold h'. cbn. rewrite strong_set, decide_True by done. done.
  - intros k. rewrite sharers_cons. cbn [n_lease]. destruct (decide (j = k)) as [<-|Hne].
    + rewrite lookup_insert_eq. split; [lia|eauto].
    + rewrite lookup_insert_ne by done. rewrite Hk. done.
  - intros n [->|(Hj & k & Ek & Hlt)%Hn]%elem_of_cons; rewrite Hx; cbn [n_lease n_tx].
    + split; [lia|]. exists i. split; [done|]. specialize (Hd i ltac:(left)). lia.
    + split; [lia|]. exists k. split; [done|lia].
  - intros k Hk'%Ha. rewrite Hx. lia.
  - intros k Hk'. specialize (Hd k ltac:(by right)). rewrite Hx. lia.
Qed.

Lemma books_clone h leases L alive hand n : books h leases L alive hand → n ∈ L →
  ∃ h', node_clone h n = (h', n) ∧ books h' leases (n :: L) alive hand.
Proof.
  intros [Hm Hl Hk Hn Ha Hd] Hin. destruct (Hn n Hin) as (Hj & i & Ei & Hi). unfold node_clone. rewrite Ei.
  set (h1 := arc_clone h (n_lease n, PLease)).
  assert (H1 : ∀ k p, p ≠ PLease → strong h1 (k, p) = strong h (k, p)) by (intros; unfold h1; count; done).
  assert (Hh1 : held h1 i (senders i L hand) (bool_decide (i ∈ alive))) by (unfold held; rewrite !H1 by done; apply Hm).
  destruct (tx_clone_held _ _ _ _ Hh1) as (h' & -> & Hh' & Hnx & Hs). exists h'. split; [destruct n; cbn in *; by subst|].
  assert (Hx : next_alloc h' = next_alloc h) by (by rewrite Hnx). split.
  - intros k. rewrite (senders_cons k i) by done. destruct (decide (k = i)) as [->|Hne]; [by rewrite decide_True|].
    rewrite decide_False by done. unfold held. rewrite !Hs, !H1 by auto. apply Hm.
  - intros j. rewrite sharers_cons, Hs by auto. unfold h1. rewrite strong_clone, <- !Hl.
    destruct (decide (n_lease n = j)) as [->|]; [by rewrite decide_True|by rewrite decide_False by congruence].
  - intros j. rewrite Hk, sharers_cons. destruct (decide (n_lease n = j)) as [<-|]; [|lia]. pose proof (sharers_pos n L Hin). lia.
  - intros m [->|?]%elem_of_cons; rewrite Hx; auto.
  - intros k. rewrite Hx. apply Ha.
  - intros k. rewrite Hx. apply Hd.
Qed.

Lemma books_drop h leases L alive hand n : books h leases (n :: L) alive hand →
  ∃ h' last, node_drop h n = (h', last) ∧
    if (last : bool) then is_Some (leases !! n_lease n) ∧ books h' (delete (n_lease n) leases) L alive hand else books h' leases L alive hand.
Proof.
  intros [Hm Hl Hk Hn Ha Hd]. destruct (Hn n ltac:(by left)) as (Hj & i & Ei & Hi). unfold node_drop. rewrite Ei.
  set (h1 := arc_drop h (n_lease n, PLease)).
  assert (H1 : ∀ k p, p ≠ PLease → strong h1 (k, p) = strong h (k, p)) by (intros; unfold h1; count; done).
  assert (Hl1 : ∀ j, strong h1 (j, PLease) = sharers j L).
  { intros j. unfold h1. rewrite strong_drop, !Hl, !sharers_cons. destruct (decide (n_lease n = j)) as [->|]; [by rewrite !decide_True|by rewrite decide_False by congruence]. }
  assert (Hh1 : held h1 i (S (senders i L hand)) (bool_decide (i ∈ alive))).
  { unfold held. rewrite !H1 by done. specialize (Hm i). by rewrite (senders_cons i i), decide_True in Hm. }
  destruct (tx_drop_held _ _ _ _ Hh1) as (Hh' & Hnx & Hs). set (h' := tx_drop h1 (mailbox_of i)) in *.
  assert (Hx : next_alloc h' = next_alloc h) by done.
  assert (Hb : ∀ leases', (∀ j, is_Some (leases' !! j) ↔ (0 < sharers j L)%nat) → books h' leases' L alive hand).
  { intros leases' Hk'. split; try done.
    - intros k. destruct (decide (k = i)) as [->|Hne]; [done|]. unfold held. rewrite !Hs, !H1 by auto. specialize (Hm k).
      rewrite (senders_cons k i), decide_False in Hm by done. apply Hm.
    - intros j. rewrite Hs by auto. apply Hl1.
    - intros m Hin. rewrite Hx. apply Hn. by right. }
  eexists _, _. split; [reflexivity|]. rewrite Hl1. destruct (Nat.eqb_spec (sharers (n_lease n) L) 0) as [E|E].
  - split; [apply Hk; rewrite sharers_cons, decide_True by done; lia|]. apply Hb. intros j. destruct (decide (n_lease n = j)) as [<-|Hne].
    + rewrite lookup_delete_eq. split; [by intros []|lia].
    + rewrite lookup_delete_ne by done. rewrite Hk, sharers_cons, decide_False by done. lia.
  - apply Hb. intros j. rewrite Hk, sharers_cons. destruct (decide (n_lease n = j)) as [<-|]; lia.
Qed.

(** ** What is registered for an actor *)
Definition range_of (net : NetAddress) : option AddressRange := match range_from_net net with Ret r => Some r | Panic => None end.

Definition registered (nets : TI Node) (i : positive) (ns : list NetAddress) : Prop :=
  NoDup (range_of <$> ns) ∧
  Forall (λ net, ∃ r n, range_from_net net = Ret r ∧ (r, n) ∈ ti_entries nets ∧ n_tx n = mailbox_of i) ns.

#[local] Instance registered_perm nets i : Proper ((≡ₚ) ==> iff) (registered nets i).
Proof. intros ns ns' Hp. unfold registered. by rewrite Hp. Qed.

Lemma registered_nil nets i : registered nets i [].
Proof. split; constructor. Qed.

(** Entries are only added. *)
Lemma registered_more nets nets' i ns : (∀ e, e ∈ ti_entries nets → e ∈ ti_entries nets') → registered nets i ns → registered nets' i ns.
Proof. intros He [Hnd Hf]. split; [done|]. eapply Forall_impl; [exact Hf|]. intros net (r & n & ? & ? & ?). exists r, n. auto. Qed.

Lemma registered_add nets nets' i ns net r n : Forall (λ e, range_cmp r e.1 ≠ Eq) (ti_entries nets) → ti_entries nets' ≡ₚ (r, n) :: ti_entries nets →
  range_ok r → range_from_net net = Ret r → n_tx n = mailbox_of i → registered nets i ns → registered nets' i (net :: ns).
Proof.
  intros Hf Hp Hr Er En Hreg. assert (Hsub : ∀ e, e ∈ ti_entries nets → e ∈ ti_entries nets') by (intros e He; rewrite Hp; by right).
  destruct (registered_more nets nets' i ns Hsub Hreg) as [Hnd Hall]. split; [|constructor; [|done]].
  - cbn. apply NoDup_cons. split; [|done]. unfold range_of at 1. rewrite Er. intros (net' & Er' & Hin)%list_elem_of_fmap.
    destruct Hreg as [_ Hreg]. rewrite Forall_forall in Hreg. rewrite Forall_forall in Hf. destruct (Hreg _ Hin) as (r' & n' & Er1 & Hin' & _).
    unfold range_of in Er'. rewrite Er1 in Er'. injection Er' as <-. apply (Hf _ Hin'). by apply range_cmp_refl.
  - exists r, n. split; [done|]. split; [|done]. rewrite Hp. by left.
Qed.

(** An entry is removed: of another actor, or of this one. *)
Lemma registered_other nets nets' i j ns r n : ti_entries nets ≡ₚ (r, n) :: ti_entries nets' → n_tx n = mailbox_of i → j ≠ i →
  registered nets j ns → registered nets' j ns.
Proof.
  intros Hp En Hne [Hnd Hf]. split; [done|]. eapply Forall_impl; [exact Hf|]. intros net (r' & n' & ? & Hin & En'). exists r', n'.
  split; [done|]. split; [|done]. rewrite Hp in Hin. apply elem_of_cons in Hin as [[= -> ->]|?]; [|done].
  rewrite En in En'. by apply mailbox_of_inj in En'.
Qed.

Lemma registered_own nets nets' i ns net r n : ti_entries nets ≡ₚ (r, n) :: ti_entries nets' → range_from_net net = Ret r →
  registered nets i (net :: ns) → registered nets' i ns.
Proof.
  intros Hp Er [Hnd Hf]. cbn in Hnd. apply NoDup_cons in Hnd as [Hni Hnd]. apply Forall_cons in Hf as [_ Hf]. split; [done|].
  apply Forall_forall. intros net' Hin'. rewrite Forall_forall in Hf. destruct (Hf _ Hin') as (r' & n' & Er' & Hin & En'). exists r', n'.
  split; [done|]. split; [|done]. rewrite Hp in Hin. apply elem_of_cons in Hin as [[= -> ->]|?]; [|done].
  destruct Hni. apply list_elem_of_fmap. exists net'. split; [|done]. unfold range_of. by rewrite Er, Er'.
Qed.

(** [retire] and the registry *)
Definition after (i : positive) (w w' : World) : Prop :=
  (∃ nets' limbo', w' = set_nets w nets' limbo') ∧ reg_inv (w_nets w') ∧ all_nodes w ≡ₚ all_nodes w' ∧
  (∀ e, e ∈ ti_entries (w_nets w') → e ∈ ti_entries (w_nets w)) ∧
  (∀ j ns, j ≠ i → registered (w_nets w) j ns → registered (w_nets w') j ns).

Lemma after_refl i w : reg_inv (w_nets w) → after i w w.
Proof. intros Hr. split_and!; try done. exists (w_nets w), (limbo w). by destruct w. Qed.

Lemma after_trans i w1 w2 w3 : after i w1 w2 → after i w2 w3 → after i w1 w3.
Proof.
  intros ((n2 & l2 & ->) & _ & Hp & Hs & Ho) ((n3 & l3 & ->) & Hr & Hp' & Hs' & Ho'). split_and!; [by exists n3, l3|done|by rewrite Hp|auto|auto].
Qed.

Lemma retire_own w i net ns : reg_inv (w_nets w) → registered (w_nets w) i (net :: ns) →
  ∃ w', retire w net = Ret (w', true) ∧ after i w w' ∧ registered (w_nets w') i ns.
Proof.
  intros Hr Hreg. pose proof Hreg as [_ Hf]. apply Forall_cons in Hf as [(r & n & Er & Hin & En) _].
  destruct (unregister_exact _ _ _ _ Hr Er Hin) as (nets' & Hu & Hp). unfold retire. rewrite Er, bind_Ret, Hu, bind_Ret.
  assert (Hpk : ti_peek (w_nets w) r = Some (r, n)).
  { destruct Hr as [Hro Hrd]. assert (range_ok r) as Hrr by (rewrite Forall_forall in Hro; by apply (Hro (r, n))).
    destruct (ti_peek (w_nets w) r) as [e|] eqn:Ep.
    - apply ti_peek_some in Ep as [He Heq]. f_equal. by eapply disjoint_equal.
    - apply ti_peek_none in Ep. rewrite Forall_forall in Ep. by destruct (Ep _ Hin (range_cmp_refl r Hrr)). }
  rewrite Hpk. eexists. split; [done|]. split; [|by eapply registered_own]. split_and!.
  - by eexists _, _.
  - by eapply unregister_inv.
  - unfold all_nodes. cbn [w_nets set_nets limbo]. rewrite Hp. cbn. by rewrite Permutation_middle.
  - intros e He. rewrite Hp. by right.
  - intros j ns' Hne. by eapply registered_other.
Qed.

Lemma retire_none w net r : range_from_net net = Ret r → (∀ e, e ∈ ti_entries (w_nets w) → range_cmp r e.1 ≠ Eq) → retire w net = Ret (w, false).
Proof.
  intros Er Hno. unfold retire, unregister. rewrite Er, !bind_Ret. destruct (ti_peek (w_nets w) r) as [e|] eqn:Ep; [|by destruct w].
  apply ti_peek_some in Ep as [He Heq]. by destruct (Hno e He).
Qed.

Lemma retire_all_own w i ns keep : reg_inv (w_nets w) → registered (w_nets w) i (ns ++ keep) →
  ∃ w', retire_all w ns = Ret w' ∧ after i w w' ∧ registered (w_nets w') i keep.
Proof.
  revert w. induction ns as [|net ns IH]; intros w Hr Hreg; cbn [retire_all].
  - exists w. split; [done|]. split; [by apply after_refl|done].
  - destruct (retire_own w i net (ns ++ keep) Hr Hreg) as (w1 & -> & Ha & Hreg1). rewrite bind_Ret.
    destruct (IH w1) as (w' & -> & Ha' & Hk); [apply Ha|done|]. exists w'. split; [done|]. split; [by eapply after_trans|done].
Qed.

(** ** The leases that nodes keep *)
#[local] Instance weak_ref_eq_dec : EqDecision WeakRef.
Proof. solve_decision. Defined.
Definition from_pool (l : Lease) : list Lease := if decide (shared l = Linked) then [l] else [].
Definition kept (leases : gmap positive Lease) : list Lease := filter (λ l, shared l = Linked) (map_to_list leases).*2.

Lemma kept_insert leases j l : leases !! j = None → kept (<[j := l]> leases) ≡ₚ from_pool l ++ kept leases.
Proof.
  intros Hj. unfold kept, from_pool. rewrite (map_to_list_insert leases j l Hj), fmap_cons, filter_cons. cbn [snd]. by destruct (decide (shared l = Linked)).
Qed.

Lemma kept_delete leases j l : leases !! j = Some l → kept leases ≡ₚ from_pool l ++ kept (delete j leases).
Proof. intros Hj. rewrite <- kept_insert by apply lookup_delete_eq. by rewrite insert_delete_eq, insert_id. Qed.

Definition pool_ok (net : NetAddress) (w : World) : Prop := pool_inv net (mkPool (w_pool w) (kept (w_leases w))).

Lemma lease_drop_ok net pool l ls ls' : ls ≡ₚ from_pool l ++ ls' → pool_inv net (mkPool pool ls) →
  ∃ pool', lease_drop pool l = Ret pool' ∧ pool_inv net (mkPool pool' ls').
Proof.
  unfold from_pool. intros Hp Hi. destruct (decide (shared l = Linked)) as [Hl|Hl]; [by eapply drop_spec|].
  exists pool. split; [unfold lease_drop; by destruct (shared l)|]. by eapply pool_inv_perm.
Qed.

(** ** The steps *)
Lemma discard_ok net w n L alive hand : books (w_heap w) (w_leases w) (n :: L) alive hand → pool_ok net w →
  ∃ w', discard w n = Ret w' ∧ books (w_heap w') (w_leases w') L alive hand ∧ pool_ok net w' ∧
    w_nets w' = w_nets w ∧ limbo w' = limbo w ∧ actors w' = actors w.
Proof.
  intros Hb Hp. destruct (books_drop _ _ _ _ _ _ Hb) as (h' & last & E & Hd). unfold discard. rewrite E. destruct last.
  - destruct Hd as [[l Hl] Hd]. rewrite Hl. cbn [expect]. rewrite bind_Ret.
    destruct (lease_drop_ok net (w_pool w) l _ _ (kept_delete _ _ _ Hl) Hp) as (pool' & -> & Hp'). rewrite bind_Ret. eexists. split; [done|]. done.
  - eexists. split; [done|]. done.
Qed.

Lemma range_net_ok net r : range_from_net net = Ret r → range_ok r.
Proof. intros (? & Ha%assert_Ret_inv & [= <-])%bind_Ret_inv. unfold range_ok. cbn. lia. Qed.

Lemma enlist_ok net w bind_to r l i alive hand : books (w_heap w) (w_leases w) (all_nodes w) alive (i :: hand) → reg_inv (w_nets w) →
  range_from_net bind_to = Ret r → pool_inv net (mkPool (w_pool w) (from_pool l ++ kept (w_leases w))) →
  ∃ w' b, enlist w bind_to l (mailbox_of i) = Ret (w', b) ∧ books (w_heap w') (w_leases w') (all_nodes w') alive hand ∧ pool_ok net w' ∧
    reg_inv (w_nets w') ∧ actors w' = actors w ∧ (∀ e, e ∈ ti_entries (w_nets w) → e ∈ ti_entries (w_nets w')) ∧
    ∀ ns, registered (w_nets w) i ns → registered (w_nets w') i (if (b : bool) then bind_to :: ns else ns).
Proof.
  intros Hb Hr Er Hp. destruct (books_node _ _ _ _ _ _ l Hb) as (h' & n & En & Etx & Hnone & Hb'). unfold enlist. rewrite En.
  unfold register. cbn [w_nets set_nets]. rewrite Er, !bind_Ret. pose proof (range_net_ok _ _ Er) as Hro.
  assert (Hp' : pool_inv net (mkPool (w_pool w) (kept (<[n_lease n := l]> (w_leases w))))).
  { eapply pool_inv_perm; [|exact Hp]. by rewrite kept_insert. }
  destruct (ti_insert (w_nets w) r n) as [nets|] eqn:Ei.
  - apply ti_insert_some in Ei as [Hf He]. eexists _, true. split; [done|]. cbn [w_nets set_nets limbo w_heap w_leases actors]. split_and!; [|done| |done| |].
    + eapply books_perm; [|exact Hb']. unfold all_nodes. cbn. by rewrite He.
    + destruct Hr as [Hok Hd]. split; rewrite He; [by constructor|by split].
    + intros e Hin. rewrite He. by right.
    + intros ns. by eapply registered_add.
  - unfold set_nets. cbn [w_pool w_nets w_heap w_leases limbo actors].
    destruct (discard_ok net (mkWorld (w_pool w) (w_nets w) h' (<[n_lease n := l]> (w_leases w)) (limbo w) (actors w)) n _ _ _ Hb' Hp')
      as (w' & -> & Hb'' & Hp'' & E1 & E2 & E3). rewrite bind_Ret. eexists _, false. split; [done|]. unfold all_nodes. rewrite E1, E2, E3. cbn. split_and!; done.
Qed.

(** ** The invariant *)
Definition nets_of (a : Actor) : list NetAddress := a_bound a ++ match a_phase a with Running => [a_subnet a] | Ending => [] end.

Record actor_ok (nets : TI Node) (i : positive) (a : Actor) : Prop := {
  ao_mail : a_mail a = downgrade (mailbox_of i);
  ao_rx : a_rx a = mkRx i (i, PNotify) i i;
  ao_subnet : ∃ r, range_from_net (a_subnet a) = Ret r;
  ao_nets : registered nets i (nets_of a);
}.

Record world_ok (net : NetAddress) (w : World) : Prop := {
  wo_books : books (w_heap w) (w_leases w) (all_nodes w) (dom (actors w)) [];
  wo_pool : pool_ok net w;
  wo_reg : reg_inv (w_nets w);
  wo_actors i a : actors w !! i = Some a → actor_ok (w_nets w) i a;
}.

(** The entries another actor relies on are still there. *)
Lemma actor_kept nets nets' i a : actor_ok nets i a → registered nets' i (nets_of a) → actor_ok nets' i a.
Proof. by intros []; split. Qed.

Lemma world_new_ok net w : net_ok net → world_new net = Ret w → world_ok net w.
Proof.
  intros Hn E. destruct (pool_new_spec net Hn) as (s & Es & Hi). unfold world_new in E. rewrite Es, bind_Ret in E. injection E as <-. split; cbn.
  - unfold all_nodes. cbn. rewrite ti_entries_empty. split; cbn; try done; try set_solver.
    intros j. unfold sharers. cbn. rewrite lookup_empty. split; [by intros []|lia].
  - done.
  - unfold reg_inv. rewrite ti_entries_empty. by split.
  - done.
Qed.

(** Only the registry has changed. *)
Lemma after_world net i w w' : after i w w' → world_ok net w →
  (∀ a, actors w !! i = Some a → registered (w_nets w') i (nets_of a)) → world_ok net w'.
Proof.
  intros ((nets' & limbo' & ->) & Hr & Hp & _ & Ho) [Hb Hpo _ Ha] Hi. split; try done.
  - eapply books_perm; [exact Hp|exact Hb].
  - intros j a Hj. apply (actor_kept (w_nets w)); [by apply Ha|]. destruct (decide (j = i)) as [->|Hne]; [by apply Hi|]. apply Ho; [done|]. by apply (ao_nets _ _ _ (Ha j a Hj)).
Qed.

Lemma create_ok net w m : world_ok net w → 0 ≤ m ≤ 64 → ∃ w' o, create w m = Ret (w', o) ∧ world_ok net w'.
Proof.
  intros [Hb Hp Hr Ha] Hm. unfold create. destruct (lease_spec net (w_pool w) _ m Hp Hm) as (pool & r & -> & Hl). rewrite bind_Ret.
  destruct r as [l|[]]; [|eexists _, _; split; [done|]; split; [done|apply Hl|done|]; intros i a Hi; by apply (actor_kept (w_nets w)); apply Ha].
  destruct Hl as [Hl _]. assert (Hlo : lease_ok l) by (pose proof (inv_ok _ _ Hl) as Ho; by apply Forall_cons in Ho as [? _]).
  cbn [w_heap]. destruct (books_new _ _ _ _ Hb) as (h1 & -> & Hb1). set (i := next_alloc (w_heap w)) in *.
  destruct (books_fresh _ _ _ _ _ i Hb) as (_ & _ & Hfresh); [unfold i; lia|].
  destruct (books_tx_clone _ _ _ _ _ _ Hb1) as (h2 & -> & Hb2). set (w2 := set_heap _ h2).
  pose proof (range_from_net_canonical _ (proj2 Hlo)) as Er.
  destruct (enlist_ok net w2 (net_address l) _ l i _ _ Hb2 Hr Er) as (w3 & b & -> & Hb3 & Hp3 & Hr3 & Ea3 & Hsub & Hreg).
  { unfold from_pool. destruct Hlo as [-> _]. by rewrite decide_True. }
  rewrite bind_Ret. pose proof (books_tx_drop _ _ _ _ _ _ Hb3) as Hb4. set (h4 := tx_drop _ _) in *.
  assert (Hold : ∀ k a, actors w !! k = Some a → actor_ok (w_nets w3) k a).
  { intros k a Hk. apply (actor_kept (w_nets w)); [by apply Ha|]. eapply registered_more; [exact Hsub|]. by apply (ao_nets _ _ _ (Ha k a Hk)). }
  destruct b; eexists _, _; (split; [done|]); cbn [Mailbox.rx_system].
  - split; cbn [actors set_actors set_heap w_heap w_leases w_nets w_pool]; [|done|done|].
    + rewrite Ea3, dom_insert_L. exact Hb4.
    + intros k a. rewrite Ea3. intros [[<- <-]|[Hne Hk]]%lookup_insert_Some; [|by apply Hold]. split; [done|done|by eexists|].
      apply (Hreg []), registered_nil.
  - split; cbn [actors set_actors set_heap w_heap w_leases w_nets w_pool]; [|done|done|].
    + rewrite Ea3. replace (dom (actors w2)) with (({[i]} ∪ dom (actors w)) ∖ {[i]} : gset positive) by set_solver. apply books_rx_drop; [exact Hb4|set_solver].
    + intros k a. rewrite Ea3. apply Hold.
Qed.

Lemma bind_net_ok net w i a bind_to : world_ok net w → actors w !! i = Some a → net_ok bind_to → ∃ w' r, bind_net w i a bind_to = Ret (w', r) ∧ world_ok net w'.
Proof.
  intros Hw Hi Hn. pose proof Hw as [Hb Hp Hr Ha]. pose proof (Ha i a Hi) as [Em Erx Hs Hreg]. unfold bind_net. rewrite (range_from_net_eq _ Hn), bind_Ret, Em.
  destruct (has_bound a _); [by eexists _, _|]. pose proof (upgrade_held _ _ _ _ (bk_mail _ _ _ _ _ Hb i)) as Hu. assert (Hlt : (i < next_alloc (w_heap w))%positive) by (apply (bk_alive _ _ _ _ _ Hb), elem_of_dom; eauto).
  destruct (senders i (all_nodes w) []) as [|k] eqn:Es.
  { rewrite Hu. eexists _, _. split; [done|]. by destruct w. }
  destruct (books_upgrade _ _ _ _ _ i Hb) as (h1 & -> & Hb1); [lia|done|].
  destruct (enlist_ok net (set_heap w h1) bind_to _ (trusted bind_to) i _ _ Hb1 Hr (range_from_net_eq _ Hn)) as (w3 & b & -> & Hb3 & Hp3 & Hr3 & Ea3 & Hsub & Hreg3); [done|].
  rewrite bind_Ret. cbn in Ea3.
  assert (Hold : ∀ k a, actors w !! k = Some a → actor_ok (w_nets w3) k a).
  { intros j a' Hj. apply (actor_kept (w_nets w)); [by apply Ha|]. eapply registered_more; [exact Hsub|]. by apply (ao_nets _ _ _ (Ha j a' Hj)). }
  destruct b; eexists _, _; (split; [done|]); split; cbn [actors set_actors w_heap w_leases w_nets]; rewrite ?Ea3; try done.
  - rewrite dom_insert_L, subseteq_union_1_L by (apply singleton_subseteq_l, elem_of_dom; eauto). exact Hb3.
  - intros j a' [[<- <-]|[Hne Hj]]%lookup_insert_Some; [|by apply Hold]. split; [done|done|done|]. exact (Hreg3 _ Hreg).
Qed.

Lemma look_up_ok net w x w' b : world_ok net w → look_up w x = Ret (w', b) → world_ok net w'.
Proof.
  intros [Hb Hp Hr Ha] E. unfold look_up in E. apply bind_Ret_inv in E as (o & El & E). destruct o as [n|]; [|by injection E as <- _].
  assert (Hin : n ∈ all_nodes w).
  { unfold lookup_ in El. apply bind_Ret_inv in El as (r & _ & [= Epk]). apply fmap_Some in Epk as (e & Epk & ->). apply ti_peek_some in Epk as [He _].
    apply elem_of_app. left. apply list_elem_of_fmap. by exists e. }
  destruct (books_clone _ _ _ _ _ _ Hb Hin) as (h' & En & Hb'). rewrite En in E. injection E as <- _. split; cbn; try done.
  eapply books_perm; [|exact Hb']. unfold all_nodes. cbn. by rewrite Permutation_middle.
Qed.

Lemma release_ok net w n rest w' : world_ok net w → limbo w ≡ₚ n :: rest → discard (set_nets w (w_nets w) rest) n = Ret w' → world_ok net w'.
Proof.
  intros [Hb Hp Hr Ha] Hl E. destruct (discard_ok net (set_nets w (w_nets w) rest) n ((ti_entries (w_nets w)).*2 ++ rest) (dom (actors w)) []) as (w1 & E' & Hb' & Hp' & E1 & E2 & E3).
  - eapply books_perm; [|exact Hb]. unfold all_nodes. by rewrite Hl, Permutation_middle.
  - done.
  - rewrite E in E'. injection E' as <-. cbn in E1, E2, E3. split; unfold all_nodes; rewrite ?E1, ?E2, ?E3; done.
Qed.

(** A running actor is registered, and so its mailbox has a sender. *)
Lemma running_sender w i a : actor_ok (w_nets w) i a → a_phase a = Running → (0 < senders i (all_nodes w) [])%nat.
Proof.
  intros [_ _ _ [_ Hf]] Hph. unfold nets_of in Hf. rewrite Hph in Hf. apply Forall_app in Hf as [_ Hf]. apply Forall_cons in Hf as [(r & n & _ & Hin & En) _].
  apply (senders_pos i n); [|done]. apply elem_of_app. left. apply list_elem_of_fmap. by exists (r, n).
Qed.

Lemma own_sender_ok net w i a : world_ok net w → actors w !! i = Some a → a_phase a = Running → ∃ w', own_sender w a = Ret w' ∧ world_ok net w'.
Proof.
  intros [Hb Hp Hr Ha] Hi Hph. pose proof (running_sender _ _ _ (Ha i a Hi) Hph) as Hs. unfold own_sender. rewrite (ao_mail _ _ _ (Ha i a Hi)). cbn.
  destruct (bk_mail _ _ _ _ _ Hb i) as (Hsys & Hrest). destruct (senders i (all_nodes w) []) as [|k] eqn:Es; [lia|].
  rewrite (arc_upgrade_S _ _ k) by done. cbn [expect]. rewrite bind_Ret. eexists. split; [done|]. split; try done.
  eapply (books_mail _ _ _ _ _ _ [] [] i Hb); [| |done|apply (bk_alive _ _ _ _ _ Hb), elem_of_dom; eauto|set_solver].
  - split; [done|]. intros j p [Hj| ->]; cbn [w_heap set_heap]; by count.
  - cbn [w_heap set_heap]. change (all_nodes (set_heap w _)) with (all_nodes w). rewrite Es. unfold held. destruct Hrest as (H2 & H3 & H4). split_and!; count; lia || done.
Qed.

Lemma nets_running a : a_phase a = Running → nets_of a = a_bound a ++ [a_subnet a].
Proof. unfold nets_of. by intros ->. Qed.

Lemma container_end_ok net w i a : world_ok net w → actors w !! i = Some a → a_phase a = Running → ∃ w', container_end w i a = Ret w' ∧ world_ok net w'.
Proof.
  intros Hw Hi Hph. pose proof (wo_actors _ _ Hw i a Hi) as Hai. pose proof (ao_nets _ _ _ Hai) as Hreg. rewrite (nets_running a Hph) in Hreg.
  rewrite (comm (++)) in Hreg. destruct (retire_own w i _ _ (wo_reg _ _ Hw) Hreg) as (w1 & Er & Haf & Hk). unfold container_end. rewrite Er, bind_Ret. cbn [assert_].
  rewrite bind_Ret. eexists. split; [done|]. destruct Haf as ((nets' & limbo' & ->) & Hr & Hp & _ & Ho). destruct Hw as [Hb Hpo _ Ha].
  split; cbn [actors set_actors set_nets w_heap w_leases w_nets]; [|done|done|].
  - rewrite dom_insert_L, subseteq_union_1_L by (apply singleton_subseteq_l, elem_of_dom; eauto). eapply books_perm; [exact Hp|exact Hb].
  - intros j a' [[<- <-]|[Hne Hj]]%lookup_insert_Some.
    + destruct Hai. split; try done. unfold nets_of. cbn. by rewrite app_nil_r.
    + apply (actor_kept (w_nets w)); [by apply Ha|]. apply Ho; [done|]. by apply (ao_nets _ _ _ (Ha j a' Hj)).
Qed.

(** The last context unregisters what is left of the actor's own. *)
Lemma last_retire net w i a : world_ok net w → calm w → actors w !! i = Some a →
  ∃ w1 w2 b, retire_all w (a_bound a) = Ret w1 ∧ retire w1 (a_subnet a) = Ret (w2, b) ∧ after i w w2.
Proof.
  intros Hw Hcalm Hi. pose proof (wo_actors _ _ Hw i a Hi) as [_ _ [r Er] Hreg]. unfold nets_of in Hreg.
  destruct (retire_all_own w i _ _ (wo_reg _ _ Hw) Hreg) as (w1 & E1 & Haf & Hk). exists w1. destruct (a_phase a) eqn:Eph.
  - destruct (retire_own w1 i _ _ (proj1 (proj2 Haf)) Hk) as (w2 & E2 & Haf2 & _). exists w2, true. split_and!; [done|done|]. by eapply after_trans.
  - exists w1, false. split_and!; [done| |done]. apply (retire_none _ _ r Er). intros e He. apply (Hcalm i a r e Hi Eph Er). by apply Haf.
Qed.

Lemma last_drop_ok net w i a : world_ok net w → calm w → actors w !! i = Some a → ∃ w', last_drop w i a = Ret w' ∧ world_ok net w'.
Proof.
  intros Hw Hcalm Hi. destruct (last_retire net w i a Hw Hcalm Hi) as (w1 & w2 & b & E1 & E2 & Haf). unfold last_drop.
  rewrite E1, bind_Ret, E2, bind_Ret. eexists. split; [done|]. destruct Haf as ((nets' & limbo' & ->) & Hr & Hp & _ & Ho).
  pose proof (ao_rx _ _ _ (wo_actors _ _ Hw i a Hi)) as ->. destruct Hw as [Hb Hpo _ Ha].
  split; cbn [actors set_nets w_heap w_leases w_nets]; [|done|done|].
  - rewrite dom_delete_L. apply books_rx_drop; [|apply elem_of_dom; eauto]. eapply books_perm; [exact Hp|exact Hb].
  - intros j a' [Hne Hj]%lookup_delete_Some. apply (actor_kept (w_nets w)); [by apply Ha|]. apply Ho; [done|]. by apply (ao_nets _ _ _ (Ha j a' Hj)).
Qed.

Lemma lstep_ok net w w' : world_ok net w → calm w → lstep w w' → world_ok net w'.
Proof.
  intros Hw Hc Hs. destruct Hs as [m w' o Hm E|i a n w' r Hi Hn E|x w' b E|n rest w' Hl E|i a w' Hi Hph E|i a w' Hi Hph E|i a w' Hi E].
  - destruct (create_ok net w m Hw Hm) as (? & ? & E' & ?). rewrite E in E'. by simplify_eq.
  - destruct (bind_net_ok net w i a n Hw Hi Hn) as (? & ? & E' & ?). rewrite E in E'. by simplify_eq.
  - by eapply look_up_ok.
  - by eapply release_ok.
  - destruct (own_sender_ok net w i a Hw Hi Hph) as (? & E' & ?). rewrite E in E'. by simplify_eq.
  - destruct (container_end_ok net w i a Hw Hi Hph) as (? & E' & ?). rewrite E in E'. by simplify_eq.
  - destruct (last_drop_ok net w i a Hw Hc Hi) as (? & E' & ?). rewrite E in E'. by simplify_eq.
Qed.

Lemma lives_ok net w : net_ok net → lives net w → world_ok net w ∧ calm w.
Proof.
  intros Hn. induction 1 as [w E|w w' _ [Hw Hc] Hs Hc']; [|by split; [eapply lstep_ok|]]. split; [by eapply world_new_ok|].
  unfold world_new in E. apply bind_Ret_inv in E as (pool & _ & [= <-]). by intros i a r e Hi.
Qed.

(** A lookup of an address finds the entry whose range contains it. *)
Lemma lookup_entry (nets : TI Node) r n x : reg_inv nets → (r, n) ∈ ti_entries nets → range_contains r x → lookup_ nets x = Ret (Some n).
Proof.
  intros [Hok Hd] Hin Hx. unfold lookup_, range_from_address, range_new. rewrite assert_true by (apply Z.leb_le; lia). rewrite !bind_Ret.
  assert (Ha : range_ok (mkRange x x)) by (unfold range_ok; cbn; lia). rewrite Forall_forall in Hok.
  assert (Hc : ∀ e, e ∈ ti_entries nets → range_cmp (mkRange x x) e.1 = Eq ↔ range_contains e.1 x).
  { intros e He. rewrite range_cmp_eq by (done || by apply Hok). unfold range_contains. cbn. lia. }
  destruct (ti_peek nets (mkRange x x)) as [e|] eqn:Ep.
  - apply ti_peek_some in Ep as [He Heq]. apply Hc in Heq; [|done]. cbn. do 2 f_equal.
    by rewrite (disjoint_unique _ e (r, n) x (proj2 (Forall_forall _ _) Hok) Hd He Hin Heq Hx).
  - apply ti_peek_none in Ep. rewrite Forall_forall in Ep. destruct (Ep _ Hin). by apply Hc.
Qed.

(** C6: An actor can rely on its mailbox as long as it runs: however actors are created, bind subnets, are looked up, end and are aborted, and
    however late nodes are reclaimed, as long as the subnet of an ended actor is not registered again before its last context is dropped.
    Every address of a running actor's subnet leads to its own mailbox; its weak references can be upgraded, its queue of system messages
    does not end, and the container's [expect]s and the assertion at its end hold. The addresses of two running actors differ. And
    whatever state an actor is in, the drop of its last context does not panic. *)
Theorem registration_lasts net w i a : net_ok net → lives net w → actors w !! i = Some a →
  (a_phase a = Running →
    (∃ r, range_from_net (a_subnet a) = Ret r ∧ (∀ x, range_contains r x → ∃ n, lookup_ (w_nets w) x = Ret (Some n) ∧ downgrade (n_tx n) = a_mail a) ∧
      ∀ j b s x, actors w !! j = Some b → a_phase b = Running → j ≠ i → range_from_net (a_subnet b) = Ret s → range_contains r x → ¬ range_contains s x) ∧
    is_Some (upgrade (w_heap w) (a_mail a)).2 ∧
    (∀ queue : list unit, sys_recv (w_heap w) (Mailbox.rx_system (a_rx a)) queue ≠ RecvEnd) ∧
    (∃ w', own_sender w a = Ret w') ∧ ∃ w', container_end w i a = Ret w') ∧
  ∃ w', last_drop w i a = Ret w'.
Proof.
  intros Hn Hl Hi. destruct (lives_ok net w Hn Hl) as [Hw Hc]. pose proof (wo_reg _ _ Hw) as Hr.
  assert (Hfind : ∀ j b, actors w !! j = Some b → a_phase b = Running → ∃ s m, range_from_net (a_subnet b) = Ret s ∧ (s, m) ∈ ti_entries (w_nets w) ∧ n_tx m = mailbox_of j).
  { intros j b Hj Hph. pose proof (ao_nets _ _ _ (wo_actors _ _ Hw j b Hj)) as [_ Hf]. rewrite (nets_running b Hph) in Hf. apply Forall_app in Hf as [_ Hf].
    by apply Forall_cons in Hf as [Hf _]. }
  split; [|destruct (last_drop_ok net w i a Hw Hc Hi) as (w' & E & _); by exists w']. intros Hph. pose proof (wo_actors _ _ Hw i a Hi) as Hai.
  pose proof (running_sender _ _ _ Hai Hph) as Hs. pose proof (bk_mail _ _ _ _ _ (wo_books _ _ Hw) i) as Hh. split_and!.
  - destruct (Hfind i a Hi Hph) as (r & n & Er & Hin & En). exists r. split; [done|]. split.
    + intros x Hx. exists n. split; [by eapply lookup_entry|]. by rewrite En, (ao_mail _ _ _ Hai).
    + intros j b s x Hj Hpb Hne Es Hx Hx'. destruct (Hfind j b Hj Hpb) as (s' & m & Es' & Hin' & Em). rewrite Es in Es'. injection Es' as <-.
      pose proof (disjoint_unique _ _ _ x (proj1 Hr) (proj2 Hr) Hin Hin' Hx Hx') as [= -> ->]. rewrite En in Em. by apply mailbox_of_inj in Em.
  - rewrite (ao_mail _ _ _ Hai). by apply (upgrade_iff_sender _ _ _ _ Hh).
  - intros queue. rewrite (ao_rx _ _ _ Hai). cbn. destruct queue; [|done]. cbn. destruct Hh as [-> _]. by destruct (Nat.eqb_spec (senders i (all_nodes w) []) 0); [lia|].
  - destruct (own_sender_ok net w i a Hw Hi Hph) as (w' & E & _). by exists w'.
  - destruct (container_end_ok net w i a Hw Hi Hph) as (w' & E & _). by exists w'.
Qed.
End Lifecycle.

(** ** Examples *)
Section Examples.
#[local] Existing Instance list_tree_index.

Definition tiny_net : NetAddress := mkNet 0x10 60.
Lemma tiny_net_ok : net_ok tiny_net.
Proof. by vm_compute. Qed.

Definition the {A} (d : A) (o : outcome A) : A := match o with Ret a => a | Panic => d end.
Definition no_world : World (TI := ListIndex) := mkWorld (Pool.mkShared Trie.empty Trie.empty) [] (mkHeap ∅ 1) ∅ [] ∅.
Definition w0 : World (TI := ListIndex) := the no_world (world_new tiny_net).

(** One actor takes the whole net. *)
Definition w1 : World (TI := ListIndex) := (the (no_world, None) (create w0 60)).1.
Definition first_actor : Actor := mkActor tiny_net (downgrade (mailbox_of 1)) (mkRx 1 (1%positive, PNotify) 1 1) [] Running.

Lemma w1_created : world_new tiny_net = Ret w0 ∧ create w0 60 = Ret (w1, Some 1%positive) ∧ actors w1 !! 1%positive = Some first_actor.
Proof. split_and!; vm_compute; reflexivity. Qed.

Lemma w1_calm : calm w1.
Proof.
  intros i a r e Hi Hph. assert (E : actors w1 = {[1%positive := first_actor]}) by (vm_compute; reflexivity). rewrite E in Hi.
  apply lookup_singleton_Some in Hi as [<- <-]. discriminate Hph.
Qed.

Lemma w1_lives : lives tiny_net w1.
Proof.
  destruct w1_created as (E0 & E1 & _). eapply lives_step; [by apply lives_new|eapply l_create; [|exact E1]; lia|exact w1_calm].
Qed.

Lemma registration_lasts_witness : is_Some (upgrade (w_heap w1) (a_mail first_actor)).2 ∧ ∃ w', container_end w1 1 first_actor = Ret w'.
Proof.
  destruct (proj1 (registration_lasts tiny_net w1 1 first_actor tiny_net_ok w1_lives (proj2 (proj2 w1_created))) eq_refl) as (_ & Hu & _ & _ & He).
  exact (conj Hu He).
Defined.

(** The first actor's container ends, and its node is reclaimed, which gives back the lease. *)
Definition w2 : World (TI := ListIndex) := the no_world (container_end w1 1 first_actor).
Definition last_node : Node := mkNode 2 (mailbox_of 1).
Definition w3 : World (TI := ListIndex) := the no_world (discard (set_nets w2 (w_nets w2) []) last_node).
(** A second actor is given the same subnet before the first one's context is dropped. *)
Definition w4 : World (TI := ListIndex) := (the (no_world, None) (create w3 60)).1.
Definition second_actor : Actor := mkActor tiny_net (downgrade (mailbox_of 3)) (mkRx 3 (3%positive, PNotify) 3 3) [] Running.
Definition ended_actor : Actor := mkActor tiny_net (downgrade (mailbox_of 1)) (mkRx 1 (1%positive, PNotify) 1 1) [] Ending.
Definition w5 : World (TI := ListIndex) := the no_world (last_drop w4 1 ended_actor).
Definition w6 : World (TI := ListIndex) := the no_world (discard (set_nets w5 (w_nets w5) []) (mkNode 4 (mailbox_of 3))).

(** The context of an actor unregisters its subnet once more after the container has: when the subnet has been given to a second actor in
    between, it is the second one that is unregistered. Its weak references are dead, its queue of system messages ends, which the
    container takes for an error, the container's [expect] panics, and so does the assertion at its end. *)
Theorem late_drop_unregisters : rtc lstep w0 w6 ∧ actors w6 !! 3%positive = Some second_actor ∧
  (upgrade (w_heap w6) (a_mail second_actor)).2 = None ∧ sys_recv (S := unit) (w_heap w6) 3 [] = RecvEnd ∧
  own_sender w6 second_actor = Panic ∧ container_end w6 3 second_actor = Panic ∧ ∀ x, lookup_ (w_nets w6) x = Ret None.
Proof.
  assert (E1 : create w0 60 = Ret (w1, Some 1%positive)) by apply w1_created.
  assert (E2 : container_end w1 1 first_actor = Ret w2) by (vm_compute; reflexivity).
  assert (E3 : discard (set_nets w2 (w_nets w2) []) last_node = Ret w3) by (vm_compute; reflexivity).
  assert (E4 : create w3 60 = Ret (w4, Some 3%positive)) by (vm_compute; reflexivity).
  assert (E5 : last_drop w4 1 ended_actor = Ret w5) by (vm_compute; reflexivity).
  assert (E6 : discard (set_nets w5 (w_nets w5) []) (mkNode 4 (mailbox_of 3)) = Ret w6) by (vm_compute; reflexivity).
  assert (En : w_nets w6 = []) by (vm_compute; reflexivity).
  split; [|split_and!; [vm_compute; reflexivity..|intros x; unfold lookup_, range_from_address, range_new; rewrite En, assert_true by (apply Z.leb_le; lia); reflexivity]].
  eapply rtc_l; [eapply (l_create _ 60); [lia|exact E1]|]. eapply rtc_l; [eapply (l_end _ 1 first_actor); [apply w1_created|done|exact E2]|].
  eapply rtc_l; [eapply (l_release _ last_node []); [|exact E3]; by vm_compute|]. eapply rtc_l; [eapply (l_create _ 60); [lia|exact E4]|].
  eapply rtc_l; [eapply (l_drop _ 1 ended_actor); [|exact E5]; by vm_compute|].
  eapply rtc_l; [eapply (l_release _ (mkNode 4 (mailbox_of 3)) []); [|exact E6]; by vm_compute|]. apply rtc_refl.
Qed.
End Examples.
