(* ===== verification/Serial.v ===== *)
(** * Serial forms (the [serde] implementations of libs/mm1-address/src and libs/mm1-logger/src/config.rs; the addresses of
    core/mm1-node/src/config.rs)

    Addresses and subnets are written as text for formats that people read and as numbers for the others. A format is given by whether it is
    human-readable; what is handed to it is a value of serde's data model. The interface addresses of a configuration are URLs; the parser of
    URLs and that of IP addresses are parameters. *)

From Stdlib Require Import Ascii.
From stdpp Require Import strings pretty.
From S2P Require Import Prelude U64 Address Subnet LogFilter Config.

Open Scope Z_scope.

(** ** serde's data model, as far as it is used *)
Inductive SVal := SStr (s : list ascii) | SU64 (v : Z) | SU8 (v : Z) | SPair (a b : SVal).

(** What a deserializer reports when it finds something else, and what the code makes of it itself *)
Inductive SerdeError := WrongType | Custom.

(** [String::deserialize], [u64::deserialize], [u8::deserialize] *)
Definition de_string (v : SVal) : result (list ascii) SerdeError := match v with SStr s => Ok s | _ => Err WrongType end.
Definition de_u64 (v : SVal) : result Z SerdeError := match v with SU64 v => Ok v | _ => Err WrongType end.
Definition de_u8 (v : SVal) : result Z SerdeError := match v with SU8 v => Ok v | _ => Err WrongType end.

(** [?] *)
Definition try {A B E} (r : result A E) (f : A → result B E) : result B E := match r with Ok a => f a | Err e => Err e end.

(** [Address] *)
Definition address_serialize (human_readable : bool) (a : Address) : outcome SVal :=
  if human_readable then s ← address_to_string a; Ret (SStr s) else Ret (SU64 a).
Definition address_deserialize (human_readable : bool) (v : SVal) : result Address SerdeError :=
  if human_readable then try (de_string v) (λ s, map_err (λ _, Custom) (address_from_str s)) else de_u64 v.

(** [NetMask]: the derived [Serialize] of a newtype, and its own [Deserialize] *)
Definition net_mask_serialize (m : NetMask) : SVal := SU8 m.
Definition net_mask_deserialize (v : SVal) : result NetMask SerdeError :=
  try (de_u8 v) (λ v, map_err (λ _, Custom) (net_mask_try_from v)).

(** [NetAddress] *)
Definition net_address_serialize (human_readable : bool) (n : NetAddress) : outcome SVal :=
  if human_readable then s ← net_address_to_string n; Ret (SStr s)
  else a ← address_serialize human_readable (address n); Ret (SPair a (net_mask_serialize (mask n))).
Definition net_address_deserialize (human_readable : bool) (v : SVal) : result NetAddress SerdeError :=
  if human_readable then try (de_string v) (λ s, map_err (λ _, Custom) (net_address_from_str s))
  else match v with
       | SPair a m => try (address_deserialize human_readable a) (λ a, try (net_mask_deserialize m) (λ m, Ok (mkNet a m)))
       | _ => Err WrongType
       end.

(** Addresses and subnets survive being stored or sent: in a human-readable format and in any other, writing one never panics, and reading
    what was written gives it back. And whatever is read, a subnet that comes out has a mask of at most 64 bits, so that the shifts of
    the pool and of the ranges are defined. *)
Theorem serial_roundtrip (human_readable : bool) (a : Address) (n : NetAddress) : u64_ok a → net_ok n →
  (∃ v, address_serialize human_readable a = Ret v ∧ address_deserialize human_readable v = Ok a) ∧
  (∃ v, net_address_serialize human_readable n = Ret v ∧ net_address_deserialize human_readable v = Ok n) ∧
  (∀ v n', net_address_deserialize false v = Ok n' → mask n' ≤ 64).
Proof.
  intros Ha Hn. split_and!.
  - unfold address_serialize, address_deserialize. destruct human_readable; [|by eexists]. destruct (to_from_str a Ha) as (s & Hs & Hp).
    unfold address_to_string. rewrite Hs, bind_Ret. eexists. split; [done|]. cbn. unfold address_from_str. by rewrite Hp.
  - unfold net_address_serialize, net_address_deserialize. destruct human_readable.
    + destruct (net_text n Hn) as (s & -> & Hp). rewrite bind_Ret. eexists. split; [done|]. cbn. by rewrite Hp.
    + cbn [address_serialize]. rewrite bind_Ret. eexists. split; [done|]. destruct n as [x m], Hn as [_ Hm]. cbn in *.
      unfold net_mask_try_from, ADDRESS_BITS, U64_BITS. by rewrite (proj2 (Z.leb_le _ _)) by lia.
  - intros [| | |v m] n'; [done..|]. cbn. unfold net_mask_deserialize. destruct (de_u64 v); [|done]. cbn. destruct (de_u8 m) as [b|]; [|done]. cbn.
    unfold net_mask_try_from, ADDRESS_BITS, U64_BITS. destruct (Z.leb_spec b 64); [|done]. by intros [= <-].
Qed.

(** The binary form of a subnet is not checked further: addresses that do not lie on the boundary of the mask are read as they are. *)
Example unaligned_net_read : net_address_deserialize false (SPair (SU64 0xFF) (SU8 8)) = Ok (mkNet 0xFF 8).
Proof. reflexivity. Qed.

(** [LogTargetConfig] and the level of [LoggingConfig], as text *)
Section Logging.
Context (level_from_str : string → result Level string) (level_to_string : Level → string).
Definition log_target_serialize (c : LogTargetConfig) : string := log_target_to_string level_to_string c.
Definition log_target_deserialize (s : string) : result LogTargetConfig SerdeError := map_err (λ _, Custom) (log_target_from_str level_from_str s).
Definition level_serialize (l : Level) : string := level_to_string l.
Definition level_deserialize (s : string) : result Level SerdeError := map_err (λ _, Custom) (level_from_str s).
End Logging.

(** ** The masks by name ([subnet/net_mask.rs]) *)
Definition net_mask_consts : list (string * NetMask) :=
  [("M_0", 0); ("M_1", 1); ("M_10", 10); ("M_11", 11); ("M_12", 12); ("M_13", 13); ("M_14", 14); ("M_15", 15); ("M_16", 16);
   ("M_17", 17); ("M_18", 18); ("M_19", 19); ("M_2", 2); ("M_20", 20); ("M_21", 21); ("M_22", 22); ("M_23", 23); ("M_24", 24);
   ("M_25", 25); ("M_26", 26); ("M_27", 27); ("M_28", 28); ("M_29", 29); ("M_3", 3); ("M_30", 30); ("M_31", 31); ("M_32", 32);
   ("M_33", 33); ("M_34", 34); ("M_35", 35); ("M_36", 36); ("M_37", 37); ("M_38", 38); ("M_39", 39); ("M_4", 4); ("M_40", 40);
   ("M_41", 41); ("M_42", 42); ("M_43", 43); ("M_44", 44); ("M_45", 45); ("M_46", 46); ("M_47", 47); ("M_48", 48); ("M_49", 49);
   ("M_5", 5); ("M_50", 50); ("M_51", 51); ("M_52", 52); ("M_53", 53); ("M_54", 54); ("M_55", 55); ("M_56", 56); ("M_57", 57);
   ("M_58", 58); ("M_59", 59); ("M_6", 6); ("M_60", 60); ("M_61", 61); ("M_62", 62); ("M_63", 63); ("M_64", 64); ("M_7", 7);
   ("M_8", 8); ("M_9", 9)].
Definition MIN : string := "M_0".
Definition MAX : string := "M_64".

(** Every mask has one constant, which is named after it. *)
Lemma net_mask_consts_ok : Forall (λ c, c.1 = "M_" +:+ pretty c.2) net_mask_consts ∧
  (∀ m, 0 ≤ m ≤ 64 → ("M_" +:+ pretty m, m) ∈ net_mask_consts) ∧ length net_mask_consts = 65%nat.
Proof.
  split_and!; [vm_compute; repeat constructor| |reflexivity]. intros m Hm.
  assert (Hall : Forall (λ k, ("M_" +:+ pretty (Z.of_nat k), Z.of_nat k) ∈ net_mask_consts) (seq 0 65)) by (by apply (bool_decide_unpack _); vm_compute).
  rewrite Forall_forall in Hall. specialize (Hall (Z.to_nat m)). rewrite Z2Nat.id in Hall by lia. apply Hall, elem_of_seq. lia.
Qed.

(** ** Interface addresses *)
Section DefAddr.
Context {Ip4 Ip6 : Type}.

(** [std::net]: text of IP addresses. An address has no brackets; they belong to the text of a socket address. *)
Class IpText := {
  show4 : Ip4 → string;
  show6 : Ip6 → string;
  ip_parse : string → option (Ip4 + Ip6);
  ip_parse4 a : ip_parse (show4 a) = Some (inl a);
  ip_parse6 a : ip_parse (show6 a) = Some (inr a);
  ip_parse_bracket s : ip_parse ("[" +:+ s) = None;
}.
Context `{IpText}.

(** [url::Host] and [url::Url]; the text of a host puts an address of version 6 in brackets. *)
Inductive Host := HDomain (d : string) | HIpv4 (a : Ip4) | HIpv6 (a : Ip6).
Record Url := mkUrl { scheme : string; host : option Host; port : option Z; url_path : string }.
Definition host_to_string (h : Host) : string :=
  match h with HDomain d => d | HIpv4 a => show4 a | HIpv6 a => "[" +:+ show6 a +:+ "]" end.

Definition SocketAddr : Type := (Ip4 + Ip6) * Z.
Inductive DefAddrError := BadUrl | HostMissing | BadIp | PortMissing | UnsupportedScheme (s : string).

Context (url_parse : string → option Url).

(** [DefAddr::from_str] *)
Definition def_addr_from_str (s : string) : result (DefAddr SocketAddr string) DefAddrError :=
  match url_parse s with
  | None => Err BadUrl
  | Some url =>
      if bool_decide (scheme url = "uds") then Ok (DefUds (default "" (host_to_string <$> host url) +:+ url_path url))
      else if bool_decide (scheme url = "tcp") then
        match host url with
        | None => Err HostMissing
        | Some h =>
            match ip_parse (host_to_string h) with
            | None => Err BadIp
            | Some ip => match port url with None => Err PortMissing | Some p => Ok (DefTcp (ip, p)) end
            end
        end
      else Err (UnsupportedScheme (scheme url))
  end.

(** [Deserialize for DefAddr] *)
Definition def_addr_deserialize (s : string) : result (DefAddr SocketAddr string) SerdeError := map_err (λ _, Custom) (def_addr_from_str s).

(** [Display for DefAddr]; [debug] is the debug form of a path, which is quoted. *)
Definition show_socket (a : SocketAddr) : string :=
  match a.1 with inl ip => show4 ip | inr ip => "[" +:+ show6 ip +:+ "]" end +:+ ":" +:+ pretty a.2.
Definition def_addr_to_string (debug : string → string) (a : DefAddr SocketAddr string) : string :=
  match a with DefTcp a => "tcp://" +:+ show_socket a | DefUds p => "uds://" +:+ debug p end.

(** What a URL of an interface stands for. The address of a [tcp] URL is the IP address its host spells, with its port. A host that is an
    address of version 6 is refused, for its brackets: no such address can be configured. *)
Theorem def_addr_from_url s url : url_parse s = Some url →
  (∀ p, scheme url = "uds" → host url = None → url_path url = p → def_addr_from_str s = Ok (DefUds p)) ∧
  (∀ a p, scheme url = "tcp" → host url = Some (HDomain (show4 a)) ∨ host url = Some (HIpv4 a) → port url = Some p →
     def_addr_from_str s = Ok (DefTcp (inl a, p))) ∧
  (∀ a, scheme url = "tcp" → host url = Some (HIpv6 a) → def_addr_from_str s = Err BadIp) ∧
  (scheme url ≠ "uds" → scheme url ≠ "tcp" → def_addr_from_str s = Err (UnsupportedScheme (scheme url))).
Proof.
  intros E. unfold def_addr_from_str. rewrite E. split_and!.
  - intros p -> -> <-. done.
  - intros a p -> [-> | ->] ->; cbn; by rewrite ip_parse4.
  - intros a -> ->. cbn. by rewrite ip_parse_bracket.
  - intros H1 H2. by rewrite !bool_decide_false.
Qed.
End DefAddr.

(** ** Examples *)
Definition hop_ip_parse (s : string) : option (unit + unit) :=
  if bool_decide (s = "127.0.0.1") then Some (inl tt) else if bool_decide (s = "::1") then Some (inr tt) else None.
Definition loopback : IpText (Ip4 := unit) (Ip6 := unit).
Proof.
  refine {| show4 := λ _, "127.0.0.1"; show6 := λ _, "::1"; ip_parse := hop_ip_parse |}; [by intros []|by intros []|done].
Defined.
#[local] Existing Instance loopback.

Definition v6_url : Url (Ip4 := unit) (Ip6 := unit) := mkUrl "tcp" (Some (HIpv6 tt)) (Some 9000) "".
Definition v6_parse (s : string) : option Url := if bool_decide (s = "tcp://[::1]:9000") then Some v6_url else None.

(** The text of an address of version 6 is not read back. *)
Lemma def_addr_from_url_witness : def_addr_to_string (λ p, p) (DefTcp (inr tt, 9000)) = "tcp://[::1]:9000" ∧
  def_addr_from_str v6_parse "tcp://[::1]:9000" = Err BadIp.
Proof.
  split; [reflexivity|]. exact (proj1 (proj2 (proj2 (def_addr_from_url v6_parse "tcp://[::1]:9000" v6_url eq_refl))) tt eq_refl eq_refl).
Defined.

Lemma serial_roundtrip_witness : ∃ v, net_address_serialize false (mkNet 0xFFF8000000000000 13) = Ret v ∧ net_address_deserialize false v = Ok (mkNet 0xFFF8000000000000 13).
Proof. apply (serial_roundtrip false 0 (mkNet 0xFFF8000000000000 13)); by vm_compute. Defined.
