(* ===== verification/MnMgr.v ===== *)
(** * What a connection asks of the manager (components/mm1-multinode/src/actors/iostream_connection/mn_mgr.rs)

    Four requests, each with its own kind of response and one second to wait for it. An [ask] is a parameter: what it answers to a request;
    here it is composed with the handlers of [Manager]. *)

From stdpp Require Import strings.
From S2P Require Import Prelude U64 Address Subnet Collections Btree Routes Protocols Manager.

Open Scope Z_scope.

Section MnMgr.
Context {SM : Type → Type} `{SlotMap SM} `{HashSetOrder}.
Context {BM : Type} `{!BiMap WatchRef Address BM}.
Context {SocketAddr Path : Type} `{Countable SocketAddr} `{Countable Path}.
Context (type_name : TypeId → MessageName).
Notation Mgr := (Manager (SM := SM) (BM := BM) (SocketAddr := SocketAddr) (Path := Path)).
Notation Rs := (Response (SM := SM)).

(** [ASK_TIMEOUT], in nanoseconds *)
Definition ASK_TIMEOUT : Z := 1000000000.

Inductive MgrRequest :=
| SubscribeToRoutesRequest (deliver_to : Address)
| GetLocalSubnetsRequest
| RegisterOpaqueMessageRequest (name : MessageName)
| GetMessageNameRequest (key : LocalTypeKey).

Section Asking.
Context (ask : Address → MgrRequest → Z → result Rs unit).

Definition subscribe_to_routes (multinode_manager deliver_to : Address) : result (list SetRoute) unit :=
  match ask multinode_manager (SubscribeToRoutesRequest deliver_to) ASK_TIMEOUT with Ok (SubscribeToRoutesRs routes) => Ok routes | _ => Err tt end.
Definition get_local_subnets (multinode_manager : Address) : result (list NetAddress) unit :=
  match ask multinode_manager GetLocalSubnetsRequest ASK_TIMEOUT with Ok (GetLocalSubnetsRs nets) => Ok nets | _ => Err tt end.
Definition register_opaque_message (multinode_manager : Address) (name : MessageName) : result LocalTypeKey unit :=
  match ask multinode_manager (RegisterOpaqueMessageRequest name) ASK_TIMEOUT with Ok (RegisterOpaqueMessageRs key) => Ok key | _ => Err tt end.
Definition get_message_name (multinode_manager : Address) (key : LocalTypeKey) : result MessageName unit :=
  match ask multinode_manager (GetMessageNameRequest key) ASK_TIMEOUT with Ok (GetMessageNameRs name) => Ok name | _ => Err tt end.
End Asking.

(** The manager's handler of a request *)
Definition serve (m : Mgr) (watch_ref : WatchRef) (rq : MgrRequest) : outcome (Handled (SM := SM) (BM := BM) (SocketAddr := SocketAddr) (Path := Path)) :=
  match rq with
  | SubscribeToRoutesRequest deliver_to => Ret (on_subscribe_to_routes m deliver_to watch_ref)
  | GetLocalSubnetsRequest => on_get_local_subnets m
  | RegisterOpaqueMessageRequest name => on_register_opaque_message type_name m name
  | GetMessageNameRequest key => on_get_message_name type_name m key
  end.

(** An [ask] of the manager in state [m], answered in time *)
Definition answered (m : Mgr) (watch_ref : WatchRef) : Address → MgrRequest → Z → result Rs unit := λ _ rq _,
  match serve m watch_ref rq with Ret (_, _, Ok (Some r)) => Ok r | _ => Err tt end.
Definition served (m : Mgr) (watch_ref : WatchRef) (rq : MgrRequest) : Mgr :=
  match serve m watch_ref rq with Ret (m, _, _) => m | Panic => m end.

(** The manager understands its connections: asked in time, it answers each of the four requests with the response the connection waits
    for. The routes are those of its table, the subnets its own. The key that a name is registered under is the one the name is known by
    from then on, also when the name is registered again, and stands for no other name. *)
Theorem manager_serves_connection (plan : NetAddress → Prop) `{!AddressPlan plan} (m : Mgr) watch_ref mgr conn : manager_ok type_name plan m →
  subscribe_to_routes (answered m watch_ref) mgr conn = Ok (set_route_from <$> all_routes (route_registry m)) ∧
  (∃ nets, get_local_subnets (answered m watch_ref) mgr = Ok nets ∧ (net_range <$> nets) = (local_subnets m).*1) ∧
  ∀ name, ∃ key, register_opaque_message (answered m watch_ref) mgr name = Ok key ∧
    let m' := served m watch_ref (RegisterOpaqueMessageRequest name) in
    get_message_name (answered m' watch_ref) mgr key = Ok name ∧
    register_opaque_message (answered m' watch_ref) mgr name = Ok key ∧
    ∀ name', register_opaque_message (answered m' watch_ref) mgr name' = Ok key → name' = name.
Proof.
  intros Hm. split; [done|]. split.
  - destruct (mo_locals _ _ _ Hm) as [Hf _]. destruct (nets_from_ok plan _ Hf) as (nets & E & _ & Hk). exists nets. split; [|done].
    unfold get_local_subnets, answered, serve, on_get_local_subnets. by rewrite E, bind_Ret.
  - intros name. pose proof (mo_protocols _ _ _ Hm) as [Hr _].
    assert (Hreg : ∀ m1 : Mgr, registry_ok type_name (protocol_registry m1) → ∀ n, ∃ reg' k, register_opaque_message (answered m1 watch_ref) mgr n = Ok k ∧
      protocol_registry (served m1 watch_ref (RegisterOpaqueMessageRequest n)) = reg' ∧ registered type_name (protocol_registry m1) reg' (Opaque n) k).
    { intros m1 Hr1 n. destruct (register_message_ok type_name (protocol_registry m1) (Opaque n) Hr1) as (reg' & k & E & Hg). exists reg', k.
      unfold register_opaque_message, served, answered, serve, on_register_opaque_message. by rewrite E. }
    destruct (Hreg m Hr name) as (reg' & key & E1 & Er & Hg). exists key. split; [done|]. cbv zeta. set (m' := served m watch_ref _) in *.
    pose proof (rg_ok _ _ _ _ _ Hg) as Hr'. pose proof (rg_key _ _ _ _ _ Hg) as Hk. cbn [codec_name] in Hk. rewrite <- Er in Hr', Hk.
    pose proof (registry_name _ _ _ _ Hr' Hk) as Hname. split_and!.
    + unfold get_message_name, answered, serve, on_get_message_name. by rewrite Hname.
    + destruct (Hreg m' Hr' name) as (reg2 & k2 & E2 & _ & Hg2). rewrite E2. f_equal.
      pose proof (map_subseteq_spec (codec_by_name (protocol_registry m')) (codec_by_name reg2)) as Hs.
      pose proof (proj1 Hs (registered_sub _ _ _ _ _ Hg2) _ _ Hk) as H1'. pose proof (rg_key _ _ _ _ _ Hg2) as H2'. cbn [codec_name] in H2'. congruence.
    + intros name' E'. destruct (Hreg m' Hr' name') as (reg2 & k2 & E2 & _ & Hg2). rewrite E2 in E'. injection E' as ->.
      pose proof (proj1 (map_subseteq_spec _ _) (registered_sub _ _ _ _ _ Hg2) _ _ Hk) as H1'. pose proof (rg_key _ _ _ _ _ Hg2) as H2'. cbn [codec_name] in H2'.
      apply (registry_name _ _ _ _ (rg_ok _ _ _ _ _ Hg2)) in H1', H2'. congruence.
Qed.
End MnMgr.

(** ** Example: a fresh manager *)
Section Examples.
#[local] Existing Instance gmap_slot_map.
#[local] Existing Instance elements_order.
#[local] Existing Instance two_nets_plan.
#[local] Existing Instance gws_bimap.

Lemma manager_serves_connection_witness : ∃ key, register_opaque_message (SM := gmap Z) (answered names m0 0) 10 "app::Ping" = Ok key ∧
  get_message_name (answered names (served names m0 0 (RegisterOpaqueMessageRequest "app::Ping")) 0) 10 key = Ok "app::Ping"%string.
Proof.
  destruct (manager_serves_connection names two_nets m0 0 10 20 (manager_default_ok names two_nets)) as (_ & _ & Hn).
  destruct (Hn "app::Ping"%string) as (key & E1 & E2 & _). exists key. exact (conj E1 E2).
Defined.
End Examples.
