(* ===== verification/Typed.v ===== *)
(** * Typed messages from one node to the next
    (components/mm1-multinode/src/actors/iostream_connection.rs with components/mm1-multinode/src/codec.rs)

    The composition of the codecs, the tables of types and the connections of both sides: a value that is sent to the gateway on
    one node comes out on the other as the same value of the same type. The nodes call a type by its name, each under a key of its
    own; both run programs in which a name belongs to one type. *)

From stdpp Require Import strings pretty.
From S2P Require Import Prelude U64 Address Subnet Collections Btree Routes Protocols Manager Wire Stream Dispatch Connection Remote Codec.

Open Scope Z_scope.

Section Typed.
Context {SM : Type → Type} `{SlotMap SM} `{HashSetOrder} `{bincode : Bincode} `{MessagePack} {BM : Type} `{!BiMap MessageName Z BM}.
Context (type_name : TypeId → MessageName) (addr_hash : Address → Z).
Context `{!Inj (=) (=) type_name}.






(** ** The tables of types *)






















End Typed.

(** ** Example: a ping of type 1 and a message in transit *)
Section Examples.
#[local] Existing Instance fixed_bincode.
#[local] Existing Instance gmap_slot_map.
#[local] Existing Instance elements_order.
#[local] Existing Instance names_bimap.

(** A format for single bytes *)
Definition byte_write (t : TypeId) (v : value) : result (list byte) unit :=
  match v with VPrim t' z => if (t' =? t) && (0 <=? z) && (z <? 256) then Ok [z] else Err tt | VStruct _ _ => Err tt end.
Definition byte_read (t : TypeId) (body : list byte) : result value unit := match body with [z] => Ok (VPrim t z) | _ => Err tt end.
#[local] Instance byte_pack : MessagePack.
Proof.
  refine {| mp_write := byte_write; mp_read := byte_read |}. intros t [|t' z] body Hv; cbn; [done|]. destruct (_ && _); [|done].
  cbn in Hv. subst. by intros [= <-].
Defined.

Definition pretty_name (t : TypeId) : MessageName := pretty t.
#[local] Instance pretty_name_inj : Inj (=) (=) pretty_name.
Proof. apply pretty_Z_inj. Qed.





End Examples.
