(* ===== verification/Tracing.v ===== *)
(** * Traces (core/mm1-core/src/tracing.rs, and the messages and loops that carry them)

    A message carries the trace of the task that made it, and whoever handles it does so within that trace, so that what comes of
    a message is found under one trace. The trace is kept in a task-local variable of the tokio library, which is an interface here:
    a value is set while a scoped future is being polled, and on no other occasion. Tasks are polled in any order by one thread. *)

From S2P Require Import Prelude U64 Address Stream Dispatch.

Open Scope Z_scope.

Definition TraceId := Z.

(** What [task_local!] provides: the variable as a thread sees it, the entry into a scope and the way out of it *)
Class TaskLocal (Cell : Type) := {
  tl_unset : Cell;
  tl_try_get : Cell → result TraceId unit;
  tl_enter : TraceId → Cell → Cell;
  tl_leave : Cell → Cell → Cell;
  tl_get_unset : tl_try_get tl_unset = Err tt;
  tl_get_enter t c : tl_try_get (tl_enter t c) = Ok t;
  tl_leave_enter t c : tl_leave c (tl_enter t c) = c;
}.

Section Tracing.
Context {Cell : Type} `{TaskLocal Cell}.

(** [TraceId::current]; the default is zero. *)
Definition current (c : Cell) : TraceId := match tl_try_get c with Ok t => t | Err _ => 0 end.

(** A thread with the process's sequence number, and the headers of the envelopes that are sent *)
Record Thread := mkThread { cell : Cell; seq_no : Z; sent : list EnvelopeHeader }.
Definition set_cell (th : Thread) (c : Cell) : Thread := mkThread c (seq_no th) (sent th).

(** What a future does that bears on traces: it sends a message, waits, or has another run to its end within a trace. *)
Inductive fut :=
| FDone
| FTell (to : Address) (k : fut)
| FWait (k : fut)
| FScope (trace_id : TraceId) (f k : fut).

(** [Tell::tell] *)
Definition tell (th : Thread) (to : Address) : Thread :=
  let '(no, info) := to_address (seq_no th) (current (cell th)) to in mkThread (cell th) no (sent th ++ [info]).

(** [TraceId::scope_sync] *)
Definition scope_sync {A} (trace_id : TraceId) (func : Thread → Thread * A) (th : Thread) : Thread * A :=
  let '(th', r) := func (set_cell th (tl_enter trace_id (cell th))) in (set_cell th' (tl_leave (cell th) (cell th')), r).

(** One poll: what is left of the future, and whether it is ready. A poll of a scoped future is within its scope. *)
Fixpoint poll (f : fut) (th : Thread) : Thread * (fut * bool) :=
  match f with
  | FDone => (th, (FDone, true))
  | FTell to k => poll k (tell th to)
  | FWait k => (th, (k, false))
  | FScope trace_id f k =>
      let '(th, (f, ready)) := scope_sync trace_id (poll f) th in
      if (ready : bool) then poll k th else (th, (FScope trace_id f k, false))
  end.

(** [f.with_trace_id(trace_id).await] *)
Definition scope_async (trace_id : TraceId) (f k : fut) : fut := FScope trace_id f k.

(** The loop of a server, over the messages it receives: each handler runs in the trace of its message. *)
Fixpoint handle_all {M} (handle : Envelope M → fut) (inbox : list (Envelope M)) : fut :=
  match inbox with
  | [] => FDone
  | envelope :: inbox => FWait (scope_async (eh_trace_id (env_header envelope)) (handle envelope) (handle_all handle inbox))
  end.

(** Tasks on a thread, polled in the order of a schedule; with each header, the task that sent it *)
Fixpoint run_tasks (tasks : list fut) (th : Thread) (log : list (nat * EnvelopeHeader)) (schedule : list nat) :
    list fut * Thread * list (nat * EnvelopeHeader) :=
  match schedule with
  | [] => (tasks, th, log)
  | n :: schedule =>
      match tasks !! n with
      | None => run_tasks tasks th log schedule
      | Some f =>
          let '(th', (f', _)) := poll f (mkThread (cell th) (seq_no th) []) in
          run_tasks (<[n := f']> tasks) th' (log ++ ((n,.) <$> sent th')) schedule
      end
  end.

(** ** What a future tells, by the scopes in its text *)
Fixpoint told (t : TraceId) (f : fut) : list (Address * TraceId) :=
  match f with
  | FDone => []
  | FTell to k => (to, t) :: told t k
  | FWait k => told t k
  | FScope trace_id f k => told trace_id f ++ told t k
  end.

(** How often a future waits *)
Fixpoint waits (f : fut) : nat :=
  match f with FDone => 0 | FTell _ k => waits k | FWait k => S (waits k) | FScope _ f k => waits f + waits k end.

Definition mark (h : EnvelopeHeader) : Address * TraceId := (eh_to h, eh_trace_id h).

(** A poll leaves the variable as it was, sends what the text says under the trace it finds, and gets on. *)
Lemma poll_told f th : let '(th', (f', ready)) := poll f th in
  cell th' = cell th ∧ (∃ hs, sent th' = sent th ++ hs ∧ (mark <$> hs) ++ told (current (cell th)) f' = told (current (cell th)) f) ∧
  (if ready : bool then f' = FDone ∧ waits f = 0%nat else waits f = S (waits f')).
Proof.
  revert th. induction f as [|to k IH|k IH|t f IHf k IHk]; intros th; cbn [poll told waits].
  - split_and!; try done. exists []. by rewrite app_nil_r.
  - specialize (IH (tell th to)). destruct (poll k (tell th to)) as [th' [f' ready]]. destruct IH as (Hc & (hs & Hs & Ht) & Hr). cbn in Hc, Hs, Ht.
    split_and!; [done | | done]. eexists. split; [by rewrite Hs, <- app_assoc|]. cbn. by rewrite Ht.
  - split_and!; try done. exists []. by rewrite app_nil_r.
  - unfold scope_sync. specialize (IHf (set_cell th (tl_enter t (cell th)))).
    destruct (poll f (set_cell th (tl_enter t (cell th)))) as [th1 [f1 r1]]. destruct IHf as (Hc & (hs & Hs & Ht) & Hr). cbn in Hc, Hs, Ht.
    unfold current in Ht. rewrite Hc, tl_leave_enter in *. rewrite tl_get_enter in Ht. destruct r1; cbn.
    + destruct Hr as [-> Hw]. specialize (IHk (set_cell th1 (cell th))). destruct (poll k (set_cell th1 (cell th))) as [th2 [f2 r2]].
      destruct IHk as (Hc2 & (hs2 & Hs2 & Ht2) & Hr2). cbn in Hc2, Hs2, Ht2. rewrite Hw. split_and!; [done | | done].
      exists (hs ++ hs2). rewrite Hs2, Hs, fmap_app, <- !app_assoc. split; [done|]. rewrite Ht2, <- Ht. cbn. by rewrite app_nil_r.
    + split_and!; [done | | by rewrite Hr]. exists hs. split; [done|]. by rewrite app_assoc, Ht.
Qed.

(** ** Tasks *)
Definition sends (n : nat) (log : list (nat * EnvelopeHeader)) : list EnvelopeHeader := (filter (λ x, x.1 = n) log).*2.
Definition polled (n : nat) (schedule : list nat) : nat := length (filter (λ m, m = n) schedule).

Lemma sends_app n log log' : sends n (log ++ log') = sends n log ++ sends n log'.
Proof. unfold sends. by rewrite filter_app, fmap_app. Qed.
Lemma sends_own n hs : sends n ((n,.) <$> hs) = hs.
Proof. unfold sends. induction hs as [|h hs IH]; [done|]. rewrite fmap_cons, filter_cons_True by done. cbn. by rewrite IH. Qed.
Lemma sends_other n m hs : n ≠ m → sends n ((m,.) <$> hs) = [].
Proof. unfold sends. intros Hne. induction hs as [|h hs IH]; [done|]. by rewrite fmap_cons, filter_cons_False by (cbn; congruence). Qed.

Lemma run_tasks_told schedule tasks th log : let '(tasks', th', log') := run_tasks tasks th log schedule in
  cell th' = cell th ∧ ∀ n f, tasks !! n = Some f → ∃ f' new, tasks' !! n = Some f' ∧ sends n log' = sends n log ++ new ∧
    (mark <$> new) ++ told (current (cell th)) f' = told (current (cell th)) f ∧ ((waits f < polled n schedule)%nat ∨ f = FDone → f' = FDone).
Proof.
  revert tasks th log. induction schedule as [|m schedule IH]; intros tasks th log; cbn [run_tasks].
  - split; [done|]. intros n f Hn. exists f, []. rewrite app_nil_r. split_and!; try done. intros [Hw|]; [cbn in Hw; lia | done].
  - destruct (tasks !! m) as [g|] eqn:Em.
    2:{ specialize (IH tasks th log). destruct (run_tasks tasks th log schedule) as [[tasks' th'] log']. destruct IH as [Hc IH]. split; [done|].
        intros n f Hn. destruct (IH n f Hn) as (f' & new & H1 & H2 & H3 & H4). exists f', new. split_and!; try done.
        intros Hw. apply H4. unfold polled in *. by rewrite filter_cons_False in Hw by congruence. }
    pose proof (poll_told g (mkThread (cell th) (seq_no th) [])) as Hp.
    destruct (poll g (mkThread (cell th) (seq_no th) [])) as [th1 [g' ready]]. destruct Hp as (Hc1 & (hs & Hs & Ht) & Hr). cbn in Hc1, Hs, Ht.
    specialize (IH (<[m := g']> tasks) th1 (log ++ ((m,.) <$> sent th1))).
    destruct (run_tasks (<[m := g']> tasks) th1 (log ++ ((m,.) <$> sent th1)) schedule) as [[tasks' th'] log'].
    destruct IH as [Hc IH]. split; [congruence|]. rewrite Hc1, Hs in IH. intros n f Hn. destruct (decide (n = m)) as [->|Hne].
    + assert (g = f) as -> by congruence. destruct (IH m g') as (f' & new & H1 & H2 & H3 & H4); [by apply list_lookup_insert_eq, lookup_lt_Some with f|].
      exists f', (hs ++ new). rewrite H2, sends_app, sends_own, fmap_app, <- !app_assoc, H3. split_and!; try done.
      intros Hw. apply H4. destruct ready; [right; by destruct Hr|]. destruct Hw as [Hw| ->]; [left | done].
      unfold polled in *. rewrite filter_cons_True in Hw by done. cbn in Hw. lia.
    + destruct (IH n f) as (f' & new & H1 & H2 & H3 & H4); [by rewrite list_lookup_insert_ne|]. exists f', new.
      rewrite H2, sends_app, sends_other, app_nil_r by done. split_and!; try done. intros Hw. apply H4. unfold polled in *. by rewrite filter_cons_False in Hw by congruence.
Qed.

(** ** Servers *)
Fixpoint unscoped (f : fut) : bool := match f with FDone => true | FTell _ k | FWait k => unscoped k | FScope _ _ _ => false end.

Lemma unscoped_told f t : unscoped f = true → Forall (λ x, x.2 = t) (told t f).
Proof. induction f; cbn; try done; intros Hu; constructor; auto. Qed.

Lemma handle_all_told {M} (handle : Envelope M → fut) inbox t :
  told t (handle_all handle inbox) = inbox ≫= (λ e, told (eh_trace_id (env_header e)) (handle e)).
Proof. induction inbox as [|e inbox IH]; [done|]. rewrite bind_cons, <- IH. done. Qed.

(** What comes of a message is sent in its trace: when servers on a thread handle their messages, polled in any order, what a server has
    sent is, in order, what its handlers tell, each under the trace of the message it handled, with none missing once the server has
    been polled often enough, and with no trace of another server's message. Between two polls no trace is set. *)
Theorem traces_follow_messages {M} (handle : nat → Envelope M → fut) (inboxes : list (list (Envelope M))) th schedule n inbox :
  cell th = tl_unset → inboxes !! n = Some inbox → Forall (λ e, unscoped (handle n e) = true) inbox →
  let '(_, th', log) := run_tasks (imap (λ n, handle_all (handle n)) inboxes) th [] schedule in
  current (cell th') = 0 ∧
  (∃ rest, (mark <$> sends n log) ++ rest = inbox ≫= (λ e, told (eh_trace_id (env_header e)) (handle n e)) ∧
    ((waits (handle_all (handle n) inbox) < polled n schedule)%nat → rest = [])) ∧
  Forall (λ h, ∃ e, e ∈ inbox ∧ eh_trace_id h = eh_trace_id (env_header e)) (sends n log).
Proof.
  intros Hc Hn Hu. pose proof (run_tasks_told schedule (imap (λ n, handle_all (handle n)) inboxes) th []) as Hr.
  destruct (run_tasks _ th [] schedule) as [[tasks' th'] log]. destruct Hr as [Hc' Hr].
  destruct (Hr n (handle_all (handle n) inbox)) as (f' & new & _ & Hs & Ht & Hd); [by rewrite list_lookup_imap, Hn|].
  rewrite Hc', Hc. split; [by unfold current; rewrite tl_get_unset|]. cbn in Hs. rewrite handle_all_told in Ht. rewrite Hs. split.
  - exists (told (current (cell th)) f'). split; [done|]. intros Hw. by rewrite Hd by auto.
  - apply Forall_forall. intros h Hh. assert (mark h ∈ inbox ≫= λ e, told (eh_trace_id (env_header e)) (handle n e)) as Hin.
    { rewrite <- Ht. apply elem_of_app. left. by apply list_elem_of_fmap_2. }
    apply list_elem_of_bind in Hin as (e & Hm & He). exists e. split; [done|]. rewrite Forall_forall in Hu.
    pose proof (unscoped_told (handle n e) (eh_trace_id (env_header e)) (Hu e He)) as Hf. rewrite Forall_forall in Hf. exact (Hf _ Hm).
Qed.
End Tracing.

(** ** Examples *)
#[local] Instance option_cell : TaskLocal (option TraceId).
Proof.
  refine {| tl_unset := None; tl_try_get c := match c with Some t => Ok t | None => Err tt end; tl_enter t _ := Some t; tl_leave c _ := c |}; done.
Defined.

(** Two servers, each of which waits in the middle of a handler and then answers; the messages have traces 7 and 8, and 9. *)
Definition ex_handle (n : nat) (e : Envelope unit) : fut := FTell (100 + Z.of_nat n) (FWait (FTell 5 FDone)).
Definition ex_mail (t : TraceId) : Envelope unit := mkEnvelope (mkEnvHeader 1 t 0 15 false) tt.

Lemma traces_follow_messages_witness : let '(_, th, log) :=
    run_tasks (imap (λ n, handle_all (ex_handle n)) [[ex_mail 7; ex_mail 8]; [ex_mail 9]]) (mkThread None 0 []) [] [0; 1; 0; 1; 0; 1; 0; 0]%nat in
  current (cell th) = 0 ∧ mark <$> sends 0 log = [(100, 7); (5, 7); (100, 8); (5, 8)] ∧
  Forall (λ h, ∃ e, e ∈ [ex_mail 7; ex_mail 8] ∧ eh_trace_id h = eh_trace_id (env_header e)) (sends 0 log).
Proof.
  pose proof (traces_follow_messages ex_handle [[ex_mail 7; ex_mail 8]; [ex_mail 9]] (mkThread None 0 []) [0; 1; 0; 1; 0; 1; 0; 0]%nat 0 [ex_mail 7; ex_mail 8]
    eq_refl eq_refl ltac:(by repeat constructor)) as Hw.
  destruct (run_tasks _ _ _ _) as [[tasks th] log]. destruct Hw as (Hc & (rest & Hr & Hd) & Hf). split; [exact Hc|]. split; [|exact Hf].
  rewrite Hd, app_nil_r in Hr by (vm_compute; lia). exact Hr.
Defined.
